(* ===== verification/_CoqProject ===== *)
-Q . S2P
Prelude.v
StdMap.v
StdString.v
Types.v
Endian.v
Chunk.v
VPack.v
ToyVPack.v
Message.v
HeaderCodec.v
Url.v
RequestItem.v
MessageStore.v
VstConnection.v
VstInvariant.v
VstReceive.v
VstProperties.v
VstDeadline.v
VstStream.v
VstAuthentication.v
VstMalformed.v
Pool.v
VstThreads.v
VstAnswers.v
VstSending.v
VstRestarts.v
Curl.v
ToyCurl.v
TransferEngine.v
CurlMultiAsio.v
DriverThreads.v
DriverTransfers.v
DriverTimers.v
HttpUrl.v
HttpConnection.v
HttpProperties.v
HttpRequest.v
HttpThreads.v
HttpLog.v
HeaderInvariant.v
Sync.v
ConnectionBuilder.v
Contract.v
VstContract.v
VstStage.v
VstWriting.v
VstDelivery.v
VstNetwork.v
VstPeer.v
VstServer.v
HttpContract.v
SyncContract.v
FuerteGet.v
EventLoop.v
Database.v
