(* ===== verification/Prelude.v ===== *)
(** * fuerte: the verification of a client library for ArangoDB

    fuerte sends requests to a database server and calls back with its responses,
    over VelocyStream (VST), a binary protocol of its own, or over HTTP.  This
    library models the C++ of src/ and include/fuerte/ as Rocq functions and proves
    what makes it correct, and where it is not.  This file, the root,
    holds what all others share: outcomes, state monad, machine words, bytes.

    ** The program and its model

    A user makes a connection with a [ConnectionBuilder] and sends [Request]s,
    with a callback or waiting for the response.  A connection gives each
    request an id, keeps it in a [MessageStore] until its response arrives, and
    calls its callback through a [CallOnceRequestCallback].  A [VstConnection]
    cuts requests into chunks, writes them to its socket, and assembles the
    chunks it reads into responses; an [HttpConnection] hands requests to
    libcurl, which [CurlMultiAsio] drives from the boost io service.

    Data and codecs
    - StdMap.v, StdString.v: [std::map] as a sorted list, related to [gmap];
      the members of [std::string] with C++'s rules for positions.
    - Types.v (types.h, types.cpp): enumerations, error codes, configuration.
    - Endian.v (portable_endian.h): byte order, for hosts of both orders.
    - Chunk.v (vst.h, vst.cpp): chunk headers in both protocol versions,
      [buildChunks], [isChunkComplete], [readChunkHeader].
    - VPack.v: VelocyPack, a third-party library, as a class of operations with
      laws; ToyVPack.v: a small format that satisfies them.
    - Message.v (message.h, message.cpp, requests.cpp, and [validateAndCount] of
      vst.cpp): headers, [Request], [Response], [createRequest].
    - HeaderCodec.v (vst.cpp, helper.cpp): the VelocyPack header of a message.
    - Url.v (helper.cpp, helper.h): URL coding and printing.

    Requests in flight
    - RequestItem.v (CallOnceRequestCallback.h, vst.h, vst.cpp): the callback, a
      request prepared for the network, the chunks received for it.
    - MessageStore.v (MessageStore.h): the store, for any item type.

    VelocyStream
    - VstConnection.v (VstConnection.h, VstConnection.cpp): state and handlers.
      [perform] runs one handler or one call of the user.
    - VstInvariant.v, VstReceive.v, VstProperties.v, VstDeadline.v, VstStream.v,
      VstAuthentication.v: the invariant of all runs, the receiving side, the
      properties, the timeouts, the responses on a stream of bytes, and what follows a
      failed authentication.  VstMalformed.v: a response that cannot be decoded.  VstStage.v, VstWriting.v: what is written, and in which
      order, from the protocol header to the end of the first connection.
      VstDelivery.v: what is written over all connections, with a log of the accepted
      requests.  VstNetwork.v: what of it a network transmits over the first connection.
      VstPeer.v, VstServer.v: how a server reads it.
    - VstThreads.v: the same code at a finer grain: threads that send, callbacks that
      send, and handlers run in parallel, and a step is one access to a lock or an
      atomic variable.  VstAnswers.v: what holds in all runs; VstSending.v: in those
      without failures; VstRestarts.v: what goes wrong during a restart.  Pool.v:
      lemmas on pools of threads.

    HTTP
    - Curl.v, ToyCurl.v: libcurl's multi interface as a class with laws, and a
      small instance.  TransferEngine.v: what the connection needs of its driver.
    - CurlMultiAsio.v (CurlMultiAsio.h, CurlMultiAsio.cpp): the driver, with its
      heaps, mutexes and the callbacks libcurl makes.
    - DriverThreads.v, DriverTransfers.v, DriverTimers.v: its handlers in parallel,
      where a step is a lock or unlock, a call of libcurl, or one use of the timer;
      the transfers, which keep the contract of TransferEngine.v too, and the timeouts.
    - HttpUrl.v, HttpConnection.v (HttpConnection.h, HttpConnection.cpp): URLs and
      header lines; state and operations of the connection.
    - HttpProperties.v, HttpRequest.v: its invariant and properties; witnesses
      run it over the driver and the small libcurl.  HttpThreads.v: the connection
      over the driver with threads.
    - HttpLog.v (HttpConnection.cpp): the tracing functions.
    - HeaderInvariant.v: the metadata of headers, for both protocols.

    On top
    - Sync.v (waitgroup.h, connection.cpp): the synchronous [sendRequest].
    - ConnectionBuilder.v (connection.h, ConnectionBuilder.cpp).
    - Contract.v: what a connection promises, as an abstract machine and a class
      of laws; VstContract.v and HttpContract.v: the two connections keep it;
      SyncContract.v: the synchronous call over any connection that does.
    - FuerteGet.v (tools/fuerte-get.cpp): the command line client.
    - EventLoop.v (loop.h, loop.cpp, VpackInit.h): the threads that run handlers,
      and the global initialisation.
    - Database.v (database.h, collection.h and sources): stubs.

    ** Reading the model

    A definition has the name of the C++ entity where Rocq allows it, and its
    order of effects, conditions and early returns.  Fallible code returns [res]:
    a value, an exception, or undefined behaviour; what the C++ standard leaves
    undefined, a failing [assert] and the read of an empty [optional] are the
    outcome [Undef], so a theorem that a computation returns or throws says that
    it is safe.  Code with state is in the monad [stm], in which an exception
    keeps the changes made before it.  Integers are [Z], with [u8], [u32], [u64]
    and [i32] where a value is stored in a type of that width.  Objects shared by
    pointers live in lists or maps of the state and are named by their index.

    The io service runs one handler at a time.  An asynchronous operation is a
    handler in the list of pending ones, and may complete with any outcome and in
    any order, also after it has been cancelled.  A run is a sequence of such
    steps and of calls of users ([reaches], [reachable], [http_reaches],
    [sync_reachable]); what is proved of runs is proved by induction over them.
    The mutexes make the operations they guard single steps; CurlMultiAsio.v and
    DriverThreads.v have them as state, since libcurl calls back while they are held,
    and VstThreads.v those of the write loop and of the store, which are held over
    several steps.  There, and in DriverThreads.v, a thread is the list of the
    instructions it has still to execute, a method the instructions it stands for.

    ** What is proved

    - The contract: an abstract connection accepts requests and answers each at
      most once, with a response of the same message id or an error code.  Every
      run of both connections is a run of it ([vst_refines_contract],
      [http_refines_contract]), and the synchronous call is proved against the
      contract alone ([sync_over_contract]), as is the client's callback
      ([client_callback_safe]).
    - Codecs: chunk headers, message headers, URLs and queries are read back as
      they were written ([chunk_roundtrip], [request_header_codec],
      [url_roundtrip], [destination_query]); what is written for any requests is
      read back as these requests by the receiving code ([stream_understood]);
      [buildChunks] carries exactly the bytes of a message; chunks are assembled in
      any order of arrival; the buffers written for a request denote its chunks and
      do not dangle.
    - Types: whatever is received, the maps of a header are sorted, and every
      operation keeps them so ([headers_well_formed], [request_invariant]).
    - Connections: no request is lost, none is answered twice, the right
      response or error reaches the right callback ([no_request_lost],
      [responses_over_stream], [response_delivered], [shutdown_answers_all]; requests are
      written in the order they were accepted, behind header and authentication,
      one write at a time [first_stream], and each of them once, whatever is restarted
      [written_once]; what a network has transmitted of them over the first socket, a server
      reads as the first of these requests, complete and in order [requests_reach_server];
      [http_no_request_lost], [handleResult_outcome]); a read waits no longer
      than any request allows ([read_deadline_bounds]).
    - The driver: memory safety and absence of self-deadlock for every behaviour
      libcurl's documentation allows ([multi_never_crashes]); each completion is
      posted once ([check_multi_info_correct]).
    - Waiting: the synchronous call returns exactly what the callback was given,
      in all interleavings ([sync_result], [sync_waits_for_callback]); the event
      loop serves every handler and is left only when nothing is under way
      ([loop_serves_handlers]).
    - The client: the arguments are parsed as a grammar says
      ([client_arguments]) and become a request ([client_over_http]).
    - Termination of every loop, as part of these theorems or as
      [urlDecode_total], [safe_dotted_url] and [traced_body].
    - Threads: in all interleavings of senders and handlers nothing is lost, sent
      twice or reordered, no thread waits for ever ([concurrent_sending_safe]),
      and in the end all is written ([concurrent_sending_live]), as long as
      no operation fails, no deadline expires and no response is malformed; with all of these
      and restarts every accepted request is still in exactly one place, or lost
      by a malformed response, and called back at most once ([requests_accounted]), and the
      only deadlock is that of callbacks of [cancelAll] that send ([mutex_discipline]).  The handlers of
      the libcurl driver use libcurl one at a time and without deadlock
      ([driver_serialised]), handle every transfer once ([transfers_handled]) and
      tell libcurl of its timeouts ([timeout_provided]); an HTTP connection over them
      does not get stuck ([http_over_threads]).
    - Deviations: theorems named after what goes wrong state, for all inputs
      of a described kind, what the code does instead of what it means to do;
      among them [tls_is_bypassed], [send_after_restart_crashes],
      [malformed_response_loses_request], [failed_connect_forgets_queue],
      [restart_writes_before_header],
      [event_not_rearmed], [destroyed_while_posted], [malformed_chunk],
      [failed_authentication_strands_queue], [cancel_callback_deadlock],
      [restart_frees_new_loop], [authentication_overtaken],
      [late_cancel_loses_timeout] and [exception_ends_program].

    ** Fuel

    A loop that is not structural takes a bound on its rounds, and running out of
    it is [Undef], which the theorems exclude: [cut_loop], [chunks_loop] and
    [decode_loop] consume at least a byte per round and get the length of the
    data; [safe_loop] gets the length of the URL; [part_loop] of [buildChunks]
    gets the length of the part it cuts; [messages_loop] gets the number
    of libcurl's messages, which every round lowers; [body_loop] and
    [headers_loop] get the length of the text, [parse_loop] the number of
    arguments.  [createRequest_database]
    takes fuel because the code recurses for ever, which is a lemma.

    ** Hypotheses

    Third-party code enters as classes with laws, each with an instance that
    satisfies them: VelocyPack ([VPackLaws]), [velocypack::Buffer]
    ([VBufferLaws]), [std::sort] ([StdSortLaws]), [boost::split]
    ([BoostSplitLaws]), libcurl ([CurlLaws], [CurlMethodLaws]).  Values of
    uninitialised memory are parameters ([hdr0], [chunk0]).  Users' callbacks
    do not call back into a connection, except in VstThreads.v, where they send any
    number of requests.  The network of VstNetwork.v is what boost documents of
    [async_write]: it completes without an error only when all data have been transmitted.  Message ids do not wrap around; the theorems bound their
    number, except in VstThreads.v, where they are natural numbers.

    ** Not modelled

    Output: the macros of FuerteLogger.h and the streams of traces and of the
    client, whose text is the result of the functions here.  The throwing overload of
    [socket::cancel] in [shutdownSocket], which fails only on a socket that is not open:
    the handlers are modelled with a [cancel] that succeeds, and [cancel_throws]
    of VstConnection.v says what is left undone when it does not.  Handlers of a connection that
    run in parallel, except in VstThreads.v and DriverThreads.v and the files above
    them: elsewhere a handler is one step.  VstThreads.v leaves out the contents of
    messages and the destructor, which runs when no thread has the connection any
    more; DriverThreads.v leaves out the heaps of sockets.
    The end of the client's [main], where the destructors of connection and service
    meet.  xxhash.h, which nothing uses, the tests and examples, and
    the vendored googletest. *)
From Stdlib Require Export ZArith Lia.
From Stdlib Require Import Strings.Byte.
From Stdlib Require Export Strings.Ascii.
From stdpp Require Export base tactics option list numbers gmap strings sorting.

(** ** Outcomes

    [res A] is the result of a C++ computation: a value, a thrown exception,
    or undefined behaviour (a read outside a buffer, [operator[]] outside a
    vector, a failing [assert], an empty [boost::optional] that is read).  The
    end of the program by [exit(status)] is an outcome of the second kind that
    no handler catches. *)

Inductive exn : Type :=
| logic_error (what : string)
| runtime_error (what : string)
| invalid_argument (what : string)
| overflow_error (what : string)
| length_error (what : string)
| out_of_range (what : string)
| vpack_exception (what : string)
| error_condition (code : Z)
| bad_alloc
| bad_weak_ptr
| std_exception
| foreign_exception (n : Z)
| process_exit (status : Z).

(** What [catch (std::exception const&)] catches. *)
Definition is_std_exception (e : exn) : bool :=
  match e with foreign_exception _ | process_exit _ => false | _ => true end.

Inductive res (A : Type) : Type :=
| Ok (a : A)
| Throw (e : exn)
| Undef (what : string).
Arguments Ok {A} a.
Arguments Throw {A} e.
Arguments Undef {A} what.

#[export] Instance res_ret : MRet res := fun A a => Ok a.
#[export] Instance res_bind : MBind res := fun A B k m =>
  match m with Ok a => k a | Throw e => Throw e | Undef s => Undef s end.
#[export] Instance exn_eq_dec : EqDecision exn.
Proof. solve_decision. Defined.
#[export] Instance res_eq_dec `{EqDecision A} : EqDecision (res A).
Proof. solve_decision. Defined.

(** [assert(b)]: in a debug build a failing assertion aborts. *)
Definition cassert (b : bool) (what : string) : res unit :=
  if b then Ok () else Undef what.

(** [optional::get()]: reading an empty optional is undefined. *)
Definition get {A} (o : option A) : res A :=
  match o with Some a => Ok a | None => Undef "get() of an empty optional" end.

(** Mapping a failing function over a list, first element first. *)
Fixpoint res_map {A B} (f : A -> res B) (l : list A) : res (list B) :=
  match l with
  | [] => Ok []
  | x :: l => y ← f x; ys ← res_map f l; Ok (y :: ys)
  end.

Definition is_Ok {A} (r : res A) : Prop := exists a, r = Ok a.

(** The three ways a bind can produce an outcome. *)
Lemma bind_Ok {A B} (m : res A) (k : A -> res B) b :
  (m ≫= k) = Ok b <-> exists a, m = Ok a /\ k a = Ok b.
Proof.
  split.
  - destruct m; cbn; intros H; simplify_eq; eauto.
  - intros (a & -> & H). exact H.
Qed.

Lemma bind_ret_l {A B} (a : A) (k : A -> res B) : (Ok a ≫= k) = k a.
Proof. reflexivity. Qed.

Lemma bind_assoc {A B C} (m : res A) (f : A -> res B) (g : B -> res C) :
  ((m ≫= f) ≫= g) = (m ≫= fun x => f x ≫= g).
Proof. by destruct m. Qed.

(** Results that are no exception. *)
Definition no_throw {A} (r : res A) : Prop := match r with Throw _ => False | _ => True end.
Lemma no_throw_bind {A B} (r : res A) (k : A -> res B) :
  no_throw r -> (forall a, no_throw (k a)) -> no_throw (r ≫= k).
Proof. intros Hr Hk. destruct r; [apply Hk|done..]. Qed.
Lemma no_throw_get {A} (o : option A) : no_throw (get o).
Proof. by destruct o. Qed.
Lemma no_throw_cassert b what : no_throw (cassert b what).
Proof. by destruct b. Qed.
Lemma no_throw_res_map {A B} (f : A -> res B) l : (forall x, no_throw (f x)) -> no_throw (res_map f l).
Proof.
  intros Hf. induction l as [|x l IH]; [done|]. cbn [res_map].
  apply no_throw_bind; [apply Hf|intros y]. by apply no_throw_bind.
Qed.

Lemma res_map_Ok_length {A B} (f : A -> res B) l l' :
  res_map f l = Ok l' -> length l' = length l.
Proof.
  revert l'. induction l as [|x l IH]; intros l'; cbn [res_map].
  - intros [= <-]. reflexivity.
  - intros (y & _ & (ys & Hys & [= <-])%bind_Ok)%bind_Ok.
    cbn. by rewrite (IH _ Hys).
Qed.

Lemma res_map_all_Ok {A B} (f : A -> res B) (g : A -> B) l :
  (forall x, x ∈ l -> f x = Ok (g x)) -> res_map f l = Ok (g <$> l).
Proof.
  induction l as [|x l IH]; intros H; [done|].
  cbn [res_map]. rewrite H by left. cbn. rewrite IH; [done|].
  intros y Hy. apply H. by right.
Qed.

Lemma res_map_app {A B} (f : A -> res B) l1 l2 r1 r2 :
  res_map f l1 = Ok r1 -> res_map f l2 = Ok r2 -> res_map f (l1 ++ l2) = Ok (r1 ++ r2).
Proof.
  revert r1. induction l1 as [|x l1 IH]; intros r1 H1 H2; cbn [res_map app] in *.
  { by injection H1 as <-. }
  apply bind_Ok in H1 as (y & -> & (ys & Hys & [= <-])%bind_Ok).
  by rewrite bind_ret_l, (IH ys Hys H2).
Qed.

(** A function that agrees with [f] where [f] returns. *)
Lemma res_map_mono {A B} (f g : A -> res B) l r :
  (forall x y, f x = Ok y -> g x = Ok y) -> res_map f l = Ok r -> res_map g l = Ok r.
Proof.
  intros Hfg. revert r. induction l as [|x l IH]; intros r; cbn [res_map]; [done|].
  intros (y & Hx & (ys & Hys & [= <-])%bind_Ok)%bind_Ok.
  by rewrite (Hfg _ _ Hx), bind_ret_l, (IH _ Hys).
Qed.

(** Case analysis of a computation that returned. *)
Ltac inv_ok :=
  repeat match goal with
  | H : (_ ≫= _) = Ok _ |- _ => apply bind_Ok in H as (? & ? & ?)
  | H : Ok _ = Ok _ |- _ => injection H as H; subst
  | H : Throw _ = Ok _ |- _ => discriminate H
  | H : Undef _ = Ok _ |- _ => discriminate H
  | H : cassert ?b _ = Ok _ |- _ => unfold cassert in H; destruct b eqn:?; [|discriminate H]
  end.

(** ** Stateful computations

    [stm S A]: a computation over a state [S].  A thrown exception keeps the
    changes made before it, as in C++. *)
Definition stm (S A : Type) : Type := S -> res A * S.
#[export] Instance stm_ret {S} : MRet (stm S) := fun A a s => (Ok a, s).
#[export] Instance stm_bind {S} : MBind (stm S) := fun A B k m s =>
  match m s with
  | (Ok a, s') => k a s'
  | (Throw e, s') => (Throw e, s')
  | (Undef w, s') => (Undef w, s')
  end.

Section StateMonad.
Context {S : Type}.

Definition reads {A} (f : S -> A) : stm S A := fun s => (Ok (f s), s).
Definition modify (f : S -> S) : stm S unit := fun s => (Ok (), f s).
Definition lift {A} (r : res A) : stm S A := fun s => (r, s).
Definition skip : stm S unit := fun s => (Ok (), s).

(** Running a computation for every element, first element first. *)
Fixpoint for_each {A} (f : A -> stm S unit) (l : list A) : stm S unit :=
  match l with [] => skip | x :: l => _ ← f x; for_each f l end.

(** A triple: from a state in [P], a computation that returns leads to [Q],
    one that throws to [E].  Undefined behaviour is not constrained. *)
Definition triple {A} (P : S -> Prop) (m : stm S A) (Q : A -> S -> Prop) (E : S -> Prop) : Prop :=
  forall s, P s ->
    match m s with (Ok a, s') => Q a s' | (Throw _, s') => E s' | (Undef _, _) => True end.

Lemma triple_ret {A} P (a : A) Q E : (forall s, P s -> Q a s) -> triple P (mret a) Q E.
Proof. intros H s Hs. by apply H. Qed.

Lemma triple_bind {A B} P (m : stm S A) (k : A -> stm S B) R Q E :
  triple P m R E -> (forall a, triple (R a) (k a) Q E) -> triple P (m ≫= k) Q E.
Proof.
  intros Hm Hk s Hs. specialize (Hm s Hs). unfold mbind, stm_bind.
  destruct (m s) as [[a|e|w] s']; [|done|done]. by apply Hk.
Qed.

Lemma triple_reads {A} P (f : S -> A) Q E : (forall s, P s -> Q (f s) s) -> triple P (reads f) Q E.
Proof. intros H s Hs. by apply H. Qed.

Lemma triple_modify P (f : S -> S) Q E : (forall s, P s -> Q () (f s)) -> triple P (modify f) Q E.
Proof. intros H s Hs. by apply H. Qed.

Lemma triple_lift {A} P (r : res A) Q E :
  (forall a s, r = Ok a -> P s -> Q a s) -> (forall s, P s -> E s) -> triple P (lift r) Q E.
Proof. intros H HE s Hs. unfold lift. destruct r; [by apply H|by apply HE|done]. Qed.

Lemma triple_skip P Q E : (forall s, P s -> Q () s) -> triple P skip Q E.
Proof. intros H s Hs. by apply H. Qed.

Lemma triple_conseq {A} (P P' : S -> Prop) (m : stm S A) (Q Q' : A -> S -> Prop) (E E' : S -> Prop) :
  triple P' m Q' E' -> (forall s, P s -> P' s) -> (forall a s, Q' a s -> Q a s) ->
  (forall s, E' s -> E s) -> triple P m Q E.
Proof.
  intros Hm HP HQ HE s Hs. specialize (Hm s (HP s Hs)).
  destruct (m s) as [[a|e|w] s']; auto.
Qed.

(** A computation that keeps an invariant, whether it returns or throws. *)
Definition keeps {A} (I : S -> Prop) (m : stm S A) : Prop := triple I m (fun _ => I) I.

Lemma keeps_bind {A B} I (m : stm S A) (k : A -> stm S B) :
  keeps I m -> (forall a, keeps I (k a)) -> keeps I (m ≫= k).
Proof. apply triple_bind. Qed.
Lemma keeps_ret {A} I (a : A) : keeps I (mret a : stm S A).
Proof. by apply triple_ret. Qed.
Lemma keeps_reads {A} I (f : S -> A) : keeps I (reads f).
Proof. by apply triple_reads. Qed.
Lemma keeps_lift {A} I (r : res A) : keeps I (lift r).
Proof. by apply triple_lift. Qed.
Lemma keeps_skip I : keeps I skip.
Proof. by apply triple_skip. Qed.
Lemma keeps_modify I f : (forall s, I s -> I (f s)) -> keeps I (modify f).
Proof. intros H. by apply triple_modify. Qed.
Lemma keeps_for_each {A} I (f : A -> stm S unit) l :
  (forall x, keeps I (f x)) -> keeps I (for_each f l).
Proof. intros Hf. induction l; [apply keeps_skip|by apply keeps_bind]. Qed.
(** Computations that throw no exception. *)
Definition never_throws {A} (m : stm S A) : Prop := forall s, no_throw (m s).1.

Lemma never_throws_bind {A B} (m : stm S A) (k : A -> stm S B) :
  never_throws m -> (forall a, never_throws (k a)) -> never_throws (m ≫= k).
Proof.
  intros Hm Hk s. specialize (Hm s). unfold mbind, stm_bind.
  destruct (m s) as [[a|e|w] s']; [apply Hk|done..].
Qed.
Lemma never_throws_ret {A} (a : A) : never_throws (mret a).
Proof. done. Qed.
Lemma never_throws_reads {A} (f : S -> A) : never_throws (reads f).
Proof. done. Qed.
Lemma never_throws_modify f : never_throws (modify f).
Proof. done. Qed.
Lemma never_throws_skip : never_throws skip.
Proof. done. Qed.
Lemma never_throws_lift {A} (r : res A) : no_throw r -> never_throws (lift r).
Proof. intros Hr s. unfold lift. by destruct r. Qed.
Lemma keeps_never_throws {A} I (m : stm S A) :
  keeps I m -> never_throws m -> triple I m (fun _ => I) (fun _ => False).
Proof.
  intros Hk Hn s HI. specialize (Hk s HI). specialize (Hn s). by destruct (m s) as [[] ?].
Qed.
(** Weakest preconditions: the computation does not run into undefined
    behaviour, and it leads to [Q] when it returns and to [E] when it throws. *)
Definition wp {A} (m : stm S A) (Q : A -> S -> Prop) (E : exn -> S -> Prop) (s : S) : Prop :=
  match m s with (Ok a, s') => Q a s' | (Throw e, s') => E e s' | (Undef _, _) => False end.

Lemma wp_bind {A B} (m : stm S A) (k : A -> stm S B) Q E s :
  wp m (fun a => wp (k a) Q E) E s -> wp (m ≫= k) Q E s.
Proof. unfold wp, mbind, stm_bind. by destruct (m s) as [[] ?]. Qed.
Lemma wp_mono {A} (m : stm S A) (Q Q' : A -> S -> Prop) (E E' : exn -> S -> Prop) s :
  wp m Q E s -> (forall a s, Q a s -> Q' a s) -> (forall e s, E e s -> E' e s) -> wp m Q' E' s.
Proof. unfold wp. destruct (m s) as [[] ?]; auto. Qed.
Lemma wp_ret {A} (a : A) (Q : A -> S -> Prop) E s : Q a s -> wp (mret a) Q E s.
Proof. done. Qed.
Lemma wp_reads {A} (f : S -> A) (Q : A -> S -> Prop) E s : Q (f s) s -> wp (reads f) Q E s.
Proof. done. Qed.
Lemma wp_modify (f : S -> S) (Q : unit -> S -> Prop) E s : Q () (f s) -> wp (modify f) Q E s.
Proof. done. Qed.
Lemma wp_skip (Q : unit -> S -> Prop) E s : Q () s -> wp skip Q E s.
Proof. done. Qed.
Lemma wp_lift_Ok {A} (r : res A) a (Q : A -> S -> Prop) E s : r = Ok a -> Q a s -> wp (lift r) Q E s.
Proof. by intros ->. Qed.
Lemma wp_outcome {A} (m : stm S A) Q E s : wp m Q E s ->
  (exists a s', m s = (Ok a, s') /\ Q a s') \/ (exists e s', m s = (Throw e, s') /\ E e s').
Proof. unfold wp. destruct (m s) as [[] ?]; naive_solver. Qed.
End StateMonad.
Create HintDb keeps.
#[export] Hint Resolve keeps_bind keeps_ret keeps_reads keeps_lift keeps_skip keeps_for_each : keeps.

(** Decompose a computation into its elementary steps. *)
Ltac keeps_step :=
  match goal with
  | |- keeps _ (_ ≫= _) => apply keeps_bind; [|intros]
  | |- keeps _ (match ?x with _ => _ end) => destruct x
  | |- keeps _ (if ?b then _ else _) => destruct b
  | |- keeps _ _ => solve [eauto 2 with keeps]
  end.

Create HintDb never_throws.
#[export] Hint Resolve never_throws_bind never_throws_ret never_throws_reads never_throws_modify
  never_throws_skip never_throws_lift : never_throws.
#[export] Hint Resolve no_throw_bind no_throw_get no_throw_cassert no_throw_res_map : never_throws.
Ltac never_throws_step :=
  match goal with
  | |- never_throws (_ ≫= _) => apply never_throws_bind; [|intros]
  | |- never_throws (match ?x with _ => _ end) => destruct x
  | |- never_throws (if ?b then _ else _) => destruct b
  | |- never_throws _ => solve [eauto 3 with never_throws]
  end.

(** Execute the elementary steps of a computation. *)
Ltac wp_step :=
  match goal with
  | |- wp (_ ≫= _) _ _ _ => apply wp_bind
  | |- wp (mret _) _ _ _ => apply wp_ret
  | |- wp (reads _) _ _ _ => apply wp_reads
  | |- wp (modify _) _ _ _ => apply wp_modify
  | |- wp skip _ _ _ => apply wp_skip
  end.

(** ** Machine integers *)
Section Words.
Local Open Scope Z_scope.

(** The value of an integer expression stored in a [w]-bit unsigned type. *)
Definition wrap (w : Z) (z : Z) : Z := z mod 2 ^ w.
(** Conversion to [int]. *)
Definition i32 (z : Z) : Z := (z + 2 ^ 31) mod 2 ^ 32 - 2 ^ 31.
Definition u8 : Z -> Z := wrap 8.
Definition u32 : Z -> Z := wrap 32.
Definition u64 : Z -> Z := wrap 64.

Lemma wrap_range w z : 0 <= w -> 0 <= wrap w z < 2 ^ w.
Proof. intros. unfold wrap. apply Z.mod_pos_bound. by apply Z.pow_pos_nonneg. Qed.

Lemma u32_range z : 0 <= u32 z < 2 ^ 32.
Proof. by apply wrap_range. Qed.
Lemma u64_range z : 0 <= u64 z < 2 ^ 64.
Proof. by apply wrap_range. Qed.
Lemma u32_id z : 0 <= z < 2 ^ 32 -> u32 z = z.
Proof. intros. by apply Z.mod_small. Qed.
Lemma u64_id z : 0 <= z < 2 ^ 64 -> u64 z = z.
Proof. intros. by apply Z.mod_small. Qed.

Lemma i32_id z : - 2 ^ 31 <= z < 2 ^ 31 -> i32 z = z.
Proof. intros. unfold i32. rewrite Z.mod_small; lia. Qed.

Lemma shiftl_1 z : Z.shiftl z 1 = 2 * z.
Proof. rewrite Z.shiftl_mul_pow2 by lia. lia. Qed.
Lemma shiftr_1 z : Z.shiftr z 1 = z / 2.
Proof. by rewrite Z.shiftr_div_pow2. Qed.
Lemma land_1 z : Z.land z 1 = z mod 2.
Proof. change 1 with (Z.ones 1). by rewrite Z.land_ones. Qed.
End Words.

Create HintDb fuerte.
Create Rewrite HintDb fuerte.
#[export] Hint Resolve u32_range u64_range : fuerte.
#[export] Hint Rewrite shiftl_1 shiftr_1 land_1 : fuerte.

(** Arithmetic with the div/mod equations of the shifts and masks. *)
Ltac zdm := Z.to_euclidean_division_equations; lia.

(** Decide the integer comparisons of the goal from the hypotheses. *)
Ltac zbool :=
  repeat match goal with
  | |- context [Z.ltb ?a ?b] =>
      first [rewrite (proj2 (Z.ltb_lt a b)) by lia | rewrite (proj2 (Z.ltb_ge a b)) by lia]
  | |- context [Z.leb ?a ?b] =>
      first [rewrite (proj2 (Z.leb_le a b)) by lia | rewrite (proj2 (Z.leb_gt a b)) by lia]
  | |- context [Z.eqb ?a ?b] =>
      first [rewrite (proj2 (Z.eqb_eq a b)) by lia | rewrite (proj2 (Z.eqb_neq a b)) by lia]
  end.

(** ** Bytes *)
Abbreviation byte := Byte.byte.

Section Bytes.
Local Open Scope Z_scope.

Definition Z_of_byte (b : byte) : Z := Z.of_N (Byte.to_N b).
(** Conversion to [unsigned char]: reduction modulo 256. *)
Definition byte_of_Z (z : Z) : byte :=
  match Byte.of_N (Z.to_N (u8 z)) with Some b => b | None => Byte.x00 end.

Lemma Z_of_byte_range b : 0 <= Z_of_byte b < 256.
Proof. unfold Z_of_byte. pose proof (Byte.to_N_bounded b). lia. Qed.

Lemma Z_of_byte_of_Z z : Z_of_byte (byte_of_Z z) = z mod 256.
Proof.
  unfold byte_of_Z, Z_of_byte.
  pose proof (wrap_range 8 z ltac:(lia)) as Hr.
  change (u8 z) with (wrap 8 z). destruct (Byte.of_N _) as [b|] eqn:E.
  - apply Byte.to_of_N in E. rewrite E.
    rewrite Z2N.id by lia. reflexivity.
  - apply Byte.of_N_None_iff in E. lia.
Qed.

Lemma byte_of_Z_of_byte b : byte_of_Z (Z_of_byte b) = b.
Proof. by destruct b. Qed.

Lemma byte_of_Z_mod z : byte_of_Z (z mod 256) = byte_of_Z z.
Proof. unfold byte_of_Z, u8, wrap. by rewrite Z.mod_mod. Qed.
End Bytes.

#[export] Instance byte_eq_dec : EqDecision byte := Byte.byte_eq_dec.

(** ** Lists *)
Lemma filter_all {A} (P : A -> Prop) `{!forall x, Decision (P x)} (l : list A) :
  (forall x, x ∈ l -> P x) -> filter P l = l.
Proof.
  induction l as [|x l IH]; intros Hl; [done|]. rewrite filter_cons_True by (apply Hl; left).
  rewrite IH; [done|]. intros y Hy. apply Hl. by right.
Qed.
Section Lists.
Context {A : Type}.

Lemma take_drop_middle_app (l k r : list A) n :
  n = length l -> take (length k) (drop n (l ++ k ++ r)) = k.
Proof. intros ->. rewrite drop_app_length. by rewrite take_app_length. Qed.

Lemma concat_fmap_snoc {B} (f : B -> list A) l x :
  concat (f <$> (l ++ [x])) = concat (f <$> l) ++ f x.
Proof. rewrite fmap_app, concat_app. cbn. by rewrite app_nil_r. Qed.

(** Bytes [off, off+len) of a memory block. *)
Definition sub_bytes (off len : nat) (l : list A) : list A := take len (drop off l).

Lemma sub_bytes_app (l k r : list A) :
  sub_bytes (length l) (length k) (l ++ k ++ r) = k.
Proof. by apply take_drop_middle_app. Qed.

Lemma sub_bytes_app_l off len (l r : list A) :
  (off + len <= length l)%nat -> sub_bytes off len (l ++ r) = sub_bytes off len l.
Proof.
  intros H. unfold sub_bytes. rewrite drop_app_le by lia.
  rewrite take_app_le; [done|]. rewrite length_drop. lia.
Qed.

Lemma length_sub_bytes off len (l : list A) :
  (off + len <= length l)%nat -> length (sub_bytes off len l) = len.
Proof. intros H. unfold sub_bytes. rewrite length_take, length_drop. lia. Qed.

(** Removing an element of a list without duplicates. *)
Lemma filter_ne_id `{EqDecision A} (x : A) (l : list A) : x ∉ l -> filter (fun y => y <> x) l = l.
Proof.
  induction l as [|y l IH]; intros Hx; [done|]. apply not_elem_of_cons in Hx as [Hne Hx].
  rewrite filter_cons_True by congruence. by rewrite IH.
Qed.
Lemma filter_ne_Permutation `{EqDecision A} (x : A) (l : list A) :
  NoDup l -> x ∈ l -> x :: filter (fun y => y <> x) l ≡ₚ l.
Proof.
  induction 1 as [|y l Hy Hl IH]; intros Hin; [by apply not_elem_of_nil in Hin|].
  destruct (decide (y = x)) as [->|Hne].
  - rewrite filter_cons_False by naive_solver. by rewrite filter_ne_id.
  - rewrite filter_cons_True by done. apply elem_of_cons in Hin as [->|Hin]; [done|].
    rewrite <- IH at 2 by done. apply Permutation_swap.
Qed.
End Lists.
#[export] Hint Rewrite @length_app @length_fmap @length_take @length_drop @length_rev : fuerte.
