(* ===== verification/StdMap.v ===== *)
(** * std::map

    The associative containers of the program are [std::map]s: [StringMap]
    ([std::map<std::string, std::string>], include/fuerte/types.h), the store
    of in-flight requests ([std::map<MessageID, ...>], src/MessageStore.h) and
    the socket table (src/CurlMultiAsio.h).  Their iteration order is observable (it is the order
    of the query parameters on the wire and of the callbacks of [cancelAll]),
    so a map is its list of entries in key order.  The refinement lemmas relate
    every operation to stdpp's [gmap]. *)
From S2P Require Import Prelude.

(** [std::less<K>] and the strict total order it must be. *)
Class StdLess (K : Type) := less : K -> K -> bool.
Class StdLessLaws (K : Type) `{StdLess K} : Prop := {
  less_irrefl : forall a : K, less a a = false;
  less_trans : forall a b c : K, less a b = true -> less b c = true -> less a c = true;
  less_total : forall a b : K, less a b = false -> less b a = false -> a = b;
}.

#[export] Instance Z_less : StdLess Z := Z.ltb.
#[export] Instance Z_less_laws : StdLessLaws Z.
Proof. split; unfold less, Z_less; intros; lia. Qed.

(** [std::string] compares lexicographically, as unsigned bytes. *)
#[export] Instance string_less : StdLess string := fun a b => negb (String.leb b a).
#[export] Instance string_less_laws : StdLessLaws string.
Proof.
  assert (Hle : forall a b, String.leb a b = true <-> String.le a b)
    by (intros a b; unfold String.le; by rewrite Is_true_true).
  split; unfold less, string_less.
  - intros a. assert (String.leb a a = true) as ->; [|done].
    apply Hle. reflexivity.
  - intros a b c Hab Hbc. apply negb_true_iff in Hab, Hbc. apply negb_true_iff.
    destruct (String.leb c a) eqn:Hca; [|done]. exfalso.
    assert (String.le a b) as Hab'.
    { destruct (total String.le a b) as [|H]; [done|]. apply Hle in H. congruence. }
    assert (String.le c b) as Hcb by (etrans; [by apply Hle|done]).
    apply Hle in Hcb. congruence.
  - intros a b Hab Hba. apply negb_false_iff in Hab, Hba.
    apply (anti_symm String.le); by apply Hle.
Qed.

(** ** Operations *)
Section Operations.
Context {K : Type} `{StdLess K} {V : Type}.

Definition stdmap := list (K * V).

(** [std::map::find]. *)
Fixpoint map_find (k : K) (m : stdmap) : option V :=
  match m with
  | [] => None
  | (k', v) :: m' =>
      if less k k' then None
      else if less k' k then map_find k m' else Some v
  end.

(** [std::map::emplace] and [insert]: an existing key keeps its value. *)
Fixpoint map_emplace (k : K) (v : V) (m : stdmap) : stdmap :=
  match m with
  | [] => [(k, v)]
  | (k', v') :: m' =>
      if less k k' then (k, v) :: (k', v') :: m'
      else if less k' k then (k', v') :: map_emplace k v m'
      else (k', v') :: m'
  end.

(** [m[k] = v]: an existing key is overwritten. *)
Fixpoint map_assign (k : K) (v : V) (m : stdmap) : stdmap :=
  match m with
  | [] => [(k, v)]
  | (k', v') :: m' =>
      if less k k' then (k, v) :: (k', v') :: m'
      else if less k' k then (k', v') :: map_assign k v m'
      else (k', v) :: m'
  end.

(** [std::map::erase(key)]. *)
Fixpoint map_erase (k : K) (m : stdmap) : stdmap :=
  match m with
  | [] => []
  | (k', v') :: m' =>
      if less k k' then (k', v') :: m'
      else if less k' k then (k', v') :: map_erase k m'
      else m'
  end.

(** The class invariant: the keys are strictly increasing. *)
Fixpoint map_wf (m : stdmap) : Prop :=
  match m with
  | [] => True
  | (k, _) :: m' => (forall k' v', (k', v') ∈ m' -> less k k' = true) /\ map_wf m'
  end.
End Operations.
Arguments stdmap K V : clear implicits.

(** ** Invariant *)
Section Invariant.
Context {K : Type} `{StdLessLaws K} {V : Type}.
Implicit Types (m : stdmap K V) (k : K) (v : V).

Lemma less_asym k k' : less k k' = true -> less k' k = false.
Proof.
  intros Hl. destruct (less k' k) eqn:E; [|done].
  by rewrite <- (less_trans _ _ _ Hl E), less_irrefl.
Qed.

Lemma map_emplace_elem k v m k' v' :
  (k', v') ∈ map_emplace k v m -> (k', v') = (k, v) \/ (k', v') ∈ m.
Proof.
  induction m as [|[k1 v1] m IH]; cbn [map_emplace];
    repeat case_match; rewrite ?elem_of_cons; naive_solver.
Qed.

Lemma map_assign_elem k v m k' v' :
  (k', v') ∈ map_assign k v m -> k' = k \/ (k', v') ∈ m.
Proof.
  induction m as [|[k1 v1] m IH]; cbn [map_assign];
    [|destruct (less k k1) eqn:E1; [|destruct (less k1 k) eqn:E2]];
    rewrite ?elem_of_cons; [naive_solver..|].
  pose proof (less_total _ _ E1 E2). naive_solver.
Qed.

Lemma map_erase_elem k m x : x ∈ map_erase k m -> x ∈ m.
Proof.
  induction m as [|[k1 v1] m IH]; cbn [map_erase]; [done|].
  repeat case_match; rewrite ?elem_of_cons; naive_solver.
Qed.

Lemma map_wf_NoDup m : map_wf m -> NoDup m.*1.
Proof.
  induction m as [|[k v] m IH]; intros Hm; [apply NoDup_nil_2|]. destruct Hm as [Hk Hm].
  apply NoDup_cons. split; [|by apply IH].
  intros ([k' v'] & Heq & Hin)%list_elem_of_fmap. cbn in Heq. subst k'.
  apply Hk in Hin. by rewrite less_irrefl in Hin.
Qed.

Lemma map_emplace_wf k v m : map_wf m -> map_wf (map_emplace k v m).
Proof.
  induction m as [|[k1 v1] m IH]; cbn [map_emplace map_wf];
    [split; [by intros ?? ?%not_elem_of_nil|done]|].
  intros [H1 Hm]. destruct (less k k1) eqn:E1; [|destruct (less k1 k) eqn:E2].
  - cbn. split; [|done]. intros k' v' [[= -> ->]|Hin]%elem_of_cons; [done|].
    eauto using less_trans.
  - cbn. split; [|auto].
    intros k' v' [[= -> ->]|Hin]%map_emplace_elem; eauto.
  - done.
Qed.

Lemma map_assign_wf k v m : map_wf m -> map_wf (map_assign k v m).
Proof.
  induction m as [|[k1 v1] m IH]; cbn [map_assign map_wf];
    [split; [by intros ?? ?%not_elem_of_nil|done]|].
  intros [H1 Hm]. destruct (less k k1) eqn:E1; [|destruct (less k1 k) eqn:E2].
  - cbn. split; [|done]. intros k' v' [[= -> ->]|Hin]%elem_of_cons; [done|].
    eauto using less_trans.
  - cbn. split; [|auto].
    intros k' v' [->|Hin]%map_assign_elem; eauto.
  - done.
Qed.

Lemma map_erase_wf k m : map_wf m -> map_wf (map_erase k m).
Proof.
  induction m as [|[k1 v1] m IH]; cbn [map_erase map_wf]; [done|].
  intros [H1 Hm]. destruct (less k k1); [done|]. destruct (less k1 k); [|done].
  cbn. split; [|auto]. intros k' v' Hin%map_erase_elem. eauto.
Qed.
End Invariant.
#[export] Hint Resolve map_emplace_wf map_assign_wf map_erase_wf : fuerte.

(** ** Refinement to [gmap] *)
Section Refinement.
Context {K : Type} `{Countable K} `{!StdLess K} `{!StdLessLaws K} {V : Type}.
Implicit Types (m : stdmap K V) (k : K) (v : V).

(** The mapping that a list of entries represents. *)
Definition to_gmap (m : stdmap K V) : gmap K V := list_to_map m.

(** [less] decides the three cases of a key comparison. *)
Lemma less_cases k k' :
  (less k k' = true /\ less k' k = false /\ k <> k')
  \/ (less k k' = false /\ less k' k = true /\ k <> k')
  \/ (less k k' = false /\ less k' k = false /\ k = k').
Proof.
  destruct (less k k') eqn:E1; [left|destruct (less k' k) eqn:E2; right].
  - split_and!; [done|by apply less_asym|]. intros ->. by rewrite less_irrefl in E1.
  - left. split_and!; [done..|]. intros ->. by rewrite less_irrefl in E2.
  - right. eauto using less_total.
Qed.

(** Below the first key there is no entry. *)
Lemma to_gmap_below k m :
  (forall k' v', (k', v') ∈ m -> less k k' = true) -> to_gmap m !! k = None.
Proof.
  intros Hk. apply not_elem_of_list_to_map_1. intros ([k' v'] & -> & Hin)%list_elem_of_fmap.
  apply Hk in Hin. cbn in Hin. by rewrite less_irrefl in Hin.
Qed.

Lemma to_gmap_cons_lt k k1 v1 m :
  map_wf ((k1, v1) :: m) -> less k k1 = true -> to_gmap ((k1, v1) :: m) !! k = None.
Proof.
  intros [H1 _] Hlt. apply to_gmap_below. intros k' v' [[= -> ->]|Hin]%elem_of_cons; [done|].
  eauto using less_trans.
Qed.

Lemma to_gmap_cons k v m : to_gmap ((k, v) :: m) = <[k := v]> (to_gmap m).
Proof. reflexivity. Qed.

Lemma to_gmap_head k v m : map_wf ((k, v) :: m) -> to_gmap m !! k = None.
Proof. intros [H1 _]. by apply to_gmap_below. Qed.

Ltac cmp k k1 :=
  let E1 := fresh "E" in let E2 := fresh "E" in
  destruct (less_cases k k1) as [(E1 & E2 & ?)|[(E1 & E2 & ?)|(E1 & E2 & ?)]];
  rewrite ?E1, ?E2; subst.

Lemma map_find_spec k m : map_wf m -> map_find k m = to_gmap m !! k.
Proof.
  induction m as [|[k1 v1] m IH]; cbn [map_find]; [done|]. intros Hwf.
  cmp k k1.
  - by rewrite to_gmap_cons_lt.
  - cbn. rewrite lookup_insert_ne by done. by apply IH, Hwf.
  - cbn. by rewrite lookup_insert_eq.
Qed.

Lemma map_assign_spec k v m : to_gmap (map_assign k v m) = <[k := v]> (to_gmap m).
Proof.
  induction m as [|[k1 v1] m IH]; cbn [map_assign]; [done|].
  cmp k k1; rewrite !to_gmap_cons.
  - done.
  - rewrite IH. by apply insert_insert_ne.
  - by rewrite insert_insert_eq.
Qed.

Lemma map_emplace_spec k v m :
  map_wf m ->
  to_gmap (map_emplace k v m)
  = match to_gmap m !! k with Some _ => to_gmap m | None => <[k := v]> (to_gmap m) end.
Proof.
  induction m as [|[k1 v1] m IH]; cbn [map_emplace]; [done|]. intros Hwf.
  cmp k k1.
  - by rewrite to_gmap_cons_lt.
  - rewrite !to_gmap_cons, IH, lookup_insert_ne by (done || apply Hwf).
    case_match; [done|]. by apply insert_insert_ne.
  - by rewrite to_gmap_cons, lookup_insert_eq.
Qed.

Lemma map_erase_spec k m : map_wf m -> to_gmap (map_erase k m) = delete k (to_gmap m).
Proof.
  induction m as [|[k1 v1] m IH]; cbn [map_erase]; [intros; symmetry; apply delete_id, lookup_empty|].
  intros Hwf. cmp k k1.
  - symmetry. apply delete_id. by rewrite to_gmap_cons_lt.
  - rewrite !to_gmap_cons, IH by apply Hwf. by rewrite delete_insert_ne.
  - rewrite to_gmap_cons, delete_insert_id; [done|]. by eapply to_gmap_head.
Qed.

(** Membership, size and emptiness of the list and of the mapping agree. *)
Lemma map_elem_spec k v m : map_wf m -> (k, v) ∈ m <-> to_gmap m !! k = Some v.
Proof.
  intros Hwf. induction m as [|[k1 v1] m IH].
  { cbn. rewrite lookup_empty. split; [by intros ?%not_elem_of_nil|done]. }
  rewrite elem_of_cons, IH by apply Hwf. cbn.
  destruct (decide (k = k1)) as [->|Hne].
  - rewrite lookup_insert_eq, (to_gmap_head _ v1) by done. naive_solver.
  - rewrite lookup_insert_ne by done. naive_solver.
Qed.

Lemma map_size_spec m : map_wf m -> length m = size (to_gmap m).
Proof.
  induction m as [|[k1 v1] m IH]; [done|]. intros Hwf. cbn.
  rewrite map_size_insert_None by by eapply to_gmap_head.
  f_equal. apply IH, Hwf.
Qed.

Lemma map_find_Some_elem k v m : map_wf m -> map_find k m = Some v <-> (k, v) ∈ m.
Proof. intros Hwf. by rewrite map_find_spec, map_elem_spec. Qed.

Lemma map_emplace_elem_iff k v m x :
  map_wf m -> (forall v', (k, v') ∉ m) -> x ∈ map_emplace k v m <-> x = (k, v) \/ x ∈ m.
Proof.
  intros Hwf Hk. destruct x as [k' v'].
  assert (to_gmap m !! k = None) as Hn.
  { destruct (to_gmap m !! k) as [v0|] eqn:E; [|done]. apply map_elem_spec in E; [|done].
    by apply Hk in E. }
  rewrite map_elem_spec by by apply map_emplace_wf. rewrite map_emplace_spec, Hn by done.
  rewrite map_elem_spec by done. rewrite lookup_insert. case_decide; [|naive_solver].
  subst. rewrite Hn. naive_solver.
Qed.

Lemma map_erase_elem_iff k m k' v' :
  map_wf m -> (k', v') ∈ map_erase k m <-> k' <> k /\ (k', v') ∈ m.
Proof.
  intros Hwf. rewrite !map_elem_spec by (done || by apply map_erase_wf).
  rewrite map_erase_spec, lookup_delete_Some by done. naive_solver.
Qed.

(** Two well-formed maps with the same mapping are the same list: the
    representation is canonical. *)
Lemma map_canonical m1 m2 : map_wf m1 -> map_wf m2 -> to_gmap m1 = to_gmap m2 -> m1 = m2.
Proof.
  revert m2. induction m1 as [|[k1 v1] m1 IH]; intros [|[k2 v2] m2] Hw1 Hw2 Heq; [done| | |].
  - apply (f_equal (lookup k2)) in Heq. cbn in Heq. by rewrite lookup_insert_eq in Heq.
  - apply (f_equal (lookup k1)) in Heq. cbn in Heq. by rewrite lookup_insert_eq in Heq.
  - assert (k1 = k2) as ->.
    { destruct (less_cases k1 k2) as [(E & _)|[(_ & E & _)|(_ & _ & E)]]; [| |done].
      - apply (f_equal (lookup k1)) in Heq. rewrite (to_gmap_cons_lt k1 k2) in Heq by done.
        cbn in Heq. by rewrite lookup_insert_eq in Heq.
      - apply (f_equal (lookup k2)) in Heq. rewrite (to_gmap_cons_lt k2 k1) in Heq by done.
        cbn in Heq. by rewrite lookup_insert_eq in Heq. }
    pose proof (f_equal (lookup k2) Heq) as Hv. cbn in Hv.
    rewrite !lookup_insert_eq in Hv. injection Hv as ->. f_equal.
    apply IH; [apply Hw1|apply Hw2|].
    apply (f_equal (delete k2)) in Heq. cbn in Heq.
    rewrite !delete_insert_id in Heq; [done|by eapply to_gmap_head..].
Qed.
End Refinement.
