(* ===== verification/StdString.v ===== *)
(** * std::string

    The members of [std::string] the program uses beyond concatenation:
    [substr], [find], [find_first_of] and [erase], with positions outside the
    string and counts that wrap around as in C++. *)
From S2P Require Import Prelude.
Local Open Scope Z_scope.

#[local] Arguments String.append !s1 s2 / : simpl nomatch.
#[export] Instance string_app_assoc : Assoc (=) String.app.
Proof. intros s1 s2 s3. induction s1 as [|c s1 IH]; cbn; [done|]. by rewrite IH. Qed.

Lemma string_app_nil_r s : s +:+ "" = s.
Proof. induction s as [|c s IH]; cbn; [done|]. by rewrite IH. Qed.

Lemma string_length_app s1 s2 : String.length (s1 +:+ s2) = (String.length s1 + String.length s2)%nat.
Proof. induction s1 as [|c s1 IH]; cbn; [done|]. by rewrite IH. Qed.

(** ** Parts of a string *)
Fixpoint string_take (n : nat) (s : string) : string :=
  match n, s with S n, String c s => String c (string_take n s) | _, _ => "" end.
Fixpoint string_drop (n : nat) (s : string) : string :=
  match n, s with S n, String _ s => string_drop n s | _, s => s end.

Lemma string_take_drop n s : string_take n s +:+ string_drop n s = s.
Proof. revert s. induction n as [|n IH]; intros [|c s]; cbn; [done..|]. by rewrite IH. Qed.
Lemma string_drop_drop n m s : string_drop m (string_drop n s) = string_drop (n + m) s.
Proof. revert s. induction n as [|n IH]; intros s; [done|]. destruct s; [by destruct m|]. apply IH. Qed.
Lemma string_length_drop n s : String.length (string_drop n s) = (String.length s - n)%nat.
Proof. revert s. induction n as [|n IH]; intros [|c s]; cbn; [done..|]. apply IH. Qed.
Lemma string_take_app s1 s2 : string_take (String.length s1) (s1 +:+ s2) = s1.
Proof. induction s1 as [|c s1 IH]; cbn; [by destruct s2|]. by rewrite IH. Qed.
Lemma string_drop_app s1 s2 : string_drop (String.length s1) (s1 +:+ s2) = s2.
Proof. induction s1 as [|c s1 IH]; cbn; [by destruct s2|]. done. Qed.
Lemma string_take_ge n s : (String.length s <= n)%nat -> string_take n s = s.
Proof.
  revert s. induction n as [|n IH]; intros [|c s] H; cbn in *; [done|lia|done|].
  by rewrite IH by lia.
Qed.
Lemma string_drop_ge n s : (String.length s <= n)%nat -> string_drop n s = "".
Proof. revert s. induction n as [|n IH]; intros [|c s] H; cbn in *; [done|lia|done|]. apply IH. lia. Qed.

(** [s.substr(pos, count)]; both are [size_t], [npos] is the largest count. *)
Definition npos : Z := 2 ^ 64 - 1.
Definition substr (s : string) (pos count : Z) : res string :=
  if Z.of_nat (String.length s) <? pos then Throw (out_of_range "basic_string::substr")
  else
    let n := Z.of_nat (String.length s) - pos in
    Ok (string_take (Z.to_nat (if count <? n then count else n)) (string_drop (Z.to_nat pos) s)).

Lemma substr_Ok s pos count :
  0 <= pos -> 0 <= count -> pos + count <= Z.of_nat (String.length s) ->
  substr s pos count = Ok (string_take (Z.to_nat count) (string_drop (Z.to_nat pos) s)).
Proof.
  intros. unfold substr. rewrite (proj2 (Z.ltb_ge _ _)) by lia.
  destruct (Z.ltb_spec count (Z.of_nat (String.length s) - pos)); [done|].
  by replace (Z.of_nat (String.length s) - pos) with count by lia.
Qed.
Lemma substr_rest s pos count :
  0 <= pos <= Z.of_nat (String.length s) -> Z.of_nat (String.length s) - pos <= count ->
  substr s pos count = Ok (string_drop (Z.to_nat pos) s).
Proof.
  intros. unfold substr. rewrite (proj2 (Z.ltb_ge _ _)) by lia.
  rewrite (proj2 (Z.ltb_ge _ _)) by lia. f_equal. apply string_take_ge.
  rewrite string_length_drop. lia.
Qed.

(** [s.find(pattern, from)]. *)
Definition str_find (pattern : string) (from : Z) (s : string) : option Z :=
  match String.index 0 pattern (string_drop (Z.to_nat from) s) with
  | Some i => Some (from + Z.of_nat i)
  | None => None
  end.

(** [s.find_first_of(c)]. *)
Fixpoint find_char (c : ascii) (s : string) : option nat :=
  match s with
  | "" => None
  | String c' s => if decide (c' = c) then Some O else S <$> find_char c s
  end.

Fixpoint all_of (P : ascii -> Prop) (s : string) : Prop :=
  match s with "" => True | String c s => P c /\ all_of P s end.

Lemma all_of_app P s1 s2 : all_of P s1 -> all_of P s2 -> all_of P (s1 +:+ s2).
Proof. induction s1; cbn; naive_solver. Qed.
Lemma all_of_impl (P Q : ascii -> Prop) s : (forall c, P c -> Q c) -> all_of P s -> all_of Q s.
Proof. induction s; cbn; naive_solver. Qed.

(** The first occurrence, behind a part without the character. *)
Lemma find_char_app c s1 s2 :
  all_of (fun c' => c' <> c) s1 -> find_char c (s1 +:+ String c s2) = Some (String.length s1).
Proof.
  induction s1 as [|c1 s1 IH]; cbn; [by rewrite decide_True|]. intros [Hc Hs].
  rewrite decide_False by done. by rewrite IH.
Qed.
Lemma find_char_None c s : all_of (fun c' => c' <> c) s -> find_char c s = None.
Proof. induction s as [|c1 s IH]; cbn; [done|]. intros [Hc Hs]. rewrite decide_False by done. by rewrite IH. Qed.

(** [s.erase(0, n)]. *)
Definition erase_front (n : nat) (s : string) : string := string_drop n s.
