(* ===== verification/Types.v ===== *)
(** * Basic types

    include/fuerte/types.h and src/types.cpp: error codes, the enumerations of
    the protocol with their string conversions, and the configuration of a
    connection.  A scoped C++ enumeration can hold every value of its
    underlying type; the values without an enumerator, which the program can
    obtain with [static_cast] from a received number, are kept as the
    constructors [UnnamedVerb] and [UnnamedType]. *)
From S2P Require Import Prelude.
From stdpp Require Import pretty.

Local Open Scope Z_scope.

(** ** C strings *)

(** [::tolower] in the C locale. *)
Definition tolower (c : ascii) : ascii :=
  let n := nat_of_ascii c in
  if ((65 <=? n) && (n <=? 90))%nat then ascii_of_nat (n + 32) else c.

Fixpoint string_map (f : ascii -> ascii) (s : string) : string :=
  match s with
  | EmptyString => EmptyString
  | String c s => String (f c) (string_map f s)
  end.

(** What a C function sees of [std::string::c_str()]: the bytes before NUL. *)
Fixpoint c_str (s : string) : string :=
  match s with
  | EmptyString => EmptyString
  | String c s => if decide (c = Ascii.zero) then EmptyString else String c (c_str s)
  end.

(** [strcasecmp(p, q) == 0]. *)
Definition strcaseeq (p q : string) : bool :=
  bool_decide (string_map tolower (c_str p) = string_map tolower (c_str q)).

(** [val.find(pat) != std::string::npos]. *)
Definition str_contains (val pat : string) : bool :=
  match String.index 0 pat val with Some _ => true | None => false end.

(** ** ErrorCondition *)
Inductive ErrorCondition : Type :=
| NoError | ErrorCastError | ConnectionError | CouldNotConnect | Timeout
| VstReadError | VstWriteError | CanceledDuringReset | MalformedURL | CurlError.
#[export] Instance ErrorCondition_eq_dec : EqDecision ErrorCondition.
Proof. solve_decision. Defined.

(** [errorToInt]: the value of the enumerator. *)
Definition errorToInt (c : ErrorCondition) : Z :=
  match c with
  | NoError => 0 | ErrorCastError => 1
  | ConnectionError => 1000 | CouldNotConnect => 1001 | Timeout => 1002
  | VstReadError => 1102 | VstWriteError => 1103 | CanceledDuringReset => 1104
  | MalformedURL => 1105 | CurlError => 3000
  end.

(** [static_cast<ErrorCondition>], applied to the value of an enumerator. *)
Definition errorOfValue (n : Z) : ErrorCondition :=
  if n =? 0 then NoError else if n =? 1000 then ConnectionError
  else if n =? 1001 then CouldNotConnect else if n =? 1002 then Timeout
  else if n =? 1102 then VstReadError else if n =? 1103 then VstWriteError
  else if n =? 1104 then CanceledDuringReset else if n =? 1105 then MalformedURL
  else if n =? 3000 then CurlError else ErrorCastError.

Definition valid_errors : list Z :=
  [0; 1000; 1001; 1002; 1102; 1103; 1104; 1105; 3000]%Z.

(** [intToError]; [devbuild] is the preprocessor symbol [FUERTE_DEVBUILD]. *)
Definition intToError (devbuild : bool) (integral : Z) : res ErrorCondition :=
  if bool_decide (integral ∈ valid_errors) then Ok (errorOfValue integral)
  else if devbuild then Throw (logic_error ("Error: casting int to ErrorCondition: " +:+ pretty integral))
  else Ok ErrorCastError.

Definition ErrorCondition_to_string (error : ErrorCondition) : string :=
  match error with
  | NoError => "No Error"
  | ErrorCastError => "Error: casting int to ErrorCondition"
  | ConnectionError => "Error: in connection"
  | CouldNotConnect => "Error: unable to connect"
  | Timeout => "Error: timeout"
  | VstReadError => "Error: reading vst"
  | VstWriteError => "Error: writing vst"
  | CanceledDuringReset => "Error: cancel as result of other error"
  | MalformedURL => "Error: malformed URL"
  | CurlError => "Error: in curl"
  end.

(** ** RestVerb *)
Inductive RestVerb : Type :=
| Illegal | Delete | Get | Post | Put | Head | Patch | Options
| UnnamedVerb (n : Z).
#[export] Instance RestVerb_eq_dec : EqDecision RestVerb.
Proof. solve_decision. Defined.

Definition RestVerb_to_int (v : RestVerb) : Z :=
  match v with
  | Illegal => -1 | Delete => 0 | Get => 1 | Post => 2 | Put => 3
  | Head => 4 | Patch => 5 | Options => 6 | UnnamedVerb n => n
  end.

(** [static_cast<RestVerb>]. *)
Definition RestVerb_of_int (n : Z) : RestVerb :=
  if n =? -1 then Illegal else if n =? 0 then Delete else if n =? 1 then Get
  else if n =? 2 then Post else if n =? 3 then Put else if n =? 4 then Head
  else if n =? 5 then Patch else if n =? 6 then Options else UnnamedVerb n.

Definition to_RestVerb (value : string) : RestVerb :=
  let lowercase := string_map tolower value in
  if strcaseeq lowercase "delete" then Delete
  else if strcaseeq lowercase "get" then Get
  else if strcaseeq lowercase "post" then Post
  else if strcaseeq lowercase "put" then Put
  else if strcaseeq lowercase "head" then Head
  else if strcaseeq lowercase "patch" then Patch
  else if strcaseeq lowercase "options" then Options
  else Illegal.

Definition RestVerb_to_string (type : RestVerb) : string :=
  match type with
  | Illegal => "illegal" | Delete => "delete" | Get => "get" | Post => "post"
  | Put => "put" | Head => "head" | Patch => "patch" | Options => "options"
  | UnnamedVerb _ => "undefined"
  end.

(** ** MessageType *)
Inductive MessageType : Type :=
| MT_Undefined | MT_Request | MT_Response | MT_ResponseUnfinished | MT_Authentication
| UnnamedType (n : Z).
#[export] Instance MessageType_eq_dec : EqDecision MessageType.
Proof. solve_decision. Defined.

Definition MessageType_to_int (t : MessageType) : Z :=
  match t with
  | MT_Undefined => 0 | MT_Request => 1 | MT_Response => 2
  | MT_ResponseUnfinished => 3 | MT_Authentication => 1000 | UnnamedType n => n
  end.

(** [static_cast<MessageType>]. *)
Definition MessageType_of_int (n : Z) : MessageType :=
  if n =? 0 then MT_Undefined else if n =? 1 then MT_Request
  else if n =? 2 then MT_Response else if n =? 3 then MT_ResponseUnfinished
  else if n =? 1000 then MT_Authentication else UnnamedType n.

Definition MessageType_to_string (type : MessageType) : string :=
  match type with
  | MT_Undefined => "undefined" | MT_Request => "request" | MT_Response => "response"
  | MT_ResponseUnfinished => "unfinised response"
  | MT_Authentication => "authentication"
  | UnnamedType _ => "undefined"
  end.

(** ** TransportType, AuthenticationType, VSTVersion *)
Inductive TransportType : Type := TT_Undefined | TT_Http | TT_Vst.
#[export] Instance TransportType_eq_dec : EqDecision TransportType.
Proof. solve_decision. Defined.

Definition TransportType_to_string (type : TransportType) : string :=
  match type with TT_Undefined => "undefined" | TT_Http => "http" | TT_Vst => "vst" end.

Inductive AuthenticationType : Type := AT_None | AT_Basic | AT_Jwt.
#[export] Instance AuthenticationType_eq_dec : EqDecision AuthenticationType.
Proof. solve_decision. Defined.

Definition AuthenticationType_to_string (type : AuthenticationType) : string :=
  match type with AT_None => "none" | AT_Basic => "basic" | AT_Jwt => "jwt" end.

Inductive VSTVersion : Type := VST1_0 | VST1_1.
#[export] Instance VSTVersion_eq_dec : EqDecision VSTVersion.
Proof. solve_decision. Defined.

(** ** ContentType *)
Inductive ContentType : Type :=
| CT_Unset | CT_Custom | CT_VPack | CT_Dump | CT_Json | CT_Html | CT_Text.
#[export] Instance ContentType_eq_dec : EqDecision ContentType.
Proof. solve_decision. Defined.

Definition fu_content_type_unset : string := "unset".
Definition fu_content_type_vpack : string := "application/x-velocypack".
Definition fu_content_type_json : string := "application/json".
Definition fu_content_type_html : string := "text/html".
Definition fu_content_type_text : string := "text/plain".
Definition fu_content_type_dump : string := "application/x-arango-dump".

Definition to_ContentType (val : string) : ContentType :=
  if strcaseeq val "" then CT_Unset
  else if str_contains val fu_content_type_unset then CT_Unset
  else if str_contains val fu_content_type_vpack then CT_VPack
  else if str_contains val fu_content_type_json then CT_Json
  else if str_contains val fu_content_type_html then CT_Html
  else if str_contains val fu_content_type_text then CT_Text
  else if str_contains val fu_content_type_dump then CT_Dump
  else CT_Custom.

Definition ContentType_to_string (type : ContentType) : res string :=
  match type with
  | CT_Unset => Ok fu_content_type_unset
  | CT_VPack => Ok fu_content_type_vpack
  | CT_Json => Ok fu_content_type_json
  | CT_Html => Ok fu_content_type_html
  | CT_Text => Ok fu_content_type_text
  | CT_Dump => Ok fu_content_type_dump
  | CT_Custom => Throw (logic_error "custom content type could take different values and is therefor not convertible to string")
  end.

(** ** ConnectionConfiguration *)
Record ConnectionConfiguration : Type := {
  _connType : TransportType;
  _ssl : bool;
  _host : string;
  _port : string;
  _authenticationType : AuthenticationType;
  _user : string;
  _password : string;
  _maxChunkSize : Z;
  _vstVersion : VSTVersion;
  _onFailure : option nat;     (* the user's callback, by a name *)
}.

Definition default_configuration : ConnectionConfiguration := {|
  _connType := TT_Vst;
  _ssl := true;
  _host := "localhost";
  _port := "";
  _authenticationType := AT_None;
  _user := "";
  _password := "";
  _maxChunkSize := 5000;
  _vstVersion := VST1_0;
  _onFailure := None;
|}.

(** ** Properties *)

Lemma tolower_idem c : tolower (tolower c) = tolower c.
Proof. by destruct c as [[] [] [] [] [] [] [] []]. Qed.

Lemma tolower_zero c : tolower c = Ascii.zero -> c = Ascii.zero.
Proof. by destruct c as [[] [] [] [] [] [] [] []]. Qed.

Lemma string_map_tolower_idem s :
  string_map tolower (string_map tolower s) = string_map tolower s.
Proof. induction s as [|c s IH]; cbn; [done|]. by rewrite tolower_idem, IH. Qed.

Lemma c_str_map_tolower s :
  c_str (string_map tolower s) = string_map tolower (c_str s).
Proof.
  induction s as [|c s IH]; cbn; [done|]. repeat case_decide; cbn.
  - done.
  - by apply tolower_zero in H.
  - by subst.
  - by rewrite IH.
Qed.

(** [strcasecmp] on a lowered string is [strcasecmp] on the string. *)
Lemma strcaseeq_lower s q : strcaseeq (string_map tolower s) q = strcaseeq s q.
Proof. unfold strcaseeq. by rewrite c_str_map_tolower, string_map_tolower_idem. Qed.

Lemma strcaseeq_spec s q :
  strcaseeq s q = true <-> string_map tolower (c_str s) = string_map tolower (c_str q).
Proof. apply bool_decide_eq_true. Qed.

(** The named verbs, i.e. those with an HTTP method. *)
Definition http_verb (v : RestVerb) : Prop :=
  match v with Illegal | UnnamedVerb _ => False | _ => True end.

(** Error codes survive the trip through the integer the callbacks carry.
    [intToError] returns the condition whose value the integer is; an integer
    that is the value of no condition but [ErrorCastError] becomes
    [ErrorCastError], or a [logic_error] in a development build. *)
Theorem intToError_correct (devbuild : bool) (n : Z) :
  (exists c, errorToInt c = n /\ c <> ErrorCastError /\ intToError devbuild n = Ok c)
  \/ ((forall c, errorToInt c = n -> c = ErrorCastError)
      /\ (intToError devbuild n = Ok ErrorCastError <-> devbuild = false)
      /\ (is_Ok (intToError devbuild n) -> devbuild = false)).
Proof.
  unfold intToError. case_bool_decide as Hin.
  - left. unfold valid_errors in Hin. rewrite !elem_of_cons in Hin.
    destruct_or! Hin; subst; [exists NoError|exists ConnectionError|exists CouldNotConnect
      |exists Timeout|exists VstReadError|exists VstWriteError|exists CanceledDuringReset
      |exists MalformedURL|exists CurlError|by apply not_elem_of_nil in Hin]; done.
  - right. split_and!.
    + intros [] <-; try done; exfalso; apply Hin; unfold valid_errors;
        rewrite !elem_of_cons; cbn; naive_solver.
    + by destruct devbuild.
    + destruct devbuild; [intros [? [=]]|done].
Qed.

(** [to_RestVerb] recognises exactly the names that [to_string] prints for
    the HTTP methods, in any mixture of cases, and maps everything else to
    [Illegal]. *)
Theorem to_RestVerb_correct (s : string) :
  (forall v, http_verb v ->
     to_RestVerb s = v <-> string_map tolower (c_str s) = RestVerb_to_string v)
  /\ (http_verb (to_RestVerb s) \/ to_RestVerb s = Illegal).
Proof.
  unfold to_RestVerb. rewrite !strcaseeq_lower. split.
  - intros v Hv.
    repeat match goal with
    | |- context [strcaseeq s ?q] =>
        let E := fresh "E" in destruct (strcaseeq s q) eqn:E;
        [apply strcaseeq_spec in E; rewrite E; by destruct v|]
    end.
    destruct v; (split; [done|]); intros Hs; exfalso;
      repeat match goal with
      | E : strcaseeq s _ = false |- _ =>
          rewrite <- not_true_iff_false, strcaseeq_spec, Hs in E; try by destruct E
      end; done.
  - repeat case_match; cbn; auto.
Qed.
