(* ===== verification/Endian.v ===== *)
(** * Integers in memory

    src/portable_endian.h and the [reinterpret_cast]s of src/vst.cpp.  An
    integer is stored in the byte order of the host; [htole32] and friends
    convert between host order and little endian.  The lemmas of this file say
    that "convert, then store" writes the same bytes on every host, and that
    "load, then convert" reads them back. *)
From S2P Require Import Prelude.
Local Open Scope Z_scope.

(** ** Byte sequences as integers *)

Fixpoint le_bytes (n : nat) (z : Z) : list byte :=
  match n with O => [] | S n => byte_of_Z z :: le_bytes n (z / 256) end.

Fixpoint le_value (l : list byte) : Z :=
  match l with [] => 0 | b :: l => Z_of_byte b + 256 * le_value l end.

Inductive byte_order : Type := LittleEndianHost | BigEndianHost.

(** ** portable_endian.h *)

(** [__builtin_bswapN] on an [n]-byte integer. *)
Definition bswap (n : nat) (x : Z) : Z := le_value (rev (le_bytes n x)).

Definition htole (host : byte_order) (n : nat) (x : Z) : Z :=
  match host with LittleEndianHost => x | BigEndianHost => bswap n x end.
Definition letoh (host : byte_order) (n : nat) (x : Z) : Z :=
  match host with LittleEndianHost => x | BigEndianHost => bswap n x end.

Definition htole32 (host : byte_order) (x : Z) : Z := htole host 4 (u32 x).
Definition htole64 (host : byte_order) (x : Z) : Z := htole host 8 (u64 x).
Definition le32toh (host : byte_order) (x : Z) : Z := letoh host 4 x.
Definition le64toh (host : byte_order) (x : Z) : Z := letoh host 8 x.

(** ** Memory accesses *)

(** The object representation of an [n]-byte unsigned integer. *)
Definition store_uint (host : byte_order) (n : nat) (x : Z) : list byte :=
  match host with LittleEndianHost => le_bytes n x | BigEndianHost => rev (le_bytes n x) end.
Definition uint_value (host : byte_order) (l : list byte) : Z :=
  match host with LittleEndianHost => le_value l | BigEndianHost => le_value (rev l) end.

(** [*reinterpret_cast<uintN_t*>(arr + off) = x]. *)
Definition store_at (off : nat) (bs arr : list byte) : list byte :=
  take off arr ++ bs ++ drop (off + length bs) arr.

(** [*reinterpret_cast<const uintN_t*>(mem + off)]: the bytes have to exist. *)
Definition load_uint (host : byte_order) (n off : nat) (mem : list byte) : res Z :=
  if bool_decide (off + n <= length mem)%nat
  then Ok (uint_value host (sub_bytes off n mem))
  else Undef "read past the end of a buffer".

Definition store32 (host : byte_order) (off : nat) (x : Z) (arr : list byte) : list byte :=
  store_at off (store_uint host 4 x) arr.
Definition store64 (host : byte_order) (off : nat) (x : Z) (arr : list byte) : list byte :=
  store_at off (store_uint host 8 x) arr.
Definition load32 (host : byte_order) (off : nat) (mem : list byte) : res Z :=
  x ← load_uint host 4 off mem; Ok (le32toh host x).
Definition load64 (host : byte_order) (off : nat) (mem : list byte) : res Z :=
  x ← load_uint host 8 off mem; Ok (le64toh host x).

(** ** Lemmas *)

Lemma length_le_bytes n z : length (le_bytes n z) = n.
Proof. revert z. induction n; cbn; auto. Qed.

Lemma le_value_le_bytes n z : le_value (le_bytes n z) = z mod 256 ^ Z.of_nat n.
Proof.
  revert z. induction n as [|n IH]; intros z.
  { cbn. by rewrite Z.mod_1_r. }
  cbn [le_bytes le_value]. rewrite IH, Z_of_byte_of_Z.
  rewrite Nat2Z.inj_succ, Z.pow_succ_r by lia.
  rewrite Z.rem_mul_r by (try apply Z.pow_nonzero; lia). lia.
Qed.

Lemma le_value_range l : 0 <= le_value l < 256 ^ Z.of_nat (length l).
Proof.
  induction l as [|b l IH]; cbn [le_value length]; [done|].
  rewrite Nat2Z.inj_succ, Z.pow_succ_r by lia. pose proof (Z_of_byte_range b). lia.
Qed.

Lemma le_bytes_le_value l : le_bytes (length l) (le_value l) = l.
Proof.
  induction l as [|b l IH]; cbn [le_bytes le_value length]; [done|].
  pose proof (Z_of_byte_range b) as Hb. f_equal.
  - rewrite <- byte_of_Z_mod, Z.mul_comm, Z.mod_add, byte_of_Z_mod by done.
    apply byte_of_Z_of_byte.
  - rewrite Z.mul_comm, Z.div_add, Z.div_small by lia. exact IH.
Qed.

Lemma le_bytes_mod n z : le_bytes n (z mod 256 ^ Z.of_nat n) = le_bytes n z.
Proof.
  rewrite <- le_value_le_bytes. rewrite <- (length_le_bytes n z) at 1.
  apply le_bytes_le_value.
Qed.

(** "Convert, then store" is independent of the host. *)
Lemma store_htole host n x : store_uint host n (htole host n x) = le_bytes n x.
Proof.
  destruct host; cbn; [done|]. unfold bswap.
  rewrite <- (length_le_bytes n x) at 1. rewrite <- length_rev, le_bytes_le_value.
  apply rev_involutive.
Qed.

(** "Load, then convert" is independent of the host. *)
Lemma letoh_uint_value host l : letoh host (length l) (uint_value host l) = le_value l.
Proof.
  destruct host; cbn; [done|]. unfold bswap.
  rewrite <- (length_rev l) at 1. by rewrite le_bytes_le_value, rev_involutive.
Qed.

Lemma length_store_uint host n x : length (store_uint host n x) = n.
Proof. destruct host; cbn; rewrite ?length_rev; apply length_le_bytes. Qed.

Lemma length_store_at off bs arr :
  (off + length bs <= length arr)%nat -> length (store_at off bs arr) = length arr.
Proof. intros. unfold store_at. autorewrite with fuerte. lia. Qed.

Lemma load32_Ok host off mem :
  (off + 4 <= length mem)%nat -> load32 host off mem = Ok (le_value (sub_bytes off 4 mem)).
Proof.
  intros H. unfold load32, load_uint. rewrite bool_decide_true by done. cbn.
  rewrite <- (letoh_uint_value host). by rewrite length_sub_bytes.
Qed.

Lemma load64_Ok host off mem :
  (off + 8 <= length mem)%nat -> load64 host off mem = Ok (le_value (sub_bytes off 8 mem)).
Proof.
  intros H. unfold load64, load_uint. rewrite bool_decide_true by done. cbn.
  rewrite <- (letoh_uint_value host). by rewrite length_sub_bytes.
Qed.

Lemma load32_app host (l r : list byte) x :
  load32 host (length l) (l ++ le_bytes 4 x ++ r) = Ok (u32 x).
Proof.
  rewrite load32_Ok by (rewrite !length_app, length_le_bytes; lia).
  rewrite <- (length_le_bytes 4 x) at 1. by rewrite sub_bytes_app, le_value_le_bytes.
Qed.

Lemma load64_app host (l r : list byte) x :
  load64 host (length l) (l ++ le_bytes 8 x ++ r) = Ok (u64 x).
Proof.
  rewrite load64_Ok by (rewrite !length_app, length_le_bytes; lia).
  rewrite <- (length_le_bytes 8 x) at 1. by rewrite sub_bytes_app, le_value_le_bytes.
Qed.
