(* ===== verification/Chunk.v ===== *)
(** * VelocyStream chunks

    The chunk layer of src/vst.h and src/vst.cpp: the chunk header with its
    accessors, the two wire formats (VST 1.0 and 1.1), the reader, the test for
    a complete chunk, and [buildChunks], which cuts a message into chunks.

    - [buildChunks_correct]: the chunks carry the message, in order, in pieces
      of bounded size, with the index and count fields the receiver needs;
    - [chunk_roundtrip]: what one side writes the other side reads back, in both
      versions and on every host byte order;
    - the failures of the reader on malformed chunks. *)
From S2P Require Import Prelude Types Endian.
Local Open Scope Z_scope.

(** ** Buffers *)

(** [boost::asio::const_buffer]: a pointer, of which the model keeps the bytes
    readable from it on, and a size.  Nothing relates the two until the
    buffer is read. *)
Record const_buffer : Type := MkBuffer {
  buffer_mem : list byte;
  buffer_size : Z;
}.
Definition empty_buffer : const_buffer := MkBuffer [] 0.

(** Reading the bytes of a buffer. *)
Definition buffer_bytes (b : const_buffer) : res (list byte) :=
  if bool_decide (buffer_size b <= Z.of_nat (length (buffer_mem b)))
  then Ok (take (Z.to_nat (buffer_size b)) (buffer_mem b))
  else Undef "read past the end of a buffer".

(** ** ChunkHeader *)
Record ChunkHeader : Type := MkChunk {
  _chunkLength : Z;
  _chunkX : Z;
  _messageID : Z;
  _messageLength : Z;
  _data : const_buffer;
  _responseChunkContentOffset : Z;
  _responseContentLength : Z;
}.

Definition set_chunkX (x : Z) (c : ChunkHeader) : ChunkHeader :=
  MkChunk (_chunkLength c) x (_messageID c) (_messageLength c) (_data c)
    (_responseChunkContentOffset c) (_responseContentLength c).

Definition minChunkHeaderSize : Z := 16.
Definition maxChunkHeaderSize : Z := 24.
Definition defaultMaxChunkSize : Z := 30000.

Definition isFirst (h : ChunkHeader) : bool := Z.land (_chunkX h) 1 =? 1.
Definition index (h : ChunkHeader) : Z :=
  if Z.land (_chunkX h) 1 =? 1 then 0 else Z.shiftr (_chunkX h) 1.
Definition numberOfChunks (h : ChunkHeader) : Z :=
  if Z.land (_chunkX h) 1 =? 1 then Z.shiftr (_chunkX h) 1 else 0.

Definition chunkHeaderLength (v : VSTVersion) (isFirst isSingle : bool) : Z :=
  match v with
  | VST1_0 => if isFirst && negb isSingle then maxChunkHeaderSize else minChunkHeaderSize
  | VST1_1 => maxChunkHeaderSize
  end.

(** ** Sending *)
Section Send.
Context (host : byte_order).
(** The indeterminate values of the locals the code does not initialise: the
    array [hdr], and the fields of a default-initialised [ChunkHeader]. *)
Context (hdr0 : list byte) (chunk0 : ChunkHeader).

Definition writeHeaderToVST1_0 (h : ChunkHeader) (buffer : list byte) : list byte * Z :=
  let '(hdrLength, hdr) :=
    if isFirst h && (1 <? numberOfChunks h)
    then (maxChunkHeaderSize, store64 host 16 (htole64 host (_messageLength h)) hdr0)
    else (minChunkHeaderSize, hdr0) in
  let dataSize := buffer_size (_data h) in
  let hdr := store32 host 0 (htole32 host (hdrLength + dataSize)) hdr in
  let hdr := store32 host 4 (htole32 host (_chunkX h)) hdr in
  let hdr := store64 host 8 (htole64 host (_messageID h)) hdr in
  (buffer ++ take (Z.to_nat hdrLength) hdr, hdrLength).

Definition writeHeaderToVST1_1 (h : ChunkHeader) (buffer : list byte) : list byte * Z :=
  let hdrLength := maxChunkHeaderSize in
  let dataSize := buffer_size (_data h) in
  let hdr := store32 host 0 (htole32 host (hdrLength + dataSize)) hdr0 in
  let hdr := store32 host 4 (htole32 host (_chunkX h)) hdr in
  let hdr := store64 host 8 (htole64 host (_messageID h)) hdr in
  let hdr := store64 host 16 (htole64 host (_messageLength h)) hdr in
  (buffer ++ take (Z.to_nat hdrLength) hdr, hdrLength).

(** The [switch] of [prepareForNetwork]. *)
Definition writeHeader (v : VSTVersion) : ChunkHeader -> list byte -> list byte * Z :=
  match v with VST1_0 => writeHeaderToVST1_0 | VST1_1 => writeHeaderToVST1_1 end.

(** The inner loop of [buildChunks], on one message part.  The program does
    not terminate when [maxDataLength] is 0; [buildChunks_correct] shows that
    the fuel given below is enough in all other cases. *)
Fixpoint part_loop (fuel : nat) (messageID messageLength maxDataLength : Z)
    (part : list byte) (offset remaining : Z) (result : list ChunkHeader) (chunkIndex : Z)
    : res (list ChunkHeader * Z) :=
  if 0 <? remaining then
    match fuel with
    | O => Undef "the loop does not terminate"
    | S fuel =>
        let dataLength := if maxDataLength <? remaining then maxDataLength else remaining in
        let chunkX := u32 (Z.shiftl chunkIndex 1) in
        let chunk := MkChunk (_chunkLength chunk0) chunkX messageID messageLength
          (MkBuffer (drop (Z.to_nat offset) part) dataLength)
          (_responseChunkContentOffset chunk0) (_responseContentLength chunk0) in
        part_loop fuel messageID messageLength maxDataLength part
          (offset + dataLength) (remaining - dataLength)
          (result ++ [chunk]) (u32 (chunkIndex + 1))
    end
  else Ok (result, chunkIndex).

(** The loop over the message parts; a slice is its bytes. *)
Fixpoint parts_loop (messageID messageLength maxDataLength : Z) (parts : list (list byte))
    (result : list ChunkHeader) (chunkIndex : Z) : res (list ChunkHeader * Z) :=
  match parts with
  | [] => Ok (result, chunkIndex)
  | part :: parts =>
      '(result, chunkIndex) ← part_loop (length part) messageID messageLength maxDataLength
        part 0 (Z.of_nat (length part)) result chunkIndex;
      parts_loop messageID messageLength maxDataLength parts result chunkIndex
  end.

(** [messageLength += byteSize], over all parts. *)
Definition total_length (parts : list (list byte)) : Z :=
  fold_left (fun acc part => u64 (acc + Z.of_nat (length part))) parts 0.

Definition buildChunks (messageID maxChunkSize : Z) (messageParts : list (list byte))
    : res (list ChunkHeader) :=
  _ ← cassert (maxChunkHeaderSize <? maxChunkSize) "maxChunkSize > maxChunkHeaderSize";
  let messageLength := total_length messageParts in
  let maxDataLength := u64 (maxChunkSize - maxChunkHeaderSize) in
  '(result, _) ← parts_loop messageID messageLength maxDataLength messageParts [] 0;
  match result with
  | [] => Undef "result[0] of an empty vector"
  | c :: cs =>
      let size := Z.of_nat (length result) in
      if size =? 1 then Ok (set_chunkX 3 c :: cs)
      else Ok (set_chunkX (u32 (Z.shiftl size 1 + 1)) c :: cs)
  end.
End Send.

(** ** Receiving *)
Section Receive.
Context (host : byte_order) (chunk0 : ChunkHeader).

Definition isChunkComplete (mem : list byte) (lengthAvailable : Z) : res Z :=
  if lengthAvailable <? 4 then Ok 0
  else
    lengthThisChunk ← load32 host 0 mem;
    if lengthAvailable <? lengthThisChunk then Ok 0 else Ok lengthThisChunk.

Definition readChunkHeaderVST1_0 (hdr : list byte) : res ChunkHeader :=
  chunkLength ← load32 host 0 hdr;
  chunkX ← load32 host 4 hdr;
  messageID ← load64 host 8 hdr;
  '(messageLength, hdrLen) ←
    (if (1 =? Z.land chunkX 1) && (1 <? Z.shiftr chunkX 1)
     then l ← load64 host 16 hdr; Ok (l, maxChunkHeaderSize)
     else Ok (_messageLength chunk0, minChunkHeaderSize));
  let contentLength := u64 (chunkLength - hdrLen) in
  Ok (MkChunk chunkLength chunkX messageID messageLength
       (MkBuffer (drop (Z.to_nat hdrLen) hdr) contentLength)
       (_responseChunkContentOffset chunk0) (_responseContentLength chunk0)).

Definition readChunkHeaderVST1_1 (hdr : list byte) : res ChunkHeader :=
  chunkLength ← load32 host 0 hdr;
  chunkX ← load32 host 4 hdr;
  messageID ← load64 host 8 hdr;
  messageLength ← load64 host 16 hdr;
  let contentLength := u64 (chunkLength - maxChunkHeaderSize) in
  Ok (MkChunk chunkLength chunkX messageID messageLength
       (MkBuffer (drop (Z.to_nat maxChunkHeaderSize) hdr) contentLength)
       (_responseChunkContentOffset chunk0) (_responseContentLength chunk0)).

(** The [switch] of [ReadLoop::asyncReadCallback]. *)
Definition readChunkHeader (v : VSTVersion) : list byte -> res ChunkHeader :=
  match v with VST1_0 => readChunkHeaderVST1_0 | VST1_1 => readChunkHeaderVST1_1 end.
End Receive.

(** ** The wire format *)

Lemma buffer_bytes_exact l r : buffer_bytes (MkBuffer (l ++ r) (Z.of_nat (length l))) = Ok l.
Proof.
  unfold buffer_bytes. cbn. rewrite bool_decide_true by (rewrite length_app; lia).
  by rewrite Nat2Z.id, take_app_length.
Qed.

(** Does the header carry the message length? *)
Definition extended (v : VSTVersion) (h : ChunkHeader) : bool :=
  match v with VST1_0 => isFirst h && (1 <? numberOfChunks h) | VST1_1 => true end.

Definition header_length (v : VSTVersion) (h : ChunkHeader) : Z :=
  if extended v h then maxChunkHeaderSize else minChunkHeaderSize.

(** Specification of the header: little-endian fields, no padding. *)
Definition header_bytes (v : VSTVersion) (h : ChunkHeader) : list byte :=
  le_bytes 4 (header_length v h + buffer_size (_data h)) ++ le_bytes 4 (_chunkX h)
  ++ le_bytes 8 (_messageID h) ++ (if extended v h then le_bytes 8 (_messageLength h) else []).

(** A chunk on the wire. *)
Definition wire_chunk (v : VSTVersion) (h : ChunkHeader) (data : list byte) : list byte :=
  header_bytes v h ++ data.

Lemma header_length_range v h : 16 <= header_length v h <= 24.
Proof. unfold header_length. by destruct (extended v h). Qed.
#[export] Hint Resolve header_length_range : fuerte.

Lemma length_header_bytes v h : Z.of_nat (length (header_bytes v h)) = header_length v h.
Proof.
  unfold header_bytes, header_length.
  destruct (extended v h); by rewrite !length_app, !length_le_bytes.
Qed.

Lemma length_wire_chunk v h data :
  Z.of_nat (length (wire_chunk v h data)) = header_length v h + Z.of_nat (length data).
Proof. unfold wire_chunk. rewrite length_app, Nat2Z.inj_add, length_header_bytes. lia. Qed.

Lemma store32_htole host off x arr :
  store32 host off (htole32 host x) arr = store_at off (le_bytes 4 x) arr.
Proof.
  unfold store32, htole32. rewrite store_htole. exact (f_equal (fun b => store_at off b arr) (le_bytes_mod 4 x)).
Qed.
Lemma store64_htole host off x arr :
  store64 host off (htole64 host x) arr = store_at off (le_bytes 8 x) arr.
Proof.
  unfold store64, htole64. rewrite store_htole. exact (f_equal (fun b => store_at off b arr) (le_bytes_mod 8 x)).
Qed.

(** Neither the byte order of the host nor the uninitialised array shows. *)
Lemma writeHeader_spec host v hdr0 h buffer :
  length hdr0 = 24%nat ->
  writeHeader host hdr0 v h buffer = (buffer ++ header_bytes v h, header_length v h).
Proof.
  intros Hlen. do 24 (destruct hdr0 as [|? hdr0]; [done|]). destruct hdr0; [|done].
  unfold header_bytes, header_length.
  destruct v; cbn [writeHeader extended]; unfold writeHeaderToVST1_0, writeHeaderToVST1_1;
    [destruct (isFirst h && _)|]; rewrite !store32_htole, !store64_htole; reflexivity.
Qed.

(** The field values the C++ types guarantee. *)
Record chunk_in_range (v : VSTVersion) (h : ChunkHeader) : Prop := {
  cr_chunkX : 0 <= _chunkX h < 2 ^ 32;
  cr_messageID : 0 <= _messageID h < 2 ^ 64;
  cr_messageLength : 0 <= _messageLength h < 2 ^ 64;
  cr_size : 0 <= buffer_size (_data h);
  cr_length : header_length v h + buffer_size (_data h) < 2 ^ 32;
}.

(** What the receiver makes of chunk [h]; the fields the format does not carry
    have the value they had before, that of [chunk0]. *)
Definition received (v : VSTVersion) (chunk0 h : ChunkHeader) (data rest : list byte) : ChunkHeader :=
  MkChunk (header_length v h + Z.of_nat (length data)) (_chunkX h) (_messageID h)
    (if extended v h then _messageLength h else _messageLength chunk0)
    (MkBuffer (data ++ rest) (Z.of_nat (length data)))
    (_responseChunkContentOffset chunk0) (_responseContentLength chunk0).

Lemma load32_at host off l r x mem :
  mem = l ++ le_bytes 4 x ++ r -> off = length l -> load32 host off mem = Ok (u32 x).
Proof. intros -> ->. apply load32_app. Qed.

Lemma load64_at host off l r x mem :
  mem = l ++ le_bytes 8 x ++ r -> off = length l -> load64 host off mem = Ok (u64 x).
Proof. intros -> ->. apply load64_app. Qed.

Ltac solve_app :=
  rewrite ?length_app, ?length_le_bytes; rewrite <- ?(assoc_L (++)); reflexivity.

(** The first-chunk test of the reader is the one of the writer. *)
Lemma reader_extended h :
  ((1 =? Z.land (_chunkX h) 1) && (1 <? Z.shiftr (_chunkX h) 1))
  = (isFirst h && (1 <? numberOfChunks h)).
Proof.
  unfold isFirst, numberOfChunks. rewrite Z.eqb_sym.
  by destruct (Z.land (_chunkX h) 1 =? 1).
Qed.

Lemma drop_header v h data :
  drop (Z.to_nat (header_length v h)) (wire_chunk v h data) = data.
Proof.
  unfold wire_chunk. rewrite <- length_header_bytes, Nat2Z.id. apply drop_app_length.
Qed.

Lemma wire_chunk_app v h data rest : wire_chunk v h data ++ rest = wire_chunk v h (data ++ rest).
Proof. unfold wire_chunk. by rewrite (assoc_L (++)). Qed.

Section ReadBack.
Context (host : byte_order) (v : VSTVersion) (h : ChunkHeader) (data rest : list byte).
Hypothesis Hrange : chunk_in_range v h.
Hypothesis Hdata : buffer_size (_data h) = Z.of_nat (length data).
Local Abbreviation mem := (wire_chunk v h data ++ rest).

Lemma load_chunkLength : load32 host 0 mem = Ok (header_length v h + Z.of_nat (length data)).
Proof.
  rewrite (load32_at host 0 [] (le_bytes 4 (_chunkX h) ++ le_bytes 8 (_messageID h)
    ++ (if extended v h then le_bytes 8 (_messageLength h) else []) ++ data ++ rest)
    (header_length v h + buffer_size (_data h))).
  - rewrite Hdata, u32_id; [done|]. destruct Hrange.
    pose proof (header_length_range v h). lia.
  - unfold wire_chunk, header_bytes. cbn [app]. solve_app.
  - done.
Qed.

Lemma load_chunkX : load32 host 4 mem = Ok (_chunkX h).
Proof.
  rewrite (load32_at host 4 (le_bytes 4 (header_length v h + buffer_size (_data h)))
    (le_bytes 8 (_messageID h)
    ++ (if extended v h then le_bytes 8 (_messageLength h) else []) ++ data ++ rest)
    (_chunkX h)).
  - rewrite u32_id; [done|]. apply Hrange.
  - unfold wire_chunk, header_bytes. solve_app.
  - by rewrite length_le_bytes.
Qed.

Lemma load_messageID : load64 host 8 mem = Ok (_messageID h).
Proof.
  rewrite (load64_at host 8 (le_bytes 4 (header_length v h + buffer_size (_data h))
    ++ le_bytes 4 (_chunkX h))
    ((if extended v h then le_bytes 8 (_messageLength h) else []) ++ data ++ rest)
    (_messageID h)).
  - rewrite u64_id; [done|]. apply Hrange.
  - unfold wire_chunk, header_bytes. solve_app.
  - by rewrite length_app, !length_le_bytes.
Qed.

Lemma load_messageLength :
  extended v h = true -> load64 host 16 mem = Ok (_messageLength h).
Proof.
  intros He.
  rewrite (load64_at host 16 (le_bytes 4 (header_length v h + buffer_size (_data h))
    ++ le_bytes 4 (_chunkX h) ++ le_bytes 8 (_messageID h)) (data ++ rest)
    (_messageLength h)).
  - rewrite u64_id; [done|]. apply Hrange.
  - unfold wire_chunk, header_bytes. rewrite He. solve_app.
  - by rewrite !length_app, !length_le_bytes.
Qed.

Lemma contentLength_wire :
  u64 (header_length v h + Z.of_nat (length data) - header_length v h)
  = Z.of_nat (length data).
Proof.
  rewrite Z.add_simpl_l. apply u64_id. destruct Hrange.
  pose proof (header_length_range v h). lia.
Qed.

Lemma readChunkHeader_wire chunk0 :
  readChunkHeader host chunk0 v mem = Ok (received v chunk0 h data rest).
Proof.
  pose proof load_chunkLength as Hl. pose proof load_messageLength as Hm.
  pose proof (drop_header v h (data ++ rest)) as Hd. rewrite <- wire_chunk_app in Hd.
  pose proof contentLength_wire as Hc.
  pose proof load_chunkX as Hx. pose proof load_messageID as Hi. clear Hrange.
  destruct v; cbn [readChunkHeader]; unfold readChunkHeaderVST1_0, readChunkHeaderVST1_1;
    rewrite Hl, bind_ret_l, Hx, bind_ret_l, Hi, bind_ret_l; [rewrite reader_extended|];
    unfold received, header_length in *; cbn [extended] in *.
  - destruct (isFirst h && _); rewrite ?Hm by done; rewrite ?bind_ret_l; by rewrite Hc, Hd.
  - rewrite Hm by done. rewrite bind_ret_l. by rewrite Hc, Hd.
Qed.

Lemma isChunkComplete_wire :
  isChunkComplete host mem (Z.of_nat (length mem)) = Ok (Z.of_nat (length (wire_chunk v h data))).
Proof.
  pose proof (header_length_range v h). pose proof (length_wire_chunk v h data) as Hw.
  assert (Z.of_nat (length mem) = Z.of_nat (length (wire_chunk v h data)) + Z.of_nat (length rest))
    as Hm by (rewrite length_app; lia).
  unfold isChunkComplete. zbool.
  rewrite load_chunkLength, bind_ret_l. zbool. by rewrite Hw.
Qed.
End ReadBack.

(** A proper prefix of a chunk is not complete. *)
Lemma isChunkComplete_prefix host v h data pre suf :
  chunk_in_range v h -> buffer_size (_data h) = Z.of_nat (length data) ->
  wire_chunk v h data = pre ++ suf -> suf <> [] ->
  isChunkComplete host pre (Z.of_nat (length pre)) = Ok 0.
Proof.
  intros Hr Hd Heq Hne. unfold isChunkComplete. case_match eqn:E; [done|].
  apply Z.ltb_ge in E.
  pose proof (load_chunkLength host v h data [] Hr Hd) as Hl.
  rewrite app_nil_r, Heq in Hl.
  rewrite load32_Ok in Hl |- * by (rewrite ?length_app; lia).
  rewrite sub_bytes_app_l in Hl by lia. injection Hl as ->. rewrite bind_ret_l.
  pose proof (length_wire_chunk v h data) as Hw. rewrite Heq, length_app in Hw.
  destruct suf; [done|]. cbn [length] in Hw.
  zbool. done.
Qed.

(** ** buildChunks *)

(** Reference: cut a byte string into pieces of at most [m] bytes. *)
Fixpoint pieces_fuel (fuel m : nat) (l : list byte) : list (list byte) :=
  match fuel, l with
  | S fuel, _ :: _ => take m l :: pieces_fuel fuel m (drop m l)
  | _, _ => []
  end.
Definition pieces (m : nat) (l : list byte) : list (list byte) := pieces_fuel (length l) m l.
(** The pieces of a message: no piece spans two parts. *)
Definition message_pieces (m : nat) (parts : list (list byte)) : list (list byte) :=
  parts ≫= pieces m.

Lemma concat_pieces_fuel fuel m l :
  (0 < m)%nat -> (length l <= fuel)%nat -> concat (pieces_fuel fuel m l) = l.
Proof.
  intros Hm. revert l. induction fuel as [|fuel IH]; intros [|b l] Hl; cbn in *; try done; [lia|].
  destruct m as [|m]; [lia|]. cbn. rewrite IH by (rewrite length_drop; lia).
  by rewrite take_drop.
Qed.

Lemma concat_message_pieces m parts :
  (0 < m)%nat -> concat (message_pieces m parts) = concat parts.
Proof.
  intros Hm. unfold message_pieces. induction parts as [|p parts IH]; [done|].
  cbn [mbind list_bind]. rewrite concat_app. cbn [concat]. f_equal; [|exact IH].
  by apply concat_pieces_fuel.
Qed.

Lemma pieces_bounded m parts p :
  (0 < m)%nat -> p ∈ message_pieces m parts -> (0 < length p <= m)%nat.
Proof.
  intros Hm (part & Hp & _)%list_elem_of_bind. unfold pieces in Hp.
  revert Hp. generalize (length part) as fuel. intros fuel. revert part.
  induction fuel as [|fuel IH]; intros [|b l]; cbn [pieces_fuel];
    try (intros H; by apply not_elem_of_nil in H).
  intros [->|H]%elem_of_cons; [|by eapply IH].
  rewrite length_take. cbn [length]. lia.
Qed.

Lemma total_length_spec parts :
  Z.of_nat (length (concat parts)) < 2 ^ 64 ->
  total_length parts = Z.of_nat (length (concat parts)).
Proof.
  unfold total_length. intros H. rewrite <- (Z.add_0_l (Z.of_nat (length _))).
  assert (0 <= 0) as Hacc by lia. revert Hacc H.
  assert (forall acc, 0 <= acc -> acc + Z.of_nat (length (concat parts)) < 2 ^ 64 ->
    fold_left (fun acc part => u64 (acc + Z.of_nat (length part))) parts acc
    = acc + Z.of_nat (length (concat parts))) as HI; [|intros; apply HI; lia].
  induction parts as [|p parts IH]; intros acc Ha Hb; cbn [fold_left concat] in *.
  { cbn. lia. }
  rewrite length_app in Hb |- *. rewrite u64_id by lia. rewrite IH by lia. lia.
Qed.

(** Chunk [c] carries [piece] under the given [chunkX]. *)
Record chunk_carries (mid mlen x : Z) (piece : list byte) (c : ChunkHeader) : Prop := {
  cc_chunkX : _chunkX c = x;
  cc_messageID : _messageID c = mid;
  cc_messageLength : _messageLength c = mlen;
  cc_data : buffer_bytes (_data c) = Ok piece;
  cc_size : buffer_size (_data c) = Z.of_nat (length piece);
}.

(** Chunks [i], [i+1], ... of a message, before the first one is fixed up. *)
Inductive chunks_match (mid mlen : Z) : Z -> list (list byte) -> list ChunkHeader -> Prop :=
| cm_nil i : chunks_match mid mlen i [] []
| cm_cons i p ps c cs :
    chunk_carries mid mlen (u32 (2 * i)) p c ->
    chunks_match mid mlen (i + 1) ps cs ->
    chunks_match mid mlen i (p :: ps) (c :: cs).
#[export] Hint Constructors chunks_match : fuerte.

Lemma chunks_match_length mid mlen i ps cs :
  chunks_match mid mlen i ps cs -> length cs = length ps.
Proof. induction 1; cbn; lia. Qed.

Lemma chunks_match_app mid mlen i ps cs ps' cs' :
  chunks_match mid mlen i ps cs ->
  chunks_match mid mlen (i + Z.of_nat (length ps)) ps' cs' ->
  chunks_match mid mlen i (ps ++ ps') (cs ++ cs').
Proof.
  induction 1 as [i|i p ps c cs Hc Hcs IH]; cbn [length app]; intros H'.
  - rewrite Z.add_0_r in H'. exact H'.
  - constructor; [done|]. apply IH. by replace (i + 1 + _) with (i + Z.of_nat (S (length ps))) by lia.
Qed.

Section BuildChunks.
Context (chunk0 : ChunkHeader) (mid mlen m : Z) (Hm : 0 < m).

Lemma u32_step i : u32 (u32 i + 1) = u32 (i + 1).
Proof. unfold u32, wrap. by rewrite Zplus_mod_idemp_l. Qed.
Lemma u32_double i : u32 (Z.shiftl (u32 i) 1) = u32 (2 * i).
Proof. rewrite shiftl_1. unfold u32, wrap. by rewrite Zmult_mod_idemp_r. Qed.

Lemma part_loop_spec fuel part offset result i :
  0 <= offset <= Z.of_nat (length part) ->
  (length part - Z.to_nat offset <= fuel)%nat ->
  exists new,
    part_loop chunk0 fuel mid mlen m part offset (Z.of_nat (length part) - offset) result (u32 i)
    = Ok (result ++ new, u32 (i + Z.of_nat (length new)))
    /\ chunks_match mid mlen i (pieces_fuel fuel (Z.to_nat m) (drop (Z.to_nat offset) part)) new.
Proof.
  revert offset result i. induction fuel as [|fuel IH]; intros offset result i Ho Hf.
  - exists []. cbn. zbool. rewrite app_nil_r, Z.add_0_r. split; [done|constructor].
  - cbn [part_loop]. destruct (Z.ltb_spec 0 (Z.of_nat (length part) - offset)) as [Hlt|Hge].
    2: { exists []. rewrite drop_ge by lia. rewrite app_nil_r, Z.add_0_r. split; [done|constructor]. }
    set (dataLength := if m <? _ then _ else _).
    assert (0 < dataLength <= m /\ dataLength <= Z.of_nat (length part) - offset) as [Hd1 Hd2]
      by (unfold dataLength; case_match eqn:E; lia).
    assert (take (Z.to_nat dataLength) (drop (Z.to_nat offset) part)
      = take (Z.to_nat m) (drop (Z.to_nat offset) part)) as Htake.
    { unfold dataLength. case_match eqn:E; [done|].
      rewrite !take_ge by (rewrite length_drop; lia). done. }
    rewrite u32_step, u32_double.
    replace (_ - offset - dataLength) with (Z.of_nat (length part) - (offset + dataLength)) by lia.
    edestruct (IH (offset + dataLength)) as (new & -> & Hnew); [lia..|].
    eexists (_ :: new). rewrite <- (assoc_L (++)). split.
    { f_equal. f_equal. f_equal. cbn [length]. lia. }
    assert (drop (Z.to_nat (offset + dataLength)) part
      = drop (Z.to_nat m) (drop (Z.to_nat offset) part)) as Hdrop.
    { rewrite drop_drop. unfold dataLength. case_match eqn:E; [f_equal; lia|].
      rewrite !drop_ge by lia. done. }
    rewrite Hdrop in Hnew.
    destruct (drop (Z.to_nat offset) part) as [|b l] eqn:Hpart.
    { apply (f_equal length) in Hpart. rewrite length_drop in Hpart. cbn in Hpart. lia. }
    cbn [pieces_fuel]. constructor; [|exact Hnew].
    rewrite <- Hpart in *. split; cbn; try done.
    + unfold buffer_bytes. cbn. rewrite bool_decide_true by (rewrite length_drop; lia).
      by rewrite Htake.
    + rewrite <- Htake, length_take, length_drop. lia.
Qed.

Lemma parts_loop_spec parts result i :
  exists new,
    parts_loop chunk0 mid mlen m parts result (u32 i)
    = Ok (result ++ new, u32 (i + Z.of_nat (length new)))
    /\ chunks_match mid mlen i (message_pieces (Z.to_nat m) parts) new.
Proof.
  revert result i. induction parts as [|part parts IH]; intros result i; cbn [parts_loop].
  { exists []. rewrite app_nil_r, Z.add_0_r. split; [done|constructor]. }
  destruct (part_loop_spec (length part) part 0 result i) as (new & Hl & Hnew); [lia..|].
  rewrite Z.sub_0_r in Hl. rewrite Hl, bind_ret_l. cbn in Hnew.
  destruct (IH (result ++ new) (i + Z.of_nat (length new))) as (new' & -> & Hnew').
  exists (new ++ new'). rewrite <- (assoc_L (++)), length_app. split; [do 3 f_equal; lia|].
  apply chunks_match_app; [exact Hnew|].
  by rewrite (chunks_match_length _ _ _ _ _ Hnew) in Hnew'.
Qed.
End BuildChunks.

(** The [chunkX] of chunk [i] out of [n]: the first chunk holds the count. *)
Definition expected_chunkX (n i : nat) : Z :=
  u32 (match i with O => 2 * Z.of_nat n + 1 | _ => 2 * Z.of_nat i end).

(** [cs] are the chunks of the message cut into [ps], in order. *)
Record is_message (mid mlen : Z) (ps : list (list byte)) (cs : list ChunkHeader) : Prop := {
  im_length : length cs = length ps;
  im_carries : forall i p c, ps !! i = Some p -> cs !! i = Some c ->
    chunk_carries mid mlen (expected_chunkX (length ps) i) p c;
}.

Lemma chunks_match_lookup mid mlen i ps cs j p c :
  chunks_match mid mlen i ps cs -> ps !! j = Some p -> cs !! j = Some c ->
  chunk_carries mid mlen (u32 (2 * (i + Z.of_nat j))) p c.
Proof.
  intros H. revert j. induction H as [|i p' ps c' cs Hc _ IH]; intros j Hp Hcs; [done|].
  destruct j as [|j]; cbn in *; simplify_eq.
  - by rewrite Z.add_0_r.
  - replace (i + Z.of_nat (S j)) with (i + 1 + Z.of_nat j) by lia. by apply IH.
Qed.

Lemma buildChunks_is_message chunk0 mid maxChunkSize parts :
  maxChunkHeaderSize < maxChunkSize < 2 ^ 32 -> concat parts <> [] ->
  exists cs,
    buildChunks chunk0 mid maxChunkSize parts = Ok cs
    /\ is_message mid (total_length parts)
         (message_pieces (Z.to_nat (maxChunkSize - maxChunkHeaderSize)) parts) cs.
Proof.
  intros Hmax Hne. unfold buildChunks, cassert. zbool. rewrite bind_ret_l.
  unfold maxChunkHeaderSize in *. rewrite u64_id by lia.
  set (m := maxChunkSize - 24).
  destruct (parts_loop_spec chunk0 mid (total_length parts) m ltac:(lia) parts [] 0)
    as (new & Hl & Hnew).
  change (u32 0) with 0 in Hl. rewrite Hl, bind_ret_l. cbn [app].
  pose proof (chunks_match_length _ _ _ _ _ Hnew) as Hlen.
  pose proof (concat_message_pieces (Z.to_nat m) parts ltac:(lia)) as Hcat.
  destruct (message_pieces (Z.to_nat m) parts) as [|p ps] eqn:Hps.
  { cbn in Hcat. congruence. }
  inversion Hnew as [|? ? ? c cs Hc Hcs]; subst.
  cbn [length] in Hlen |- *.
  exists (set_chunkX (expected_chunkX (S (length ps)) 0) c :: cs). split.
  - destruct (Z.eqb_spec (Z.of_nat (S (length cs))) 1) as [E|E].
    + by replace (S (length ps)) with 1%nat by lia.
    + unfold expected_chunkX. rewrite shiftl_1. by rewrite <- Hlen.
  - split; [done|]. intros [|j] p' c' Hp' Hc'; cbn in Hp', Hc'; simplify_eq.
    + by destruct Hc.
    + pose proof (chunks_match_lookup _ _ _ _ _ j _ _ Hcs Hp' Hc') as H'.
      unfold expected_chunkX. by replace (Z.of_nat (S j)) with (0 + 1 + Z.of_nat j) by lia.
Qed.

(** ** The chunk fields seen by the receiver *)

Lemma length_message_pieces m parts :
  (0 < m)%nat -> (length (message_pieces m parts) <= length (concat parts))%nat.
Proof.
  intros Hm. rewrite <- (concat_message_pieces m) by done.
  assert (forall ps : list (list byte), (forall p, p ∈ ps -> (0 < length p)%nat) ->
    (length ps <= length (concat ps))%nat) as Hle.
  { induction ps as [|p ps IH]; intros Hps; cbn; [lia|]. rewrite length_app.
    pose proof (Hps p ltac:(left)). enough (length ps <= length (concat ps))%nat by lia.
    apply IH. intros q Hq. apply Hps. by right. }
  apply Hle. intros p Hp. by apply (pieces_bounded m parts).
Qed.

(** The accessors on the chunk numbers that [buildChunks] makes. *)
Lemma chunk_numbers n i c :
  _chunkX c = expected_chunkX n i -> (i < n)%nat -> Z.of_nat n < 2 ^ 31 ->
  isFirst c = bool_decide (i = 0%nat) /\ index c = Z.of_nat i
  /\ numberOfChunks c = (if bool_decide (i = 0%nat) then Z.of_nat n else 0).
Proof.
  intros Hx Hi Hn. unfold isFirst, index, numberOfChunks.
  rewrite Hx, land_1, shiftr_1. unfold expected_chunkX.
  destruct i as [|i]; rewrite u32_id by lia.
  - replace ((2 * Z.of_nat n + 1) mod 2) with 1 by zdm. change (1 =? 1) with true.
    rewrite bool_decide_true by done. split_and!; [done..|]. zdm.
  - replace ((2 * Z.of_nat (S i)) mod 2) with 0 by zdm. change (0 =? 1) with false.
    rewrite bool_decide_false by done. split_and!; [done| |done]. zdm.
Qed.

Lemma buffer_bytes_size b data :
  buffer_bytes b = Ok data -> 0 <= buffer_size b -> buffer_size b = Z.of_nat (length data).
Proof.
  unfold buffer_bytes. case_bool_decide; [|done]. intros [= <-] H0. rewrite length_take. lia.
Qed.

Lemma is_message_data mid mlen ps cs :
  is_message mid mlen ps cs -> res_map (fun c => buffer_bytes (_data c)) cs = Ok ps.
Proof.
  intros [Hlen Hc]. generalize (length ps) Hc. clear Hc. intros n. revert ps Hlen.
  assert (forall k ps, length cs = length ps ->
    (forall i p c, ps !! i = Some p -> cs !! i = Some c ->
      chunk_carries mid mlen (expected_chunkX n (k + i)) p c) ->
    res_map (fun c => buffer_bytes (_data c)) cs = Ok ps) as H.
  { induction cs as [|c cs IH]; intros k [|p ps] Hlen Hc; try done.
    cbn [res_map]. rewrite (cc_data _ _ _ _ _ (Hc 0%nat p c eq_refl eq_refl)), bind_ret_l.
    rewrite (IH (S k) ps); [done| |].
    - by injection Hlen.
    - intros i p' c' Hp Hc'. replace (S k + i)%nat with (k + S i)%nat by lia. by apply Hc. }
  intros ps Hlen Hc. by apply (H 0%nat).
Qed.

(** C27: [buildChunks] cuts every message of up to 2 GiB, for every legal chunk
    size, into at least one chunk.  Put together in order, the chunks contain
    exactly the bytes of the message parts; chunk [i] has index [i]; only the
    first has the first flag, and with it the number of chunks; every chunk
    carries the message id, the total length and some data, and fits the chunk
    size with the larger of the two headers. *)
Theorem buildChunks_correct chunk0 (mid maxChunkSize : Z) (parts : list (list byte)) :
  maxChunkHeaderSize < maxChunkSize < 2 ^ 32 ->
  0 < Z.of_nat (length (concat parts)) < 2 ^ 31 ->
  exists cs ds,
    buildChunks chunk0 mid maxChunkSize parts = Ok cs
    /\ (0 < length cs)%nat
    /\ res_map (fun c => buffer_bytes (_data c)) cs = Ok ds /\ concat ds = concat parts
    /\ forall i c, cs !! i = Some c ->
         isFirst c = bool_decide (i = 0%nat)
         /\ index c = Z.of_nat i
         /\ (i = 0%nat -> numberOfChunks c = Z.of_nat (length cs))
         /\ _messageID c = mid
         /\ _messageLength c = Z.of_nat (length (concat parts))
         /\ 0 < buffer_size (_data c)
         /\ maxChunkHeaderSize + buffer_size (_data c) <= maxChunkSize.
Proof.
  intros Hmax Hlen.
  destruct (buildChunks_is_message chunk0 mid maxChunkSize parts) as (cs & Hcs & Hmsg);
    [done|intros E; rewrite E in Hlen; cbn in Hlen; lia|].
  unfold maxChunkHeaderSize in *. set (m := Z.to_nat (maxChunkSize - 24)) in *.
  assert (0 < m)%nat as Hm by lia.
  rewrite total_length_spec in Hmsg by lia.
  pose proof (length_message_pieces m parts Hm) as Hps.
  exists cs, (message_pieces m parts). split_and!.
  - done.
  - rewrite (im_length _ _ _ _ Hmsg). destruct (message_pieces m parts) eqn:E; [|cbn; lia].
    rewrite <- (concat_message_pieces m parts Hm), E in Hlen. cbn in Hlen. lia.
  - by eapply is_message_data.
  - by apply concat_message_pieces.
  - intros i c Hc. pose proof (lookup_lt_Some _ _ _ Hc) as Hi.
    rewrite (im_length _ _ _ _ Hmsg) in Hi |- *.
    destruct (lookup_lt_is_Some_2 _ _ Hi) as [p Hp].
    destruct (im_carries _ _ _ _ Hmsg i p c Hp Hc) as [Hx Hid Hml _ Hsz].
    destruct (chunk_numbers _ _ _ Hx Hi) as (H1 & H2 & H3); [lia|].
    pose proof (pieces_bounded m parts p Hm (list_elem_of_lookup_2 _ _ _ Hp)).
    split_and!; try done; try lia. intros ->. by rewrite H3.
Qed.

Lemma buildChunks_correct_witness :
  exists cs ds,
    buildChunks (MkChunk 7 7 7 7 empty_buffer 7 7) 42 27 [le_bytes 5 1; le_bytes 2 9] = Ok cs
    /\ (0 < length cs)%nat
    /\ res_map (fun c => buffer_bytes (_data c)) cs = Ok ds
    /\ concat ds = concat [le_bytes 5 1; le_bytes 2 9].
Proof.
  edestruct (buildChunks_correct (MkChunk 7 7 7 7 empty_buffer 7 7) 42 27
    [le_bytes 5 1; le_bytes 2 9]) as (cs & ds & H1 & H2 & H3 & H4 & _);
    [unfold maxChunkHeaderSize; lia|cbn; lia|].
  exists cs, ds. split_and!; assumption.
Defined.

(** C4: a chunk header written by one side is read back by the other, whatever
    the byte orders of the two hosts, the contents of the uninitialised header
    array and the data that follows: the chunk is recognised as complete, with
    its exact length; number, message id and data are restored, and so is the
    message length where the format carries it. *)
Theorem chunk_roundtrip (host_w host_r : byte_order) (v : VSTVersion) (hdr0 : list byte)
    (chunk0 h : ChunkHeader) (data rest : list byte) :
  length hdr0 = 24%nat -> chunk_in_range v h -> buffer_bytes (_data h) = Ok data ->
  let '(hdr, n) := writeHeader host_w hdr0 v h [] in
  let mem := hdr ++ data ++ rest in
  n = chunkHeaderLength v (isFirst h) (numberOfChunks h <=? 1)
  /\ isChunkComplete host_r mem (Z.of_nat (length mem)) = Ok (n + Z.of_nat (length data))
  /\ exists c, readChunkHeader host_r chunk0 v mem = Ok c
       /\ _chunkLength c = n + Z.of_nat (length data)
       /\ _chunkX c = _chunkX h /\ _messageID c = _messageID h
       /\ (n = maxChunkHeaderSize -> _messageLength c = _messageLength h)
       /\ buffer_bytes (_data c) = Ok data.
Proof.
  intros Hh Hr Hd. rewrite writeHeader_spec by done. cbn [app].
  pose proof (buffer_bytes_size _ _ Hd (cr_size _ _ Hr)) as Hs.
  rewrite (app_assoc (header_bytes v h) data rest). change (header_bytes v h ++ data) with (wire_chunk v h data).
  split_and!.
  - unfold header_length, chunkHeaderLength. destruct v; [|done]. cbn.
    by rewrite Z.leb_antisym, negb_involutive.
  - rewrite (isChunkComplete_wire _ v h data) by done. by rewrite length_wire_chunk.
  - eexists. split; [by apply readChunkHeader_wire|]. cbn. split_and!; try done.
    + unfold header_length. by destruct (extended v h).
    + apply buffer_bytes_exact.
Qed.

Lemma chunk_roundtrip_witness :
  let h := MkChunk 0 5 77 2 (MkBuffer (le_bytes 2 300) 2) 0 0 in
  exists c,
    readChunkHeader BigEndianHost h VST1_0 (header_bytes VST1_0 h ++ le_bytes 2 300 ++ le_bytes 1 3) = Ok c
    /\ buffer_bytes (_data c) = Ok (le_bytes 2 300).
Proof.
  intros h.
  pose proof (chunk_roundtrip LittleEndianHost BigEndianHost VST1_0 (le_bytes 24 5) h h
    (le_bytes 2 300) (le_bytes 1 3) eq_refl) as H.
  destruct H as (_ & _ & c & H1 & _ & _ & _ & _ & H2).
  - split; cbn; unfold header_length, maxChunkHeaderSize, minChunkHeaderSize; try lia.
    case_match; lia.
  - reflexivity.
  - exists c. split; [exact H1|exact H2].
Defined.

(** Malformed chunks.  A length field of zero never counts as a complete
    chunk, however many bytes follow, so the connection makes no progress.  A
    length smaller than the header counts as complete as soon as its few bytes
    are there; the length of the contents then wraps around to almost [2^64],
    and reading the contents runs past the end of the receive buffer. *)
Theorem malformed_chunk (host : byte_order) (v : VSTVersion) (chunk0 : ChunkHeader)
    (mem : list byte) (n : Z) :
  load32 host 0 mem = Ok n -> Z.of_nat (length mem) < 2 ^ 63 ->
  (n = 0 -> isChunkComplete host mem (Z.of_nat (length mem)) = Ok 0)
  /\ (0 < n < minChunkHeaderSize -> 24 <= Z.of_nat (length mem) ->
      isChunkComplete host mem (Z.of_nat (length mem)) = Ok n
      /\ exists c what, readChunkHeader host chunk0 v mem = Ok c
           /\ buffer_size (_data c) >= 2 ^ 64 - maxChunkHeaderSize
           /\ buffer_bytes (_data c) = Undef what).
Proof.
  intros Hl Hb. unfold isChunkComplete. rewrite Hl, bind_ret_l. split.
  { intros ->. by repeat case_match. }
  unfold minChunkHeaderSize, maxChunkHeaderSize. intros Hn Hlen. zbool. split; [done|].
  assert (forall k, n < k <= 24 -> u64 (n - k) = 2 ^ 64 + n - k) as Hu.
  { intros k Hk. unfold u64, wrap. rewrite <- (Z.mod_add _ 1) by done.
    rewrite Z.mod_small by lia. lia. }
  assert (forall k, n < k <= 24 -> u64 (n - k) >= 2 ^ 64 - 24
    /\ buffer_bytes (MkBuffer (drop (Z.to_nat k) mem) (u64 (n - k)))
      = Undef "read past the end of a buffer") as Hbuf.
  { intros k Hk. rewrite Hu by lia. split; [lia|]. unfold buffer_bytes. cbn [buffer_mem buffer_size].
    rewrite bool_decide_false; [done|]. rewrite length_drop. lia. }
  destruct v; cbn [readChunkHeader]; unfold readChunkHeaderVST1_0, readChunkHeaderVST1_1;
    rewrite Hl, bind_ret_l, load32_Ok, bind_ret_l, (load64_Ok host 8), bind_ret_l by lia;
    [destruct (_ && _)|]; rewrite ?load64_Ok by lia; rewrite ?bind_ret_l;
    eexists _, _; (split; [reflexivity|]); apply Hbuf;
    unfold maxChunkHeaderSize, minChunkHeaderSize; lia.
Qed.

Lemma malformed_chunk_witness :
  isChunkComplete LittleEndianHost (le_bytes 24 4) 24 = Ok 4
  /\ exists c what,
       readChunkHeader LittleEndianHost (MkChunk 0 0 0 0 empty_buffer 0 0) VST1_1 (le_bytes 24 4) = Ok c
       /\ buffer_bytes (_data c) = Undef what.
Proof.
  destruct (malformed_chunk LittleEndianHost VST1_1 (MkChunk 0 0 0 0 empty_buffer 0 0)
    (le_bytes 24 4) 4) as [_ H]; [reflexivity|cbn; lia|].
  destruct H as (H1 & c & what & H2 & _ & H3); [unfold minChunkHeaderSize; lia|cbn; lia|].
  split; [exact H1|]. exists c, what. split; [exact H2|exact H3].
Defined.
