(* ===== verification/VPack.v ===== *)
(** * The VelocyPack interface

    VelocyPack is a library the program calls; its code is not part of the
    repository.  [VPack] lists the operations the program uses, [VPackLaws] the
    documented behaviour the theorems rely on.  A slice is a pointer, so an
    operation on a slice takes the bytes readable from that pointer on.

    [is_slice s] says that [s] is exactly the encoding of one value.  Encodings
    are self-delimiting: [byteSize] finds the end of the slice at the start of
    a longer byte string.  The file ToyVPack.v has a concrete instance. *)
From S2P Require Import Prelude StdMap.
Local Open Scope Z_scope.

Class VPack := {
  is_slice : list byte -> Prop;
  (** [Slice(p).byteSize()]. *)
  byteSize : list byte -> res Z;
  (** [Validator::validate(p, length, isSubPart = true)]; [false]: it throws. *)
  validate : list byte -> bool;
  (** [isArray], [isObject], [length], [at]. *)
  isArray : list byte -> bool;
  isObject : list byte -> bool;
  slice_length : list byte -> res Z;
  slice_at : list byte -> Z -> res (list byte);
  (** [getNumber<int>], [getInt] (64 bits), [getUInt], [copyString]. *)
  getNumberInt : list byte -> res Z;
  getInt : list byte -> res Z;
  getUInt : list byte -> res Z;
  copyString : list byte -> res string;
  (** The pairs an [ObjectIterator] yields, keys and values still slices. *)
  object_entries : list byte -> res (list (list byte * list byte));
  (** What a [Builder] writes for an int, a string, an array, an object. *)
  enc_int : Z -> list byte;
  enc_string : string -> list byte;
  enc_array : list (list byte) -> list byte;
  enc_object : list (string * list byte) -> list byte;
  (** [Builder::add(slice)] on a closed builder over a buffer. *)
  builder_add : list byte -> list byte -> list byte;
}.

Class VPackLaws (VP : VPack) : Prop := {
  slice_nonempty : forall s, is_slice s -> s <> [];
  byteSize_slice : forall s rest, is_slice s -> byteSize (s ++ rest) = Ok (Z.of_nat (length s));
  validate_slice : forall s rest, is_slice s -> validate (s ++ rest) = true;
  validate_inv : forall l, validate l = true -> exists s rest, is_slice s /\ l = s ++ rest;
  is_slice_int : forall z, - 2 ^ 63 <= z < 2 ^ 64 -> is_slice (enc_int z);
  is_slice_string : forall s, is_slice (enc_string s);
  is_slice_array : forall ss, Forall is_slice ss -> is_slice (enc_array ss);
  is_slice_object : forall kvs, Forall (fun kv => is_slice kv.2) kvs -> is_slice (enc_object kvs);
  isArray_array : forall ss rest, Forall is_slice ss -> isArray (enc_array ss ++ rest) = true;
  isObject_object : forall kvs rest,
    Forall (fun kv => is_slice kv.2) kvs -> isObject (enc_object kvs ++ rest) = true;
  length_array : forall ss rest, Forall is_slice ss ->
    slice_length (enc_array ss ++ rest) = Ok (Z.of_nat (length ss));
  at_array : forall ss rest i s, Forall is_slice ss -> ss !! i = Some s ->
    exists rest', slice_at (enc_array ss ++ rest) (Z.of_nat i) = Ok (s ++ rest');
  at_array_end : forall ss rest i, Forall is_slice ss -> ss !! i = None ->
    exists e, slice_at (enc_array ss ++ rest) (Z.of_nat i) = Throw e;
  getNumberInt_int : forall z rest, - 2 ^ 31 <= z < 2 ^ 31 -> getNumberInt (enc_int z ++ rest) = Ok z;
  getInt_int : forall z rest, - 2 ^ 63 <= z < 2 ^ 63 -> getInt (enc_int z ++ rest) = Ok z;
  getUInt_int : forall z rest, 0 <= z < 2 ^ 64 -> getUInt (enc_int z ++ rest) = Ok z;
  getInt_string : forall s rest, exists e, getInt (enc_string s ++ rest) = Throw e;
  copyString_string : forall s rest, copyString (enc_string s ++ rest) = Ok s;
  copyString_int : forall z rest, - 2 ^ 63 <= z < 2 ^ 64 ->
    exists e, copyString (enc_int z ++ rest) = Throw e;
  (** For keys in increasing order, the order in which they are added. *)
  object_entries_object : forall kvs rest,
    Forall (fun kv => is_slice kv.2) kvs -> map_wf kvs ->
    exists es, object_entries (enc_object kvs ++ rest) = Ok es
      /\ Forall2 (fun kv e => (exists r, e.1 = enc_string kv.1 ++ r)
                              /\ exists r, e.2 = kv.2 ++ r) kvs es;
  builder_add_slice : forall buf s, is_slice s -> builder_add buf s = buf ++ s;
}.
#[export] Hint Resolve is_slice_string is_slice_array is_slice_object : fuerte.

(** ** Cutting a buffer into slices

    The loop shared by [Request::slices], [Response::slices] and
    [validateAndCount]:

<<
      while (length) {
        slice at cursor; sliceSize = byteSize();
        if (length < sliceSize) throw ...;
        cursor += sliceSize; length -= sliceSize;
      }
>>

    [check] is what the loop does with the cursor before it measures the slice
    (validation), [step] what it does with the slice. *)
Section CutLoop.
Context {VP : VPack} {A : Type}.
Context (too_long : exn) (check : list byte -> res ()) (step : list byte -> A -> A).

Fixpoint cut_loop (fuel : nat) (cursor : list byte) (acc : A) : res A :=
  match cursor with
  | [] => Ok acc
  | _ :: _ =>
      match fuel with
      | O => Undef "the loop does not terminate"
      | S fuel =>
          _ ← check cursor;
          sliceSize ← byteSize cursor;
          if Z.of_nat (length cursor) <? sliceSize then Throw too_long
          else if sliceSize =? 0 then Undef "the loop does not terminate"
          else cut_loop fuel (drop (Z.to_nat sliceSize) cursor)
                 (step (take (Z.to_nat sliceSize) cursor) acc)
      end
  end.

(** One pass over a well-formed buffer: one [step] per slice, no failure. *)
Lemma cut_loop_slices `{!VPackLaws VP} fuel ss acc :
  Forall is_slice ss -> (length (concat ss) <= fuel)%nat ->
  (forall s rest, is_slice s -> check (s ++ rest) = Ok ()) ->
  cut_loop fuel (concat ss) acc = Ok (fold_left (fun acc s => step s acc) ss acc).
Proof.
  intros Hss Hf Hcheck. revert fuel acc Hf.
  induction Hss as [|s ss Hs Hss IH]; intros fuel acc Hf; [by destruct fuel|].
  cbn [concat fold_left] in *. pose proof (slice_nonempty s Hs) as Hne.
  destruct s as [|b s]; [done|]. destruct fuel as [|fuel]; [cbn in Hf; lia|].
  cbn [cut_loop app].
  change (b :: s ++ concat ss) with ((b :: s) ++ concat ss).
  rewrite Hcheck, bind_ret_l, byteSize_slice, bind_ret_l by done.
  rewrite length_app in *. cbn [length] in *. zbool.
  rewrite Nat2Z.id. change (S (length s)) with (length (b :: s)).
  rewrite drop_app_length, take_app_length. apply IH. lia.
Qed.

(** Conversely, with a checking loop, only such buffers pass. *)
Lemma cut_loop_inv `{!VPackLaws VP} fuel l acc r :
  (forall l, check l = Ok () -> validate l = true) ->
  cut_loop fuel l acc = Ok r ->
  exists ss, Forall is_slice ss /\ l = concat ss
    /\ r = fold_left (fun acc s => step s acc) ss acc.
Proof.
  intros Hcheck. revert l acc. induction fuel as [|fuel IH]; intros [|b l] acc; cbn [cut_loop];
    try done; try (intros [= <-]; by exists []).
  intros H. apply bind_Ok in H as ([] & Hc & H). apply Hcheck, validate_inv in Hc as (s & rest & Hs & Hl).
  rewrite Hl, byteSize_slice, bind_ret_l in H by done. repeat case_match; try done.
  rewrite Nat2Z.id, drop_app_length, take_app_length in H.
  apply IH in H as (ss & Hss & -> & ->). exists (s :: ss). split_and!; [by constructor|done..].
Qed.

(** The loop does not run out of fuel when every byte string it measures
    passes the check. *)
Lemma cut_loop_total `{!VPackLaws VP} fuel l acc :
  (forall l, (check l = Ok () /\ validate l = true) \/ exists e, check l = Throw e) ->
  (length l <= fuel)%nat ->
  is_Ok (cut_loop fuel l acc) \/ exists e, cut_loop fuel l acc = Throw e.
Proof.
  intros Hcheck. revert l acc. induction fuel as [|fuel IH]; intros [|b l] acc Hl;
    cbn [cut_loop]; try (left; by eexists); [cbn in Hl; lia|].
  destruct (Hcheck (b :: l)) as [[-> Hv]|[e ->]]; [|right; by eexists].
  apply validate_inv in Hv as (s & rest & Hs & Heq).
  rewrite bind_ret_l, Heq, byteSize_slice, bind_ret_l by done.
  pose proof (slice_nonempty s Hs). apply (f_equal length) in Heq.
  rewrite length_app in *. destruct s as [|b' s]; [done|]. cbn [length] in *. zbool.
  apply IH. rewrite length_drop, length_app. cbn [length]. lia.
Qed.
End CutLoop.

(** The bytes of the slice at a pointer, as [Builder::add] copies them. *)
Definition slice_bytes {VP : VPack} (mem : list byte) : res (list byte) :=
  n ← byteSize mem;
  if n <=? Z.of_nat (length mem) then Ok (take (Z.to_nat n) mem)
  else Undef "slice reaches past the end of its buffer".

Lemma slice_bytes_slice {VP : VPack} `{!VPackLaws VP} s rest : is_slice s -> slice_bytes (s ++ rest) = Ok s.
Proof.
  intros Hs. unfold slice_bytes. rewrite byteSize_slice, bind_ret_l, length_app by done.
  zbool. by rewrite Nat2Z.id, take_app_length.
Qed.
