(* ===== verification/ToyVPack.v ===== *)
(** * A concrete instance of the VelocyPack interface

    A small tag-length-value encoding that satisfies [VPackLaws].  It shows that
    the laws can hold together, and lets the witnesses evaluate the definitions
    that are parameterised by the library.  It is not the VelocyPack format. *)
From S2P Require Import Prelude StdMap Endian VPack.
Local Open Scope Z_scope.

Definition unary (n : nat) : list byte := replicate n Byte.x01 ++ [Byte.x00].
Definition tlv (tag : byte) (p : list byte) : list byte := tag :: unary (length p) ++ p.

Fixpoint parse_unary (l : list byte) : option (nat * list byte) :=
  match l with
  | Byte.x00 :: l => Some (O, l)
  | Byte.x01 :: l => '(n, r) ← parse_unary l; Some (S n, r)
  | _ => None
  end.

(** The value at the start of [l]: tag, contents, and the rest. *)
Definition parse_tlv (l : list byte) : option (byte * list byte * list byte) :=
  match l with
  | [] => None
  | tag :: l =>
      '(n, r) ← parse_unary l;
      if bool_decide (n <= length r)%nat then Some (tag, take n r, drop n r) else None
  end.

Lemma parse_unary_app n r : parse_unary (unary n ++ r) = Some (n, r).
Proof. unfold unary. induction n as [|n IH]; cbn in *; [done|]. by rewrite IH. Qed.

Lemma parse_tlv_app tag p r : parse_tlv (tlv tag p ++ r) = Some (tag, p, r).
Proof.
  unfold tlv. cbn [parse_tlv app]. rewrite <- (assoc_L (++)), parse_unary_app.
  cbn [mbind option_bind].
  rewrite bool_decide_true by (rewrite length_app; lia).
  by rewrite take_app_length, drop_app_length.
Qed.

Lemma parse_unary_inv l n r : parse_unary l = Some (n, r) -> l = unary n ++ r.
Proof.
  revert n r. induction l as [|b l IH]; intros n r H; [done|].
  destruct b; cbn in H; try done; simplify_eq; [done|].
  destruct (parse_unary l) as [[n' r']|] eqn:E; cbn in H; simplify_eq.
  by rewrite (IH _ _ eq_refl).
Qed.

Lemma parse_tlv_inv l tag p r : parse_tlv l = Some (tag, p, r) -> l = tlv tag p ++ r.
Proof.
  destruct l as [|t l]; cbn; [done|].
  destruct (parse_unary l) as [[n r']|] eqn:E; cbn; [|done].
  case_bool_decide; [|done]. intros [= -> <- <-].
  apply parse_unary_inv in E. subst. rewrite length_take_le by done.
  f_equal. by rewrite <- (assoc_L (++)), take_drop.
Qed.

(** The values contained in an array or object. *)
Fixpoint items (fuel : nat) (l : list byte) : list (list byte) :=
  match fuel with
  | O => []
  | S fuel =>
      match parse_tlv l with
      | Some (tag, p, r) => tlv tag p :: items fuel r
      | None => []
      end
  end.

Fixpoint pair_up (l : list (list byte)) : list (list byte * list byte) :=
  match l with k :: v :: l => (k, v) :: pair_up l | _ => [] end.

Definition toy_slice (s : list byte) : Prop := exists tag p, s = tlv tag p.

Lemma toy_slice_parse s r :
  toy_slice s -> exists tag p, s = tlv tag p /\ parse_tlv (s ++ r) = Some (tag, p, r).
Proof. intros (tag & p & ->). exists tag, p. by rewrite parse_tlv_app. Qed.

Lemma items_concat fuel ss :
  Forall toy_slice ss -> (length (concat ss) <= fuel)%nat -> items fuel (concat ss) = ss.
Proof.
  intros H. revert fuel. induction H as [|s ss Hs Hss IH]; intros fuel Hf; [by destruct fuel|].
  destruct (toy_slice_parse s (concat ss) Hs) as (tag & p & -> & Hp).
  cbn [concat] in *. rewrite length_app in Hf. destruct fuel as [|fuel]; [cbn in Hf; lia|].
  cbn [items]. rewrite Hp, IH; [done|]. cbn in Hf. lia.
Qed.

(** ** The operations *)
Definition tag_int := Byte.x01.
Definition tag_string := Byte.x02.
Definition tag_array := Byte.x03.
Definition tag_object := Byte.x04.
Definition bad {A} : res A := Throw (vpack_exception "Invalid type").

(** Contents of the value at the start of [l], if it has the given tag. *)
Definition payload_of (tag : byte) (l : list byte) : option (list byte) :=
  '(t, p, _) ← parse_tlv l; if decide (t = tag) then Some p else None.

Definition toy_enc_int (z : Z) : list byte :=
  tlv tag_int ((if z <? 0 then Byte.x01 else Byte.x00)
    :: le_bytes (Z.to_nat (Z.log2 (Z.abs z) / 8 + 1)) (Z.abs z)).
Definition toy_int (l : list byte) : option Z :=
  p ← payload_of tag_int l;
  match p with
  | Byte.x00 :: bs => Some (le_value bs)
  | _ :: bs => Some (- le_value bs)
  | [] => None
  end.
Definition toy_enc_string (s : string) : list byte := tlv tag_string (String.list_byte_of_string s).
Definition toy_enc_array (ss : list (list byte)) : list byte := tlv tag_array (concat ss).
Definition toy_enc_object (kvs : list (string * list byte)) : list byte :=
  tlv tag_object (concat (concat ((fun kv => [toy_enc_string kv.1; kv.2]) <$> kvs))).

Definition from_opt {A} (o : option A) : res A := match o with Some a => Ok a | None => bad end.

#[export] Instance ToyVPack : VPack := {
  is_slice := toy_slice;
  byteSize l := from_opt ('(t, p, _) ← parse_tlv l; Some (Z.of_nat (length (tlv t p))));
  validate l := bool_decide (is_Some (parse_tlv l));
  isArray l := bool_decide (is_Some (payload_of tag_array l));
  isObject l := bool_decide (is_Some (payload_of tag_object l));
  slice_length l :=
    from_opt (p ← payload_of tag_array l; Some (Z.of_nat (length (items (length p) p))));
  slice_at l i := from_opt (p ← payload_of tag_array l; items (length p) p !! Z.to_nat i);
  getNumberInt l := match toy_int l with
    | Some z => if (- 2 ^ 31 <=? z) && (z <? 2 ^ 31) then Ok z else bad | None => bad end;
  getInt l := match toy_int l with
    | Some z => if (- 2 ^ 63 <=? z) && (z <? 2 ^ 63) then Ok z else bad | None => bad end;
  getUInt l := match toy_int l with
    | Some z => if (0 <=? z) && (z <? 2 ^ 64) then Ok z else bad | None => bad end;
  copyString l := from_opt (p ← payload_of tag_string l; Some (String.string_of_list_byte p));
  object_entries l :=
    from_opt (p ← payload_of tag_object l; Some (pair_up (items (length p) p)));
  enc_int := toy_enc_int;
  enc_string := toy_enc_string;
  enc_array := toy_enc_array;
  enc_object := toy_enc_object;
  builder_add buf s := buf ++ s;
}.

(** ** The laws *)
#[local] Arguments tlv : simpl never.
#[local] Arguments payload_of : simpl never.
#[local] Arguments toy_int : simpl never.
#[local] Arguments parse_tlv : simpl never.

Lemma payload_of_tlv tag p r : payload_of tag (tlv tag p ++ r) = Some p.
Proof. unfold payload_of. rewrite parse_tlv_app. cbn. by rewrite decide_True. Qed.

Lemma payload_of_ne tag tag' p r : tag' <> tag -> payload_of tag (tlv tag' p ++ r) = None.
Proof. intros. unfold payload_of. rewrite parse_tlv_app. cbn. by rewrite decide_False. Qed.

Lemma toy_int_enc z r : toy_int (toy_enc_int z ++ r) = Some z.
Proof.
  unfold toy_int, toy_enc_int. rewrite payload_of_tlv. cbn [mbind option_bind].
  assert (le_value (le_bytes (Z.to_nat (Z.log2 (Z.abs z) / 8 + 1)) (Z.abs z)) = Z.abs z) as E.
  { rewrite le_value_le_bytes. apply Z.mod_small. split; [lia|].
    pose proof (Z.log2_nonneg (Z.abs z)).
    rewrite Z2Nat.id by zdm. change 256 with (2 ^ 8). rewrite <- Z.pow_mul_r by zdm.
    destruct (Z.eq_dec z 0) as [->|Hz]; [apply Z.pow_pos_nonneg; zdm|].
    apply Z.log2_lt_pow2; [lia|]. zdm. }
  destruct (Z.ltb_spec z 0); rewrite E; f_equal; lia.
Qed.

Lemma pair_up_concat (kvs : list (string * list byte)) :
  pair_up (concat ((fun kv => [toy_enc_string kv.1; kv.2]) <$> kvs))
  = (fun kv => (toy_enc_string kv.1, kv.2)) <$> kvs.
Proof. induction kvs as [|[k v] kvs IH]; cbn; [done|]. by rewrite IH. Qed.

Lemma toy_object_slices kvs :
  Forall (fun kv : string * list byte => toy_slice kv.2) kvs ->
  Forall toy_slice (concat ((fun kv => [toy_enc_string kv.1; kv.2]) <$> kvs)).
Proof.
  induction 1 as [|[k v] kvs Hv Hkvs IH]; cbn; [constructor|].
  constructor; [by eexists _, _|]. by constructor.
Qed.

Lemma toy_at ss r i :
  Forall toy_slice ss -> slice_at (toy_enc_array ss ++ r) (Z.of_nat i) = from_opt (ss !! i).
Proof.
  intros H. cbn [slice_at ToyVPack]. unfold toy_enc_array. rewrite payload_of_tlv.
  cbn [mbind option_bind]. by rewrite items_concat, Nat2Z.id by (done || lia).
Qed.

#[export] Instance ToyVPack_laws : VPackLaws ToyVPack.
Proof.
  split; cbn -[slice_at].
  - intros s (t & p & ->). unfold tlv. done.
  - intros s rest Hs. destruct (toy_slice_parse s rest Hs) as (t & p & -> & ->). done.
  - intros s rest Hs. destruct (toy_slice_parse s rest Hs) as (t & p & _ & ->). done.
  - intros l [[[t p] r] Hl]%bool_decide_eq_true. apply parse_tlv_inv in Hl as ->.
    exists (tlv t p), r. split; [by eexists _, _|done].
  - intros. by eexists _, _.
  - intros. by eexists _, _.
  - intros. by eexists _, _.
  - intros. by eexists _, _.
  - intros. unfold toy_enc_array. by rewrite payload_of_tlv.
  - intros. unfold toy_enc_object. by rewrite payload_of_tlv.
  - intros ss rest Hss. unfold toy_enc_array. rewrite payload_of_tlv.
    cbn. by rewrite items_concat by (done || lia).
  - intros ss rest i s Hss Hi. exists []. by rewrite toy_at, Hi, app_nil_r.
  - intros ss rest i Hss Hi. rewrite toy_at, Hi by done. by eexists.
  - intros z rest Hz. rewrite toy_int_enc. zbool. done.
  - intros z rest Hz. rewrite toy_int_enc. zbool. done.
  - intros z rest Hz. rewrite toy_int_enc. zbool. done.
  - intros s rest. unfold toy_int, toy_enc_string. rewrite payload_of_ne by done. by eexists.
  - intros s rest. unfold toy_enc_string. rewrite payload_of_tlv. cbn.
    by rewrite String.string_of_list_byte_of_string.
  - intros z rest Hz. unfold toy_enc_int. rewrite payload_of_ne by done. by eexists.
  - intros kvs rest Hkvs _. unfold toy_enc_object. rewrite payload_of_tlv. cbn.
    eexists. split; [done|]. rewrite items_concat by (try apply toy_object_slices; done || lia).
    rewrite pair_up_concat. clear Hkvs. induction kvs as [|[k v] kvs IH]; constructor; [|done].
    cbn. split; exists []; by rewrite app_nil_r.
  - done.
Qed.
