(* ===== verification/Message.v ===== *)
(** * Messages

    include/fuerte/message.h, src/message.cpp and src/requests.cpp: the message
    header with its metadata accessors, [Request] (how a payload is added and
    cut into slices), [Response], and the [createRequest] functions; and
    [validateAndCount] of src/vst.cpp, which the checked build calls on every
    payload.

    A byte buffer ([VBuffer]) is its contents.  Fields that a constructor leaves
    indeterminate are [None]. *)
From S2P Require Import Prelude StdMap Types VPack ToyVPack.
From stdpp Require Import pretty.
Local Open Scope Z_scope.

Abbreviation StringMap := (stdmap string string).

Definition fu_content_type_key : string := "content-type".
Definition fu_accept_key : string := "accept".

(** ** MessageHeader *)
Record MessageHeader : Type := MkHeader {
  version : option Z;
  type : option MessageType;
  responseCode : option Z;
  database : option string;
  restVerb : option RestVerb;
  path : option string;
  parameters : option StringMap;
  meta : option StringMap;
  encryption : option string;
  user : option string;
  password : option string;
  token : option string;
  hdr_byteSize : option Z;
}.

Definition emptyHeader : MessageHeader :=
  MkHeader None None None None None None None None None None None None None.

(** Field updates. *)
Definition set_version x h := MkHeader x (type h) (responseCode h) (database h) (restVerb h) (path h)
  (parameters h) (meta h) (encryption h) (user h) (password h) (token h) (hdr_byteSize h).
Definition set_type x h := MkHeader (version h) x (responseCode h) (database h) (restVerb h) (path h)
  (parameters h) (meta h) (encryption h) (user h) (password h) (token h) (hdr_byteSize h).
Definition set_responseCode x h := MkHeader (version h) (type h) x (database h) (restVerb h) (path h)
  (parameters h) (meta h) (encryption h) (user h) (password h) (token h) (hdr_byteSize h).
Definition set_database x h := MkHeader (version h) (type h) (responseCode h) x (restVerb h) (path h)
  (parameters h) (meta h) (encryption h) (user h) (password h) (token h) (hdr_byteSize h).
Definition set_restVerb x h := MkHeader (version h) (type h) (responseCode h) (database h) x (path h)
  (parameters h) (meta h) (encryption h) (user h) (password h) (token h) (hdr_byteSize h).
Definition set_path x h := MkHeader (version h) (type h) (responseCode h) (database h) (restVerb h) x
  (parameters h) (meta h) (encryption h) (user h) (password h) (token h) (hdr_byteSize h).
Definition set_parameters x h := MkHeader (version h) (type h) (responseCode h) (database h) (restVerb h)
  (path h) x (meta h) (encryption h) (user h) (password h) (token h) (hdr_byteSize h).
Definition set_meta x h := MkHeader (version h) (type h) (responseCode h) (database h) (restVerb h)
  (path h) (parameters h) x (encryption h) (user h) (password h) (token h) (hdr_byteSize h).
Definition set_encryption x h := MkHeader (version h) (type h) (responseCode h) (database h) (restVerb h)
  (path h) (parameters h) (meta h) x (user h) (password h) (token h) (hdr_byteSize h).
Definition set_user x h := MkHeader (version h) (type h) (responseCode h) (database h) (restVerb h)
  (path h) (parameters h) (meta h) (encryption h) x (password h) (token h) (hdr_byteSize h).
Definition set_password x h := MkHeader (version h) (type h) (responseCode h) (database h) (restVerb h)
  (path h) (parameters h) (meta h) (encryption h) (user h) x (token h) (hdr_byteSize h).
Definition set_byteSize x h := MkHeader (version h) (type h) (responseCode h) (database h) (restVerb h)
  (path h) (parameters h) (meta h) (encryption h) (user h) (password h) (token h) x.

Definition addParameter (key value : string) (h : MessageHeader) : MessageHeader :=
  let ps := match parameters h with Some ps => ps | None => [] end in
  set_parameters (Some (map_assign key value ps)) h.

Definition addMeta (key value : string) (h : MessageHeader) : MessageHeader :=
  let m := match meta h with Some m => m | None => [] end in
  set_meta (Some (map_assign key value m)) h.

Definition metaByKey (key : string) (h : MessageHeader) : string :=
  match meta h with
  | None => ""
  | Some hmap => match map_find key hmap with Some v => v | None => "" end
  end.

Definition contentTypeString (h : MessageHeader) : string := metaByKey fu_content_type_key h.
Definition contentType (h : MessageHeader) : ContentType := to_ContentType (contentTypeString h).
Definition set_contentTypeString (type : string) (h : MessageHeader) : MessageHeader :=
  addMeta fu_content_type_key type h.
Definition set_contentType (type : ContentType) (h : MessageHeader) : res MessageHeader :=
  s ← ContentType_to_string type; Ok (set_contentTypeString s h).

Definition acceptTypeString (h : MessageHeader) : string := metaByKey fu_accept_key h.
Definition acceptType (h : MessageHeader) : ContentType := to_ContentType (acceptTypeString h).
Definition set_acceptTypeString (type : string) (h : MessageHeader) : MessageHeader :=
  addMeta fu_accept_key type h.
Definition set_acceptType (type : ContentType) (h : MessageHeader) : res MessageHeader :=
  s ← ContentType_to_string type; Ok (set_acceptTypeString s h).

(** The [Message] constructor: non-empty header strings replace the metadata. *)
Definition message_header (h : MessageHeader) (headerStrings : StringMap) : MessageHeader :=
  match headerStrings with [] => h | _ => set_meta (Some headerStrings) h end.
Definition default_messageID : Z := 123456789.

(** ** validateAndCount *)
Section Messages.
Context {VP : VPack}.
(** [FUERTE_CHECKED_MODE]. *)
Context (checked : bool).

Definition run_validator (cursor : list byte) : res () :=
  if validate cursor then Ok () else Throw (vpack_exception "validation").

Definition validateAndCount (vp : list byte) : res Z :=
  match cut_loop (length_error "slice is longer than buffer") run_validator
          (fun _ numPayloads => numPayloads + 1) (length vp) vp 0 with
  | Throw _ => Throw (runtime_error "error during validation of incoming VPack (body)")
  | r => r
  end.

Definition checked_payload (data : list byte) : res () :=
  if checked then _ ← validateAndCount data; Ok () else Ok ().

(** ** Request *)
Record Request : Type := MkRequest {
  rq_header : MessageHeader;
  rq_messageID : Z;
  _payload : list byte;
  _sealed : bool;
  _modified : bool;
  _isVpack : option bool;
  _builder : bool;
  _slices : list (list byte);
  _payloadLength : Z;
  _timeout : Z;
}.

Definition _defaultTimeout : Z := 30 * 1000.

Definition new_Request (messageHeader : MessageHeader) (headerStrings : StringMap) : Request :=
  MkRequest (set_type (Some MT_Request) (message_header messageHeader headerStrings))
    default_messageID [] false true None false [] 0 _defaultTimeout.

Definition set_rq_header (h : MessageHeader) (r : Request) : Request :=
  MkRequest h (rq_messageID r) (_payload r) (_sealed r) (_modified r) (_isVpack r) (_builder r)
    (_slices r) (_payloadLength r) (_timeout r).
Definition set_rq_messageID (id : Z) (r : Request) : Request :=
  MkRequest (rq_header r) id (_payload r) (_sealed r) (_modified r) (_isVpack r) (_builder r)
    (_slices r) (_payloadLength r) (_timeout r).

(** [Buffer::resetTo]: forget the bytes from a position on. *)
Definition resetTo (n : Z) (l : list byte) : res (list byte) :=
  if (0 <=? n) && (n <=? Z.of_nat (length l)) then Ok (take (Z.to_nat n) l)
  else Undef "resetTo exposes uninitialised bytes".

Definition wrong_type : exn := logic_error "Message is sealed or of wrong type (vst/binary)".

(** [addVPack(VSlice const&)]. *)
Definition addVPack_slice (slice : list byte) (r : Request) : res Request :=
  _ ← (if checked then s ← slice_bytes slice; checked_payload s else Ok ());
  if _sealed r || bool_decide (_isVpack r = Some false) then Throw wrong_type
  else
    h ← set_contentType CT_VPack (rq_header r);
    s ← slice_bytes slice;
    let len := _payloadLength r + Z.of_nat (length s) in
    payload ← resetTo len (builder_add (_payload r) s);
    Ok (MkRequest h (rq_messageID r) payload (_sealed r) true (Some true) true
          (_slices r) len (_timeout r)).

(** The loop of [addVPack(VBuffer const&)]: the size it advances by is that of
    the last element of the member [_slices], not of the slice just added. *)
Fixpoint addVPack_loop (fuel : nat) (slices : list (list byte)) (cursor : list byte)
    (payload : list byte) (payloadLength : Z) : res (list byte * Z) :=
  match cursor with
  | [] => Ok (payload, payloadLength)
  | _ :: _ =>
      match fuel with
      | O => Undef "the loop does not terminate"
      | S fuel =>
          s ← slice_bytes cursor;
          let payload := builder_add payload s in
          match last slices with
          | None => Undef "back() of an empty vector"
          | Some back =>
              sliceSize ← byteSize back;
              if Z.of_nat (length cursor) <? sliceSize then Throw (logic_error "invalid buffer")
              else
                let len := payloadLength + sliceSize in
                payload ← resetTo len payload;
                addVPack_loop fuel slices (drop (Z.to_nat sliceSize) cursor) payload len
          end
      end
  end.

(** [addVPack(VBuffer const&)]. *)
Definition addVPack_buffer (buffer : list byte) (r : Request) : res Request :=
  _ ← checked_payload buffer;
  if _sealed r || bool_decide (_isVpack r = Some false) then Throw wrong_type
  else
    h ← set_contentType CT_VPack (rq_header r);
    '(payload, len) ← addVPack_loop (length buffer) (_slices r) buffer (_payload r) (_payloadLength r);
    Ok (MkRequest h (rq_messageID r) payload (_sealed r) true (Some true) true
          (_slices r) len (_timeout r)).

(** [addVPack(VBuffer&&)]. *)
Definition addVPack_move (buffer : list byte) (r : Request) : res Request :=
  _ ← checked_payload buffer;
  if _sealed r || bool_decide (is_Some (_isVpack r)) then Throw wrong_type
  else
    h ← set_contentType CT_VPack (rq_header r);
    let len := _payloadLength r + Z.of_nat (length buffer) in
    payload ← resetTo len buffer;
    Ok (MkRequest h (rq_messageID r) payload true true (Some true) (_builder r)
          (_slices r) len (_timeout r)).

Definition addBinary (data : list byte) (r : Request) : res Request :=
  if _sealed r || bool_decide (_isVpack r = Some true) then Ok r
  else
    let len := _payloadLength r + Z.of_nat (length data) in
    payload ← resetTo len (_payload r ++ data);
    Ok (MkRequest (rq_header r) (rq_messageID r) payload (_sealed r) true (Some false) (_builder r)
          (_slices r) len (_timeout r)).

Definition addBinarySingle (buffer : list byte) (r : Request) : res Request :=
  if _sealed r || bool_decide (_isVpack r = Some true) then Ok r
  else
    let len := _payloadLength r + Z.of_nat (length buffer) in
    payload ← resetTo len buffer;
    Ok (MkRequest (rq_header r) (rq_messageID r) payload true true (Some false) (_builder r)
          (_slices r) len (_timeout r)).

Definition no_check (cursor : list byte) : res () := Ok ().
Definition invalid_buffer : exn := logic_error "invalid buffer".

(** [Request::slices]; [_isVpack] is tested for being set, not for its value. *)
Definition request_slices (r : Request) : res (Request * list (list byte)) :=
  if bool_decide (is_Some (_isVpack r)) && _modified r then
    ss ← cut_loop invalid_buffer no_check (fun s acc => acc ++ [s])
           (length (_payload r)) (_payload r) [];
    Ok (MkRequest (rq_header r) (rq_messageID r) (_payload r) (_sealed r) false (_isVpack r)
          (_builder r) ss (_payloadLength r) (_timeout r), ss)
  else Ok (r, _slices r).

(** [Request::payload], as the bytes the returned buffer denotes. *)
Definition request_payload (r : Request) : res (list byte) :=
  if _payloadLength r <=? Z.of_nat (length (_payload r))
  then Ok (take (Z.to_nat (_payloadLength r)) (_payload r))
  else Undef "read past the end of a buffer".

(** ** Response *)
Record Response : Type := MkResponse {
  rs_header : MessageHeader;
  rs_messageID : Z;
  rs_payload_buf : list byte;
  _payloadOffset : option Z;
  rs_slices : list (list byte);
}.

Definition new_Response (messageHeader : MessageHeader) (headerStrings : StringMap) : Response :=
  MkResponse (set_type (Some MT_Response) (message_header messageHeader headerStrings))
    default_messageID [] None [].

Definition statusCode (r : Response) : Z :=
  match responseCode (rs_header r) with Some c => c | None => 0 end.

Definition checkStatus (validStatusCodes : list Z) (r : Response) : bool :=
  existsb (fun code => code =? statusCode r) validStatusCodes.

Definition assertStatus (validStatusCodes : list Z) (r : Response) : res () :=
  if checkStatus validStatusCodes r then Ok () else Throw (runtime_error ("invalid status " +:+ pretty (statusCode r))).

Definition isContentTypeJSON (r : Response) : bool := bool_decide (contentType (rs_header r) = CT_Json).
Definition isContentTypeVPack (r : Response) : bool := bool_decide (contentType (rs_header r) = CT_VPack).
Definition isContentTypeHtml (r : Response) : bool := bool_decide (contentType (rs_header r) = CT_Html).
Definition isContentTypeText (r : Response) : bool := bool_decide (contentType (rs_header r) = CT_Text).

Definition response_slices (r : Response) : res (Response * list (list byte)) :=
  match rs_slices r with
  | [] =>
      off ← get (_payloadOffset r);
      if off <=? Z.of_nat (length (rs_payload_buf r)) then
        let cursor := drop (Z.to_nat off) (rs_payload_buf r) in
        ss ← cut_loop invalid_buffer no_check (fun s acc => acc ++ [s]) (length cursor) cursor [];
        Ok (MkResponse (rs_header r) (rs_messageID r) (rs_payload_buf r) (_payloadOffset r) ss, ss)
      else Undef "read past the end of a buffer"
  | ss => Ok (r, ss)
  end.

(** [Response::payload]: a buffer that starts at the offset and has the size
    of the whole payload. *)
Definition response_payload (r : Response) : res (list byte) :=
  off ← get (_payloadOffset r);
  if off + Z.of_nat (length (rs_payload_buf r)) <=? Z.of_nat (length (rs_payload_buf r))
  then Ok (take (length (rs_payload_buf r)) (drop (Z.to_nat off) (rs_payload_buf r)))
  else Undef "read past the end of a buffer".

Definition setPayload (buffer : list byte) (payloadOffset : Z) (r : Response) : Response :=
  MkResponse (rs_header r) (rs_messageID r) buffer (Some payloadOffset) [].

(** ** createRequest *)
Definition createRequest_full (messageHeader : MessageHeader) (headerStrings : StringMap)
    (verb : RestVerb) (ct : ContentType) : res Request :=
  let request := new_Request messageHeader headerStrings in
  let h := set_restVerb (Some verb) (rq_header request) in
  let h := match type h with None => set_type (Some MT_Request) h | Some _ => h end in
  h ← set_contentType ct h;
  h ← set_acceptType CT_VPack h;
  Ok (set_rq_header h request).

(** [createRequest] with a database: the overload its body calls is itself.
    [fuel] bounds the depth of the recursion. *)
Fixpoint createRequest_database (fuel : nat) (messageHeader : MessageHeader)
    (headerStrings : StringMap) (database : string) (verb : RestVerb) (ct : ContentType)
    : res Request :=
  match fuel with
  | O => Undef "the recursion does not terminate"
  | S fuel => createRequest_database fuel messageHeader headerStrings database verb ct
  end.

Definition createRequest_verb (verb : RestVerb) (ct : ContentType) : res Request :=
  createRequest_full emptyHeader [] verb ct.

Definition createRequest_path (verb : RestVerb) (p : string) (params : StringMap) : res Request :=
  request ← createRequest_verb verb CT_VPack;
  Ok (set_rq_header (set_parameters (Some params) (set_path (Some p) (rq_header request))) request).

Definition createRequest_slice (verb : RestVerb) (p : string) (params : StringMap)
    (payload : list byte) : res Request :=
  request ← createRequest_path verb p params; addVPack_slice payload request.

Definition createRequest_buffer (verb : RestVerb) (p : string) (params : StringMap)
    (payload : list byte) : res Request :=
  request ← createRequest_path verb p params; addVPack_move payload request.

(** ** Properties of the metadata *)

(** Both maps of a header are sorted maps. *)
Definition header_wf (h : MessageHeader) : Prop :=
  (forall m, meta h = Some m -> map_wf m) /\ (forall m, parameters h = Some m -> map_wf m).

Lemma addMeta_wf k v h : header_wf h -> header_wf (addMeta k v h).
Proof.
  intros [Hm Hp]. split; cbn; [|done]. intros m [= <-]. apply map_assign_wf.
  destruct (meta h) as [m|]; [by apply Hm|done].
Qed.

Lemma metaByKey_addMeta k k' v h :
  header_wf h -> metaByKey k' (addMeta k v h) = if decide (k = k') then v else metaByKey k' h.
Proof.
  intros Hwf. pose proof (addMeta_wf k v h Hwf) as [Hwf' _]. destruct Hwf as [Hm _].
  unfold metaByKey, addMeta in *. cbn in *.
  rewrite map_find_spec by by apply Hwf'. rewrite map_assign_spec, lookup_insert.
  destruct (meta h) as [m|]; [|by case_decide; rewrite ?lookup_empty].
  rewrite map_find_spec by by apply Hm. by case_decide.
Qed.

Lemma set_contentType_VPack h :
  set_contentType CT_VPack h = Ok (addMeta fu_content_type_key fu_content_type_vpack h).
Proof. reflexivity. Qed.

Lemma contentType_VPack h :
  header_wf h -> contentType (addMeta fu_content_type_key fu_content_type_vpack h) = CT_VPack.
Proof.
  intros Hwf. unfold contentType, contentTypeString. rewrite metaByKey_addMeta by done.
  by rewrite decide_True.
Qed.

(** ** Request payloads *)

(** The invariant of a request: the manual length is the length of the buffer,
    and a payload has a kind. *)
Record request_wf (r : Request) : Prop := {
  rwf_length : _payloadLength r = Z.of_nat (length (_payload r));
  rwf_kind : _isVpack r = None -> _payload r = [];
  rwf_header : header_wf (rq_header r);
}.

Lemma new_Request_wf h : header_wf h -> request_wf (new_Request h []).
Proof. intros []. by split. Qed.

Lemma resetTo_length (l : list byte) : resetTo (Z.of_nat (length l)) l = Ok l.
Proof. unfold resetTo. zbool. by rewrite Nat2Z.id, take_ge. Qed.

Context `{!VPackLaws VP}.

Lemma no_check_slices s rest : is_slice s -> no_check (s ++ rest) = Ok ().
Proof. done. Qed.

Lemma run_validator_slices s rest : is_slice s -> run_validator (s ++ rest) = Ok ().
Proof. intros Hs. unfold run_validator. by rewrite validate_slice. Qed.

Lemma fold_snoc {A} (ss acc : list A) : fold_left (fun acc s => acc ++ [s]) ss acc = acc ++ ss.
Proof.
  revert acc. induction ss as [|s ss IH]; intros acc; cbn; [by rewrite app_nil_r|].
  by rewrite IH, <- (assoc_L (++)).
Qed.

Lemma fold_count {A} (ss : list A) acc :
  fold_left (fun acc _ => acc + 1) ss acc = acc + Z.of_nat (length ss).
Proof. revert acc. induction ss as [|s ss IH]; intros acc; cbn [fold_left length]; [|rewrite IH]; lia. Qed.

Lemma validateAndCount_slices ss :
  Forall is_slice ss -> validateAndCount (concat ss) = Ok (Z.of_nat (length ss)).
Proof.
  intros Hss. unfold validateAndCount.
  rewrite cut_loop_slices by (done || apply run_validator_slices || lia).
  by rewrite fold_count.
Qed.

Lemma checked_payload_slices ss : Forall is_slice ss -> checked_payload (concat ss) = Ok ().
Proof. intros. unfold checked_payload. destruct checked; [|done]. by rewrite validateAndCount_slices. Qed.

(** The request after one more slice. *)
Definition with_slice (s : list byte) (r : Request) : Request :=
  MkRequest (addMeta fu_content_type_key fu_content_type_vpack (rq_header r)) (rq_messageID r)
    (_payload r ++ s) (_sealed r) true (Some true) true (_slices r)
    (_payloadLength r + Z.of_nat (length s)) (_timeout r).

Lemma addVPack_slice_Ok s rest r :
  is_slice s -> request_wf r -> _sealed r = false -> _isVpack r <> Some false ->
  addVPack_slice (s ++ rest) r = Ok (with_slice s r).
Proof.
  intros Hs Hwf Hsl Hkind. unfold addVPack_slice.
  rewrite slice_bytes_slice, !bind_ret_l by done.
  replace (if checked then checked_payload s else Ok ()) with (Ok ()); cycle 1.
  { pose proof (checked_payload_slices [s] ltac:(by constructor)) as Hc.
    cbn [concat] in Hc. rewrite app_nil_r in Hc. by destruct checked. }
  rewrite bind_ret_l, Hsl, bool_decide_false by done. cbn [orb].
  rewrite set_contentType_VPack, !bind_ret_l, builder_add_slice by done.
  rewrite (rwf_length r), <- Nat2Z.inj_add, <- length_app, resetTo_length by done.
  unfold with_slice. rewrite Hsl, (rwf_length r), length_app, Nat2Z.inj_add by done. reflexivity.
Qed.

Lemma with_slice_wf s r : request_wf r -> request_wf (with_slice s r).
Proof.
  intros [Hl Hk Hh]. split; cbn; [|done|by apply addMeta_wf].
  rewrite Hl, length_app. lia.
Qed.

(** Adding a list of slices. *)
Fixpoint addVPack_slices (ss : list (list byte)) (r : Request) : res Request :=
  match ss with [] => Ok r | s :: ss => r ← addVPack_slice s r; addVPack_slices ss r end.

Lemma addVPack_slices_Ok ss r :
  Forall is_slice ss -> request_wf r -> _sealed r = false -> _isVpack r <> Some false -> ss <> [] ->
  exists r', addVPack_slices ss r = Ok r' /\ request_wf r' /\ _payload r' = _payload r ++ concat ss
    /\ _isVpack r' = Some true /\ _modified r' = true /\ _sealed r' = false
    /\ contentType (rq_header r') = CT_VPack.
Proof.
  intros Hss. revert r. induction Hss as [|s ss Hs Hss IH]; intros r Hwf Hsl Hk Hne; [done|].
  cbn [addVPack_slices concat]. rewrite <- (app_nil_r s), addVPack_slice_Ok, bind_ret_l by done.
  rewrite app_nil_r. destruct ss as [|s' ss].
  - cbn [addVPack_slices]. eexists. split; [done|]. cbn. rewrite app_nil_r.
    split_and!; try done; [by apply with_slice_wf|]. apply contentType_VPack, Hwf.
  - destruct (IH (with_slice s r)) as (r' & -> & Hr' & Hp & ?); [by apply with_slice_wf|done..|].
    exists r'. split_and!; try naive_solver. by rewrite Hp, (assoc_L (++)).
Qed.

Lemma request_slices_concat r ss :
  _payload r = concat ss -> Forall is_slice ss -> is_Some (_isVpack r) -> _modified r = true ->
  exists r', request_slices r = Ok (r', ss) /\ _modified r' = false /\ _slices r' = ss
    /\ _payload r' = _payload r /\ rq_header r' = rq_header r /\ _isVpack r' = _isVpack r.
Proof.
  intros Hp Hss Hk Hm. unfold request_slices. rewrite bool_decide_true, Hm by done. cbn [andb].
  rewrite Hp, cut_loop_slices by (done || apply no_check_slices || lia).
  rewrite bind_ret_l, fold_snoc. eexists. split; [reflexivity|done].
Qed.

End Messages.

(** ** The operations that add a payload *)
Inductive add_op : Type :=
| AddSlice (slice : list byte)
| AddBuffer (buffer : list byte)
| AddMove (buffer : list byte)
| AddBinary (data : list byte)
| AddBinarySingle (buffer : list byte).

Definition apply_op {VP : VPack} (checked : bool) (op : add_op) (r : Request) : res Request :=
  match op with
  | AddSlice slice => addVPack_slice checked slice r
  | AddBuffer buffer => addVPack_buffer checked buffer r
  | AddMove buffer => addVPack_move checked buffer r
  | AddBinary data => addBinary data r
  | AddBinarySingle buffer => addBinarySingle buffer r
  end.

Lemma resetTo_inv n l l' : resetTo n l = Ok l' -> n = Z.of_nat (length l').
Proof.
  unfold resetTo. case_match eqn:E; [|done]. intros [= <-].
  apply andb_true_iff in E as [H1 H2]. rewrite length_take. lia.
Qed.

Lemma addVPack_loop_inv {VP : VPack} fuel slices cursor payload len payload' len' :
  addVPack_loop fuel slices cursor payload len = Ok (payload', len') ->
  len = Z.of_nat (length payload) -> len' = Z.of_nat (length payload').
Proof.
  revert cursor payload len. induction fuel as [|fuel IH]; intros [|b cursor] payload len H Hlen;
    cbn [addVPack_loop] in H; try done; try by simplify_eq.
  inv_ok. destruct (last slices); inv_ok.
  case_match; [done|]. inv_ok. eapply IH; [done|]. by eapply resetTo_inv.
Qed.

(** Whatever payloads are added to a request, in whatever order, an
    operation that returns keeps the request well-formed: the length that is
    tracked by hand is the length of the buffer, the metadata stay a sorted
    map, and a request without a kind has no payload.  A request never changes
    from VelocyPack to binary or back, a sealed request never changes, and
    nothing but a moved-in buffer seals it. *)
Theorem request_invariant {VP : VPack} (checked : bool) (op : add_op) (r r' : Request) :
  request_wf r -> apply_op checked op r = Ok r' ->
  request_wf r'
  /\ (forall b, _isVpack r = Some b -> _isVpack r' = Some b)
  /\ (_sealed r = true -> r' = r)
  /\ (_sealed r' = true ->
        _sealed r = true \/ exists buffer, op = AddMove buffer \/ op = AddBinarySingle buffer).
Proof.
  intros Hwf Hop.
  pose proof (rwf_length r Hwf) as Hlen. pose proof (rwf_header r Hwf) as Hh.
  destruct op; cbn [apply_op] in Hop;
    unfold addVPack_slice, addVPack_buffer, addVPack_move, addBinary, addBinarySingle in Hop;
    inv_ok; destruct (_sealed r) eqn:Hsealed; cbn [orb] in *; try done;
    try (injection Hop as <-; split_and!; by eauto);
    case_bool_decide as Hkind; cbn [orb] in *; try done;
    try (injection Hop as <-; split_and!; by eauto);
    rewrite ?set_contentType_VPack in *; inv_ok; subst.
  all: try match goal with p : list byte * Z |- _ => destruct p end; inv_ok; subst.
  all: split_and!; [split; cbn; [|done|auto using addMeta_wf]| |done|naive_solver].
  all: try by eapply resetTo_inv.
  all: try by eapply addVPack_loop_inv.
  all: intros [] E; cbn; first [congruence|exfalso; apply Hkind; by eexists].
Qed.

Lemma request_invariant_witness :
  exists r', apply_op true (AddSlice (enc_int 5)) (new_Request emptyHeader []) = Ok r'
    /\ request_wf r'.
Proof.
  eexists. split; [vm_compute; reflexivity|].
  eapply (request_invariant true (AddSlice (enc_int 5)) (new_Request emptyHeader []));
    [by apply new_Request_wf|vm_compute; reflexivity].
Defined.

(** A request made of VelocyPack slices carries exactly those slices: the
    payload is their concatenation, [slices] cuts it back into them, the
    content type is VelocyPack, and no binary data can be added.  This holds in
    the checked build too. *)
Theorem vpack_request_roundtrip {VP : VPack} `{!VPackLaws VP} (checked : bool)
    (h : MessageHeader) (ss : list (list byte)) :
  header_wf h -> Forall is_slice ss -> ss <> [] ->
  exists r r',
    addVPack_slices checked ss (new_Request h []) = Ok r
    /\ request_payload r = Ok (concat ss)
    /\ request_slices r = Ok (r', ss)
    /\ request_slices r' = Ok (r', ss)
    /\ contentType (rq_header r) = CT_VPack
    /\ forall data, addBinary data r = Ok r.
Proof.
  intros Hh Hss Hne.
  destruct (addVPack_slices_Ok checked ss (new_Request h [])) as
    (r & Hr & Hwf & Hp & Hk & Hm & Hsl & Hct); [done|by apply new_Request_wf|done..|].
  cbn in Hp. destruct (request_slices_concat r ss) as (r' & Hr' & Hm' & Hs' & Hp' & Hh' & Hk');
    [done|done|by rewrite Hk; eexists|done|].
  exists r, r'. split_and!; try done.
  - unfold request_payload. rewrite (rwf_length r), Z.leb_refl, Nat2Z.id by done.
    by rewrite take_ge, Hp.
  - unfold request_slices. by rewrite Hm', andb_false_r, Hs'.
  - intros data. unfold addBinary. by rewrite Hk, Hsl.
Qed.

Lemma vpack_request_roundtrip_witness :
  exists r r', addVPack_slices true [enc_int 5; enc_string "x"] (new_Request emptyHeader []) = Ok r
    /\ request_slices r = Ok (r', [enc_int 5; enc_string "x"]).
Proof.
  destruct (vpack_request_roundtrip true emptyHeader [enc_int 5; enc_string "x"])
    as (r & r' & H1 & _ & H2 & _).
  - done.
  - repeat constructor; by eexists _, _.
  - done.
  - exists r, r'. split; [exact H1|exact H2].
Defined.

Lemma addBinary_new h data :
  addBinary data (new_Request h [])
  = Ok (MkRequest (set_type (Some MT_Request) h) default_messageID data false true (Some false)
      false [] (Z.of_nat (length data)) _defaultTimeout).
Proof.
  unfold addBinary, new_Request. cbn [_payloadLength _payload _sealed _isVpack app orb].
  rewrite bool_decide_false, Z.add_0_l, resetTo_length by done. reflexivity.
Qed.

(** What goes wrong with the other ways to give a request a payload.
    Copying a non-empty buffer of slices into a request reads [back()] of an
    empty vector.  Binary data followed by a moved-in buffer resets the buffer
    beyond its end.  And binary data is cut into VelocyPack slices as if it
    were VelocyPack, because [slices] tests whether the kind is set and not
    which kind it is. *)
Theorem request_payload_defects {VP : VPack} `{!VPackLaws VP} (h : MessageHeader)
    (ss : list (list byte)) (data buffer : list byte) :
  Forall is_slice ss -> ss <> [] -> data <> [] ->
  (exists what, addVPack_buffer false (concat ss) (new_Request h []) = Undef what)
  /\ (exists what, (r ← addBinary data (new_Request h []); addBinarySingle buffer r) = Undef what)
  /\ (exists r r', addBinary (concat ss) (new_Request h []) = Ok r
       /\ _isVpack r = Some false /\ request_slices r = Ok (r', ss)).
Proof.
  intros Hss Hne Hd. split_and!.
  - destruct Hss as [|s ss Hs Hss]; [done|]. unfold addVPack_buffer.
    cbn [concat]. pose proof (slice_nonempty s Hs) as Hn. rewrite length_app.
    pose proof (slice_bytes_slice s (concat ss) Hs) as Hb.
    destruct s as [|b s]; [done|]. cbn in *. rewrite Hb. by eexists.
  - rewrite addBinary_new, bind_ret_l. unfold addBinarySingle, resetTo.
    destruct data as [|b data]; [done|]. cbn -[Z.add Z.of_nat Z.leb]. zbool. by eexists.
  - rewrite addBinary_new. eexists. edestruct request_slices_concat as (r' & Hr' & _); cycle 4.
    { exists r'. split_and!; [reflexivity|reflexivity|exact Hr']. }
    all: done.
Qed.

Lemma request_payload_defects_witness :
  exists what, addVPack_buffer false (concat [enc_int 5]) (new_Request emptyHeader []) = Undef what.
Proof.
  refine (proj1 (request_payload_defects emptyHeader [enc_int 5] [Byte.x00] [] _ _ _)).
  - repeat constructor; by eexists _, _.
  - done.
  - done.
Defined.

(** [validateAndCount] accepts exactly the concatenations of valid slices
    and returns how many there are; every other input makes it throw the
    runtime error.  It always terminates, without reading past the input. *)
Theorem validateAndCount_correct {VP : VPack} `{!VPackLaws VP} (l : list byte) :
  (forall n, validateAndCount l = Ok n ->
     exists ss, Forall is_slice ss /\ l = concat ss /\ n = Z.of_nat (length ss))
  /\ (forall ss, Forall is_slice ss -> l = concat ss ->
       validateAndCount l = Ok (Z.of_nat (length ss)))
  /\ (is_Ok (validateAndCount l)
      \/ validateAndCount l = Throw (runtime_error "error during validation of incoming VPack (body)")).
Proof.
  assert (forall l, (run_validator l = Ok () /\ validate l = true)
    \/ exists e, run_validator l = Throw e) as Hv.
  { intros k. unfold run_validator. destruct (validate k); eauto. }
  assert (forall l, run_validator l = Ok () -> validate l = true) as Hv'.
  { intros k Hk. destruct (Hv k) as [[_ H]|[e H]]; [exact H|congruence]. }
  split_and!.
  - intros n. unfold validateAndCount.
    destruct (cut_loop _ _ _ _ _ _) as [m| |] eqn:E; try done. intros [= <-].
    destruct (cut_loop_inv _ _ _ _ _ _ _ Hv' E) as (ss & Hss & -> & ->).
    exists ss. by rewrite fold_count.
  - intros ss Hss ->. by apply validateAndCount_slices.
  - unfold validateAndCount.
    destruct (cut_loop_total (length_error "slice is longer than buffer") run_validator
      (fun _ n => n + 1) (length l) l 0 Hv ltac:(lia)) as [[x ->]|[e ->]]; [left; by eexists|by right].
Qed.

Lemma validateAndCount_correct_witness :
  validateAndCount (concat [enc_int 5; enc_string "x"]) = Ok 2.
Proof.
  refine (proj1 (proj2 (validateAndCount_correct (concat [enc_int 5; enc_string "x"])))
    [enc_int 5; enc_string "x"] _ eq_refl).
  repeat constructor; by eexists _, _.
Defined.

(** The payload of a response.  For a buffer that consists of the message
    header and well-formed slices, [slices] returns exactly the slices after
    the header.  [payload] denotes the right bytes only when the offset is 0:
    otherwise the buffer it returns extends past the end of the payload.  A
    response that was given no payload has no offset to start from. *)
Theorem response_payload_behaviour {VP : VPack} `{!VPackLaws VP} (r : Response)
    (hdr : list byte) (ss : list (list byte)) :
  Forall is_slice ss ->
  let r' := setPayload (hdr ++ concat ss) (Z.of_nat (length hdr)) r in
  (exists r'', response_slices r' = Ok (r'', ss))
  /\ (hdr = [] -> response_payload r' = Ok (concat ss))
  /\ (hdr <> [] -> exists what, response_payload r' = Undef what)
  /\ (forall h strs, let r0 := new_Response h strs in
       (exists what, response_slices r0 = Undef what) /\ exists what, response_payload r0 = Undef what).
Proof.
  intros Hss r'. split_and!.
  - unfold response_slices, r', setPayload, get. cbn [rs_slices _payloadOffset rs_payload_buf].
    rewrite bind_ret_l, length_app. zbool. rewrite Nat2Z.id, drop_app_length.
    rewrite cut_loop_slices by (done || apply no_check_slices || lia).
    rewrite bind_ret_l, fold_snoc. by eexists.
  - intros ->. unfold response_payload, r'. cbn. rewrite Z.leb_refl. by rewrite take_ge.
  - intros Hne. unfold response_payload, r'. cbn. rewrite length_app.
    destruct hdr as [|b hdr]; [done|]. cbn [length]. zbool. by eexists.
  - intros h strs r0. split; by eexists.
Qed.

Lemma response_payload_behaviour_witness :
  (exists r'', response_slices (setPayload (enc_int 1 ++ concat [enc_int 5]) 6
     (new_Response emptyHeader [])) = Ok (r'', [enc_int 5]))
  /\ exists what, response_payload (setPayload (enc_int 1 ++ concat [enc_int 5]) 6
     (new_Response emptyHeader [])) = Undef what.
Proof.
  destruct (response_payload_behaviour (new_Response emptyHeader []) (enc_int 1) [enc_int 5])
    as (H1 & _ & H2 & _); [repeat constructor; by eexists _, _|].
  split; [exact H1|by apply H2].
Defined.

(** [createRequest] with a database never returns. *)
Lemma createRequest_database_diverges fuel h strs db v ct :
  createRequest_database fuel h strs db v ct = Undef "the recursion does not terminate".
Proof. induction fuel as [|fuel IH]; [done|exact IH]. Qed.
