(* ===== verification/HeaderCodec.v ===== *)
(** * The VST message header on the wire

    [createVstMessageHeader], [messageHeaderFromSlice] and
    [validateAndExtractMessageHeader] of src/vst.cpp, and [sliceToStringMap] of
    src/helper.cpp: the message header as a VelocyPack array. *)
From S2P Require Import Prelude StdMap Types VPack ToyVPack Message.
Local Open Scope Z_scope.

Section Codec.
Context {VP : VPack}.

(** [openObject(); add(key, Value(string)) ...; close()]. *)
Definition string_entries (m : StringMap) : list (string * list byte) :=
  (fun kv => (kv.1, enc_string kv.2)) <$> m.
Definition enc_StringMap (m : StringMap) : list byte := enc_object (string_entries m).

(** [if (!field) throw std::runtime_error(what + " for message not set")]. *)
Definition required {A} (what : string) (field : option A) : res A :=
  match field with
  | Some x => Ok x
  | None => Throw (runtime_error (what +:+ " for message not set"))
  end.

(** The slices that follow version and type. *)
Definition header_fields (header : MessageHeader) (t : MessageType) : res (list (list byte)) :=
  match t with
  | MT_Authentication =>
      enc ← get (encryption header);
      if decide (enc = "plain") then
        u ← get (user header);
        p ← get (password header);
        Ok [enc_string enc; enc_string u; enc_string p]
      else if decide (enc = "jwt") then
        tok ← get (token header);
        Ok [enc_string enc; enc_string tok]
      else Throw (invalid_argument ("unknown encryption: " +:+ enc))
  | MT_Request =>
      db ← required "database" (database header);
      verb ← required "rest verb" (restVerb header);
      p ← required "path" (path header);
      Ok [enc_string db; enc_int (RestVerb_to_int verb); enc_string p;
          enc_StringMap (default [] (parameters header));
          enc_StringMap (default [] (meta header))]
  | MT_Response =>
      code ← required "response code" (responseCode header);
      Ok [enc_int code]
  | _ => Ok []
  end.

Definition createVstMessageHeader (header : MessageHeader) : res (list byte) :=
  v ← get (version header);
  t ← get (type header);
  fields ← header_fields header t;
  Ok (enc_array (enc_int v :: enc_int (MessageType_to_int t) :: fields)).

(** [sliceToStringMap]: of equal keys the first one stays. *)
Fixpoint insert_entries (es : list (list byte * list byte)) (rv : StringMap) : res StringMap :=
  match es with
  | [] => Ok rv
  | (k, v) :: es =>
      key ← copyString k;
      value ← copyString v;
      insert_entries es (map_emplace key value rv)
  end.
Definition sliceToStringMap (slice : list byte) : res StringMap :=
  _ ← cassert (isObject slice) "slice.isObject()";
  es ← object_entries slice;
  insert_entries es [].

Definition messageHeaderFromSlice (vstVersionID : Z) (headerSlice : list byte) : res MessageHeader :=
  _ ← cassert (isArray headerSlice) "headerSlice.isArray()";
  size ← byteSize headerSlice;
  let header := set_byteSize (Some size) emptyHeader in
  header ← set_contentType (if vstVersionID =? 1 then CT_VPack else CT_Unset) header;
  v ← (slice_at headerSlice 0 ≫= getNumberInt);
  let header := set_version (Some v) header in
  t ← (slice_at headerSlice 1 ≫= getNumberInt);
  let header := set_type (Some (MessageType_of_int t)) header in
  match MessageType_of_int t with
  | MT_Authentication =>
      u ← (slice_at headerSlice 2 ≫= copyString);
      let header := set_user (Some u) header in
      p ← (slice_at headerSlice 3 ≫= copyString);
      Ok (set_password (Some p) header)
  | MT_Request =>
      db ← (slice_at headerSlice 2 ≫= copyString);
      let header := set_database (Some db) header in
      verb ← (slice_at headerSlice 3 ≫= getInt);
      let header := set_restVerb (Some (RestVerb_of_int (i32 verb))) header in
      p ← (slice_at headerSlice 4 ≫= copyString);
      let header := set_path (Some p) header in
      params ← (slice_at headerSlice 5 ≫= sliceToStringMap);
      let header := set_parameters (Some params) header in
      m ← (slice_at headerSlice 6 ≫= sliceToStringMap);
      Ok (set_meta (Some m) header)
  | MT_Response =>
      code ← (slice_at headerSlice 2 ≫= getUInt);
      let header := set_responseCode (Some (u32 code)) header in
      header ← set_contentType CT_VPack header;
      len ← slice_length headerSlice;
      if 4 <=? len then
        m ← (slice_at headerSlice 3 ≫= sliceToStringMap);
        Ok (set_meta (Some m) header)
      else Ok header
  | _ => Ok header
  end.

(** Returns the header and the number of bytes it occupies. *)
Definition validateAndExtractMessageHeader (vstVersionID : Z) (vp : list byte)
    : res (MessageHeader * Z) :=
  _ ← (if validate vp then Ok ()
       else Throw (runtime_error "error during validation of incoming VPack (HEADER)"));
  headerLength ← byteSize vp;
  header ← messageHeaderFromSlice vstVersionID vp;
  Ok (header, headerLength).

(** ** Round trips *)
Context `{!VPackLaws VP}.

Lemma string_entries_slices m : Forall (fun kv => is_slice kv.2) (string_entries m).
Proof. apply Forall_fmap, Forall_true. intros []. apply is_slice_string. Qed.

Lemma string_entries_elem k s m :
  (k, s) ∈ string_entries m -> exists v, (k, v) ∈ m /\ s = enc_string v.
Proof. intros ([k' v] & [= -> ->] & Hin)%list_elem_of_fmap. eauto. Qed.

Lemma string_entries_wf m : map_wf m -> map_wf (string_entries m).
Proof.
  induction m as [|[k v] m IH]; cbn; [done|]. intros [H1 Hm]. split; [|by apply IH].
  intros k' s (v' & Hin & _)%string_entries_elem. by eapply H1.
Qed.

Lemma is_slice_StringMap m : is_slice (enc_StringMap m).
Proof. apply is_slice_object, string_entries_slices. Qed.

(** Inserting entries in key order appends them. *)
Lemma map_emplace_snoc k v (m : StringMap) :
  (forall k' v', (k', v') ∈ m -> less k' k = true) -> map_emplace k v m = m ++ [(k, v)].
Proof.
  induction m as [|[k1 v1] m IH]; cbn [map_emplace app]; [done|]. intros Hlt.
  pose proof (Hlt k1 v1 ltac:(left)) as H1. rewrite (less_asym _ _ H1), H1.
  rewrite IH; [done|]. intros k' v' Hin. apply (Hlt k' v'). by right.
Qed.

Lemma insert_entries_encoded m es rv :
  map_wf (rv ++ m) ->
  Forall2 (fun kv e => (exists r, e.1 = enc_string kv.1 ++ r) /\ exists r, e.2 = kv.2 ++ r)
    (string_entries m) es ->
  insert_entries es rv = Ok (rv ++ m).
Proof.
  revert es rv. induction m as [|[k v] m IH]; intros es rv Hwf Hes; cbn [string_entries fmap list_fmap] in Hes.
  { inversion Hes. subst. by rewrite app_nil_r. }
  inversion Hes as [|? [e1 e2] ? es' [[r1 Hk] [r2 Hv]] Hes']. subst. cbn in Hk, Hv. subst.
  cbn [insert_entries]. rewrite !copyString_string, !bind_ret_l.
  rewrite map_emplace_snoc.
  - rewrite IH; [by rewrite <- (assoc_L (++))| |done]. by rewrite <- (assoc_L (++)).
  - clear -Hwf. intros k' v' Hin. induction rv as [|[k1 v1] rv IH]; [by apply not_elem_of_nil in Hin|].
    destruct Hwf as [H1 Hwf]. apply elem_of_cons in Hin as [[= -> ->]|Hin]; [|by apply IH].
    apply (H1 k v). apply elem_of_app. right. left.
Qed.

Lemma sliceToStringMap_enc m rest :
  map_wf m -> sliceToStringMap (enc_StringMap m ++ rest) = Ok m.
Proof.
  intros Hwf. unfold sliceToStringMap, enc_StringMap.
  rewrite isObject_object by apply string_entries_slices. cbn [cassert]. rewrite bind_ret_l.
  destruct (object_entries_object (string_entries m) rest) as (es & -> & Hes);
    [apply string_entries_slices|by apply string_entries_wf|].
  rewrite bind_ret_l. by rewrite (insert_entries_encoded m es []).
Qed.

(** Element [i] of an encoded array, followed by an accessor. *)
Lemma at_bind {B} (f : list byte -> res B) ss rest i s b :
  Forall is_slice ss -> 0 <= i -> ss !! Z.to_nat i = Some s -> (forall r, f (s ++ r) = Ok b) ->
  (slice_at (enc_array ss ++ rest) i ≫= f) = Ok b.
Proof.
  intros Hss Hi Hs Hf. destruct (at_array ss rest (Z.to_nat i) s Hss Hs) as [r Hr].
  rewrite Z2Nat.id in Hr by done. by rewrite Hr, bind_ret_l.
Qed.

(** The common prefix of every header: version and type. *)
Section Prefix.
Context (v : Z) (t : MessageType) (fields : list (list byte)) (rest : list byte).
Hypothesis Hv : - 2 ^ 31 <= v < 2 ^ 31.
Hypothesis Ht : - 2 ^ 31 <= MessageType_to_int t < 2 ^ 31.
Hypothesis Hfields : Forall is_slice fields.
Local Abbreviation hdr := (enc_int v :: enc_int (MessageType_to_int t) :: fields).

Lemma header_slices : Forall is_slice hdr.
Proof. constructor; [|constructor; [|done]]; apply is_slice_int; lia. Qed.

Lemma header_version : (slice_at (enc_array hdr ++ rest) 0 ≫= getNumberInt) = Ok v.
Proof.
  eapply at_bind; [apply header_slices|done|reflexivity|]. intros. by apply getNumberInt_int.
Qed.

Lemma header_type :
  (slice_at (enc_array hdr ++ rest) 1 ≫= getNumberInt) = Ok (MessageType_to_int t).
Proof.
  eapply at_bind; [apply header_slices|done|reflexivity|]. intros. by apply getNumberInt_int.
Qed.

Lemma header_string k s :
  0 <= k -> hdr !! Z.to_nat k = Some (enc_string s) ->
  (slice_at (enc_array hdr ++ rest) k ≫= copyString) = Ok s.
Proof. intros Hk Hs. eapply at_bind; [apply header_slices|done|exact Hs|intros; apply copyString_string]. Qed.

Lemma header_map k m :
  0 <= k -> map_wf m -> hdr !! Z.to_nat k = Some (enc_StringMap m) ->
  (slice_at (enc_array hdr ++ rest) k ≫= sliceToStringMap) = Ok m.
Proof. intros Hk Hm Hs. eapply at_bind; [apply header_slices|done|exact Hs|intros; by apply sliceToStringMap_enc]. Qed.

(** Validation finds the header and its end. *)
Lemma extract_header h' :
  messageHeaderFromSlice 1 (enc_array hdr ++ rest) = Ok h' ->
  validateAndExtractMessageHeader 1 (enc_array hdr ++ rest)
  = Ok (h', Z.of_nat (length (enc_array hdr))).
Proof.
  intros Hh. pose proof (is_slice_array _ header_slices) as Hs.
  unfold validateAndExtractMessageHeader.
  rewrite validate_slice, bind_ret_l, byteSize_slice, bind_ret_l by done.
  by rewrite Hh, bind_ret_l.
Qed.

(** The header after the fields every type has. *)
Definition prefix_header : MessageHeader :=
  set_type (Some t) (set_version (Some v)
    (addMeta fu_content_type_key fu_content_type_vpack
      (set_byteSize (Some (Z.of_nat (length (enc_array hdr)))) emptyHeader))).
End Prefix.

End Codec.

Lemma RestVerb_of_to v : (forall n, v = UnnamedVerb n -> RestVerb_of_int n = v) ->
  RestVerb_of_int (RestVerb_to_int v) = v.
Proof. destruct v; try done. intros H. by apply H. Qed.

Lemma MessageType_of_to t : (forall n, t = UnnamedType n -> MessageType_of_int n = t) ->
  MessageType_of_int (MessageType_to_int t) = t.
Proof. destruct t; try done. intros H. by apply H. Qed.

(** A verb the header format can carry: any value of the enumeration type. *)
Definition verb_in_range (v : RestVerb) : Prop :=
  match v with
  | UnnamedVerb n => - 2 ^ 31 <= n < 2 ^ 31 /\ RestVerb_of_int n = v
  | _ => True
  end.

Lemma verb_roundtrip v :
  verb_in_range v ->
  - 2 ^ 31 <= RestVerb_to_int v < 2 ^ 31 /\ RestVerb_of_int (i32 (RestVerb_to_int v)) = v.
Proof.
  destruct v; cbn; try (intros _; split; [lia|reflexivity]).
  intros [Hn Hv]. split; [done|]. by rewrite i32_id.
Qed.

(** The header of a request survives the wire.  For every request header with a version, a
    database, a verb and a path, [createVstMessageHeader] produces one valid slice; in
    front of any payload that slice is validated and measured exactly, and decoding it
    gives back version, type, database, verb, path, parameters and metadata. *)
Lemma request_header_codec {VP : VPack} `{!VPackLaws VP} (h : MessageHeader)
    (v : Z) (db p : string) (verb : RestVerb) (payload : list byte) :
  version h = Some v -> - 2 ^ 31 <= v < 2 ^ 31 -> type h = Some MT_Request ->
  database h = Some db -> restVerb h = Some verb -> verb_in_range verb -> path h = Some p ->
  header_wf h ->
  exists bytes h',
    createVstMessageHeader h = Ok bytes /\ is_slice bytes
    /\ validateAndExtractMessageHeader 1 (bytes ++ payload) = Ok (h', Z.of_nat (length bytes))
    /\ version h' = Some v /\ type h' = Some MT_Request /\ database h' = Some db
    /\ restVerb h' = Some verb /\ path h' = Some p
    /\ parameters h' = Some (default [] (parameters h))
    /\ meta h' = Some (default [] (meta h)).
Proof.
  intros Hv Hvr Ht Hdb Hverb [Hvb Hvb']%verb_roundtrip Hp [Hm Hps].
  assert (map_wf (default [] (meta h))) as Hm' by (destruct (meta h); [by apply Hm|done]).
  assert (map_wf (default [] (parameters h))) as Hps' by (destruct (parameters h); [by apply Hps|done]).
  set (fields := [enc_string db; enc_int (RestVerb_to_int verb); enc_string p;
    enc_StringMap (default [] (parameters h)); enc_StringMap (default [] (meta h))]).
  assert (Forall is_slice fields) as Hf.
  { repeat constructor; try apply is_slice_string; try apply is_slice_StringMap.
    apply is_slice_int. lia. }
  assert (- 2 ^ 31 <= MessageType_to_int MT_Request < 2 ^ 31) as Htr by (cbn; lia).
  pose proof (header_slices v MT_Request fields Hvr Htr Hf) as Hs.
  exists (enc_array (enc_int v :: enc_int (MessageType_to_int MT_Request) :: fields)).
  eexists. split_and!.
  - unfold createVstMessageHeader, header_fields, required.
    by rewrite Hv, Ht, Hdb, Hverb, Hp.
  - by apply is_slice_array.
  - apply extract_header; [done..|]. unfold messageHeaderFromSlice.
    rewrite isArray_array by done. cbn [cassert]. rewrite bind_ret_l.
    rewrite byteSize_slice, bind_ret_l by by apply is_slice_array.
    cbn [Z.eqb Pos.eqb]. rewrite set_contentType_VPack, bind_ret_l.
    rewrite header_version, bind_ret_l, header_type, bind_ret_l by done.
    change (MessageType_of_int (MessageType_to_int MT_Request)) with MT_Request. cbn match.
    rewrite (header_string v MT_Request fields payload Hvr Htr Hf 2 db), bind_ret_l by (done || reflexivity).
    erewrite (at_bind getInt); [|exact Hs|done|reflexivity|intros; apply getInt_int; lia].
    rewrite bind_ret_l, Hvb'.
    rewrite (header_string v MT_Request fields payload Hvr Htr Hf 4 p), bind_ret_l by (done || reflexivity).
    rewrite (header_map v MT_Request fields payload Hvr Htr Hf 5 (default [] (parameters h))), bind_ret_l
      by (done || reflexivity).
    rewrite (header_map v MT_Request fields payload Hvr Htr Hf 6 (default [] (meta h))), bind_ret_l
      by (done || reflexivity).
    reflexivity.
  - reflexivity.
  - reflexivity.
  - reflexivity.
  - reflexivity.
  - reflexivity.
  - reflexivity.
  - reflexivity.
Qed.

Lemma request_header_codec_example :
  exists bytes h',
    createVstMessageHeader (MkHeader (Some 1) (Some MT_Request) None (Some "_system") (Some Post)
      (Some "/_api/version") (Some [("a", "1"); ("b", "2")]) None None None None None None) = Ok bytes
    /\ validateAndExtractMessageHeader 1 (bytes ++ [Byte.x05]) = Ok (h', Z.of_nat (length bytes))
    /\ path h' = Some "/_api/version".
Proof.
  destruct (request_header_codec (MkHeader (Some 1) (Some MT_Request) None (Some "_system")
      (Some Post) (Some "/_api/version") (Some [("a", "1"); ("b", "2")]) None None None None None None)
      1 "_system" "/_api/version" Post [Byte.x05]) as (bytes & h' & H1 & _ & H2 & _ & _ & _ & _ & H3 & _);
    try reflexivity; try done.
  - split; intros m [= <-]. cbn. split; [|split; [|done]]; intros k' v' Hin; [|set_solver].
    apply list_elem_of_singleton in Hin. injection Hin as -> ->. reflexivity.
  - exists bytes, h'. split; [exact H1|]. split; [exact H2|exact H3].
Defined.

(** Decoding the header of a response.  The status code is the number in
    the header, cut to 32 bits.  Without metadata the content type is
    VelocyPack; with metadata, the metadata of the message replace everything,
    so the content type is whatever they say. *)
Theorem response_header_decoding {VP : VPack} `{!VPackLaws VP} (v code : Z)
    (m : option StringMap) (payload : list byte) :
  - 2 ^ 31 <= v < 2 ^ 31 -> 0 <= code < 2 ^ 64 -> (forall mm, m = Some mm -> map_wf mm) ->
  let bytes := enc_array ([enc_int v; enc_int 2; enc_int code]
                          ++ match m with Some mm => [enc_StringMap mm] | None => [] end) in
  exists h',
    validateAndExtractMessageHeader 1 (bytes ++ payload) = Ok (h', Z.of_nat (length bytes))
    /\ version h' = Some v /\ type h' = Some MT_Response /\ responseCode h' = Some (u32 code)
    /\ match m with
       | None => contentType h' = CT_VPack
       | Some mm => meta h' = Some mm
                    /\ contentType h' = to_ContentType (default "" (map_find fu_content_type_key mm))
       end.
Proof.
  intros Hvr Hc Hm bytes.
  set (fields := enc_int code :: match m with Some mm => [enc_StringMap mm] | None => [] end).
  assert (Forall is_slice fields) as Hf.
  { constructor; [apply is_slice_int; lia|]. destruct m; repeat constructor. apply is_slice_StringMap. }
  assert (- 2 ^ 31 <= MessageType_to_int MT_Response < 2 ^ 31) as Htr by (cbn; lia).
  pose proof (header_slices v MT_Response fields Hvr Htr Hf) as Hs.
  change bytes with (enc_array (enc_int v :: enc_int (MessageType_to_int MT_Response) :: fields)).
  assert (forall k, messageHeaderFromSlice 1
    (enc_array (enc_int v :: enc_int (MessageType_to_int MT_Response) :: fields) ++ payload) = k ->
    (let header := addMeta fu_content_type_key fu_content_type_vpack
       (set_responseCode (Some (u32 code)) (prefix_header v MT_Response fields)) in
     if 4 <=? Z.of_nat (2 + length fields) then
       m ← (slice_at (enc_array (enc_int v :: enc_int (MessageType_to_int MT_Response) :: fields)
         ++ payload) 3 ≫= sliceToStringMap);
       Ok (set_meta (Some m) header)
     else Ok header) = k) as Hk.
  { intros k <-. unfold messageHeaderFromSlice.
    rewrite isArray_array by done. cbn [cassert]. rewrite bind_ret_l.
    rewrite byteSize_slice, bind_ret_l by by apply is_slice_array.
    cbn [Z.eqb Pos.eqb]. rewrite set_contentType_VPack, bind_ret_l.
    rewrite header_version, bind_ret_l, header_type, bind_ret_l by done.
    change (MessageType_of_int (MessageType_to_int MT_Response)) with MT_Response. cbn match.
    erewrite (at_bind getUInt); [|exact Hs|done|reflexivity|intros; by apply getUInt_int].
    by rewrite bind_ret_l, set_contentType_VPack, bind_ret_l, length_array by done. }
  specialize (Hk _ eq_refl).
  destruct m as [mm|].
  - rewrite (header_map v MT_Response fields payload Hvr Htr Hf 3 mm) in Hk
      by (done || reflexivity || by apply Hm).
    eexists. split; [apply extract_header; [done..|]; symmetry; exact Hk|]. split_and!; try reflexivity.
  - eexists. split; [apply extract_header; [done..|]; symmetry; exact Hk|]. by split_and!.
Qed.

Lemma response_header_decoding_witness :
  exists h', validateAndExtractMessageHeader 1
      (enc_array ([enc_int 1; enc_int 2; enc_int 404] ++ []) ++ [Byte.x07])
    = Ok (h', Z.of_nat (length (enc_array ([enc_int 1; enc_int 2; enc_int 404] ++ []))))
    /\ responseCode h' = Some 404.
Proof.
  destruct (response_header_decoding 1 404 None [Byte.x07]) as (h' & H1 & _ & _ & H2 & _);
    [lia|lia|done|].
  exists h'. split; [exact H1|exact H2].
Defined.

(** The header of an authentication: one slice, and what the reader makes of it. *)
Lemma authentication_header_codec {VP : VPack} `{!VPackLaws VP} (h : MessageHeader)
    (v : Z) (u p : string) (payload : list byte) :
  version h = Some v -> - 2 ^ 31 <= v < 2 ^ 31 -> type h = Some MT_Authentication ->
  encryption h = Some "plain" -> user h = Some u -> password h = Some p ->
  exists bytes h',
    createVstMessageHeader h = Ok bytes /\ is_slice bytes
    /\ messageHeaderFromSlice 1 (bytes ++ payload) = Ok h'
    /\ validateAndExtractMessageHeader 1 (bytes ++ payload) = Ok (h', Z.of_nat (length bytes))
    /\ version h' = Some v /\ type h' = Some MT_Authentication
    /\ user h' = Some "plain" /\ password h' = Some u /\ encryption h' = None.
Proof.
  intros Hv Hvr Ht He Hu Hp. set (fields := [enc_string "plain"; enc_string u; enc_string p]).
  assert (Forall is_slice fields) as Hf by (repeat constructor; apply is_slice_string).
  assert (- 2 ^ 31 <= MessageType_to_int MT_Authentication < 2 ^ 31) as Htr by (cbn; lia).
  pose proof (header_slices v MT_Authentication fields Hvr Htr Hf) as Hs.
  set (bytes := enc_array (enc_int v :: enc_int (MessageType_to_int MT_Authentication) :: fields)).
  assert (exists h', messageHeaderFromSlice 1 (bytes ++ payload) = Ok h' /\ version h' = Some v
    /\ type h' = Some MT_Authentication /\ user h' = Some "plain" /\ password h' = Some u /\ encryption h' = None)
    as (h' & Hh' & Hfields).
  { eexists. split; [|].
    - unfold messageHeaderFromSlice, bytes.
      rewrite isArray_array by done. cbn [cassert]. rewrite bind_ret_l.
      rewrite byteSize_slice, bind_ret_l by by apply is_slice_array.
      cbn [Z.eqb Pos.eqb]. rewrite set_contentType_VPack, bind_ret_l.
      rewrite header_version, bind_ret_l, header_type, bind_ret_l by done.
      change (MessageType_of_int (MessageType_to_int MT_Authentication)) with MT_Authentication.
      cbn match.
      rewrite (header_string v MT_Authentication fields payload Hvr Htr Hf 2 "plain"), bind_ret_l by (done || reflexivity).
      rewrite (header_string v MT_Authentication fields payload Hvr Htr Hf 3 u), bind_ret_l by (done || reflexivity).
      reflexivity.
    - by split_and!. }
  exists bytes, h'. split; [unfold createVstMessageHeader, header_fields; by rewrite Hv, Ht, He, Hu, Hp|].
  split; [by apply is_slice_array|]. split; [done|]. split; [|done]. by apply extract_header.
Qed.

(** The header of an authentication message does not survive the round
    trip.  The writer puts the encryption at index 2, before user and password;
    the reader takes the user from index 2 and the password from index 3.  So
    it reads the encryption "plain" as the user, and the user as the password. *)
Theorem authentication_header_shifted {VP : VPack} `{!VPackLaws VP} (h : MessageHeader)
    (v : Z) (u p : string) :
  version h = Some v -> - 2 ^ 31 <= v < 2 ^ 31 -> type h = Some MT_Authentication ->
  encryption h = Some "plain" -> user h = Some u -> password h = Some p ->
  exists bytes h',
    createVstMessageHeader h = Ok bytes
    /\ messageHeaderFromSlice 1 bytes = Ok h'
    /\ user h' = Some "plain" /\ password h' = Some u /\ encryption h' = None.
Proof.
  intros Hv Hvr Ht He Hu Hp.
  destruct (authentication_header_codec h v u p []) as (bytes & h' & H1 & _ & H2 & _ & _ & _ & H3); try done.
  rewrite app_nil_r in H2. by exists bytes, h'.
Qed.

Lemma authentication_header_shifted_witness :
  exists bytes h',
    createVstMessageHeader (MkHeader (Some 1) (Some MT_Authentication) None None None None None None
      (Some "plain") (Some "root") (Some "secret") None None) = Ok bytes
    /\ messageHeaderFromSlice 1 bytes = Ok h' /\ password h' = Some "root".
Proof.
  destruct (authentication_header_shifted (MkHeader (Some 1) (Some MT_Authentication) None None None
      None None None (Some "plain") (Some "root") (Some "secret") None None) 1 "root" "secret")
    as (bytes & h' & H1 & H2 & _ & H3 & _); try reflexivity; [done|].
  exists bytes, h'. split; [exact H1|]. split; [exact H2|exact H3].
Defined.
