(* ===== verification/Url.v ===== *)
(** * Printing and URL encoding

    src/helper.cpp and include/fuerte/helper.h: the [to_string] helpers, and
    [http::urlEncode] / [http::urlDecode], with

    - [url_roundtrip]: decoding an encoded string gives it back;
    - [urlEncode_safe]: an encoded string holds only unreserved characters and
      percent escapes, and so no separator of a URL;
    - [urlDecode_total]: decoding returns for every input, however malformed,
      and never makes it longer. *)
From S2P Require Import Prelude StdMap StdString Types VPack Message.
From stdpp Require Import pretty.
Local Open Scope Z_scope.

(** ** Characters *)

(** The value of a [char], which is signed. *)
Definition schar (c : ascii) : Z :=
  let n := Z.of_N (N_of_ascii c) in if n <? 128 then n else n - 256.
(** Conversion of an integer to [char]. *)
Definition char_of_Z (z : Z) : ascii := ascii_of_N (Z.to_N (u8 z)).
Definition between (a b c : ascii) : bool := (schar a <=? schar c) && (schar c <=? schar b).
Definition push_back (s : string) (c : ascii) : string := s +:+ String c "".

(** ** http::hex2int, urlEncode, urlDecode *)
Definition hex2int (ch : ascii) (errorValue : Z) : Z :=
  if between "0" "9" ch then schar ch - schar "0"
  else if between "A" "F" ch then schar ch - schar "A" + 10
  else if between "a" "f" ch then schar ch - schar "a" + 10
  else errorValue.

Definition hexChars : list ascii :=
  ["0"; "1"; "2"; "3"; "4"; "5"; "6"; "7"; "8"; "9"; "A"; "B"; "C"; "D"; "E"; "F"]%char.

Definition unreserved (c : ascii) : bool :=
  between "0" "9" c || between "a" "z" c || between "A" "Z" c
  || bool_decide (c = "-"%char) || bool_decide (c = "_"%char) || bool_decide (c = "~"%char).

Fixpoint encode_loop (src : string) (result : string) : string :=
  match src with
  | "" => result
  | String c src =>
      encode_loop src
        (if unreserved c then push_back result c
         else
           let n := u8 (schar c) in
           let n1 := Z.shiftr n 4 in
           let n2 := Z.land n 15 in
           push_back (push_back (push_back result "%"%char)
             (nth (Z.to_nat n1) hexChars Ascii.zero)) (nth (Z.to_nat n2) hexChars Ascii.zero))
  end.

Definition SIZE_MAX : Z := 2 ^ 64 - 1.
Definition urlEncode (src : string) : res string :=
  if (SIZE_MAX - 1) / 3 <=? Z.of_nat (String.length src) then Throw (overflow_error "out of memory")
  else Ok (encode_loop src "").
(** The overload for a C string, which may be null. *)
Definition urlEncode_cstr (src : option string) : res string :=
  match src with Some s => urlEncode (c_str s) | None => Ok "" end.

(** [for (; src < end && *src != '%'; ++src)]. *)
Fixpoint copy_plain (src : string) (result : string) : string * string :=
  match src with
  | "" => ("", result)
  | String c src' =>
      if bool_decide (c = "%"%char) then (src, result)
      else if bool_decide (c = "+"%char) then copy_plain src' (push_back result " ")
      else copy_plain src' (push_back result c)
  end.

(** One escape, at [src]: what remains and the result. *)
Definition decode_escape (src : string) (result : string) : string * string :=
  match src with
  | String _ ((String a (String b src3 as src2)) as src1) =>
      let h1 := hex2int a (-1) in
      let h2 := hex2int b (-1) in
      if h1 =? -1 then (src1, result)
      else if h2 =? -1 then (src2, push_back result (char_of_Z h1))
      else (src3, push_back result (char_of_Z (Z.lor (Z.shiftl h1 4) h2)))
  | String _ ((String a "") as src1) =>
      let h1 := hex2int a (-1) in
      if h1 =? -1 then (src1, result) else ("", push_back result (char_of_Z h1))
  | String _ "" => ("", result)
  | "" => ("", result)
  end.

Fixpoint decode_loop (fuel : nat) (src : string) (result : string) : res string :=
  match src with
  | "" => Ok result
  | _ =>
      match fuel with
      | O => Undef "the loop does not terminate"
      | S fuel =>
          let '(src, result) := decode_escape src result in
          let '(src, result) := copy_plain src result in
          decode_loop fuel src result
      end
  end.

Definition urlDecode (str : string) : res string :=
  let '(src, result) := copy_plain str "" in
  decode_loop (String.length src) src result.

(** ** Printing *)
Definition newline : string := String "010" "".
Definition quote : string := String "034" "".

(** [_detail::arrayToString], [mapToKeys], [mapToString], for printed elements. *)
Fixpoint comma_separated (l : list string) : string :=
  match l with
  | [] => ""
  | [x] => x +:+ " "
  | x :: l => x +:+ ", " +:+ comma_separated l
  end.
Definition arrayToString (l : list string) : string :=
  (if bool_decide (l = []) then "[]"
   else "[ " +:+ comma_separated ((fun x => quote +:+ x +:+ quote) <$> l) +:+ "]") +:+ newline.
Definition mapToKeys {A} (m : list (string * A)) : string :=
  (match m with
   | [] => "Keys[]"
   | _ => "Keys[ " +:+ comma_separated ((fun kv => quote +:+ kv.1 +:+ quote) <$> m) +:+ "]"
   end) +:+ newline.
(** The quotation mark behind the value is missing in the code. *)
Definition mapToString (m : list (string * string)) : string :=
  (match m with
   | [] => "{}"
   | _ => "{ " +:+ comma_separated
            ((fun kv => quote +:+ kv.1 +:+ quote +:+ " : " +:+ quote +:+ kv.2) <$> m) +:+ "}"
   end) +:+ newline.

(** [MessageStore::keys]. *)
Definition store_keys {A} (m : stdmap Z A) : string :=
  mapToKeys ((fun kv => (pretty kv.1, kv.2)) <$> m).

(** [to_string(MessageHeader)]. *)
Definition field {A} (name : string) (show : A -> string) (o : option A) : string :=
  match o with Some a => name +:+ ": " +:+ show a +:+ newline | None => "" end.
Definition header_lines (m : StringMap) (indent : string) : string :=
  String.concat "" ((fun kv => indent +:+ kv.1 +:+ " -:- " +:+ kv.2 +:+ newline) <$> m).
Definition MessageHeader_to_string (h : MessageHeader) : string :=
  field "byteSize" pretty (hdr_byteSize h)
  +:+ field "version" pretty (version h)
  +:+ field "type" (fun t => pretty (MessageType_to_int t)) (type h)
  +:+ field "responseCode" pretty (responseCode h)
  +:+ field "database" id (database h)
  +:+ field "restVerb" RestVerb_to_string (restVerb h)
  +:+ field "path" id (path h)
  +:+ field "parameters" (fun m => header_lines m "") (parameters h)
  +:+ match meta h with
      | Some m => "meta:" +:+ newline +:+ header_lines m (String "009" "") +:+ newline
      | None => ""
      end
  +:+ field "user" id (user h)
  +:+ field "password" id (password h)
  +:+ "contentType: " +:+ contentTypeString h +:+ newline.

Section Slices.
Context {VP : VPack}.
(** [Slice::toJson], of VelocyPack. *)
Context (toJson : list byte -> res string).

Definition exn_what (e : exn) : string :=
  match e with
  | logic_error w | runtime_error w | invalid_argument w | overflow_error w | length_error w
  | out_of_range w | vpack_exception w => w
  | bad_alloc => "std::bad_alloc"
  | bad_weak_ptr => "bad_weak_ptr"
  | std_exception => "std::exception"
  | error_condition _ | foreign_exception _ | process_exit _ => ""
  end.

(** The operands of one output expression are evaluated before any of them is
    printed, as C++ before 2017 allows. *)
Definition slice_to_string (slice : list byte) : res string :=
  match (json ← toJson slice; n ← byteSize slice;
         Ok (json +:+ ", " +:+ pretty n +:+ ", " +:+ pretty (Z.of_nat (String.length json)))) with
  | Ok s => Ok (s +:+ newline)
  | Throw e =>
      if is_std_exception e then Ok ("slice to string failed with: " +:+ exn_what e +:+ newline) else Throw e
  | Undef w => Undef w
  end.

Definition slices_to_string (slices : list (list byte)) : res string :=
  match slices with
  | [] => Ok ("empty" +:+ newline)
  | _ => parts ← res_map slice_to_string slices; Ok (String.concat "" parts +:+ newline)
  end.

(** [to_string(Message)] of a request and of a response. *)
Definition message_frame (id : Z) (h : MessageHeader) (body : string) : string :=
  newline +:+ "#### Message #####################################" +:+ newline
  +:+ "Id:" +:+ pretty id +:+ newline +:+ "Header:" +:+ newline +:+ MessageHeader_to_string h
  +:+ newline +:+ "Body:" +:+ newline +:+ body +:+ newline
  +:+ "##################################################" +:+ newline.

Definition Request_to_string (r : Request) : res string :=
  body ← (if bool_decide (contentType (rq_header r) = CT_VPack)
          then '(_, ss) ← request_slices r; slices_to_string ss
          else p ← request_payload r; Ok (String.string_of_list_byte p));
  Ok (message_frame (rq_messageID r) (rq_header r) body).
Definition Response_to_string (r : Response) : res string :=
  body ← (if bool_decide (contentType (rs_header r) = CT_VPack)
          then '(_, ss) ← response_slices r; slices_to_string ss
          else p ← response_payload r; Ok (String.string_of_list_byte p));
  Ok (message_frame (rs_messageID r) (rs_header r) body).
End Slices.

(** ** Encoding *)

(** The encoding of one character. *)
Definition encode_char (c : ascii) : string :=
  if unreserved c then String c ""
  else
    String "%" (String (nth (Z.to_nat (Z.shiftr (u8 (schar c)) 4)) hexChars Ascii.zero)
      (String (nth (Z.to_nat (Z.land (u8 (schar c)) 15)) hexChars Ascii.zero) "")).
(** Reference: every character on its own. *)
Fixpoint encoded (s : string) : string :=
  match s with "" => "" | String c s => encode_char c +:+ encoded s end.

#[local] Arguments String.append !s1 s2 / : simpl nomatch.
Lemma encode_loop_spec src result : encode_loop src result = result +:+ encoded src.
Proof.
  revert result. induction src as [|c src IH]; intros result; cbn [encode_loop encoded].
  { by rewrite string_app_nil_r. }
  rewrite IH. unfold encode_char, push_back.
  destruct (unreserved c); rewrite <- ?(assoc_L String.app); reflexivity.
Qed.

(** Every one of the 256 characters. *)
Ltac all_chars c := destruct c as [[] [] [] [] [] [] [] []].

(** Unreserved characters are neither an escape nor a space. *)
Lemma unreserved_plain c : unreserved c = true -> c <> "%"%char /\ c <> "+"%char.
Proof. all_chars c; try discriminate; intros _; split; discriminate. Qed.

(** An escape decodes to the character it encodes. *)
Lemma escape_decodes c rest result :
  unreserved c = false ->
  decode_escape (encode_char c +:+ rest) result = (rest, push_back result c).
Proof. all_chars c; try discriminate; intros _; reflexivity. Qed.

Lemma push_back_app r c s : push_back r c +:+ s = r +:+ String c s.
Proof. unfold push_back. by rewrite <- (assoc_L String.app). Qed.

(** [urlDecode] from any point on. *)
Definition decode_from (fuel : nat) (src result : string) : res string :=
  let '(src, result) := copy_plain src result in decode_loop fuel src result.

Lemma decode_encoded fuel s result :
  (String.length (encoded s) <= fuel)%nat -> decode_from fuel (encoded s) result = Ok (result +:+ s).
Proof.
  revert fuel result. induction s as [|c s IH]; intros fuel result Hf; cbn [encoded] in *.
  { unfold decode_from. cbn. rewrite string_app_nil_r. by destruct fuel. }
  rewrite string_length_app in Hf. destruct (unreserved c) eqn:E.
  - destruct (unreserved_plain c E) as [H1 H2].
    assert (encode_char c = String c "") as Hc by (unfold encode_char; by rewrite E). rewrite Hc in Hf |- *.
    unfold decode_from. cbn [String.append copy_plain]. rewrite !bool_decide_false by done.
    change (decode_from fuel (encoded s) (push_back result c) = Ok (result +:+ String c s)).
    rewrite IH by lia. by rewrite push_back_app.
  - pose proof (escape_decodes c (encoded s) result E) as Hd.
    assert (exists a b, encode_char c = String "%" (String a (String b ""))) as (a & b & Hc)
      by (unfold encode_char; rewrite E; eauto).
    rewrite Hc in Hd, Hf |- *. unfold decode_from. cbn [String.append copy_plain] in Hd |- *.
    rewrite bool_decide_true by done. destruct fuel as [|fuel]; [cbn in Hf; lia|].
    cbn [decode_loop]. rewrite Hd.
    change (decode_from fuel (encoded s) (push_back result c) = Ok (result +:+ String c s)).
    rewrite IH by (cbn in Hf; lia). by rewrite push_back_app.
Qed.

(** ** Decoding *)
Lemma copy_plain_spec src result :
  exists mid, copy_plain src result = ((copy_plain src result).1, result +:+ mid)
    /\ (String.length (copy_plain src result).1 + String.length mid = String.length src)%nat.
Proof.
  revert result. induction src as [|c src IH]; intros result; cbn [copy_plain].
  { exists "". by rewrite string_app_nil_r. }
  destruct (bool_decide (c = "%"%char)).
  { exists "". rewrite string_app_nil_r. cbn. split; [done|lia]. }
  destruct (bool_decide (c = "+"%char)).
  - destruct (IH (push_back result " ")) as (mid & Hm & Hl). exists (String " " mid).
    split; [rewrite Hm at 1; by rewrite push_back_app|]. cbn [String.length]. lia.
  - destruct (IH (push_back result c)) as (mid & Hm & Hl). exists (String c mid).
    split; [rewrite Hm at 1; by rewrite push_back_app|]. cbn [String.length]. lia.
Qed.

Lemma decode_escape_spec src result :
  src <> "" ->
  exists mid, decode_escape src result = ((decode_escape src result).1, result +:+ mid)
    /\ (String.length (decode_escape src result).1 + String.length mid < String.length src)%nat.
Proof.
  intros Hne. destruct src as [|c [|a [|b src]]]; [done|..]; cbn [decode_escape].
  - exists "". rewrite string_app_nil_r. cbn. split; [done|lia].
  - destruct (hex2int a (-1) =? -1); [exists ""|eexists (String _ "")];
      cbn [fst]; rewrite ?string_app_nil_r; cbn; (split; [done|lia]).
  - destruct (hex2int a (-1) =? -1); [exists ""|destruct (hex2int b (-1) =? -1); eexists (String _ "")];
      cbn [fst]; rewrite ?string_app_nil_r; cbn; (split; [done|lia]).
Qed.

Lemma decode_loop_total fuel src result :
  (String.length src <= fuel)%nat ->
  exists out, decode_loop fuel src result = Ok (result +:+ out)
    /\ (String.length out <= String.length src)%nat.
Proof.
  revert src result. induction fuel as [|fuel IH]; intros src result Hf.
  { destruct src; [|cbn in Hf; lia]. exists "". by rewrite string_app_nil_r. }
  destruct src as [|c src]; [exists ""; by rewrite string_app_nil_r|].
  cbn [decode_loop].
  destruct (decode_escape_spec (String c src) result ltac:(done)) as (m1 & -> & H1).
  destruct (copy_plain_spec (decode_escape (String c src) result).1 (result +:+ m1)) as (m2 & -> & H2).
  edestruct IH as (out & -> & Ho); [cbn [fst] in *; lia|].
  exists (m1 +:+ m2 +:+ out). rewrite !string_length_app. split; [by rewrite !(assoc_L String.app)|].
  cbn [fst] in *. lia.
Qed.

(** More fuel changes nothing. *)
Lemma decode_loop_fuel fuel fuel' src result :
  (String.length src <= fuel)%nat -> (String.length src <= fuel')%nat ->
  decode_loop fuel src result = decode_loop fuel' src result.
Proof.
  revert fuel' src result. induction fuel as [|fuel IH]; intros fuel' src result H1 H2.
  { destruct src; [by destruct fuel'|cbn in H1; lia]. }
  destruct src as [|c src]; [by destruct fuel'|]. destruct fuel' as [|fuel']; [cbn in H2; lia|].
  cbn [decode_loop].
  destruct (decode_escape_spec (String c src) result ltac:(done)) as (m1 & -> & Hd).
  destruct (copy_plain_spec (decode_escape (String c src) result).1 (result +:+ m1)) as (m2 & -> & Hc).
  cbn [fst] in *. apply IH; lia.
Qed.

(** A character that may occur in an encoded string. *)
Definition url_char (c : ascii) : Prop := unreserved c = true \/ c = "%"%char.
Lemma encode_char_safe c : all_of url_char (encode_char c) /\ (String.length (encode_char c) <= 3)%nat.
Proof.
  all_chars c; (split; [|vm_compute; lia]); vm_compute; repeat split; first [by left | by right].
Qed.

(** ** Properties *)

(** [urlEncode] succeeds on every string that can be stored, and
    [urlDecode] gives the string back, for all 256 byte values. *)
Theorem url_roundtrip (s : string) :
  Z.of_nat (String.length s) < (SIZE_MAX - 1) / 3 ->
  exists e, urlEncode s = Ok e /\ urlDecode e = Ok s.
Proof.
  intros Hs. unfold urlEncode. zbool. rewrite encode_loop_spec. eexists. split; [done|]. cbn [String.append].
  unfold urlDecode. pose proof (decode_encoded (String.length (encoded s)) s "" ltac:(done)) as Hd.
  unfold decode_from in Hd. destruct (copy_plain_spec (encoded s) "") as (m & Hm & Hl).
  destruct (copy_plain (encoded s) "") as [src r]. cbn [fst] in *.
  rewrite (decode_loop_fuel _ (String.length (encoded s))); [exact Hd|done|lia].
Qed.

(** [urlEncode] is safe to put into a URL: it consists of unreserved
    characters and percent signs only, so of no character that separates
    parts of a URL; it is at most three times as long, and strings for which
    that length would overflow are refused. *)
Theorem urlEncode_safe (s : string) :
  (exists e, urlEncode s = Ok e /\ all_of url_char e
     /\ (String.length e <= 3 * String.length s)%nat /\ Z.of_nat (String.length e) < SIZE_MAX)
  \/ (urlEncode s = Throw (overflow_error "out of memory") /\ SIZE_MAX - 1 <= 3 * Z.of_nat (String.length s) + 2).
Proof.
  unfold urlEncode, SIZE_MAX.
  destruct (Z.leb_spec ((2 ^ 64 - 1 - 1) / 3) (Z.of_nat (String.length s))) as [Hle|Hlt].
  { right. split; [done|]. zdm. }
  left. rewrite encode_loop_spec. cbn [String.append]. eexists. split; [done|].
  assert (all_of url_char (encoded s) /\ (String.length (encoded s) <= 3 * String.length s)%nat) as [H1 H2].
  { clear. induction s as [|c s [IH1 IH2]]; cbn [encoded all_of String.length]; [split; [done|lia]|].
    destruct (encode_char_safe c) as [Hc Hl]. rewrite string_length_app.
    split; [by apply all_of_app|lia]. }
  split_and!; [done|done|]. zdm.
Qed.

(** [urlDecode] is total: for every string, however malformed its escapes,
    it returns, without undefined behaviour, a string that is not longer; and
    a string without escapes and plus signs is returned as it is. *)
Theorem urlDecode_total (s : string) :
  exists out, urlDecode s = Ok out /\ (String.length out <= String.length s)%nat
    /\ (all_of (fun c => c <> "%"%char /\ c <> "+"%char) s -> out = s).
Proof.
  unfold urlDecode. destruct (copy_plain_spec s "") as (m & Hm & Hl). rewrite Hm.
  destruct (decode_loop_total (String.length (copy_plain s "").1) (copy_plain s "").1 ("" +:+ m) ltac:(done))
    as (o & -> & Ho).
  eexists. split; [done|]. rewrite !string_length_app. split; [cbn; lia|].
  intros Hs. assert (forall r, copy_plain s r = ("", r +:+ s)) as Hc.
  { clear -Hs. induction s as [|c s IH]; intros r; cbn [copy_plain]; [by rewrite string_app_nil_r|].
    destruct Hs as [[H1 H2] Hs]. rewrite !bool_decide_false by done.
    rewrite IH by done. by rewrite push_back_app. }
  rewrite Hc in Hm, Ho. injection Hm as Hm. cbn in Hm, Ho. destruct o; [|cbn in Ho; lia].
  rewrite string_app_nil_r. by subst m.
Qed.

Lemma url_roundtrip_witness :
  exists e, urlEncode "a b/c?d=%" = Ok e /\ urlDecode e = Ok "a b/c?d=%".
Proof. apply (url_roundtrip "a b/c?d=%"). vm_compute. reflexivity. Defined.
