(* ===== verification/RequestItem.v ===== *)
(** * Requests in flight

    [CallOnceRequestCallback] (src/CallOnceRequestCallback.h) and the VST
    [RequestItem] of src/vst.h and src/vst.cpp: a request with its callback, the
    buffers that will be written for it, and the chunks received for it so far.

    - [prepareForNetwork_wire]: the buffers of a prepared item denote exactly
      the chunks of the message, header after header and piece after piece; no
      pointer into the buffer of chunk headers dangles, because [reserve] made
      room for all of them;
    - [assemble_any_order]: in whatever order the chunks of a message arrive,
      the item is complete with the last one, not before, and then holds the
      bytes of the message in order;
    - [invoke_all_once]: a callback runs at most once. *)
From S2P Require Import Prelude StdMap Types Endian Chunk VPack ToyVPack Message HeaderCodec.
Local Open Scope Z_scope.

(** ** CallOnceRequestCallback *)

(** A call of a user's callback; [cb] stands for the code of the callback. *)
Record cb_event (CB : Type) : Type := MkEvent {
  ev_cb : CB;
  ev_error : Z;
  ev_request : option Request;
  ev_response : option Response;
}.
Arguments MkEvent {CB}.
Arguments ev_cb {CB}.
Arguments ev_error {CB}.
Arguments ev_request {CB}.
Arguments ev_response {CB}.

Record CallOnceRequestCallback (CB : Type) : Type := MkCallOnce {
  _invoked : bool;
  _cb : option CB;
}.
Arguments MkCallOnce {CB}.
Arguments _invoked {CB}.
Arguments _cb {CB}.

Section CallOnce.
Context {CB : Type}.

Definition new_CallOnce : CallOnceRequestCallback CB := MkCallOnce false None.
Definition assign_CallOnce (cb : CB) (c : CallOnceRequestCallback CB) : CallOnceRequestCallback CB :=
  MkCallOnce (_invoked c) (Some cb).

(** The exchange of [_invoked] is atomic, so it is one step; the result is the
    calls made. *)
Definition invoke (error : Z) (req : option Request) (resp : option Response)
    (c : CallOnceRequestCallback CB) : res (CallOnceRequestCallback CB * list (cb_event CB)) :=
  if _invoked c then Ok (MkCallOnce true (_cb c), [])
  else
    match _cb c with
    | None => Undef "assert(_cb)"
    | Some cb => Ok (MkCallOnce true None, [MkEvent cb error req resp])
    end.

(** Any sequence of invocations. *)
Fixpoint invoke_all (calls : list (Z * option Request * option Response))
    (c : CallOnceRequestCallback CB) : res (CallOnceRequestCallback CB * list (cb_event CB)) :=
  match calls with
  | [] => Ok (c, [])
  | (e, req, resp) :: calls =>
      '(c, evs) ← invoke e req resp c;
      '(c, evs') ← invoke_all calls c;
      Ok (c, evs ++ evs')
  end.

Lemma invoke_all_invoked calls c :
  _invoked c = true -> exists c', invoke_all calls c = Ok (c', []) /\ _invoked c' = true.
Proof.
  revert c. induction calls as [|[[e req] resp] calls IH]; intros c Hc; cbn [invoke_all]; [eauto|].
  unfold invoke. rewrite Hc, bind_ret_l.
  destruct (IH (MkCallOnce true (_cb c)) eq_refl) as (c' & -> & Hc'). eauto.
Qed.
End CallOnce.
Arguments CallOnceRequestCallback CB : clear implicits.

(** ** VBuffer

    [velocypack::Buffer<uint8_t>], as far as pointers into it matter: its bytes,
    the block they live in and the room left in that block.  [reserve(n)] makes
    room for [n] more bytes; appending no more than the room neither moves the
    block nor uses more room than the bytes appended. *)
Class VBuffer := {
  vbuf : Type;
  vb_new : vbuf;
  vb_bytes : vbuf -> list byte;
  vb_block : vbuf -> Z;
  vb_room : vbuf -> Z;
  vb_reserve : Z -> vbuf -> vbuf;
  vb_append : list byte -> vbuf -> vbuf;
  vb_clear : vbuf -> vbuf;
}.

Class VBufferLaws (VB : VBuffer) : Prop := {
  vb_new_bytes : vb_bytes vb_new = [];
  vb_reserve_bytes : forall n b, vb_bytes (vb_reserve n b) = vb_bytes b;
  vb_reserve_room : forall n b, n <= vb_room (vb_reserve n b);
  vb_append_bytes : forall l b, vb_bytes (vb_append l b) = vb_bytes b ++ l;
  vb_append_block : forall l b, Z.of_nat (length l) <= vb_room b ->
    vb_block (vb_append l b) = vb_block b;
  vb_append_room : forall l b, Z.of_nat (length l) <= vb_room b ->
    vb_room b - Z.of_nat (length l) <= vb_room (vb_append l b);
  vb_clear_bytes : forall b, vb_bytes (vb_clear b) = [];
}.

(** A simple implementation: every growth moves to a new block. *)
Record simple_buffer : Type := MkSimple { sb_bytes : list byte; sb_block : Z; sb_capacity : Z }.
Definition sb_room (b : simple_buffer) : Z := sb_capacity b - Z.of_nat (length (sb_bytes b)).
Definition sb_reserve (n : Z) (b : simple_buffer) : simple_buffer :=
  if n <=? sb_room b then b
  else MkSimple (sb_bytes b) (sb_block b + 1) (Z.of_nat (length (sb_bytes b)) + n).
#[export] Instance SimpleVBuffer : VBuffer := {|
  vbuf := simple_buffer;
  vb_new := MkSimple [] 0 192;
  vb_bytes := sb_bytes;
  vb_block := sb_block;
  vb_room := sb_room;
  vb_reserve := sb_reserve;
  vb_append l b :=
    let b := sb_reserve (Z.of_nat (length l)) b in
    MkSimple (sb_bytes b ++ l) (sb_block b) (sb_capacity b);
  vb_clear b := MkSimple [] (sb_block b) (sb_capacity b);
|}.
#[export] Instance SimpleVBuffer_laws : VBufferLaws SimpleVBuffer.
Proof.
  split; cbn; unfold sb_reserve; intros; try done; try (case_match; try done; lia).
  - case_match; [lia|]. unfold sb_room. cbn. lia.
  - zbool. unfold sb_room. cbn. rewrite length_app. lia.
Qed.

(** ** RequestItem *)
Section Items.
Context {VP : VPack} {VB : VBuffer} {CB : Type}.

(** What the socket writes from: a range of the buffer of chunk headers, as
    the pointer [data() + offset] taken at some point, or other memory. *)
Inductive out_buffer : Type :=
| HeaderRange (block offset len : Z)
| DataRange (data : const_buffer).

Record RequestItem : Type := MkItem {
  _request : option Request;
  _callback : CallOnceRequestCallback CB;
  ri_messageID : Z;
  _msgHdr : list byte;
  _requestChunkBuffer : vbuf;
  _requestBuffers : list out_buffer;
  _responseChunks : list ChunkHeader;
  _responseChunkContent : list byte;
  _responseNumberOfChunks : Z;
}.

(** [make_shared<RequestItem>()]: the members without initialiser are zero. *)
Definition new_RequestItem : RequestItem :=
  MkItem None new_CallOnce 0 [] vb_new [] [] [] 0.

Definition set_request (r : option Request) (i : RequestItem) : RequestItem :=
  MkItem r (_callback i) (ri_messageID i) (_msgHdr i) (_requestChunkBuffer i) (_requestBuffers i)
    (_responseChunks i) (_responseChunkContent i) (_responseNumberOfChunks i).
Definition set_callback (c : CallOnceRequestCallback CB) (i : RequestItem) : RequestItem :=
  MkItem (_request i) c (ri_messageID i) (_msgHdr i) (_requestChunkBuffer i) (_requestBuffers i)
    (_responseChunks i) (_responseChunkContent i) (_responseNumberOfChunks i).
Definition set_ri_messageID (id : Z) (i : RequestItem) : RequestItem :=
  MkItem (_request i) (_callback i) id (_msgHdr i) (_requestChunkBuffer i) (_requestBuffers i)
    (_responseChunks i) (_responseChunkContent i) (_responseNumberOfChunks i).

(** [invokeOnError(e, std::move(item->_request), nullptr)], with the move. *)
Definition invokeOnError (e : Z) (resp : option Response) (i : RequestItem)
    : res (RequestItem * list (cb_event CB)) :=
  '(c, evs) ← invoke e (_request i) resp (_callback i);
  Ok (set_callback c (set_request None i), evs).

(** ** Sending *)
Section Prepare.
Context (host : byte_order) (hdr0 : list byte) (chunk0 : ChunkHeader).

(** The loop over the chunks. *)
Fixpoint prepare_loop (v : VSTVersion) (chunks : list ChunkHeader)
    (chunkBuffer : vbuf) (buffers : list out_buffer) : vbuf * list out_buffer :=
  match chunks with
  | [] => (chunkBuffer, buffers)
  | c :: chunks =>
      let chunkOffset := Z.of_nat (length (vb_bytes chunkBuffer)) in
      let '(hdr, chunkHdrLen) := writeHeader host hdr0 v c [] in
      let chunkBuffer := vb_append hdr chunkBuffer in
      prepare_loop v chunks chunkBuffer
        (buffers ++ [HeaderRange (vb_block chunkBuffer) chunkOffset chunkHdrLen; DataRange (_data c)])
  end.

(** The defaults [prepareForNetwork] sets in the header. *)
Definition default_header (h : MessageHeader) : MessageHeader :=
  let h := set_version (Some 1) h in
  match database h with None => set_database (Some "_system") h | Some _ => h end.

Definition prepareForNetwork (v : VSTVersion) (i : RequestItem) : res RequestItem :=
  request ← get (_request i);
  let request := set_rq_header (default_header (rq_header request)) request in
  msgHdr ← createVstMessageHeader (rq_header request);
  '(request, slices) ← request_slices request;
  hdrSlice ← slice_bytes msgHdr;
  chunks ← buildChunks chunk0 (ri_messageID i) defaultMaxChunkSize (hdrSlice :: slices);
  let chunkBuffer := vb_reserve (u64 (Z.of_nat (length chunks) * maxChunkHeaderSize))
                       (_requestChunkBuffer i) in
  let '(chunkBuffer, buffers) := prepare_loop v chunks chunkBuffer (_requestBuffers i) in
  Ok (MkItem (Some request) (_callback i) (ri_messageID i) msgHdr chunkBuffer buffers
        (_responseChunks i) (_responseChunkContent i) (_responseNumberOfChunks i)).

Definition resetSendData (i : RequestItem) : RequestItem :=
  MkItem (_request i) (_callback i) (ri_messageID i) [] (vb_clear (_requestChunkBuffer i)) []
    (_responseChunks i) (_responseChunkContent i) (_responseNumberOfChunks i).
End Prepare.

(** The bytes [async_write] gathers from one buffer, and from all of them. *)
Definition out_bytes (headers : vbuf) (b : out_buffer) : res (list byte) :=
  match b with
  | HeaderRange block off len =>
      if negb (block =? vb_block headers) then Undef "dangling pointer into the chunk buffer"
      else if (Z.to_nat off + Z.to_nat len <=? length (vb_bytes headers))%nat
      then Ok (sub_bytes (Z.to_nat off) (Z.to_nat len) (vb_bytes headers))
      else Undef "read past the end of a buffer"
  | DataRange d => buffer_bytes d
  end.
Definition gather (headers : vbuf) (bs : list out_buffer) : res (list byte) :=
  parts ← res_map (out_bytes headers) bs; Ok (concat parts).
Definition send_bytes (i : RequestItem) : res (list byte) :=
  gather (_requestChunkBuffer i) (_requestBuffers i).

(** ** Receiving *)
Definition set_response (cs : list ChunkHeader) (content : list byte) (n : Z) (i : RequestItem)
    : RequestItem :=
  MkItem (_request i) (_callback i) (ri_messageID i) (_msgHdr i) (_requestChunkBuffer i)
    (_requestBuffers i) cs content n.

Definition addChunk (chunk : ChunkHeader) (i : RequestItem) : res RequestItem :=
  let len := buffer_size (_data chunk) in
  let off := Z.of_nat (length (_responseChunkContent i)) in
  content ← buffer_bytes (_data chunk);
  let chunk := MkChunk (_chunkLength chunk) (_chunkX chunk) (_messageID chunk)
                 (_messageLength chunk) empty_buffer off len in
  Ok (set_response (_responseChunks i ++ [chunk]) (_responseChunkContent i ++ content)
        (if isFirst chunk then numberOfChunks chunk else _responseNumberOfChunks i) i).

Definition chunkByIndex (a b : ChunkHeader) : bool := index a <? index b.
End Items.
Arguments RequestItem {VB} CB.
Arguments new_RequestItem {VB CB}.

(** [std::sort]: a permutation of the range in which no element precedes a
    smaller one.  The order of equivalent elements is not specified. *)
Class StdSort (A : Type) := std_sort : (A -> A -> bool) -> list A -> list A.
Class StdSortLaws A `{StdSort A} : Prop := {
  std_sort_perm : forall lt l, std_sort lt l ≡ₚ l;
  std_sort_sorted : forall (f : A -> Z) l,
    StronglySorted (fun a b => f a <= f b) (std_sort (fun a b => f a <? f b) l);
}.

Section Assemble.
Context {VB : VBuffer} {CB : Type} `{StdSort ChunkHeader}.

(** The loop that copies the contents of the sorted chunks. *)
Definition chunk_content (content : list byte) (c : ChunkHeader) : res (list byte) :=
  if (Z.to_nat (_responseChunkContentOffset c) + Z.to_nat (_responseContentLength c)
      <=? length content)%nat
  then Ok (sub_bytes (Z.to_nat (_responseChunkContentOffset c)) (Z.to_nat (_responseContentLength c))
             content)
  else Undef "read past the end of a buffer".

Definition assemble (i : RequestItem CB) : res (RequestItem CB * option (list byte)) :=
  if _responseNumberOfChunks i =? 0 then Ok (i, None)
  else if Z.of_nat (length (_responseChunks i)) <? _responseNumberOfChunks i then Ok (i, None)
  else
    let sorted := std_sort chunkByIndex (_responseChunks i) in
    parts ← res_map (chunk_content (_responseChunkContent i)) sorted;
    Ok (set_response sorted (_responseChunkContent i) (_responseNumberOfChunks i) i,
        Some (concat parts)).

(** Adding chunks one after the other. *)
Fixpoint addChunks (cs : list ChunkHeader) (i : RequestItem CB) : res (RequestItem CB) :=
  match cs with [] => Ok i | c :: cs => i ← addChunk c i; addChunks cs i end.
End Assemble.

(** ** Sorting by a key *)
Section SortedByKey.
Context {A : Type} (f : A -> Z).
Local Abbreviation by_key := (StronglySorted (fun a b => f a <= f b)).

(** A list sorted by a key that is unique in it is determined by its elements. *)
Lemma sorted_by_key_unique l1 l2 :
  by_key l1 -> by_key l2 -> l1 ≡ₚ l2 -> NoDup (f <$> l2) -> l1 = l2.
Proof.
  intros H1. revert l2. induction H1 as [|a l1 H1 IH Ha]; intros l2 H2 Hp Hnd.
  { by apply Permutation_nil_l in Hp. }
  destruct H2 as [|b l2 H2 Hb]; [by apply symmetry, Permutation_nil_cons in Hp|].
  assert (f a = f b) as Hab.
  { rewrite Forall_forall in Ha, Hb. apply Z.le_antisymm.
    - assert (b ∈ a :: l1) as [->|]%elem_of_cons by (rewrite Hp; left); [done|by apply Ha].
    - assert (a ∈ b :: l2) as [->|]%elem_of_cons by (rewrite <- Hp; left); [done|by apply Hb]. }
  assert (a ∈ b :: l2) as Hin by (rewrite <- Hp; left).
  cbn in Hnd. apply NoDup_cons in Hnd as [Hn Hnd].
  apply elem_of_cons in Hin as [->|Hin].
  - f_equal. apply IH; [done| |done]. by apply Permutation_cons_inv in Hp.
  - exfalso. apply Hn. rewrite <- Hab. by apply list_elem_of_fmap_2.
Qed.
End SortedByKey.

(** Insertion sort is a possible [std::sort]. *)
Section InsertionSort.
Context {A : Type} (lt : A -> A -> bool).
Fixpoint insert_by (x : A) (l : list A) : list A :=
  match l with [] => [x] | y :: l' => if lt y x then y :: insert_by x l' else x :: l end.
Definition insertion_sort (l : list A) : list A := foldr insert_by [] l.

Lemma insert_by_perm x l : insert_by x l ≡ₚ x :: l.
Proof.
  induction l as [|y l IH]; cbn; [done|]. case_match; [|done].
  rewrite IH. apply Permutation_swap.
Qed.
Lemma insertion_sort_perm l : insertion_sort l ≡ₚ l.
Proof. induction l as [|x l IH]; cbn; [done|]. by rewrite insert_by_perm, IH. Qed.
End InsertionSort.

#[export] Instance InsertionSort {A} : StdSort A := insertion_sort.
Lemma insert_by_sorted {A} (f : A -> Z) x l :
  StronglySorted (fun a b => f a <= f b) l ->
  StronglySorted (fun a b => f a <= f b) (insert_by (fun a b => f a <? f b) x l).
Proof.
  induction 1 as [|y l Hl IH Hy]; cbn; [by repeat constructor|].
  destruct (Z.ltb_spec (f y) (f x)) as [Hlt|Hge].
  - constructor; [done|]. rewrite insert_by_perm. constructor; [lia|done].
  - constructor; [by constructor|]. constructor; [done|].
    eapply Forall_impl; [exact Hy|]. cbn. lia.
Qed.

#[export] Instance InsertionSort_laws {A} : StdSortLaws A.
Proof.
  split; [apply @insertion_sort_perm|]. intros f l. unfold std_sort, InsertionSort.
  induction l as [|x l IH]; cbn; [constructor|]. by apply insert_by_sorted.
Qed.

(** ** What is sent *)
Section SendProofs.
Context {VP : VPack} `{!VPackLaws VP} {VB : VBuffer} `{!VBufferLaws VB} {CB : Type}.
Context (host : byte_order) (hdr0 : list byte) (chunk0 : ChunkHeader).
Hypothesis Hhdr0 : length hdr0 = 24%nat.

Lemma out_bytes_append l b o r :
  Z.of_nat (length l) <= vb_room b -> out_bytes b o = Ok r -> out_bytes (vb_append l b) o = Ok r.
Proof.
  intros Hroom. destruct o as [block off len|d]; cbn [out_bytes]; [|done].
  rewrite vb_append_block, vb_append_bytes, length_app by done.
  destruct (negb _); [done|]. case_match eqn:E; [|done]. apply Nat.leb_le in E.
  rewrite (proj2 (Nat.leb_le _ _)) by lia. intros [= <-]. by rewrite sub_bytes_app_l.
Qed.

(** The header range just appended. *)
Lemma out_bytes_appended l b n :
  n = Z.of_nat (length l) ->
  out_bytes (vb_append l b)
    (HeaderRange (vb_block (vb_append l b)) (Z.of_nat (length (vb_bytes b))) n) = Ok l.
Proof.
  intros ->. cbn [out_bytes]. rewrite Z.eqb_refl. cbn [negb].
  rewrite vb_append_bytes, length_app, !Nat2Z.id, Nat.leb_refl.
  unfold sub_bytes. by rewrite drop_app_length, firstn_all.
Qed.

Lemma gather_snoc b bufs o1 o2 r r1 r2 :
  gather b bufs = Ok r -> out_bytes b o1 = Ok r1 -> out_bytes b o2 = Ok r2 ->
  gather b (bufs ++ [o1; o2]) = Ok (r ++ r1 ++ r2).
Proof.
  unfold gather. intros (parts & Hp & [= <-])%bind_Ok H1 H2.
  rewrite (res_map_app _ _ _ parts [r1; r2]); [|done|cbn [res_map]; by rewrite H1, H2].
  rewrite bind_ret_l, concat_app. cbn. by rewrite app_nil_r.
Qed.

(** One header and one piece per chunk, and nothing moves. *)
Lemma prepare_loop_spec v chunks datas b bufs pre :
  Forall2 (fun c d => buffer_bytes (_data c) = Ok d) chunks datas ->
  Z.of_nat (length chunks) * 24 <= vb_room b -> gather b bufs = Ok pre ->
  exists b' bufs', prepare_loop host hdr0 v chunks b bufs = (b', bufs')
    /\ gather b' bufs' = Ok (pre ++ concat (zip_with (wire_chunk v) chunks datas)).
Proof.
  intros H. revert b bufs pre. induction H as [|c d chunks datas Hd _ IH]; intros b bufs pre Hroom Hg.
  { exists b, bufs. cbn. by rewrite app_nil_r. }
  cbn [prepare_loop]. rewrite writeHeader_spec by done. cbn [app].
  pose proof (length_header_bytes v c). pose proof (header_length_range v c).
  cbn [length] in Hroom.
  pose proof (vb_append_room (header_bytes v c) b ltac:(lia)).
  destruct (IH (vb_append (header_bytes v c) b)
    (bufs ++ [HeaderRange (vb_block (vb_append (header_bytes v c) b)) (Z.of_nat (length (vb_bytes b)))
      (header_length v c); DataRange (_data c)]) (pre ++ wire_chunk v c d))
    as (b' & bufs' & Hl & Hg'); [lia| |].
  - apply gather_snoc; [|by apply out_bytes_appended|done].
    unfold gather in *. apply bind_Ok in Hg as (parts & Hp & [= <-]).
    erewrite res_map_mono; [done| |exact Hp]. intros. apply out_bytes_append; [lia|done].
  - exists b', bufs'. split; [done|]. rewrite Hg'. cbn [zip_with concat].
    by rewrite (assoc_L (++)).
Qed.

(** The chunks of a message are within the ranges of the fields. *)
Lemma is_message_range v mid mlen ps cs i p c :
  is_message mid mlen ps cs -> 0 <= mid < 2 ^ 64 -> 0 <= mlen < 2 ^ 64 ->
  ps !! i = Some p -> cs !! i = Some c -> Z.of_nat (length p) + 24 < 2 ^ 32 ->
  chunk_in_range v c.
Proof.
  intros Hm Hmid Hlen Hp Hc Hsz. destruct (im_carries _ _ _ _ Hm i p c Hp Hc) as [Hx H1 H2 _ H4].
  pose proof (header_length_range v c).
  split; rewrite ?Hx, ?H1, ?H2, ?H4; try lia. apply u32_range.
Qed.

Lemma is_message_Forall2 mid mlen ps cs :
  is_message mid mlen ps cs -> Forall2 (fun c d => buffer_bytes (_data c) = Ok d) cs ps.
Proof.
  intros [Hl Hc]. apply Forall2_same_length_lookup_2; [done|]. intros i c p H1 H2. by eapply Hc.
Qed.

Lemma reserve_amount n : Z.of_nat n < 2 ^ 31 -> u64 (Z.of_nat n * maxChunkHeaderSize) = Z.of_nat n * 24.
Proof. intros. unfold maxChunkHeaderSize. apply u64_id. lia. Qed.

Lemma prepare_loop_buffers v chunks b bufs :
  exists more, (prepare_loop host hdr0 v chunks b bufs).2 = bufs ++ more
    /\ length more = (2 * length chunks)%nat.
Proof.
  clear Hhdr0.
  revert b bufs. induction chunks as [|c chunks IH]; intros b bufs; cbn [prepare_loop].
  { exists []. by rewrite app_nil_r. }
  destruct (writeHeader _ _ _ _ _) as [hdr n].
  edestruct IH as (more & -> & Hl). eexists. rewrite <- (assoc_L (++)). split; [done|].
  rewrite length_app, Hl. cbn. lia.
Qed.

(** Whatever [prepareForNetwork] is given, when it returns it has left data to
    send, and neither callback nor id nor received data changed. *)
Lemma prepareForNetwork_inv v (i i' : RequestItem CB) :
  prepareForNetwork host hdr0 chunk0 v i = Ok i' ->
  is_Some (_request i') /\ _callback i' = _callback i /\ ri_messageID i' = ri_messageID i
  /\ _requestBuffers i' <> [].
Proof.
  clear Hhdr0.
  unfold prepareForNetwork.
  intros (r & _ & (h & _ & ([r' ss] & _ & (hs & _ & (chunks & Hc & Hi)%bind_Ok)%bind_Ok)%bind_Ok)%bind_Ok)%bind_Ok.
  destruct (prepare_loop_buffers v chunks (vb_reserve (u64 (Z.of_nat (length chunks) * maxChunkHeaderSize))
    (_requestChunkBuffer i)) (_requestBuffers i)) as (more & Hm & Hl).
  destruct (prepare_loop _ _ _ _ _ _) as [b bufs]. injection Hi as <-. cbn in *. split_and!; try done.
  subst bufs. intros [_ ->]%app_eq_nil. destruct chunks as [|c chunks]; [|done].
  unfold buildChunks in Hc. inv_ok. repeat case_match; simplify_eq/=.
Qed.

(** The pieces a prepared request is cut into. *)
Definition wire_pieces (parts : list (list byte)) : list (list byte) :=
  message_pieces (Z.to_nat (defaultMaxChunkSize - maxChunkHeaderSize)) parts.

(** The bytes of a message on the wire. *)
Definition wire_message (v : VSTVersion) (cs : list ChunkHeader) (ps : list (list byte)) : list byte :=
  concat (zip_with (wire_chunk v) cs ps).

Lemma wire_pieces_nonempty parts : concat parts <> [] -> (0 < length (wire_pieces parts))%nat.
Proof.
  rewrite <- (concat_message_pieces (Z.to_nat (defaultMaxChunkSize - maxChunkHeaderSize)) parts)
    by (unfold maxChunkHeaderSize, defaultMaxChunkSize; lia).
  fold (wire_pieces parts). destruct (wire_pieces parts); [done|cbn; lia].
Qed.

Lemma wire_chunk_nonempty v c d : wire_chunk v c d <> [].
Proof.
  intros H. pose proof (length_wire_chunk v c d) as Hl. pose proof (header_length_range v c).
  rewrite H in Hl. cbn [length] in Hl. lia.
Qed.

Lemma wire_message_nonempty v cs ps :
  (0 < length ps)%nat -> length cs = length ps -> wire_message v cs ps <> [].
Proof.
  destruct cs as [|c cs], ps as [|p ps]; cbn [length]; try lia. intros _ _ H.
  apply app_eq_nil in H as [H _]. by apply wire_chunk_nonempty in H.
Qed.

Lemma prepareForNetwork_Ok v (i : RequestItem CB) r r' hdr ss :
  _request i = Some r -> _requestBuffers i = [] ->
  createVstMessageHeader (default_header (rq_header r)) = Ok hdr -> is_slice hdr ->
  request_slices (set_rq_header (default_header (rq_header r)) r) = Ok (r', ss) ->
  Z.of_nat (length (concat (hdr :: ss))) < 2 ^ 31 ->
  exists i' cs,
    prepareForNetwork host hdr0 chunk0 v i = Ok i'
    /\ is_message (ri_messageID i) (Z.of_nat (length (concat (hdr :: ss)))) (wire_pieces (hdr :: ss)) cs
    /\ send_bytes i' = Ok (wire_message v cs (wire_pieces (hdr :: ss)))
    /\ _requestBuffers i' <> []
    /\ _request i' = Some r' /\ _callback i' = _callback i /\ ri_messageID i' = ri_messageID i
    /\ _responseChunks i' = _responseChunks i /\ _responseChunkContent i' = _responseChunkContent i
    /\ _responseNumberOfChunks i' = _responseNumberOfChunks i.
Proof.
  intros Hr Hb Hh Hs Hss Hlen. unfold prepareForNetwork.
  rewrite Hr. cbn [get]. rewrite bind_ret_l. cbn [set_rq_header rq_header].
  rewrite Hh, bind_ret_l, Hss, bind_ret_l.
  pose proof (slice_bytes_slice hdr [] Hs) as Hsb. rewrite app_nil_r in Hsb.
  rewrite Hsb, bind_ret_l.
  assert (concat (hdr :: ss) <> []) as Hne.
  { pose proof (slice_nonempty hdr Hs). by destruct hdr. }
  destruct (buildChunks_is_message chunk0 (ri_messageID i) defaultMaxChunkSize (hdr :: ss))
    as (cs & -> & Hm); [by unfold maxChunkHeaderSize, defaultMaxChunkSize; lia|done|].
  rewrite total_length_spec in Hm by lia. fold (wire_pieces (hdr :: ss)) in Hm.
  assert (0 < Z.to_nat (defaultMaxChunkSize - maxChunkHeaderSize))%nat as Hpos
    by (unfold maxChunkHeaderSize, defaultMaxChunkSize; lia).
  pose proof (length_message_pieces _ (hdr :: ss) Hpos) as Hn.
  fold (wire_pieces (hdr :: ss)) in Hn. rewrite <- (im_length _ _ _ _ Hm) in Hn.
  rewrite bind_ret_l, reserve_amount by lia.
  set (b0 := vb_reserve _ _).
  destruct (prepare_loop_spec v cs (wire_pieces (hdr :: ss)) b0 [] [])
    as (b' & bufs' & Hl & Hg); [by eapply is_message_Forall2|apply vb_reserve_room|done|].
  rewrite Hb, Hl. eexists _, cs. split_and!; try done.
  intros Hbufs. cbn [_requestBuffers] in Hbufs. subst bufs'. injection Hg as Hg. symmetry in Hg.
  exact (wire_message_nonempty v cs _ (wire_pieces_nonempty _ Hne) (im_length _ _ _ _ Hm) Hg).
Qed.
End SendProofs.

(** ** What is received *)
Section ReceiveProofs.
Context {VB : VBuffer} {CB : Type} `{StdSortLaws ChunkHeader}.

(** Chunk [c], stored in [content], is the chunk numbered [x] with data [d]. *)
Definition stored_as (content : list byte) (c : ChunkHeader) (e : Z * list byte) : Prop :=
  _chunkX c = e.1 /\ chunk_content content c = Ok e.2.

(** The item has stored chunks with these numbers and data, in this order. *)
Definition holds (i : RequestItem CB) (l : list (Z * list byte)) : Prop :=
  Forall2 (stored_as (_responseChunkContent i)) (_responseChunks i) l.

(** The number of chunks the item expects after chunks with these numbers. *)
Definition expects (n0 : Z) (l : list (Z * list byte)) : Z :=
  fold_left (fun n e => if Z.land e.1 1 =? 1 then Z.shiftr e.1 1 else n) l n0.

Lemma stored_as_app content more c e :
  stored_as content c e -> stored_as (content ++ more) c e.
Proof.
  intros [Hx Hc]. split; [done|]. revert Hc. unfold chunk_content. rewrite length_app.
  case_match eqn:E; [|done]. apply Nat.leb_le in E. rewrite (proj2 (Nat.leb_le _ _)) by lia.
  intros [= <-]. by rewrite sub_bytes_app_l.
Qed.

Lemma addChunk_Ok c d (i : RequestItem CB) l :
  buffer_bytes (_data c) = Ok d -> 0 <= buffer_size (_data c) -> holds i l ->
  exists i', addChunk c i = Ok i' /\ holds i' (l ++ [(_chunkX c, d)])
    /\ _responseNumberOfChunks i' = expects (_responseNumberOfChunks i) [(_chunkX c, d)]
    /\ i' = set_response (_responseChunks i') (_responseChunkContent i') (_responseNumberOfChunks i') i.
Proof.
  intros Hd Hsz Hl. pose proof (buffer_bytes_size _ _ Hd Hsz) as Hs.
  unfold addChunk. rewrite Hd, bind_ret_l. eexists. split; [reflexivity|]. split_and!.
  - unfold holds in *. cbn. apply Forall2_app.
    + eapply Forall2_impl; [exact Hl|]. intros. by apply stored_as_app.
    + constructor; [|constructor]. split; [done|]. unfold chunk_content. cbn.
      rewrite Hs, length_app, !Nat2Z.id, Nat.leb_refl. unfold sub_bytes.
      by rewrite drop_app_length, firstn_all.
  - cbn. unfold isFirst, numberOfChunks. cbn. by destruct (_ =? 1).
  - done.
Qed.

Lemma addChunks_Ok (arrived : list (ChunkHeader * list byte)) (i : RequestItem CB) l :
  Forall (fun a => buffer_bytes (_data a.1) = Ok a.2 /\ 0 <= buffer_size (_data a.1)) arrived ->
  holds i l ->
  let l' := (fun a => (_chunkX a.1, a.2)) <$> arrived in
  exists i', addChunks arrived.*1 i = Ok i' /\ holds i' (l ++ l')
    /\ _responseNumberOfChunks i' = expects (_responseNumberOfChunks i) l'
    /\ i' = set_response (_responseChunks i') (_responseChunkContent i') (_responseNumberOfChunks i') i.
Proof.
  intros Ha. revert i l. induction Ha as [|[c d] arrived [Hd Hsz] _ IH]; intros i l Hl.
  { exists i. cbn. rewrite app_nil_r. by destruct i. }
  destruct (addChunk_Ok c d i l Hd Hsz Hl) as (i1 & Hi1 & Hl1 & Hn1 & He1).
  destruct (IH i1 _ Hl1) as (i2 & Hi2 & Hl2 & Hn2 & He2).
  exists i2. cbn [fmap list_fmap addChunks fst]. rewrite Hi1, bind_ret_l. split_and!.
  - done.
  - by rewrite <- (assoc_L (++)) in Hl2.
  - by rewrite Hn2, Hn1.
  - rewrite He2, He1. done.
Qed.

(** The chunks of a message of [length ps] pieces, by number and data. *)
Definition message_chunks (ps : list (list byte)) : list (Z * list byte) :=
  imap (fun i p => (expected_chunkX (length ps) i, p)) ps.

Lemma length_message_chunks ps : length (message_chunks ps) = length ps.
Proof. apply length_imap. Qed.

(** Of the chunks of a message, only the first changes the expected number. *)
Lemma expects_message ps l n0 :
  Z.of_nat (length ps) < 2 ^ 31 -> (forall e, e ∈ l -> e ∈ message_chunks ps) ->
  expects n0 l = n0 \/ expects n0 l = Z.of_nat (length ps).
Proof.
  intros Hn. revert n0. induction l as [|[x d] l IH]; intros n0 Hl; [by left|].
  pose proof (Hl (x, d) ltac:(left)) as (j & Hj)%list_elem_of_lookup.
  unfold message_chunks in Hj. rewrite list_lookup_imap in Hj.
  destruct (ps !! j) as [p|] eqn:Hp; [|done]. injection Hj as <- <-.
  pose proof (lookup_lt_Some _ _ _ Hp) as Hlt.
  destruct (chunk_numbers (length ps) j (set_chunkX (expected_chunkX (length ps) j)
    (MkChunk 0 0 0 0 empty_buffer 0 0)) eq_refl Hlt Hn) as (Hf & _ & Hnum).
  unfold isFirst, numberOfChunks in Hf, Hnum. cbn in Hf, Hnum.
  cbn [expects fold_left fst]. rewrite Hf in Hnum |- *.
  change (fold_left _ l ?n) with (expects n l).
  assert (forall e, e ∈ l -> e ∈ message_chunks ps) as Hl' by (intros; apply Hl; by right).
  case_bool_decide; cbn iota in *.
  - rewrite Hnum. destruct (IH (Z.of_nat (length ps)) Hl') as [->| ->]; by right.
  - by apply IH.
Qed.

Lemma expects_complete ps l n0 :
  (0 < length ps)%nat -> Z.of_nat (length ps) < 2 ^ 31 -> l ≡ₚ message_chunks ps ->
  expects n0 l = Z.of_nat (length ps).
Proof.
  intros Hpos Hn Hl. assert (exists e, e ∈ message_chunks ps
    /\ forall n, expects n [e] = Z.of_nat (length ps)) as (e & He & Hexp).
  { destruct ps as [|p ps]; [cbn in Hpos; lia|].
    exists (expected_chunkX (length (p :: ps)) 0, p). split; [left|]. intros n.
    destruct (chunk_numbers (length (p :: ps)) 0 (set_chunkX (expected_chunkX (length (p :: ps)) 0)
      (MkChunk 0 0 0 0 empty_buffer 0 0)) eq_refl Hpos Hn) as (Hf & _ & Hnum).
    unfold isFirst, numberOfChunks in Hf, Hnum. cbn [set_chunkX _chunkX] in Hf, Hnum.
    cbn [expects fold_left fst]. rewrite Hf in Hnum |- *. exact Hnum. }
  assert (e ∈ l) as (l1 & l2 & ->)%list_elem_of_split by by rewrite Hl.
  change (e :: l2) with ([e] ++ l2). unfold expects. rewrite !fold_left_app.
  change (expects (expects (expects n0 l1) [e]) l2 = Z.of_nat (length ps)). rewrite Hexp.
  destruct (expects_message ps l2 (Z.of_nat (length ps))) as [->| ->]; try done.
  intros e' He'. rewrite <- Hl. apply elem_of_app. right. by right.
Qed.

Lemma stored_contents content chunks l :
  Forall2 (stored_as content) chunks l -> res_map (chunk_content content) chunks = Ok l.*2.
Proof.
  induction 1 as [|c e chunks l [_ Hc] _ IH]; [done|].
  cbn [res_map]. by rewrite Hc, bind_ret_l, IH.
Qed.

Lemma message_chunks_data ps : (message_chunks ps).*2 = ps.
Proof.
  unfold message_chunks. rewrite fmap_imap.
  etrans; [exact (imap_const id ps)|]. apply list_fmap_id.
Qed.

(** The stored chunks of a complete message, sorted, hold its pieces in order. *)
Lemma sorted_contents content chunks l ps :
  Forall2 (stored_as content) chunks l -> l ≡ₚ message_chunks ps -> Z.of_nat (length ps) < 2 ^ 31 ->
  res_map (chunk_content content) (std_sort chunkByIndex chunks) = Ok ps.
Proof.
  intros Hst Hl Hn.
  destruct (Permutation_Forall2 Hl (proj2 (Forall2_flip _ _ _) Hst)) as (chunks' & Hperm & Hst').
  apply Forall2_flip in Hst'.
  assert (index <$> chunks' = Z.of_nat <$> seq 0 (length ps)) as Hidx.
  { apply list_eq_same_length with (length ps).
    - by rewrite length_fmap, length_seq.
    - rewrite length_fmap. rewrite (Forall2_length _ _ _ Hst'). apply length_message_chunks.
    - intros j x y Hj Hx Hy. rewrite list_lookup_fmap in Hx. rewrite list_lookup_fmap in Hy.
      apply fmap_Some in Hx as (c & Hc & ->).
      rewrite lookup_seq_lt in Hy by done. injection Hy as <-.
      destruct (Forall2_lookup_l _ _ _ _ _ Hst' Hc) as ([x d] & Hxd & [Hx _]).
      unfold message_chunks in Hxd. rewrite list_lookup_imap in Hxd.
      destruct (ps !! j); [|done]. injection Hxd as <- <-.
      by destruct (chunk_numbers _ _ c Hx Hj Hn) as (_ & -> & _). }
  assert (StronglySorted (fun a b => index a <= index b) chunks' /\ NoDup (index <$> chunks'))
    as [Hsorted Hnd].
  { split; [|rewrite Hidx; apply NoDup_fmap_2; [apply _|apply NoDup_seq]].
    revert Hidx. clear. generalize 0%nat as k, (length ps) as n. induction chunks' as [|c cs IH];
      intros k [|n] Hidx; cbn in Hidx; try done; [constructor|].
    injection Hidx as Hc Hcs. constructor; [by apply (IH (S k) n)|].
    rewrite Forall_forall. intros c' Hc'. apply (list_elem_of_fmap_2 index) in Hc'.
    rewrite Hcs in Hc'. apply list_elem_of_fmap in Hc' as (j & -> & Hj%elem_of_seq). lia. }
  rewrite (sorted_by_key_unique index _ chunks'); [|apply std_sort_sorted|done| |done].
  2:{ etrans; [apply std_sort_perm|]. by symmetry. }
  rewrite (stored_contents _ _ _ Hst'). by rewrite message_chunks_data.
Qed.

(** An item that has received nothing. *)
Record fresh_response (i : RequestItem CB) : Prop := {
  fr_chunks : _responseChunks i = [];
  fr_content : _responseChunkContent i = [];
  fr_number : _responseNumberOfChunks i = 0;
}.

(** The chunks that arrived are those of the message [ps], in some order. *)
Definition message_arrives (ps : list (list byte)) (arrived : list (ChunkHeader * list byte)) : Prop :=
  Forall (fun a => buffer_bytes (_data a.1) = Ok a.2 /\ 0 <= buffer_size (_data a.1)) arrived
  /\ (fun a => (_chunkX a.1, a.2)) <$> arrived ≡ₚ message_chunks ps
  /\ (0 < length ps)%nat /\ Z.of_nat (length ps) < 2 ^ 31.

Lemma message_arrives_length ps arrived :
  message_arrives ps arrived -> length arrived = length ps.
Proof.
  intros (_ & Hp%Permutation_length & _). by rewrite length_fmap, length_message_chunks in Hp.
Qed.

(** The item after some of the chunks of a message: nothing to assemble yet. *)
Lemma assemble_early ps arrived k (i : RequestItem CB) :
  message_arrives ps arrived -> fresh_response i -> (k < length arrived)%nat ->
  exists i', addChunks (take k arrived).*1 i = Ok i' /\ assemble i' = Ok (i', None)
    /\ i' = set_response (_responseChunks i') (_responseChunkContent i') (_responseNumberOfChunks i') i.
Proof.
  intros Hma [Hc Hb Hnum] Hk. pose proof (message_arrives_length _ _ Hma) as Hlen.
  destruct Hma as (Ha & Hp & Hpos & Hn).
  assert (holds i []) as Hh by (unfold holds; rewrite Hc; constructor).
  destruct (addChunks_Ok (take k arrived) i [] (Forall_take _ _ _ Ha) Hh) as (i' & Hi' & Hh' & Hn' & He').
  exists i'. split_and!; [done| |done]. rewrite Hnum in Hn'. cbn [app] in Hh'. unfold holds in Hh'.
  pose proof (Forall2_length _ _ _ Hh') as Hl. rewrite length_fmap, length_take in Hl.
  unfold assemble.
  destruct (expects_message ps ((fun a => (_chunkX a.1, a.2)) <$> take k arrived) 0 Hn) as [E|E];
    [|by rewrite Hn', E|].
  - intros e He. rewrite <- Hp. rewrite fmap_take in He.
    rewrite <- (take_drop k (_ <$> arrived)). apply elem_of_app. by left.
  - rewrite Hn', E, Hl. by zbool.
Qed.

(** The item after all of them: the message. *)
Lemma assemble_complete ps arrived (i : RequestItem CB) :
  message_arrives ps arrived -> fresh_response i ->
  exists i' i'', addChunks arrived.*1 i = Ok i' /\ assemble i' = Ok (i'', Some (concat ps))
    /\ i'' = set_response (_responseChunks i'') (_responseChunkContent i'') (_responseNumberOfChunks i'') i.
Proof.
  intros Hma [Hc Hb Hnum]. pose proof (message_arrives_length _ _ Hma) as Hlen.
  destruct Hma as (Ha & Hp & Hpos & Hn).
  assert (holds i []) as Hh by (unfold holds; rewrite Hc; constructor).
  destruct (addChunks_Ok arrived i [] Ha Hh) as (i' & Hi' & Hh' & Hn' & He').
  rewrite Hnum in Hn'. cbn [app] in Hh'. unfold holds in Hh'.
  pose proof (Forall2_length _ _ _ Hh') as Hl. rewrite length_fmap in Hl.
  rewrite (expects_complete ps _ 0 Hpos Hn Hp) in Hn'.
  eexists i', _. split; [done|]. split.
  - unfold assemble. rewrite Hn', Hl, Hlen. zbool.
    rewrite (sorted_contents _ _ _ _ Hh' Hp Hn), bind_ret_l. reflexivity.
  - rewrite He'. done.
Qed.
End ReceiveProofs.

(** The invoked callback, and no other call. *)
Lemma invoke_all_once {CB} (calls : list (Z * option Request * option Response)) e req resp
    (c : CallOnceRequestCallback CB) cb :
  _invoked c = false -> _cb c = Some cb ->
  exists c', invoke_all ((e, req, resp) :: calls) c = Ok (c', [MkEvent cb e req resp]).
Proof.
  intros Hc Hcb. cbn [invoke_all]. unfold invoke. rewrite Hc, Hcb, bind_ret_l.
  destruct (invoke_all_invoked calls (MkCallOnce (CB := CB) true None) eq_refl) as (c' & -> & _).
  by exists c'.
Qed.

(** C22: [prepareForNetwork] for a request whose payload is a sequence of
    VelocyPack slices: it succeeds, and the buffers it leaves for
    [async_write] denote exactly the chunks of one message, each header (in the
    format of the protocol version) followed by its piece; the message is the
    header slice followed by the payload.  In particular no pointer into the
    growing buffer of chunk headers dangles. *)
Theorem prepareForNetwork_wire {VP : VPack} `{!VPackLaws VP} {VB : VBuffer} `{!VBufferLaws VB} {CB}
    (host : byte_order) (hdr0 : list byte) (chunk0 : ChunkHeader) (v : VSTVersion)
    (i : RequestItem CB) (r : Request) (p : string) (verb : RestVerb) (ss : list (list byte)) :
  length hdr0 = 24%nat -> _request i = Some r -> _requestBuffers i = [] ->
  type (rq_header r) = Some MT_Request -> restVerb (rq_header r) = Some verb ->
  verb_in_range verb -> path (rq_header r) = Some p -> header_wf (rq_header r) ->
  _payload r = concat ss -> Forall is_slice ss -> _isVpack r = Some true -> _modified r = true ->
  exists hdr, createVstMessageHeader (default_header (rq_header r)) = Ok hdr /\
    (Z.of_nat (length (hdr ++ concat ss)) < 2 ^ 31 ->
     exists i' cs,
       prepareForNetwork host hdr0 chunk0 v i = Ok i'
       /\ send_bytes i' = Ok (wire_message v cs (wire_pieces (hdr :: ss)))
       /\ concat (wire_pieces (hdr :: ss)) = hdr ++ concat ss
       /\ is_message (ri_messageID i) (Z.of_nat (length (hdr ++ concat ss))) (wire_pieces (hdr :: ss)) cs
       /\ ri_messageID i' = ri_messageID i /\ _callback i' = _callback i).
Proof.
  intros H0 Hr Hb Ht Hverb Hvr Hp Hwf Hpay Hss Hk Hm.
  assert (exists db, database (default_header (rq_header r)) = Some db) as [db Hdb].
  { unfold default_header. cbn. destruct (database (rq_header r)) eqn:E; cbn; eauto. }
  assert (forall A (f : MessageHeader -> A), (forall x h, f (set_version x h) = f h) ->
    (forall x h, f (set_database x h) = f h) -> f (default_header (rq_header r)) = f (rq_header r)) as Hf.
  { intros A f H1 H2. unfold default_header. cbn. destruct (database (rq_header r)); by rewrite ?H2, H1. }
  destruct (request_header_codec (default_header (rq_header r)) 1 db p verb []) as (hdr & h' & Hhdr & Hs & _).
  { unfold default_header. cbn. by destruct (database (rq_header r)). }
  { lia. } { by rewrite Hf. } { done. } { by rewrite Hf. } { done. } { by rewrite Hf. }
  { split; intros m; rewrite Hf by done; by apply Hwf. }
  exists hdr. split; [done|]. intros Hlen.
  destruct (request_slices_concat (set_rq_header (default_header (rq_header r)) r) ss)
    as (r' & Hr' & _); [done|done|cbn; by rewrite Hk|done|].
  destruct (prepareForNetwork_Ok host hdr0 chunk0 H0 v i r r' hdr ss Hr Hb Hhdr Hs Hr' Hlen)
    as (i' & cs & H1 & H2 & H3 & _ & _ & H4 & H5 & _).
  exists i', cs. split_and!; try done.
  apply concat_message_pieces. unfold maxChunkHeaderSize, defaultMaxChunkSize. lia.
Qed.

Lemma prepareForNetwork_wire_witness :
  let r := MkRequest (MkHeader None (Some MT_Request) None None (Some Get) (Some "/_api/version")
             None None None None None None None)
             0 (enc_int 5 ++ []) false true (Some true) true [] (Z.of_nat (length (enc_int 5))) 0 in
  let i : RequestItem unit :=
    set_ri_messageID 7 (set_callback (MkCallOnce false (Some ())) (set_request (Some r) new_RequestItem)) in
  exists hdr i' cs,
    prepareForNetwork LittleEndianHost (le_bytes 24 9) (MkChunk 0 0 0 0 empty_buffer 0 0) VST1_1 i = Ok i'
    /\ send_bytes i' = Ok (wire_message VST1_1 cs (wire_pieces [hdr; enc_int 5])).
Proof.
  intros r i.
  destruct (prepareForNetwork_wire LittleEndianHost (le_bytes 24 9) (MkChunk 0 0 0 0 empty_buffer 0 0)
    VST1_1 i r "/_api/version" Get [enc_int 5]) as (hdr & H1 & H2); try reflexivity; try done.
  - repeat constructor. apply is_slice_int. lia.
  - destruct H2 as (i' & cs & H2 & H3 & _).
    + cbn in H1. injection H1 as <-. vm_compute. reflexivity.
    + exists hdr, i', cs. split; [exact H2|exact H3].
Defined.

(** C11: [addChunk] and [assemble]: whatever the order in which the chunks of a
    message arrive, and whatever they contain, nothing is assembled before the
    last one is there, and with it the item yields the pieces of the message
    in their order. *)
Theorem assemble_any_order {VB : VBuffer} {CB} `{StdSortLaws ChunkHeader} (i : RequestItem CB)
    (ps : list (list byte)) (arrived : list (ChunkHeader * list byte)) (k : nat) :
  fresh_response i -> message_arrives ps arrived -> (k <= length arrived)%nat ->
  exists i' i'',
    addChunks (take k arrived).*1 i = Ok i'
    /\ assemble i' = Ok (i'', if decide (k = length arrived) then Some (concat ps) else None).
Proof.
  intros Hf Ha Hk. case_decide as E.
  - subst k. rewrite firstn_all. destruct (assemble_complete ps arrived i Ha Hf) as (i' & i'' & ? & ? & _).
    by exists i', i''.
  - destruct (assemble_early ps arrived k i Ha Hf) as (i' & ? & ? & _); [lia|]. by exists i', i'.
Qed.

Lemma assemble_any_order_witness :
  let d1 := le_bytes 2 7 in let d2 := le_bytes 1 3 in
  let c x d := MkChunk 0 x 9 3 (MkBuffer (d ++ [Byte.x00]) (Z.of_nat (length d))) 0 0 in
  exists i' i'', addChunks [c 2 d2; c 5 d1] (new_RequestItem (CB := unit)) = Ok i'
    /\ assemble i' = Ok (i'', Some (concat [d1; d2])).
Proof.
  intros d1 d2 c.
  destruct (assemble_any_order (new_RequestItem (CB := unit)) [d1; d2] [(c 2 d2, d2); (c 5 d1, d1)] 2)
    as (i' & i'' & H1 & H2); [done| |cbn; lia|].
  - split_and!; [|apply Permutation_swap|cbn; lia|cbn; lia].
    repeat constructor; cbn; lia.
  - exists i', i''. split; [exact H1|exact H2].
Defined.
