(* ===== verification/MessageStore.v ===== *)
(** * The store of messages in flight

    The class template [MessageStore<RequestItemT>] of src/MessageStore.h.  Both
    connections instantiate it with their own item type; what it needs of the
    items is the class [StoredItem], which the clients implement.  Items are
    shared: the store holds pointers, and the items live in the state of the
    client. *)
From S2P Require Import Prelude StdMap.
Local Open Scope Z_scope.

(** The members of [RequestItemT] the template uses, for items at pointers [P]
    in a state [S]: [messageID()], [_request->timeout()] in milliseconds, and
    [invokeOnError(e, std::move(item->_request), nullptr)]. *)
Class StoredItem (S P : Type) := {
  item_messageID : P -> S -> res Z;
  item_timeout : P -> S -> res Z;
  item_invokeOnError : Z -> P -> stm S unit;
}.

Section Store.
Context {S P : Type} `{StoredItem S P}.

Definition MessageStore : Type := stdmap Z P.

(** [emplace] does nothing when the id is taken. *)
Definition store_add (item : P) (m : MessageStore) : stm S MessageStore :=
  s ← reads id;
  id ← lift (item_messageID item s);
  mret (map_emplace id item m).

Definition store_findByID (id : Z) (m : MessageStore) : option P := map_find id m.
Definition store_removeByID (id : Z) (m : MessageStore) : MessageStore := map_erase id m.

(** The loop runs in the order of the ids. *)
Definition store_cancelAll (error : Z) (m : MessageStore) : stm S MessageStore :=
  _ ← for_each (fun kv => item_invokeOnError error kv.2) m;
  mret [].

Definition store_size (m : MessageStore) : Z := Z.of_nat (length m).
Definition store_empty (m : MessageStore) : bool := match m with [] => true | _ => false end.

(** [minimumTimeout], in milliseconds: two minutes, or less. *)
Fixpoint min_loop (m : MessageStore) (min : Z) (s : S) : res Z :=
  match m with
  | [] => Ok min
  | (_, item) :: m =>
      reqTimeout ← item_timeout item s;
      min_loop m (if reqTimeout <? min then reqTimeout else min) s
  end.
Definition store_minimumTimeout (m : MessageStore) (s : S) : res Z := min_loop m (2 * 60 * 1000) s.

(** The client's view of an item: its timeout is known. *)
Lemma min_loop_spec m s mn :
  (forall id p, (id, p) ∈ m -> is_Ok (item_timeout p s)) ->
  exists t, min_loop m mn s = Ok t /\ t <= mn
    /\ (forall id p t', (id, p) ∈ m -> item_timeout p s = Ok t' -> t <= t')
    /\ (t = mn \/ exists id p, (id, p) ∈ m /\ item_timeout p s = Ok t).
Proof.
  revert mn. induction m as [|[k p] m IH]; intros mn Hok; cbn [min_loop].
  { exists mn. split_and!; [done|done| |by left]. intros ??? Hin. by apply not_elem_of_nil in Hin. }
  destruct (Hok k p ltac:(left)) as [t0 Ht0]. rewrite Ht0, bind_ret_l.
  destruct (IH (if t0 <? mn then t0 else mn)) as (t & Ht & Hle & Hall & Hex).
  { intros id p' Hin. apply (Hok id p'). by right. }
  exists t. split; [done|]. revert Hle Hex. destruct (Z.ltb_spec t0 mn); intros Hle Hex; (split; [lia|]); split.
  - intros id p' t' [[= -> ->]|Hin]%elem_of_cons Ht'; [rewrite Ht0 in Ht'; injection Ht' as <-; lia|by eapply Hall].
  - destruct Hex as [->|(id & p' & ? & ?)]; right.
    + exists k, p. split; [left|done].
    + exists id, p'. split; [by right|done].
  - intros id p' t' [[= -> ->]|Hin]%elem_of_cons Ht'; [rewrite Ht0 in Ht'; injection Ht' as <-; lia|by eapply Hall].
  - destruct Hex as [->|(id & p' & ? & ?)]; [by left|right].
    exists id, p'. split; [by right|done].
Qed.

Lemma keeps_store_cancelAll (I : S -> Prop) error m :
  (forall p, keeps I (item_invokeOnError error p)) -> keeps I (store_cancelAll error m).
Proof.
  intros Hi. apply keeps_bind; [|intros; apply keeps_ret]. apply keeps_for_each. intros. apply Hi.
Qed.

(** Invoking an item is final, and invoking another one does not undo it. *)
Class CancelLaws (done : P -> S -> Prop) (I : S -> Prop) : Prop := {
  invoke_done : forall e p, triple I (item_invokeOnError e p) (fun _ s => I s /\ done p s) I;
  invoke_keeps_done : forall e p q,
    triple (fun s => I s /\ done q s) (item_invokeOnError e p) (fun _ s => I s /\ done q s) I;
}.

(** After [cancelAll] the store is empty and all its items have been invoked. *)
Lemma store_cancelAll_done (done : P -> S -> Prop) (I : S -> Prop) `{!CancelLaws done I} error m :
  triple I (store_cancelAll error m)
    (fun m' s => I s /\ m' = [] /\ forall id p, (id, p) ∈ m -> done p s) I.
Proof.
  eapply triple_bind with (R := fun _ s => I s /\ forall id p, (id, p) ∈ m -> done p s);
    [|intros []; apply triple_ret; naive_solver].
  assert (forall m1 m2 : list (Z * P), triple (fun s => I s /\ forall id p, (id, p) ∈ m1 -> done p s)
    (for_each (fun kv => item_invokeOnError error kv.2) m2)
    (fun _ s => I s /\ forall id p, (id, p) ∈ m1 ++ m2 -> done p s) I) as Hl.
  { intros m1 m2. revert m1. induction m2 as [|[k p] m2 IH]; intros m1; cbn [for_each].
    { apply triple_skip. intros s. by rewrite app_nil_r. }
    eapply triple_bind with (R := fun _ s => I s /\ forall id q, (id, q) ∈ m1 ++ [(k, p)] -> done q s).
    - intros s [HI Hd]. pose proof (invoke_done error p s HI) as Hp. cbn [snd].
      assert (forall q, done q s -> match item_invokeOnError error p s with
        (Ok _, s') => done q s' | _ => True end) as Hq.
      { intros q Hq. pose proof (invoke_keeps_done error p q s (conj HI Hq)) as Hk.
        destruct (item_invokeOnError error p s) as [[] ?]; naive_solver. }
      destruct (item_invokeOnError error p s) as [[[]|e|w] s']; [|done|done].
      destruct Hp as [HI' Hp]. split; [done|].
      intros id q [Hin|[= -> ->]%list_elem_of_singleton]%elem_of_app; [|done].
      apply Hq. by eapply Hd.
    - intros []. specialize (IH (m1 ++ [(k, p)])). by rewrite <- (assoc_L (++)) in IH. }
  eapply triple_conseq; [apply (Hl [])| |naive_solver|naive_solver].
  intros s HI. split; [done|]. intros ?? Hin. by apply not_elem_of_nil in Hin.
Qed.

Lemma keeps_store_add (I : S -> Prop) p m : keeps I (store_add p m).
Proof. unfold store_add. repeat keeps_step. Qed.
End Store.
Arguments MessageStore P : clear implicits.
#[export] Hint Resolve keeps_store_add : keeps.
