(* ===== verification/VstConnection.v ===== *)
(** * The VST connection

    [VstConnection] of src/VstConnection.h and src/VstConnection.cpp: the send
    queue, the store of messages in flight, the connection set-up, the read and
    the write loop, restart and shutdown.

    The io service runs one handler at a time; every asynchronous operation
    that is under way is a [handler] in [pending], and a handler runs with an
    outcome the network, the peer or the clock chooses ([perform]).  Cancelling
    a timer or a socket does not remove handlers that are already queued, so
    the model never removes any: it lets them complete in every way.

    Pointers to shared objects (items, loops, sockets) are indices, so that the
    queue, the store and the pending handlers share the items as the
    [shared_ptr]s of the code do. *)
From S2P Require Import Prelude StdMap Types Endian Chunk VPack Message HeaderCodec RequestItem MessageStore.
Local Open Scope Z_scope.

Section Connection.
Context {VP : VPack} {VB : VBuffer} `{StdSort ChunkHeader}.
Context (host : byte_order) (hdr0 : list byte) (chunk0 : ChunkHeader).
Context (conf : ConnectionConfiguration).

(** ** State *)

(** The callbacks of items: the user's, or that of the authentication request. *)
Inductive callback : Type := UserCallback (cb : nat) | AuthCallback.

(** Where data are written: a TCP socket, or the TLS stream on top of it. *)
Inductive stream : Type := TcpStream (socket : nat) | SslStream (socket : nat).

(** What the rest of the world sees. *)
Inductive event : Type :=
| EvCallback (item : nat) (call : cb_event callback)
| EvFailure (code : Z) (message : string)
| EvWrite (to : stream) (data : list byte).   (* handed to [async_write], not yet transmitted *)

(** [_started] is set by [start]; a loop keeps the socket it was made for. *)
Record ReadLoop : Type := MkReadLoop {
  rl_socket : option nat;
  rl_receiveBuffer : list byte;
  rl_started : bool;
}.
Record WriteLoop : Type := MkWriteLoop { wl_socket : option nat; wl_started : bool }.

(** Asynchronous operations under way, by their completion handlers. *)
Inductive handler : Type :=
| HResolve | HConnect | HHandshake | HInit
| HRead (loop : nat) | HReadDeadline (loop : nat) (milliseconds : Z)
| HWrite (loop item : nat) | HWriteDeadline (loop : nat) (milliseconds : Z).

Record VstConnection : Type := MkVst {
  items : list (RequestItem callback);
  messageID_counter : Z;
  sendQueue : list nat;
  messageStore : MessageStore nat;
  endpoints : list string;
  sockets : nat;
  socket : option nat;
  sslSocket : option nat;
  connected : bool;
  permanent_failure : bool;
  async_calls : Z;
  readLoop_current : option nat;
  readLoops : list ReadLoop;
  writeLoop_current : option nat;
  writeLoops : list WriteLoop;
  pending : list handler;
  trace : list event;
}.

Definition set_items (x : list (RequestItem callback)) (s : VstConnection) : VstConnection :=
  MkVst x (messageID_counter s) (sendQueue s) (messageStore s) (endpoints s) (sockets s)
    (socket s) (sslSocket s) (connected s) (permanent_failure s) (async_calls s)
    (readLoop_current s) (readLoops s) (writeLoop_current s) (writeLoops s) (pending s) (trace s).
Definition set_messageID_counter (x : Z) (s : VstConnection) : VstConnection :=
  MkVst (items s) x (sendQueue s) (messageStore s) (endpoints s) (sockets s) (socket s)
    (sslSocket s) (connected s) (permanent_failure s) (async_calls s) (readLoop_current s)
    (readLoops s) (writeLoop_current s) (writeLoops s) (pending s) (trace s).
Definition set_sendQueue (x : list nat) (s : VstConnection) : VstConnection :=
  MkVst (items s) (messageID_counter s) x (messageStore s) (endpoints s) (sockets s) (socket s)
    (sslSocket s) (connected s) (permanent_failure s) (async_calls s) (readLoop_current s)
    (readLoops s) (writeLoop_current s) (writeLoops s) (pending s) (trace s).
Definition set_messageStore (x : MessageStore nat) (s : VstConnection) : VstConnection :=
  MkVst (items s) (messageID_counter s) (sendQueue s) x (endpoints s) (sockets s) (socket s)
    (sslSocket s) (connected s) (permanent_failure s) (async_calls s) (readLoop_current s)
    (readLoops s) (writeLoop_current s) (writeLoops s) (pending s) (trace s).
Definition set_endpoints (x : list string) (s : VstConnection) : VstConnection :=
  MkVst (items s) (messageID_counter s) (sendQueue s) (messageStore s) x (sockets s) (socket s)
    (sslSocket s) (connected s) (permanent_failure s) (async_calls s) (readLoop_current s)
    (readLoops s) (writeLoop_current s) (writeLoops s) (pending s) (trace s).
Definition set_sockets (x : nat) (s : VstConnection) : VstConnection :=
  MkVst (items s) (messageID_counter s) (sendQueue s) (messageStore s) (endpoints s) x (socket s)
    (sslSocket s) (connected s) (permanent_failure s) (async_calls s) (readLoop_current s)
    (readLoops s) (writeLoop_current s) (writeLoops s) (pending s) (trace s).
Definition set_socket (x : option nat) (s : VstConnection) : VstConnection :=
  MkVst (items s) (messageID_counter s) (sendQueue s) (messageStore s) (endpoints s) (sockets s) x
    (sslSocket s) (connected s) (permanent_failure s) (async_calls s) (readLoop_current s)
    (readLoops s) (writeLoop_current s) (writeLoops s) (pending s) (trace s).
Definition set_sslSocket (x : option nat) (s : VstConnection) : VstConnection :=
  MkVst (items s) (messageID_counter s) (sendQueue s) (messageStore s) (endpoints s) (sockets s)
    (socket s) x (connected s) (permanent_failure s) (async_calls s) (readLoop_current s)
    (readLoops s) (writeLoop_current s) (writeLoops s) (pending s) (trace s).
Definition set_connected (x : bool) (s : VstConnection) : VstConnection :=
  MkVst (items s) (messageID_counter s) (sendQueue s) (messageStore s) (endpoints s) (sockets s)
    (socket s) (sslSocket s) x (permanent_failure s) (async_calls s) (readLoop_current s)
    (readLoops s) (writeLoop_current s) (writeLoops s) (pending s) (trace s).
Definition set_permanent_failure (x : bool) (s : VstConnection) : VstConnection :=
  MkVst (items s) (messageID_counter s) (sendQueue s) (messageStore s) (endpoints s) (sockets s)
    (socket s) (sslSocket s) (connected s) x (async_calls s) (readLoop_current s) (readLoops s)
    (writeLoop_current s) (writeLoops s) (pending s) (trace s).
Definition set_async_calls (x : Z) (s : VstConnection) : VstConnection :=
  MkVst (items s) (messageID_counter s) (sendQueue s) (messageStore s) (endpoints s) (sockets s)
    (socket s) (sslSocket s) (connected s) (permanent_failure s) x (readLoop_current s)
    (readLoops s) (writeLoop_current s) (writeLoops s) (pending s) (trace s).
Definition set_readLoop_current (x : option nat) (s : VstConnection) : VstConnection :=
  MkVst (items s) (messageID_counter s) (sendQueue s) (messageStore s) (endpoints s) (sockets s)
    (socket s) (sslSocket s) (connected s) (permanent_failure s) (async_calls s) x (readLoops s)
    (writeLoop_current s) (writeLoops s) (pending s) (trace s).
Definition set_readLoops (x : list ReadLoop) (s : VstConnection) : VstConnection :=
  MkVst (items s) (messageID_counter s) (sendQueue s) (messageStore s) (endpoints s) (sockets s)
    (socket s) (sslSocket s) (connected s) (permanent_failure s) (async_calls s)
    (readLoop_current s) x (writeLoop_current s) (writeLoops s) (pending s) (trace s).
Definition set_writeLoop_current (x : option nat) (s : VstConnection) : VstConnection :=
  MkVst (items s) (messageID_counter s) (sendQueue s) (messageStore s) (endpoints s) (sockets s)
    (socket s) (sslSocket s) (connected s) (permanent_failure s) (async_calls s)
    (readLoop_current s) (readLoops s) x (writeLoops s) (pending s) (trace s).
Definition set_writeLoops (x : list WriteLoop) (s : VstConnection) : VstConnection :=
  MkVst (items s) (messageID_counter s) (sendQueue s) (messageStore s) (endpoints s) (sockets s)
    (socket s) (sslSocket s) (connected s) (permanent_failure s) (async_calls s)
    (readLoop_current s) (readLoops s) (writeLoop_current s) x (pending s) (trace s).
Definition set_pending (x : list handler) (s : VstConnection) : VstConnection :=
  MkVst (items s) (messageID_counter s) (sendQueue s) (messageStore s) (endpoints s) (sockets s)
    (socket s) (sslSocket s) (connected s) (permanent_failure s) (async_calls s)
    (readLoop_current s) (readLoops s) (writeLoop_current s) (writeLoops s) x (trace s).
Definition set_trace (x : list event) (s : VstConnection) : VstConnection :=
  MkVst (items s) (messageID_counter s) (sendQueue s) (messageStore s) (endpoints s) (sockets s)
    (socket s) (sslSocket s) (connected s) (permanent_failure s) (async_calls s)
    (readLoop_current s) (readLoops s) (writeLoop_current s) (writeLoops s) (pending s) x.

Local Abbreviation M := (stm VstConnection).

(** Pointers are followed. *)
Definition deref {A} (l : list A) (p : nat) : res A :=
  match l !! p with Some a => Ok a | None => Undef "invalid pointer" end.
Definition get_item (p : nat) : M (RequestItem callback) :=
  s ← reads id; lift (deref (items s) p).
Definition put_item (p : nat) (i : RequestItem callback) : M unit :=
  modify (fun s => set_items (<[p := i]> (items s)) s).
Definition log (e : event) : M unit := modify (fun s => set_trace (trace s ++ [e]) s).
Definition async (h : handler) : M unit := modify (fun s => set_pending (pending s ++ [h]) s).

(** [Connection::onFailure]. *)
Definition onFailure (code : Z) (message : string) : M unit := log (EvFailure code message).

(** Calling a callback: the user's code is outside the model, the lambda of
    [insertAuthenticationRequests] is not. *)
Definition callback_body (call : cb_event callback) : M unit :=
  match ev_cb call with
  | UserCallback _ => skip
  | AuthCallback =>
      if ev_error call =? 0 then skip
      else
        _ ← modify (set_permanent_failure true);
        onFailure (ev_error call) "authentication failed"
  end.
Definition run_callback (item : nat) (call : cb_event callback) : M unit :=
  _ ← log (EvCallback item call); callback_body call.

(** [item->_callback.invoke(e, std::move(item->_request), resp)]. *)
Definition invoke_item (e : Z) (resp : option Response) (p : nat) : M unit :=
  i ← get_item p;
  '(i, calls) ← lift (invokeOnError e resp i);
  _ ← put_item p i;
  for_each (run_callback p) calls.

#[export] Instance VstItem : StoredItem VstConnection nat := {|
  item_messageID p s := i ← deref (items s) p; Ok (ri_messageID i);
  item_timeout p s := i ← deref (items s) p; r ← get (_request i); Ok (_timeout r);
  item_invokeOnError e p := invoke_item e None p;
|}.

(** ** The send queue *)
Definition queue_add (p : nat) : M unit := modify (fun s => set_sendQueue (sendQueue s ++ [p]) s).
Definition queue_insert (p : nat) : M unit := modify (fun s => set_sendQueue (p :: sendQueue s) s).
Definition queue_front (s : VstConnection) : option nat := head (sendQueue s).
Definition queue_removeFirst : M unit :=
  s ← reads id;
  match sendQueue s with
  | [] => lift (Undef "pop_front of an empty deque")
  | _ :: q => modify (set_sendQueue q)
  end.

(** ** Requests *)
Definition createRequestItem (request : Request) (cb : callback) : M nat :=
  s ← reads id;
  let mid := u64 (messageID_counter s + 1) in
  _ ← modify (set_messageID_counter mid);
  let item := set_request (Some (set_rq_messageID mid request))
    (set_callback (assign_CallOnce cb new_CallOnce) (set_ri_messageID mid new_RequestItem)) in
  item ← lift (prepareForNetwork host hdr0 chunk0 (_vstVersion conf) item);
  s ← reads id;
  let p := length (items s) in
  _ ← modify (set_items (items s ++ [item]));
  mret p.

Definition requestsLeft (s : VstConnection) : Z :=
  Z.of_nat (length (sendQueue s)) + store_size (messageStore s).

(** ** Reading *)

(** The second component is the timeout, when the loop goes on. *)
Definition shouldStopReading (loop : nat) : M (bool * Z) :=
  s ← reads id;
  if negb (bool_decide (readLoop_current s = Some loop)) then mret (true, 0)
  else if permanent_failure s then mret (true, 0)
  else if store_empty (messageStore s) && bool_decide (sendQueue s = []) then
    _ ← modify (set_readLoop_current None); mret (true, 0)
  else
    timeout ← lift (store_minimumTimeout (messageStore s) s);
    mret (false, timeout).

Definition count_async (d : Z) : M unit :=
  modify (fun s => set_async_calls (u64 (async_calls s + d)) s).

Definition readNextBytes (loop : nat) : M unit :=
  '(stop, timeout) ← shouldStopReading loop;
  if stop : bool then skip
  else
    _ ← async (HReadDeadline loop timeout);
    _ ← count_async 1;
    s ← reads id;
    l ← lift (deref (readLoops s) loop);
    _ ← lift (get (rl_socket l));
    async (HRead loop).

Definition ReadLoop_start (loop : nat) : M unit :=
  s ← reads id;
  l ← lift (deref (readLoops s) loop);
  _ ← modify (set_readLoops (<[loop := MkReadLoop (rl_socket l) (rl_receiveBuffer l) true]> (readLoops s)));
  if rl_started l then skip else readNextBytes loop.

Definition startReading : M unit :=
  s ← reads id;
  match readLoop_current s with
  | Some _ => skip
  | None =>
      let loop := length (readLoops s) in
      _ ← modify (set_readLoops (readLoops s ++ [MkReadLoop (socket s) [] false]));
      _ ← modify (set_readLoop_current (Some loop));
      ReadLoop_start loop
  end.

Definition stopReading : M unit := modify (set_readLoop_current None).

Definition set_rs_messageID (id : Z) (r : Response) : Response :=
  MkResponse (rs_header r) id (rs_payload_buf r) (_payloadOffset r) (rs_slices r).

Definition createResponse (item : RequestItem callback) (responseBuffer : list byte) : res Response :=
  '(messageHeader, messageHeaderLength) ← validateAndExtractMessageHeader 1 responseBuffer;
  let response := new_Response messageHeader [] in
  let response := set_rs_messageID (ri_messageID item) response in
  Ok (setPayload responseBuffer messageHeaderLength response).

Definition processChunk (chunk : ChunkHeader) : M unit :=
  s ← reads id;
  match store_findByID (_messageID chunk) (messageStore s) with
  | None => skip
  | Some p =>
      item ← get_item p;
      item ← lift (addChunk chunk item);
      '(item, completeBuffer) ← lift (assemble item);
      _ ← put_item p item;
      match completeBuffer with
      | None => skip
      | Some buffer =>
          _ ← modify (fun s => set_messageStore
                        (store_removeByID (ri_messageID item) (messageStore s)) s);
          response ← lift (createResponse item buffer);
          invoke_item 0 (Some response) p
      end
  end.

(** Consuming the first [n] bytes of the receive buffer of a loop. *)
Definition consume (loop : nat) (n : Z) : M unit :=
  s ← reads id;
  l ← lift (deref (readLoops s) loop);
  modify (set_readLoops
    (<[loop := MkReadLoop (rl_socket l) (drop (Z.to_nat n) (rl_receiveBuffer l)) (rl_started l)]>
      (readLoops s))).

(** The loop of [asyncReadCallback] over the complete chunks at [cursor].  Every
    chunk processed is at least one byte long, so the length of the data is
    enough fuel. *)
Fixpoint chunks_loop (fuel : nat) (loop : nat) (cursor : list byte) : M unit :=
  n ← lift (isChunkComplete host cursor (Z.of_nat (length cursor)));
  if n =? 0 then skip
  else
    match fuel with
    | O => lift (Undef "the loop does not terminate")
    | S fuel =>
        chunk ← lift (readChunkHeader host chunk0 (_vstVersion conf) cursor);
        _ ← processChunk chunk;
        _ ← consume loop (_chunkLength chunk);
        chunks_loop fuel loop (drop (Z.to_nat (_chunkLength chunk)) cursor)
    end.

(** ** Connecting *)
Definition vstHeader1_0 : string := "VST/1.0" +:+ String "013" (String "010" (String "013" (String "010" ""))).
Definition vstHeader1_1 : string := "VST/1.1" +:+ String "013" (String "010" (String "013" (String "010" ""))).

Definition startResolveHost : M unit := async HResolve.

Definition startConnect : M unit :=
  s ← reads id;
  match endpoints s with
  | [] => skip
  | _ :: _ => _ ← lift (get (socket s)); async HConnect
  end.

Definition initSocket : M unit :=
  s ← reads id;
  _ ← lift (cassert (bool_decide (socket s = None)) "!_socket");
  _ ← lift (cassert (bool_decide (sslSocket s = None)) "!_sslSocket");
  let sock := sockets s in
  _ ← modify (set_sockets (S sock));
  _ ← modify (set_socket (Some sock));
  _ ← modify (set_sslSocket (Some sock));
  startConnect.

(** [_socket->cancel()] is the overload that throws; the errors of the other calls are
    ignored.  [cancelled] is its outcome. *)
Definition shutdownSocket_with (cancelled : res unit) : M unit :=
  s ← reads id;
  _ ← (match socket s with Some _ => lift cancelled | None => skip end);
  _ ← modify (set_sslSocket None); modify (set_socket None).
(** The operations below are modelled with a [cancel] that succeeds, as it does on a socket
    that is open (see [shutdownSocket_cancelled] and [cancel_throws]). *)
Definition shutdownSocket : M unit :=
  _ ← modify (set_sslSocket None); modify (set_socket None).

Definition stopWriting : M unit := modify (set_writeLoop_current None).

Definition shutdownConnection (error : ErrorCondition) : M unit :=
  _ ← stopWriting;
  _ ← stopReading;
  _ ← shutdownSocket;
  s ← reads id;
  m ← store_cancelAll (errorToInt error) (messageStore s);
  modify (set_messageStore m).

(** The same with any outcome of [cancel]. *)
Definition shutdownConnection_with (cancelled : res unit) (error : ErrorCondition) : M unit :=
  _ ← stopWriting;
  _ ← stopReading;
  _ ← shutdownSocket_with cancelled;
  s ← reads id;
  m ← store_cancelAll (errorToInt error) (messageStore s);
  modify (set_messageStore m).

Definition restartConnection (error : ErrorCondition) : M unit :=
  s ← reads id;
  _ ← lift (cassert (bool_decide (readLoop_current s = None)) "!_readLoop._current");
  _ ← lift (cassert (bool_decide (writeLoop_current s = None)) "!_writeLoop._current");
  _ ← shutdownConnection error;
  s ← reads id;
  if permanent_failure s then skip else startResolveHost.

Definition restart_from_ReadLoop (loop : nat) (error : ErrorCondition) : M unit :=
  s ← reads id;
  if negb (bool_decide (readLoop_current s = Some loop)) then skip
  else
    _ ← modify (set_readLoop_current None);
    _ ← modify (set_writeLoop_current None);
    restartConnection error.

Definition restart_from_WriteLoop (loop : nat) (error : ErrorCondition) : M unit :=
  s ← reads id;
  if negb (bool_decide (writeLoop_current s = Some loop)) then skip
  else
    _ ← modify (set_readLoop_current None);
    _ ← modify (set_writeLoop_current None);
    restartConnection error.

(** ** Writing *)
Definition getNextRequestToSend (loop : nat) : M (option nat) :=
  s ← reads id;
  if negb (bool_decide (writeLoop_current s = Some loop)) then mret None
  else if permanent_failure s then mret None
  else
    match queue_front s with
    | None => _ ← modify (set_writeLoop_current None); mret None
    | Some next =>
        m ← store_add next (messageStore s);
        _ ← modify (set_messageStore m);
        _ ← queue_removeFirst;
        mret (Some next)
    end.

(** The data are gathered when the write is started: [EvWrite] is the call of
    [async_write], with the whole buffer it is given.  How much of it is transmitted is
    decided later (see VstNetwork.v). *)
Definition sendNextRequest (loop : nat) : M unit :=
  next ← getNextRequestToSend loop;
  match next with
  | None => skip
  | Some p =>
      _ ← startReading;
      item ← get_item p;
      _ ← lift (cassert (negb (bool_decide (_requestBuffers item = []))) "_requestBuffers.size()");
      request ← lift (get (_request item));
      _ ← async (HWriteDeadline loop (_timeout request));
      _ ← count_async 1;
      s ← reads id;
      l ← lift (deref (writeLoops s) loop);
      sock ← lift (get (wl_socket l));
      data ← lift (send_bytes item);
      _ ← log (EvWrite (TcpStream sock) data);
      async (HWrite loop p)
  end.

Definition WriteLoop_start (loop : nat) : M unit :=
  s ← reads id;
  l ← lift (deref (writeLoops s) loop);
  _ ← modify (set_writeLoops (<[loop := MkWriteLoop (wl_socket l) true]> (writeLoops s)));
  if wl_started l then skip else sendNextRequest loop.

Definition startWriting : M unit :=
  s ← reads id;
  match writeLoop_current s with
  | Some _ => skip
  | None =>
      let loop := length (writeLoops s) in
      _ ← modify (set_writeLoops (writeLoops s ++ [MkWriteLoop (socket s) false]));
      _ ← modify (set_writeLoop_current (Some loop));
      WriteLoop_start loop
  end.

Definition sendRequest (request : Request) (cb : callback) : M Z :=
  p ← createRequestItem request cb;
  _ ← queue_add p;
  s ← reads id;
  _ ← (if connected s then startWriting else skip);
  item ← get_item p;
  mret (ri_messageID item).

(** ** Handlers

    [error] is the message of a failed operation. *)
Definition resolve_handler (error : option string) (iterator : list string) : M unit :=
  match error with
  | Some msg => onFailure (errorToInt CouldNotConnect) ("resolved failed: error" +:+ msg)
  | None =>
      _ ← modify (set_endpoints iterator);
      match iterator with
      | [] => onFailure (errorToInt CouldNotConnect) "unable to resolve endpoints"
      | _ :: _ => initSocket
      end
  end.

Definition vstHeader : string :=
  match _vstVersion conf with VST1_0 => vstHeader1_0 | VST1_1 => vstHeader1_1 end.

Definition finishInitialization : M unit :=
  s ← reads id;
  sock ← lift (get (socket s));
  _ ← log (EvWrite (TcpStream sock) (String.list_byte_of_string vstHeader));
  async HInit.

Definition insertAuthenticationRequests : M unit :=
  match _authenticationType conf with
  | AT_None => skip
  | AT_Basic =>
      let req := new_Request emptyHeader [] in
      let h := set_type (Some MT_Authentication) (rq_header req) in
      let h := set_encryption (Some "plain") h in
      let h := set_user (Some (_user conf)) h in
      let h := set_password (Some (_password conf)) h in
      p ← createRequestItem (set_rq_header h req) AuthCallback;
      queue_insert p
  | AT_Jwt => lift (Throw (invalid_argument "JWT authentication not yet implemented"))
  end.

Definition init_handler (error : option string) : M unit :=
  match error with
  | Some msg =>
      _ ← modify (set_connected false);
      _ ← shutdownConnection CanceledDuringReset;
      onFailure (errorToInt CouldNotConnect) ("unable to initialize connection: error=" +:+ msg)
  | None =>
      _ ← insertAuthenticationRequests;
      _ ← modify (set_connected true);
      _ ← startWriting;
      startReading
  end.

Definition startSSLHandshake : M unit :=
  _ ← (if _ssl conf then skip else finishInitialization);
  s ← reads id;
  _ ← lift (get (sslSocket s));
  async HHandshake.

Definition handshake_handler (error : option string) : M unit :=
  match error with
  | Some msg =>
      _ ← shutdownSocket;
      onFailure (errorToInt CouldNotConnect) ("unable to perform ssl handshake: error=" +:+ msg)
  | None => finishInitialization
  end.

Definition asyncConnectCallback (error : option string) : M unit :=
  match error with
  | Some msg =>
      _ ← shutdownConnection CanceledDuringReset;
      onFailure (errorToInt CouldNotConnect) ("unable to connect -- " +:+ msg)
  | None => if _ssl conf then startSSLHandshake else finishInitialization
  end.

(** [transferred] holds the new bytes in the receive buffer. *)
Definition asyncReadCallback (loop : nat) (error : option string) (transferred : list byte) : M unit :=
  _ ← count_async (-1);
  match error with
  | Some _ => restart_from_ReadLoop loop VstReadError
  | None =>
      s ← reads id;
      l ← lift (deref (readLoops s) loop);
      let receivedBuf := rl_receiveBuffer l ++ transferred in
      _ ← modify (set_readLoops (<[loop := MkReadLoop (rl_socket l) receivedBuf (rl_started l)]>
                                   (readLoops s)));
      _ ← chunks_loop (length receivedBuf) loop receivedBuf;
      readNextBytes loop
  end.

Definition asyncWriteCallback (loop item : nat) (error : option string) : M unit :=
  _ ← count_async (-1);
  match error with
  | Some _ =>
      i ← get_item item;
      _ ← modify (fun s => set_messageStore (store_removeByID (ri_messageID i) (messageStore s)) s);
      _ ← invoke_item (errorToInt VstWriteError) None item;
      restart_from_WriteLoop loop VstWriteError
  | None =>
      i ← get_item item;
      _ ← put_item item (resetSendData i);
      sendNextRequest loop
  end.

Definition ReadLoop_deadlineHandler (loop : nat) (error : option string) : M unit :=
  match error with Some _ => skip | None => restart_from_ReadLoop loop Timeout end.
Definition WriteLoop_deadlineHandler (loop : nat) (error : option string) : M unit :=
  match error with Some _ => skip | None => restart_from_WriteLoop loop Timeout end.

(** ** The event loop *)

(** The outcome of an operation: an error, endpoints of a resolver, bytes read. *)
Record outcome : Type := MkOutcome {
  out_error : option string;
  out_endpoints : list string;
  out_data : list byte;
}.

Definition run_handler (h : handler) (o : outcome) : M unit :=
  match h with
  | HResolve => resolve_handler (out_error o) (out_endpoints o)
  | HConnect => asyncConnectCallback (out_error o)
  | HHandshake => handshake_handler (out_error o)
  | HInit => init_handler (out_error o)
  | HRead loop => asyncReadCallback loop (out_error o) (out_data o)
  | HReadDeadline loop _ => ReadLoop_deadlineHandler loop (out_error o)
  | HWrite loop item => asyncWriteCallback loop item (out_error o)
  | HWriteDeadline loop _ => WriteLoop_deadlineHandler loop (out_error o)
  end.

(** The connection after construction and [start()]. *)
Definition new_VstConnection : VstConnection :=
  MkVst [] 0 [] [] [] 0 None None false false 0 None [] None [] [] [].
Definition start : M unit := startResolveHost.
(** [~VstConnection], without the release of the members. *)
Definition destroy : M unit := shutdownConnection CanceledDuringReset.

(** An action of the program: a call of the application, or a handler that runs. *)
Inductive action : Type :=
| ASend (request : Request) (cb : nat)
| AHandler (n : nat) (o : outcome).

Definition perform (a : action) : M unit :=
  match a with
  | ASend request cb => _ ← sendRequest request (UserCallback cb); skip
  | AHandler n o =>
      s ← reads id;
      match pending s !! n with
      | None => skip
      | Some h => _ ← modify (set_pending (delete n (pending s))); run_handler h o
      end
  end.

Definition initial (s : VstConnection) : Prop := start new_VstConnection = (Ok (), s).

(** The states after [n] actions; [b] tells whether all of them returned.  An
    exception leaves the handler, or the call, with the changes made so far. *)
Inductive reaches : bool -> nat -> VstConnection -> Prop :=
| reaches_initial s : initial s -> reaches true 0 s
| reaches_returns b n s a s' : reaches b n s -> perform a s = (Ok (), s') -> reaches b (S n) s'
| reaches_throws b n s a e s' : reaches b n s -> perform a s = (Throw e, s') -> reaches false (S n) s'.
#[local] Hint Constructors reaches : fuerte.

(** An invariant of all actions holds in every reachable state. *)
Lemma reaches_keeps (I : VstConnection -> Prop) :
  (forall s, initial s -> I s) -> (forall a, keeps I (perform a)) ->
  forall b n s, reaches b n s -> I s.
Proof.
  intros H0 Hk b n s. induction 1 as [s Hs|b n s a s' _ IH Ha|b n s a e s' _ IH Ha]; [by apply H0|..];
    specialize (Hk a s IH); by rewrite Ha in Hk.
Qed.

(** A [cancel] that succeeds leaves just the effects of [shutdownSocket]. *)
Lemma shutdownSocket_cancelled s : shutdownSocket_with (Ok ()) s = shutdownSocket s.
Proof. unfold shutdownSocket_with, mbind, stm_bind, reads. cbn [id]. by destruct (socket s). Qed.
Lemma shutdownConnection_cancelled error s :
  shutdownConnection_with (Ok ()) error s = shutdownConnection error s.
Proof.
  unfold shutdownConnection_with, shutdownConnection, stopWriting, stopReading.
  unfold mbind, stm_bind, modify. by rewrite shutdownSocket_cancelled.
Qed.
(** One that throws stops the loops and no more: the sockets stay, no request in the store is
    answered, and the exception leaves [shutdownConnection]. *)
Lemma cancel_throws error e s :
  is_Some (socket s) ->
  shutdownConnection_with (Throw e) error s
  = (Throw e, set_readLoop_current None (set_writeLoop_current None s)).
Proof.
  intros [k Hk]. unfold shutdownConnection_with, stopWriting, stopReading, shutdownSocket_with,
    mbind, stm_bind, modify, reads. cbn [id]. cbn [socket set_readLoop_current set_writeLoop_current]. by rewrite Hk.
Qed.
End Connection.
