(* ===== verification/VstInvariant.v ===== *)
(** * Ownership of requests in a VST connection

    The invariant behind the guarantees of VstConnection.v: which component owns
    a request that is not answered yet (the send queue, the message store, a
    write under way), that message ids are unique, and how often a callback
    has been called.  [winv] is the invariant of the components, [Inv] that of
    the connection; [X] holds of the requests that nobody needs to own. *)
From S2P Require Import Prelude StdMap Types Endian Chunk VPack Message HeaderCodec RequestItem MessageStore VstConnection.
Local Open Scope Z_scope.

Section Invariant.
Context {VP : VPack} {VB : VBuffer} `{StdSort ChunkHeader}.
Context (host : byte_order) (hdr0 : list byte) (chunk0 : ChunkHeader).
Context (conf : ConnectionConfiguration).

(** A request that waits for its answer, and one that had it. *)
Definition live (i : RequestItem callback) : Prop :=
  _invoked (_callback i) = false /\ is_Some (_cb (_callback i)) /\ is_Some (_request i).
Definition done (i : RequestItem callback) : Prop := _invoked (_callback i) = true.

(** The calls of the callback of an item. *)
Definition is_call (p : nat) (e : event) : bool :=
  match e with EvCallback q _ => bool_decide (p = q) | _ => false end.
Definition calls (p : nat) (t : list event) : nat := length (filter (fun e => is_call p e = true) t).

#[local] Arguments calls : simpl never.
Lemma calls_app p t1 t2 : calls p (t1 ++ t2) = (calls p t1 + calls p t2)%nat.
Proof. unfold calls. by rewrite filter_app, length_app. Qed.

(** The components the invariant is about; [st] is the message store. *)
Record winv (X : nat -> Prop) (k : Z) (st : MessageStore nat) (its : list (RequestItem callback))
    (mid : Z) (q : list nat) (pend : list handler) (tr : list event) : Prop := {
  wi_store : map_wf st;
  wi_stored : forall id p, (id, p) ∈ st ->
    exists i, its !! p = Some i /\ ri_messageID i = id /\ live i /\ p ∉ q;
  wi_queued : forall p, p ∈ q -> exists i, its !! p = Some i /\ live i /\ _requestBuffers i <> [];
  wi_nodup : NoDup q;
  wi_items : forall p i, its !! p = Some i -> live i \/ done i;
  wi_ids : forall p1 p2 i1 i2, its !! p1 = Some i1 -> its !! p2 = Some i2 ->
    ri_messageID i1 = ri_messageID i2 -> p1 = p2;
  wi_bound : forall p i, its !! p = Some i -> ri_messageID i <= mid;
  wi_counter : 0 <= mid <= k;
  wi_writes : forall l p, HWrite l p ∈ pend -> (p ∉ q) /\ is_Some (its !! p);
  wi_calls : forall p, calls p tr =
    match its !! p with Some i => if _invoked (_callback i) then 1%nat else 0%nat | None => 0%nat end;
  wi_owned : forall p i, its !! p = Some i -> X p \/ done i \/ p ∈ q \/ (ri_messageID i, p) ∈ st;
}.

Definition Inv (X : nat -> Prop) (k : Z) (s : VstConnection) : Prop :=
  winv X k (messageStore s) (items s) (messageID_counter s) (sendQueue s) (pending s) (trace s).

Definition nobody : nat -> Prop := fun _ => False.
Definition anybody : nat -> Prop := fun _ => True.

Lemma winv_weaken (X Y : nat -> Prop) k k' st its mid q pend tr :
  (forall p, X p -> Y p) -> k <= k' -> winv X k st its mid q pend tr -> winv Y k' st its mid q pend tr.
Proof. intros HX Hk []. split; try done; [lia|naive_solver]. Qed.

(** Operations on the components the invariant does not mention keep it. *)
Ltac keeps_trivially := apply keeps_modify; intros ? HI; exact HI.

(** A new handler other than a write, and an event other than a call. *)
Lemma keeps_async X k h :
  (forall l p, h <> HWrite l p) -> keeps (Inv X k) (async h).
Proof.
  intros Hh. apply keeps_modify. intros s []. split; cbn; try done.
  intros l p [Hin|Hin%list_elem_of_singleton]%elem_of_app; [by eapply wi_writes0|naive_solver].
Qed.

Lemma triple_async_write X k l p :
  triple (fun s => Inv X k s /\ (p ∉ sendQueue s) /\ is_Some (items s !! p)) (async (HWrite l p))
    (fun _ => Inv X k) (Inv anybody k).
Proof.
  apply triple_modify. intros s [[] Hp]. split; cbn; try done.
  intros l' p' [Hin|[= -> ->]%list_elem_of_singleton]%elem_of_app; [by eapply wi_writes0|done].
Qed.

Lemma winv_log X k st its mid q pend tr e :
  (forall p c, e <> EvCallback p c) -> winv X k st its mid q pend tr ->
  winv X k st its mid q pend (tr ++ [e]).
Proof.
  intros He []. split; try done. intros p. rewrite calls_app, wi_calls0.
  replace (calls p [e]) with 0%nat; [lia|]. unfold calls. rewrite filter_cons.
  destruct e; cbn; try done. naive_solver.
Qed.

Lemma keeps_log X k e : (forall p c, e <> EvCallback p c) -> keeps (Inv X k) (log e).
Proof. intros He. apply keeps_modify. intros s. by apply winv_log. Qed.

Lemma keeps_onFailure X k c m : keeps (Inv X k) (onFailure c m).
Proof. by apply keeps_log. Qed.
Lemma keeps_count_async X k d : keeps (Inv X k) (count_async d).
Proof. keeps_trivially. Qed.
Lemma keeps_get_item X k p : keeps (Inv X k) (get_item p).
Proof. apply keeps_bind; [apply keeps_reads|intros; apply keeps_lift]. Qed.
#[local] Hint Resolve keeps_onFailure keeps_count_async keeps_get_item : keeps.
#[local] Hint Extern 1 (keeps _ (async _)) => apply keeps_async; intros ?? [=] : keeps.
#[local] Hint Extern 1 (keeps _ (log _)) => apply keeps_log; intros ?? [=] : keeps.
#[local] Hint Extern 2 (keeps _ (modify _)) => apply keeps_modify; intros ? HI; exact HI : keeps.

(** ** The reading side, up to the chunks *)
Lemma keeps_readNextBytes X k l : keeps (Inv X k) (readNextBytes l).
Proof. unfold readNextBytes, shouldStopReading. repeat keeps_step. Qed.
#[local] Hint Resolve keeps_readNextBytes : keeps.

Lemma keeps_startReading X k : keeps (Inv X k) startReading.
Proof. unfold startReading, ReadLoop_start. repeat keeps_step. Qed.
#[local] Hint Resolve keeps_startReading : keeps.

Lemma keeps_consume X k l n : keeps (Inv X k) (consume l n).
Proof. unfold consume. repeat keeps_step. Qed.

(** The reading side does not touch the send queue and the items. *)
Definition frame (q : list nat) (its : list (RequestItem callback)) (s : VstConnection) : Prop :=
  sendQueue s = q /\ items s = its.

Lemma frame_modify q its f :
  (forall s, sendQueue (f s) = sendQueue s /\ items (f s) = items s) -> keeps (frame q its) (modify f).
Proof. intros Hf. apply keeps_modify. intros s [<- <-]. apply Hf. Qed.

Lemma startReading_frame q its : keeps (frame q its) startReading.
Proof.
  unfold startReading, ReadLoop_start, readNextBytes, shouldStopReading, async, count_async.
  repeat (first [keeps_step | by apply frame_modify]).
Qed.

(** ** Changing an item *)

(** Bookkeeping of an item: new data to send or received chunks. *)
Lemma winv_put X k st its mid q pend tr p i i' :
  winv X k st its mid q pend tr -> its !! p = Some i ->
  _callback i' = _callback i -> ri_messageID i' = ri_messageID i -> _request i' = _request i ->
  (p ∈ q -> _requestBuffers i' = _requestBuffers i) ->
  winv X k st (<[p := i']> its) mid q pend tr.
Proof.
  intros [] Hi Hc Hid Hr Hb.
  assert (forall p' j, <[p := i']> its !! p' = Some j -> exists j0, its !! p' = Some j0
    /\ _callback j = _callback j0 /\ ri_messageID j = ri_messageID j0 /\ _request j = _request j0) as Hl.
  { intros p' j [(-> & <- & _)|[_ ?]]%list_lookup_insert_Some; naive_solver. }
  assert (forall p' j, its !! p' = Some j -> exists j', <[p := i']> its !! p' = Some j'
    /\ _callback j' = _callback j /\ ri_messageID j' = ri_messageID j /\ _request j' = _request j
    /\ (p' ∈ q -> _requestBuffers j' = _requestBuffers j)) as Hl'.
  { intros p' j Hj. destruct (decide (p' = p)) as [->|Hne].
    - exists i'. rewrite list_lookup_insert_eq by by eapply lookup_lt_Some. naive_solver.
    - exists j. by rewrite list_lookup_insert_ne. }
  split; unfold live, done in *; try done.
  - intros id p' Hin. destruct (wi_stored0 id p' Hin) as (j & Hj & Hjid & Hlive & Hq).
    destruct (Hl' p' j Hj) as (j' & ? & Hjc & ? & Hjr & _). exists j'. rewrite Hjc, Hjr. naive_solver.
  - intros p' Hp'. destruct (wi_queued0 p' Hp') as (j & Hj & Hlive & Hbuf).
    destruct (Hl' p' j Hj) as (j' & ? & Hjc & ? & Hjr & Hjb). exists j'. rewrite Hjc, Hjr, Hjb by done. done.
  - intros p' j (j0 & Hj0 & Hjc & _ & Hjr)%Hl. rewrite Hjc, Hjr. eauto.
  - intros p1 p2 i1 i2 (j1 & ? & _ & -> & _)%Hl (j2 & ? & _ & -> & _)%Hl. eauto.
  - intros p' j (j0 & ? & _ & -> & _)%Hl. eauto.
  - intros l p' Hin. destruct (wi_writes0 l p' Hin) as [? Hs%lookup_lt_is_Some_1]. split; [done|].
    apply lookup_lt_is_Some_2. by rewrite length_insert.
  - intros p'. rewrite wi_calls0. destruct (its !! p') as [j|] eqn:E.
    + destruct (Hl' p' j E) as (j' & -> & -> & _). done.
    + destruct (<[p := i']> its !! p') as [j|] eqn:E'; [|done].
      destruct (Hl p' j E') as (? & ? & _). congruence.
  - intros p' j (j0 & Hj0 & Hjc & -> & _)%Hl. rewrite Hjc. eauto.
Qed.

(** The call of the callback of an item that nobody owns any more. *)
Lemma winv_invoke X k st its mid q pend tr p i i' c :
  winv (fun x => X x \/ x = p) k st its mid q pend tr -> its !! p = Some i -> p ∉ q ->
  (forall id, (id, p) ∉ st) -> ri_messageID i' = ri_messageID i -> done i' ->
  winv X k st (<[p := i']> its) mid q pend
    (if _invoked (_callback i) then tr else tr ++ [EvCallback p c]).
Proof.
  intros [] Hi Hpq Hpst Hid Hd. pose proof (lookup_lt_Some _ _ _ Hi) as Hlt.
  assert (forall p' j, <[p := i']> its !! p' = Some j ->
    (p' = p /\ j = i') \/ (p' <> p /\ its !! p' = Some j)) as Hl.
  { intros p' j [(-> & <- & _)|[? ?]]%list_lookup_insert_Some; naive_solver. }
  assert (forall p', p' <> p -> <[p := i']> its !! p' = its !! p') as Hne
    by (intros; by apply list_lookup_insert_ne).
  split; try done.
  - intros id p' Hin. destruct (wi_stored0 id p' Hin) as (j & Hj & ?). exists j.
    rewrite Hne; [done|]. intros ->. by eapply Hpst.
  - intros p' Hp'. rewrite Hne by (intros ->; done). eauto.
  - intros p' j [[-> ->]|[_ ?]]%Hl; [by right|eauto].
  - intros p1 p2 i1 i2 [[-> ->]|[Hp1 ?]]%Hl [[-> ->]|[Hp2 ?]]%Hl; rewrite ?Hid; eauto.
  - intros p' j [[-> ->]|[_ ?]]%Hl; rewrite ?Hid; eauto.
  - intros l p' Hin. destruct (wi_writes0 l p' Hin) as [? Hs%lookup_lt_is_Some_1]. split; [done|].
    apply lookup_lt_is_Some_2. by rewrite length_insert.
  - intros p'. destruct (decide (p' = p)) as [->|Hp'].
    + rewrite list_lookup_insert_eq, Hd by done. specialize (wi_calls0 p). rewrite Hi in wi_calls0.
      destruct (_invoked (_callback i)); [done|]. rewrite calls_app, wi_calls0.
      unfold calls. rewrite filter_cons. cbn. by rewrite bool_decide_true by done.
    + rewrite Hne by done. destruct (_invoked (_callback i)); [done|].
      rewrite calls_app, wi_calls0. unfold calls. rewrite filter_cons. cbn.
      rewrite bool_decide_false by done. by rewrite Nat.add_0_r.
  - intros p' j [[-> ->]|[Hp' Hj]]%Hl; [by right; left|].
    destruct (wi_owned0 p' j Hj) as [[?|?]|?]; [by left|done|by right].
Qed.

(** ** Calling callbacks *)

(** The invariant with [st] in place of the message store. *)
Definition InvS (X : nat -> Prop) (k : Z) (st : MessageStore nat) (s : VstConnection) : Prop :=
  winv X k st (items s) (messageID_counter s) (sendQueue s) (pending s) (trace s).

Lemma keeps_callback_body X k st E call :
  triple (InvS X k st) (callback_body call) (fun _ => InvS X k st) E.
Proof.
  unfold callback_body. destruct (ev_cb call); [by apply triple_skip|].
  case_match; [by apply triple_skip|].
  eapply triple_bind with (R := fun _ => InvS X k st); [by apply triple_modify|intros _].
  apply triple_modify. intros s. by apply winv_log.
Qed.

Lemma triple_run_callback X k st E p call :
  triple (fun s => InvS X k st (set_trace (trace s ++ [EvCallback p call]) s))
    (for_each (run_callback p) [call]) (fun _ => InvS X k st) E.
Proof.
  cbn [for_each]. eapply triple_bind with (R := fun _ => InvS X k st); [|intros; by apply triple_skip].
  eapply triple_bind with (R := fun _ => InvS X k st); [by apply triple_modify|].
  intros []. apply keeps_callback_body.
Qed.

(** Calling the callback of an item that the caller has taken over. *)
Lemma triple_invoke_item X k st E e resp p :
  triple (fun s => InvS (fun x => X x \/ x = p) k st s /\ (p ∉ sendQueue s) /\ (forall id, (id, p) ∉ st))
    (invoke_item e resp p) (fun _ => InvS X k st) E.
Proof.
  intros s (HI & Hq & Hst). unfold invoke_item, get_item, deref.
  destruct (items s !! p) as [i|] eqn:Hi; unfold mbind, stm_bind, reads, lift; cbn; rewrite Hi; [|done].
  unfold invokeOnError, invoke. destruct (_invoked (_callback i)) eqn:Hinv.
  - cbn. pose proof (winv_invoke X k st _ _ _ _ _ p i
      (set_callback (MkCallOnce true (_cb (_callback i))) (set_request None i)) (MkEvent AuthCallback 0 None None)
      HI Hi Hq Hst eq_refl eq_refl) as Hw. rewrite Hinv in Hw. exact Hw.
  - destruct (_cb (_callback i)) as [cb|]; [|done]. cbn.
    pose proof (winv_invoke X k st _ _ _ _ _ p i (set_callback (MkCallOnce true None) (set_request None i))
      (MkEvent cb e (_request i) resp) HI Hi Hq Hst eq_refl eq_refl) as Hw. rewrite Hinv in Hw.
    exact (triple_run_callback X k st E p (MkEvent cb e (_request i) resp)
      (set_items (<[p:=set_callback (MkCallOnce true None) (set_request None i)]> (items s)) s) Hw).
Qed.

(** Taking an item out of the store, whether it is still stored or not. *)
Lemma winv_take X k st its mid q pend tr p i :
  winv X k st its mid q pend tr -> its !! p = Some i -> p ∉ q ->
  winv (fun x => X x \/ x = p) k (store_removeByID (ri_messageID i) st) its mid q pend tr
  /\ forall id', (id', p) ∉ store_removeByID (ri_messageID i) st.
Proof.
  intros Hw Hi Hq. unfold store_removeByID. pose proof (wi_store _ _ _ _ _ _ _ _ Hw) as Hwf. split.
  - destruct Hw. split; try done.
    + by apply map_erase_wf.
    + intros id' p' Hin'%map_erase_elem. eauto.
    + intros p' j Hj. destruct (wi_owned0 p' j Hj) as [?|[?|[?|Hs]]];
        [by left; left|by right; left|by right; right; left|].
      destruct (decide (p' = p)) as [->|Hne]; [by left; right|]. right; right; right.
      apply map_erase_elem_iff; [done|]. split; [|done]. intros Heq.
      apply Hne, (wi_ids0 p' p j i Hj Hi). congruence.
  - intros id' [Hne Hin']%map_erase_elem_iff; [|done].
    destruct (wi_stored _ _ _ _ _ _ _ _ Hw id' p Hin') as (i' & Hi' & Hid' & _). congruence.
Qed.

(** [cancelAll]: each item of the store gives up its place in it. *)
Lemma winv_tail X k id p st its mid q pend tr :
  winv X k ((id, p) :: st) its mid q pend tr ->
  winv (fun x => X x \/ x = p) k st its mid q pend tr /\ (p ∉ q) /\ forall id', (id', p) ∉ st.
Proof.
  intros Hw. destruct (wi_stored _ _ _ _ _ _ _ _ Hw id p ltac:(left)) as (i & Hi & <- & _ & Hq).
  pose proof (winv_take _ _ _ _ _ _ _ _ p i Hw Hi Hq) as Hr.
  unfold store_removeByID in Hr. cbn [map_erase] in Hr. rewrite less_irrefl in Hr. naive_solver.
Qed.

Lemma triple_cancelAll X k error st E :
  triple (InvS X k st) (store_cancelAll error st) (fun st' s => st' = [] /\ InvS X k st' s) E.
Proof.
  eapply triple_bind with (R := fun _ => InvS X k []); [|intros []; by apply triple_ret].
  induction st as [|[id p] st IH]; cbn [for_each]; [by apply triple_skip|].
  eapply triple_bind with (R := fun _ => InvS X k st); [|by intros []].
  eapply triple_conseq; [apply (triple_invoke_item X k st E)| |done|done].
  intros s HI. by apply winv_tail in HI.
Qed.

(** The message store is left alone by calls. *)
Lemma messageStore_invoke st e resp p :
  keeps (fun s => messageStore s = st) (invoke_item e resp p).
Proof.
  assert (forall f, (forall s, messageStore (f s) = messageStore s) ->
    keeps (fun s => messageStore s = st) (modify f)) as Hm.
  { intros f Hf. apply keeps_modify. intros s <-. apply Hf. }
  unfold invoke_item, get_item, put_item, run_callback, callback_body, onFailure, log.
  repeat (first [keeps_step | apply Hm; done | apply keeps_for_each; intros ?]).
Qed.

Lemma triple_invoke_taken X k E e resp p :
  triple (fun s => Inv (fun x => X x \/ x = p) k s /\ (p ∉ sendQueue s)
                   /\ (forall id, (id, p) ∉ messageStore s))
    (invoke_item e resp p) (fun _ => Inv X k) E.
Proof.
  intros s Hs. pose proof (triple_invoke_item X k (messageStore s) E e resp p s Hs) as Ht.
  pose proof (messageStore_invoke (messageStore s) e resp p s eq_refl) as Hm.
  destruct (invoke_item e resp p s) as [[[]|?|?] s']; [|done|done]. unfold Inv. rewrite Hm. exact Ht.
Qed.

(** ** Shutdown and restart *)

(** Reading the state, with what is known of it. *)
Lemma triple_get {A} (I : VstConnection -> Prop) (k : VstConnection -> stm VstConnection A) Q E :
  (forall s0, triple (fun s => s = s0 /\ I s) (k s0) Q E) -> triple I (reads id ≫= k) Q E.
Proof. intros Hk s Hs. by apply (Hk s s). Qed.

Lemma keeps_cancelAll X k error :
  keeps (Inv X k) (s ← reads id; m ← store_cancelAll (errorToInt error) (messageStore s);
                   modify (set_messageStore m)).
Proof.
  apply triple_get. intros s0.
  eapply triple_bind with (R := fun m s => m = [] /\ InvS X k m s).
  - eapply triple_conseq; [apply (triple_cancelAll X k _ _ (Inv X k))| |done|done].
    intros s [-> HI]. exact HI.
  - intros m. apply triple_modify. intros s [-> HI]. exact HI.
Qed.

Lemma keeps_shutdownConnection X k error : keeps (Inv X k) (shutdownConnection error).
Proof.
  unfold shutdownConnection, stopWriting, stopReading, shutdownSocket.
  repeat (first [apply keeps_cancelAll | keeps_step]).
Qed.
#[local] Hint Resolve keeps_shutdownConnection : keeps.

Lemma keeps_restart_from_ReadLoop X k l error : keeps (Inv X k) (restart_from_ReadLoop l error).
Proof. unfold restart_from_ReadLoop, restartConnection, startResolveHost. repeat keeps_step. Qed.
Lemma keeps_restart_from_WriteLoop X k l error : keeps (Inv X k) (restart_from_WriteLoop l error).
Proof. unfold restart_from_WriteLoop, restartConnection, startResolveHost. repeat keeps_step. Qed.
#[local] Hint Resolve keeps_restart_from_ReadLoop keeps_restart_from_WriteLoop : keeps.

(** ** Operations that may give up a request by throwing *)
Definition maintains {A} (X : nat -> Prop) (k : Z) (m : stm VstConnection A) : Prop :=
  triple (Inv X k) m (fun _ => Inv X k) (Inv anybody k).

Lemma maintains_keeps {A} X k (m : stm VstConnection A) : keeps (Inv X k) m -> maintains X k m.
Proof.
  intros Hm. eapply triple_conseq; [exact Hm|done|done|].
  intros s HI. by eapply winv_weaken; [..|exact HI].
Qed.
Lemma maintains_bind {A B} X k (m : stm VstConnection A) (f : A -> stm VstConnection B) :
  maintains X k m -> (forall a, maintains X k (f a)) -> maintains X k (m ≫= f).
Proof. apply triple_bind. Qed.

Ltac maintains_step :=
  match goal with
  | |- maintains _ _ (_ ≫= _) => apply maintains_bind; [|intros]
  | |- maintains _ _ (match ?x with _ => _ end) => destruct x
  | |- maintains _ _ (if ?b then _ else _) => destruct b
  | |- maintains _ _ _ => solve [eauto 2 with keeps | apply maintains_keeps; eauto 2 with keeps]
  end.

(** ** Receiving *)
Lemma addChunk_frame c (i i' : RequestItem callback) :
  addChunk c i = Ok i' ->
  _callback i' = _callback i /\ ri_messageID i' = ri_messageID i /\ _request i' = _request i
  /\ _requestBuffers i' = _requestBuffers i.
Proof. unfold addChunk. intros. inv_ok. done. Qed.

Lemma assemble_frame (i i' : RequestItem callback) o :
  assemble i = Ok (i', o) ->
  _callback i' = _callback i /\ ri_messageID i' = ri_messageID i /\ _request i' = _request i
  /\ _requestBuffers i' = _requestBuffers i.
Proof. unfold assemble. repeat case_match; intros; inv_ok; simplify_eq; done. Qed.

Lemma maintains_processChunk X k c : maintains X k (processChunk c).
Proof.
  apply triple_get. intros s0. case_match eqn:Hf; [|apply triple_skip; naive_solver].
  rename n into p.
  intros s [-> HI]. unfold store_findByID in Hf.
  apply map_find_Some_elem in Hf; [|apply HI].
  destruct (wi_stored _ _ _ _ _ _ _ _ HI _ _ Hf) as (i & Hi & Hid & Hlive & Hq).
  unfold get_item, deref, mbind, stm_bind, reads, lift. cbn. rewrite Hi.
  destruct (addChunk c i) as [i1|e|w] eqn:H1; [| |done].
  2: { eapply winv_weaken; [..|exact HI]; done. }
  destruct (assemble i1) as [[i2 o]|e|w] eqn:H2; [| |done].
  2: { eapply winv_weaken; [..|exact HI]; done. }
  destruct (addChunk_frame _ _ _ H1) as (Hc1 & Hid1 & Hr1 & Hb1).
  destruct (assemble_frame _ _ _ H2) as (Hc2 & Hid2 & Hr2 & Hb2).
  assert (winv X k (messageStore s0) (<[p := i2]> (items s0)) (messageID_counter s0) (sendQueue s0)
    (pending s0) (trace s0)) as HI2 by (eapply winv_put; [exact HI|exact Hi|congruence..]).
  cbn. destruct o as [buffer|]; [|exact HI2]. cbn.
  destruct (winv_take _ _ _ _ _ _ _ _ p i2 HI2) as [HI3 Hst]; [|done|].
  { apply list_lookup_insert_eq. by eapply lookup_lt_Some. }
  destruct (createResponse i2 buffer) as [resp|e|w]; [| |done].
  - exact (triple_invoke_taken X k (Inv anybody k) 0 (Some resp) p
      (set_messageStore (store_removeByID (ri_messageID i2) (messageStore s0))
        (set_items (<[p := i2]> (items s0)) s0)) (conj HI3 (conj Hq Hst))).
  - eapply winv_weaken; [..|exact HI3]; done.
Qed.
#[local] Hint Resolve maintains_processChunk keeps_consume : keeps.

Lemma maintains_chunks_loop X k fuel l cursor : maintains X k (chunks_loop host chunk0 conf fuel l cursor).
Proof.
  revert cursor. induction fuel as [|fuel IH]; intros cursor; cbn [chunks_loop];
    repeat (first [apply IH | maintains_step]).
Qed.

(** ** Sending *)

(** The next request moves from the queue to the store. *)
Lemma triple_getNextRequestToSend X k l :
  triple (Inv X k) (getNextRequestToSend l)
    (fun next s => Inv X k s /\ match next with Some p => (p ∉ sendQueue s) /\ is_Some (items s !! p) | None => True end)
    (Inv anybody k).
Proof.
  apply triple_get. intros s0. case_match; [apply triple_ret; naive_solver|].
  case_match; [apply triple_ret; naive_solver|].
  destruct (queue_front s0) as [p|] eqn:Hq; unfold queue_front in Hq.
  2: { eapply triple_bind with (R := fun _ => Inv X k); [|intros; apply triple_ret; naive_solver].
       apply triple_modify. intros s [-> HI]. exact HI. }
  destruct (sendQueue s0) as [|p' q] eqn:Hs; [done|]. injection Hq as ->.
  intros s [-> HI]. pose proof HI as []. rewrite Hs in *.
  destruct (wi_queued0 p ltac:(left)) as (i & Hi & Hlive & Hbuf).
  apply NoDup_cons in wi_nodup0 as [Hpq Hnd].
  assert (forall p', (ri_messageID i, p') ∉ messageStore s0) as Hfresh.
  { intros p' Hin. destruct (wi_stored0 _ _ Hin) as (i' & Hi' & Hid & _ & Hq').
    apply Hq'. rewrite (wi_ids0 p' p i' i Hi' Hi Hid). left. }
  pose proof (fun x => map_emplace_elem_iff (ri_messageID i) p (messageStore s0) x wi_store0 Hfresh) as Hel.
  unfold store_add, queue_removeFirst, mbind, stm_bind, reads, lift, item_messageID, VstItem, deref. cbn.
  rewrite Hi. cbn. rewrite Hs. cbn. split; [|done].
  split; cbn; try done.
  - by apply map_emplace_wf.
  - intros id p' [[= -> ->]|Hin]%Hel.
    + exists i. split_and!; done.
    + destruct (wi_stored0 _ _ Hin) as (i' & ? & ? & ? & Hq'). exists i'. split_and!; try done.
      intros ?. apply Hq'. by right.
  - intros p' Hp'. apply wi_queued0. by right.
  - intros l' p' Hin. destruct (wi_writes0 l' p' Hin) as [Hn ?]. split; [|done].
    intros Hp'. apply Hn. by right.
  - intros p' j Hj. destruct (wi_owned0 p' j Hj) as [?|[?|[Hin|?]]]; [by left|by right; left| |].
    + apply elem_of_cons in Hin as [->|?]; [|by right; right; left].
      right; right; right. apply Hel. left. congruence.
    + right; right; right. apply Hel. by right.
Qed.

(** A step that keeps both the invariant and the frame. *)
Lemma frame_bind {A B} X k q its (m : stm VstConnection A) (f : A -> stm VstConnection B) Q :
  keeps (Inv X k) m -> keeps (frame q its) m ->
  (forall a, triple (fun s => Inv X k s /\ frame q its s) (f a) Q (Inv anybody k)) ->
  triple (fun s => Inv X k s /\ frame q its s) (m ≫= f) Q (Inv anybody k).
Proof.
  intros H1 H2 Hf. eapply triple_bind; [|exact Hf]. intros s [HI Hs].
  specialize (H1 s HI). specialize (H2 s Hs). destruct (m s) as [[a|?|?] s']; [done| |done].
  by eapply winv_weaken; [..|exact H1].
Qed.

Ltac frame_step :=
  apply frame_bind;
    [solve [eauto 2 with keeps]
    |first [solve [eauto 2 with keeps] | apply startReading_frame | by apply frame_modify
           |solve [unfold get_item; repeat keeps_step]]
    |intros ?].

Lemma maintains_sendNextRequest X k l : maintains X k (sendNextRequest l).
Proof.
  eapply triple_bind; [apply triple_getNextRequestToSend|]. intros [p|]; [|apply triple_skip; naive_solver].
  intros s (HI & Hq & Hp). revert s HI Hq Hp.
  enough (forall q its, p ∉ q -> is_Some (its !! p) ->
    triple (fun s => Inv X k s /\ frame q its s)
      (_ ← startReading; item ← get_item p;
       _ ← lift (cassert (negb (bool_decide (_requestBuffers item = []))) "_requestBuffers.size()");
       request ← lift (get (_request item));
       _ ← async (HWriteDeadline l (_timeout request));
       _ ← count_async 1;
       s ← reads id;
       wl ← lift (deref (writeLoops s) l);
       sock ← lift (get (wl_socket wl));
       data ← lift (send_bytes item);
       _ ← log (EvWrite (TcpStream sock) data);
       async (HWrite l p)) (fun _ => Inv X k) (Inv anybody k)) as Hall.
  { intros s HI Hq Hp. exact (Hall (sendQueue s) (items s) Hq Hp s (conj HI (conj eq_refl eq_refl))). }
  intros q its Hq Hp. repeat frame_step.
  eapply triple_conseq; [apply (triple_async_write X k l p)| |done|done].
  intros s [HI [Hs Hi]]. split; [exact HI|]. by rewrite Hs, Hi.
Qed.
#[local] Hint Resolve maintains_sendNextRequest : keeps.

Lemma maintains_startWriting X k : maintains X k startWriting.
Proof. unfold startWriting, WriteLoop_start. repeat maintains_step. Qed.
#[local] Hint Resolve maintains_startWriting : keeps.

(** A new item: nobody owns it yet, and nothing refers to it. *)
Definition fresh_item (p : nat) (s : VstConnection) : Prop :=
  (p ∉ sendQueue s) /\ (forall id, (id, p) ∉ messageStore s) /\ (forall l, HWrite l p ∉ pending s)
  /\ exists i, items s !! p = Some i /\ live i /\ _requestBuffers i <> [].

Lemma triple_createRequestItem X k r cb :
  k + 1 < 2 ^ 64 ->
  triple (Inv X k) (createRequestItem host hdr0 chunk0 conf r cb)
    (fun p s => Inv (fun x => X x \/ x = p) (k + 1) s /\ fresh_item p s) (Inv anybody (k + 1)).
Proof.
  intros Hk s HI. pose proof HI as []. unfold createRequestItem.
  set (mid := u64 (messageID_counter s + 1)).
  assert (mid = messageID_counter s + 1) as Hmid by (apply u64_id; lia).
  unfold mbind, stm_bind, reads, lift, modify. cbn -[prepareForNetwork]. fold mid.
  destruct (prepareForNetwork _ _ _ _ _) as [item|e|w] eqn:Hp; [| |done].
  - apply prepareForNetwork_inv in Hp as (Hr & Hc & Hid & Hb). cbn in Hc, Hid.
    assert (live item) as Hlive by (unfold live; rewrite Hc; cbn; eauto).
    assert (forall p, p ∉ sendQueue s \/ is_Some (items s !! p)) as Hvalid.
    { intros p. destruct (decide (p ∈ sendQueue s)) as [Hq|]; [right|by left].
      destruct (wi_queued0 p Hq) as (i & -> & _). eauto. }
    assert (forall p i, (items s ++ [item]) !! p = Some i ->
      items s !! p = Some i \/ (p = length (items s) /\ i = item)) as Hl.
    { intros p i [?|[Hge Hi]]%lookup_app_Some; [by left|right].
      apply list_lookup_singleton_Some in Hi as [? <-]. split; [lia|done]. }
    assert (forall p i, items s !! p = Some i -> (items s ++ [item]) !! p = Some i) as Hold.
    { intros. by apply lookup_app_l_Some. }
    assert ((items s ++ [item]) !! length (items s) = Some item) as Hnew by by apply list_lookup_middle.
    assert (items s !! length (items s) = None) as Hnone by by apply lookup_ge_None_2.
    cbn. split; [split; cbn; try done|].
    + intros id p Hin. destruct (wi_stored0 id p Hin) as (i & Hi & ?). exists i. eauto.
    + intros p Hin. destruct (wi_queued0 p Hin) as (i & Hi & ?). exists i. eauto.
    + intros p i [Hi|[-> ->]]%Hl; [eauto|by left].
    + intros p1 p2 i1 i2 [H1|[-> ->]]%Hl [H2|[-> ->]]%Hl Heq; [eauto| | |done].
      * specialize (wi_bound0 _ _ H1). lia.
      * specialize (wi_bound0 _ _ H2). lia.
    + intros p i [Hi|[-> ->]]%Hl; [specialize (wi_bound0 _ _ Hi)|]; lia.
    + lia.
    + intros l p Hin. destruct (wi_writes0 l p Hin) as [? [i Hi]]. split; [done|]. eauto.
    + intros p. rewrite wi_calls0. destruct (items s !! p) as [i|] eqn:E; [by rewrite (Hold _ _ E)|].
      destruct ((items s ++ [item]) !! p) as [i|] eqn:E'; [|done].
      apply Hl in E' as [?|[-> ->]]; [congruence|]. destruct Hlive as (-> & _). done.
    + intros p i [Hi|[-> ->]]%Hl; [|by left; right].
      destruct (wi_owned0 p i Hi) as [?|?]; [by left; left|by right].
    + split_and!; cbn.
      * intros Hin. destruct (wi_queued0 _ Hin) as (i & Hi & _). congruence.
      * intros id Hin. destruct (wi_stored0 _ _ Hin) as (i & Hi & _). congruence.
      * intros l Hin. destruct (wi_writes0 _ _ Hin) as [_ [i Hi]]. congruence.
      * exists item. done.
  - cbn. split; cbn; try done; [|lia|by left].
    intros p i Hi. specialize (wi_bound0 _ _ Hi). lia.
Qed.

(** The queue takes the new item over, at either end. *)
Lemma winv_enqueue X k p q' s :
  Inv (fun x => X x \/ x = p) k s -> fresh_item p s -> q' ≡ₚ p :: sendQueue s ->
  Inv X k (set_sendQueue q' s).
Proof.
  intros [] (Hq & Hst & Hw & i & Hi & Hlive & Hb) Hperm.
  split; cbn; try done.
  - intros id p' Hin. destruct (wi_stored0 id p' Hin) as (i' & ? & ? & ? & ?). exists i'.
    split_and!; try done. rewrite Hperm, not_elem_of_cons. split; [|done]. intros ->. by eapply Hst.
  - intros p'. rewrite Hperm. intros [->|Hin]%elem_of_cons; [by exists i|by apply wi_queued0].
  - rewrite Hperm. by constructor.
  - intros l p' Hin. destruct (wi_writes0 l p' Hin) as [Hn ?]. split; [|done].
    rewrite Hperm, not_elem_of_cons. split; [|done]. intros ->. by eapply Hw.
  - intros p' j Hj. rewrite Hperm, elem_of_cons. destruct (wi_owned0 p' j Hj) as [[?|?]|?]; naive_solver.
Qed.

Lemma triple_queue_add X k p E :
  triple (fun s => Inv (fun x => X x \/ x = p) k s /\ fresh_item p s) (queue_add p) (fun _ => Inv X k) E.
Proof.
  apply triple_modify. intros s [HI Hf]. apply (winv_enqueue X k p); [done..|].
  by rewrite Permutation_app_comm.
Qed.
Lemma triple_queue_insert X k p E :
  triple (fun s => Inv (fun x => X x \/ x = p) k s /\ fresh_item p s) (queue_insert p) (fun _ => Inv X k) E.
Proof. apply triple_modify. intros s [HI Hf]. by apply (winv_enqueue X k p). Qed.

(** An operation that may create one request. *)
Definition creates {A} (X : nat -> Prop) (k : Z) (m : stm VstConnection A) : Prop :=
  triple (Inv X k) m (fun _ => Inv X (k + 1)) (Inv anybody (k + 1)).

Lemma maintains_creates {A} X k (m : stm VstConnection A) : maintains X k m -> creates X k m.
Proof.
  intros Hm. eapply triple_conseq; [exact Hm|done|..]; cbn; intros;
    (eapply winv_weaken; [..|eassumption]; [done|lia]).
Qed.

Lemma creates_sendRequest X k r cb :
  k + 1 < 2 ^ 64 -> creates X k (sendRequest host hdr0 chunk0 conf r cb).
Proof.
  intros Hk. eapply triple_bind; [by apply triple_createRequestItem|]. intros p.
  eapply triple_bind; [apply triple_queue_add|]. intros ?.
  change (maintains X (k + 1) (s ← reads id; _ ← (if connected s then startWriting else skip);
    item ← get_item p; mret (ri_messageID item))).
  repeat maintains_step.
Qed.

Lemma creates_init_handler X k e : k + 1 < 2 ^ 64 -> creates X k (init_handler host hdr0 chunk0 conf e).
Proof.
  intros Hk. destruct e as [msg|]; cbn [init_handler].
  { apply maintains_creates. repeat maintains_step. }
  apply triple_bind with (R := fun _ => Inv X (k + 1)).
  - unfold insertAuthenticationRequests. destruct (_authenticationType conf).
    + apply triple_skip. intros s HI. eapply winv_weaken; [..|exact HI]; [done|lia].
    + eapply triple_bind; [by apply triple_createRequestItem|]. intros p. apply triple_queue_insert.
    + apply triple_lift; [done|]. intros s HI. eapply winv_weaken; [..|exact HI]; [done|lia].
  - intros []. change (maintains X (k + 1) (_ ← modify (set_connected true); _ ← startWriting; startReading)).
    repeat maintains_step.
Qed.

(** ** Handlers *)
Lemma maintains_connect_handlers X k e ends :
  maintains X k (resolve_handler e ends) /\ maintains X k (asyncConnectCallback conf e)
  /\ maintains X k (handshake_handler conf e).
Proof.
  unfold resolve_handler, initSocket, startConnect, asyncConnectCallback, handshake_handler,
    startSSLHandshake, finishInitialization, shutdownSocket.
  split_and!; repeat maintains_step.
Qed.

Lemma maintains_asyncReadCallback X k l e data :
  maintains X k (asyncReadCallback host chunk0 conf l e data).
Proof.
  unfold asyncReadCallback. repeat (first [apply maintains_chunks_loop | maintains_step]).
Qed.

Lemma triple_asyncWriteCallback X k l p e :
  triple (fun s => Inv X k s /\ (p ∉ sendQueue s)) (asyncWriteCallback l p e)
    (fun _ => Inv X k) (Inv anybody k).
Proof.
  eapply triple_bind with (R := fun _ s => Inv X k s /\ (p ∉ sendQueue s)); [by apply triple_modify|].
  intros _.
  assert (triple (fun s => Inv X k s /\ (p ∉ sendQueue s)) (get_item p)
    (fun i s => (Inv X k s /\ (p ∉ sendQueue s)) /\ items s !! p = Some i) (Inv anybody k)) as Hget.
  { apply triple_get. intros s0 s [-> Hs]. unfold lift, deref. by destruct (items s0 !! p) eqn:E. }
  destruct e as [msg|].
  - eapply triple_bind; [exact Hget|]. intros i.
    eapply triple_bind with (R := fun _ s => Inv (fun x => X x \/ x = p) k s /\ (p ∉ sendQueue s)
      /\ (forall id, (id, p) ∉ messageStore s)).
    { apply triple_modify. intros s [[HI Hq] Hi].
      destruct (winv_take _ _ _ _ _ _ _ _ p i HI Hi Hq). done. }
    intros _. eapply triple_bind; [apply triple_invoke_taken|]. intros ?.
    apply maintains_keeps. apply keeps_restart_from_WriteLoop.
  - eapply triple_bind; [exact Hget|]. intros i.
    eapply triple_bind with (R := fun _ => Inv X k); [|intros ?; apply maintains_sendNextRequest].
    apply triple_modify. intros s [[HI Hq] Hi]. by eapply winv_put.
Qed.

(** Every action keeps the invariant; each may create one request. *)
Lemma creates_perform X k a : k + 1 < 2 ^ 64 -> creates X k (perform host hdr0 chunk0 conf a).
Proof.
  intros Hk. destruct a as [r cb|n o]; cbn [perform].
  { eapply triple_bind; [by apply creates_sendRequest|]. intros ?. by apply triple_skip. }
  apply triple_get. intros s0. destruct (pending s0 !! n) as [h|] eqn:Hh.
  2: { apply triple_skip. intros s [-> HI]. eapply winv_weaken; [..|exact HI]; [done|lia]. }
  pose proof (list_elem_of_lookup_2 _ _ _ Hh) as Hin.
  eapply triple_bind with (R := fun _ s => Inv X k s /\ forall l p, h = HWrite l p -> p ∉ sendQueue s).
  { apply triple_modify. intros s [-> []]. split.
    - split; cbn; try done. intros l p Hd%list_elem_of_delete_inv. by eapply wi_writes0.
    - intros l p ->. by eapply wi_writes0. }
  intros _. assert (forall A (m : stm VstConnection A), maintains X k m ->
    triple (fun s => Inv X k s /\ forall l p, h = HWrite l p -> p ∉ sendQueue s) m
      (fun _ => Inv X (k + 1)) (Inv anybody (k + 1))) as Hm.
  { intros A m Hm. eapply triple_conseq; [by apply maintains_creates|naive_solver|done..]. }
  destruct (maintains_connect_handlers X k (out_error o) (out_endpoints o)) as (H1 & H2 & H3).
  destruct h; cbn [run_handler]; try (by apply Hm).
  - eapply triple_conseq; [by apply creates_init_handler|naive_solver|done..].
  - apply Hm, maintains_asyncReadCallback.
  - apply Hm. unfold ReadLoop_deadlineHandler. repeat maintains_step.
  - eapply triple_conseq; [apply (triple_asyncWriteCallback X k)| |cbn..]; [naive_solver| |];
      intros; (eapply winv_weaken; [..|eassumption]; [done|lia]).
  - apply Hm. unfold WriteLoop_deadlineHandler. repeat maintains_step.
Qed.

Lemma Inv_initial s : initial s -> Inv nobody 0 s.
Proof.
  intros [= <-]. split; cbn; try (intros; set_solver); try done.
  constructor.
Qed.

(** The invariant of the reachable states, as long as no exception has been
    thrown ([b]) and afterwards. *)
Lemma reaches_Inv b n s :
  reaches host hdr0 chunk0 conf b n s -> Z.of_nat n < 2 ^ 64 ->
  Inv (if b then nobody else anybody) (Z.of_nat n) s.
Proof.
  induction 1 as [s Hs|b n s a s' _ IH Ha|b n s a e s' _ IH Ha]; intros Hn; [by apply Inv_initial|..];
    (pose proof (creates_perform (if b then nobody else anybody) (Z.of_nat n) a ltac:(lia) s
      (IH ltac:(lia))) as Hp); rewrite Ha in Hp; by replace (Z.of_nat (S n)) with (Z.of_nat n + 1) by lia.
Qed.
End Invariant.
