(* ===== verification/VstReceive.v ===== *)
(** * Receiving on a VST connection

    From the bytes of the socket to the callback of a request: how
    [asyncReadCallback] cuts the stream into chunks ([chunks_loop_frames],
    [deliver_leaves]) and how [processChunk] turns the chunks of a response
    into the call of the callback ([process_message]). *)
From S2P Require Import Prelude StdMap Types Endian Chunk VPack Message HeaderCodec RequestItem MessageStore VstConnection.
Local Open Scope Z_scope.

Lemma for_each_app {S A} (f : A -> stm S unit) l1 l2 s :
  for_each f (l1 ++ l2) s = (for_each f l1 ≫= fun _ => for_each f l2) s.
Proof.
  revert s. induction l1 as [|x l1 IH]; intros s; [done|].
  cbn [for_each app]. unfold mbind, stm_bind in *. destruct (f x s) as [[[]|e|w] s']; [apply IH|done..].
Qed.

(** ** Framing *)
Section Framing.
Context {VP : VPack} {VB : VBuffer} `{StdSort ChunkHeader}.
Context (host : byte_order) (chunk0 : ChunkHeader) (conf : ConnectionConfiguration).
Local Abbreviation v := (_vstVersion conf).

(** A chunk header the protocol can carry, with its data. *)
Definition sendable (c : ChunkHeader) (d : list byte) : Prop :=
  chunk_in_range v c /\ buffer_size (_data c) = Z.of_nat (length d).

(** What is left of a stream of chunks that was cut anywhere. *)
Definition cut_chunk (tail : list byte) : Prop :=
  tail = [] \/ exists c d suf, sendable c d /\ wire_chunk v c d = tail ++ suf /\ suf <> [].

Lemma cut_chunk_incomplete tail :
  cut_chunk tail -> isChunkComplete host tail (Z.of_nat (length tail)) = Ok 0.
Proof.
  intros [->|(c & d & suf & [Hr Hd] & Heq & Hs)]; [done|].
  by eapply isChunkComplete_prefix.
Qed.

(** The memory behind a chunk does not matter. *)
Lemma processChunk_rest c d rest s :
  processChunk (received v chunk0 c d rest) s = processChunk (received v chunk0 c d []) s.
Proof.
  assert (forall i : RequestItem callback,
    addChunk (received v chunk0 c d rest) i = addChunk (received v chunk0 c d []) i) as Ha.
  { intros i. unfold addChunk. cbn [received _data]. by rewrite !buffer_bytes_exact. }
  unfold processChunk, mbind, stm_bind. cbn.
  destruct (store_findByID _ _); [|done]. unfold get_item, mbind, stm_bind. cbn.
  destruct (deref _ _); cbn; try done. by rewrite Ha.
Qed.

(** One chunk: processed, then removed from the receive buffer. *)
Definition deliver (loop : nat) (cd : ChunkHeader * list byte) : stm VstConnection unit :=
  _ ← processChunk (received v chunk0 cd.1 cd.2 []);
  consume loop (Z.of_nat (length (wire_chunk v cd.1 cd.2))).

Lemma chunks_loop_frames loop fuel cs ds tail s :
  Forall2 sendable cs ds -> cut_chunk tail -> (length cs <= fuel)%nat ->
  chunks_loop host chunk0 conf fuel loop (wire_message v cs ds ++ tail) s
  = for_each (deliver loop) (zip cs ds) s.
Proof.
  intros Hcs Htail. revert fuel s. induction Hcs as [|c d cs ds [Hr Hd] Hcs IH]; intros fuel s Hf.
  { cbn [wire_message zip_with concat app zip for_each]. pose proof (cut_chunk_incomplete tail Htail) as Hi.
    destruct fuel; cbn [chunks_loop]; rewrite Hi; reflexivity. }
  destruct fuel as [|fuel]; [cbn in Hf; lia|].
  unfold wire_message. cbn [zip_with concat]. rewrite <- (assoc_L (++)).
  fold (wire_message v cs ds). cbn [chunks_loop].
  rewrite (isChunkComplete_wire host v c d (wire_message v cs ds ++ tail) Hr Hd).
  rewrite (readChunkHeader_wire host v c d (wire_message v cs ds ++ tail) Hr Hd chunk0).
  pose proof (length_wire_chunk v c d) as Hl. pose proof (header_length_range v c) as Hhl.
  unfold mbind, stm_bind at 1. cbn [lift]. zbool. unfold stm_bind at 1. cbn [lift].
  assert (_chunkLength (received v chunk0 c d (wire_message v cs ds ++ tail))
    = Z.of_nat (length (wire_chunk v c d))) as -> by (cbn [received _chunkLength]; lia).
  rewrite Nat2Z.id, drop_app_length. unfold stm_bind. rewrite processChunk_rest.
  cbn [zip zip_with for_each]. unfold mbind, stm_bind.
  change (deliver loop (c, d) s) with ((_ ← processChunk (received v chunk0 c d []);
    consume loop (Z.of_nat (length (wire_chunk v c d)))) s). unfold mbind, stm_bind.
  destruct (processChunk _ s) as [[[]|e|w] s1]; [|done|done].
  destruct (consume _ _ s1) as [[[]|e|w] s2]; [|done|done].
  apply IH. cbn in Hf. lia.
Qed.

(** A read, up to the processing of the chunks that are complete. *)
Definition after_read (loop : nat) (l : ReadLoop) (s : VstConnection) : VstConnection :=
  set_readLoops (<[loop := l]> (readLoops s)) (set_async_calls (u64 (async_calls s - 1)) s).
Lemma asyncReadCallback_frames s loop sock st (have transferred tail : list byte) cs ds :
  readLoops s !! loop = Some (MkReadLoop sock have st) ->
  have ++ transferred = wire_message v cs ds ++ tail ->
  Forall2 sendable cs ds -> cut_chunk tail ->
  asyncReadCallback host chunk0 conf loop None transferred s
  = (_ ← for_each (deliver loop) (zip cs ds); readNextBytes loop) (after_read loop (MkReadLoop sock (have ++ transferred) st) s).
Proof.
  intros Hl Hdata Hcs Htail.
  unfold asyncReadCallback, count_async, mbind, stm_bind, reads, lift, deref, modify. cbn. rewrite Hl. cbn.
  change (set_readLoops _ _) with (after_read loop (MkReadLoop sock (have ++ transferred) st) s). rewrite Hdata.
  rewrite chunks_loop_frames; [done|done|done|].
  rewrite length_app. pose proof (Forall2_length _ _ _ Hcs) as Hlen.
  enough (length cs <= length (wire_message v cs ds))%nat by lia.
  clear -Hlen. revert ds Hlen. induction cs as [|c cs IH]; intros [|d ds] Hlen; cbn [length] in *; try lia.
  unfold wire_message. cbn [zip_with concat]. rewrite length_app.
  pose proof (length_wire_chunk v c d) as Hw. pose proof (header_length_range v c).
  specialize (IH ds ltac:(lia)). unfold wire_message in IH. lia.
Qed.

(** Processing a chunk leaves the read loops alone. *)
Lemma readLoops_processChunk rls c : keeps (fun s => readLoops s = rls) (processChunk c).
Proof.
  assert (forall f, (forall s, readLoops (f s) = readLoops s) ->
    keeps (fun s => readLoops s = rls) (modify f)) as Hm.
  { intros f Hf. apply keeps_modify. intros s <-. apply Hf. }
  unfold processChunk, invoke_item, get_item, put_item, run_callback, callback_body, onFailure, log.
  repeat (first [keeps_step | apply Hm; done | apply keeps_for_each; intros ?]).
Qed.

(** The receive buffer keeps what does not belong to the chunks delivered. *)
Lemma deliver_leaves loop cs ds tail sock st :
  length cs = length ds ->
  triple (fun s => readLoops s !! loop = Some (MkReadLoop sock (wire_message v cs ds ++ tail) st))
    (for_each (deliver loop) (zip cs ds))
    (fun _ s => readLoops s !! loop = Some (MkReadLoop sock tail st)) (fun _ => True).
Proof.
  revert ds. induction cs as [|c cs IH]; intros [|d ds] Hl; try done; cbn [zip zip_with for_each].
  { by apply triple_skip. }
  eapply triple_bind with (R := fun _ s =>
    readLoops s !! loop = Some (MkReadLoop sock (wire_message v cs ds ++ tail) st)).
  - intros s. unfold deliver. cbn [fst snd].
    change (wire_message v (c :: cs) (d :: ds)) with (wire_chunk v c d ++ wire_message v cs ds).
    rewrite <- (assoc_L (++)). generalize (wire_message v cs ds ++ tail) (wire_chunk v c d).
    intros rest w Hs. unfold mbind, stm_bind.
    pose proof (readLoops_processChunk (readLoops s) (received v chunk0 c d []) s eq_refl) as Hp.
    destruct (processChunk _ s) as [[[]|e|u] s1]; [|done|done].
    unfold consume, mbind, stm_bind, reads, lift, deref. cbn. rewrite Hp, Hs. cbn.
    rewrite list_lookup_insert_eq by by eapply lookup_lt_Some.
    by rewrite Nat2Z.id, drop_app_length.
  - intros []. apply IH. by injection Hl.
Qed.
End Framing.

(** ** A complete response *)
Section Delivery.
Context {VP : VPack} {VB : VBuffer} `{StdSortLaws ChunkHeader}.

Lemma addChunks_app {CB} cs1 cs2 (i : RequestItem CB) :
  addChunks (cs1 ++ cs2) i = (addChunks cs1 i ≫= addChunks cs2).
Proof.
  revert i. induction cs1 as [|c cs1 IH]; intros i; [done|]. cbn [addChunks app].
  destruct (addChunk c i); [apply IH|done..].
Qed.

(** [processChunk] with the item at hand. *)
Lemma processChunk_item c s p i i1 i2 o :
  store_findByID (_messageID c) (messageStore s) = Some p -> items s !! p = Some i ->
  addChunk c i = Ok i1 -> assemble i1 = Ok (i2, o) ->
  processChunk c s =
    match o with
    | None => (Ok (), set_items (<[p := i2]> (items s)) s)
    | Some buffer =>
        (response ← lift (createResponse i2 buffer); invoke_item 0 (Some response) p)
          (set_messageStore (store_removeByID (ri_messageID i2) (messageStore s))
            (set_items (<[p := i2]> (items s)) s))
    end.
Proof.
  intros Hp Hi H1 H2. unfold processChunk, get_item, mbind, stm_bind, reads, lift, deref. cbn.
  rewrite Hp. cbn. rewrite Hi. cbn. rewrite H1. cbn. rewrite H2. cbn. by destruct o.
Qed.

Section Message.
Context (p : nat) (i : RequestItem callback) (mid : Z) (s : VstConnection).
Context (ps : list (list byte)) (arrived : list (ChunkHeader * list byte)).
Hypothesis Hp : store_findByID mid (messageStore s) = Some p.
Hypothesis Hi : items s !! p = Some i.
Hypothesis Hfresh : fresh_response i.
Hypothesis Harr : message_arrives ps arrived.
Hypothesis Hid : Forall (fun a => _messageID a.1 = mid) arrived.

Lemma process_prefix k :
  (k < length arrived)%nat ->
  exists ik, addChunks (take k arrived).*1 i = Ok ik
    /\ for_each processChunk (take k arrived).*1 s = (Ok (), set_items (<[p := ik]> (items s)) s).
Proof.
  induction k as [|k IH]; intros Hk.
  { exists i. split; [done|]. cbn. rewrite list_insert_id by done. by destruct s. }
  destruct IH as (ik & Hik & Hs); [lia|].
  destruct (lookup_lt_is_Some_2 arrived k) as [a Ha]; [lia|].
  rewrite (take_S_r _ _ a) by done. rewrite fmap_app.
  destruct (assemble_early ps arrived (S k) i Harr Hfresh Hk) as (i' & Hi' & Has & _).
  rewrite (take_S_r _ _ a) in Hi' by done. rewrite fmap_app in Hi'.
  exists i'. split; [done|]. rewrite for_each_app. unfold mbind, stm_bind at 1. rewrite Hs. cbn [fmap list_fmap].
  rewrite addChunks_app, Hik in Hi'. cbn in Hi'. 
  destruct (addChunk a.1 ik) as [i1| |] eqn:H1; [|done|done]. cbn in Hi'. injection Hi' as ->.
  pose proof (proj1 (Forall_lookup _ _) Hid k a Ha) as Haid. cbn in Haid.
  cbn [for_each]. unfold mbind, stm_bind.
  rewrite (processChunk_item a.1 _ p ik i' i' None); [|by rewrite Haid| |done|done].
  - cbn. by rewrite list_insert_insert_eq.
  - cbn. apply list_lookup_insert_eq. by eapply lookup_lt_Some.
Qed.

(** Nothing is assembled before the last chunk; then the response is made of
    the message and given to the callback. *)
Lemma process_message :
  exists i2,
    i2 = set_response (_responseChunks i2) (_responseChunkContent i2) (_responseNumberOfChunks i2) i
    /\ for_each processChunk arrived.*1 s
       = (_ ← (response ← lift (createResponse i2 (concat ps)); invoke_item 0 (Some response) p); skip)
           (set_messageStore (store_removeByID (ri_messageID i) (messageStore s))
             (set_items (<[p := i2]> (items s)) s)).
Proof.
  pose proof (message_arrives_length _ _ Harr) as Hlen. pose proof Harr as (_ & _ & Hpos & _).
  set (k := (length arrived - 1)%nat).
  destruct (lookup_lt_is_Some_2 arrived k) as [a Ha]; [lia|].
  assert (arrived = take k arrived ++ [a]) as Hsplit.
  { rewrite <- (take_S_r _ _ a) by done. rewrite take_ge; [done|]. lia. }
  destruct (process_prefix k) as (ik & Hik & Hs); [lia|].
  destruct (assemble_complete ps arrived i Harr Hfresh) as (i1 & i2 & Hi1 & Has & Hi2).
  exists i2. split; [done|]. rewrite Hsplit, fmap_app in Hi1 |- *.
  rewrite for_each_app. unfold mbind, stm_bind at 1. rewrite Hs.
  rewrite addChunks_app, Hik in Hi1. cbn in Hi1.
  destruct (addChunk a.1 ik) as [i1'| |] eqn:H1; [|done|done]. cbn in Hi1. injection Hi1 as ->.
  pose proof (proj1 (Forall_lookup _ _) Hid k a Ha) as Haid. cbn in Haid.
  cbn [fmap list_fmap for_each]. unfold mbind at 1, stm_bind at 1.
  rewrite (processChunk_item a.1 _ p ik i1 i2 (Some (concat ps))); [|by rewrite Haid| |done|done].
  - cbn. rewrite list_insert_insert_eq. by rewrite Hi2.
  - cbn. apply list_lookup_insert_eq. by eapply lookup_lt_Some.
Qed.
End Message.
End Delivery.
