(* ===== verification/VstProperties.v ===== *)
(** * What the VST connection guarantees

    - requests: [callback_at_most_once], [no_request_lost];
    - framing: [read_framing], [response_delivered];
    - shutdown: [shutdown_answers_all];
    - defects: [send_after_restart_crashes], [tls_is_bypassed],
      [failed_connect_forgets_queue]. *)
From S2P Require Import Prelude StdMap Types Endian Chunk VPack ToyVPack Message HeaderCodec RequestItem MessageStore VstConnection VstInvariant VstReceive.
Local Open Scope Z_scope.

(** ** A concrete connection, for examples *)
Definition ex_conf : ConnectionConfiguration := {|
  _connType := TT_Vst; _ssl := false; _host := "localhost"; _port := "8529";
  _authenticationType := AT_None; _user := ""; _password := ""; _maxChunkSize := 5000;
  _vstVersion := VST1_1; _onFailure := None |}.
Definition ex_request : Request :=
  MkRequest (MkHeader None (Some MT_Request) None None (Some Get) (Some "/_api/version")
    None None None None None None None) 0 [] false true None false [] 0 30000.
Definition ex_chunk : ChunkHeader := MkChunk 0 0 0 0 empty_buffer 0 0.
Definition ex_ok : outcome := MkOutcome None ["127.0.0.1"] [].
Definition ex_perform : action -> stm VstConnection unit :=
  perform LittleEndianHost (le_bytes 24 0) ex_chunk ex_conf.

(** Running actions one after the other; [None] when one does not return. *)
Fixpoint ex_run (acts : list action) (s : VstConnection) : option VstConnection :=
  match acts with
  | [] => Some s
  | a :: acts => match ex_perform a s with (Ok (), s') => ex_run acts s' | _ => None end
  end.
Definition ex_start : VstConnection := set_pending [HResolve] new_VstConnection.
Definition ex_reaches : bool -> nat -> VstConnection -> Prop :=
  reaches LittleEndianHost (le_bytes 24 0) ex_chunk ex_conf.

Lemma ex_run_reaches acts s :
  ex_run acts ex_start = Some s -> ex_reaches true (length acts) s.
Proof.
  assert (forall b n s0, ex_reaches b n s0 -> forall s1, ex_run acts s0 = Some s1 ->
    ex_reaches b (n + length acts) s1) as Hr.
  { induction acts as [|a acts IH]; intros b n s0 Hs0 s1; cbn [ex_run length].
    - intros [= <-]. by rewrite Nat.add_0_r.
    - unfold ex_perform. destruct (perform _ _ _ _ a s0) as [[[]|e|w] s2] eqn:Ha; [|done|done].
      intros Hs1. rewrite <- Nat.add_succ_comm. apply (IH _ _ s2); [|done].
      by eapply reaches_returns. }
  apply (Hr true 0%nat). by apply reaches_initial.
Qed.

(** Connecting: resolve, connect, protocol header. *)
Definition ex_connect : list action := [AHandler 0 ex_ok; AHandler 0 ex_ok; AHandler 0 ex_ok].

(** ** Requests and their callbacks *)
Section Requests.
Context {VP : VPack} {VB : VBuffer} `{StdSort ChunkHeader}.
Context (host : byte_order) (hdr0 : list byte) (chunk0 : ChunkHeader) (conf : ConnectionConfiguration).

(** The callback of a request is called at most once, in whatever order
    requests are sent and operations complete, fail or time out, and also when
    a handler throws: the number of calls is 1 exactly when the request is
    marked as answered, and until then the request still has its callback.
    Message ids are never used twice. *)
Theorem callback_at_most_once (b : bool) (n : nat) (s : VstConnection) (p : nat)
    (i : RequestItem callback) :
  reaches host hdr0 chunk0 conf b n s -> Z.of_nat n < 2 ^ 64 -> items s !! p = Some i ->
  calls p (trace s) = (if _invoked (_callback i) then 1 else 0)%nat
  /\ (live i \/ done i)
  /\ (forall q j, items s !! q = Some j -> ri_messageID j = ri_messageID i -> q = p).
Proof.
  intros Hr Hn Hi. destruct (reaches_Inv _ _ _ _ _ _ _ Hr Hn). split_and!.
  - by rewrite wi_calls, Hi.
  - by eapply wi_items.
  - intros q j Hj Hid. by eapply wi_ids.
Qed.

(** C6: as long as no handler throws, no request is lost: every request that
    was accepted has had its callback called exactly once, or waits in the send
    queue or in the message store, in one of the two only. *)
Theorem no_request_lost (n : nat) (s : VstConnection) (p : nat) (i : RequestItem callback) :
  reaches host hdr0 chunk0 conf true n s -> Z.of_nat n < 2 ^ 64 -> items s !! p = Some i ->
  let queued := p ∈ sendQueue s in
  let stored := (ri_messageID i, p) ∈ messageStore s in
  (calls p (trace s) = 1%nat /\ ~ queued /\ ~ stored)
  \/ (calls p (trace s) = 0%nat /\ queued /\ ~ stored)
  \/ (calls p (trace s) = 0%nat /\ ~ queued /\ stored).
Proof.
  intros Hr Hn Hi queued stored. destruct (reaches_Inv _ _ _ _ _ _ _ Hr Hn).
  pose proof (wi_calls p) as Hc. rewrite Hi in Hc.
  assert (queued -> live i) as Hq.
  { intros Hin. destruct (wi_queued p Hin) as (i' & Hi' & ? & _). congruence. }
  assert (stored -> live i /\ ~ queued) as Hs.
  { intros Hin. destruct (wi_stored _ p Hin) as (i' & Hi' & _ & ? & ?). split; [congruence|done]. }
  unfold live, done in *.
  destruct (wi_owned p i Hi) as [[]|[Hd|[Hin|Hin]]].
  - left. rewrite Hd in Hc, Hq, Hs. split_and!; [done|naive_solver..].
  - right; left. destruct (Hq Hin) as (Hd & _). rewrite Hd in Hc. split_and!; [done..|naive_solver].
  - right; right. destruct (Hs Hin) as ((Hd & _) & ?). rewrite Hd in Hc. done.
Qed.
End Requests.

(** The state after sending a request on an open connection. *)
Definition ex_sent : VstConnection :=
  Eval vm_compute in default ex_start (ex_run (ex_connect ++ [ASend ex_request 5]) ex_start).
Lemma ex_sent_reached : ex_reaches true 4 ex_sent.
Proof. apply (ex_run_reaches (ex_connect ++ [ASend ex_request 5])). vm_compute. reflexivity. Qed.

Lemma callback_at_most_once_witness :
  exists i, items ex_sent !! 0%nat = Some i /\ calls 0 (trace ex_sent) = 0%nat
  /\ forall q j, items ex_sent !! q = Some j -> ri_messageID j = ri_messageID i -> q = 0%nat.
Proof.
  eexists. split; [reflexivity|].
  destruct (callback_at_most_once LittleEndianHost (le_bytes 24 0) ex_chunk ex_conf true 4 ex_sent 0 _
    ex_sent_reached ltac:(done) eq_refl) as (H1 & _ & H2).
  split; [exact H1|exact H2].
Defined.

Lemma no_request_lost_witness :
  exists i, items ex_sent !! 0%nat = Some i /\ (ri_messageID i, 0%nat) ∈ messageStore ex_sent.
Proof.
  eexists. split; [reflexivity|].
  destruct (no_request_lost LittleEndianHost (le_bytes 24 0) ex_chunk ex_conf 4 ex_sent 0 _
    ex_sent_reached ltac:(done) eq_refl) as [(H & _)|[(_ & H & _)|(_ & _ & H)]].
  - discriminate H.
  - by apply not_elem_of_nil in H.
  - exact H.
Defined.

(** ** Reading *)

(** Framing.  However the network cuts the stream of chunks, a read handles
    exactly the chunks that are complete by then, each once and in order: when
    the bytes kept from earlier reads and the new ones are the chunks [cs] and
    the beginning of another chunk, [asyncReadCallback] processes [cs], keeps
    precisely that beginning, and goes on reading. *)
Theorem read_framing {VP : VPack} {VB : VBuffer} `{StdSort ChunkHeader} (host : byte_order)
    (chunk0 : ChunkHeader) (conf : ConnectionConfiguration) (s : VstConnection) (loop : nat) sock st
    (have transferred tail : list byte) (cs : list ChunkHeader) (ds : list (list byte)) :
  readLoops s !! loop = Some (MkReadLoop sock have st) ->
  have ++ transferred = wire_message (_vstVersion conf) cs ds ++ tail ->
  Forall2 (sendable conf) cs ds -> cut_chunk conf tail ->
  exists s1,
    readLoops s1 !! loop = Some (MkReadLoop sock (have ++ transferred) st)
    /\ items s1 = items s /\ messageStore s1 = messageStore s /\ trace s1 = trace s
    /\ asyncReadCallback host chunk0 conf loop None transferred s
       = (_ ← for_each (deliver chunk0 conf loop) (zip cs ds); readNextBytes loop) s1
    /\ forall s2, for_each (deliver chunk0 conf loop) (zip cs ds) s1 = (Ok (), s2) ->
         readLoops s2 !! loop = Some (MkReadLoop sock tail st).
Proof.
  intros Hl Hdata Hcs Htail.
  assert (readLoops (after_read loop (MkReadLoop sock (have ++ transferred) st) s) !! loop
    = Some (MkReadLoop sock (have ++ transferred) st)) as Hs1.
  { apply list_lookup_insert_eq. by eapply lookup_lt_Some. }
  eexists. split; [exact Hs1|]. split_and!; [done..|by eapply asyncReadCallback_frames|].
  - intros s2 Hs2. pose proof (deliver_leaves chunk0 conf loop cs ds tail sock st
      (Forall2_length _ _ _ Hcs) (after_read loop (MkReadLoop sock (have ++ transferred) st) s)) as Hd. rewrite Hs2 in Hd. apply Hd. by rewrite Hs1, Hdata.
Qed.

(** A response is delivered.  When the chunks of a response message have
    arrived for a request in flight, in any order, the callback of the request
    is called exactly once, with no error, its own request, and a response that
    has the decoded header and, behind the header, the payload; the request
    leaves the message store, and nothing else happens. *)
Theorem response_delivered {VP : VPack} {VB : VBuffer} `{StdSortLaws ChunkHeader}
    (s : VstConnection) (p cb : nat) (i : RequestItem callback) (h : MessageHeader) (n : Z)
    (ps : list (list byte)) (arrived : list (ChunkHeader * list byte)) :
  map_wf (messageStore s) -> store_findByID (ri_messageID i) (messageStore s) = Some p ->
  items s !! p = Some i -> _callback i = MkCallOnce false (Some (UserCallback cb)) ->
  fresh_response i -> message_arrives ps arrived ->
  Forall (fun a => _messageID a.1 = ri_messageID i) arrived ->
  validateAndExtractMessageHeader 1 (concat ps) = Ok (h, n) ->
  let response := MkResponse (set_type (Some MT_Response) h) (ri_messageID i) (concat ps) (Some n) [] in
  exists s',
    for_each processChunk arrived.*1 s = (Ok (), s')
    /\ trace s' = trace s ++ [EvCallback p (MkEvent (UserCallback cb) 0 (_request i) (Some response))]
    /\ store_findByID (ri_messageID i) (messageStore s') = None
    /\ sendQueue s' = sendQueue s /\ pending s' = pending s.
Proof.
  intros Hwf Hp Hi Hcb Hf Ha Hid Hh response.
  destruct (process_message p i (ri_messageID i) s ps arrived Hp Hi Hf Ha Hid) as (i2 & Hi2 & ->).
  assert (_callback i2 = _callback i /\ _request i2 = _request i /\ ri_messageID i2 = ri_messageID i)
    as (Hc2 & Hr2 & Hm2) by by rewrite Hi2.
  unfold createResponse. rewrite Hh. unfold invoke_item, get_item, mbind, stm_bind, reads, lift, deref. cbn.
  rewrite list_lookup_insert_eq by by eapply lookup_lt_Some. cbn.
  unfold invokeOnError, invoke. rewrite Hc2, Hcb. cbn. eexists. split; [reflexivity|]. cbn. split_and!; try done.
  - unfold response. by rewrite Hr2, Hm2.
  - unfold store_findByID, store_removeByID. rewrite map_find_spec by by apply map_erase_wf.
    by rewrite map_erase_spec, lookup_delete_eq.
Qed.

(** A response of one chunk to the request of [ex_sent]. *)
Definition ex_reply : list byte := enc_array [enc_int 1; enc_int 2; enc_int 200].
Definition ex_arrived (data : list byte) : list (ChunkHeader * list byte) :=
  [(MkChunk 0 3 1 0 (MkBuffer data (Z.of_nat (length data))) 0 0, data)].
Lemma ex_arrives data : message_arrives [data] (ex_arrived data).
Proof.
  split_and!; [|done|cbn; lia|cbn; lia]. constructor; [|done]. cbn. split; [|lia].
  unfold buffer_bytes. cbn. rewrite bool_decide_true by lia. by rewrite Nat2Z.id, firstn_all.
Qed.

Lemma read_framing_witness :
  let d := le_bytes 3 500 in
  let c := MkChunk 0 3 7 3 (MkBuffer d 3) 0 0 in
  let s := set_readLoops [MkReadLoop (Some 0%nat) [Byte.x1b; Byte.x00] true] new_VstConnection in
  exists s1, asyncReadCallback LittleEndianHost ex_chunk ex_conf 0 None
      (drop 2 (wire_message VST1_1 [c] [d])) s
    = (_ ← for_each (deliver ex_chunk ex_conf 0) (zip [c] [d]); readNextBytes 0) s1.
Proof.
  intros d c s.
  destruct (read_framing LittleEndianHost ex_chunk ex_conf s 0 (Some 0%nat) true
    [Byte.x1b; Byte.x00] (drop 2 (wire_message VST1_1 [c] [d])) [] [c] [d]) as (s1 & _ & _ & _ & _ & H & _).
  - reflexivity.
  - reflexivity.
  - constructor; [|constructor]. split; [|reflexivity]. split; cbn; unfold header_length, maxChunkHeaderSize; cbn; lia.
  - left. reflexivity.
  - exists s1. exact H.
Defined.

Lemma response_delivered_witness :
  exists s' resp,
    for_each processChunk (ex_arrived ex_reply).*1 ex_sent = (Ok (), s')
    /\ exists req, trace s' = trace ex_sent ++ [EvCallback 0 (MkEvent (UserCallback 5) 0 req (Some resp))].
Proof.
  destruct (items ex_sent !! 0%nat) as [i|] eqn:Hi; [|discriminate Hi].
  vm_compute in Hi. injection Hi as Hi.
  destruct (validateAndExtractMessageHeader 1 (concat [ex_reply])) as [[h n]| |] eqn:Hh;
    [|vm_compute in Hh; discriminate Hh|vm_compute in Hh; discriminate Hh].
  destruct (response_delivered ex_sent 0 5 i h n [ex_reply] (ex_arrived ex_reply)) as (s' & H1 & H2 & _);
    try (rewrite <- Hi; reflexivity).
  - cbn. split; [set_solver|done].
  - rewrite <- Hi. split; reflexivity.
  - apply ex_arrives.
  - rewrite <- Hi. constructor; [reflexivity|constructor].
  - exact Hh.
  - eexists s', _. split; [exact H1|]. eexists. exact H2.
Defined.

(** ** Shutdown *)
Section Shutdown.
Context {VP : VPack} {VB : VBuffer} `{StdSort ChunkHeader}.

(** An item whose callback has been called. *)
Definition answered (p : nat) (s : VstConnection) : Prop :=
  exists i, items s !! p = Some i /\ done i.

(** The rest of an invocation does not touch the items. *)
Lemma items_run_callback its p call : keeps (fun s => items s = its) (run_callback p call).
Proof.
  assert (forall f, (forall s, items (f s) = items s) -> keeps (fun s => items s = its) (modify f)) as Hm.
  { intros f Hf. apply keeps_modify. intros s <-. apply Hf. }
  unfold run_callback, callback_body, onFailure, log. repeat (first [keeps_step | apply Hm; done]).
Qed.

(** What the store needs to know of the items it cancels. *)
#[export] Instance vst_CancelLaws : CancelLaws answered (fun _ : VstConnection => True).
Proof.
  assert (forall e p q s, p = q \/ answered q s ->
    match invoke_item e None p s with (Ok _, s') => answered q s' | _ => True end) as Hall.
  { intros e p q s Hq. unfold invoke_item, get_item, deref, mbind, stm_bind, reads, lift. cbn.
    destruct (items s !! p) as [i|] eqn:Hi; [|done]. cbn.
    destruct (invokeOnError e None i) as [[i' evs]| |] eqn:Hinv; [|done|done]. cbn.
    assert (done i') as Hd.
    { unfold invokeOnError, invoke in Hinv. inv_ok. destruct x as [c evs']. simplify_eq.
      unfold done. cbn. repeat case_match; simplify_eq; done. }
    pose proof (keeps_for_each (fun s' => items s' = <[p := i']> (items s)) (run_callback p) evs
      (fun call => items_run_callback _ p call) (set_items (<[p := i']> (items s)) s) eq_refl) as Hk.
    destruct (for_each _ _ _) as [[[]| |] s']; [|done|done]. unfold answered. rewrite Hk.
    destruct (decide (p = q)) as [->|Hne].
    - exists i'. split; [|done]. exact (list_lookup_insert_eq (items s) q i' (lookup_lt_Some _ _ _ Hi)).
    - destruct Hq as [?|(j & Hj & Hd')]; [done|]. exists j. split; [|done].
      etrans; [exact (list_lookup_insert_ne (items s) p q i' Hne)|done]. }
  split; [intros e p s _; specialize (Hall e p p s (or_introl eq_refl))
         |intros e p q s [_ Hq]; specialize (Hall e p q s (or_intror Hq))];
    cbn [item_invokeOnError VstItem] in *; by destruct (invoke_item e None p s) as [[]].
Qed.
End Shutdown.

(** C31: shutting a connection down, as every restart does first, answers every
    request that is in flight: afterwards the message store is empty and the
    callback of each request that was in it has been called exactly once.
    Requests that wait in the send queue are kept. *)
Theorem shutdown_answers_all {VP : VPack} {VB : VBuffer} `{StdSort ChunkHeader} (host : byte_order)
    (hdr0 : list byte) (chunk0 : ChunkHeader) (conf : ConnectionConfiguration) (b : bool) (n : nat)
    (s s' : VstConnection) (error : ErrorCondition) :
  reaches host hdr0 chunk0 conf b n s -> Z.of_nat n < 2 ^ 64 ->
  shutdownConnection error s = (Ok (), s') ->
  messageStore s' = [] /\ sendQueue s' = sendQueue s
  /\ forall id p, (id, p) ∈ messageStore s -> calls p (trace s') = 1%nat.
Proof.
  intros Hr Hn Hs.
  pose proof (keeps_shutdownConnection _ _ error s (reaches_Inv _ _ _ _ _ _ _ Hr Hn)) as HI.
  rewrite Hs in HI.
  set (s0 := set_socket None (set_sslSocket None (set_readLoop_current None (set_writeLoop_current None s)))).
  change ((m ← store_cancelAll (errorToInt error) (messageStore s); modify (set_messageStore m)) s0
    = (Ok (), s')) in Hs. unfold mbind, stm_bind in Hs.
  pose proof (store_cancelAll_done answered (fun _ => True) (errorToInt error) (messageStore s) s0 I) as Hc.
  assert (keeps (fun s1 => sendQueue s1 = sendQueue s) (store_cancelAll (errorToInt error) (messageStore s)))
    as Hq.
  { assert (forall f, (forall s1, sendQueue (f s1) = sendQueue s1) ->
      keeps (fun s1 => sendQueue s1 = sendQueue s) (modify f)) as Hm.
    { intros f Hf. apply keeps_modify. intros s1 <-. apply Hf. }
    apply keeps_store_cancelAll. intros p. cbn [item_invokeOnError VstItem].
    unfold invoke_item, get_item, put_item, run_callback, callback_body, onFailure, log.
    repeat (first [keeps_step | apply Hm; done | apply keeps_for_each; intros ?]). }
  specialize (Hq s0 eq_refl).
  destruct (store_cancelAll _ _ s0) as [[m| |] s1]; [|done|done].
  injection Hs as <-. destruct Hc as (_ & -> & Hdone). cbn in *. split_and!; [done|done|].
  intros id p Hin. destruct (Hdone id p Hin) as (i & Hi & Hd).
  destruct HI. specialize (wi_calls p). cbn in wi_calls. by rewrite wi_calls, Hi, Hd.
Qed.

Lemma shutdown_answers_all_witness :
  exists s', shutdownConnection VstReadError ex_sent = (Ok (), s') /\ calls 0 (trace s') = 1%nat.
Proof.
  eexists. split; [vm_compute; reflexivity|].
  eapply (shutdown_answers_all LittleEndianHost (le_bytes 24 0) ex_chunk ex_conf true 4 ex_sent _ VstReadError
    ex_sent_reached ltac:(done)); [vm_compute; reflexivity|left].
Defined.

(** ** Where data go *)
Section Tls.
Context {VP : VPack} {VB : VBuffer} `{StdSort ChunkHeader}.
Context (host : byte_order) (hdr0 : list byte) (chunk0 : ChunkHeader) (conf : ConnectionConfiguration).

Definition plain_event (e : event) : Prop :=
  match e with EvWrite (SslStream _) _ => False | _ => True end.
Definition plain (s : VstConnection) : Prop := Forall plain_event (trace s).

Lemma plain_log e : plain_event e -> keeps plain (log e).
Proof.
  intros He. apply keeps_modify. intros s Hs. apply Forall_app. split; [exact Hs|].
  by constructor.
Qed.
#[local] Hint Extern 1 (keeps _ (log _)) => apply plain_log; exact I : keeps.
#[local] Hint Extern 2 (keeps plain (modify _)) => apply keeps_modify; intros ? HI; exact HI : keeps.

Lemma plain_run_callback p c : keeps plain (run_callback p c).
Proof. unfold run_callback, callback_body, onFailure. repeat keeps_step. Qed.
#[local] Hint Resolve plain_run_callback : keeps.
Lemma plain_invoke_item e r p : keeps plain (invoke_item e r p).
Proof. unfold invoke_item, get_item, put_item. repeat keeps_step. Qed.
#[local] Hint Resolve plain_invoke_item : keeps.
Lemma plain_processChunk c : keeps plain (processChunk c).
Proof. unfold processChunk, get_item, put_item. repeat keeps_step. Qed.
#[local] Hint Resolve plain_processChunk : keeps.
Lemma plain_chunks_loop fuel l cur : keeps plain (chunks_loop host chunk0 conf fuel l cur).
Proof.
  revert cur. induction fuel as [|fuel IH]; intros cur; cbn [chunks_loop]; unfold consume;
    repeat (first [apply IH | keeps_step]).
Qed.
Lemma plain_readNextBytes l : keeps plain (readNextBytes l).
Proof. unfold readNextBytes, shouldStopReading, async, count_async. repeat keeps_step. Qed.
#[local] Hint Resolve plain_chunks_loop plain_readNextBytes : keeps.
Lemma plain_startReading : keeps plain startReading.
Proof. unfold startReading, ReadLoop_start. repeat keeps_step. Qed.
#[local] Hint Resolve plain_startReading : keeps.
Lemma plain_sendNextRequest l : keeps plain (sendNextRequest l).
Proof.
  unfold sendNextRequest, getNextRequestToSend, queue_removeFirst, get_item, async, count_async.
  repeat keeps_step.
Qed.
#[local] Hint Resolve plain_sendNextRequest : keeps.
Lemma plain_startWriting : keeps plain startWriting.
Proof. unfold startWriting, WriteLoop_start. repeat keeps_step. Qed.
Lemma plain_shutdownConnection e : keeps plain (shutdownConnection e).
Proof.
  unfold shutdownConnection, stopWriting, stopReading, shutdownSocket.
  repeat (first [apply keeps_store_cancelAll; intros; apply plain_invoke_item | keeps_step]).
Qed.
#[local] Hint Resolve plain_startWriting plain_shutdownConnection : keeps.
Lemma plain_restart l e :
  keeps plain (restart_from_ReadLoop l e) /\ keeps plain (restart_from_WriteLoop l e).
Proof.
  unfold restart_from_ReadLoop, restart_from_WriteLoop, restartConnection, startResolveHost, async.
  split; repeat keeps_step.
Qed.
Lemma plain_createRequestItem r cb : keeps plain (createRequestItem host hdr0 chunk0 conf r cb).
Proof. unfold createRequestItem. repeat keeps_step. Qed.
#[local] Hint Resolve plain_createRequestItem : keeps.

Lemma plain_perform a : keeps plain (perform host hdr0 chunk0 conf a).
Proof.
  destruct a as [r cb|n o]; cbn [perform].
  { unfold sendRequest, queue_add, get_item. repeat keeps_step. }
  repeat keeps_step.
  unfold run_handler, resolve_handler, initSocket, startConnect, asyncConnectCallback, handshake_handler,
    startSSLHandshake, finishInitialization, shutdownSocket, init_handler, insertAuthenticationRequests,
    queue_insert, asyncReadCallback, asyncWriteCallback, ReadLoop_deadlineHandler,
    WriteLoop_deadlineHandler, get_item, put_item, async, count_async, onFailure.
  repeat (first [apply plain_restart | keeps_step]).
Qed.
End Tls.

(** TLS is bypassed.  Whatever the configuration says, everything the
    connection ever writes goes to the TCP socket, never to the TLS stream that
    was set up on top of it. *)
Theorem tls_is_bypassed {VP : VPack} {VB : VBuffer} `{StdSort ChunkHeader} (host : byte_order)
    (hdr0 : list byte) (chunk0 : ChunkHeader) (conf : ConnectionConfiguration) (b : bool) (n : nat)
    (s : VstConnection) (to : stream) (data : list byte) :
  reaches host hdr0 chunk0 conf b n s -> EvWrite to data ∈ trace s -> exists sock, to = TcpStream sock.
Proof.
  intros Hr Hin. assert (plain s) as Hp.
  { revert Hr. apply reaches_keeps; [|apply plain_perform]. intros s0 [= <-]. constructor. }
  unfold plain in Hp. rewrite Forall_forall in Hp. specialize (Hp _ Hin).
  destruct to as [sock|sock]; [by exists sock|done].
Qed.

Lemma tls_is_bypassed_witness :
  exists sock, TcpStream 0 = TcpStream sock.
Proof.
  apply (tls_is_bypassed LittleEndianHost (le_bytes 24 0) ex_chunk ex_conf true 4 ex_sent (TcpStream 0)
    (String.list_byte_of_string vstHeader1_1) ex_sent_reached). left.
Defined.

(** ** Restart *)

(** Sending a request while the connection restarts crashes the program:
    the restart has dropped the socket but not the flag [_connected], so
    [sendRequest] starts a write loop that dereferences the null socket. *)
Theorem send_after_restart_crashes :
  exists n s w s', ex_reaches true n s /\ connected s = true /\ socket s = None
    /\ ex_perform (ASend ex_request 6) s = (Undef w, s').
Proof.
  destruct (ex_run (ex_connect ++ [ASend ex_request 5; AHandler 1 (MkOutcome (Some "reset") [] [])]) ex_start)
    as [s|] eqn:Hs; [|vm_compute in Hs; discriminate Hs].
  exists 5%nat, s. pose proof (ex_run_reaches _ _ Hs) as Hr.
  vm_compute in Hs. injection Hs as <-.
  eexists _, _. split; [exact Hr|]. split; [reflexivity|]. split; [reflexivity|].
  vm_compute. reflexivity.
Qed.

(** A failed connect forgets the queue.  When the connection cannot be
    established, the user is told of the failure, but nothing is done about the
    requests that wait to be sent: they stay queued, their callbacks have not
    been called, and no new operation is under way that would get to them. *)
Theorem failed_connect_forgets_queue {VP : VPack} {VB : VBuffer} `{StdSort ChunkHeader} (host : byte_order)
    (hdr0 : list byte) (chunk0 : ChunkHeader) (conf : ConnectionConfiguration) (b : bool) (n : nat)
    (s s' : VstConnection) (k : nat) (o : outcome) (msg : string) :
  reaches host hdr0 chunk0 conf b n s -> Z.of_nat n + 1 < 2 ^ 64 ->
  pending s !! k = Some HConnect -> out_error o = Some msg ->
  perform host hdr0 chunk0 conf (AHandler k o) s = (Ok (), s') ->
  sendQueue s' = sendQueue s /\ pending s' = delete k (pending s)
  /\ forall p, p ∈ sendQueue s -> calls p (trace s') = 0%nat.
Proof.
  intros Hr Hn Hk Ho Hs.
  pose proof (creates_perform host hdr0 chunk0 conf _ _ (AHandler k o) Hn s
    (reaches_Inv _ _ _ _ _ _ _ Hr ltac:(lia))) as HI.
  rewrite Hs in HI. unfold perform, mbind, stm_bind, reads, modify in Hs. cbn in Hs. rewrite Hk in Hs.
  cbn in Hs. rewrite Ho in Hs. set (s0 := set_pending _ _) in Hs.
  assert (keeps (fun s1 => sendQueue s1 = sendQueue s /\ pending s1 = delete k (pending s))
    (asyncConnectCallback conf (Some msg))) as Hq.
  { assert (forall f, (forall s1, sendQueue (f s1) = sendQueue s1 /\ pending (f s1) = pending s1) ->
      keeps (fun s1 => sendQueue s1 = sendQueue s /\ pending s1 = delete k (pending s)) (modify f)) as Hm.
    { intros f Hf. apply keeps_modify. intros s1 [<- <-]. apply Hf. }
    cbn [asyncConnectCallback]. unfold shutdownConnection, stopWriting, stopReading, shutdownSocket, onFailure, log.
    repeat (first [apply keeps_store_cancelAll; intros ? | keeps_step | by apply Hm]).
    cbn [item_invokeOnError VstItem].
    unfold invoke_item, get_item, put_item, run_callback, callback_body, onFailure, log.
    repeat (first [keeps_step | by apply Hm | apply keeps_for_each; intros ?]). }
  specialize (Hq s0 (conj eq_refl eq_refl)). rewrite Hs in Hq. destruct Hq as [Hq Hp].
  split_and!; [done|done|]. intros p Hin. rewrite <- Hq in Hin. destruct HI.
  destruct (wi_queued p Hin) as (i & Hi & (Hl & _) & _). specialize (wi_calls p).
  by rewrite wi_calls, Hi, Hl.
Qed.

(** A request sent while the connection is still being set up. *)
Definition ex_connecting : VstConnection :=
  Eval vm_compute in default ex_start (ex_run [ASend ex_request 5; AHandler 0 ex_ok] ex_start).
Lemma ex_connecting_reached : ex_reaches true 2 ex_connecting.
Proof. apply (ex_run_reaches [ASend ex_request 5; AHandler 0 ex_ok]). vm_compute. reflexivity. Qed.

Lemma failed_connect_forgets_queue_witness :
  exists s', ex_perform (AHandler 0 (MkOutcome (Some "refused") [] [])) ex_connecting = (Ok (), s')
    /\ sendQueue s' = [0%nat] /\ calls 0 (trace s') = 0%nat /\ pending s' = [].
Proof.
  set (s' := (ex_perform (AHandler 0 (MkOutcome (Some "refused") [] [])) ex_connecting).2).
  assert (ex_perform (AHandler 0 (MkOutcome (Some "refused") [] [])) ex_connecting = (Ok (), s')) as Hs'
    by (vm_compute; reflexivity).
  exists s'. split; [exact Hs'|].
  destruct (failed_connect_forgets_queue LittleEndianHost (le_bytes 24 0) ex_chunk ex_conf true 2
    ex_connecting s' 0 (MkOutcome (Some "refused") [] []) "refused" ex_connecting_reached ltac:(lia)
    eq_refl eq_refl Hs') as (H1 & H2 & H3).
  split; [exact H1|]. split; [apply (H3 0%nat); left|exact H2].
Defined.
