(* ===== verification/VstDeadline.v ===== *)
(** * The deadline of a read

    [shouldStopReading] and [readNextBytes] of src/VstConnection.cpp decide in every
    state whether a read loop goes on, and for how long it may wait. *)
From S2P Require Import Prelude StdMap Types Endian Chunk VPack ToyVPack Message HeaderCodec RequestItem MessageStore VstConnection VstInvariant VstReceive VstProperties.
Local Open Scope Z_scope.

Section Deadline.
Context {VP : VPack} {VB : VBuffer} `{StdSort ChunkHeader}.

(** A request that waits for its response, and its timeout. *)
Definition waits (s : VstConnection) (r : Request) : Prop :=
  exists id p i, (id, p) ∈ messageStore s /\ items s !! p = Some i /\ _request i = Some r.

Lemma item_timeout_Ok s p i r :
  items s !! p = Some i -> _request i = Some r -> item_timeout p s = Ok (_timeout r).
Proof. intros Hi Hr. cbn. unfold deref. by rewrite Hi; cbn; rewrite Hr. Qed.

Lemma minimumTimeout_spec X k s :
  Inv X k s ->
  exists t, store_minimumTimeout (messageStore s) s = Ok t /\ t <= 120000
    /\ (forall r, waits s r -> t <= _timeout r)
    /\ (t = 120000 \/ exists r, waits s r /\ _timeout r = t).
Proof.
  intros HI. destruct (min_loop_spec (messageStore s) s (2 * 60 * 1000)) as (t & Ht & Hle & Hall & Hex).
  { intros id p Hin. destruct (wi_stored _ _ _ _ _ _ _ _ HI id p Hin) as (i & Hi & _ & (_ & _ & [r Hr]) & _).
    exists (_timeout r). by apply item_timeout_Ok with i. }
  exists t. split_and!; [done|done|..].
  - intros r (id & p & i & Hin & Hi & Hr). apply (Hall id p); [done|].
    by apply item_timeout_Ok with i.
  - destruct Hex as [->|(id & p & Hin & Hp)]; [by left|right].
    destruct (wi_stored _ _ _ _ _ _ _ _ HI id p Hin) as (i & Hi & _ & (_ & _ & [r Hr]) & _).
    rewrite (item_timeout_Ok _ _ _ _ Hi Hr) in Hp. injection Hp as <-. exists r. split; [|done].
    by exists id, p, i.
Qed.

(** Nothing is left to read for. *)
Definition idle (loop : nat) (s : VstConnection) : Prop :=
  readLoop_current s <> Some loop \/ permanent_failure s = true
  \/ (messageStore s = [] /\ sendQueue s = []).
#[global] Instance idle_dec loop s : Decision (idle loop s).
Proof. unfold idle. solve_decision. Defined.

Lemma shouldStopReading_spec loop t s :
  store_minimumTimeout (messageStore s) s = Ok t ->
  if decide (idle loop s)
  then exists t' s', shouldStopReading loop s = (Ok (true, t'), s') /\ (s' = s \/ s' = set_readLoop_current None s)
  else shouldStopReading loop s = (Ok (false, t), s).
Proof.
  intros Ht. unfold shouldStopReading, mbind, stm_bind, reads, lift. cbn [id fst snd].
  destruct (decide (idle loop s)) as [Hd|Hd]; unfold idle in Hd.
  - destruct (decide (readLoop_current s = Some loop)) as [Hc|Hc];
      [rewrite (bool_decide_true _ Hc)|rewrite (bool_decide_false _ Hc); by eexists _, _; split; [|left]]. cbn [negb].
    destruct (permanent_failure s); [by eexists _, _; split; [|left]|].
    destruct Hd as [|[|[-> ->]]]; [done..|]. by eexists _, _; split; [|right].
  - rewrite bool_decide_true by (apply dec_stable; naive_solver). cbn [negb].
    destruct (permanent_failure s); [naive_solver|].
    assert (store_empty (messageStore s) && bool_decide (sendQueue s = []) = false) as ->; [|by rewrite Ht].
    apply not_true_is_false. intros [He Hq%bool_decide_eq_true]%andb_prop.
    apply Hd. right; right. split; [|done]. by destruct (messageStore s).
Qed.
End Deadline.

(** C23: the deadline of a read.  In every reachable state a read loop with a socket
    that is asked for more bytes either stops, with no operation started, because it
    is not the current loop, the connection has failed for good, or no request is
    queued or stored; or it starts a read together with a deadline.  The deadline is
    at most two minutes and at most the timeout of every request that waits for its
    response, and it is one of these. *)
Theorem read_deadline_bounds {VP : VPack} {VB : VBuffer} `{StdSort ChunkHeader} (host : byte_order)
    (hdr0 : list byte) (chunk0 : ChunkHeader) (conf : ConnectionConfiguration)
    (b : bool) (n : nat) (s : VstConnection) (loop : nat) (l : ReadLoop) :
  reaches host hdr0 chunk0 conf b n s -> Z.of_nat n < 2 ^ 64 ->
  readLoops s !! loop = Some l -> is_Some (rl_socket l) ->
  exists s', readNextBytes loop s = (Ok tt, s')
  /\ if decide (idle loop s) then pending s' = pending s
     else exists t, pending s' = pending s ++ [HReadDeadline loop t; HRead loop]
       /\ t <= 120000
       /\ (forall r, waits s r -> t <= _timeout r)
       /\ (t = 120000 \/ exists r, waits s r /\ _timeout r = t).
Proof.
  intros Hr Hn Hl [sock Hsock]. pose proof (reaches_Inv _ _ _ _ _ _ _ Hr Hn) as HI.
  destruct (minimumTimeout_spec _ _ _ HI) as (t & Ht & Hbounds).
  pose proof (shouldStopReading_spec loop t s Ht) as Hs. unfold readNextBytes.
  destruct (decide (idle loop s)).
  - destruct Hs as (t' & s' & Hs & Hp). exists s'. split; [|by destruct Hp as [-> | ->]].
    unfold mbind at 1, stm_bind. by rewrite Hs.
  - eexists. split.
    + unfold mbind at 1, stm_bind at 1. rewrite Hs.
      unfold mbind, stm_bind, async, count_async, modify, reads, lift, deref. cbn.
      rewrite Hl. cbn. rewrite Hsock. cbn. reflexivity.
    + exists t. split; [|done]. cbn. by rewrite <- (assoc_L (++)).
Qed.

(** After a request was sent on an open connection, its read loop is asked again. *)
Lemma read_deadline_bounds_witness :
  exists s' t, readNextBytes 1 ex_sent = (Ok tt, s')
  /\ pending s' = pending ex_sent ++ [HReadDeadline 1 t; HRead 1] /\ t <= 120000.
Proof.
  destruct (read_deadline_bounds LittleEndianHost (le_bytes 24 0) ex_chunk ex_conf true 4 ex_sent 1
    (MkReadLoop (Some 0%nat) [] true) ex_sent_reached ltac:(done) eq_refl ltac:(eexists; reflexivity)) as (s' & Hr & H).
  destruct (decide (idle 1 ex_sent)) as [Hd|Hd].
  - exfalso. destruct Hd as [Hd|[Hd|[Hd _]]]; [by apply Hd|discriminate Hd|discriminate Hd].
  - destruct H as (t & Hp & Hle & _). exists s', t. by split.
Defined.
