(* ===== verification/VstStream.v ===== *)
(** * Responses on the stream of a VST connection

    The receiving side as a whole: the responses of any number of requests, cut into
    chunks that arrive interleaved and out of order, on a stream that the network cuts
    anywhere.  [responses_over_stream]: each request is answered once, with its
    response. *)
From S2P Require Import Prelude StdMap Types Endian Chunk VPack ToyVPack Message HeaderCodec RequestItem MessageStore VstConnection VstInvariant VstReceive VstProperties VstDeadline.
Local Open Scope Z_scope.

Section Stream.
Context {VP : VPack} {VB : VBuffer} `{StdSortLaws ChunkHeader}.

(** A response that is expected: the request it answers, and the parts it is sent in. *)
Record incoming : Type := MkIncoming {
  in_item : nat;
  in_request : RequestItem callback;
  in_callback : nat;
  in_pieces : list (list byte);
  in_header : MessageHeader;
  in_offset : Z;
}.
Definition in_id (m : incoming) : Z := ri_messageID (in_request m).
Definition in_response (m : incoming) : Response :=
  MkResponse (set_type (Some MT_Response) (in_header m)) (in_id m) (concat (in_pieces m)) (Some (in_offset m)) [].
Definition in_event (m : incoming) : event :=
  EvCallback (in_item m) (MkEvent (UserCallback (in_callback m)) 0 (_request (in_request m)) (Some (in_response m))).

(** The chunks of a response among those that arrive. *)
Definition chunks_of (m : incoming) (arrived : list (ChunkHeader * list byte)) : list (ChunkHeader * list byte) :=
  filter (fun a => _messageID a.1 = in_id m) arrived.
Definition calls_of (p : nat) (t : list event) : list event := filter (fun e => is_call p e = true) t.

(** Its request waits in the store. *)
Record expected (s : VstConnection) (m : incoming) : Prop := {
  ex_stored : store_findByID (in_id m) (messageStore s) = Some (in_item m);
  ex_item : items s !! in_item m = Some (in_request m);
  ex_callback : _callback (in_request m) = MkCallOnce false (Some (UserCallback (in_callback m)));
  ex_fresh : fresh_response (in_request m);
  ex_decodes : validateAndExtractMessageHeader 1 (concat (in_pieces m)) = Ok (in_header m, in_offset m);
}.

Section Processing.
Context (s0 : VstConnection) (ms : list incoming) (arrived : list (ChunkHeader * list byte)).
Hypothesis Hexpected : Forall (expected s0) ms.
Hypothesis Hids : NoDup (map in_id ms).
Hypothesis Harrive : Forall (fun m => message_arrives (in_pieces m) (chunks_of m arrived)) ms.
Hypothesis Hknown : Forall (fun a => (exists m, m ∈ ms /\ _messageID a.1 = in_id m)
  \/ store_findByID (_messageID a.1) (messageStore s0) = None) arrived.

(** A request after the chunks [pre] have been processed. *)
Definition request_after (pre : list (ChunkHeader * list byte)) (s : VstConnection) (m : incoming) : Prop :=
  if decide (length (chunks_of m pre) = length (chunks_of m arrived))
  then store_findByID (in_id m) (messageStore s) = None
       /\ calls_of (in_item m) (trace s) = calls_of (in_item m) (trace s0) ++ [in_event m]
  else store_findByID (in_id m) (messageStore s) = Some (in_item m)
       /\ calls_of (in_item m) (trace s) = calls_of (in_item m) (trace s0)
       /\ exists i, items s !! in_item m = Some i /\ addChunks (chunks_of m pre).*1 (in_request m) = Ok i.
Record processed (pre : list (ChunkHeader * list byte)) (s : VstConnection) : Prop := {
  pr_store : map_wf (messageStore s);
  pr_unknown : forall id, store_findByID id (messageStore s0) = None -> store_findByID id (messageStore s) = None;
  pr_requests : forall m, m ∈ ms -> request_after pre s m;
  pr_others : forall p, (forall m, m ∈ ms -> p <> in_item m) -> calls_of p (trace s) = calls_of p (trace s0);
}.

(** Two responses go to different requests. *)
Lemma in_item_inj m m' : m ∈ ms -> m' ∈ ms -> in_id m = in_id m' -> m = m'.
Proof.
  intros [j Hj]%list_elem_of_lookup [j' Hj']%list_elem_of_lookup Heq.
  assert (j = j') as ->; [|congruence].
  eapply NoDup_lookup; [exact Hids|rewrite list_lookup_fmap, Hj; reflexivity|rewrite list_lookup_fmap, Hj'; cbn; by rewrite Heq].
Qed.
Lemma other_item m m' : m ∈ ms -> m' ∈ ms -> in_id m <> in_id m' -> in_item m <> in_item m'.
Proof.
  intros Hm Hm' Hne Heq. rewrite Forall_forall in Hexpected.
  pose proof (ex_item _ _ (Hexpected m Hm)) as H1. pose proof (ex_item _ _ (Hexpected m' Hm')) as H2.
  rewrite Heq, H2 in H1. injection H1 as H1. apply Hne. unfold in_id. by rewrite H1.
Qed.

Lemma chunks_of_snoc m pre a :
  chunks_of m (pre ++ [a]) = if decide (_messageID a.1 = in_id m) then chunks_of m pre ++ [a] else chunks_of m pre.
Proof.
  unfold chunks_of. rewrite filter_app, filter_cons. destruct (decide (_messageID a.1 = in_id m)); [done|]. by rewrite app_nil_r.
Qed.
Lemma chunks_of_split m pre a post :
  arrived = pre ++ a :: post -> _messageID a.1 = in_id m ->
  chunks_of m arrived = (chunks_of m pre ++ [a]) ++ chunks_of m post.
Proof.
  intros -> Hid. unfold chunks_of. rewrite filter_app, filter_cons_True by done. by rewrite <- (assoc_L (++)).
Qed.

(** The last chunk of a response: its callback is called. *)
Lemma process_last m a s i i1 i2 :
  expected s0 m -> map_wf (messageStore s) -> _messageID a = in_id m ->
  store_findByID (in_id m) (messageStore s) = Some (in_item m) -> items s !! in_item m = Some i ->
  addChunk a i = Ok i1 -> assemble i1 = Ok (i2, Some (concat (in_pieces m))) ->
  i2 = set_response (_responseChunks i2) (_responseChunkContent i2) (_responseNumberOfChunks i2) (in_request m) ->
  exists s', processChunk a s = (Ok (), s') /\ messageStore s' = store_removeByID (in_id m) (messageStore s)
    /\ (exists i3, items s' = <[in_item m := i3]> (items s)) /\ trace s' = trace s ++ [in_event m].
Proof.
  intros [_ _ Hcb _ Hdec] Hwf Hid Hst Hi Ha Has Hi2.
  assert (_callback i2 = _callback (in_request m) /\ _request i2 = _request (in_request m) /\ ri_messageID i2 = in_id m)
    as (Hc2 & Hr2 & Hm2) by by rewrite Hi2.
  rewrite (processChunk_item a s (in_item m) i i1 i2 (Some (concat (in_pieces m)))) by (rewrite ?Hid; done).
  unfold createResponse. rewrite Hdec. unfold invoke_item, get_item, mbind, stm_bind, reads, lift, deref. cbn.
  rewrite list_lookup_insert_eq by by eapply lookup_lt_Some. cbn.
  unfold invokeOnError, invoke. rewrite Hc2, Hcb. cbn. eexists. split; [reflexivity|]. cbn. rewrite Hm2. split_and!; [done| |].
  - rewrite list_insert_insert_eq. by eexists.
  - unfold in_event, in_response. by rewrite Hr2.
Qed.

Lemma find_removed id id' (st : MessageStore nat) :
  map_wf st -> store_findByID id (store_removeByID id' st) = if decide (id = id') then None else store_findByID id st.
Proof.
  intros Hwf. unfold store_findByID, store_removeByID. rewrite !map_find_spec by (try apply map_erase_wf; done).
  rewrite map_erase_spec by done. destruct (decide (id = id')) as [->|]; [apply lookup_delete_eq|by apply lookup_delete_ne].
Qed.
Lemma calls_of_event p t m : calls_of p (t ++ [in_event m]) = calls_of p t ++ (if decide (p = in_item m) then [in_event m] else []).
Proof.
  unfold calls_of. rewrite filter_app, filter_cons, filter_nil. cbn.
  destruct (decide (p = in_item m)); [by rewrite bool_decide_true|by rewrite bool_decide_false].
Qed.

(** Nothing changes for a request whose response the chunk is not part of. *)
Lemma request_after_other pre a s s' m :
  _messageID a.1 <> in_id m -> request_after pre s m ->
  store_findByID (in_id m) (messageStore s') = store_findByID (in_id m) (messageStore s) ->
  items s' !! in_item m = items s !! in_item m -> calls_of (in_item m) (trace s') = calls_of (in_item m) (trace s) ->
  request_after (pre ++ [a]) s' m.
Proof.
  intros Hne Hr Hst Hi Hc. unfold request_after in *. rewrite chunks_of_snoc, (decide_False (P := _messageID a.1 = _)) by done.
  rewrite Hst, Hc. destruct (decide _); [done|]. by rewrite Hi.
Qed.

Lemma process_step pre a post s :
  arrived = pre ++ a :: post -> processed pre s ->
  exists s', processChunk a.1 s = (Ok (), s') /\ processed (pre ++ [a]) s'.
Proof.
  intros Hsplit [Hwf Hun Hreq Hoth]. pose proof (proj1 (Forall_forall _ _) Hexpected) as Hexp.
  destruct (proj1 (Forall_forall _ _) Hknown a) as [(m & Hm & Hid)|Hnone]; [rewrite Hsplit; set_solver| |].
  2: { exists s. unfold processChunk, mbind, stm_bind, reads. cbn. rewrite (Hun _ Hnone). split; [done|]. split; [done..| |done].
       intros m Hm. apply (request_after_other pre a s); [|by apply Hreq|done..].
       intros Hid. rewrite Hid, (ex_stored _ _ (Hexp m Hm)) in Hnone. done. }
  pose proof (chunks_of_split _ _ _ _ Hsplit Hid) as Hch. pose proof (Hexp m Hm) as Hex.
  pose proof (Hreq m Hm) as Hrm. unfold request_after in Hrm.
  rewrite decide_False in Hrm by (rewrite Hch, !length_app; cbn; lia). destruct Hrm as (Hst & Hcalls & i & Hi & Hadd).
  pose proof (proj1 (Forall_forall _ _) Harrive m Hm) as Harr. set (n := length (chunks_of m pre)) in *.
  assert (length (chunks_of m arrived) = S n + length (chunks_of m post))%nat as Hlen by (rewrite Hch, !length_app; cbn; lia).
  assert (take (S n) (chunks_of m arrived) = chunks_of m pre ++ [a]) as Htake.
  { rewrite Hch. apply take_app_length'. rewrite length_app. cbn. unfold n. lia. }
  assert (exists s', processChunk a.1 s = (Ok (), s') /\ map_wf (messageStore s')
    /\ (forall id, id <> in_id m -> store_findByID id (messageStore s') = store_findByID id (messageStore s))
    /\ (forall id, store_findByID id (messageStore s) = None -> store_findByID id (messageStore s') = None)
    /\ (exists i', items s' = <[in_item m := i']> (items s))
    /\ (forall p, p <> in_item m -> calls_of p (trace s') = calls_of p (trace s))
    /\ request_after (pre ++ [a]) s' m) as (s' & Hs' & Hwf' & Hst' & Hun' & [i' Hi'] & Hcalls' & Hreq').
  2: { exists s'. split; [done|]. split; [done|intros id ?; by apply Hun', Hun| |].
       2: { intros p Hp. rewrite Hcalls' by by apply Hp. by apply Hoth. }
       intros m' Hm'.
       destruct (decide (in_id m' = in_id m)) as [Heq|Hne]; [by rewrite (in_item_inj m' m)|].
       pose proof (other_item m' m Hm' Hm Hne) as Hne'.
       apply (request_after_other pre a s); [by rewrite Hid; apply not_eq_sym|by apply Hreq|by apply Hst'| |by apply Hcalls'].
       rewrite Hi'. by apply list_lookup_insert_ne. }
  destruct (decide (length (chunks_of m post) = 0%nat)) as [Hp|Hp].
  - destruct (assemble_complete (in_pieces m) (chunks_of m arrived) (in_request m) Harr (ex_fresh _ _ Hex)) as (i1 & i2 & Hi1 & Has & Hi2).
    rewrite <- (take_ge (chunks_of m arrived) (S n)), Htake, fmap_app, addChunks_app, Hadd in Hi1 by lia. cbn in Hi1.
    destruct (addChunk a.1 i) as [i1'| |] eqn:Ha; [|done..]. injection Hi1 as ->.
    destruct (process_last m a.1 s i i1 i2) as (s' & Hs' & Hms & Hits & Htr); [done..|].
    exists s'. split; [done|]. rewrite Hms. split_and!.
    + by apply map_erase_wf.
    + intros id Hne. by rewrite find_removed, decide_False.
    + intros id Hnone. rewrite find_removed by done. by destruct (decide _).
    + done.
    + intros p Hne. by rewrite Htr, calls_of_event, decide_False, app_nil_r.
    + unfold request_after. rewrite chunks_of_snoc, (decide_True (P := _messageID a.1 = _)) by done.
      rewrite decide_True by (rewrite length_app; cbn; unfold n in *; lia).
      rewrite Hms, find_removed, decide_True by done. by rewrite Htr, calls_of_event, decide_True, Hcalls.
  - destruct (assemble_early (in_pieces m) (chunks_of m arrived) (S n) (in_request m) Harr (ex_fresh _ _ Hex)) as (i1 & Hi1 & Has & _); [lia|].
    rewrite Htake, fmap_app, addChunks_app, Hadd in Hi1. cbn in Hi1.
    destruct (addChunk a.1 i) as [i1'| |] eqn:Ha; [|done..]. injection Hi1 as ->.
    exists (set_items (<[in_item m := i1]> (items s)) s).
    split; [by apply (processChunk_item a.1 s (in_item m) i i1 i1 None); [rewrite Hid|..]|].
    cbn. split_and!; [done..|by eexists|done|]. unfold request_after. rewrite chunks_of_snoc, (decide_True (P := _messageID a.1 = _)) by done.
    rewrite decide_False by (rewrite length_app; cbn; unfold n in *; lia). cbn. split_and!; [done..|].
    exists i1. split; [apply list_lookup_insert_eq; by eapply lookup_lt_Some|]. rewrite fmap_app, addChunks_app, Hadd. cbn. by rewrite Ha.
Qed.
End Processing.

(** ** Reading *)
Section Reading.
Context (host : byte_order) (chunk0 : ChunkHeader) (conf : ConnectionConfiguration).
Local Abbreviation v := (_vstVersion conf).

(** Chunks as the server sends them, and as they are read. *)
Definition wire_stream (sent : list (ChunkHeader * list byte)) : list byte := wire_message v sent.*1 sent.*2.
Definition read_chunk (a : ChunkHeader * list byte) : ChunkHeader * list byte := (received v chunk0 a.1 a.2 [], a.2).
Definition sendable_chunk (a : ChunkHeader * list byte) : Prop := sendable conf a.1 a.2.

Lemma wire_stream_cons a sent : wire_stream (a :: sent) = wire_chunk v a.1 a.2 ++ wire_stream sent.
Proof. done. Qed.
Lemma wire_stream_split sent : Forall sendable_chunk sent -> Forall2 (sendable conf) sent.*1 sent.*2.
Proof. induction 1; by constructor. Qed.
Lemma chunks_of_read m sent : chunks_of m (map read_chunk sent) = map read_chunk (chunks_of m sent).
Proof.
  unfold chunks_of. induction sent as [|a sent IH]; [done|]. cbn [map]. rewrite !filter_cons, IH. cbn.
  by destruct (decide (_messageID a.1 = in_id m)).
Qed.
Lemma message_arrives_read ps sent : message_arrives ps sent -> message_arrives ps (map read_chunk sent).
Proof.
  intros (Ha & Hp & Hlen). split; [|split; [|done]].
  - apply Forall_fmap, Forall_true. intros a. cbn. split; [apply buffer_bytes_exact|lia].
  - rewrite <- Hp. by rewrite map_map.
Qed.

(** Wherever the stream is cut, the bytes before are chunks and the beginning of one. *)
Lemma cut_stream sent x y :
  Forall sendable_chunk sent -> x ++ y = wire_stream sent ->
  exists sent1 sent2 tail, sent = sent1 ++ sent2 /\ x = wire_stream sent1 ++ tail /\ cut_chunk conf tail
    /\ tail ++ y = wire_stream sent2.
Proof.
  intros Hs. revert x. induction Hs as [|a sent Ha Hs IH]; intros x Hxy.
  { exists [], [], []. apply app_eq_nil in Hxy as [-> ->]. by split_and!; [..|left|]. }
  rewrite wire_stream_cons in Hxy. apply app_eq_app in Hxy as (l & [[-> Hy]|[Heq ->]]).
  - destruct (IH l) as (sent1 & sent2 & tail & -> & -> & Hcut & Hrest); [done|].
    exists (a :: sent1), sent2, tail. rewrite wire_stream_cons, <- (assoc_L (++)). done.
  - destruct l as [|z l].
    + rewrite app_nil_r in Heq. exists [a], sent, []. split_and!; [done| |by left|done].
      rewrite wire_stream_cons, <- Heq. by rewrite !app_nil_r.
    + exists [], (a :: sent), x. split_and!; [done..| |].
      * right. exists a.1, a.2, (z :: l). by split_and!.
      * rewrite wire_stream_cons, Heq. by rewrite <- (assoc_L (++)).
Qed.
(** What is left of a stream that has been read to its end. *)
Lemma cut_whole sent : Forall sendable_chunk sent -> cut_chunk conf (wire_stream sent) -> sent = [].
Proof.
  intros Hs Hcut. destruct sent as [|a sent]; [done|]. exfalso. apply Forall_cons in Hs as [[Hr Hd] _].
  pose proof (cut_chunk_incomplete host conf _ Hcut) as H1.
  pose proof (isChunkComplete_wire host v a.1 a.2 (wire_stream sent) Hr Hd) as H2.
  rewrite wire_stream_cons in H1. rewrite H1 in H2. injection H2 as H2.
  pose proof (length_wire_chunk v a.1 a.2). pose proof (header_length_range v a.1). lia.
Qed.

(** The loop goes on reading, which changes nothing else. *)
Lemma readNextBytes_Ok X k loop sock buf st s :
  Inv X k s -> readLoops s !! loop = Some (MkReadLoop (Some sock) buf st) ->
  exists s', readNextBytes loop s = (Ok (), s') /\ items s' = items s /\ messageStore s' = messageStore s
    /\ trace s' = trace s /\ readLoops s' = readLoops s.
Proof.
  intros HI Hl. destruct (minimumTimeout_spec _ _ _ HI) as (t & Ht & _).
  pose proof (shouldStopReading_spec loop t s Ht) as Hs. unfold readNextBytes.
  destruct (decide (idle loop s)).
  - destruct Hs as (t' & s' & Hs & Hp). exists s'. unfold mbind at 1, stm_bind. rewrite Hs.
    by destruct Hp as [-> | ->].
  - eexists. split; [unfold mbind at 1, stm_bind at 1; rewrite Hs|].
    + unfold mbind, stm_bind, async, count_async, modify, reads, lift, deref. cbn. rewrite Hl. cbn. reflexivity.
    + done.
Qed.
Lemma maintains_deliver X k loop cds : maintains X k (for_each (deliver chunk0 conf loop) cds).
Proof.
  induction cds as [|cd cds IH]; [by apply maintains_keeps, keeps_skip|]. cbn [for_each]. apply maintains_bind; [|intros; exact IH].
  apply maintains_bind; [apply maintains_processChunk|intros; apply maintains_keeps, keeps_consume].
Qed.

Section Segments.
Context (s0 : VstConnection) (ms : list incoming) (sent : list (ChunkHeader * list byte)).
Context (X : nat -> Prop) (k : Z) (loop sock : nat) (st : bool).
Local Abbreviation arrived := (map read_chunk sent).
Hypothesis Hexpected : Forall (expected s0) ms.
Hypothesis Hids : NoDup (map in_id ms).
Hypothesis Harrive : Forall (fun m => message_arrives (in_pieces m) (chunks_of m sent)) ms.
Hypothesis Hknown : Forall (fun a => (exists m, m ∈ ms /\ _messageID a.1 = in_id m)
  \/ store_findByID (_messageID a.1) (messageStore s0) = None) sent.
Hypothesis Hsendable : Forall sendable_chunk sent.

(** The connection when the chunks [pre] have been processed and [tail] is left. *)
Record reading (pre : list (ChunkHeader * list byte)) (tail : list byte) (s : VstConnection) : Prop := {
  rd_processed : processed s0 ms arrived (map read_chunk pre) s;
  rd_Inv : Inv X k s;
  rd_loop : readLoops s !! loop = Some (MkReadLoop (Some sock) tail st);
}.

Lemma deliver_chunks pre batch post s :
  sent = pre ++ batch ++ post -> processed s0 ms arrived (map read_chunk pre) s -> is_Some (readLoops s !! loop) ->
  exists s', for_each (deliver chunk0 conf loop) batch s = (Ok (), s')
    /\ processed s0 ms arrived (map read_chunk (pre ++ batch)) s'.
Proof.
  revert pre s. induction batch as [|a batch IH]; intros pre s Hsplit Hp Hl.
  { exists s. by rewrite app_nil_r. }
  destruct (process_step s0 ms arrived Hexpected Hids) with (pre := map read_chunk pre) (a := read_chunk a)
    (post := map read_chunk (batch ++ post)) (s := s) as (s1 & Hs1 & Hp1).
  - eapply Forall_impl; [exact Harrive|]. intros m Hm. cbn in *. rewrite chunks_of_read. by apply message_arrives_read.
  - apply Forall_fmap. exact Hknown.
  - rewrite Hsplit, map_app. done.
  - done.
  - pose proof (readLoops_processChunk (readLoops s) (read_chunk a).1 s eq_refl) as Hkeep. rewrite Hs1 in Hkeep.
    destruct Hl as [l Hl]. destruct (IH (pre ++ [a])) with (s := set_readLoops (<[loop := MkReadLoop (rl_socket l)
      (drop (Z.to_nat (Z.of_nat (length (wire_chunk v a.1 a.2)))) (rl_receiveBuffer l)) (rl_started l)]> (readLoops s1)) s1)
      as (s' & Hs' & Hp').
    + by rewrite Hsplit, <- (assoc_L (++)).
    + rewrite map_app. by destruct Hp1.
    + cbn. rewrite Hkeep. apply lookup_lt_is_Some_2. rewrite length_insert. by eapply lookup_lt_Some.
    + exists s'. split; [|by rewrite <- (assoc_L (++)) in Hp']. cbn [for_each]. unfold mbind at 1, stm_bind at 1.
      unfold deliver at 1. unfold mbind at 1, stm_bind at 1. change (received v chunk0 a.1 a.2 []) with (read_chunk a).1. rewrite Hs1.
      unfold consume, mbind, stm_bind, reads, lift, deref. cbn. rewrite Hkeep, Hl. cbn. rewrite Hkeep in Hs'. exact Hs'.
Qed.

Lemma read_segment pre todo tail seg rest s :
  sent = pre ++ todo -> tail ++ seg ++ rest = wire_stream todo -> reading pre tail s ->
  exists s' batch todo' tail', asyncReadCallback host chunk0 conf loop None seg s = (Ok (), s')
    /\ todo = batch ++ todo' /\ tail' ++ rest = wire_stream todo' /\ cut_chunk conf tail' /\ reading (pre ++ batch) tail' s'.
Proof.
  intros Hsplit Hdata [Hp HI Hl].
  assert (Forall sendable_chunk todo) as Htodo by by (rewrite Hsplit in Hsendable; apply Forall_app in Hsendable as [_ ?]).
  rewrite (assoc_L (++)) in Hdata. destruct (cut_stream _ _ _ Htodo Hdata) as (batch & todo' & tail' & -> & Hx & Hcut & Hrest).
  apply Forall_app in Htodo as [Hbatch _].
  set (s1 := after_read loop (MkReadLoop (Some sock) (tail ++ seg) st) s).
  assert (readLoops s1 !! loop = Some (MkReadLoop (Some sock) (tail ++ seg) st)) as Hl1.
  { apply list_lookup_insert_eq. by eapply lookup_lt_Some. }
  destruct (deliver_chunks pre batch todo' s1) as (s2 & Hs2 & Hp2); [done|by destruct Hp|by rewrite Hl1|].
  assert (zip batch.*1 batch.*2 = batch) as Hzip by apply zip_fst_snd.
  pose proof (deliver_leaves chunk0 conf loop batch.*1 batch.*2 tail' (Some sock) st ltac:(by rewrite !length_fmap) s1) as Hl2.
  rewrite Hzip, Hs2 in Hl2. specialize (Hl2 ltac:(rewrite Hl1, Hx; done)).
  pose proof (maintains_deliver X k loop batch s1) as HI2. rewrite Hs2 in HI2. specialize (HI2 HI).
  destruct (readNextBytes_Ok _ _ _ _ _ _ _ HI2 Hl2) as (s' & Hs' & Hit & Hms & Htr & Hrl).
  exists s', batch, todo', tail'. split_and!; [|done..|].
  - rewrite (asyncReadCallback_frames host chunk0 conf s loop (Some sock) st tail seg tail' batch.*1 batch.*2); [|done..|by apply wire_stream_split|done].
    rewrite Hzip. unfold mbind, stm_bind. fold s1. by rewrite Hs2.
  - split; [|pose proof (keeps_readNextBytes X k loop s2 HI2) as HI'; by rewrite Hs' in HI'|by rewrite Hrl].
    destruct Hp2 as [H1 H2 H3 H4]. split; [by rewrite Hms|intros id ?; rewrite Hms; by apply H2| |by rewrite Htr]. intros m Hm.
    specialize (H3 m Hm). unfold request_after in *. by rewrite Hms, Hit, Htr.
Qed.
Lemma read_segments segs pre todo tail s :
  sent = pre ++ todo -> tail ++ concat segs = wire_stream todo -> cut_chunk conf tail -> reading pre tail s ->
  exists s', for_each (fun seg => asyncReadCallback host chunk0 conf loop None seg) segs s = (Ok (), s') /\ reading sent [] s'.
Proof.
  revert pre todo tail s. induction segs as [|seg segs IH]; intros pre todo tail s Hsplit Hdata Hcut Hr.
  - cbn in Hdata. rewrite app_nil_r in Hdata. subst tail. exists s. split; [done|].
    assert (todo = []) as ->; [|rewrite app_nil_r in Hsplit; by subst pre].
    apply cut_whole; [|done]. rewrite Hsplit in Hsendable. by apply Forall_app in Hsendable as [_ ?].
  - destruct (read_segment pre todo tail seg (concat segs) s Hsplit Hdata Hr)
      as (s1 & batch & todo' & tail' & Hs1 & -> & Hrest & Hcut' & Hr1).
    destruct (IH (pre ++ batch) todo' tail' s1) as (s' & Hs' & Hr'); [by rewrite <- (assoc_L (++))|done..|].
    exists s'. split; [|done]. cbn [for_each]. unfold mbind, stm_bind. by rewrite Hs1.
Qed.
End Segments.
End Reading.
End Stream.

(** C8: the responses to any number of requests arrive.  In a reachable state, requests
    with the callbacks of users wait in the store for their responses [ms].  The stream
    [sent] holds the chunks of these responses, in any order and interleaved, and chunks
    that no request waits for; and the network cuts it anywhere, into reads [segs] that
    complete one after the other ([have] is what has been read of the first chunk
    before).  Then every read is handled without an exception, and in the end the
    callback of every request has been called exactly once, with no error, its own
    request and its decoded response; the request has left the store, the
    callbacks of other requests have not been called, and no byte is left over. *)
Theorem responses_over_stream {VP : VPack} {VB : VBuffer} `{StdSortLaws ChunkHeader} (host : byte_order)
    (hdr0 : list byte) (chunk0 : ChunkHeader) (conf : ConnectionConfiguration)
    (b : bool) (n : nat) (s : VstConnection) (loop sock : nat) (st : bool) (have : list byte) (segs : list (list byte))
    (ms : list incoming) (sent : list (ChunkHeader * list byte)) :
  reaches host hdr0 chunk0 conf b n s -> Z.of_nat n < 2 ^ 64 ->
  readLoops s !! loop = Some (MkReadLoop (Some sock) have st) -> cut_chunk conf have ->
  Forall (expected s) ms -> NoDup (map in_id ms) ->
  Forall (fun m => message_arrives (in_pieces m) (chunks_of m sent)) ms ->
  Forall (fun a => (exists m, m ∈ ms /\ _messageID a.1 = in_id m)
    \/ store_findByID (_messageID a.1) (messageStore s) = None) sent ->
  Forall (sendable_chunk conf) sent ->
  have ++ concat segs = wire_stream conf sent ->
  exists s',
    for_each (fun seg => asyncReadCallback host chunk0 conf loop None seg) segs s = (Ok (), s')
    /\ (forall m, m ∈ ms -> calls_of (in_item m) (trace s') = calls_of (in_item m) (trace s) ++ [in_event m]
          /\ store_findByID (in_id m) (messageStore s') = None)
    /\ (forall p, (forall m, m ∈ ms -> p <> in_item m) -> calls_of p (trace s') = calls_of p (trace s))
    /\ readLoops s' !! loop = Some (MkReadLoop (Some sock) [] st).
Proof.
  intros Hr Hn Hl Hcut Hexp Hids Harr Hknown Hsend Hdata. pose proof (reaches_Inv _ _ _ _ _ _ _ Hr Hn) as HI.
  destruct (read_segments host chunk0 conf s ms sent (if b then nobody else anybody) (Z.of_nat n) loop sock st
    Hexp Hids Harr Hknown Hsend segs [] sent have s) as (s' & Hs' & [[_ _ Hp Hoth] _ Hl']); [done..| |].
  - split; [|done|done]. split; [apply (wi_store _ _ _ _ _ _ _ _ HI)|done| |done]. intros m Hm.
    rewrite Forall_forall in Hexp. rewrite Forall_forall in Harr. destruct (Hexp m Hm) as [H1 H2 _ _ _].
    unfold request_after. rewrite decide_False; [split_and!; [done..|by exists (in_request m)]|].
    rewrite !chunks_of_read, !length_map, (message_arrives_length _ _ (Harr m Hm)).
    destruct (Harr m Hm) as (_ & _ & Hpos & _). cbn. lia.
  - exists s'. split; [done|]. split; [|done]. intros m Hm. specialize (Hp m Hm). unfold request_after in Hp.
    rewrite decide_True in Hp by done. by destruct Hp.
Qed.

(** ** A concrete run *)

(** Two requests have been sent. *)
Definition two_sent : list action := ex_connect ++ [ASend ex_request 5; ASend ex_request 6; AHandler 3 ex_ok].
Definition ex_two : VstConnection := Eval vm_compute in default ex_start (ex_run two_sent ex_start).
Lemma ex_two_reached : ex_reaches true 6 ex_two.
Proof. apply (ex_run_reaches two_sent). vm_compute. reflexivity. Qed.

(** The first response comes in two chunks, the second one first; the one of the second
    request between them. *)
Definition ex_incoming (p cb : nat) (pieces : list (list byte)) : incoming :=
  match items ex_two !! p, validateAndExtractMessageHeader 1 (concat pieces) with
  | Some i, Ok (h, n) => MkIncoming p i cb pieces h n
  | _, _ => MkIncoming p new_RequestItem cb pieces (rq_header ex_request) 0
  end.
Definition ex_responses : list incoming :=
  [ex_incoming 0 5 [take 2 ex_reply; drop 2 ex_reply]; ex_incoming 1 6 [ex_reply]].
Definition ex_piece (chunkX id : Z) (data : list byte) : ChunkHeader * list byte :=
  (MkChunk 0 chunkX id (Z.of_nat (length ex_reply)) (MkBuffer data (Z.of_nat (length data))) 0 0, data).
Definition ex_stream : list (ChunkHeader * list byte) :=
  [ex_piece 2 1 (drop 2 ex_reply); ex_piece 3 2 ex_reply; ex_piece 5 1 (take 2 ex_reply); ex_piece 3 9 ex_reply].
(** Three reads, which cut chunks in the middle. *)
Definition ex_segments : list (list byte) :=
  let w := wire_stream ex_conf ex_stream in [take 10 w; take 40 (drop 10 w); drop 50 w].

Lemma ex_piece_sendable x id data :
  0 <= x < 2 ^ 32 -> 0 <= id < 2 ^ 64 -> Z.of_nat (length data) < 100 -> sendable_chunk ex_conf (ex_piece x id data).
Proof.
  intros Hx Hid Hd. split; [|done]. assert (Z.of_nat (length ex_reply) < 100) by by vm_compute.
  pose proof (header_length_range (_vstVersion ex_conf) (ex_piece x id data).1). unfold maxChunkHeaderSize in *. split; cbn in *; lia.
Qed.
Lemma ex_piece_data x id data : buffer_bytes (_data (ex_piece x id data).1) = Ok (ex_piece x id data).2 /\ 0 <= buffer_size (_data (ex_piece x id data).1).
Proof. cbn. split; [|lia]. rewrite <- (app_nil_r data) at 1. apply buffer_bytes_exact. Qed.

Lemma responses_over_stream_witness :
  exists s',
    for_each (fun seg => asyncReadCallback LittleEndianHost ex_chunk ex_conf 1 None seg) ex_segments ex_two = (Ok (), s')
    /\ (exists r, calls_of 0 (trace s') = [EvCallback 0 (MkEvent (UserCallback 5) 0 r (Some (in_response (ex_incoming 0 5 [take 2 ex_reply; drop 2 ex_reply]))))])
    /\ (exists r, calls_of 1 (trace s') = [EvCallback 1 (MkEvent (UserCallback 6) 0 r (Some (in_response (ex_incoming 1 6 [ex_reply]))))]).
Proof.
  destruct (responses_over_stream LittleEndianHost (le_bytes 24 0) ex_chunk ex_conf true 6 ex_two 1 0 true []
    ex_segments ex_responses ex_stream ex_two_reached) as (s' & Hs' & Hm & _).
  - done.
  - vm_compute. reflexivity.
  - by left.
  - repeat constructor; vm_compute; reflexivity.
  - vm_compute. repeat constructor; set_solver.
  - repeat constructor; apply ex_piece_data.
  - repeat (apply Forall_cons_2 || apply Forall_nil_2); [left|left|left|right; vm_compute; reflexivity].
    + exists (ex_incoming 0 5 [take 2 ex_reply; drop 2 ex_reply]). split; [by left|vm_compute; reflexivity].
    + exists (ex_incoming 1 6 [ex_reply]). split; [by right; left|vm_compute; reflexivity].
    + exists (ex_incoming 0 5 [take 2 ex_reply; drop 2 ex_reply]). split; [by left|vm_compute; reflexivity].
  - repeat constructor; apply ex_piece_sendable; vm_compute; done.
  - vm_compute. reflexivity.
  - exists s'. split; [exact Hs'|]. split.
    + destruct (Hm (ex_incoming 0 5 [take 2 ex_reply; drop 2 ex_reply])) as [Hc _]; [by left|]. eexists. exact Hc.
    + destruct (Hm (ex_incoming 1 6 [ex_reply])) as [Hc _]; [by right; left|]. eexists. exact Hc.
Defined.
