(* ===== verification/VstAuthentication.v ===== *)
(** * After a failed authentication

    [insertAuthenticationRequests] of src/VstConnection.cpp marks the connection as
    permanently failed when the authentication request cannot be delivered.  The
    loops then stop, and the requests in the send queue are never answered
    ([failed_authentication_strands_queue]). *)
From S2P Require Import Prelude StdMap Types Endian Chunk VPack ToyVPack Message HeaderCodec RequestItem MessageStore VstConnection VstInvariant VstReceive VstProperties.
Local Open Scope Z_scope.

Section Stranded.
Context {VP : VPack} {VB : VBuffer} `{StdSort ChunkHeader}.
Context (host : byte_order) (hdr0 : list byte) (chunk0 : ChunkHeader) (conf : ConnectionConfiguration).

(** [k] more actions. *)
Inductive continues : nat -> VstConnection -> VstConnection -> Prop :=
| continues_refl s : continues 0 s s
| continues_next k s s1 a r s2 :
    continues k s s1 -> perform host hdr0 chunk0 conf a s1 = (r, s2) -> (forall why, r <> Undef why) ->
    continues (S k) s s2.

Context (q : list nat).
(** The connection has failed, and the requests [q] are still queued. *)
Definition stranded (s : VstConnection) : Prop := permanent_failure s = true /\ q ⊆ sendQueue s.

#[local] Hint Extern 2 (keeps stranded (modify _)) => apply keeps_modify; intros ? HI; exact HI : keeps.
Lemma stranded_log e : keeps stranded (log e).
Proof. by apply keeps_modify. Qed.
#[local] Hint Resolve stranded_log : keeps.

Lemma stranded_run_callback p c : keeps stranded (run_callback p c).
Proof.
  unfold run_callback, callback_body, onFailure. repeat keeps_step.
  apply keeps_modify. by intros s [_ Hq].
Qed.
#[local] Hint Resolve stranded_run_callback : keeps.
Lemma stranded_invoke_item e r p : keeps stranded (invoke_item e r p).
Proof. unfold invoke_item, get_item, put_item. repeat keeps_step. Qed.
#[local] Hint Resolve stranded_invoke_item : keeps.
Lemma stranded_chunks_loop fuel l cur : keeps stranded (chunks_loop host chunk0 conf fuel l cur).
Proof.
  revert cur. induction fuel as [|fuel IH]; intros cur; cbn [chunks_loop];
    unfold consume, processChunk, get_item, put_item; repeat (first [apply IH | keeps_step]).
Qed.
Lemma stranded_readNextBytes l : keeps stranded (readNextBytes l).
Proof. unfold readNextBytes, shouldStopReading, async, count_async. repeat keeps_step. Qed.
#[local] Hint Resolve stranded_chunks_loop stranded_readNextBytes : keeps.
Lemma stranded_startReading : keeps stranded startReading.
Proof. unfold startReading, ReadLoop_start. repeat keeps_step. Qed.
#[local] Hint Resolve stranded_startReading : keeps.
(** The write loop takes nothing out of the queue. *)
Lemma stranded_getNextRequestToSend l :
  triple stranded (getNextRequestToSend l) (fun next s => stranded s /\ next = None) stranded.
Proof.
  apply triple_get. intros s0. case_match; [apply triple_ret; naive_solver|].
  case_match eqn:Hp; [apply triple_ret; naive_solver|].
  intros s [-> [Hperm _]]. congruence.
Qed.
Lemma stranded_sendNextRequest l : keeps stranded (sendNextRequest l).
Proof.
  eapply triple_bind; [apply stranded_getNextRequestToSend|]. intros next s [HI ->]. exact HI.
Qed.
#[local] Hint Resolve stranded_sendNextRequest : keeps.
Lemma stranded_startWriting : keeps stranded startWriting.
Proof. unfold startWriting, WriteLoop_start. repeat keeps_step. Qed.
Lemma stranded_shutdownConnection e : keeps stranded (shutdownConnection e).
Proof.
  unfold shutdownConnection, stopWriting, stopReading, shutdownSocket.
  repeat (first [apply keeps_store_cancelAll; intros; apply stranded_invoke_item | keeps_step]).
Qed.
#[local] Hint Resolve stranded_startWriting stranded_shutdownConnection : keeps.
Lemma stranded_restart l e :
  keeps stranded (restart_from_ReadLoop l e) /\ keeps stranded (restart_from_WriteLoop l e).
Proof.
  unfold restart_from_ReadLoop, restart_from_WriteLoop, restartConnection, startResolveHost, async.
  split; repeat keeps_step.
Qed.
Lemma stranded_createRequestItem r cb : keeps stranded (createRequestItem host hdr0 chunk0 conf r cb).
Proof. unfold createRequestItem. repeat keeps_step. Qed.
Lemma stranded_queue_add p : keeps stranded (queue_add p).
Proof. apply keeps_modify. intros s [Hp Hq]. split; [done|]. cbn. set_solver. Qed.
Lemma stranded_queue_insert p : keeps stranded (queue_insert p).
Proof. apply keeps_modify. intros s [Hp Hq]. split; [done|]. cbn. set_solver. Qed.
#[local] Hint Resolve stranded_createRequestItem stranded_queue_add stranded_queue_insert : keeps.

Lemma stranded_perform a : keeps stranded (perform host hdr0 chunk0 conf a).
Proof.
  destruct a as [r cb|n o]; cbn [perform].
  { unfold sendRequest, get_item. repeat keeps_step. }
  repeat keeps_step.
  unfold run_handler, resolve_handler, initSocket, startConnect, asyncConnectCallback, handshake_handler,
    startSSLHandshake, finishInitialization, shutdownSocket, init_handler, insertAuthenticationRequests,
    asyncReadCallback, asyncWriteCallback, ReadLoop_deadlineHandler,
    WriteLoop_deadlineHandler, get_item, put_item, async, count_async, onFailure.
  repeat (first [apply stranded_restart | keeps_step]).
Qed.

Lemma stranded_continues k s s' : continues k s s' -> stranded s -> stranded s'.
Proof.
  induction 1 as [s|k s s1 a r s2 _ IH Ha Hr]; [done|]. intros Hs. pose proof (stranded_perform a s1 (IH Hs)) as Hp.
  rewrite Ha in Hp. destruct r; [done|done|by edestruct Hr].
Qed.
End Stranded.

(** The states behind a reachable one are reachable. *)
Lemma reaches_continues {VP : VPack} {VB : VBuffer} `{StdSort ChunkHeader} (host : byte_order) (hdr0 : list byte)
    (chunk0 : ChunkHeader) (conf : ConnectionConfiguration) b n k s s' :
  reaches host hdr0 chunk0 conf b n s -> continues host hdr0 chunk0 conf k s s' ->
  exists b', reaches host hdr0 chunk0 conf b' (k + n) s'.
Proof.
  intros Hs. induction 1 as [s|k s s1 a r s2 _ IH Ha Hr]; [by exists b|].
  destruct (IH Hs) as [b' Hb]. destruct r as [[]|e|why]; [|exists false; by eapply reaches_throws|by edestruct Hr].
  exists b'. by eapply reaches_returns.
Qed.

(** C37: after a failed authentication.  Once an error of the authentication request
    has marked the connection as failed, a request that is queued is never answered:
    whatever happens afterwards, timeouts and other requests included,
    it is still in the queue and its callback has not been called. *)
Theorem failed_authentication_strands_queue {VP : VPack} {VB : VBuffer} `{StdSort ChunkHeader} (host : byte_order)
    (hdr0 : list byte) (chunk0 : ChunkHeader) (conf : ConnectionConfiguration)
    (b : bool) (n k : nat) (s s' : VstConnection) (p : nat) :
  reaches host hdr0 chunk0 conf b n s -> permanent_failure s = true -> p ∈ sendQueue s ->
  continues host hdr0 chunk0 conf k s s' -> Z.of_nat (k + n) < 2 ^ 64 ->
  permanent_failure s' = true /\ p ∈ sendQueue s' /\ calls p (trace s') = 0%nat.
Proof.
  intros Hr Hp Hq Hk Hn. destruct (reaches_continues _ _ _ _ _ _ _ _ _ Hr Hk) as [b' Hr'].
  destruct (stranded_continues host hdr0 chunk0 conf (sendQueue s) k s s' Hk) as [Hp' Hq']; [by split|].
  assert (Hin : p ∈ sendQueue s') by (by apply Hq'). split_and!; [done..|].
  destruct (reaches_Inv _ _ _ _ _ _ _ Hr' Hn). destruct (wi_queued p Hin) as (i & Hi & (Hinv & _) & _).
  by rewrite wi_calls, Hi, Hinv.
Qed.

(** A request is queued while the authentication request is written; the write fails,
    then the read, and another request is sent. *)
Definition ex_basic : ConnectionConfiguration := {|
  _connType := TT_Vst; _ssl := false; _host := "localhost"; _port := "8529";
  _authenticationType := AT_Basic; _user := "u"; _password := "p"; _maxChunkSize := 5000;
  _vstVersion := VST1_1; _onFailure := None |}.
Definition ex_failed : outcome := MkOutcome (Some "broken pipe") [] [].
Definition ex_continues : nat -> VstConnection -> VstConnection -> Prop :=
  continues LittleEndianHost (le_bytes 24 0) ex_chunk ex_basic.
Fixpoint ex_basic_run (acts : list action) (s : VstConnection) : option VstConnection :=
  match acts with
  | [] => Some s
  | a :: acts =>
      match perform LittleEndianHost (le_bytes 24 0) ex_chunk ex_basic a s with
      | (Undef _, _) => None
      | (_, s) => ex_basic_run acts s
      end
  end.
Lemma ex_basic_continues acts : forall k s0 s s',
  ex_continues k s0 s -> ex_basic_run acts s = Some s' -> ex_continues (length acts + k) s0 s'.
Proof.
  induction acts as [|a acts IH]; intros k s0 s s' Hk; cbn [ex_basic_run length]; [by intros [= <-]|].
  destruct (perform _ _ _ _ a s) as [r s1] eqn:Ha. intros Hacts.
  rewrite Nat.add_succ_comm. apply (IH (S k) s0 s1); [|by destruct r].
  eapply continues_next; [done|exact Ha|]. intros w ->. discriminate.
Qed.

Definition ex_queued : list action := ex_connect ++ [ASend ex_request 5; AHandler 3 ex_failed].
Definition ex_afterwards : list action := [AHandler 1 ex_failed; ASend ex_request 6; AHandler 0 ex_ok].
Definition ex_stranded : VstConnection := Eval vm_compute in default ex_start (ex_basic_run ex_queued ex_start).
Definition ex_later : VstConnection := Eval vm_compute in default ex_start (ex_basic_run ex_afterwards ex_stranded).
Lemma failed_authentication_strands_queue_witness :
  permanent_failure ex_later = true /\ (1%nat ∈ sendQueue ex_later) /\ calls 1 (trace ex_later) = 0%nat.
Proof.
  destruct (reaches_continues LittleEndianHost (le_bytes 24 0) ex_chunk ex_basic true 0 5 ex_start ex_stranded) as [b Hb].
  - by apply reaches_initial.
  - apply (ex_basic_continues ex_queued 0 ex_start ex_start); [constructor|vm_compute; reflexivity].
  - apply (failed_authentication_strands_queue LittleEndianHost (le_bytes 24 0) ex_chunk ex_basic b 5 3 ex_stranded);
      [exact Hb|reflexivity|left| |reflexivity].
    apply (ex_basic_continues ex_afterwards 0 ex_stranded ex_stranded); [constructor|vm_compute; reflexivity].
Defined.
