(* ===== verification/VstMalformed.v ===== *)
(** * After a malformed response

    [processChunk] of src/VstConnection.cpp takes a request out of the store before
    [createResponse] decodes the response.  When the header of the response is not
    valid VelocyPack the exception leaves the handler, and nothing refers to the
    request any more ([malformed_response_loses_request]). *)
From S2P Require Import Prelude StdMap Types Endian Chunk VPack ToyVPack Message HeaderCodec RequestItem MessageStore VstConnection VstInvariant VstReceive VstProperties VstDeadline VstStream VstAuthentication.
Local Open Scope Z_scope.

(** ** A request without an owner *)
Section Orphan.
Context {VP : VPack} {VB : VBuffer} `{StdSort ChunkHeader}.
Context (host : byte_order) (hdr0 : list byte) (chunk0 : ChunkHeader) (conf : ConnectionConfiguration).
Context (p : nat).

(** The request [p] exists and has not been answered, and it is neither queued nor
    stored nor being written. *)
Definition orphan (s : VstConnection) : Prop :=
  (p < length (items s))%nat /\ (p ∉ sendQueue s) /\ (forall id, (id, p) ∉ messageStore s)
  /\ (forall l, HWrite l p ∉ pending s) /\ calls p (trace s) = 0%nat.

#[local] Hint Extern 2 (keeps orphan (modify _)) => apply keeps_modify; intros ? HI; exact HI : keeps.
Lemma orphan_async h : (forall l, h <> HWrite l p) -> keeps orphan (async h).
Proof.
  intros Hh. apply keeps_modify. intros s (H1 & H2 & H3 & H4 & H5). split_and!; try done. intros l. cbn.
  rewrite elem_of_app, list_elem_of_singleton. intros [Hin|Heq]; [by eapply H4|by eapply Hh].
Qed.
#[local] Hint Extern 1 (keeps orphan (async _)) => apply orphan_async; intros ? [=] : keeps.
Lemma orphan_log e : is_call p e = false -> keeps orphan (log e).
Proof.
  intros He. apply keeps_modify. intros s (H1 & H2 & H3 & H4 & H5). split_and!; try done.
  cbn [trace set_trace]. rewrite calls_app, H5. unfold calls. by rewrite filter_cons, decide_False by congruence.
Qed.
#[local] Hint Extern 1 (keeps orphan (log _)) => apply orphan_log; reflexivity : keeps.
Lemma orphan_put_item q i : keeps orphan (put_item q i).
Proof. apply keeps_modify. intros s (H1 & H2). split; [|exact H2]. cbn. by rewrite length_insert. Qed.
#[local] Hint Resolve orphan_put_item : keeps.
Lemma orphan_store m :
  (forall id, (id, p) ∉ m) -> keeps orphan (modify (set_messageStore m)).
Proof. intros Hm. apply keeps_modify. intros s (H1 & H2 & _ & H4 & H5). by split_and!. Qed.
Lemma orphan_removeByID id : keeps orphan (modify (fun s => set_messageStore (store_removeByID id (messageStore s)) s)).
Proof.
  apply keeps_modify. intros s (H1 & H2 & H3 & H4 & H5). split_and!; [done..| |done|done].
  intros id' Hin%map_erase_elem. by eapply H3.
Qed.
#[local] Hint Resolve orphan_removeByID : keeps.

Lemma orphan_invoke_item e r q : q <> p -> keeps orphan (invoke_item e r q).
Proof.
  intros Hq. assert (forall c, keeps orphan (log (EvCallback q c))) as Hl.
  { intros c. apply orphan_log. cbn. by apply bool_decide_false. }
  unfold invoke_item, get_item, run_callback, callback_body, onFailure.
  repeat (first [apply Hl | apply keeps_for_each; intros ? | keeps_step]).
Qed.

(** What a value that was read from the state satisfies. *)
Lemma orphan_get {A} (m : VstConnection -> stm VstConnection A) :
  (forall s0, orphan s0 -> keeps orphan (m s0)) -> keeps orphan (reads id ≫= m).
Proof. intros Hm s Hs. exact (Hm s Hs s Hs). Qed.
Lemma orphan_stored s id q : orphan s -> (id, q) ∈ messageStore s -> q <> p.
Proof. intros (_ & _ & H3 & _) Hin ->. by eapply H3. Qed.

Lemma map_find_elem id q (m : MessageStore nat) : store_findByID id m = Some q -> (id, q) ∈ m.
Proof.
  unfold store_findByID. induction m as [|[k v] m IH]; cbn [map_find]; [done|].
  destruct (less id k) eqn:H1; [done|]. destruct (less k id) eqn:H2; [intros Hm; right; by apply IH|].
  intros [= ->]. rewrite (less_total id k) by done. left.
Qed.

Lemma orphan_processChunk c : keeps orphan (processChunk c).
Proof.
  apply orphan_get. intros s0 H0. case_match eqn:Hf; [|apply keeps_skip].
  assert (n <> p) by (eapply orphan_stored; [done|by apply map_find_elem]).
  unfold get_item. repeat (first [by apply orphan_invoke_item | keeps_step]).
Qed.
#[local] Hint Resolve orphan_processChunk : keeps.
Lemma orphan_chunks_loop fuel l cur : keeps orphan (chunks_loop host chunk0 conf fuel l cur).
Proof.
  revert cur. induction fuel as [|fuel IH]; intros cur; cbn [chunks_loop]; unfold consume;
    repeat (first [apply IH | keeps_step]).
Qed.
Lemma orphan_readNextBytes l : keeps orphan (readNextBytes l).
Proof. unfold readNextBytes, shouldStopReading, count_async. repeat keeps_step. Qed.
#[local] Hint Resolve orphan_chunks_loop orphan_readNextBytes : keeps.
Lemma orphan_startReading : keeps orphan startReading.
Proof. unfold startReading, ReadLoop_start. repeat keeps_step. Qed.
#[local] Hint Resolve orphan_startReading : keeps.

(** The write loop takes another request. *)
Lemma orphan_getNextRequestToSend l :
  triple orphan (getNextRequestToSend l) (fun next s => orphan s /\ next <> Some p) orphan.
Proof.
  apply triple_get. intros s0. case_match; [by apply triple_ret; intros s [-> ?]|].
  case_match; [by apply triple_ret; intros s [-> ?]|].
  destruct (queue_front s0) as [q|] eqn:Hq; unfold queue_front in Hq.
  2: { apply triple_bind with (R := fun _ => orphan); [by apply triple_modify; intros s [-> HI]|].
       intros _. by apply triple_ret. }
  intros s [-> (Ho1 & Ho2 & Ho3 & Ho4 & Ho5)]. destruct (sendQueue s0) as [|q' qs] eqn:Hs; [done|]. injection Hq as ->.
  apply not_elem_of_cons in Ho2 as [Hne Ho2].
  unfold store_add, queue_removeFirst, mbind, stm_bind, reads, lift, item_messageID, VstItem, deref. cbn.
  destruct (items s0 !! q) as [i|]; cbn; rewrite ?Hs; cbn.
  2: done.
  split; [|congruence]. split_and!; try done.
  intros id [[= _ Heq]|Hin]%map_emplace_elem; [by apply Hne|by eapply Ho3].
Qed.
Lemma orphan_sendNextRequest l : keeps orphan (sendNextRequest l).
Proof.
  eapply triple_bind; [apply orphan_getNextRequestToSend|]. intros [q|]; [|by apply triple_skip; intros s []].
  intros s [HI Hq]. revert s HI. change (keeps orphan (_ ← startReading; item ← get_item q;
    _ ← lift (cassert (negb (bool_decide (_requestBuffers item = []))) "_requestBuffers.size()");
    request ← lift (get (_request item)); _ ← async (HWriteDeadline l (_timeout request)); _ ← count_async 1;
    s ← reads id; wl ← lift (deref (writeLoops s) l); sock ← lift (get (wl_socket wl)); data ← lift (send_bytes item);
    _ ← log (EvWrite (TcpStream sock) data); async (HWrite l q))).
  unfold get_item, count_async. repeat (first [apply orphan_async; congruence | keeps_step]).
Qed.
#[local] Hint Resolve orphan_sendNextRequest : keeps.
Lemma orphan_startWriting : keeps orphan startWriting.
Proof. unfold startWriting, WriteLoop_start. repeat keeps_step. Qed.

Lemma orphan_cancelAll error :
  keeps orphan (s ← reads id; m ← store_cancelAll (errorToInt error) (messageStore s); modify (set_messageStore m)).
Proof.
  apply orphan_get. intros s0 H0. unfold store_cancelAll.
  apply triple_bind with (R := fun m s => orphan s /\ m = []).
  - apply triple_bind with (R := fun _ => orphan); [|intros ?; by apply triple_ret].
    assert (forall m : MessageStore nat, m ⊆ messageStore s0 -> keeps orphan
      (for_each (fun kv => item_invokeOnError (errorToInt error) kv.2) m)) as Hall; [|by apply Hall].
    induction m as [|[id q] m IH]; intros Hm; cbn [for_each]; [apply keeps_skip|]. apply keeps_bind.
    + apply orphan_invoke_item. eapply orphan_stored; [done|]. apply Hm. left.
    + intros _. apply IH. set_solver.
  - intros m s [HI ->]. by apply (orphan_store [] ltac:(set_solver) s HI).
Qed.
Lemma orphan_shutdownConnection e : keeps orphan (shutdownConnection e).
Proof.
  unfold shutdownConnection, stopWriting, stopReading, shutdownSocket.
  repeat (first [apply orphan_cancelAll | keeps_step]).
Qed.
#[local] Hint Resolve orphan_startWriting orphan_shutdownConnection : keeps.
Lemma orphan_restart l e :
  keeps orphan (restart_from_ReadLoop l e) /\ keeps orphan (restart_from_WriteLoop l e).
Proof.
  unfold restart_from_ReadLoop, restart_from_WriteLoop, restartConnection, startResolveHost.
  split; repeat keeps_step.
Qed.

(** A new request is another one. *)
Lemma orphan_createRequestItem r cb :
  triple orphan (createRequestItem host hdr0 chunk0 conf r cb) (fun q s => orphan s /\ q <> p) orphan.
Proof.
  intros s0 (H1 & H2). unfold createRequestItem, mbind, stm_bind, reads, lift, modify. cbn -[prepareForNetwork].
  destruct (prepareForNetwork _ _ _ _ _) as [item|e|w]; [|by split|done]. cbn. split; [|lia]. split; [|done].
  cbn. rewrite length_app. lia.
Qed.
Lemma orphan_queue q f : q <> p -> (forall l, f l ≡ₚ q :: l) -> keeps orphan (modify (fun s => set_sendQueue (f (sendQueue s)) s)).
Proof.
  intros Hq Hf. apply keeps_modify. intros s (H1 & H2 & H3 & H4 & H5). split_and!; [done| |done..]. cbn. rewrite Hf. set_solver.
Qed.
Lemma orphan_queue_add q : q <> p -> keeps orphan (queue_add q).
Proof. intros Hq. apply (orphan_queue q (fun l => l ++ [q])); [done|]. intros l. by rewrite Permutation_app_comm. Qed.
Lemma orphan_queue_insert q : q <> p -> keeps orphan (queue_insert q).
Proof. intros Hq. by apply (orphan_queue q (cons q)). Qed.
Lemma orphan_create {B} r cb (k : nat -> stm VstConnection B) :
  (forall q, q <> p -> keeps orphan (k q)) -> keeps orphan (createRequestItem host hdr0 chunk0 conf r cb ≫= k).
Proof.
  intros Hk. eapply triple_bind; [apply orphan_createRequestItem|]. intros q s [HI Hq]. by apply Hk.
Qed.

Lemma orphan_asyncWriteCallback l q e : q <> p -> keeps orphan (asyncWriteCallback l q e).
Proof.
  intros Hq. unfold asyncWriteCallback, get_item, count_async.
  repeat (first [apply orphan_restart | by apply orphan_invoke_item | keeps_step]).
Qed.
Lemma orphan_init_handler e : keeps orphan (init_handler host hdr0 chunk0 conf e).
Proof.
  unfold init_handler, insertAuthenticationRequests, onFailure.
  repeat (first [apply orphan_create; intros q Hq; by apply orphan_queue_insert | keeps_step]).
Qed.
Lemma orphan_perform a : keeps orphan (perform host hdr0 chunk0 conf a).
Proof.
  destruct a as [r cb|n o]; cbn [perform].
  { apply keeps_bind; [|intros; apply keeps_skip]. unfold sendRequest, get_item. apply orphan_create. intros q Hq.
    repeat (first [by apply orphan_queue_add | keeps_step]). }
  apply orphan_get. intros s0 H0. destruct (pending s0 !! n) as [h|] eqn:Hh; [|apply keeps_skip].
  destruct H0 as (_ & _ & _ & H4 & _).
  assert (forall l, h <> HWrite l p) as Hp by (intros l ->; by eapply H4, list_elem_of_lookup_2).
  apply keeps_bind.
  { apply keeps_modify. intros s (H1 & H2 & H3 & _ & H5). split_and!; [done..| |done].
    intros l Hin%list_elem_of_delete_inv. by eapply H4. }
  intros _. destruct h; cbn [run_handler]; [..|apply orphan_asyncWriteCallback; congruence|];
    unfold resolve_handler, initSocket, startConnect, asyncConnectCallback, handshake_handler,
    startSSLHandshake, finishInitialization, shutdownSocket, asyncReadCallback, ReadLoop_deadlineHandler,
    WriteLoop_deadlineHandler, count_async, onFailure;
    repeat (first [apply orphan_restart | apply orphan_init_handler | keeps_step]).
Qed.

Lemma orphan_continues k s s' : continues host hdr0 chunk0 conf k s s' -> orphan s -> orphan s'.
Proof.
  induction 1 as [s|k s s1 a r s2 _ IH Ha Hr]; [done|]. intros Hs. pose proof (orphan_perform a s1 (IH Hs)) as Hp.
  rewrite Ha in Hp. destruct r; [done|done|by edestruct Hr].
Qed.
End Orphan.

(** ** The response arrives *)
Section Response.
Context {VP : VPack} {VB : VBuffer} `{StdSortLaws ChunkHeader}.
Context (host : byte_order) (hdr0 : list byte) (chunk0 : ChunkHeader) (conf : ConnectionConfiguration).
Context (p : nat) (i0 : RequestItem callback) (ps : list (list byte)) (loop : nat).
Local Abbreviation v := (_vstVersion conf).

Lemma message_arrives_rest l1 a l2 :
  message_arrives ps (l1 ++ a :: l2) -> message_arrives ps ((l1 ++ [read_chunk chunk0 conf a]) ++ l2).
Proof.
  rewrite <- (assoc_L (++)). intros (Ha & Hp & Hlen). split; [|split; [|done]].
  - apply Forall_app in Ha as [H1 [_ H2]%Forall_cons]. apply Forall_app. split; [done|]. constructor; [|done].
    cbn. split; [apply buffer_bytes_exact|lia].
  - rewrite <- Hp, !fmap_app. done.
Qed.

(** A chunk that has been processed is consumed. *)
Lemma deliver_Ok a s s' l :
  processChunk (read_chunk chunk0 conf a).1 s = (Ok (), s') -> readLoops s' !! loop = Some l ->
  exists rls, deliver chunk0 conf loop a s = (Ok (), set_readLoops rls s') /\ is_Some (rls !! loop).
Proof.
  intros Hp Hl. unfold deliver, mbind, stm_bind. change (received v chunk0 a.1 a.2 []) with (read_chunk chunk0 conf a).1.
  rewrite Hp. unfold consume, mbind, stm_bind, reads, lift, deref. cbn. rewrite Hl. cbn. eexists. split; [reflexivity|].
  apply lookup_lt_is_Some_2. rewrite length_insert. by eapply lookup_lt_Some.
Qed.

(** Chunks of the response that do not complete it. *)
Lemma deliver_early got sent post s i :
  message_arrives ps (got ++ sent ++ post) -> post <> [] ->
  Forall (fun a => _messageID a.1 = ri_messageID i0) sent -> fresh_response i0 ->
  addChunks got.*1 i0 = Ok i -> store_findByID (ri_messageID i0) (messageStore s) = Some p ->
  items s !! p = Some i -> is_Some (readLoops s !! loop) ->
  exists i' rls, message_arrives ps ((got ++ map (read_chunk chunk0 conf) sent) ++ post)
    /\ addChunks (got ++ map (read_chunk chunk0 conf) sent).*1 i0 = Ok i'
    /\ for_each (deliver chunk0 conf loop) sent s = (Ok (), set_readLoops rls (set_items (<[p := i']> (items s)) s))
    /\ is_Some (rls !! loop).
Proof.
  intros Harr Hpost Hid Hf. revert got i s Harr. induction Hid as [|a sent Ha Hid IH]; intros got i s Harr Hgot Hst Hi [l Hl].
  { exists i, (readLoops s). cbn [map]. rewrite app_nil_r. split; [done|]. rewrite list_insert_id by done. by destruct s. }
  pose proof (message_arrives_rest got a (sent ++ post) Harr) as Harr'.
  destruct (assemble_early ps _ (length (got ++ [read_chunk chunk0 conf a])) i0 Harr' Hf) as (i1 & Hi1 & Has & Hi1').
  { rewrite (length_app (got ++ _)), (length_app sent). destruct post; [done|]. cbn. lia. }
  rewrite take_app_length in Hi1. pose proof Hi1 as Hi2. rewrite fmap_app, addChunks_app, Hgot in Hi2. cbn -[read_chunk] in Hi2.
  destruct (addChunk (read_chunk chunk0 conf a).1 i) as [i1''| |] eqn:Hadd; [|done..]. injection Hi2 as ->.
  pose proof (processChunk_item (read_chunk chunk0 conf a).1 s p i i1 i1 None) as Hp. cbn [read_chunk received _messageID fst] in Hp.
  specialize (Hp ltac:(by rewrite Ha) Hi Hadd Has).
  destruct (deliver_Ok a s _ l Hp Hl) as (rls & Hd & Hrl).
  destruct (IH (got ++ [read_chunk chunk0 conf a]) i1 (set_readLoops rls (set_items (<[p := i1]> (items s)) s)) Harr' Hi1 Hst)
    as (i' & rls' & Harr1 & Hi' & Hs' & Hrl'); [|done|].
  { cbn. apply list_lookup_insert_eq. by eapply lookup_lt_Some. }
  exists i', rls'. cbn [map]. rewrite <- (assoc_L (++) got [_]) in Hi', Harr1. split_and!; [done|done| |done].
  cbn [for_each]. unfold mbind at 1, stm_bind at 1. rewrite Hd, Hs'. cbn. by rewrite list_insert_insert_eq.
Qed.

(** The chunk that completes it: the request is taken out of the store, then the
    exception is thrown. *)
Lemma deliver_malformed got sent s i :
  message_arrives ps (got ++ sent) -> sent <> [] -> validate (concat ps) = false ->
  Forall (fun a => _messageID a.1 = ri_messageID i0) sent -> fresh_response i0 ->
  addChunks got.*1 i0 = Ok i -> store_findByID (ri_messageID i0) (messageStore s) = Some p ->
  items s !! p = Some i -> is_Some (readLoops s !! loop) ->
  exists e i' rls, for_each (deliver chunk0 conf loop) sent s
    = (Throw e, set_readLoops rls (set_messageStore (store_removeByID (ri_messageID i0) (messageStore s))
                  (set_items (<[p := i']> (items s)) s))).
Proof.
  intros Harr Hne Hv Hid Hf Hgot Hst Hi Hl.
  destruct (exists_last Hne) as (sent1 & a & ->). apply Forall_app in Hid as [Hid [Ha _]%Forall_cons].
  destruct (deliver_early got sent1 [a] s i Harr ltac:(done) Hid Hf Hgot Hst Hi Hl) as (i1 & rls & Harr1 & Hi1 & Hs1 & Hrl).
  set (s1 := set_readLoops rls _) in Hs1. apply (message_arrives_rest _ a []) in Harr1. rewrite app_nil_r in Harr1.
  destruct (assemble_complete ps _ i0 Harr1 Hf) as (i2 & i3 & Hi2 & Has & Hi3).
  rewrite fmap_app, addChunks_app, Hi1 in Hi2. cbn -[read_chunk] in Hi2.
  destruct (addChunk (read_chunk chunk0 conf a).1 i1) as [i2'| |] eqn:Hadd; [|done..]. injection Hi2 as ->.
  assert (items s1 !! p = Some i1) as Hi1' by (cbn; apply list_lookup_insert_eq; by eapply lookup_lt_Some).
  pose proof (processChunk_item (read_chunk chunk0 conf a).1 s1 p i1 i2 i3 (Some (concat ps))) as Hp.
  cbn [read_chunk received _messageID fst] in Hp. specialize (Hp ltac:(by rewrite Ha) Hi1' Hadd Has).
  unfold createResponse, validateAndExtractMessageHeader in Hp. rewrite Hv in Hp.
  assert (ri_messageID i3 = ri_messageID i0) as Hid3 by by rewrite Hi3.
  eexists _, i3, rls. rewrite for_each_app. unfold mbind at 1, stm_bind at 1. rewrite Hs1.
  cbn [for_each]. unfold mbind at 1, stm_bind at 1. unfold deliver at 1. unfold mbind at 1, stm_bind at 1.
  cbn [fst snd]. rewrite Hp. cbn. rewrite list_insert_insert_eq, Hid3. reflexivity.
Qed.
End Response.

(** C39: a malformed response.  When the bytes that a read completes are chunks of the
    response to a request, the last ones missing, and the header of that response is not
    valid VelocyPack, then the handler throws, and the request is neither stored nor
    queued any more although its callback has not been called.  Unless its write
    is still under way, whose failure would tell it, the callback is never called:
    whatever the user, the network and the clock do afterwards. *)
Theorem malformed_response_loses_request {VP : VPack} {VB : VBuffer} `{StdSortLaws ChunkHeader} (host : byte_order)
    (hdr0 : list byte) (chunk0 : ChunkHeader) (conf : ConnectionConfiguration) (b : bool) (n : nat) (s : VstConnection)
    (h loop : nat) (o : outcome) (sock : option nat) (st : bool) (have tail : list byte)
    (p : nat) (i i0 : RequestItem callback) (ps : list (list byte)) (got sent : list (ChunkHeader * list byte)) :
  reaches host hdr0 chunk0 conf b n s -> Z.of_nat n < 2 ^ 64 ->
  pending s !! h = Some (HRead loop) -> out_error o = None ->
  readLoops s !! loop = Some (MkReadLoop sock have st) ->
  have ++ out_data o = wire_stream conf sent ++ tail -> cut_chunk conf tail ->
  Forall (sendable_chunk conf) sent -> sent <> [] ->
  store_findByID (ri_messageID i) (messageStore s) = Some p -> items s !! p = Some i ->
  fresh_response i0 -> ri_messageID i0 = ri_messageID i -> addChunks got.*1 i0 = Ok i ->
  message_arrives ps (got ++ sent) -> Forall (fun a => _messageID a.1 = ri_messageID i) sent ->
  validate (concat ps) = false ->
  exists e s', perform host hdr0 chunk0 conf (AHandler h o) s = (Throw e, s')
    /\ calls p (trace s') = 0%nat /\ (p ∉ sendQueue s') /\ (forall id, (id, p) ∉ messageStore s')
    /\ ((forall l, HWrite l p ∉ pending s) ->
        forall k s'', continues host hdr0 chunk0 conf k s' s'' -> calls p (trace s'') = 0%nat).
Proof.
  intros Hr Hn Hh Ho Hl Hdata Htail Hsend Hne Hst Hi Hf Hid0 Hgot Harr Hids Hv.
  pose proof (reaches_Inv _ _ _ _ _ _ _ Hr Hn) as HI. pose proof HI as [].
  apply map_find_elem in Hst as Hin. destruct (wi_stored _ _ Hin) as (i' & Hi' & _ & [Hinv _] & Hq).
  assert (i' = i) as -> by congruence.
  set (s1 := after_read loop (MkReadLoop sock (have ++ out_data o) st) (set_pending (delete h (pending s)) s)).
  destruct (deliver_malformed chunk0 conf p i0 ps loop got sent s1 i) as (e & i2 & rls & Hs'); try done.
  { by rewrite Hid0. } { by rewrite Hid0. }
  { cbn. apply lookup_lt_is_Some_2. rewrite length_insert. by eapply lookup_lt_Some. }
  rewrite Hid0 in Hs'. set (s' := set_readLoops rls _) in Hs'. exists e, s'.
  destruct (winv_take _ _ _ _ _ _ _ _ p i HI Hi Hq) as [_ Hout].
  assert (calls p (trace s') = 0%nat) as Hc by (change (calls p (trace s) = 0%nat); by rewrite wi_calls, Hi, Hinv). split_and!; [|done..|].
  - unfold perform, mbind, stm_bind, reads, modify. cbn [id fst snd]. rewrite Hh. cbn [run_handler]. rewrite Ho.
    rewrite (asyncReadCallback_frames host chunk0 conf _ loop sock st have (out_data o) tail sent.*1 sent.*2);
      [|done|by apply Hdata|by apply wire_stream_split|done].
    rewrite zip_fst_snd. unfold mbind, stm_bind. fold s1. by rewrite Hs'.
  - intros Hw k s'' Hk. assert (orphan p s') as Ho'; [|by destruct (orphan_continues _ _ _ _ _ _ _ _ Hk Ho') as (_ & _ & _ & _ & ?)].
    split_and!; [|done|done| |done].
    + cbn. rewrite length_insert. by eapply lookup_lt_Some.
    + intros l Hd%list_elem_of_delete_inv. by eapply Hw.
Qed.

(** A request has been written; one malformed byte is its response. *)
Definition ex_written : VstConnection :=
  Eval vm_compute in default ex_start (ex_run (ex_connect ++ [ASend ex_request 5; AHandler 3 ex_ok]) ex_start).
Lemma ex_written_reached : ex_reaches true 5 ex_written.
Proof. apply (ex_run_reaches (ex_connect ++ [ASend ex_request 5; AHandler 3 ex_ok])). vm_compute. reflexivity. Qed.
Definition ex_bad : list (ChunkHeader * list byte) := [(MkChunk 0 3 1 1 (MkBuffer [Byte.xff] 1) 0 0, [Byte.xff])].
Definition ex_bad_read : action := AHandler 1 (MkOutcome None [] (wire_stream ex_conf ex_bad)).
Definition ex_lost : VstConnection := Eval vm_compute in (ex_perform ex_bad_read ex_written).2.
Lemma malformed_response_loses_request_witness :
  messageStore ex_lost = [] /\ forall k s'',
    continues LittleEndianHost (le_bytes 24 0) ex_chunk ex_conf k ex_lost s'' -> calls 0 (trace s'') = 0%nat.
Proof.
  split; [reflexivity|]. intros k s'' Hk.
  destruct (items ex_written !! 0%nat) as [i|] eqn:Hi; [|discriminate Hi].
  assert (Hi0 := Hi). vm_compute in Hi0. injection Hi0 as Hi0.
  destruct (malformed_response_loses_request LittleEndianHost (le_bytes 24 0) ex_chunk ex_conf true 5 ex_written 1 1
    (MkOutcome None [] (wire_stream ex_conf ex_bad)) (Some 0%nat) true [] [] 0 i i [[Byte.xff]] [] ex_bad)
    as (e & s' & Hs' & _ & _ & _ & Hlost); try reflexivity; try (rewrite <- Hi0; reflexivity).
  - exact ex_written_reached.
  - by left.
  - constructor; [|constructor]. split; [|reflexivity]. split; cbn; unfold header_length, maxChunkHeaderSize; cbn; lia.
  - discriminate.
  - rewrite <- Hi0. split; reflexivity.
  - split_and!; [|done|cbn; lia|cbn; lia]. constructor; [|constructor]. split; [reflexivity|cbn; lia].
  - constructor; [rewrite <- Hi0; reflexivity|constructor].
  - apply (Hlost ltac:(intros l Hin; vm_compute in Hin; set_solver) k s'').
    assert (s' = ex_lost) as ->; [|exact Hk].
    change s' with (Throw (A := unit) e, s').2. rewrite <- Hs'. vm_compute. reflexivity.
Defined.
