(* ===== verification/Pool.v ===== *)
(** * Pools of threads

    Lemmas on programs that run in parallel: a thread is the list of the instructions
    it has still to execute, a pool the list of the threads.  Shared by VstThreads.v
    and DriverThreads.v. *)
From S2P Require Import Prelude.

Section pool.
  Context {A : Type}.
  Implicit Types (ths : list (list A)) (th : list A).

(** Executing the first instruction of a thread replaces it in the pool. *)
Lemma concat_step ths t i k :
  ths !! t = Some (i :: k) ->
  exists rest, concat ths ≡ₚ i :: rest /\ forall todo, concat (<[t := todo ++ k]> ths) ≡ₚ todo ++ rest.
Proof.
  intros Ht. exists (k ++ concat (take t ths) ++ concat (drop (S t) ths)).
  rewrite <- (take_drop_middle ths t _ Ht) at 1. rewrite concat_app. cbn. split.
  - rewrite Permutation_app_comm. cbn. rewrite <- (assoc_L (++)). constructor. apply Permutation_app_head, Permutation_app_comm.
  - intros todo. pose proof (lookup_lt_Some _ _ _ Ht) as Hlt.
    rewrite insert_take_drop by done. rewrite concat_app. cbn.
    rewrite Permutation_app_comm, <- !(assoc_L (++)). apply Permutation_app_head, Permutation_app_head, Permutation_app_comm.
Qed.
Lemma concat_spawn ths th : concat (ths ++ [th]) ≡ₚ th ++ concat ths.
Proof. rewrite concat_app. cbn. rewrite app_nil_r. apply Permutation_app_comm. Qed.

Lemma elem_of_pool ths i : i ∈ concat ths <-> exists t th, ths !! t = Some th /\ i ∈ th.
Proof.
  rewrite list_elem_of_In, in_concat. split.
  - intros (th & Hth%list_elem_of_In & Hin%list_elem_of_In). apply list_elem_of_lookup in Hth as [t Ht]. by exists t, th.
  - intros (t & th & Ht & Hin). exists th. split; [|by apply list_elem_of_In].
    apply list_elem_of_In, list_elem_of_lookup. by exists t.
Qed.
Lemma pool_done ths : Forall (eq []) ths -> concat ths = [].
Proof. induction 1 as [|th ths <- _ IH]; [done|exact IH]. Qed.

(** Programs made of one instruction. *)
Lemma omap_each {B C} (f : A -> option B) (g : C -> A) (cs : list C) : (forall c, f (g c) = None) -> omap f (map g cs) = [].
Proof. intros Hf. induction cs as [|c cs IH]; cbn; [done|rewrite Hf; exact IH]. Qed.
Lemma omap_repeat {B} (f : A -> option B) i n : f i = None -> omap f (repeat i n) = [].
Proof. intros Hf. induction n as [|n IH]; cbn; [done|by rewrite Hf]. Qed.
Lemma Forall_each {C} (Q : A -> Prop) (g : C -> A) (cs : list C) : (forall c, Q (g c)) -> Forall Q (map g cs).
Proof. intros HQ. induction cs as [|c cs IH]; by constructor. Qed.
Lemma Forall_same (Q : A -> Prop) i n : Q i -> Forall Q (repeat i n).
Proof. intros HQ. induction n as [|n IH]; by constructor. Qed.
End pool.

(** ** Bags, by counting *)
Definition count {A} `{EqDecision A} (l : list A) (x : A) : nat := count_occ (fun x y => decide (x = y)) l x.
Lemma perm_count {A} `{EqDecision A} (l1 l2 : list A) : l1 ≡ₚ l2 <-> forall x, count l1 x = count l2 x.
Proof. apply Permutation_count_occ. Qed.
Lemma count_nil {A} `{EqDecision A} (x : A) : count [] x = 0%nat.
Proof. done. Qed.
Lemma count_app {A} `{EqDecision A} (l1 l2 : list A) x : count (l1 ++ l2) x = (count l1 x + count l2 x)%nat.
Proof. apply count_occ_app. Qed.
Lemma count_cons {A} `{EqDecision A} y (l : list A) x : count (y :: l) x = (count [y] x + count l x)%nat.
Proof. apply (count_app [y] l). Qed.
(** An equation between bags that follows from others. *)
Ltac bags := repeat match goal with H : _ ≡ₚ _ |- _ => rewrite perm_count in H end; apply perm_count;
  let x := fresh "x" in intros x; repeat match goal with H : forall e, count _ e = _ |- _ => specialize (H x) end;
  cbn [app] in *; rewrite ?count_app in *;
  repeat match goal with
    | |- context [count (?e :: ?l)] => lazymatch l with [] => fail | _ => rewrite (count_cons e l) end
    | H : context [count (?e :: ?l)] |- _ => lazymatch l with [] => fail | _ => rewrite (count_cons e l) in H end
    end; rewrite ?count_app, ?count_nil in *; lia.
