(* ===== verification/VstThreads.v ===== *)
(** * The threads of a VST connection

    [perform] of VstConnection.v runs whole handlers.  Here the handlers of a VST
    connection and the calls of [sendRequest] run in parallel, on any number of
    threads, and a step is what the code does without being interrupted: one access
    to an atomic variable, or one access to data that a mutex guards
    (src/VstConnection.cpp and the class [SendQueue] of src/VstConnection.h).  Two
    mutexes are held over several such steps and are part of the state: the one of
    the write loop, and the one of the store while [cancelAll] calls the callbacks.

    The runs begin with [start]; they include TLS, authentication, restarts, and
    callbacks that send requests.  Chunks, buffers and timeouts play no role and are
    left out; an item is its message id.  The destructor is left out too: the loops and
    the pending operations own the connection, so that it runs when no thread is left.

    VstAnswers.v says what holds in all runs, VstSending.v what holds when nothing
    fails, and VstRestarts.v what goes wrong. *)
From S2P Require Import Prelude Pool.

(** ** Threads *)

(** What a thread has left to do.  A method of a loop that was called through a
    plain pointer has [self = false]; one that was called by a handler, which
    keeps the loop alive, has [self = true]. *)
Inductive instr : Type :=
| ICreate                          (* sendRequest: createRequestItem *)
| IAdd (p : nat)                   (* _sendQueue.add *)
| ICheckConnected                  (* if (_connected) *)
| ICreateAuthentication            (* insertAuthenticationRequests *)
| IInsert (p : nat)                (* _sendQueue.insert *)
| ISetConnected                    (* _connected = true *)
| IStartWriting                    (* startWriting: the locked block *)
| IWriteLoopStart (l : nat)        (* newLoop->start() *)
| ISendNext (self : bool) (l : nat)            (* getNextRequestToSend: lock, tests *)
| IFront (self : bool) (l : nat)               (* _sendQueue.front() *)
| IReset (l : nat)                             (* _writeLoop._current.reset(), unlock *)
| IStore (self : bool) (l p : nat)             (* _messageStore.add *)
| IRemoveFirst (self : bool) (l p : nat)       (* _sendQueue.removeFirst(), unlock *)
| IStartReading                    (* startReading: the locked block *)
| IWrite (self : bool) (l p : nat) (* shared_from_this(), async_write *)
| IReadLoopStart (r : nat)         (* newLoop->start() *)
| IReadNext (self : bool) (r : nat)            (* shouldStopReading, async_read *)
| IProcess (rs : list (nat * bool)) (r : nat)  (* asyncReadCallback: the rest of the loop over the chunks *)
| ILose (p : nat)                  (* processChunk: removeByID, then createResponse throws *)
| IRestart (r : nat)               (* restartConnection(ReadLoop): the locked block *)
| IRestartWrite (l : nat)          (* restartConnection(WriteLoop): the locked block *)
| IRestartConnection               (* restartConnection: the assertions *)
| IStopWriting                     (* stopWriting *)
| IStopReading                     (* stopReading *)
| IShutdownSocket                  (* shutdownSocket *)
| ICancelAll                       (* _messageStore.cancelAll *)
| IStartResolveHost                (* startResolveHost *)
| IInitSocket                      (* initSocket *)
| IFinishInitialization            (* finishInitialization: the write of the header *)
| INotConnected                    (* _connected = false *)
| IRemove (p : nat)                (* _messageStore.removeByID *)
| IInvoke (p : nat) (error : bool) (* _callback.invoke *)
| ICancelDone                      (* cancelAll: _map.clear(), unlock *)
| IStartHandshake.                 (* startSSLHandshake *)

(** A [WriteLoop] or [ReadLoop]: its [_started], and whether its copy of the pointer
    to the socket points to one. *)
Record loop_obj : Type := MkLoopObj { loop_started : bool; loop_socket : bool }.

(** What an asynchronous operation of [startResolveHost], [startConnect] or
    [finishInitialization] is waiting for. *)
Inductive setup_op : Type := Resolving | Connecting | Handshaking | WritingHeader.

(** How a connection is configured, and how many requests the callback of each
    request sends. *)
Record par_config : Type := MkParConfig { authenticate : bool; ssl : bool; sends : nat -> nat }.

(** A loop is an index into the list of all loops that have been made; the loop
    objects that may be used are the current one, and those a running operation
    keeps.  [w_sent] records the writes in order, [w_order] the order the send queue
    promises. *)
Record world : Type := MkWorld {
  w_config : par_config;
  w_messageID : nat;
  w_queue : list nat;
  w_store : list nat;
  w_storeMutex : bool;              (* held while callbacks run *)
  w_invoked : list nat;             (* callbacks that have been called *)
  w_authentications : list nat;     (* requests that authenticate *)
  w_permanentFailure : bool;
  w_connected : bool;
  w_socket : bool;                  (* is there a [_socket]? *)
  w_setup : list setup_op;          (* asynchronous steps of a new connection *)
  w_writeMutex : bool;
  w_writeLoop : option nat;         (* _writeLoop._current *)
  w_writeLoops : list loop_obj;
  w_readLoop : option nat;          (* _readLoop._current *)
  w_readLoops : list loop_obj;
  w_writing : list (nat * nat);     (* async_write: loop and item *)
  w_reading : list nat;             (* async_read: loop *)
  w_sent : list nat;
  w_order : list nat;
  w_lost : list nat;                (* requests whose response could not be decoded *)
  w_threads : list (list instr);
}.
Definition up_messageID x w := MkWorld
  (w_config w) x (w_queue w) (w_store w) (w_storeMutex w) (w_invoked w) (w_authentications w)
  (w_permanentFailure w) (w_connected w) (w_socket w) (w_setup w) (w_writeMutex w) (w_writeLoop w)
  (w_writeLoops w) (w_readLoop w) (w_readLoops w) (w_writing w) (w_reading w) (w_sent w) (w_order w)
  (w_lost w) (w_threads w).
Definition up_queue x w := MkWorld
  (w_config w) (w_messageID w) x (w_store w) (w_storeMutex w) (w_invoked w) (w_authentications w)
  (w_permanentFailure w) (w_connected w) (w_socket w) (w_setup w) (w_writeMutex w) (w_writeLoop w)
  (w_writeLoops w) (w_readLoop w) (w_readLoops w) (w_writing w) (w_reading w) (w_sent w) (w_order w)
  (w_lost w) (w_threads w).
Definition up_store x w := MkWorld
  (w_config w) (w_messageID w) (w_queue w) x (w_storeMutex w) (w_invoked w) (w_authentications w)
  (w_permanentFailure w) (w_connected w) (w_socket w) (w_setup w) (w_writeMutex w) (w_writeLoop w)
  (w_writeLoops w) (w_readLoop w) (w_readLoops w) (w_writing w) (w_reading w) (w_sent w) (w_order w)
  (w_lost w) (w_threads w).
Definition up_storeMutex x w := MkWorld
  (w_config w) (w_messageID w) (w_queue w) (w_store w) x (w_invoked w) (w_authentications w)
  (w_permanentFailure w) (w_connected w) (w_socket w) (w_setup w) (w_writeMutex w) (w_writeLoop w)
  (w_writeLoops w) (w_readLoop w) (w_readLoops w) (w_writing w) (w_reading w) (w_sent w) (w_order w)
  (w_lost w) (w_threads w).
Definition up_invoked x w := MkWorld
  (w_config w) (w_messageID w) (w_queue w) (w_store w) (w_storeMutex w) x (w_authentications w)
  (w_permanentFailure w) (w_connected w) (w_socket w) (w_setup w) (w_writeMutex w) (w_writeLoop w)
  (w_writeLoops w) (w_readLoop w) (w_readLoops w) (w_writing w) (w_reading w) (w_sent w) (w_order w)
  (w_lost w) (w_threads w).
Definition up_authentications x w := MkWorld
  (w_config w) (w_messageID w) (w_queue w) (w_store w) (w_storeMutex w) (w_invoked w) x (w_permanentFailure w)
  (w_connected w) (w_socket w) (w_setup w) (w_writeMutex w) (w_writeLoop w) (w_writeLoops w) (w_readLoop w)
  (w_readLoops w) (w_writing w) (w_reading w) (w_sent w) (w_order w) (w_lost w) (w_threads w).
Definition up_permanentFailure x w := MkWorld
  (w_config w) (w_messageID w) (w_queue w) (w_store w) (w_storeMutex w) (w_invoked w) (w_authentications w) x
  (w_connected w) (w_socket w) (w_setup w) (w_writeMutex w) (w_writeLoop w) (w_writeLoops w) (w_readLoop w)
  (w_readLoops w) (w_writing w) (w_reading w) (w_sent w) (w_order w) (w_lost w) (w_threads w).
Definition up_connected x w := MkWorld
  (w_config w) (w_messageID w) (w_queue w) (w_store w) (w_storeMutex w) (w_invoked w) (w_authentications w)
  (w_permanentFailure w) x (w_socket w) (w_setup w) (w_writeMutex w) (w_writeLoop w) (w_writeLoops w)
  (w_readLoop w) (w_readLoops w) (w_writing w) (w_reading w) (w_sent w) (w_order w) (w_lost w) (w_threads w).
Definition up_socket x w := MkWorld
  (w_config w) (w_messageID w) (w_queue w) (w_store w) (w_storeMutex w) (w_invoked w) (w_authentications w)
  (w_permanentFailure w) (w_connected w) x (w_setup w) (w_writeMutex w) (w_writeLoop w) (w_writeLoops w)
  (w_readLoop w) (w_readLoops w) (w_writing w) (w_reading w) (w_sent w) (w_order w) (w_lost w) (w_threads w).
Definition up_setup x w := MkWorld
  (w_config w) (w_messageID w) (w_queue w) (w_store w) (w_storeMutex w) (w_invoked w) (w_authentications w)
  (w_permanentFailure w) (w_connected w) (w_socket w) x (w_writeMutex w) (w_writeLoop w) (w_writeLoops w)
  (w_readLoop w) (w_readLoops w) (w_writing w) (w_reading w) (w_sent w) (w_order w) (w_lost w) (w_threads w).
Definition up_writeMutex x w := MkWorld
  (w_config w) (w_messageID w) (w_queue w) (w_store w) (w_storeMutex w) (w_invoked w) (w_authentications w)
  (w_permanentFailure w) (w_connected w) (w_socket w) (w_setup w) x (w_writeLoop w) (w_writeLoops w)
  (w_readLoop w) (w_readLoops w) (w_writing w) (w_reading w) (w_sent w) (w_order w) (w_lost w) (w_threads w).
Definition up_writeLoop x y w := MkWorld
  (w_config w) (w_messageID w) (w_queue w) (w_store w) (w_storeMutex w) (w_invoked w) (w_authentications w)
  (w_permanentFailure w) (w_connected w) (w_socket w) (w_setup w) (w_writeMutex w) x y (w_readLoop w)
  (w_readLoops w) (w_writing w) (w_reading w) (w_sent w) (w_order w) (w_lost w) (w_threads w).
Definition up_readLoop x y w := MkWorld
  (w_config w) (w_messageID w) (w_queue w) (w_store w) (w_storeMutex w) (w_invoked w) (w_authentications w)
  (w_permanentFailure w) (w_connected w) (w_socket w) (w_setup w) (w_writeMutex w) (w_writeLoop w)
  (w_writeLoops w) x y (w_writing w) (w_reading w) (w_sent w) (w_order w) (w_lost w) (w_threads w).
Definition up_writing x w := MkWorld
  (w_config w) (w_messageID w) (w_queue w) (w_store w) (w_storeMutex w) (w_invoked w) (w_authentications w)
  (w_permanentFailure w) (w_connected w) (w_socket w) (w_setup w) (w_writeMutex w) (w_writeLoop w)
  (w_writeLoops w) (w_readLoop w) (w_readLoops w) x (w_reading w) (w_sent w) (w_order w) (w_lost w) (w_threads w).
Definition up_reading x w := MkWorld
  (w_config w) (w_messageID w) (w_queue w) (w_store w) (w_storeMutex w) (w_invoked w) (w_authentications w)
  (w_permanentFailure w) (w_connected w) (w_socket w) (w_setup w) (w_writeMutex w) (w_writeLoop w)
  (w_writeLoops w) (w_readLoop w) (w_readLoops w) (w_writing w) x (w_sent w) (w_order w) (w_lost w) (w_threads w).
Definition up_sent x w := MkWorld
  (w_config w) (w_messageID w) (w_queue w) (w_store w) (w_storeMutex w) (w_invoked w) (w_authentications w)
  (w_permanentFailure w) (w_connected w) (w_socket w) (w_setup w) (w_writeMutex w) (w_writeLoop w)
  (w_writeLoops w) (w_readLoop w) (w_readLoops w) (w_writing w) (w_reading w) x (w_order w) (w_lost w) (w_threads w).
Definition up_order x w := MkWorld
  (w_config w) (w_messageID w) (w_queue w) (w_store w) (w_storeMutex w) (w_invoked w) (w_authentications w)
  (w_permanentFailure w) (w_connected w) (w_socket w) (w_setup w) (w_writeMutex w) (w_writeLoop w)
  (w_writeLoops w) (w_readLoop w) (w_readLoops w) (w_writing w) (w_reading w) (w_sent w) x (w_lost w) (w_threads w).
Definition up_lost x w := MkWorld
  (w_config w) (w_messageID w) (w_queue w) (w_store w) (w_storeMutex w) (w_invoked w) (w_authentications w)
  (w_permanentFailure w) (w_connected w) (w_socket w) (w_setup w) (w_writeMutex w) (w_writeLoop w)
  (w_writeLoops w) (w_readLoop w) (w_readLoops w) (w_writing w) (w_reading w) (w_sent w) (w_order w) x (w_threads w).

Definition up_threads x w := MkWorld
  (w_config w) (w_messageID w) (w_queue w) (w_store w) (w_storeMutex w) (w_invoked w) (w_authentications w)
  (w_permanentFailure w) (w_connected w) (w_socket w) (w_setup w) (w_writeMutex w) (w_writeLoop w)
  (w_writeLoops w) (w_readLoop w) (w_readLoops w) (w_writing w) (w_reading w) (w_sent w) (w_order w) (w_lost w) x.

Implicit Types (w : world) (self : bool) (l r p t : nat).

(** What executing an instruction does: wait for the mutex, use a deleted object,
    or change the state and go on with other instructions. *)
Inductive effect : Type := Blocked | Crash | Goes (w : world) (next : list instr).

(** [sendRequest]: the message id is the new value of an atomic counter. *)
Definition par_createRequestItem w : effect :=
  let id := S (w_messageID w) in Goes (up_messageID id w) [IAdd id].
Definition queue_push_back p w : effect :=
  Goes (up_order (w_order w ++ [p]) (up_queue (w_queue w ++ [p]) w)) [ICheckConnected].
Definition check_connected w : effect := Goes w (if w_connected w then [IStartWriting] else []).
Definition par_insertAuthentication w : effect :=
  let id := S (w_messageID w) in
  Goes (up_authentications (id :: w_authentications w) (up_messageID id w)) [IInsert id].
Definition queue_push_front p w : effect :=
  Goes (up_order (p :: w_order w) (up_queue (p :: w_queue w) w)) [].

Definition par_connected w : effect := Goes (up_connected true w) [IStartWriting; IStartReading].

Definition par_startWriting w : effect :=
  if w_writeMutex w then Blocked
  else match w_writeLoop w with
       | Some _ => Goes w []
       | None =>
           let l := length (w_writeLoops w) in
           Goes (up_writeLoop (Some l) (w_writeLoops w ++ [MkLoopObj false (w_socket w)]) w) [IWriteLoopStart l]
       end.
(** Is the object of a loop there? *)
Definition alive (self : bool) (current : option nat) (l : nat) : bool :=
  self || bool_decide (current = Some l).
Definition par_WriteLoop_start l w : effect :=
  if alive false (w_writeLoop w) l then
    match (w_writeLoops w !! l : option loop_obj) with
    | Some lp =>
        Goes (up_writeLoop (w_writeLoop w) (<[l := MkLoopObj true (loop_socket lp)]> (w_writeLoops w)) w)
          (if loop_started lp then [] else [ISendNext false l])
    | None => Crash
    end
  else Crash.

(** [getNextRequestToSend], from the lock to the end of the guarded block. *)
Definition next_lock self l w : effect :=
  if negb (alive self (w_writeLoop w) l) then Crash
  else if w_writeMutex w then Blocked
  else if bool_decide (w_writeLoop w = Some l)
  then if w_permanentFailure w then Goes w [] else Goes (up_writeMutex true w) [IFront self l]
  else Goes w [].
Definition next_front self l w : effect :=
  match w_queue w with
  | [] => Goes w [IReset l]
  | p :: _ => Goes w [IStore self l p]
  end.
Definition next_reset (l : nat) w : effect :=
  Goes (up_writeMutex false (up_writeLoop None (w_writeLoops w) w)) [].
Definition next_store self l p w : effect :=
  if w_storeMutex w then Blocked
  else Goes (up_store (if bool_decide (p ∈ w_store w) then w_store w else w_store w ++ [p]) w) [IRemoveFirst self l p].
Definition next_removeFirst self l p w : effect :=
  match w_queue w with
  | [] => Crash
  | _ :: q => Goes (up_writeMutex false (up_queue q w)) [IStartReading; IWrite self l p]
  end.

Definition par_startReading w : effect :=
  match w_readLoop w with
  | Some _ => Goes w []
  | None =>
      let r := length (w_readLoops w) in
      Goes (up_readLoop (Some r) (w_readLoops w ++ [MkLoopObj false (w_socket w)]) w) [IReadLoopStart r]
  end.
(** Does a loop have a socket? *)
Definition has_socket (ls : list loop_obj) (l : nat) : bool :=
  match ls !! l with Some lp => loop_socket lp | None => false end.
(** The rest of [sendNextRequest]. *)
Definition issue_write self l p w : effect :=
  if alive self (w_writeLoop w) l && has_socket (w_writeLoops w) l
  then Goes (up_sent (w_sent w ++ [p]) (up_writing (w_writing w ++ [(l, p)]) w)) []
  else Crash.
Definition par_ReadLoop_start r w : effect :=
  if alive false (w_readLoop w) r then
    match (w_readLoops w !! r : option loop_obj) with
    | Some lp =>
        Goes (up_readLoop (w_readLoop w) (<[r := MkLoopObj true (loop_socket lp)]> (w_readLoops w)) w)
          (if loop_started lp then [] else [IReadNext false r])
    | None => Crash
    end
  else Crash.
(** [readNextBytes]; [shouldStopReading] locks all it reads at once. *)
Definition read_next self r w : effect :=
  if negb (alive self (w_readLoop w) r) then Crash
  else if w_storeMutex w then Blocked
  else if negb (bool_decide (w_readLoop w = Some r)) then Goes w []
  else if w_permanentFailure w then Goes w []
  else match w_store w, w_queue w with
       | [], [] => Goes (up_readLoop None (w_readLoops w) w) []
       | _, _ => if has_socket (w_readLoops w) r then Goes (up_reading (w_reading w ++ [r]) w) [] else Crash
       end.
(** The loop of [asyncReadCallback]; [rs] are the responses that become complete, in
    order, and whether their headers can be decoded.  [processChunk] looks for the
    request; a response that nobody waits for is skipped.  An exception leaves the
    handler: the rest of the data is not processed, and no read is started. *)
Definition answer (rs : list (nat * bool)) r w : effect :=
  match rs with
  | [] => Goes w [IReadNext true r]
  | (p, valid) :: rs =>
      if w_storeMutex w then Blocked
      else if bool_decide (p ∈ w_store w)
      then Goes w (if valid : bool then [IRemove p; IInvoke p false; IProcess rs r] else [ILose p])
      else Goes w [IProcess rs r]
  end.
Definition par_removeByID p w : effect :=
  if w_storeMutex w then Blocked else Goes (up_store (filter (fun q => q <> p) (w_store w)) w) [].
Definition par_loseResponse p w : effect :=
  if w_storeMutex w then Blocked
  else Goes (up_lost (w_lost w ++ [p]) (up_store (filter (fun q => q <> p) (w_store w)) w)) [].
(** The callback of an item is called once.  That of an authentication request looks
    at the error, those of users send requests. *)
Definition invoke_callback p (error : bool) w : effect :=
  if bool_decide (p ∈ w_invoked w) then Goes w []
  else let w := up_invoked (w_invoked w ++ [p]) w in
       if bool_decide (p ∈ w_authentications w)
       then Goes (if error then up_permanentFailure true w else w) []
       else Goes w (repeat ICreate (sends (w_config w) p)).

(** ** Restart *)

(** The methods [restartConnection] of the two loops reset both loops. *)
Definition reset_loops w : world :=
  up_writeLoop None (w_writeLoops w) (up_readLoop None (w_readLoops w) w).
Definition par_restart r w : effect :=
  if w_writeMutex w then Blocked
  else if bool_decide (w_readLoop w = Some r) then Goes (reset_loops w) [IRestartConnection] else Goes w [].
Definition par_restart_write l w : effect :=
  if w_writeMutex w then Blocked
  else if bool_decide (w_writeLoop w = Some l) then Goes (reset_loops w) [IRestartConnection] else Goes w [].

Definition shutdown_thread : list instr := [IStopWriting; IStopReading; IShutdownSocket; ICancelAll].
Definition par_restartConnection w : effect :=
  if bool_decide (w_readLoop w = None) && bool_decide (w_writeLoop w = None)
  then Goes w (shutdown_thread ++ [IStartResolveHost])
  else Crash.
Definition par_stopWriting w : effect :=
  if w_writeMutex w then Blocked else Goes (up_writeLoop None (w_writeLoops w) w) [].
Definition par_stopReading w : effect := Goes (up_readLoop None (w_readLoops w) w) [].
Definition par_shutdownSocket w : effect := Goes (up_socket false w) [].
(** [cancelAll] calls the callbacks with the mutex of the store. *)
Definition par_cancelAll w : effect :=
  if w_storeMutex w then Blocked
  else Goes (up_storeMutex true w) (map (fun p => IInvoke p true) (w_store w) ++ [ICancelDone]).
Definition cancel_done w : effect := Goes (up_storeMutex false (up_store [] w)) [].

(** A new connection; [initSocket] asserts that there is no socket. *)
Definition par_startResolveHost w : effect :=
  Goes (if w_permanentFailure w then w else up_setup (w_setup w ++ [Resolving]) w) [].
Definition par_initSocket w : effect :=
  if w_socket w then Crash else Goes (up_setup (w_setup w ++ [Connecting]) (up_socket true w)) [].
Definition par_startSSLHandshake w : effect :=
  if w_socket w then Goes (up_setup (w_setup w ++ [Handshaking]) w) [] else Crash.
Definition par_finishInitialization w : effect :=
  if w_socket w then Goes (up_setup (w_setup w ++ [WritingHeader]) w) [] else Crash.
Definition par_notConnected w : effect := Goes (up_connected false w) [].

Definition exec (i : instr) (w : world) : effect :=
  match i with
  | ICreate => par_createRequestItem w
  | IAdd p => queue_push_back p w
  | ICheckConnected => check_connected w
  | ICreateAuthentication => par_insertAuthentication w
  | IInsert p => queue_push_front p w
  | ISetConnected => par_connected w
  | IStartWriting => par_startWriting w
  | IWriteLoopStart l => par_WriteLoop_start l w
  | ISendNext self l => next_lock self l w
  | IFront self l => next_front self l w
  | IReset l => next_reset l w
  | IStore self l p => next_store self l p w
  | IRemoveFirst self l p => next_removeFirst self l p w
  | IStartReading => par_startReading w
  | IWrite self l p => issue_write self l p w
  | IReadLoopStart r => par_ReadLoop_start r w
  | IReadNext self r => read_next self r w
  | IProcess rs r => answer rs r w
  | ILose p => par_loseResponse p w
  | IRestart r => par_restart r w
  | IRestartWrite l => par_restart_write l w
  | IRestartConnection => par_restartConnection w
  | IStopWriting => par_stopWriting w
  | IStopReading => par_stopReading w
  | IShutdownSocket => par_shutdownSocket w
  | ICancelAll => par_cancelAll w
  | IStartResolveHost => par_startResolveHost w
  | IInitSocket => par_initSocket w
  | IFinishInitialization => par_finishInitialization w
  | INotConnected => par_notConnected w
  | IRemove p => par_removeByID p w
  | IInvoke p error => invoke_callback p error w
  | ICancelDone => cancel_done w
  | IStartHandshake => par_startSSLHandshake w
  end.

Ltac unfold_exec := cbn [exec] in *; unfold par_createRequestItem, queue_push_back, check_connected,
  par_insertAuthentication, queue_push_front, par_connected, par_startWriting, par_WriteLoop_start, next_lock,
  next_front, next_reset, next_store, next_removeFirst, par_startReading, issue_write, par_ReadLoop_start, read_next,
  answer, par_restart, par_restart_write, par_restartConnection, par_stopWriting, par_stopReading, par_shutdownSocket,
  par_cancelAll, par_startResolveHost, par_initSocket, par_finishInitialization, par_notConnected,
  par_removeByID, par_loseResponse, invoke_callback, cancel_done, par_startSSLHandshake in *.

(** The threads of [sendRequest], of the handler that runs when the connection has
    been made ([finishInitialization]), and of the handlers of a write and a read. *)
Definition send_thread : list instr := [ICreate].
Definition connected_thread (c : par_config) : list instr :=
  (if authenticate c then [ICreateAuthentication] else []) ++ [ISetConnected].
Definition written_thread (l : nat) : list instr := [ISendNext true l].
Definition received_thread (rs : list (nat * bool)) (r : nat) : list instr := [IProcess rs r].
(** The handlers of a failed write and a failed read, and those of an expired
    deadline, which is cancelled when its operation completes. *)
Definition write_failed_thread (l p : nat) : list instr := [IRemove p; IInvoke p true; IRestartWrite l].
Definition read_failed_thread (r : nat) : list instr := [IRestart r].
(** The handlers of the operations that make a connection. *)
Definition setup_thread (c : par_config) (s : setup_op) : list instr :=
  match s with
  | Resolving => [IInitSocket]
  | Connecting => if ssl c then [IStartHandshake] else [IFinishInitialization]
  | Handshaking => [IFinishInitialization]
  | WritingHeader => connected_thread c
  end.
Definition setup_failed_thread (s : setup_op) : list instr :=
  match s with
  | Resolving => []
  | Connecting => shutdown_thread
  | Handshaking => [IShutdownSocket]
  | WritingHeader => INotConnected :: shutdown_thread
  end.

(** ** Runs *)
Definition spawn (todo : list instr) (w : world) : world := up_threads (w_threads w ++ [todo]) w.
Definition goes_on (t : nat) (todo : list instr) (w : world) : world :=
  up_threads (<[t := todo]> (w_threads w)) w.

(** One step of a thread. *)
Inductive thread_step : world -> option world -> Prop :=
| step_goes w t i k w' todo :
    w_threads w !! t = Some (i :: k) -> exec i w = Goes w' todo ->
    thread_step w (Some (goes_on t (todo ++ k) w'))
| step_crashes w t i k :
    w_threads w !! t = Some (i :: k) -> exec i w = Crash -> thread_step w None.

(** Steps of threads, and operations of the connection itself that complete. *)
Inductive active_step : world -> world -> Prop :=
| active_thread w w' : thread_step w (Some w') -> active_step w w'
| active_written w ws1 l p ws2 :
    w_writing w = ws1 ++ (l, p) :: ws2 ->
    active_step w (spawn (written_thread l) (up_writing (ws1 ++ ws2) w))
| active_setup w ss1 s ss2 :
    w_setup w = ss1 ++ s :: ss2 ->
    active_step w (spawn (setup_thread (w_config w) s) (up_setup (ss1 ++ ss2) w)).

(** All steps.  [failures] tells whether operations may fail, deadlines expire and
    responses be malformed. *)
Inductive step (failures : bool) : world -> option world -> Prop :=
| step_thread w o : thread_step w o -> step failures w o
| step_active w w' : active_step w w' -> step failures w (Some w')
| step_send w : step failures w (Some (spawn send_thread w))
| step_received w rs1 r rs2 ps :
    failures = true \/ forallb snd ps = true -> w_reading w = rs1 ++ r :: rs2 ->
    step failures w (Some (spawn (received_thread ps r) (up_reading (rs1 ++ rs2) w)))
| step_setup_failed w ss1 s ss2 :
    failures = true -> w_setup w = ss1 ++ s :: ss2 ->
    step failures w (Some (spawn (setup_failed_thread s) (up_setup (ss1 ++ ss2) w)))
| step_write_failed w ws1 l p ws2 :
    failures = true -> w_writing w = ws1 ++ (l, p) :: ws2 ->
    step failures w (Some (spawn (write_failed_thread l p) (up_writing (ws1 ++ ws2) w)))
| step_read_failed w rs1 r rs2 :
    failures = true -> w_reading w = rs1 ++ r :: rs2 ->
    step failures w (Some (spawn (read_failed_thread r) (up_reading (rs1 ++ rs2) w)))
| step_write_deadline w l p :
    failures = true -> (l, p) ∈ w_writing w -> step failures w (Some (spawn [IRestartWrite l] w))
| step_deadline w r :
    failures = true -> r ∈ w_reading w -> step failures w (Some (spawn [IRestart r] w)).

(** What can be reached from [w0]. *)
Inductive runs (failures : bool) (w0 : world) : option world -> Prop :=
| runs_start : runs failures w0 (Some w0)
| runs_next w o : runs failures w0 (Some w) -> step failures w o -> runs failures w0 o.

(** The connection has been started. *)
Definition initial_world (c : par_config) : world :=
  MkWorld c 0 [] [] false [] [] false false false [Resolving] false None [] None [] [] [] [] [] [] [].
Definition par_reaches (c : par_config) (failures : bool) : option world -> Prop :=
  runs failures (initial_world c).

Implicit Types (P rest todo : list instr).

(** ** The pool of instructions *)

(** All instructions that are still to be executed. *)
Definition pool w : list instr := concat (w_threads w).

Lemma pool_spawn th w : pool (spawn th w) ≡ₚ th ++ pool w.
Proof. apply concat_spawn. Qed.
Lemma in_pool w i : i ∈ pool w -> exists t th, w_threads w !! t = Some th /\ i ∈ th.
Proof. apply elem_of_pool. Qed.

Lemma exec_threads i w w' todo : exec i w = Goes w' todo -> w_threads w' = w_threads w.
Proof.
  destruct i; unfold_exec;
    repeat case_match; intros [= <- <-]; done.
Qed.

Lemma exec_config i w w' todo : exec i w = Goes w' todo -> w_config w' = w_config w.
Proof. destruct i; unfold_exec; repeat case_match; intros [= <- <-]; done. Qed.

(** ** Steps, seen from the pool of instructions *)

(** The instructions a thread starts with. *)
Definition first_instr (i : instr) : Prop :=
  match i with
  | IAdd _ | IInsert _ | IFront _ _ | IReset _ | IStore _ _ _ | IRemoveFirst _ _ _ | IWrite _ _ _ | ICancelDone => False
  | _ => True
  end.
(** The threads that a step can start; one that removes an item calls its callback. *)
Definition idle_thread (th : list instr) : Prop :=
  Forall first_instr th /\ forall p, IRemove p ∈ th -> exists error, IInvoke p error ∈ th.
Lemma idle_no_remove th : Forall (fun i => first_instr i /\ forall p, i <> IRemove p) th -> idle_thread th.
Proof.
  intros Hth. split; [eapply Forall_impl; [exact Hth|by intros i []]|].
  intros p Hp. rewrite Forall_forall in Hth. by destruct (Hth _ Hp) as [_ []%(fun H => H p)].
Qed.
Lemma idle_received ps r : idle_thread (received_thread ps r).
Proof. apply idle_no_remove. by repeat constructor. Qed.
Lemma idle_setup c s : idle_thread (setup_thread c s).
Proof. apply idle_no_remove. destruct s; cbn; unfold connected_thread; repeat case_match; by repeat constructor. Qed.
Lemma idle_setup_failed s : idle_thread (setup_failed_thread s).
Proof. apply idle_no_remove. destruct s; by repeat constructor. Qed.
Lemma idle_write_failed l p : idle_thread (write_failed_thread l p).
Proof. split; [by repeat constructor|]. intros q Hq. exists true. set_solver. Qed.

(** What a step leaves as it is when it starts a thread. *)
Definition same_data w w' : Prop :=
  w_config w' = w_config w /\ w_messageID w' = w_messageID w /\ w_queue w' = w_queue w /\ w_sent w' = w_sent w
  /\ w_order w' = w_order w /\ w_writeMutex w' = w_writeMutex w /\ w_store w' = w_store w
  /\ w_storeMutex w' = w_storeMutex w /\ w_invoked w' = w_invoked w /\ w_lost w' = w_lost w
  /\ w_authentications w' = w_authentications w.

(** A step executes one instruction or starts a thread. *)
Lemma step_cases f w w' :
  step f w (Some w') ->
  (exists t i k w1 todo, w_threads w !! t = Some (i :: k) /\ exec i w = Goes w1 todo /\ w' = goes_on t (todo ++ k) w1)
  \/ (exists th w1, idle_thread th /\ same_data w w1 /\ w_threads w1 = w_threads w /\ w' = spawn th w1).
Proof.
  assert (forall w1, thread_step w (Some w1) -> exists t i k w2 todo,
    w_threads w !! t = Some (i :: k) /\ exec i w = Goes w2 todo /\ w1 = goes_on t (todo ++ k) w2) as Hthread.
  { intros w1 Hs. inversion Hs; subst. by do 5 eexists. }
  assert (forall th w1, idle_thread th -> same_data w w1 -> w_threads w1 = w_threads w -> exists th' w1',
    idle_thread th' /\ same_data w w1' /\ w_threads w1' = w_threads w /\ spawn th w1 = spawn th' w1') as Hspawn.
  { intros th w1 ? ? ?. by exists th, w1. }
  intros Hs. inversion Hs as [? ? Ht|? ? Ha| | | | | | |]; subst.
  - left. by apply Hthread.
  - destruct Ha as [w1 w2 Ht|w1 ws1 l p ws2 Hw|w1 ss1 s ss2 Hss]; [left; by apply Hthread|right..]; apply Hspawn; try done;
      [by apply idle_no_remove; repeat constructor|apply idle_setup].
  - right. apply Hspawn; try done. by apply idle_no_remove; repeat constructor.
  - right. apply Hspawn; try done. apply idle_received.
  - right. apply Hspawn; try done. apply idle_setup_failed.
  - right. apply Hspawn; try done. apply idle_write_failed.
  - right. apply Hspawn; try done. by apply idle_no_remove; repeat constructor.
  - right. apply Hspawn; try done. by apply idle_no_remove; repeat constructor.
  - right. apply Hspawn; try done. by apply idle_no_remove; repeat constructor.
Qed.

(** A property of the pool and the data that all instructions keep holds in all runs. *)
Section invariants.
  Context (Q : list instr -> world -> Prop).
  Context (Q_perm : forall P1 P2 w, P1 ≡ₚ P2 -> Q P1 w -> Q P2 w).
  Context (Q_exec : forall i rest w w' todo, exec i w = Goes w' todo -> Q (i :: rest) w -> Q (todo ++ rest) w').
  Context (Q_idle : forall th P w, idle_thread th -> Q P w -> Q (th ++ P) w).
  Context (Q_data : forall P w w', same_data w w' -> Q P w -> Q P w').

Lemma runs_pool f w0 w : runs f w0 (Some w) -> Q (pool w0) w0 -> Q (pool w) w.
Proof using Q_perm Q_exec Q_idle Q_data.
  intros Hr H0. remember (Some w) as o eqn:Ho. revert w Ho.
  induction Hr as [|w o Hr IH Hs]; intros w' Hw'; [by injection Hw' as <-|]. subst o. specialize (IH w eq_refl).
  destruct (step_cases _ _ _ Hs) as [(t & i & k & w1 & todo & Ht & He & ->)|(th & w1 & Hth & Hd & Hw & ->)].
  - destruct (concat_step _ _ _ _ Ht) as (rest & Hpool & Hnew).
    pose proof (exec_threads _ _ _ _ He) as Hw1. apply (Q_data _ w1); [done|].
    unfold pool, goes_on. cbn [w_threads up_threads]. rewrite Hw1. apply (Q_perm (todo ++ rest)); [by rewrite Hnew|].
    eapply Q_exec; [exact He|]. eapply Q_perm; [exact Hpool|done].
  - apply (Q_perm (th ++ pool w1)); [by rewrite pool_spawn|]. apply (Q_data _ w); [exact Hd|].
    apply Q_idle; [done|]. unfold pool in *. by rewrite Hw.
Qed.
End invariants.

Lemma idle_no_item {A} (g : instr -> option A) th :
  (forall i, first_instr i -> g i = None) -> idle_thread th -> omap g th = [].
Proof. intros Hg [Hth _]. induction Hth as [|i th Hi _ IH]; [done|]. cbn. by rewrite Hg. Qed.

(** ** A scheduler, for concrete runs *)
Inductive choice : Type :=
| RunThread (t : nat) | Send | Written | Received (rs : list (nat * bool)) | Made
| MakeFailed | WriteFailed | ReadFailed | WriteDeadline | Deadline.
Definition run_choice (c : choice) w : option world :=
  match c with
  | RunThread t =>
      match w_threads w !! t with
      | Some (i :: k) => match exec i w with Goes w' todo => Some (goes_on t (todo ++ k) w') | _ => None end
      | _ => None
      end
  | Send => Some (spawn send_thread w)
  | Written =>
      match w_writing w with (l, _) :: ws => Some (spawn (written_thread l) (up_writing ws w)) | [] => None end
  | Received rs =>
      match w_reading w with r :: l => Some (spawn (received_thread rs r) (up_reading l w)) | [] => None end
  | Made =>
      match w_setup w with s :: ss => Some (spawn (setup_thread (w_config w) s) (up_setup ss w)) | [] => None end
  | MakeFailed =>
      match w_setup w with s :: ss => Some (spawn (setup_failed_thread s) (up_setup ss w)) | [] => None end
  | WriteFailed =>
      match w_writing w with (l, p) :: ws => Some (spawn (write_failed_thread l p) (up_writing ws w)) | [] => None end
  | ReadFailed =>
      match w_reading w with r :: rs => Some (spawn (read_failed_thread r) (up_reading rs w)) | [] => None end
  | WriteDeadline => match w_writing w with (l, _) :: _ => Some (spawn [IRestartWrite l] w) | [] => None end
  | Deadline => match w_reading w with r :: _ => Some (spawn [IRestart r] w) | [] => None end
  end.
Fixpoint run_choices (cs : list choice) w : option world :=
  match cs with
  | [] => Some w
  | c :: cs => match run_choice c w with Some w => run_choices cs w | None => None end
  end.
Definition no_failure (c : choice) : bool :=
  match c with
  | Received rs => forallb snd rs
  | MakeFailed | WriteFailed | ReadFailed | WriteDeadline | Deadline => false
  | _ => true
  end.

Lemma run_thread_step t w w' : run_choice (RunThread t) w = Some w' -> thread_step w (Some w').
Proof.
  cbn [run_choice]. destruct (w_threads w !! t) as [[|i k]|] eqn:Ht; [done| |done]. destruct (exec i w) eqn:He; try done.
  intros [= <-]. by eapply step_goes.
Qed.
Lemma run_choice_step b c w w' : no_failure c = true \/ b = true -> run_choice c w = Some w' -> step b w (Some w').
Proof.
  intros Hb. destruct c as [t| | |ps| | | | | |]; [by intros Hc%run_thread_step; constructor|..]; cbn [run_choice];
    repeat case_match; intros [= <-]; try (destruct Hb as [Hb|Hb]; [done|]).
  - apply step_send.
  - apply step_active. by eapply (active_written w [] _ _ _).
  - apply (step_received b w [] _ _ ps); [tauto|done].
  - apply step_active. by apply (active_setup w [] _ _).
  - by apply (step_setup_failed b w [] _ _).
  - by apply (step_write_failed b w [] _ _ _).
  - by apply (step_read_failed b w [] _ _).
  - eapply step_write_deadline; [done|]. match goal with H : w_writing w = _ |- _ => rewrite H end. left.
  - apply step_deadline; [done|]. match goal with H : w_reading w = _ |- _ => rewrite H end. left.
Qed.
Lemma run_choices_reach b cs : forall w0 w w',
  forallb no_failure cs || b = true -> runs b w0 (Some w) -> run_choices cs w = Some w' -> runs b w0 (Some w').
Proof.
  induction cs as [|c cs IH]; intros w0 w w' Hb Hr; cbn [run_choices]; [by intros [= <-]|].
  destruct (run_choice c w) as [w1|] eqn:Hc; [|done]. cbn [forallb] in Hb.
  assert (no_failure c = true \/ b = true) by (destruct (no_failure c), b; auto).
  apply IH; [by destruct (no_failure c), b, (forallb no_failure cs)|]. eapply runs_next; [done|by eapply run_choice_step].
Qed.
Definition run_from (c : par_config) (cs : list choice) : world :=
  default (initial_world c) (run_choices cs (initial_world c)).
Definition run_thread (t n : nat) : list choice := repeat (RunThread t) n.
