(* ===== verification/VstAnswers.v ===== *)
(** * Requests and mutexes in all interleavings

    What holds in every run of VstThreads.v, also when operations fail and the
    connection is restarted.

    - [requests_accounted]: where an accepted request can be: about to be queued, queued,
      stored, answered or about to be, or lost by a malformed response;
    - [mutex_discipline]: message ids are given once, one thread at a time has the
      mutex of the write loop and one that of the store, and there is no deadlock unless
      a callback of [cancelAll] sends. *)
From S2P Require Import Prelude Pool VstThreads.

Implicit Types (w : world) (self : bool) (l r p t : nat) (P rest todo : list instr).

(** ** Message ids are given once *)

(** The ids of items that are not in the queue yet. *)
Definition new_id (i : instr) : option nat :=
  match i with IAdd p | IInsert p => Some p | _ => None end.
Definition ids P w : list nat := omap new_id P ++ w_order w.
Definition ids_ok P w : Prop := NoDup (ids P w) /\ Forall (fun p => (p <= w_messageID w)%nat) (ids P w).

Lemma ids_ok_step i rest w w' todo : ids_ok (i :: rest) w -> exec i w = Goes w' todo -> ids_ok (todo ++ rest) w'.
Proof.
  intros [Hnd Hle] He. unfold ids_ok, ids in *.
  assert (forall id, id = S (w_messageID w) -> new_id i = None -> NoDup (id :: omap new_id rest ++ w_order w)
    /\ Forall (fun p => (p <= id)%nat) (id :: omap new_id rest ++ w_order w)) as Hnew.
  { intros id -> Hi. cbn in Hnd, Hle. rewrite Hi in Hnd, Hle. split.
    - constructor; [|done]. intros Hin. rewrite Forall_forall in Hle. specialize (Hle _ Hin). lia.
    - constructor; [lia|]. eapply Forall_impl; [exact Hle|]. intros; cbn in *; lia. }
  destruct i; unfold_exec;
    repeat case_match; simplify_eq; rewrite ?omap_app, ?omap_repeat, ?omap_each by done; try done.
  1, 3: by apply Hnew.
  - assert (omap new_id rest ++ w_order w ++ [p] ≡ₚ p :: omap new_id rest ++ w_order w) as Hperm
      by (rewrite (assoc_L (++)); apply (Permutation_app_comm _ [p])).
    cbn. rewrite Hperm. by split.
  - assert (omap new_id rest ++ p :: w_order w ≡ₚ p :: omap new_id rest ++ w_order w) as Hperm
      by (symmetry; apply Permutation_middle).
    cbn. rewrite Hperm. by split.
Qed.

Lemma thread_ids w t i k w' todo :
  ids_ok (pool w) w -> w_threads w !! t = Some (i :: k) -> exec i w = Goes w' todo ->
  w_threads w' = w_threads w /\ ids_ok (pool (goes_on t (todo ++ k) w')) w'.
Proof.
  intros Hids Ht He. pose proof (exec_threads _ _ _ _ He) as Hw'. split; [done|].
  destruct (concat_step _ _ _ _ Ht) as (rest & Hpool & Hnew).
  unfold pool, goes_on, ids_ok, ids in *. cbn [w_threads up_threads]. rewrite Hw'. rewrite Hpool in Hids.
  rewrite Hnew. by apply (ids_ok_step i rest w w' todo).
Qed.
Lemma runs_ids f w0 w : runs f w0 (Some w) -> ids_ok (pool w0) w0 -> ids_ok (pool w) w.
Proof.
  apply runs_pool.
  - intros P1 P2 w1 HP. unfold ids_ok, ids. by rewrite HP.
  - intros i rest w1 w2 todo He Hids. by eapply ids_ok_step.
  - intros th P w1 Hth. unfold ids_ok, ids. rewrite omap_app, (idle_no_item new_id th); [done| |done]. by intros [].
  - intros P w1 w2 (_ & Hm & _ & _ & Ho & _). unfold ids_ok, ids. by rewrite Hm, Ho.
Qed.

(** ** The mutexes *)

(** The instructions that are executed with the mutex of the write loop, and those
    executed with the mutex of the store when it is held over several steps. *)
Definition holding (i : instr) : option unit :=
  match i with IFront _ _ | IReset _ | IStore _ _ _ | IRemoveFirst _ _ _ => Some () | _ => None end.
Definition cancelling (i : instr) : option unit := match i with ICancelDone => Some () | _ => None end.
Definition mutex_ok P w : Prop :=
  length (omap holding P) = (if w_writeMutex w then 1 else 0)%nat
  /\ length (omap cancelling P) = (if w_storeMutex w then 1 else 0)%nat.

Lemma mutex_ok_exec i rest w w' todo : exec i w = Goes w' todo -> mutex_ok (i :: rest) w -> mutex_ok (todo ++ rest) w'.
Proof.
  unfold mutex_ok. intros He. rewrite !omap_app, !length_app.
  destruct i; unfold_exec; repeat case_match; simplify_eq; cbn in *; simplify_eq;
    rewrite ?omap_app, ?omap_each, ?omap_repeat by done; cbn; intros []; first [done|congruence|split; first [done|congruence|lia]].
Qed.

(** The mutex of the write loop is held by the first instruction of a thread only. *)
Definition not_holding (i : instr) : Prop := holding i = None.
Lemma exec_not_holding i w w' todo : exec i w = Goes w' todo -> Forall not_holding (tail todo).
Proof.
  destruct i; unfold_exec; intros; repeat case_match; simplify_eq; try by repeat constructor.
  - apply Forall_tail, Forall_app. split; [by apply Forall_each|by repeat constructor].
  - by apply Forall_tail, Forall_same.
Qed.
Definition tails_ok (ths : list (list instr)) : Prop := Forall (fun th => Forall not_holding (tail th)) ths.
Lemma tails_ok_step ths t i k w w' todo :
  tails_ok ths -> ths !! t = Some (i :: k) -> exec i w = Goes w' todo -> tails_ok (<[t := todo ++ k]> ths).
Proof.
  intros Hths Ht He. apply Forall_insert; [done|]. apply exec_not_holding in He.
  pose proof (Forall_lookup_1 _ _ _ _ Hths Ht) as Hk. cbn in Hk.
  destruct todo as [|j todo]; cbn in *; [by destruct k; [|inversion Hk]|by apply Forall_app].
Qed.

Lemma runs_threads (Q : list (list instr) -> Prop) f w0 w :
  (forall ths t i k w w' todo, Q ths -> ths !! t = Some (i :: k) -> exec i w = Goes w' todo -> Q (<[t := todo ++ k]> ths)) ->
  (forall ths th, Q ths -> idle_thread th -> Q (ths ++ [th])) ->
  runs f w0 (Some w) -> Q (w_threads w0) -> Q (w_threads w).
Proof.
  intros Hexec Hidle Hr H0. remember (Some w) as o eqn:Ho. revert w Ho.
  induction Hr as [|w o Hr IH Hs]; intros w' Hw'; [by injection Hw' as <-|]. subst o. specialize (IH w eq_refl).
  destruct (step_cases _ _ _ Hs) as [(t & i & k & w1 & todo & Ht & He & ->)|(th & w1 & Hth & _ & Hw & ->)]; cbn.
  - rewrite (exec_threads _ _ _ _ He). by eapply Hexec.
  - rewrite Hw. by apply Hidle.
Qed.
Lemma runs_tails f w0 w : runs f w0 (Some w) -> tails_ok (w_threads w0) -> tails_ok (w_threads w).
Proof.
  apply runs_threads; [intros; by eapply tails_ok_step|]. intros ths th Hths [Hth _]. apply Forall_app. split; [done|].
  constructor; [|done]. apply Forall_tail. eapply Forall_impl; [exact Hth|]. by intros [].
Qed.

(** While [cancelAll] runs, its thread calls callbacks, if these do not send. *)
Definition cancels (th : list instr) : Prop :=
  ICancelDone ∈ th ->
  exists ps k, th = map (fun p => IInvoke p true) ps ++ ICancelDone :: k /\ ICancelDone ∉ k.

Lemma exec_cancel_done i w w' todo :
  exec i w = Goes w' todo -> ICancelDone ∈ todo ->
  i = ICancelAll /\ exists ps, todo = map (fun p => IInvoke p true) ps ++ [ICancelDone].
Proof.
  intros He Hc. destruct i; unfold_exec; repeat case_match; simplify_eq;
    try (exfalso; set_solver); try by (exfalso; apply list_elem_of_In, repeat_spec in Hc).
  split; [done|by eexists].
Qed.
Lemma cancels_step c ths t i k w w' todo :
  (forall p, sends c p = 0%nat) -> w_config w = c ->
  Forall cancels ths -> ths !! t = Some (i :: k) -> exec i w = Goes w' todo -> Forall cancels (<[t := todo ++ k]> ths).
Proof.
  intros Hc Hw Hths Ht He. apply Forall_insert; [done|].
  pose proof (Forall_lookup_1 _ _ _ _ Hths Ht) as Hi. intros [Hin|Hin]%elem_of_app.
  - destruct (exec_cancel_done _ _ _ _ He Hin) as [-> [ps ->]]. exists ps, k. rewrite <- (assoc_L (++)). split; [done|].
    intros Hk. destruct Hi as ([|p qs] & k' & Heq & _); [by right|done|done].
  - destruct Hi as ([|p qs] & k' & Heq & Hk'); [by right|by injection Heq as -> ->|].
    injection Heq as -> ->. cbn in He. unfold invoke_callback in He. cbn zeta in He.
    assert (todo = []) as ->; [|by exists qs, k']. cbn [w_config up_invoked] in He. rewrite Hw, Hc in He.
    by repeat case_match; simplify_eq.
Qed.
Lemma runs_cancels f w0 w :
  (forall p, sends (w_config w0) p = 0%nat) -> runs f w0 (Some w) -> Forall cancels (w_threads w0) ->
  w_config w = w_config w0 /\ Forall cancels (w_threads w).
Proof.
  intros Hc Hr H0. remember (Some w) as o eqn:Ho. revert w Ho.
  induction Hr as [|w o Hr IH Hs]; intros w' Hw'; [by injection Hw' as <-|]. subst o. destruct (IH w eq_refl) as [Hcw Hths].
  destruct (step_cases _ _ _ Hs) as [(t & i & k & w1 & todo & Ht & He & ->)|(th & w1 & [Hth _] & [Hw1 _] & Hw & ->)]; cbn.
  - rewrite (exec_threads _ _ _ _ He), (exec_config _ _ _ _ He). split; [done|by eapply cancels_step].
  - split; [congruence|]. rewrite Hw. apply Forall_app. split; [done|]. constructor; [|done].
    intros Hin. rewrite Forall_forall in Hth. by apply Hth in Hin.
Qed.

(** Nobody but the threads with a mutex makes others wait. *)
Lemma exec_blocked i w : exec i w = Blocked -> w_writeMutex w = true \/ w_storeMutex w = true.
Proof. destruct i; unfold_exec; intros; repeat case_match; simplify_eq; tauto. Qed.
Lemma holding_goes i w : holding i = Some () -> w_storeMutex w = false -> exec i w <> Blocked.
Proof.
  intros Hi Hs. destruct i; cbn in Hi; try done; cbn [exec];
    unfold next_front, next_reset, next_store, next_removeFirst; rewrite ?Hs; by repeat case_match.
Qed.
Lemma omap_nonempty (f : instr -> option unit) P : length (omap f P) <> 0%nat -> exists i, i ∈ P /\ f i = Some ().
Proof.
  intros Hlen. destruct (omap f P) as [|[] us] eqn:Hus; [done|].
  assert (() ∈ omap f P) as (i & Hin & Hi)%list_elem_of_omap by (rewrite Hus; left). by exists i.
Qed.
Lemma holder_first w : tails_ok (w_threads w) -> length (omap holding (pool w)) <> 0%nat ->
  exists t i k, w_threads w !! t = Some (i :: k) /\ holding i = Some ().
Proof.
  intros Hths (i & (t & th & Ht & Hin)%in_pool & Hi)%omap_nonempty.
  pose proof (Forall_lookup_1 _ _ _ _ Hths Ht) as Htail.
  destruct th as [|j k]; [by apply elem_of_nil in Hin|]. apply elem_of_cons in Hin as [<-|Hin]; [by exists t, i, k|].
  cbn in Htail. rewrite Forall_forall in Htail. specialize (Htail i Hin). unfold not_holding in *. congruence.
Qed.

Lemma thread_steps w t i k : w_threads w !! t = Some (i :: k) -> exec i w <> Blocked -> exists o, thread_step w o.
Proof.
  intros Ht Hi. destruct (exec i w) as [| |w' todo] eqn:He; [done|..]; eexists; [by eapply step_crashes|by eapply step_goes].
Qed.
Lemma no_wait w t i k :
  mutex_ok (pool w) w -> tails_ok (w_threads w) -> w_storeMutex w = false ->
  w_threads w !! t = Some (i :: k) -> exists o, thread_step w o.
Proof.
  intros [Hm _] Hths Hst Ht. destruct (exec i w) eqn:He; [|eapply thread_steps; [exact Ht|congruence]..].
  destruct (exec_blocked _ _ He) as [Hw|]; [|congruence]. rewrite Hw in Hm.
  destruct (holder_first w Hths) as (t' & j & k' & Ht' & Hj); [lia|].
  eapply thread_steps; [exact Ht'|by apply holding_goes].
Qed.
Lemma no_deadlock w t i k :
  mutex_ok (pool w) w -> tails_ok (w_threads w) -> Forall cancels (w_threads w) ->
  w_threads w !! t = Some (i :: k) -> exists o, thread_step w o.
Proof.
  intros [Hm Hs] Hths Hc Ht. destruct (decide (w_storeMutex w = true)) as [Hst|Hst%not_true_is_false].
  - rewrite Hst in Hs.
    destruct (omap_nonempty cancelling (pool w)) as (j & (t' & th & Ht' & Hin)%in_pool & Hj); [lia|].
    assert (j = ICancelDone) as -> by (by destruct j).
    destruct (Forall_lookup_1 _ _ _ _ Hc Ht' Hin) as ([|p ps] & k' & -> & _); eapply thread_steps; try exact Ht'; [done|].
    cbn [exec]. unfold invoke_callback. cbn zeta. by repeat case_match.
  - by eapply no_wait.
Qed.

(** ** Requests *)
Definition answered P w p : Prop := p ∈ w_invoked w \/ exists error, IInvoke p error ∈ P.
Definition settled P w p : Prop := p ∈ w_store w \/ answered P w p \/ p ∈ w_lost w.
(** The items that have been put into the store. *)
Definition stored_item (i : instr) : option nat :=
  match i with IRemoveFirst _ _ p | IWrite _ _ p => Some p | _ => None end.
Record accounted P w : Prop := {
  ac_mutex : mutex_ok P w;
  ac_invoked : NoDup (w_invoked w);
  ac_removed p : IRemove p ∈ P -> answered P w p;
  ac_cancelled p : ICancelDone ∈ P -> p ∈ w_store w -> answered P w p;
  ac_sent p : p ∈ w_sent w -> settled P w p;
  ac_taken p : p ∈ omap stored_item P -> settled P w p;
}.

Lemma answered_mono P1 P2 w p : P1 ⊆ P2 -> answered P1 w p -> answered P2 w p.
Proof. intros HP [Hi|[e He]]; [by left|right; exists e; by apply HP]. Qed.
Lemma settled_mono P1 P2 w p : P1 ⊆ P2 -> settled P1 w p -> settled P2 w p.
Proof. intros HP [Hs|[Ha|Hl]]; [by left|right; left; by eapply answered_mono|by right; right]. Qed.

Lemma exec_invoked i w w' todo p : exec i w = Goes w' todo -> p ∈ w_invoked w -> p ∈ w_invoked w'.
Proof. destruct i; unfold_exec; intros; repeat case_match; simplify_eq; cbn; rewrite ?elem_of_app; tauto. Qed.
Lemma answered_exec i rest w w' todo p :
  exec i w = Goes w' todo -> answered (i :: rest) w p -> answered (todo ++ rest) w' p.
Proof.
  intros He [Hi|[e [<-|Hin]%elem_of_cons]]; [left; by eapply exec_invoked| |right; exists e; set_solver].
  left. cbn in He. unfold invoke_callback in He. cbn zeta in He.
  destruct (bool_decide (p ∈ w_invoked w)) eqn:Hp; [apply bool_decide_eq_true in Hp; by simplify_eq|].
  repeat case_match; simplify_eq; cbn; set_solver.
Qed.

(** What happens to the items of the store, and to those that are lost. *)
Lemma exec_lost i w w' todo p : exec i w = Goes w' todo -> p ∈ w_lost w -> p ∈ w_lost w'.
Proof. destruct i; unfold_exec; intros; repeat case_match; simplify_eq; cbn; rewrite ?elem_of_app; tauto. Qed.
Lemma elem_of_filter_ne p q (l : list nat) : p ∈ l -> p ∈ filter (fun q' => q' <> q) l \/ p = q.
Proof. intros Hp. destruct (decide (p = q)) as [->|]; [by right|left; by apply list_elem_of_filter]. Qed.
Lemma exec_store i w w' todo p :
  exec i w = Goes w' todo -> p ∈ w_store w ->
  p ∈ w_store w' \/ p ∈ w_lost w' \/ i = IRemove p \/ i = ICancelDone.
Proof.
  intros He Hp. destruct i; unfold_exec; repeat case_match; simplify_eq; cbn; try by left.
  all: try (left; match goal with H : w_store _ = _ |- _ => by rewrite H end).
  all: try (exfalso; set_solver).
  - left. set_solver.
  - destruct (elem_of_filter_ne p p0 _ Hp) as [|<-]; [by left|right; left; set_solver].
  - destruct (elem_of_filter_ne p p0 _ Hp) as [|<-]; [by left|by right; right; left].
  - by right; right; right.
Qed.
Lemma settled_exec i rest w w' todo p :
  exec i w = Goes w' todo -> accounted (i :: rest) w -> settled (i :: rest) w p -> settled (todo ++ rest) w' p.
Proof.
  intros He [_ _ Hrem Hcan _ _] [Hp|[Ha|Hl]];
    [|right; left; by eapply answered_exec|right; right; by eapply exec_lost].
  destruct (exec_store _ _ _ _ _ He Hp) as [|[|[Hi|Hi]]];
    [by left|by right; right|subst i; right; left; eapply answered_exec; [exact He|]..].
  - apply Hrem. left.
  - apply Hcan; [left|done].
Qed.
(** The store does not grow while it is being cleared. *)
Lemma exec_store_held i w w' todo p :
  exec i w = Goes w' todo -> w_storeMutex w = true -> p ∈ w_store w' -> p ∈ w_store w.
Proof. destruct i; unfold_exec; intros; repeat case_match; simplify_eq; cbn in *; try congruence; set_solver. Qed.

Lemma in_cancelling P : ICancelDone ∈ P -> length (omap cancelling P) <> 0%nat.
Proof.
  intros Hin Hl. apply nil_length_inv in Hl.
  assert (() ∈ omap cancelling P) as H by (apply list_elem_of_omap; by exists ICancelDone).
  rewrite Hl in H. by apply elem_of_nil in H.
Qed.

(** The items of an instruction, and those it goes on with. *)
Lemma exec_removes i w w' todo p : exec i w = Goes w' todo -> IRemove p ∈ todo -> exists error, IInvoke p error ∈ todo.
Proof.
  intros He Hp. destruct i; unfold_exec; repeat case_match; simplify_eq;
    try (exfalso; set_solver); try by (exfalso; apply list_elem_of_In, repeat_spec in Hp).
  exists false. set_solver.
Qed.
Lemma exec_cancels i w w' todo p :
  exec i w = Goes w' todo -> ICancelDone ∈ todo -> p ∈ w_store w' -> exists error, IInvoke p error ∈ todo.
Proof.
  intros He Hc Hp. destruct i; unfold_exec; repeat case_match; simplify_eq;
    try (exfalso; set_solver); try by (exfalso; apply list_elem_of_In, repeat_spec in Hc).
  exists true. apply elem_of_app. left. apply list_elem_of_fmap. by exists p.
Qed.
Lemma exec_stores i rest w w' todo p :
  exec i w = Goes w' todo -> p ∈ w_sent w' \/ p ∈ omap stored_item todo ->
  p ∈ w_sent w \/ p ∈ omap stored_item (i :: rest) \/ p ∈ w_store w'.
Proof.
  intros He Hp. destruct i; unfold_exec; repeat case_match; simplify_eq; cbn in *;
    rewrite ?omap_app, ?omap_each, ?omap_repeat in Hp by done;
    repeat match goal with H : bool_decide _ = true |- _ => apply bool_decide_eq_true in H end; set_solver.
Qed.

Lemma accounted_exec i rest w w' todo : exec i w = Goes w' todo -> accounted (i :: rest) w -> accounted (todo ++ rest) w'.
Proof.
  intros He Ha. pose proof Ha as [Hm Hinv Hrem Hcan Hsent Htaken].
  assert (Hnew : forall p, (exists error, IInvoke p error ∈ todo) -> answered (todo ++ rest) w' p).
  { intros p [e Hp]. right. exists e. apply elem_of_app. by left. }
  assert (Hstored : forall p, p ∈ w_sent w' \/ p ∈ omap stored_item todo -> settled (todo ++ rest) w' p).
  { intros p Hp. destruct (exec_stores i rest _ _ _ _ He Hp) as [Hp'|[Hp'|Hp']]; [..|by left]; eapply settled_exec; eauto. }
  split.
  - by eapply mutex_ok_exec.
  - clear - He Hinv. destruct i; unfold_exec; repeat case_match; simplify_eq; try done; cbn.
    all: apply NoDup_app; split_and!; [done| |apply NoDup_singleton].
    all: intros q Hq ->%list_elem_of_singleton; by rewrite bool_decide_eq_false in H.
  - intros p [Hp|Hp]%elem_of_app; [by eapply Hnew, exec_removes|eapply answered_exec, Hrem; [exact He|by right]].
  - intros p [Hc|Hc]%elem_of_app Hp; [by eapply Hnew, exec_cancels|].
    eapply answered_exec; [exact He|]. apply Hcan; [by right|]. eapply exec_store_held; [exact He| |exact Hp].
    destruct Hm as [_ Hm]. destruct (w_storeMutex w); [done|].
    exfalso. apply (in_cancelling (i :: rest)); [by right|exact Hm].
  - intros p Hp. apply Hstored. by left.
  - intros p. rewrite omap_app, elem_of_app. intros [Hp|Hp]; [by apply Hstored; right|].
    eapply settled_exec; [exact He|exact Ha|]. apply Htaken. cbn. destruct (stored_item i); [by right|done].
Qed.

Lemma accounted_perm P1 P2 w : P1 ≡ₚ P2 -> accounted P1 w -> accounted P2 w.
Proof.
  intros HP [Hm Hinv Hrem Hcan Hsent Htaken]. assert (P1 ⊆ P2) as Hsub by (intros i; by rewrite HP).
  split; [unfold mutex_ok in *; by rewrite <- HP|done|..].
  - intros p Hp. eapply answered_mono; [exact Hsub|]. apply Hrem. by rewrite HP.
  - intros p Hc Hp. eapply answered_mono; [exact Hsub|]. apply Hcan; [by rewrite HP|done].
  - intros p Hp. eapply settled_mono; [exact Hsub|by apply Hsent].
  - intros p Hp. eapply settled_mono; [exact Hsub|]. apply Htaken. by rewrite HP.
Qed.
Lemma accounted_idle th P w : idle_thread th -> accounted P w -> accounted (th ++ P) w.
Proof.
  intros Hth [Hm Hinv Hrem Hcan Hsent Htaken]. assert (Hsub : P ⊆ th ++ P) by set_solver.
  split; [|done|..].
  - unfold mutex_ok in *.
    rewrite !omap_app, (idle_no_item holding th), (idle_no_item cancelling th); [done|by intros []|done|by intros []|done].
  - intros p [Hp|Hp]%elem_of_app; [|by eapply answered_mono, Hrem].
    right. destruct Hth as [_ Hth]. destruct (Hth p Hp) as [e He]. exists e. apply elem_of_app. by left.
  - intros p [Hc|Hc]%elem_of_app Hp; [|by eapply answered_mono, Hcan].
    destruct Hth as [Hth _]. rewrite Forall_forall in Hth. by apply Hth in Hc.
  - intros p Hp. by eapply settled_mono, Hsent.
  - intros p. rewrite omap_app, (idle_no_item stored_item th); [|by intros []|done]. intros Hp. by eapply settled_mono, Htaken.
Qed.
Lemma settled_data P w w' p : same_data w w' -> settled P w p -> settled P w' p.
Proof.
  intros (_ & _ & _ & _ & _ & _ & Hst & _ & Hi & Hl & _). unfold settled, answered. by rewrite Hst, Hi, Hl.
Qed.
Lemma accounted_data P w w' : same_data w w' -> accounted P w -> accounted P w'.
Proof.
  intros (_ & _ & _ & Hs & _ & Hw & Hst & Hsm & Hi & Hl & _) [Hm Hinv Hrem Hcan Hsent Htaken].
  split; unfold mutex_ok, settled, answered in *; rewrite ?Hs, ?Hw, ?Hst, ?Hsm, ?Hi, ?Hl; done.
Qed.

Lemma initial_ids c : ids_ok (pool (initial_world c)) (initial_world c).
Proof. split; constructor. Qed.

(** ** Requests that wait *)

(** The item that the owner of the mutex moves from the queue to the store. *)
Definition taking (i : instr) : option nat :=
  match i with IStore _ _ p | IRemoveFirst _ _ p => Some p | _ => None end.
(** A request of a user, once it has its id, is about to be queued, queued, or settled;
    in front of the one that is moved there are only authentications. *)
Record located P w : Prop := {
  lo_inserts a : IInsert a ∈ P -> a ∈ w_authentications w;
  lo_taking p : p ∈ omap taking P ->
    exists auths q, w_queue w = auths ++ p :: q /\ Forall (fun a => a ∈ w_authentications w) auths;
  lo_user p : (1 <= p <= w_messageID w)%nat -> p ∉ w_authentications w ->
    IAdd p ∈ P \/ p ∈ w_queue w \/ settled P w p;
}.

Lemma taking_holding P p : p ∈ omap taking P -> length (omap holding P) <> 0%nat.
Proof.
  intros (i & Hin & Hi)%list_elem_of_omap Hl. apply nil_length_inv in Hl.
  assert (() ∈ omap holding P) as H by (apply list_elem_of_omap; exists i; by destruct i).
  rewrite Hl in H. by apply elem_of_nil in H.
Qed.
(** How the queue, the ids and the authentications change. *)
Lemma exec_queue_cases i w w' todo :
  exec i w = Goes w' todo ->
  w_queue w' = w_queue w \/ (exists p, i = IAdd p /\ w_queue w' = w_queue w ++ [p])
  \/ (exists p, i = IInsert p /\ w_queue w' = p :: w_queue w)
  \/ (exists self l p h, i = IRemoveFirst self l p /\ w_queue w = h :: w_queue w').
Proof. destruct i; unfold_exec; intros; repeat case_match; simplify_eq; cbn; eauto 10. Qed.
Lemma exec_ids i w w' todo :
  exec i w = Goes w' todo ->
  (w_messageID w' = w_messageID w /\ w_authentications w' = w_authentications w)
  \/ (w_messageID w' = S (w_messageID w) /\ w_authentications w' = w_authentications w /\ IAdd (w_messageID w') ∈ todo)
  \/ (w_messageID w' = S (w_messageID w) /\ w_authentications w' = w_messageID w' :: w_authentications w).
Proof.
  destruct i; unfold_exec; intros; repeat case_match; simplify_eq; cbn; try (by left).
  - right; left. split_and!; [done..|left].
  - by right; right.
Qed.
Lemma exec_inserts i w w' todo a : exec i w = Goes w' todo -> IInsert a ∈ todo -> a ∈ w_authentications w'.
Proof.
  intros He Ha. destruct i; unfold_exec; repeat case_match; simplify_eq;
    try (exfalso; set_solver); try by (exfalso; apply list_elem_of_In, repeat_spec in Ha).
  cbn. set_solver.
Qed.
Lemma exec_taking i w w' todo p :
  exec i w = Goes w' todo -> p ∈ omap taking todo ->
  w_queue w' = w_queue w /\ (taking i = Some p \/ head (w_queue w) = Some p).
Proof.
  intros He Hp. destruct i; unfold_exec; repeat case_match; simplify_eq; cbn in *;
    rewrite ?omap_app, ?omap_each, ?omap_repeat in Hp by done; cbn in Hp;
    try (apply elem_of_nil in Hp; contradiction); apply list_elem_of_singleton in Hp; subst; split; try done; auto.
Qed.

Lemma located_exec i rest w w' todo :
  exec i w = Goes w' todo -> accounted (i :: rest) w -> located (i :: rest) w -> located (todo ++ rest) w'.
Proof.
  intros He Ha [Hins Htake Huser]. pose proof (exec_ids _ _ _ _ He) as Hid. pose proof (exec_queue_cases _ _ _ _ He) as Hq.
  assert (Hauth : forall a, a ∈ w_authentications w -> a ∈ w_authentications w').
  { intros a Hin. destruct Hid as [[_ ->]|[(_ & -> & _)|(_ & ->)]]; [done|done|by right]. }
  split.
  - intros a [Hin|Hin]%elem_of_app; [by eapply exec_inserts|]. apply Hauth, Hins. by right.
  - intros p. rewrite omap_app, elem_of_app. intros Hp.
    assert (Hnow : exists auths q, w_queue w = auths ++ p :: q /\ Forall (fun a => a ∈ w_authentications w) auths).
    { destruct Hp as [Hp|Hp].
      - destruct (exec_taking _ _ _ _ _ He Hp) as [_ [Hi|Hi]].
        + apply Htake. cbn. rewrite Hi. left.
        + destruct (w_queue w) as [|p' q]; [done|]. injection Hi as ->. by exists [], q.
      - apply Htake. cbn. destruct (taking i); [by right|done]. }
    destruct Hnow as (auths & q & Hwq & Hf).
    assert (Hf' : Forall (fun a => a ∈ w_authentications w') auths) by (eapply Forall_impl; [exact Hf|exact Hauth]).
    destruct Hq as [->|[(p' & _ & ->)|[(a & -> & ->)|(self & l & p' & h & -> & _)]]].
    + by exists auths, q.
    + exists auths, (q ++ [p']). rewrite Hwq, <- (assoc_L (++)). done.
    + exists (a :: auths), q. split; [by rewrite Hwq|]. constructor; [|done]. apply Hauth, Hins. left.
    + exfalso. destruct (ac_mutex _ _ Ha) as [Hm _]. cbn in Hm.
      destruct Hp as [Hp|Hp]; [|apply taking_holding in Hp; destruct (w_writeMutex w); lia].
      destruct (exec_taking _ _ _ _ _ He Hp) as [Heq _]. cbn [exec] in He. unfold next_removeFirst in He.
      destruct (w_queue w); [done|]. injection He as <- <-. cbn in Hp. by apply elem_of_nil in Hp.
  - intros p Hp Hna.
    assert (Hold : (1 <= p <= w_messageID w)%nat -> p ∉ w_authentications w ->
      IAdd p ∈ todo ++ rest \/ p ∈ w_queue w' \/ settled (todo ++ rest) w' p).
    { intros Hp' Hna'. destruct (Huser p Hp' Hna') as [Hadd|[Hin|Hs]].
      - apply elem_of_cons in Hadd as [<-|Hadd]; [|left; set_solver].
        right; left. cbn in He. injection He as <- <-. cbn. set_solver.
      - destruct Hq as [->|[(p' & _ & ->)|[(a & -> & ->)|(self & l & p' & h & -> & Hwq)]]];
          [by right; left|right; left; set_solver..|].
        rewrite Hwq in Hin. apply elem_of_cons in Hin as [->|Hin]; [|by right; left].
        right; right. eapply settled_exec; [exact He|exact Ha|].
        destruct (Htake p') as ([|a auths] & q & Hwq' & Hf); [cbn; left|..]; rewrite Hwq in Hwq'; injection Hwq' as -> _.
        + apply (ac_taken _ _ Ha). cbn. left.
        + by apply Forall_cons in Hf as [Hf _].
      - right; right. by eapply settled_exec. }
    destruct Hid as [[Hm Hau]|[(Hm & Hau & Hadd)|[Hm Hau]]]; rewrite Hm in Hp; rewrite Hau in Hna; [by apply Hold|..].
    + destruct (decide (p = S (w_messageID w))) as [->|Hne]; [left; rewrite <- Hm; set_solver|apply Hold; [lia|done]].
    + apply not_elem_of_cons in Hna as [Hne Hna]. apply Hold; [lia|done].
Qed.

Lemma located_mono P1 P2 w :
  P1 ⊆ P2 -> (forall a, IInsert a ∈ P2 -> IInsert a ∈ P1) -> omap taking P2 ⊆ omap taking P1 ->
  located P1 w -> located P2 w.
Proof.
  intros HP Hi Ht [Hins Htake Huser]. split; [eauto..|]. intros p Hp Hna.
  destruct (Huser p Hp Hna) as [?|[?|?]]; [left; by apply HP|by right; left|right; right; by eapply settled_mono].
Qed.

Lemma runs_accounted f w0 w :
  runs f w0 (Some w) -> accounted (pool w0) w0 /\ located (pool w0) w0 -> accounted (pool w) w /\ located (pool w) w.
Proof.
  apply (runs_pool (fun P w => accounted P w /\ located P w)).
  - intros P1 P2 w1 HP [Ha Hl]. split; [by eapply accounted_perm|]. apply (located_mono P1); [..|exact Hl].
    + intros i. by rewrite HP.
    + intros a. by rewrite HP.
    + intros p. by rewrite HP.
  - intros i rest w1 w2 todo He [Ha Hl]. split; [by eapply accounted_exec|by eapply located_exec].
  - intros th P w1 Hth [Ha Hl]. split; [by apply accounted_idle|]. apply (located_mono P); [set_solver| | |exact Hl].
    + intros a [Hin|Hin]%elem_of_app; [|done]. destruct Hth as [Hth _]. rewrite Forall_forall in Hth. by apply Hth in Hin.
    + rewrite omap_app, (idle_no_item taking th); [done|by intros []|done].
  - intros P w1 w2 Hd [Ha [Hins Htake Huser]]. split; [by eapply accounted_data|].
    pose proof (fun p => settled_data P w1 w2 p Hd) as Hs. destruct Hd as (_ & Hm & Hq & _ & _ & _ & _ & _ & _ & _ & Hau).
    split; rewrite ?Hau, ?Hm, ?Hq; [done|done|]. intros p Hp Hna. destruct (Huser p Hp Hna) as [?|[?|?]]; eauto.
Qed.
Lemma initial_accounted c :
  accounted (pool (initial_world c)) (initial_world c) /\ located (pool (initial_world c)) (initial_world c).
Proof.
  split; [split; try done; [constructor|set_solver..]|]. split; [set_solver|set_solver|cbn; lia].
Qed.

(** A thread that calls callbacks in [cancelAll] and waits itself. *)
Definition stuck_in_callback w : Prop :=
  exists t i k, w_threads w !! t = Some (i :: k) /\ ICancelDone ∈ k /\ exec i w = Blocked.
Lemma deadlock_in_callback w t i k :
  mutex_ok (pool w) w -> tails_ok (w_threads w) -> w_threads w !! t = Some (i :: k) ->
  (exists o, thread_step w o) \/ stuck_in_callback w.
Proof.
  intros [Hm Hs] Hths Ht. destruct (decide (w_storeMutex w = true)) as [Hst|Hst%not_true_is_false].
  - rewrite Hst in Hs.
    destruct (omap_nonempty cancelling (pool w)) as (j & (t' & th & Ht' & Hin)%in_pool & Hj); [lia|].
    assert (j = ICancelDone) as -> by (by destruct j).
    destruct th as [|j k']; [by apply elem_of_nil in Hin|]. apply elem_of_cons in Hin as [<-|Hin].
    + left. by eapply thread_steps; [exact Ht'|].
    + destruct (exec j w) eqn:He; [right; by exists t', j, k'|left; eapply thread_steps; [exact Ht'|congruence]..].
  - left. by eapply no_wait.
Qed.

(** ** Properties *)

(** A thread is going to execute an instruction. *)
Definition about_to (i : instr) w : Prop := exists t th, w_threads w !! t = Some th /\ i ∈ th.
(** What has become of a request that was taken out of the queue. *)
Definition has_outcome p w : Prop :=
  p ∈ w_store w \/ p ∈ w_invoked w \/ (exists error, about_to (IInvoke p error) w) \/ p ∈ w_lost w.
Lemma settled_outcome p w : settled (pool w) w p -> has_outcome p w.
Proof.
  intros [Hp|[[Hp|[e He%in_pool]]|Hp]]; [by left|by right; left|right; right; left; by exists e|by right; right; right].
Qed.

(** C17: in every interleaving, also when operations fail, deadlines expire, responses
    are malformed and the connection is restarted, what becomes of a request is known:
    a request that was accepted from a user waits to be queued by the thread that
    accepted it, or is in the send queue or in the store, or its callback has been
    called or is going to be by a thread, or it was lost because its response could
    not be decoded.  A request that has been written is in the store,
    answered or about to be, or lost.  No callback is called twice. *)
Theorem requests_accounted (c : par_config) (failures : bool) (w : world) :
  par_reaches c failures (Some w) ->
  NoDup (w_invoked w)
  /\ (forall p, (1 <= p <= w_messageID w)%nat -> p ∉ w_authentications w ->
       about_to (IAdd p) w \/ p ∈ w_queue w \/ has_outcome p w)
  /\ (forall p, p ∈ w_sent w -> has_outcome p w).
Proof.
  intros Hr. destruct (runs_accounted _ _ _ Hr (initial_accounted c)) as [[_ Hinv _ _ Hsent _] [_ _ Huser]].
  split_and!; [exact Hinv| |intros p Hp; by apply settled_outcome, Hsent].
  intros p Hp Hna. destruct (Huser p Hp Hna) as [Hadd%in_pool|[Hq|Hs]]; [by left|by right; left|].
  right; right. by apply settled_outcome.
Qed.

(** C16: in every interleaving, also with failures and restarts, every message id is
    given once, and at most one thread at a time has the mutex of the write loop, and
    one that of the store, exactly when they are locked.  The only deadlocks are those
    in which a thread that calls callbacks in [cancelAll] waits for a mutex itself;
    if callbacks do not send there is none: as long as a thread has something to do,
    some thread can make a step. *)
Theorem mutex_discipline (c : par_config) (failures : bool) (w : world) :
  par_reaches c failures (Some w) ->
  NoDup (w_order w)
  /\ length (omap holding (pool w)) = (if w_writeMutex w then 1 else 0)%nat
  /\ length (omap cancelling (pool w)) = (if w_storeMutex w then 1 else 0)%nat
  /\ forall t i k, w_threads w !! t = Some (i :: k) ->
       ((exists o, thread_step w o) \/ stuck_in_callback w)
       /\ ((forall p, sends c p = 0%nat) -> exists o, thread_step w o).
Proof.
  intros Hr. pose proof (ac_mutex _ _ (proj1 (runs_accounted _ _ _ Hr (initial_accounted c)))) as Hm.
  destruct (runs_ids _ _ _ Hr (initial_ids _)) as [(_ & _ & Hnd)%NoDup_app _].
  assert (Hths : tails_ok (w_threads w)) by (apply (runs_tails _ _ _ Hr); constructor).
  split; [exact Hnd|]. split; [apply Hm|]. split; [apply Hm|]. intros t i k Ht.
  split; [by eapply deadlock_in_callback|]. intros Hc. eapply no_deadlock; [exact Hm|exact Hths| |exact Ht].
  by destruct (runs_cancels failures (initial_world c) w Hc Hr) as [_ ?].
Qed.

(** ** Witnesses *)

(** A request has been written and its write is still under way when the read fails; the
    connection is restarted up to the call of the first callback. *)
Definition cancelling_run : list choice :=
  [Made; RunThread 0; Made; RunThread 1; Made] ++ run_thread 2 9 ++ [Send] ++ run_thread 3 13 ++ [ReadFailed]
  ++ run_thread 4 6.
Definition quiet_user : par_config := MkParConfig false false (fun _ => 0%nat).
Definition being_cancelled : world := Eval vm_compute in run_from quiet_user cancelling_run.
Lemma being_cancelled_reached : par_reaches quiet_user true (Some being_cancelled).
Proof. refine (run_choices_reach true cancelling_run _ _ _ _ (runs_start _ _) _); vm_compute; reflexivity. Qed.

(** The response of the request is malformed instead. *)
Definition malformed_run : list choice :=
  [Made; RunThread 0; Made; RunThread 1; Made] ++ run_thread 2 9 ++ [Send] ++ run_thread 3 13
  ++ [Received [(1, false)]%nat] ++ run_thread 4 2.
Definition response_malformed : world := Eval vm_compute in run_from quiet_user malformed_run.
Lemma response_malformed_reached : par_reaches quiet_user true (Some response_malformed).
Proof. refine (run_choices_reach true malformed_run _ _ _ _ (runs_start _ _) _); vm_compute; reflexivity. Qed.

Lemma requests_accounted_witness :
  w_sent being_cancelled = [1]%nat /\ w_writing being_cancelled <> []
  /\ has_outcome 1 being_cancelled
  /\ (about_to (IAdd 1) being_cancelled \/ 1%nat ∈ w_queue being_cancelled \/ has_outcome 1 being_cancelled)
  /\ w_lost response_malformed = [1]%nat /\ w_invoked response_malformed = [] /\ has_outcome 1 response_malformed.
Proof.
  split; [reflexivity|]. split; [done|].
  destruct (requests_accounted quiet_user true being_cancelled being_cancelled_reached) as (_ & Huser & Hsent).
  split; [apply Hsent; left|]. split; [apply Huser; [cbn; lia|]; intros Hin; by apply elem_of_nil in Hin|].
  split; [reflexivity|]. split; [reflexivity|].
  destruct (requests_accounted quiet_user true response_malformed response_malformed_reached) as (_ & _ & Hsent').
  apply Hsent'. left.
Defined.
Lemma mutex_discipline_witness :
  w_storeMutex being_cancelled = true /\ omap cancelling (pool being_cancelled) = [()]
  /\ NoDup [1]%nat /\ exists o, thread_step being_cancelled o.
Proof.
  destruct (mutex_discipline quiet_user true being_cancelled being_cancelled_reached) as (Hnd & _ & _ & Hgo).
  split; [reflexivity|]. split; [reflexivity|]. split; [exact Hnd|].
  by apply (Hgo 4%nat (IInvoke 1 true) [ICancelDone; IStartResolveHost] eq_refl).
Defined.
