(* ===== verification/VstSending.v ===== *)
(** * Sending on many threads, without failures

    The runs of VstThreads.v in which no operation fails and no deadline expires.

    - [concurrent_sending_safe]: no thread crashes or waits for ever, reads and
      writes of the socket do not overlap, requests are written once, in the order
      of the queue;
    - [concurrent_sending_live]: no wake-up is lost: when threads and operations have
      finished, everything has been written.

    A loop has one owner: an instruction of a thread, or an operation of the socket
    that is under way. *)
From S2P Require Import Prelude Pool VstThreads VstAnswers.
From stdpp Require Import relations.

Implicit Types (w : world) (self : bool) (l r p t : nat) (P rest todo : list instr).

(** ** The invariant *)

(** Who has the write loop, and where it is. *)
Inductive write_owner : Type :=
| WStarts (l : nat) | WNext (l : nat) | WFront (l : nat) | WReset (l : nat) | WStores (l p : nat)
| WRemoves (l p : nat) | WWrites (l p : nat) | WPending (l p : nat).
Definition write_owner_of (i : instr) : option write_owner :=
  match i with
  | IWriteLoopStart l => Some (WStarts l)
  | ISendNext _ l => Some (WNext l)
  | IFront _ l => Some (WFront l)
  | IReset l => Some (WReset l)
  | IStore _ l p => Some (WStores l p)
  | IRemoveFirst _ l p => Some (WRemoves l p)
  | IWrite _ l p => Some (WWrites l p)
  | _ => None
  end.
Definition write_owners P w : list write_owner :=
  omap write_owner_of P ++ ((fun lp => WPending lp.1 lp.2) <$> w_writing w).
Definition owned_write (o : write_owner) : nat :=
  match o with
  | WStarts l | WNext l | WFront l | WReset l | WStores l _ | WRemoves l _ | WWrites l _ | WPending l _ => l
  end.
(** Has the loop been started? *)
Definition launched_write (o : write_owner) : bool := match o with WStarts _ => false | _ => true end.
(** Has it locked the mutex? *)
Definition holds (o : write_owner) : bool :=
  match o with WFront _ | WReset _ | WStores _ _ | WRemoves _ _ => true | _ => false end.
Lemma holds_holding i o : write_owner_of i = Some o -> holds o = true -> holding i = Some ().
Proof. destruct i; cbn; intros; simplify_eq; done. Qed.
(** An item that has left the queue and is not written. *)
Definition in_flight (o : write_owner) : list nat := match o with WWrites _ p => [p] | _ => [] end.

Inductive read_owner : Type := RStarts (r : nat) | RNext (r : nat) | RPending (r : nat).
Definition read_owner_of (i : instr) : option read_owner :=
  match i with
  | IReadLoopStart r => Some (RStarts r)
  | IReadNext _ r | IProcess _ r => Some (RNext r)
  | _ => None
  end.
Definition read_owners P w : list read_owner := omap read_owner_of P ++ (RPending <$> w_reading w).
Definition owned_read (o : read_owner) : nat := match o with RStarts r | RNext r | RPending r => r end.
Definition launched_read (o : read_owner) : bool := match o with RStarts _ => false | _ => true end.

(** Someone will look at the queue, or start reading. *)
Definition write_wakeup P : Prop := IStartWriting ∈ P \/ ICheckConnected ∈ P.
Definition read_wakeup P : Prop := IStartReading ∈ P \/ exists self l p, IRemoveFirst self l p ∈ P.

Definition write_ok P w (o : option write_owner) : Prop :=
  match o with
  | None =>
      w_writeLoop w = None /\ w_writeMutex w = false /\ w_order w = w_sent w ++ w_queue w
      /\ (w_queue w <> [] -> write_wakeup P)
  | Some o =>
      w_writeLoop w = Some (owned_write o) /\ w_writeMutex w = holds o
      /\ w_order w = w_sent w ++ in_flight o ++ w_queue w
      /\ w_writeLoops w !! owned_write o = Some (MkLoopObj (launched_write o) true)
      /\ match o with
         | WReset l => w_queue w <> [] -> write_wakeup P
         | WStores _ p | WRemoves _ p => head (w_queue w) = Some p
         | _ => True
         end
  end.
Definition read_ok P w (o : option read_owner) : Prop :=
  w_readLoop w = owned_read <$> o
  /\ match o with
     | None => w_store w <> [] -> read_wakeup P
     | Some o => w_readLoops w !! owned_read o = Some (MkLoopObj (launched_read o) true)
     end.

Definition before_connect (i : instr) : Prop :=
  match i with
  | ICreateAuthentication | IInsert _ | ISetConnected | IRestart _ | IRestartWrite _ | IRestartConnection
  | IStopWriting | IStopReading | IShutdownSocket | ICancelAll | IStartResolveHost | IInitSocket
  | IFinishInitialization | INotConnected | IInvoke _ true | ICancelDone | IStartHandshake | ILose _ => False
  | IProcess rs _ => forallb snd rs = true
  | _ => True
  end.
(** Nobody cancels requests, no authentication has failed, and no response was malformed. *)
Definition calm w : Prop := w_storeMutex w = false /\ w_permanentFailure w = false /\ w_lost w = [].

(** [P] are the instructions to be executed. *)
Record connected_inv P w : Prop := {
  ci_connected : w_connected w = true;
  ci_calm : calm w;
  ci_socket : w_socket w = true /\ w_setup w = [];
  ci_pool : Forall before_connect P;
  ci_write : exists o, write_owners P w ≡ₚ option_list o /\ write_ok P w o;
  ci_read : exists o, read_owners P w ≡ₚ option_list o /\ read_ok P w o;
  ci_ids : ids_ok P w;
}.

(** Before [_connected] is set there are only requests that are queued. *)
Definition queueing (i : instr) : Prop :=
  match i with ICreate | IAdd _ | ICheckConnected => True | _ => False end.
(** The thread that makes the connection. *)
Definition connecting (socket : bool) (th : list instr) : Prop :=
  if socket then
    th = [IStartHandshake] \/ th = [IFinishInitialization] \/ th = [ICreateAuthentication; ISetConnected]
    \/ (exists p, th = [IInsert p; ISetConnected]) \/ th = [ISetConnected]
  else th = [IInitSocket].
(** The connection is made by an operation or by a thread. *)
Definition making w : Prop :=
  (exists s, w_setup w = [s] /\ w_socket w = match s with Resolving => false | _ => true end
     /\ Forall (Forall queueing) (w_threads w))
  \/ (w_setup w = [] /\ exists t0 th, w_threads w !! t0 = Some th /\ connecting (w_socket w) th
     /\ forall u th', u <> t0 -> w_threads w !! u = Some th' -> Forall queueing th').
Record quiet w : Prop := {
  qu_connected : w_connected w = false;
  qu_calm : calm w;
  qu_store : w_store w = [];
  qu_mutex : w_writeMutex w = false;
  qu_loops : w_writeLoop w = None /\ w_readLoop w = None;
  qu_operations : w_writing w = [] /\ w_reading w = [];
  qu_sent : w_sent w = [];
  qu_order : w_order w = w_queue w;
}.
Record unconnected_inv w : Prop := {
  ui_quiet : quiet w;
  ui_making : making w;
  ui_ids : ids_ok (pool w) w;
}.
Definition threads_inv w : Prop :=
  unconnected_inv w
  \/ (connected_inv (pool w) w /\ Forall (fun th => Forall not_holding (tail th)) (w_threads w)).

(** ** The instructions of the pool *)

(** More instructions to be executed do no harm. *)
Lemma write_ok_mono P1 P2 w o : P1 ⊆ P2 -> write_ok P1 w o -> write_ok P2 w o.
Proof. unfold write_ok, write_wakeup. intros HP. destruct o as [[]|]; naive_solver. Qed.
Lemma read_ok_mono P1 P2 w o : P1 ⊆ P2 -> read_ok P1 w o -> read_ok P2 w o.
Proof. unfold read_ok, read_wakeup. intros HP. destruct o; naive_solver. Qed.

#[global] Instance connected_inv_perm : Proper ((≡ₚ) ==> eq ==> iff) connected_inv.
Proof.
  intros P1 P2 HP w ? <-.
  assert (forall P1 P2, P1 ≡ₚ P2 -> connected_inv P1 w -> connected_inv P2 w) as Hone.
  { clear. intros P1 P2 HP [Hc Hcalm Hsk Hp (o & Ho & How) (r & Hr & Hrw) Hids].
    assert (P1 ⊆ P2) by (intros i; by rewrite HP).
    unfold write_owners, read_owners, ids_ok, ids in *. rewrite HP in Hp, Ho, Hr, Hids.
    split; [done|done|done|done|exists o|exists r|done]; (split; [done|]).
    - by eapply write_ok_mono.
    - by eapply read_ok_mono. }
  split; by apply Hone.
Qed.

(** ** Steps *)

(** An owner of a loop is the only one. *)
Lemma unique_owner {A} (x : A) (os : list A) (o : option A) : x :: os ≡ₚ option_list o -> os = [] /\ o = Some x.
Proof.
  destruct o as [y|]; cbn; intros H.
  - apply Permutation_singleton_r in H. by injection H as -> ->.
  - by apply Permutation_nil_r in H.
Qed.

Definition write_inv P w : Prop := exists o, write_owners P w ≡ₚ option_list o /\ write_ok P w o.
Definition read_inv P w : Prop := exists o, read_owners P w ≡ₚ option_list o /\ read_ok P w o.

(** What the part of the invariant about writing reads of the state. *)
Definition same_writing w w' : Prop :=
  w_queue w' = w_queue w /\ w_order w' = w_order w /\ w_sent w' = w_sent w /\ w_writeMutex w' = w_writeMutex w
  /\ w_writeLoop w' = w_writeLoop w /\ w_writeLoops w' = w_writeLoops w /\ w_writing w' = w_writing w.

Definition wakes_writing (i : instr) : bool := match i with IStartWriting | ICheckConnected => true | _ => false end.
Lemma write_ok_tail i rest w w' o :
  wakes_writing i = false -> same_writing w w' -> write_ok (i :: rest) w o -> write_ok rest w' o.
Proof.
  intros Hi (Hq & Ho & Hs & Hm & Hl & Hst & _). unfold write_ok, write_wakeup. rewrite Hq, Ho, Hs, Hm, Hl, Hst.
  assert (IStartWriting <> i) by by intros <-. assert (ICheckConnected <> i) by by intros <-.
  destruct o as [[]|]; rewrite ?elem_of_cons; naive_solver.
Qed.

(** An instruction that has nothing to do with writing. *)
Lemma write_inv_neutral i rest w w' todo :
  write_owner_of i = None -> wakes_writing i = false -> omap write_owner_of todo = [] -> same_writing w w' ->
  write_inv (i :: rest) w -> write_inv (todo ++ rest) w'.
Proof.
  intros Hi Hwake Htodo Hs (o & Ho & Hok). exists o. unfold write_owners in *.
  cbn in Ho. rewrite Hi in Ho. rewrite omap_app, Htodo. pose proof Hs as (_ & _ & _ & _ & _ & _ & ->).
  split; [done|]. eapply write_ok_mono; [|by eapply write_ok_tail]. set_solver.
Qed.

(** The only owner makes a step. *)
Lemma write_inv_owner rest w todo o :
  omap write_owner_of rest = [] ->
  omap write_owner_of todo ++ ((fun lp => WPending lp.1 lp.2) <$> w_writing w) = option_list o ->
  write_ok (todo ++ rest) w o -> write_inv (todo ++ rest) w.
Proof. intros Hr Ho Hok. exists o. split; [|done]. unfold write_owners. by rewrite omap_app, Hr, app_nil_r, Ho. Qed.

Lemma alive_current self l : alive self (Some l) l = true.
Proof. unfold alive. rewrite bool_decide_true by done. apply orb_true_r. Qed.

(** The object of a loop. *)
Lemma changed_loop (ls : list loop_obj) l x y : ls !! l = Some x -> <[l := y]> ls !! l = Some y.
Proof. intros Hl. by apply list_lookup_insert_eq, (lookup_lt_Some _ _ x). Qed.
Lemma new_loop (ls : list loop_obj) x : (ls ++ [x]) !! length ls = Some x.
Proof. by rewrite lookup_app_r, Nat.sub_diag. Qed.

(** Instructions of the owner of the write loop. *)
Lemma write_inv_token i x rest w :
  write_owner_of i = Some x -> calm w -> write_inv (i :: rest) w ->
  match exec i w with
  | Blocked => w_writeMutex w = true
  | Crash => False
  | Goes w' todo => write_inv (todo ++ rest) w'
  end.
Proof.
  intros Hx (Hcs & Hcp & Hcl) (o & Ho & Hok). unfold write_owners in Ho. cbn [omap list_omap] in Ho. rewrite Hx in Ho.
  apply unique_owner in Ho as [[Hrest Hw]%app_eq_nil ->]. apply fmap_nil_inv in Hw.
  assert (write_ok rest w (Some x)) as (Hl & Hm & Hord & Hlp & Hx') by (apply (write_ok_tail i rest w); [by destruct i|by repeat split|exact Hok]).
  clear Hok.
  pose proof (fun o w' todo => write_inv_owner rest w' todo o Hrest) as Howner.
  destruct i; cbn in Hx; try done; injection Hx as <-; cbn in Hl, Hm, Hord, Hlp, Hx'; cbn [exec].
  - unfold par_WriteLoop_start. rewrite Hl, alive_current, Hlp. cbn [loop_started loop_socket].
    apply (Howner (Some (WNext l))); cbn; [by rewrite Hw|]. split_and!; try done. by eapply changed_loop.
  - unfold next_lock. rewrite Hl, alive_current, Hm, bool_decide_true, Hcp by done.
    apply (Howner (Some (WFront l))); cbn; [by rewrite Hw|by split_and!].
  - unfold next_front. destruct (w_queue w) as [|p q] eqn:Hq.
    + apply (Howner (Some (WReset l))); [cbn; by rewrite Hw|unfold write_ok; cbn; rewrite Hq; by split_and!].
    + apply (Howner (Some (WStores l p))); [cbn; by rewrite Hw|unfold write_ok; cbn; rewrite Hq; by split_and!].
  - apply (Howner None); cbn; [by rewrite Hw|by split_and!].
  - unfold next_store. rewrite Hcs. apply (Howner (Some (WRemoves l p))); cbn; [by rewrite Hw|by split_and!].
  - unfold next_removeFirst. destruct (w_queue w) as [|q qs] eqn:Hq; [done|]. injection Hx' as ->.
    apply (Howner (Some (WWrites l p))); [cbn; by rewrite Hw|unfold write_ok; cbn; by split_and!].
  - unfold issue_write, has_socket. rewrite Hl, alive_current, Hlp. cbn [loop_socket andb].
    apply (Howner (Some (WPending l p))); cbn; [by rewrite Hw|]. rewrite Hord, <- (assoc_L (++)). by split_and!.
Qed.

(** The other instructions. *)
Lemma write_inv_other i rest w :
  write_owner_of i = None -> before_connect i -> w_connected w = true -> calm w -> w_socket w = true -> write_inv (i :: rest) w ->
  match exec i w with
  | Blocked => w_writeMutex w = true
  | Crash => is_Some (read_owner_of i)
  | Goes w' todo => write_inv (todo ++ rest) w'
  end.
Proof.
  intros Hx Hb Hc (Hcs & Hcp & Hcl) Hsk HI.
  assert (forall w' todo, wakes_writing i = false -> omap write_owner_of todo = [] -> same_writing w w' ->
    write_inv (todo ++ rest) w') as Hneutral by (intros; by eapply write_inv_neutral).
  destruct i as [|p| | | | | | | | | | | | | | |self r|rs r|q| | | | | | | | | | | |p|p error| |]; cbn in Hx, Hb; try done; cbn [exec].
  1, 5-10: unfold par_createRequestItem, par_startReading, par_ReadLoop_start, read_next, answer, par_removeByID,
      invoke_callback;
    rewrite ?Hcs; repeat case_match; simplify_eq;
    first [done|by eexists|apply Hneutral; [done|by rewrite ?omap_repeat|by repeat split]].
  - (* IAdd *) destruct HI as (o & Ho & Hok). exists o. split; [exact Ho|].
    assert (write_wakeup (ICheckConnected :: rest)) by (right; left).
    unfold write_ok in *. cbn.
    destruct o as [[]|]; cbn in *; destruct Hok as (Hl & Hm & -> & Hx'); try destruct Hx' as [Hlp Hx']; rewrite ?head_snoc; split_and!; try done;
      try by rewrite <- ?(assoc_L (++)).
    all: try by destruct (w_queue w).
  - (* ICheckConnected *) unfold check_connected. rewrite Hc. destruct HI as (o & Ho & Hok). exists o. split; [exact Ho|].
    assert (write_wakeup (IStartWriting :: rest)) by (left; left).
    unfold write_ok in *. destruct o as [[]|]; naive_solver.
  - (* IStartWriting *) destruct HI as (o & Ho & Hok). unfold par_startWriting.
    destruct o as [o|].
    + pose proof Hok as (Hl & Hm & Hord & Hlp & Hx'). rewrite Hm, Hl. destruct (holds o) eqn:Hh; [done|].
      exists (Some o). split; [exact Ho|]. split_and!; [done|congruence|done|done|by destruct o].
    + destruct Hok as (Hl & Hm & Hord & Hx'). rewrite Hm, Hl.
      apply Permutation_nil_r, app_eq_nil in Ho as [Ho Hw]. apply fmap_nil_inv in Hw.
      apply (write_inv_owner _ _ _ (Some (WStarts (length (w_writeLoops w))))); [done|cbn; by rewrite Hw|].
      split_and!; try done. cbn. rewrite Hsk. apply new_loop.
Qed.

Definition wakes_reading (i : instr) : bool :=
  match i with IStartReading | IRemoveFirst _ _ _ => true | _ => false end.
Definition same_reading w w' : Prop :=
  w_readLoop w' = w_readLoop w /\ w_readLoops w' = w_readLoops w /\ w_reading w' = w_reading w.

Lemma read_wakeup_tail i rest : wakes_reading i = false -> read_wakeup (i :: rest) -> read_wakeup rest.
Proof.
  intros Hi [[<-|Hin]%elem_of_cons|(self & l & p & [<-|Hin]%elem_of_cons)]; try done; [by left|right; by exists self, l, p].
Qed.
Lemma read_wakeup_mono P1 P2 : P1 ⊆ P2 -> read_wakeup P1 -> read_wakeup P2.
Proof. unfold read_wakeup. naive_solver. Qed.

(** An instruction that has nothing to do with a read loop, except that it may fill
    the store or start one. *)
Lemma read_inv_neutral i rest w w' todo :
  read_owner_of i = None -> omap read_owner_of todo = [] -> same_reading w w' ->
  read_wakeup (todo ++ rest) \/ (wakes_reading i = false /\ (w_store w' <> [] -> w_store w <> [])) ->
  read_inv (i :: rest) w -> read_inv (todo ++ rest) w'.
Proof.
  intros Hi Htodo (Hl & Hs & Hr) Hwake (o & Ho & Hcur & Hok). exists o. unfold read_owners in *. cbn in Ho.
  rewrite Hi in Ho. rewrite omap_app, Htodo, Hr. split; [done|]. split; [by rewrite Hl|].
  destruct o; [by rewrite Hs|]. intros Hne. destruct Hwake as [Hwake|[Hwi Hst]]; [done|].
  eapply read_wakeup_mono; [|apply (read_wakeup_tail i); [done|by apply Hok, Hst]]. set_solver.
Qed.

Lemma read_inv_owner rest w todo o :
  omap read_owner_of rest = [] ->
  omap read_owner_of todo ++ (RPending <$> w_reading w) = option_list o ->
  read_ok (todo ++ rest) w o -> read_inv (todo ++ rest) w.
Proof. intros Hr Ho Hok. exists o. split; [|done]. unfold read_owners. by rewrite omap_app, Hr, app_nil_r, Ho. Qed.

(** Instructions of the owner of the read loop. *)
Lemma read_inv_token i x rest w :
  read_owner_of i = Some x -> before_connect i -> calm w -> read_inv (i :: rest) w ->
  match exec i w with
  | Blocked | Crash => False
  | Goes w' todo => read_inv (todo ++ rest) w'
  end.
Proof.
  intros Hx Hb (Hcs & Hcp & Hcl) (o & Ho & Hcur & Hok). unfold read_owners in Ho. cbn [omap list_omap] in Ho. rewrite Hx in Ho.
  apply unique_owner in Ho as [[Hrest Hw]%app_eq_nil ->]. apply fmap_nil_inv in Hw.
  pose proof (fun o w' todo => read_inv_owner rest w' todo o Hrest) as Howner.
  destruct i; cbn in Hx; try done; injection Hx as <-; cbn in Hcur, Hok; cbn [exec].
  - unfold par_ReadLoop_start. rewrite Hcur, alive_current, Hok. cbn [loop_started loop_socket].
    apply (Howner (Some (RNext r))); [cbn; by rewrite Hw|]. split; [done|by eapply changed_loop].
  - unfold read_next, has_socket. rewrite Hcur, alive_current, bool_decide_true, Hok, Hcs, Hcp by done. cbn [negb loop_socket].
    destruct (w_store w) as [|p ps] eqn:Hst; [destruct (w_queue w)|].
    1: apply (Howner None); [cbn; by rewrite Hw|split; [done|]]; cbn; by rewrite Hst.
    all: apply (Howner (Some (RPending r))); [cbn; by rewrite Hw|by split].
  - assert (Hnext : forall todo, omap read_owner_of todo = [RNext r] -> read_inv (todo ++ rest) w).
    { intros todo Htodo. apply (Howner (Some (RNext r))); [by rewrite Htodo, Hw|by split]. }
    unfold answer. rewrite Hcs. destruct rs as [|[p valid] rs]; [by apply Hnext|]. cbn in Hb.
    destruct (bool_decide _); [|by apply Hnext]. destruct valid; [by apply Hnext|done].
Qed.

(** The other instructions. *)
Lemma read_inv_other i rest w :
  read_owner_of i = None -> before_connect i -> calm w -> w_socket w = true -> read_inv (i :: rest) w ->
  match exec i w with
  | Goes w' todo => read_inv (todo ++ rest) w'
  | _ => True
  end.
Proof.
  intros Hx Hb (Hcs & Hcp & Hcl) Hsk HI.
  assert (forall w' todo, omap read_owner_of todo = [] -> same_reading w w' ->
    read_wakeup (todo ++ rest) \/ (wakes_reading i = false /\ (w_store w' <> [] -> w_store w <> [])) ->
    read_inv (todo ++ rest) w') as Hneutral by (intros; by eapply read_inv_neutral).
  destruct i; cbn in Hx, Hb; try done; cbn [exec];
    unfold par_createRequestItem, queue_push_back, check_connected, par_startWriting, par_WriteLoop_start, next_lock,
      next_front, next_reset, next_store, issue_write, answer, par_removeByID, invoke_callback; rewrite ?Hcs;
    try (repeat case_match; simplify_eq; first [done|apply Hneutral; [by rewrite ?omap_repeat|done|by right]]).
  - apply Hneutral; [done|done|left; right]. exists self, l, p. left.
  - unfold next_removeFirst. destruct (w_queue w) as [|q qs]; [done|]. apply Hneutral; [done|done|left; left; left].
  - destruct HI as (o & Ho & Hcur & Hok). unfold par_startReading. rewrite Hcur. cbn in Ho. unfold read_owners in Ho.
    destruct o as [o|]; cbn [fmap option_fmap option_map].
    + exists (Some o). by split.
    + apply Permutation_nil_r, app_eq_nil in Ho as [Ho Hw]. apply fmap_nil_inv in Hw.
      apply (read_inv_owner _ _ _ (Some (RStarts (length (w_readLoops w))))); [done|cbn; by rewrite Hw|].
      split; [done|]. cbn. rewrite Hsk. apply new_loop.
  - apply Hneutral; [done|done|right]. split; [done|]. cbn. intros Hf Hs. by rewrite Hs in Hf.
Qed.

(** A step of one thread, after the connection has been made. *)
Lemma connected_step i rest w :
  connected_inv (i :: rest) w ->
  match exec i w with
  | Blocked => w_writeMutex w = true
  | Crash => False
  | Goes w' todo => connected_inv (todo ++ rest) w'
  end.
Proof.
  intros [Hc Hcalm [Hsk Hsu] Hp Hw Hr Hids]. apply Forall_cons in Hp as [Hi Hp].
  assert (Hkeep : forall w' todo, exec i w = Goes w' todo ->
    w_connected w' = true /\ calm w' /\ (w_socket w' = true /\ w_setup w' = []) /\ Forall before_connect todo).
  { destruct Hcalm as (Hcs & Hcp & Hcl).
    destruct i; cbn [exec before_connect] in *; try done; unfold par_createRequestItem, queue_push_back, check_connected,
      par_startWriting, par_WriteLoop_start, next_lock, next_front, next_reset, next_store,
      next_removeFirst, par_startReading, issue_write, par_ReadLoop_start, read_next, answer, par_removeByID, invoke_callback;
      intros ? ? ?; repeat case_match; simplify_eq; split_and!; try done; try by apply Forall_same.
    1-14: by repeat constructor.
    all: cbn in Hi; try apply andb_true_iff in Hi as [_ Hi]; by repeat constructor. }
  assert (Hwrite : match exec i w with
    | Blocked => w_writeMutex w = true
    | Crash => is_Some (read_owner_of i)
    | Goes w' todo => write_inv (todo ++ rest) w' end).
  { destruct (write_owner_of i) as [x|] eqn:Hx; [|by apply write_inv_other].
    pose proof (write_inv_token i x rest w Hx Hcalm Hw). by destruct (exec i w). }
  assert (Hread : match exec i w with Goes w' todo => read_inv (todo ++ rest) w' | Crash => read_owner_of i = None | _ => True end).
  { destruct (read_owner_of i) as [x|] eqn:Hx.
    - pose proof (read_inv_token i x rest w Hx Hi Hcalm Hr). by destruct (exec i w).
    - pose proof (read_inv_other i rest w Hx Hi Hcalm Hsk Hr). by destruct (exec i w). }
  destruct (exec i w) as [| |w' todo] eqn:He; [done|rewrite Hread in Hwrite; by destruct Hwrite|].
  destruct (Hkeep _ _ eq_refl) as (? & ? & ? & ?). split; [done|done|done|apply Forall_app; by split|done|done|by eapply ids_ok_step].
Qed.

(** A thread that starts, for a new call or for an operation that has completed. *)
Lemma connected_send P w : connected_inv P w -> connected_inv (send_thread ++ P) w.
Proof.
  intros [Hc Hcalm Hsk Hp (o & Ho & Hok) (r & Hr & Hrok) Hids]. assert (P ⊆ ICreate :: P) by set_solver.
  split; [done|done|done|by constructor|exists o|exists r|done]; (split; [done|]); [by eapply write_ok_mono|by eapply read_ok_mono].
Qed.
Lemma connected_written P w ws1 l p ws2 :
  w_writing w = ws1 ++ (l, p) :: ws2 -> connected_inv P w ->
  connected_inv (written_thread l ++ P) (up_writing (ws1 ++ ws2) w).
Proof.
  intros Hws [Hc Hcalm Hsk Hp (o & Ho & Hok) (r & Hr & Hrok) Hids].
  assert (HP : P ⊆ written_thread l ++ P) by set_solver.
  unfold write_owners in Ho. rewrite Hws, fmap_app in Ho. cbn in Ho.
  rewrite (assoc_L (++)), <- Permutation_middle in Ho. apply unique_owner in Ho as [Hnil ->].
  rewrite <- (assoc_L (++)) in Hnil. apply app_eq_nil in Hnil as [Hn1 Hn2].
  split; [done|done|done|by constructor| |exists r; split; [done|by eapply read_ok_mono]|done].
  exists (Some (WNext l)). split; [unfold write_owners; cbn; by rewrite Hn1, fmap_app, Hn2|].
  destruct Hok as (Hl & Hm & Ho & Hlp & _). by split_and!.
Qed.
Lemma connected_received P w rs1 r rs2 ps :
  forallb snd ps = true ->
  w_reading w = rs1 ++ r :: rs2 -> connected_inv P w ->
  connected_inv (received_thread ps r ++ P) (up_reading (rs1 ++ rs2) w).
Proof.
  intros Hvalid Hrs [Hc Hcalm Hsk Hp (o & Ho & Hok) (r' & Hr & Hrok) [Hids Hle]].
  assert (HP : P ⊆ received_thread ps r ++ P) by set_solver.
  unfold read_owners in Hr. rewrite Hrs, fmap_app in Hr. cbn in Hr.
  rewrite (assoc_L (++)), <- Permutation_middle in Hr. apply unique_owner in Hr as [Hnil ->].
  rewrite <- (assoc_L (++)) in Hnil. apply app_eq_nil in Hnil as [Hn1 Hn2].
  split; [done|done|done| |exists o|exists (Some (RNext r))|].
  - constructor; [exact Hvalid|done].
  - split; [done|by eapply write_ok_mono].
  - unfold read_owners. cbn. rewrite Hn1, fmap_app, Hn2. split; [done|exact Hrok].
  - by split.
Qed.

Lemma connected_goes w t i k :
  connected_inv (pool w) w -> tails_ok (w_threads w) -> w_threads w !! t = Some (i :: k) ->
  match exec i w with
  | Blocked => w_writeMutex w = true
  | Crash => False
  | Goes w' todo => threads_inv (goes_on t (todo ++ k) w')
  end.
Proof.
  intros HI Hths Ht. destruct (concat_step _ _ _ _ Ht) as (rest & Hpool & Hnew).
  unfold pool in HI. rewrite Hpool in HI. pose proof (connected_step i rest w HI) as Hs.
  destruct (exec i w) as [| |w' todo] eqn:He; [done|done|].
  pose proof (exec_threads _ _ _ _ He) as Hw'. right. unfold goes_on. rewrite Hw'. split.
  - unfold pool. cbn [w_threads up_threads]. rewrite Hnew. by destruct Hs.
  - cbn. by eapply tails_ok_step.
Qed.

(** ** Before the connection has been made *)

Lemma omap_queueing {A} (f : instr -> option A) (P : list instr) :
  f ICreate = None -> (forall p, f (IAdd p) = None) -> f ICheckConnected = None -> Forall queueing P -> omap f P = [].
Proof.
  intros H1 H2 H3. induction 1 as [|i P Hi _ IH]; cbn; [done|].
  destruct i; try done; rewrite ?H1, ?H2, ?H3; exact IH.
Qed.
Lemma Forall_concat {A} (Q : A -> Prop) (ls : list (list A)) : Forall (Forall Q) ls -> Forall Q (concat ls).
Proof. induction 1; cbn; [done|by apply Forall_app]. Qed.
Lemma queueing_not_holding th : Forall queueing th -> Forall not_holding th.
Proof. intros Hth. eapply Forall_impl; [exact Hth|]. by intros []. Qed.

(** A thread that puts requests into the queue. *)
Lemma queueing_goes i w :
  queueing i -> quiet w ->
  exists w' todo, exec i w = Goes w' todo /\ Forall queueing todo /\ quiet w'
    /\ w_setup w' = w_setup w /\ w_socket w' = w_socket w.
Proof.
  intros Hi Hq. destruct i; try done; cbn [exec]; eexists _, _; (split; [reflexivity|]).
  - split; [by repeat constructor|]. split; [by destruct Hq|done].
  - split; [by repeat constructor|]. split; [|done]. destruct Hq. split; try done. cbn. congruence.
  - rewrite (qu_connected w Hq). split_and!; [constructor|by destruct Hq|done|done].
Qed.

(** [_connected] is set by the only thread that does something else. *)
Lemma unconnected_connect w t :
  quiet w -> ids_ok (pool w) w -> w_socket w = true -> w_setup w = [] -> w_threads w !! t = Some [ISetConnected] ->
  (forall u th, u <> t -> w_threads w !! u = Some th -> Forall queueing th) ->
  threads_inv (goes_on t [IStartWriting; IStartReading] (up_connected true w)).
Proof.
  intros [Hc Hcalm Hst Hm [Hwl Hrl] [Hw Hr] Hs Hord] Hids Hsk Hsu Ht Hoth.
  destruct (concat_step _ _ _ _ Ht) as (rest & Hpool & Hnew). specialize (Hnew [IStartWriting; IStartReading]).
  assert (Hq : Forall queueing rest).
  { assert (Forall queueing (concat (<[t := []]> (w_threads w)))) as Hc0.
    { apply Forall_concat, Forall_lookup. intros u th [(<- & <- & _)|[Hu Hth]]%list_lookup_insert_Some; [done|by eapply Hoth]. }
    destruct (concat_step _ _ _ _ Ht) as (rest' & Hpool' & Hnew'). specialize (Hnew' []). cbn in Hnew'. rewrite Hnew' in Hc0.
    rewrite Hpool in Hpool'. apply Permutation_cons_inv in Hpool'. by rewrite Hpool'. }
  right. split.
  - unfold pool, goes_on. cbn [w_threads up_threads up_connected]. change ([IStartWriting; IStartReading] ++ []) with [IStartWriting; IStartReading] in Hnew. rewrite Hnew.
    split; [done|done|done| |exists None|exists None|].
    + repeat constructor. eapply Forall_impl; [exact Hq|]. by intros [].
    + unfold write_owners. cbn. rewrite Hw, omap_queueing by done. split; [done|].
      split_and!; [done|done|by rewrite Hs|]. intros _. left. left.
    + unfold read_owners. cbn. rewrite Hr, omap_queueing by done.
      split; [done|]. split; [done|]. cbn. by rewrite Hst.
    + unfold ids_ok, ids, pool in *. rewrite Hpool in Hids. exact Hids.
  - apply Forall_insert; [|by repeat constructor]. apply Forall_lookup. cbn. intros u th Hu.
    destruct (decide (u = t)) as [->|Hne]; [rewrite Ht in Hu; injection Hu as <-; constructor|].
    by apply Forall_tail, queueing_not_holding, (Hoth u).
Qed.

Lemma unconnected_goes w t i k :
  unconnected_inv w -> w_threads w !! t = Some (i :: k) ->
  exists w' todo, exec i w = Goes w' todo /\ threads_inv (goes_on t (todo ++ k) w').
Proof.
  intros [Hquiet Hmaking Hids] Ht. pose proof (lookup_lt_Some _ _ _ Ht) as Hlt.
  pose proof (fun w' todo => thread_ids w t i k w' todo Hids Ht) as Hnext.
  assert (Hqueue : Forall queueing (i :: k) -> exists w' todo, exec i w = Goes w' todo /\ quiet w' /\
    w_setup w' = w_setup w /\ w_socket w' = w_socket w /\ w_threads w' = w_threads w /\ Forall queueing (todo ++ k)
    /\ ids_ok (pool (goes_on t (todo ++ k) w')) w').
  { intros [Hi Hk]%Forall_cons. destruct (queueing_goes i w Hi Hquiet) as (w' & todo & He & Htodo & Hq & Hsu & Hsk).
    destruct (Hnext _ _ He). exists w', todo. split_and!; try done. by apply Forall_app. }
  destruct Hmaking as [(s & Hs & Hsk & Hth)|(Hs & t0 & th & Ht0 & Hth & Hoth)].
  { destruct Hqueue as (w' & todo & He & Hq & Hsu & Hsk' & Hw' & Htodo & Hids'); [exact (Forall_lookup_1 _ _ _ _ Hth Ht)|].
    exists w', todo. split; [done|]. left. split; [by destruct Hq| |done]. left. exists s. cbn.
    split_and!; [congruence|congruence|]. rewrite Hw'. by apply Forall_insert. }
  destruct (decide (t = t0)) as [->|Hne].
  - rewrite Ht in Ht0. injection Ht0 as <-.
    assert (Hmake : forall w' todo, exec i w = Goes w' todo -> quiet w' ->
      (w_setup w' = [] /\ connecting (w_socket w') (todo ++ k))
      \/ (todo ++ k = [] /\ exists s, w_setup w' = [s] /\ w_socket w' = match s with Resolving => false | _ => true end) ->
      exists w' todo, exec i w = Goes w' todo /\ threads_inv (goes_on t0 (todo ++ k) w')).
    { intros w' todo He Hq Hc. destruct (Hnext _ _ He) as [Hw' Hids']. exists w', todo. split; [done|]. left.
      split; [by destruct Hq| |done]. unfold goes_on, making. cbn. rewrite Hw'.
      destruct Hc as [[Hsu Hc]|[-> (s & Hsu & Hsk)]].
      - right. split; [done|]. exists t0, (todo ++ k). split_and!; [by apply list_lookup_insert_eq|done|].
        intros u th' Hu. rewrite list_lookup_insert_ne by done. by apply Hoth.
      - left. exists s. split_and!; [done|done|]. apply Forall_lookup.
        intros u th' [(<- & <- & _)|[Hu Hu']]%list_lookup_insert_Some; [done|by eapply Hoth]. }
    destruct (w_socket w) eqn:Hsk; cbn in Hth.
    + destruct Hth as [Hth|[Hth|[Hth|[[p Hth]|Hth]]]]; injection Hth as -> ->.
      * eapply Hmake; [cbn [exec]; unfold par_startSSLHandshake; by rewrite Hsk|by destruct Hquiet|].
        right. split; [done|]. exists Handshaking. cbn. by rewrite Hs.
      * eapply Hmake; [cbn [exec]; unfold par_finishInitialization; by rewrite Hsk|by destruct Hquiet|].
        right. split; [done|]. exists WritingHeader. cbn. by rewrite Hs.
      * eapply Hmake; [done|by destruct Hquiet|]. left. split; [done|]. cbn. rewrite Hsk. cbn. eauto 10.
      * eapply Hmake; [done|destruct Hquiet; split; try done; cbn; congruence|].
        left. split; [done|]. cbn. rewrite Hsk. cbn. eauto 10.
      * eexists _, _. split; [reflexivity|]. by apply unconnected_connect.
    + injection Hth as -> ->.
      eapply Hmake; [cbn [exec]; unfold par_initSocket; by rewrite Hsk|by destruct Hquiet|].
      right. split; [done|]. exists Connecting. cbn. by rewrite Hs.
  - destruct Hqueue as (w' & todo & He & Hq & Hsu & Hsk' & Hw' & Htodo & Hids'); [by apply (Hoth t)|].
    exists w', todo. split; [done|]. left. split; [by destruct Hq| |done]. right. cbn. split; [congruence|].
    exists t0, th. rewrite Hw', Hsk', list_lookup_insert_ne by done. split_and!; [done|done|].
    intros u th' Hu [(<- & <- & _)|[Hu' Hlook]]%list_lookup_insert_Some; [done|by eapply Hoth].
Qed.

Lemma unconnected_send w : unconnected_inv w -> unconnected_inv (spawn send_thread w).
Proof.
  intros [Hquiet Hmaking Hids]. assert (Forall queueing send_thread) by by repeat constructor.
  split; [by destruct Hquiet| |unfold ids_ok, ids in *; by rewrite pool_spawn].
  destruct Hmaking as [(s & Hs & Hsk & Hth)|(Hs & t0 & th & Ht0 & Hth & Hoth)].
  - left. exists s. cbn. split_and!; [done|done|]. apply Forall_app. by repeat constructor.
  - right. split; [done|]. exists t0, th. cbn. split_and!; [by apply lookup_app_l_Some|done|].
    intros u th' Hu [Hlook|[_ Hlook]]%lookup_app_Some; [by eapply Hoth|].
    by apply list_lookup_singleton_Some in Hlook as [_ <-].
Qed.
(** The next operation of the new connection has completed. *)
Lemma unconnected_setup w ss1 s ss2 :
  unconnected_inv w -> w_setup w = ss1 ++ s :: ss2 ->
  unconnected_inv (spawn (setup_thread (w_config w) s) (up_setup (ss1 ++ ss2) w)).
Proof.
  intros [Hquiet Hmaking Hids] Hss. split; [by destruct Hquiet| |].
  - destruct Hmaking as [(s' & Hs & Hsk & Hth)|(Hs & _)]; [|rewrite Hss in Hs; by destruct ss1].
    rewrite Hss in Hs. destruct ss1 as [|? ss1]; [|by destruct ss1]. destruct ss2; [|done]. injection Hs as ->.
    right. split; [done|]. exists (length (w_threads w)), (setup_thread (w_config w) s'). cbn.
    split_and!; [by rewrite lookup_app_r, Nat.sub_diag| |].
    + rewrite Hsk. destruct s'; cbn; [done|destruct (ssl _); eauto|eauto|]. unfold connected_thread.
      destruct (authenticate _); cbn; eauto 10.
    + intros u th' Hu [Hlook|[Hge Hlook]]%lookup_app_Some; [by eapply Forall_lookup_1|].
      apply list_lookup_singleton_Some in Hlook as [Heq <-]. lia.
  - unfold ids_ok, ids in *. rewrite pool_spawn, omap_app.
    assert (omap new_id (setup_thread (w_config w) s) = []) as -> by
      (destruct s; cbn; try done; [by destruct (ssl _)|unfold connected_thread; by destruct (authenticate _)]).
    exact Hids.
Qed.

(** ** All runs *)
Lemma threads_inv_thread_step w o : threads_inv w -> thread_step w o -> exists w', o = Some w' /\ threads_inv w'.
Proof.
  intros HI Hs. destruct Hs as [w t i k w' todo Ht He|w t i k Ht He]; destruct HI as [HI|[HI Hths]].
  - destruct (unconnected_goes w t i k HI Ht) as (w1 & todo1 & He1 & HI1). rewrite He in He1. injection He1 as <- <-. by eexists.
  - pose proof (connected_goes w t i k HI Hths Ht) as HI1. rewrite He in HI1. by eexists.
  - destruct (unconnected_goes w t i k HI Ht) as (w1 & todo1 & He1 & _). congruence.
  - pose proof (connected_goes w t i k HI Hths Ht) as HI1. by rewrite He in HI1.
Qed.

Lemma threads_inv_spawn w w' todo :
  connected_inv (todo ++ pool w) w' -> w_threads w' = w_threads w -> Forall not_holding todo ->
  tails_ok (w_threads w) -> threads_inv (spawn todo w').
Proof.
  intros HI Hw Htodo Hths. right. split.
  - rewrite pool_spawn. unfold pool in *. rewrite Hw. by destruct HI.
  - cbn. rewrite Hw. apply Forall_app. split; [done|]. constructor; [|done].
    by destruct todo; [|inversion Htodo].
Qed.

Lemma threads_inv_active_step w w' : threads_inv w -> active_step w w' -> threads_inv w'.
Proof.
  intros HI Hs. destruct Hs as [w w' Hs|w ws1 l p ws2 Hw|w ss1 s ss2 Hss].
  - by destruct (threads_inv_thread_step w _ HI Hs) as (w1 & [= <-] & HI1).
  - destruct HI as [HI|[HI Hths]].
    { destruct (qu_operations w (ui_quiet w HI)) as [Hnil _]. rewrite Hw in Hnil. by destruct ws1. }
    eapply threads_inv_spawn; [by eapply connected_written|done|by repeat constructor|done].
  - left. destruct HI as [HI|[[_ _ [_ Hs] _ _ _ _] _]]; [by apply unconnected_setup|]. rewrite Hss in Hs. by destruct ss1.
Qed.

Lemma threads_inv_step w o : threads_inv w -> step false w o -> exists w', o = Some w' /\ threads_inv w'.
Proof.
  intros HI Hs. destruct Hs as [w o Hs|w w' Hs|w|w rs1 r rs2 ps Hv Hr| | | | |]; try done.
  - by eapply threads_inv_thread_step.
  - eexists. split; [done|]. by eapply threads_inv_active_step.
  - eexists. split; [done|]. destruct HI as [HI|[HI Hths]]; [left; by apply unconnected_send|].
    apply (threads_inv_spawn w); [by apply connected_send|done|by repeat constructor|done].
  - eexists. split; [done|]. destruct HI as [HI|[HI Hths]].
    { destruct (qu_operations w (ui_quiet w HI)) as [_ Hnil]. rewrite Hr in Hnil. by destruct rs1. }
    destruct Hv as [|Hv]; [done|].
    eapply threads_inv_spawn; [by eapply connected_received|done|by repeat constructor|done].
Qed.

Lemma threads_inv_initial c : threads_inv (initial_world c).
Proof.
  left. split; [by repeat constructor| |split; constructor].
  left. exists Resolving. by repeat constructor.
Qed.

Lemma par_reaches_inv c o : par_reaches c false o -> exists w, o = Some w /\ threads_inv w.
Proof.
  induction 1 as [|w o _ (w0 & [= <-] & HI) Hs]; [eexists; split; [done|apply threads_inv_initial]|].
  by eapply threads_inv_step.
Qed.

(** Some thread that has something to do can do it. *)
Lemma threads_progress w t i k :
  threads_inv w -> w_threads w !! t = Some (i :: k) -> exists w', thread_step w (Some w').
Proof.
  intros [HI|[HI Hths]] Ht.
  { destruct (unconnected_goes w t i k HI Ht) as (w' & todo & He & _). eexists. by eapply step_goes. }
  pose proof (connected_goes w t i k HI Hths Ht) as Hi.
  destruct (exec i w) as [| |w' todo] eqn:He; [|done|eexists; by eapply step_goes].
  destruct (ci_write _ _ HI) as (o & Ho & Hok).
  assert (exists j x, j ∈ pool w /\ write_owner_of j = Some x /\ holds x = true) as (j & x & Hin & Hj & Hx).
  { destruct o as [o|]; [|destruct Hok as (_ & Hm & _); congruence].
    destruct Hok as (_ & Hm & _). assert (o ∈ write_owners (pool w) w) as Hin by (rewrite Ho; left).
    apply elem_of_app in Hin as [Hin|([??] & -> & _)%list_elem_of_fmap]; [|cbn in Hm; congruence].
    apply list_elem_of_omap in Hin as (j & Hin & Hj). exists j, o. split_and!; [done..|congruence]. }
  apply in_pool in Hin as (t' & th & Ht' & Hin).
  destruct th as [|j' k']; [by apply elem_of_nil in Hin|]. apply elem_of_cons in Hin as [<-|Hin].
  - pose proof (connected_goes w t' j k' HI Hths Ht') as Hj'.
    destruct (exec j w) as [| |w2 todo2] eqn:He2; [exfalso|done|eexists; by eapply step_goes].
    destruct (ci_calm _ _ HI) as (Hcs & _).
    destruct j; cbn in Hj; try done; injection Hj as <-; try done; cbn [exec] in He2;
      unfold next_front, next_reset, next_store, next_removeFirst in He2; repeat case_match; congruence.
  - exfalso. pose proof (Forall_lookup_1 _ _ _ _ Hths Ht') as Htail. cbn in Htail.
    rewrite Forall_forall in Htail. specialize (Htail j Hin). apply (holds_holding j x) in Hj; [|done]. unfold not_holding in Htail. congruence.
Qed.

(** Every step of a thread and every completed operation uses up something. *)
Definition weight (c : par_config) (i : instr) : nat :=
  match i with
  | ICreate => 19 | IAdd _ => 18 | ICheckConnected => 7 | ICreateAuthentication => 12 | IInsert _ => 11
  | ISetConnected => 10 | IStartWriting => 6 | IWriteLoopStart _ => 5 | ISendNext _ _ => 4 | IFront _ _ => 3
  | IReset _ => 1 | IStore _ _ _ => 2 | IRemoveFirst _ _ _ => 1 | IStartReading => 3 | IWrite _ _ _ => 6
  | IReadLoopStart _ => 2 | IReadNext _ _ => 1
  | IProcess rs _ => 2 + sum_list_with (fun a => 4 + 19 * sends c a.1) rs | IRemove _ => 1 | IInvoke p _ => 2 + 19 * sends c p
  | IRestart _ | IRestartWrite _ => 50 | IRestartConnection => 49 | IStartResolveHost => 41
  | IInitSocket => 37 | IStartHandshake => 34 | IFinishInitialization => 31 | _ => 1
  end.
Definition setup_weight (s : setup_op) : nat :=
  match s with Resolving => 38 | Connecting => 36 | Handshaking => 33 | WritingHeader => 30 end.
Definition work (P : list instr) w : nat :=
  sum_list_with (weight (w_config w)) P + sum_list_with setup_weight (w_setup w)
  + 10 * length (w_queue w) + 5 * length (w_writing w).

Lemma weight_creates c n : sum_list_with (weight c) (repeat ICreate n) = (19 * n)%nat.
Proof. induction n as [|n IH]; cbn [repeat sum_list_with weight]; lia. Qed.

Lemma exec_works i rest w w' todo :
  i <> ICancelAll -> exec i w = Goes w' todo -> (work (todo ++ rest) w' < work (i :: rest) w)%nat.
Proof.
  intros Hi He. pose proof (exec_config _ _ _ _ He) as Hc. unfold work. rewrite Hc, sum_list_with_app.
  cbn [sum_list_with].
  destruct i; try done; unfold_exec;
    repeat case_match; simplify_eq; cbn [w_queue w_writing w_setup up_messageID up_queue up_order up_authentications
      up_connected up_writeLoop up_writeMutex up_store up_sent up_writing up_readLoop up_reading up_socket up_setup
      up_invoked up_permanentFailure up_storeMutex up_lost reset_loops];
    rewrite ?weight_creates, ?sum_list_with_app, ?length_app; cbn [sum_list_with weight setup_weight length fst]; try lia.
  all: match goal with H : w_queue _ = _ |- _ => rewrite H end; cbn [length]; lia.
Qed.

(** No request is cancelled. *)
Lemma no_cancel w i : threads_inv w -> i ∈ pool w -> i <> ICancelAll.
Proof.
  intros [[_ Hm _]|[[_ _ _ Hp _ _ _] _]] Hin ->; [|rewrite Forall_forall in Hp; by apply Hp in Hin].
  apply in_pool in Hin as (t & th & Ht & Hin).
  assert (Hq : ~ Forall queueing th) by (rewrite Forall_forall; intros Hq; by apply Hq in Hin).
  destruct Hm as [(s & _ & _ & Hall)|(_ & t0 & th0 & Ht0 & Hc & Hoth)]; [by apply Hq, (Forall_lookup_1 _ _ _ _ Hall Ht)|].
  destruct (decide (t = t0)) as [->|Hne]; [|by eapply Hq, Hoth]. rewrite Ht in Ht0. injection Ht0 as <-.
  unfold connecting in Hc. destruct (w_socket w); [destruct Hc as [Hc|[Hc|[Hc|[[p Hc]|Hc]]]]|]; subst th; set_solver.
Qed.

Lemma active_step_works w w' : threads_inv w -> active_step w w' -> (work (pool w') w' < work (pool w) w)%nat.
Proof.
  assert (Hperm : forall c P1 P2, P1 ≡ₚ P2 -> sum_list_with (weight c) P1 = sum_list_with (weight c) P2).
  { induction 1; cbn; lia. }
  intros HI Hact. destruct Hact as [w1 w2 Hs|w1 ws1 l p ws2 Hw|w1 ss1 s ss2 Hss].
  - inversion Hs as [w3 t i k w4 todo Ht He|]; subst.
    destruct (concat_step _ _ _ _ Ht) as (rest & Hpool & Hnew).
    assert (i <> ICancelAll) as Hi by (apply (no_cancel w1 i HI); unfold pool; rewrite Hpool; left).
    pose proof (exec_works i rest w1 w4 todo Hi He) as Hlt. pose proof (exec_threads _ _ _ _ He) as Hths.
    unfold work, pool, goes_on in *. cbn [w_threads w_queue w_writing w_setup w_config up_threads]. rewrite Hths.
    rewrite (Hperm _ _ _ Hpool), (Hperm _ _ _ (Hnew todo)). exact Hlt.
  - unfold work. rewrite (Hperm _ _ _ (pool_spawn _ _)). cbn. rewrite Hw, !length_app. cbn. unfold pool. cbn. lia.
  - unfold work. rewrite (Hperm _ _ _ (pool_spawn _ _)), sum_list_with_app.
    cbn [w_config w_setup w_queue w_writing spawn up_threads up_setup]. rewrite Hss, !sum_list_with_app.
    cbn [sum_list_with]. unfold pool. cbn [w_threads up_setup].
    assert (sum_list_with (weight (w_config w1)) (setup_thread (w_config w1) s) < setup_weight s)%nat; [|lia].
    destruct s; cbn [setup_thread]; unfold connected_thread; try case_match; cbn; lia.
Qed.

Lemma active_step_sn w : threads_inv w -> sn active_step w.
Proof.
  remember (work (pool w) w) as n eqn:Hn. revert w Hn.
  induction (lt_wf n) as [n _ IH]. intros w -> HI. constructor. intros w' Hs.
  eapply IH; [by apply active_step_works|done|by eapply threads_inv_active_step].
Qed.

Lemma active_steps_inv w w' : rtc active_step w w' -> threads_inv w -> threads_inv w'.
Proof. induction 1 as [|w1 w2 w3 Hs _ IH]; [done|]. intros HI. apply IH. by eapply threads_inv_active_step. Qed.

Lemma active_step_order w w' p : active_step w w' -> p ∈ w_order w -> p ∈ w_order w'.
Proof.
  intros [w1 w2 Hs|w1 ws1 l q ws2 Hw|] Hin; [|done..]. inversion Hs as [w3 t i k w4 todo Ht He|]; subst. cbn.
  destruct i; unfold_exec;
    repeat case_match; simplify_eq; cbn; try done; [apply elem_of_app; by left|by right].
Qed.

Lemma active_steps_order w w' p : rtc active_step w w' -> p ∈ w_order w -> p ∈ w_order w'.
Proof. induction 1 as [|w1 w2 w3 H _ IH]; [done|]. intros Hp. by eapply IH, active_step_order. Qed.

(** When nothing can go on, everything is written. *)
Lemma finished w :
  threads_inv w -> nf active_step w ->
  w_connected w = true /\ w_queue w = [] /\ w_sent w = w_order w /\ Forall (eq []) (w_threads w)
  /\ (w_store w <> [] -> w_reading w <> []).
Proof.
  intros HI Hnf.
  assert (Hdone : Forall (eq []) (w_threads w)).
  { apply Forall_lookup. intros t [|i k] Ht; [done|]. exfalso. apply Hnf.
    destruct (threads_progress w t i k HI Ht) as [w' Hs]. eexists. by constructor. }
  assert (Hpool : pool w = []) by by apply pool_done.
  assert (Hw : w_writing w = []).
  { destruct (w_writing w) as [|[l p] ws] eqn:Hw; [done|]. exfalso. apply Hnf. eexists. by apply (active_written w [] l p ws). }
  destruct HI as [[_ Hm _]|[[Hc _ _ _ (o & Ho & Hok) (r & Hr & Hrok) _] _]].
  { destruct Hm as [(s & Hs & _)|(_ & t0 & th & Ht & Hth & _)].
    - exfalso. apply Hnf. eexists. by apply (active_setup w [] s []).
    - apply (Forall_lookup_1 _ _ _ _ Hdone) in Ht as <-. unfold connecting in Hth.
      destruct (w_socket w); naive_solver. }
  unfold write_owners, read_owners in *. rewrite Hpool in *. rewrite Hw in Ho. cbn in Ho, Hr.
  destruct o; [by apply Permutation_nil_l in Ho|]. destruct Hok as (_ & _ & Hord & Hwake).
  assert (Hq : w_queue w = []).
  { destruct (w_queue w) as [|p q]; [done|]. destruct (Hwake ltac:(done)) as [H|H]; by apply elem_of_nil in H. }
  split_and!; [done|done|by rewrite Hord, Hq, app_nil_r|done|].
  intros Hst Hnil. rewrite Hnil in Hr. destruct r; [by apply Permutation_nil_l in Hr|].
  destruct Hrok as [_ Hwr]. destruct (Hwr Hst) as [H|(? & ? & ? & H)]; by apply elem_of_nil in H.
Qed.

Lemma threads_inv_lost w : threads_inv w -> w_lost w = [].
Proof. by intros [[[_ (_ & _ & ?)] _ _]|[[_ (_ & _ & ?)] _]]. Qed.

(** ** Properties *)

(** C14: as long as no operation fails, no deadline expires and no response is
    malformed, any number of threads that call [sendRequest], and the handlers of the
    connection, in any interleaving and whatever requests callbacks send: no thread uses
    a deleted loop or removes from an empty queue; if a thread has something to do, some
    thread can go on; the socket never has two writes or two reads at a time; every
    message id is given once, and requests are written once and in the order of the send
    queue: what was written, at most one that is being written, and what is still
    queued; no request is lost. *)
Theorem concurrent_sending_safe (c : par_config) (o : option world) :
  par_reaches c false o ->
  exists w, o = Some w
    /\ (forall t i k, w_threads w !! t = Some (i :: k) -> exists w', thread_step w (Some w'))
    /\ (length (w_writing w) <= 1)%nat /\ (length (w_reading w) <= 1)%nat
    /\ NoDup (w_order w) /\ w_lost w = []
    /\ exists flying, (length flying <= 1)%nat /\ w_order w = w_sent w ++ flying ++ w_queue w.
Proof.
  intros (w & -> & HI)%par_reaches_inv. exists w. split; [done|].
  split; [intros t i k Ht; by eapply threads_progress|].
  assert (Hlost : w_lost w = []) by by apply threads_inv_lost.
  assert (Hids : ids_ok (pool w) w) by (destruct HI as [[]|[[] _]]; done).
  assert (Hnd : NoDup (w_order w)) by (by apply proj1, NoDup_app in Hids as (_ & _ & ?)).
  destruct HI as [[[_ _ _ _ _ [Hw Hr] Hs Hord] _ _]|[[_ _ _ _ (x & Hx & Hok) (r & Hr & _) _] _]].
  { rewrite Hw, Hr, Hs. split_and!; cbn; [lia|lia|done|done|]. exists []. by split; [cbn; lia|]. }
  apply Permutation_length in Hx, Hr. unfold write_owners, read_owners in *.
  rewrite length_app, length_fmap in Hx. rewrite length_app, length_fmap in Hr. split_and!; [destruct x; cbn in Hx; lia|destruct r; cbn in Hr; lia|done|done|].
  destruct x as [x|]; destruct Hok as (_ & _ & Hord); [exists (in_flight x)|exists []].
  - split; [destruct x; cbn; lia|apply Hord].
  - split; [cbn; lia|apply Hord].
Qed.

(** C15: as long as no operation fails, no deadline expires and no response is
    malformed, no wake-up is lost.  From every reachable state, threads and the completion
    of writes and of the steps of the connection can go on only finitely long, whatever
    callbacks send; when they have finished, the connection is made, everything that
    was queued has been written, no thread is left over, every request waits for its
    response or its callback has been called, and as long as one waits the connection
    reads. *)
Theorem concurrent_sending_live (c : par_config) (w w' : world) :
  par_reaches c false (Some w) -> rtc active_step w w' ->
  sn active_step w
  /\ (nf active_step w' ->
       w_connected w' = true /\ w_queue w' = [] /\ w_sent w' = w_order w'
       /\ (forall p, p ∈ w_order w -> p ∈ w_store w' \/ p ∈ w_invoked w')
       /\ Forall (eq []) (w_threads w')
       /\ (w_store w' <> [] -> w_reading w' <> [])).
Proof.
  intros Hreach Hs. pose proof (par_reaches_inv _ _ Hreach) as (w0 & [= <-] & HI). split; [by apply active_step_sn|]. intros Hnf.
  destruct (finished w' (active_steps_inv _ _ Hs HI) Hnf) as (Hc & Hq & Hsent & Hd & Hr).
  split_and!; [done..| |done|done]. intros p Hp.
  assert (p ∈ w_sent w') as Hp' by (rewrite Hsent; by eapply active_steps_order).
  assert (Hreach' : par_reaches c false (Some w')).
  { clear - Hreach Hs. induction Hs as [|w1 w2 w3 H _ IH]; [done|]. apply IH. by eapply runs_next, step_active. }
  destruct (ac_sent _ _ (proj1 (runs_accounted _ _ _ Hreach' (initial_accounted c))) p Hp') as [|[[|[e Hin]]|Hlost]];
    [by left|by right|exfalso..].
  - apply in_pool in Hin as (t & th & Ht & Hin). apply (Forall_lookup_1 _ _ _ _ Hd) in Ht as <-. by apply elem_of_nil in Hin.
  - rewrite (threads_inv_lost w') in Hlost; [by apply elem_of_nil in Hlost|by eapply active_steps_inv].
Qed.

(** ** Witnesses *)

(** A connection with TLS and authentication; the callback of the first request sends
    another one. *)
Definition ex_config : par_config := MkParConfig true true (fun p => if Nat.eqb p 1 then 1 else 0)%nat.
(** Two users send while the connection is being made; the authentication request
    overtakes them. *)
Definition two_senders : list choice :=
  [Send; RunThread 0; RunThread 0; Made; RunThread 1; Made; RunThread 2; Made; RunThread 3; Made]
  ++ [Send; RunThread 5; RunThread 0; RunThread 5] ++ run_thread 4 3 ++ [RunThread 5] ++ run_thread 4 10
  ++ [Written] ++ run_thread 6 6.
Definition two_sent : world := Eval vm_compute in run_from ex_config two_senders.
Lemma two_sent_reached : par_reaches ex_config false (Some two_sent).
Proof. refine (run_choices_reach false two_senders _ _ _ _ (runs_start _ _) _); vm_compute; reflexivity. Qed.

Lemma concurrent_sending_safe_witness :
  w_sent two_sent = [3; 1]%nat /\ w_queue two_sent = [2]%nat /\ NoDup [3; 1; 2]%nat.
Proof.
  destruct (concurrent_sending_safe ex_config _ two_sent_reached) as (w & [= <-] & _ & _ & _ & Hnd & _).
  split; [reflexivity|]. split; [reflexivity|exact Hnd].
Defined.

(** Two responses come, and the callback of the first request sends a fourth; then
    everything runs to its end. *)
Definition two_answers : list choice := two_senders ++ [Received [(3, true); (1, true)]%nat].
Definition two_answered : world := Eval vm_compute in run_from ex_config two_answers.
Lemma two_answered_reached : par_reaches ex_config false (Some two_answered).
Proof. refine (run_choices_reach false two_answers _ _ _ _ (runs_start _ _) _); vm_compute; reflexivity. Qed.

Definition run_out : list choice :=
  run_thread 4 1 ++ run_thread 5 1 ++ run_thread 7 12 ++ [Written] ++ run_thread 8 6 ++ [Written] ++ run_thread 9 6
  ++ [Written] ++ run_thread 10 3.
Definition all_written : world := Eval vm_compute in default two_answered (run_choices run_out two_answered).
Lemma no_active_step w : Forall (eq []) (w_threads w) -> w_writing w = [] -> w_setup w = [] -> nf active_step w.
Proof.
  intros Hths Hw Hss [w' Hs]. inversion Hs as [w1 w2 Hts|w1 ws1 l p ws2 Hw1|w1 ss1 s ss2 Hs1]; subst.
  - rewrite Forall_lookup in Hths. inversion Hts as [w3 t i k w4 todo Ht|]; subst. by apply Hths in Ht.
  - rewrite Hw in Hw1. by destruct ws1.
  - rewrite Hss in Hs1. by destruct ss1.
Qed.

Fixpoint only_active (cs : list choice) : bool :=
  match cs with [] => true | (RunThread _ | Written) :: cs => only_active cs | _ => false end.
Lemma run_active cs : forall w w', only_active cs = true -> run_choices cs w = Some w' -> rtc active_step w w'.
Proof.
  induction cs as [|c cs IH]; intros w w' Ha; cbn [run_choices]; [by intros [= <-]|].
  destruct (run_choice c w) as [w1|] eqn:Hc; [|done]. intros Hcs.
  apply rtc_l with w1; [|apply IH; [by destruct c|done]]. destruct c; try done; [constructor; by eapply run_thread_step|].
  cbn [run_choice] in Hc. destruct (w_writing w) as [|[l p] ws] eqn:Hw; [done|]. injection Hc as <-.
  by apply (active_written w [] l p ws).
Qed.
Lemma concurrent_sending_live_witness :
  w_sent all_written = [3; 1; 2; 4]%nat /\ w_store all_written = [2; 4]%nat
  /\ (1%nat ∈ w_store all_written \/ 1%nat ∈ w_invoked all_written) /\ w_reading all_written <> [].
Proof.
  destruct (concurrent_sending_live ex_config two_answered all_written two_answered_reached) as [_ Hf].
  - apply (run_active run_out); vm_compute; reflexivity.
  - destruct Hf as (_ & _ & Hs & Hin & _ & Hr); [apply no_active_step; [repeat constructor|reflexivity|reflexivity]|].
    split; [rewrite Hs; reflexivity|]. split; [reflexivity|]. split; [apply Hin; do 1 right; left|by apply Hr].
Defined.
