(* ===== verification/Curl.v ===== *)
(** * libcurl's multi interface, as the program uses it

    libcurl and the sockets of boost::asio are not part of the repository.
    What src/CurlMultiAsio.cpp calls of them is the class [Curl]; what it
    relies on, in the words of libcurl's documentation, are the laws of
    [CurlLaws].

    The functions of the multi interface call back into the program while they
    run (CURLMOPT_SOCKETFUNCTION, CURLMOPT_TIMERFUNCTION,
    CURLOPT_OPENSOCKETFUNCTION, CURLOPT_CLOSESOCKETFUNCTION), and the program
    calls [curl_multi_assign] from inside these callbacks.  A call of libcurl is
    therefore a [curl_run]: it returns, or it hands its state to a callback and
    goes on with the result of the callback and the state it gets back. *)
From S2P Require Import Prelude.
Local Open Scope Z_scope.

(** ** Constants and data of curl/curl.h and curl/multi.h *)
Inductive CURLMcode : Type :=
| CURLM_OK | CURLM_CALL_MULTI_PERFORM | CURLM_BAD_HANDLE | CURLM_BAD_EASY_HANDLE
| CURLM_OUT_OF_MEMORY | CURLM_INTERNAL_ERROR | CURLM_BAD_SOCKET | CURLM_UNKNOWN_OPTION
| CURLM_LAST | CURLM_other (n : Z).
#[export] Instance CURLMcode_eq_dec : EqDecision CURLMcode.
Proof. solve_decision. Defined.

Inductive CURLcode : Type :=
| CURLE_OK | CURLE_URL_MALFORMAT | CURLE_COULDNT_RESOLVE_HOST | CURLE_COULDNT_CONNECT
| CURLE_OPERATION_TIMEDOUT | CURLE_SSL_CONNECT_ERROR | CURLE_GOT_NOTHING | CURLE_SEND_ERROR
| CURLE_RECV_ERROR | CURLE_other (n : Z).
#[export] Instance CURLcode_eq_dec : EqDecision CURLcode.
Proof. solve_decision. Defined.

(** Handles of transfers ([CURL*]) and sockets ([curl_socket_t]) are numbers. *)
Record CURLMsg : Type := MkMsg {
  msg_is_DONE : bool;
  easy_handle : Z;
  msg_result : CURLcode;
}.

Definition CURL_POLL_IN : Z := 1.
Definition CURL_POLL_OUT : Z := 2.
Definition CURL_POLL_INOUT : Z := 3.
Definition CURL_POLL_REMOVE : Z := 4.
Definition CURL_SOCKET_BAD : Z := -1.
Definition CURL_SOCKET_TIMEOUT : Z := CURL_SOCKET_BAD.

Inductive curlsocktype : Type := CURLSOCKTYPE_IPCXN | CURLSOCKTYPE_other (n : Z).
Inductive address_family : Type := AF_INET | AF_INET6 | AF_other (n : Z).

(** The callbacks.  [socketp] is the private pointer of the socket. *)
Inductive curl_callback : Type :=
| CbSocket (easy s what : Z) (socketp : option nat)
| CbTimer (timeout_ms : Z)
| CbOpenSocket (purpose : curlsocktype) (family : address_family)
| CbCloseSocket (item : Z).

Inductive curl_run (W A : Type) : Type :=
| Return (a : A) (w : W)
| Callback (w : W) (c : curl_callback) (k : Z -> W -> curl_run W A).
Arguments Return {W A}.
Arguments Callback {W A}.

(** ** The functions

    [world] is the state of libcurl and of the operating system's sockets. *)
Class Curl : Type := {
  world : Type;
  CURLM_value : CURLMcode -> Z;
  curl_multi_add_handle : Z -> world -> curl_run world CURLMcode;
  curl_multi_remove_handle : Z -> world -> curl_run world CURLMcode;
  curl_multi_socket_action : Z -> Z -> world -> curl_run world (CURLMcode * Z);
  curl_multi_cleanup : world -> curl_run world CURLMcode;
  curl_multi_info_read : world -> option CURLMsg * world;
  curl_multi_assign : Z -> option nat -> world -> world;
  (* [socket::open] gives a native handle or an error *)
  tcp_open : address_family -> world -> option Z * world;
  (* [socket::cancel] may throw *)
  tcp_cancel : option Z -> world -> bool * world;
  (* what the documentation speaks about: the transfers of the multi handle, the
     messages that have not been read, the private pointers of sockets *)
  transfers : world -> list Z;
  messages : world -> list CURLMsg;
  private : world -> Z -> option nat;
}.

(** The transfers whose completion has not been read. *)
Definition completed (ms : list CURLMsg) : list Z :=
  easy_handle <$> filter (fun m => msg_is_DONE m = true) ms.

Section Laws.
Context {CU : Curl}.

(** What the callbacks may do to the world. *)
Inductive touched : world -> world -> Prop :=
| touched_refl w : touched w w
| touched_assign w s p w' : touched (curl_multi_assign s p w) w' -> touched w w'
| touched_open w f w' : touched (tcp_open f w).2 w' -> touched w w'
| touched_cancel w h w' : touched (tcp_cancel h w).2 w' -> touched w w'.

(** The socket callback gets the private pointer of its socket. *)
Definition good_callback (w : world) (c : curl_callback) : Prop :=
  match c with CbSocket _ s _ socketp => socketp = private w s | _ => True end.

(** A run that starts with the private pointers [p] leaves changing them to
    [curl_multi_assign], and ends with a result and a world in [Q]. *)
Fixpoint obeys {A} (Q : A -> world -> Prop) (p : Z -> option nat) (t : curl_run world A) : Prop :=
  match t with
  | Return a w => (forall s, private w s = p s) /\ Q a w
  | Callback w c k =>
      (forall s, private w s = p s) /\ good_callback w c
      /\ forall r w', touched w w' -> obeys Q (private w') (k r w')
  end.

(** Completions are read once, and are completions of known transfers. *)
Definition world_ok (w : world) : Prop :=
  NoDup (transfers w) /\ NoDup (completed (messages w))
  /\ forall h, h ∈ completed (messages w) -> h ∈ transfers w.

Class CurlLaws : Prop := {
  assign_private : forall s p w s',
    private (curl_multi_assign s p w) s' = if decide (s' = s) then p else private w s';
  assign_transfers : forall s p w, transfers (curl_multi_assign s p w) = transfers w;
  assign_messages : forall s p w, messages (curl_multi_assign s p w) = messages w;
  open_private : forall f w s, private (tcp_open f w).2 s = private w s;
  open_transfers : forall f w, transfers (tcp_open f w).2 = transfers w;
  open_messages : forall f w, messages (tcp_open f w).2 = messages w;
  cancel_private : forall h w s, private (tcp_cancel h w).2 s = private w s;
  cancel_transfers : forall h w, transfers (tcp_cancel h w).2 = transfers w;
  cancel_messages : forall h w, messages (tcp_cancel h w).2 = messages w;
  (* a handle is added once *)
  add_law : forall h w, world_ok w -> h ∉ transfers w ->
    obeys (fun rc w' => rc <> CURLM_BAD_SOCKET /\
             (rc = CURLM_OK -> transfers w' ≡ₚ h :: transfers w /\ messages w' = messages w))
      (private w) (curl_multi_add_handle h w);
  (* a transfer that is removed is forgotten, with its messages *)
  remove_law : forall h w, NoDup (transfers w) -> h ∈ transfers w ->
    obeys (fun rc w' => rc <> CURLM_BAD_SOCKET /\
             (rc = CURLM_OK -> h :: transfers w' ≡ₚ transfers w
                /\ messages w' = filter (fun m => easy_handle m <> h) (messages w)))
      (private w) (curl_multi_remove_handle h w);
  (* transfers stay in the multi handle when they complete *)
  action_law : forall s a w, world_ok w ->
    obeys (fun _ w' => world_ok w' /\ transfers w' = transfers w)
      (private w) (curl_multi_socket_action s a w);
  info_read_law : forall w,
    match messages w with
    | [] => (curl_multi_info_read w).1 = None
        /\ messages (curl_multi_info_read w).2 = []
    | m :: ms => (curl_multi_info_read w).1 = Some m
        /\ messages (curl_multi_info_read w).2 = ms
    end
    /\ transfers (curl_multi_info_read w).2 = transfers w
    /\ forall s, private (curl_multi_info_read w).2 s = private w s;
}.

Lemma touched_trans w1 w2 w3 : touched w1 w2 -> touched w2 w3 -> touched w1 w3.
Proof.
  induction 1; intros; [done|eapply touched_assign; eauto|eapply touched_open; eauto
    |eapply touched_cancel; eauto].
Qed.

Lemma obeys_mono {A} (Q Q' : A -> world -> Prop) p t :
  (forall a w, Q a w -> Q' a w) -> obeys Q p t -> obeys Q' p t.
Proof.
  intros HQ. revert p. induction t as [a w|w c k IH]; intros p; cbn [obeys]; [naive_solver|].
  intros (? & ? & H). split_and!; [done..|]. intros r w' Ht. apply IH, H, Ht.
Qed.
End Laws.
#[export] Hint Constructors touched : core.
