(* ===== verification/ToyCurl.v ===== *)
(** * A small libcurl

    A concrete instance of [Curl], against which the laws are checked and on
    which the witnesses run.  A transfer starts at the first timeout: libcurl
    asks for a socket and has it watched for input.  When the socket becomes
    readable the transfer completes, and the socket is given back; on a socket
    with an even number the response comes in two parts. *)
From S2P Require Import Prelude Curl.
Local Open Scope Z_scope.

Record toy_world : Type := MkToy {
  toy_transfers : list Z;
  toy_messages : list CURLMsg;
  toy_private : gmap Z nat;
  toy_next_fd : Z;
  toy_running : list (Z * Z);   (* socket, transfer *)
  toy_heard : list Z;           (* sockets that have read a first part *)
}.
Definition toy_initial : toy_world := MkToy [] [] ∅ 7 [] [].

(** How many transfers have not completed. *)
Definition toy_left (w : toy_world) : Z :=
  Z.of_nat (length (toy_transfers w)) - Z.of_nat (length (toy_messages w)).

Definition toy_add (h : Z) (w : toy_world) : curl_run toy_world CURLMcode :=
  Callback (MkToy (h :: toy_transfers w) (toy_messages w) (toy_private w) (toy_next_fd w) (toy_running w) (toy_heard w))
    (CbTimer 0) (fun _ w => Return CURLM_OK w).

Definition toy_remove (h : Z) (w : toy_world) : curl_run toy_world CURLMcode :=
  Return CURLM_OK
    (MkToy (filter (fun h' => h' <> h) (toy_transfers w))
      (filter (fun m => easy_handle m <> h) (toy_messages w)) (toy_private w) (toy_next_fd w) (toy_running w) (toy_heard w)).

Definition toy_complete (h : Z) (code : CURLcode) (w : toy_world) : toy_world :=
  if decide ((h ∈ toy_transfers w) /\ (h ∉ completed (toy_messages w))) then
    MkToy (toy_transfers w) (toy_messages w ++ [MkMsg true h code]) (toy_private w) (toy_next_fd w)
      (filter (fun r => r.2 <> h) (toy_running w)) (toy_heard w)
  else w.

Definition toy_assign (s : Z) (p : option nat) (w : toy_world) : toy_world :=
  MkToy (toy_transfers w) (toy_messages w)
    (match p with Some p => <[s := p]> (toy_private w) | None => delete s (toy_private w) end)
    (toy_next_fd w) (toy_running w) (toy_heard w).

Definition toy_run (s h : Z) (w : toy_world) : toy_world :=
  MkToy (toy_transfers w) (toy_messages w) (toy_private w) (toy_next_fd w) ((s, h) :: toy_running w) (toy_heard w).
Definition toy_hear (s : Z) (w : toy_world) : toy_world :=
  MkToy (toy_transfers w) (toy_messages w) (toy_private w) (toy_next_fd w) (toy_running w) (s :: toy_heard w).

(** A transfer that has neither started nor completed. *)
Definition toy_waiting (w : toy_world) : option Z :=
  head (filter (fun h => (h ∉ (toy_running w).*2) /\ (h ∉ completed (toy_messages w))) (toy_transfers w)).

Definition toy_action (s _ : Z) (w : toy_world) : curl_run toy_world (CURLMcode * Z) :=
  if s =? CURL_SOCKET_TIMEOUT then
    match toy_waiting w with
    | None => Return (CURLM_OK, toy_left w) w
    | Some h =>
        Callback w (CbOpenSocket CURLSOCKTYPE_IPCXN AF_INET) (fun fd w =>
          if fd =? CURL_SOCKET_BAD then
            let w := toy_complete h CURLE_COULDNT_CONNECT w in Return (CURLM_OK, toy_left w) w
          else
            Callback (toy_run fd h w) (CbSocket h fd CURL_POLL_IN (toy_private w !! fd)) (fun _ w =>
              Return (CURLM_OK, toy_left w) w))
    end
  else
    match head (filter (fun r => r.1 = s) (toy_running w)) with
    | None => Return (CURLM_BAD_SOCKET, toy_left w) w
    | Some (_, h) =>
        if Z.even s && bool_decide (s ∉ toy_heard w) then Return (CURLM_OK, toy_left w) (toy_hear s w)
        else
        Callback w (CbSocket h s CURL_POLL_REMOVE (toy_private w !! s)) (fun _ w =>
          Callback w (CbCloseSocket s) (fun _ w =>
            let w := toy_complete h CURLE_OK w in Return (CURLM_OK, toy_left w) w))
    end.

#[export] Instance ToyCurl : Curl := {|
  world := toy_world;
  CURLM_value c :=
    match c with
    | CURLM_OK => 0 | CURLM_CALL_MULTI_PERFORM => -1 | CURLM_BAD_HANDLE => 1
    | CURLM_BAD_EASY_HANDLE => 2 | CURLM_OUT_OF_MEMORY => 3 | CURLM_INTERNAL_ERROR => 4
    | CURLM_BAD_SOCKET => 5 | CURLM_UNKNOWN_OPTION => 6 | CURLM_LAST => 9 | CURLM_other n => n
    end;
  curl_multi_add_handle := toy_add;
  curl_multi_remove_handle := toy_remove;
  curl_multi_socket_action := toy_action;
  curl_multi_cleanup w := Return CURLM_OK w;
  curl_multi_info_read w :=
    match toy_messages w with
    | [] => (None, w)
    | m :: ms => (Some m, MkToy (toy_transfers w) ms (toy_private w) (toy_next_fd w) (toy_running w) (toy_heard w))
    end;
  curl_multi_assign := toy_assign;
  (* IPv6 is not available *)
  tcp_open f w :=
    match f with
    | AF_INET => (Some (toy_next_fd w),
        MkToy (toy_transfers w) (toy_messages w) (toy_private w) (toy_next_fd w + 1) (toy_running w) (toy_heard w))
    | _ => (None, w)
    end;
  tcp_cancel _ w := (false, w);
  transfers := toy_transfers;
  messages := toy_messages;
  private w s := toy_private w !! s;
|}.

Lemma toy_touched w w' :
  touched w w' -> toy_transfers w' = toy_transfers w /\ toy_messages w' = toy_messages w.
Proof.
  induction 1 as [w|w s p w' _ [-> ->]|w [] w' _ [-> ->]|w h w' _ [-> ->]]; done.
Qed.

Lemma toy_complete_ok h code w :
  world_ok w -> world_ok (toy_complete h code w)
    /\ toy_transfers (toy_complete h code w) = toy_transfers w
    /\ toy_private (toy_complete h code w) = toy_private w.
Proof.
  intros (Ht & Hm & Hs). unfold toy_complete. destruct (decide _) as [[H1 H2]|]; [|done].
  split; [|done]. cbn in *.
  assert (completed (toy_messages w ++ [MkMsg true h code]) = completed (toy_messages w) ++ [h]) as Hc.
  { unfold completed. rewrite filter_app, fmap_app. by rewrite filter_cons_True by done. }
  split_and!; cbn [transfers messages ToyCurl toy_transfers toy_messages]; rewrite ?Hc.
  - done.
  - apply NoDup_app. split_and!; [done| |apply NoDup_singleton].
    intros x Hx ->%list_elem_of_singleton. done.
  - intros x [?| ->%list_elem_of_singleton]%elem_of_app; [by apply Hs|done].
Qed.

#[export] Instance ToyCurlLaws : CurlLaws.
Proof.
  split; try done.
  - intros s p w s'. cbn. unfold toy_assign. cbn. destruct p.
    + rewrite lookup_insert. case_decide; case_decide; congruence.
    + rewrite lookup_delete. case_decide; case_decide; congruence.
  - by intros [].
  - by intros [].
  - by intros [].
  - intros h w _ _. cbn. split_and!; [done..|]. intros _ w' [H1 H2]%toy_touched. cbn in *.
    split; [done|]. split; [done|]. intros _. by rewrite H1, H2.
  - intros h w Hnd Hin. cbn. split; [done|]. split; [done|]. intros _. split; [|done].
    by apply filter_ne_Permutation.
  - intros s a w Hw. cbn [curl_multi_socket_action ToyCurl]. unfold toy_action.
    assert (forall w', touched w w' -> world_ok w' /\ transfers w' = transfers w) as Ht.
    { intros w' [H1 H2]%toy_touched. unfold world_ok. cbn. by rewrite H1, H2. }
    destruct (s =? CURL_SOCKET_TIMEOUT).
    + destruct (toy_waiting w) as [h|]; [|by cbn].
      cbn [obeys good_callback]. split_and!; [done..|]. intros fd w' Hw'.
      destruct (Ht w' Hw') as [Hok Heq]. destruct (fd =? CURL_SOCKET_BAD).
      * destruct (toy_complete_ok h CURLE_COULDNT_CONNECT w' Hok) as (? & H2 & H3).
        cbn [obeys]. cbn. rewrite H2, H3. done.
      * cbn [obeys good_callback]. split_and!; [done..|]. intros _ w'' Hw''.
        apply toy_touched in Hw'' as [H1 H2]. cbn [obeys]. split; [done|].
        unfold world_ok in *. cbn in *. by rewrite H1, H2.
    + destruct (head _) as [[s' h]|]; [|by cbn]. destruct (Z.even s && _); [by cbn|].
      cbn [obeys good_callback]. split_and!; [done..|]. intros _ w' Hw'.
      split_and!; [done..|]. intros _ w'' Hw''.
      destruct (Ht w'' ltac:(by eapply touched_trans)) as [Hok Heq].
      destruct (toy_complete_ok h CURLE_OK w'' Hok) as (? & H2 & H3).
      cbn [obeys]. cbn. rewrite H2, H3. done.
  - intros w. unfold curl_multi_info_read, messages, transfers, private, ToyCurl.
    destruct (toy_messages w) eqn:E; split_and!; done.
Qed.
