(* ===== verification/TransferEngine.v ===== *)
(** * What the HTTP connection needs of libcurl's driver

    [HttpConnection] hands easy handles to [CurlMultiAsio::addRequest] and is
    called back, on the io service, with the handle and the result of every
    transfer that has completed.  The class states this contract: no transfer is
    lost or invented between [addRequest] and the call back.  CurlMultiAsio.v
    implements it. *)
From S2P Require Import Prelude Curl.
Local Open Scope Z_scope.

Class TransferEngine (E : Type) : Type := {
  eng_addRequest : Z -> stm E unit;
  eng_requestsLeft : E -> Z;
  (* handlers of the io service that call nobody back *)
  eng_step : E -> E -> Prop;
  (* the handler that calls back with a handle and its result *)
  eng_deliver : Z -> CURLcode -> E -> E -> Prop;
  (* the transfers under way, and those that have completed *)
  eng_active : E -> list Z;
  eng_completed : E -> list (Z * CURLcode);
  eng_ok : E -> Prop;
}.

(** The only exception of an engine is the end of the program. *)
Definition program_exits {E} (e : exn) (_ : E) : Prop := exists status, e = process_exit status.

Class TransferEngineLaws (E : Type) `{TransferEngine E} : Prop := {
  eng_add_law : forall h e, eng_ok e -> h ∉ eng_active e ->
    wp (eng_addRequest h)
      (fun _ e' => eng_ok e' /\ eng_active e' ≡ₚ h :: eng_active e /\ eng_completed e' = eng_completed e)
      program_exits e;
  eng_step_law : forall e e', eng_ok e -> eng_step e e' ->
    eng_ok e' /\ exists finished, eng_completed e' ≡ₚ eng_completed e ++ finished
      /\ finished.*1 ++ eng_active e' ≡ₚ eng_active e;
  eng_deliver_law : forall h r e e', eng_ok e -> eng_deliver h r e e' ->
    eng_ok e' /\ eng_active e' = eng_active e /\ eng_completed e ≡ₚ (h, r) :: eng_completed e';
}.

(** A run of an engine keeps every handle: it is active, completed or delivered. *)
Section Engine.
Context `{TransferEngineLaws E}.
Definition eng_handles (e : E) : list Z := (eng_completed e).*1 ++ eng_active e.

Lemma eng_step_handles e e' :
  eng_ok e -> eng_step e e' -> eng_ok e' /\ eng_handles e' ≡ₚ eng_handles e.
Proof.
  intros He (He' & fin & Hc & Ha)%eng_step_law; [|done]. split; [done|]. unfold eng_handles.
  rewrite Hc, <- Ha, fmap_app. by rewrite <- (assoc_L (++)).
Qed.

Lemma eng_deliver_handles h r e e' :
  eng_ok e -> eng_deliver h r e e' -> eng_ok e' /\ eng_handles e ≡ₚ h :: eng_handles e'.
Proof.
  intros He (He' & Ha & Hc)%eng_deliver_law; [|done]. split; [done|]. unfold eng_handles.
  by rewrite Hc, Ha.
Qed.
End Engine.
