(* ===== verification/CurlMultiAsio.v ===== *)
(** * libcurl inside the io service

    [CurlMultiAsio] of src/CurlMultiAsio.h and src/CurlMultiAsio.cpp: the timer
    and the sockets that drive a multi handle, the callbacks libcurl makes, and
    the delivery of completed transfers.

    Objects made with [new] ([tcp::socket], [SocketInfo]) live in heaps, so
    that a pointer that is used after [delete] is undefined behaviour of the
    model; the mutexes held by the running thread are part of the state, so that
    locking one of the plain mutexes twice is, too. *)
From S2P Require Import Prelude StdMap Curl ToyCurl TransferEngine.
Local Open Scope Z_scope.

Inductive mutex : Type := MultiMutex | TimerMutex | MapMutex.
#[export] Instance mutex_eq_dec : EqDecision mutex.
Proof. solve_decision. Defined.
(** [_multi_mutex] is a [std::recursive_mutex]. *)
Definition recursive (m : mutex) : bool := match m with MultiMutex => true | _ => false end.

Inductive cm_handler : Type :=
(* the wait on [_timer], and the call posted instead of it *)
| CmTimer | CmPostedTimer
(* [event_cb], bound to a socket *)
| CmEvent (s action : Z) (socketp : nat)
(* the call of [_request_done_cb] *)
| CmDone (easy : Z) (result : CURLcode).

Section CurlMultiAsio.
Context {CU : Curl}.

(** ** State *)
Record CurlMultiAsio : Type := MkCurlMulti {
  requests_left : Z;
  timer : option Z;                      (* the wait that is armed, in ms *)
  socket_map : stdmap Z nat;
  tcp_sockets : gmap nat (option Z);     (* the heap: sockets with their native handles *)
  socket_infos : gmap nat Z;             (* the heap: SocketInfo *)
  next_ptr : nat;
  held : list mutex;
  cm_pending : list cm_handler;
  is_shared : bool;                      (* a shared_ptr owns the object *)
  the_world : world;
}.

Definition set_requests_left x s := MkCurlMulti x (timer s) (socket_map s) (tcp_sockets s)
  (socket_infos s) (next_ptr s) (held s) (cm_pending s) (is_shared s) (the_world s).
Definition set_timer x s := MkCurlMulti (requests_left s) x (socket_map s) (tcp_sockets s)
  (socket_infos s) (next_ptr s) (held s) (cm_pending s) (is_shared s) (the_world s).
Definition set_socket_map x s := MkCurlMulti (requests_left s) (timer s) x (tcp_sockets s)
  (socket_infos s) (next_ptr s) (held s) (cm_pending s) (is_shared s) (the_world s).
Definition set_tcp_sockets x s := MkCurlMulti (requests_left s) (timer s) (socket_map s) x
  (socket_infos s) (next_ptr s) (held s) (cm_pending s) (is_shared s) (the_world s).
Definition set_socket_infos x s := MkCurlMulti (requests_left s) (timer s) (socket_map s) (tcp_sockets s)
  x (next_ptr s) (held s) (cm_pending s) (is_shared s) (the_world s).
Definition set_next_ptr x s := MkCurlMulti (requests_left s) (timer s) (socket_map s) (tcp_sockets s)
  (socket_infos s) x (held s) (cm_pending s) (is_shared s) (the_world s).
Definition set_held x s := MkCurlMulti (requests_left s) (timer s) (socket_map s) (tcp_sockets s)
  (socket_infos s) (next_ptr s) x (cm_pending s) (is_shared s) (the_world s).
Definition set_cm_pending x s := MkCurlMulti (requests_left s) (timer s) (socket_map s) (tcp_sockets s)
  (socket_infos s) (next_ptr s) (held s) x (is_shared s) (the_world s).
Definition set_the_world x s := MkCurlMulti (requests_left s) (timer s) (socket_map s) (tcp_sockets s)
  (socket_infos s) (next_ptr s) (held s) (cm_pending s) (is_shared s) x.

Local Abbreviation M := (stm CurlMultiAsio).

(** [std::lock_guard] and [std::unique_lock]: unlocked at the end of the
    scope, however it is left. *)
Definition locked {A} (m : mutex) (scope : M A) : M A := fun s =>
  if negb (recursive m) && bool_decide (m ∈ held s) then (Undef "deadlock", s)
  else
    match scope (set_held (m :: held s) s) with
    | (r, s') => (r, set_held (held s) s')
    end.

Definition shared_from_this : M unit :=
  s ← reads is_shared; if s : bool then skip else lift (Throw bad_weak_ptr).
Definition async (h : cm_handler) : M unit := modify (fun s => set_cm_pending (cm_pending s ++ [h]) s).
Definition alloc : M nat :=
  p ← reads next_ptr; _ ← modify (set_next_ptr (S p)); mret p.

(** ** Sockets *)

(** [_socket_map.find], under the mutex of the map. *)
Definition lookup_socket (s : Z) : M (option nat) :=
  locked MapMutex (m ← reads socket_map; mret (map_find s m)).

(** The native handle of a [tcp::socket]. *)
Definition deref_socket (p : nat) : M (option Z) :=
  h ← reads tcp_sockets;
  lift (match h !! p with Some fd => Ok fd | None => Undef "use of a deleted socket" end).
(** [socketp->action]. *)
Definition read_action (p : nat) : M Z :=
  h ← reads socket_infos;
  lift (match h !! p with Some a => Ok a | None => Undef "use of a deleted SocketInfo" end).
Definition write_action (p : nat) (a : Z) : M unit :=
  _ ← read_action p; modify (fun s => set_socket_infos (<[p := a]> (socket_infos s)) s).

(** [async_read_some] and [async_write_some] with [null_buffers()]. *)
Definition async_wait (tcp_socket : nat) (h : cm_handler) : M unit :=
  _ ← deref_socket tcp_socket; async h.

(** [tcp_socket->cancel()] in a [try] block that ignores all exceptions. *)
Definition cancel_ignored (tcp_socket : nat) : M unit :=
  fd ← deref_socket tcp_socket;
  w ← reads the_world;
  modify (set_the_world (tcp_cancel fd w).2).

Definition set_socket (socketp : nat) (s easy action oldAction : Z) : M unit :=
  tcp_socket ← lookup_socket s;
  match tcp_socket with
  | None => skip
  | Some tcp_socket =>
      _ ← write_action socketp action;
      _ ← shared_from_this;
      if action =? CURL_POLL_IN then async_wait tcp_socket (CmEvent s CURL_POLL_IN socketp)
      else if action =? CURL_POLL_OUT then async_wait tcp_socket (CmEvent s CURL_POLL_OUT socketp)
      else if action =? CURL_POLL_INOUT then
        _ ← async_wait tcp_socket (CmEvent s CURL_POLL_IN socketp);
        async_wait tcp_socket (CmEvent s CURL_POLL_OUT socketp)
      else skip
  end.

(** [curl_multi_assign], under the mutex of the multi handle. *)
Definition assign (s : Z) (socketp : option nat) : M unit :=
  locked MultiMutex (modify (fun st => set_the_world (curl_multi_assign s socketp (the_world st)) st)).

Definition add_socket (s easy action : Z) : M unit :=
  socketp ← alloc;
  _ ← modify (fun st => set_socket_infos (<[socketp := 0]> (socket_infos st)) st);
  _ ← assign s (Some socketp);
  set_socket socketp s easy action 0.

Definition remove_socket (socketp : option nat) (s easy : Z) : M unit :=
  _ ← assign s None;
  _ ← match socketp with
      | Some p => _ ← read_action p; modify (fun st => set_socket_infos (delete p (socket_infos st)) st)
      | None => skip
      end;
  tcp_socket ← lookup_socket s;
  match tcp_socket with Some p => cancel_ignored p | None => skip end.

Definition socket_cb (easy s what : Z) (socketp : option nat) : M Z :=
  _ ← (if what =? CURL_POLL_REMOVE then remove_socket socketp s easy
       else
         match socketp with
         | None => add_socket s easy what
         | Some p => oldAction ← read_action p; set_socket p s easy what oldAction
         end);
  mret 0.

Definition open_socket (purpose : curlsocktype) (family : address_family) : M Z :=
  match purpose with
  | CURLSOCKTYPE_other _ => mret CURL_SOCKET_BAD
  | CURLSOCKTYPE_IPCXN =>
      tcp_socket ← alloc;
      _ ← modify (fun st => set_tcp_sockets (<[tcp_socket := None]> (tcp_sockets st)) st);
      match family with
      | AF_other _ => mret CURL_SOCKET_BAD
      | AF_INET | AF_INET6 =>
          w ← reads the_world;
          _ ← modify (set_the_world (tcp_open family w).2);
          match (tcp_open family w).1 with
          | None => mret CURL_SOCKET_BAD
          | Some sockfd =>
              _ ← modify (fun st => set_tcp_sockets (<[tcp_socket := Some sockfd]> (tcp_sockets st)) st);
              _ ← locked MapMutex
                    (modify (fun st => set_socket_map (map_emplace sockfd tcp_socket (socket_map st)) st));
              mret sockfd
          end
      end
  end.

Definition close_socket (item : Z) : M Z :=
  _ ← locked MapMutex (
        m ← reads socket_map;
        match map_find item m with
        | None => skip
        | Some tcp_socket =>
            _ ← cancel_ignored tcp_socket;
            _ ← modify (fun st => set_tcp_sockets (delete tcp_socket (tcp_sockets st)) st);
            modify (fun st => set_socket_map (map_erase item (socket_map st)) st)
        end);
  mret 0.

(** ** The timer *)
Definition multi_timer_cb (timeout_ms : Z) : M Z :=
  _ ← locked TimerMutex (
        _ ← modify (set_timer None);
        if 0 <? timeout_ms then
          _ ← modify (set_timer (Some timeout_ms));
          _ ← shared_from_this;
          async CmTimer
        else if timeout_ms =? 0 then
          _ ← shared_from_this;
          async CmPostedTimer
        else skip);
  mret 0.

(** ** Calls of libcurl *)

(** The callbacks are the static functions [bind_...] of the class.  An
    exception must not pass through libcurl, which is C. *)
Definition dispatch (c : curl_callback) : M Z := fun s =>
  match
    match c with
    | CbSocket easy s what socketp => socket_cb easy s what socketp
    | CbTimer timeout_ms => multi_timer_cb timeout_ms
    | CbOpenSocket purpose family => open_socket purpose family
    | CbCloseSocket item => close_socket item
    end s
  with
  | (Throw _, s) => (Undef "an exception passes through libcurl", s)
  | r => r
  end.

Fixpoint run {A} (t : curl_run world A) : M A :=
  match t with
  | Return a w => _ ← modify (set_the_world w); mret a
  | Callback w c k =>
      _ ← modify (set_the_world w);
      r ← dispatch c;
      w' ← reads the_world;
      run (k r w')
  end.
(** A function of libcurl, called with its current state. *)
Definition call {A} (f : world -> curl_run world A) : M A :=
  w ← reads the_world; run (f w).

Definition assertCurlOK (code : CURLMcode) : res unit :=
  match code with
  | CURLM_OK | CURLM_BAD_SOCKET => Ok ()
  | _ => Throw (process_exit (CURLM_value code))
  end.

Definition addRequest (easyHandle : Z) : M unit :=
  locked MultiMutex (
    rc ← call (curl_multi_add_handle easyHandle);
    lift (assertCurlOK rc)).

(** The loop ends when no message is left; there are as many as libcurl has. *)
Fixpoint messages_loop (fuel : nat) : M unit :=
  msg ← locked MultiMutex (
    w ← reads the_world;
    _ ← modify (set_the_world (curl_multi_info_read w).2);
    mret (curl_multi_info_read w).1);
  match msg with
  | None => skip
  | Some msg =>
      match fuel with
      | O => lift (Undef "the loop does not terminate")
      | S fuel =>
          _ ← (if msg_is_DONE msg then
                 _ ← locked MultiMutex (
                   rc ← call (curl_multi_remove_handle (easy_handle msg));
                   lift (assertCurlOK rc));
                 _ ← shared_from_this;
                 async (CmDone (easy_handle msg) (msg_result msg))
               else skip);
          messages_loop fuel
      end
  end.

Definition check_multi_info (still_running : Z) : M unit :=
  _ ← modify (set_requests_left still_running);
  w ← reads the_world;
  messages_loop (length (messages w)).

(** [curl_multi_socket_action], checked, under the mutex. *)
Definition socket_action (s action : Z) : M Z :=
  locked MultiMutex (
    '(rc, still_running) ← call (curl_multi_socket_action s action);
    _ ← lift (assertCurlOK rc);
    mret still_running).

(** [error] is set when the wait was cancelled or failed. *)
Definition timer_cb (error : bool) : M unit :=
  if error then skip
  else still_running ← socket_action CURL_SOCKET_TIMEOUT 0; check_multi_info still_running.

(** The error code is not looked at. *)
Definition event_cb (s action : Z) (error : bool) (socketp : nat) : M unit :=
  still_running ← socket_action s action;
  _ ← check_multi_info still_running;
  if still_running <=? 0 then locked TimerMutex (modify (set_timer None)) else skip.

(** ** Life time *)
Definition new_CurlMultiAsio (multi : option world) : res CurlMultiAsio :=
  match multi with
  | None => Throw (logic_error "curl_multi_init failed")
  | Some w => Ok (MkCurlMulti 0 None [] ∅ ∅ 0 [] [] true w)
  end.

(** The destructor; no [shared_ptr] owns the object any more. *)
Definition destroy_CurlMultiAsio : M unit :=
  _ ← modify (fun s => MkCurlMulti (requests_left s) (timer s) (socket_map s) (tcp_sockets s)
        (socket_infos s) (next_ptr s) (held s) (cm_pending s) false (the_world s));
  _ ← locked TimerMutex (modify (set_timer None));
  locked MultiMutex (_ ← call curl_multi_cleanup; skip).

(** The io service runs a handler; [error] is the outcome of its wait. *)
Definition run_handler (h : cm_handler) (error : bool) : M unit :=
  match h with
  | CmTimer => timer_cb error
  | CmPostedTimer => timer_cb false
  | CmEvent s action socketp => event_cb s action error socketp
  | CmDone _ _ => skip
  end.

(** ** Memory safety *)
Context `{!CurlLaws}.

(** Completions that wait to be delivered. *)
Definition posted_of (l : list cm_handler) : list (Z * CURLcode) :=
  omap (fun h => match h with CmDone easy result => Some (easy, result) | _ => None end) l.
Definition posted (s : CurlMultiAsio) : list (Z * CURLcode) := posted_of (cm_pending s).
(** What the callbacks leave alone. *)
Definition seen (s : CurlMultiAsio) : Z * list (Z * CURLcode) := (requests_left s, posted s).

(** No pointer dangles: the map leads to live sockets that know their handle, the
    private pointers of libcurl to live [SocketInfo]s, one for each socket, and
    none of these is lost. *)
Record mem_ok (hs : list mutex) (s : CurlMultiAsio) : Prop := {
  ok_held : held s = hs;
  ok_shared : is_shared s = true;
  ok_map : map_wf (socket_map s);
  ok_sockets : forall fd p, map_find fd (socket_map s) = Some p -> tcp_sockets s !! p = Some (Some fd);
  ok_infos : forall fd p, private (the_world s) fd = Some p -> is_Some (socket_infos s !! p);
  ok_inj : forall fd fd' p, private (the_world s) fd = Some p -> private (the_world s) fd' = Some p -> fd = fd';
  ok_leak : forall p, is_Some (socket_infos s !! p) -> exists fd, private (the_world s) fd = Some p;
  ok_next : forall p, (next_ptr s <= p)%nat -> socket_infos s !! p = None /\ tcp_sockets s !! p = None;
}.

(** What a callback leaves behind. *)
Definition after (hs : list mutex) (s s' : CurlMultiAsio) : Prop :=
  mem_ok hs s' /\ touched (the_world s) (the_world s') /\ seen s' = seen s.
Definition never (_ : exn) (_ : CurlMultiAsio) : Prop := False.

Lemma after_trans hs s1 s2 s3 : after hs s1 s2 -> after hs s2 s3 -> after hs s1 s3.
Proof. intros (_ & H1 & P1) (? & H2 & P2). split_and!; [done|by eapply touched_trans|congruence]. Qed.

Lemma touched_laws w w' :
  touched w w' -> transfers w' = transfers w /\ messages w' = messages w.
Proof.
  induction 1 as [|w s p w' _ [-> ->]|w f w' _ [-> ->]|w h w' _ [-> ->]];
    rewrite ?assign_transfers, ?assign_messages, ?open_transfers, ?open_messages,
      ?cancel_transfers, ?cancel_messages; done.
Qed.

Lemma mem_ok_world hs s w :
  (forall fd, private w fd = private (the_world s) fd) -> mem_ok hs s -> mem_ok hs (set_the_world w s).
Proof.
  intros Hw []. split; cbn; try done; setoid_rewrite Hw; done.
Qed.

Lemma wp_locked {A} m (scope : M A) Q E s :
  (recursive m || bool_decide (m ∉ held s)) = true ->
  wp scope (fun a s' => Q a (set_held (held s) s')) (fun e s' => E e (set_held (held s) s'))
    (set_held (m :: held s) s) ->
  wp (locked m scope) Q E s.
Proof.
  intros Hm Hw. unfold wp, locked in *.
  replace (negb (recursive m) && bool_decide (m ∈ held s)) with false.
  - by destruct (scope _) as [[] ?].
  - destruct (recursive m); [done|]. cbn in *. symmetry. apply bool_decide_eq_false.
    by apply bool_decide_eq_true in Hm.
Qed.

(** The map and the timer may be used: their mutexes are free. *)
Definition unlocked (hs : list mutex) : Prop := (MapMutex ∉ hs) /\ (TimerMutex ∉ hs).

Lemma set_held_held s : set_held (held s) s = s.
Proof. by destruct s. Qed.
Lemma mem_ok_held hs hs' s : mem_ok hs s -> mem_ok hs' (set_held hs' s).
Proof. intros []. by split. Qed.

Lemma wp_lookup_socket hs fd s Q :
  mem_ok hs s -> unlocked hs -> Q (map_find fd (socket_map s)) s -> wp (lookup_socket fd) Q never s.
Proof.
  intros Hs [Hm _] HQ. unfold lookup_socket. apply wp_locked.
  { cbn. apply bool_decide_eq_true. by rewrite (ok_held _ _ Hs). }
  repeat wp_step. cbn. destruct s; exact HQ.
Qed.

Lemma wp_deref_socket p fd s (Q : option Z -> CurlMultiAsio -> Prop) :
  tcp_sockets s !! p = Some fd -> Q fd s -> wp (deref_socket p) Q never s.
Proof. intros Hp HQ. unfold deref_socket. repeat wp_step. eapply wp_lift_Ok; [by rewrite Hp|done]. Qed.
Lemma wp_read_action p s (Q : Z -> CurlMultiAsio -> Prop) :
  is_Some (socket_infos s !! p) -> (forall a, Q a s) -> wp (read_action p) Q never s.
Proof. intros [a Hp] HQ. unfold read_action. repeat wp_step. eapply wp_lift_Ok; [by rewrite Hp|done]. Qed.
Lemma wp_shared hs s (Q : unit -> CurlMultiAsio -> Prop) E :
  mem_ok hs s -> Q () s -> wp shared_from_this Q E s.
Proof. intros Hs HQ. unfold shared_from_this. repeat wp_step. by rewrite (ok_shared _ _ Hs). Qed.

(** Starting a wait or posting a handler that delivers nothing. *)
Lemma mem_ok_async hs s h : mem_ok hs s -> mem_ok hs (set_cm_pending (cm_pending s ++ [h]) s).
Proof. intros []. by split. Qed.
Lemma after_async hs s h :
  mem_ok hs s -> posted_of [h] = [] -> after hs s (set_cm_pending (cm_pending s ++ [h]) s).
Proof.
  intros Hs Hh. split_and!; [by apply mem_ok_async|done|].
  unfold seen, posted, posted_of in *. cbn. by rewrite omap_app, Hh, app_nil_r.
Qed.
Lemma wp_async_wait hs p fd h s :
  mem_ok hs s -> tcp_sockets s !! p = Some fd -> posted_of [h] = [] ->
  wp (async_wait p h) (fun _ s' => after hs s s' /\ tcp_sockets s' = tcp_sockets s) never s.
Proof.
  intros Hs Hp Hh. unfold async_wait. wp_step. eapply wp_deref_socket; [done|].
  unfold async. wp_step. split; [by apply after_async|done].
Qed.

Lemma mem_ok_write_action hs s p a :
  mem_ok hs s -> is_Some (socket_infos s !! p) -> mem_ok hs (set_socket_infos (<[p := a]> (socket_infos s)) s).
Proof.
  intros [] Hp. split; cbn; try done.
  - intros fd q Hq. rewrite lookup_insert_is_Some. destruct (decide (p = q)); eauto.
  - intros q Hq. apply ok_leak0. rewrite lookup_insert_is_Some in Hq. naive_solver.
  - intros q Hq. split; [|by apply ok_next0]. rewrite lookup_insert_ne; [by apply ok_next0|].
    intros ->. destruct (ok_next0 _ Hq) as [Hn _]. rewrite Hn in Hp. by destruct Hp.
Qed.

Lemma wp_set_socket hs p fd easy action oldAction s :
  mem_ok hs s -> unlocked hs -> is_Some (socket_infos s !! p) ->
  wp (set_socket p fd easy action oldAction) (fun _ s' => after hs s s') never s.
Proof.
  intros Hs Hu Hp. unfold set_socket. wp_step. apply (wp_lookup_socket hs); [done..|].
  destruct (map_find fd (socket_map s)) as [tcp|] eqn:Hfd; [|by wp_step].
  apply (ok_sockets _ _ Hs) in Hfd. unfold write_action. wp_step. wp_step.
  apply wp_read_action; [done|]. intros _. wp_step.
  pose proof (mem_ok_write_action hs s p action Hs Hp) as Hs'.
  assert (after hs s (set_socket_infos (<[p := action]> (socket_infos s)) s)) as Ha by done.
  revert Hs' Ha. generalize (eq_refl : tcp_sockets (set_socket_infos (<[p := action]> (socket_infos s)) s)
    = tcp_sockets s).
  generalize (set_socket_infos (<[p := action]> (socket_infos s)) s). intros s1 Ht Hs1 Ha.
  rewrite <- Ht in Hfd. wp_step. eapply wp_shared; [done|].
  assert (forall h, posted_of [h] = [] ->
    wp (async_wait tcp h) (fun _ s' => after hs s s') never s1) as Hw.
  { intros h Hh. eapply wp_mono; [by eapply wp_async_wait| |done]. intros _ s2 [H2 _]. by eapply after_trans. }
  repeat case_match; [by apply Hw..| |by wp_step].
  wp_step. eapply wp_mono; [by eapply (wp_async_wait hs)| |done]. intros _ s2 [Ha2 Ht2].
  eapply wp_mono; [eapply (wp_async_wait hs); [apply Ha2|by rewrite Ht2|done]| |done].
  intros _ s3 [Ha3 _]. by do 2 (eapply after_trans; [done|]).
Qed.

(** [curl_multi_assign] itself. *)
Lemma wp_assign fd p s (Q : unit -> CurlMultiAsio -> Prop) :
  Q () (set_the_world (curl_multi_assign fd p (the_world s)) s) -> wp (assign fd p) Q never s.
Proof. intros HQ. unfold assign. apply wp_locked; [done|]. wp_step. cbn. by destruct s. Qed.

Lemma wp_add_socket hs fd easy action s :
  mem_ok hs s -> unlocked hs -> private (the_world s) fd = None ->
  wp (add_socket fd easy action) (fun _ s' => after hs s s') never s.
Proof.
  intros Hs Hu Hfd. unfold add_socket, alloc. repeat wp_step. apply wp_assign. cbn.
  destruct (ok_next _ _ Hs (next_ptr s) ltac:(lia)) as [Hn1 Hn2].
  assert (forall fd', private (the_world s) fd' <> Some (next_ptr s)) as Hfresh.
  { intros fd' H'. apply (ok_infos _ _ Hs) in H' as [? H']. congruence. }
  eapply wp_mono; [eapply (wp_set_socket hs)| |done]; [|done| |].
  - destruct Hs. split; cbn; try done.
    + intros fd' p. rewrite assign_private. rewrite lookup_insert_is_Some.
      destruct (decide (fd' = fd)); [naive_solver|]. intros Hp. right. split; [congruence|eauto].
    + intros fd1 fd2 p. rewrite !assign_private. repeat case_decide; naive_solver.
    + intros p Hp. destruct (decide (p = next_ptr s)) as [->|Hne].
      * exists fd. rewrite assign_private. by case_decide.
      * rewrite lookup_insert_ne in Hp by done. destruct (ok_leak0 _ Hp) as [fd' Hfd']. exists fd'.
        rewrite assign_private. by case_decide; [congruence|].
    + intros p Hp. rewrite lookup_insert_ne by lia. apply ok_next0. lia.
  - cbn. by rewrite lookup_insert_eq.
  - intros _ s' (? & Ht & ?). split_and!; [done| |done]. eapply touched_assign. exact Ht.
Qed.

Lemma wp_cancel_ignored hs p fd s :
  mem_ok hs s -> tcp_sockets s !! p = Some fd ->
  wp (cancel_ignored p) (fun _ s' => after hs s s' /\ tcp_sockets s' = tcp_sockets s
    /\ socket_map s' = socket_map s) never s.
Proof.
  intros Hs Hp. unfold cancel_ignored. wp_step. eapply wp_deref_socket; [done|].
  repeat wp_step. split; [|done]. split_and!; [| |done].
  - apply mem_ok_world; [|done]. intros. apply cancel_private.
  - eapply touched_cancel. apply touched_refl.
Qed.

Lemma wp_remove_socket hs fd easy s :
  mem_ok hs s -> unlocked hs ->
  wp (remove_socket (private (the_world s) fd) fd easy) (fun _ s' => after hs s s') never s.
Proof.
  intros Hs Hu. unfold remove_socket. wp_step. apply wp_assign.
  set (s0 := set_the_world _ s). wp_step.
  assert (wp match private (the_world s) fd with
             | Some p => _ ← read_action p; modify (fun st => set_socket_infos (delete p (socket_infos st)) st)
             | None => skip end
    (fun _ s' => after hs s s') never s0) as Hw.
  { destruct (private (the_world s) fd) as [p|] eqn:Hp.
    - wp_step. apply wp_read_action; [by apply (ok_infos _ _ Hs) in Hp|]. intros _. wp_step.
      split_and!; [|by eapply touched_assign, touched_refl|done].
      destruct Hs. split; cbn; try done.
      + intros fd' q. rewrite assign_private. case_decide; [done|]. intros Hq.
        rewrite lookup_delete_ne; [eauto|]. intros <-. naive_solver.
      + intros fd1 fd2 q. rewrite !assign_private. repeat case_decide; naive_solver.
      + intros q [a Hq]. apply lookup_delete_Some in Hq as [Hne Hq].
        destruct (ok_leak0 q ltac:(by eexists)) as [fd' Hfd']. exists fd'. rewrite assign_private.
        by case_decide; [congruence|].
      + intros q Hq. rewrite lookup_delete_None. split; [right|]; by apply ok_next0.
    - wp_step. split_and!; [|by eapply touched_assign, touched_refl|done]. apply mem_ok_world; [|done].
      intros fd'. rewrite assign_private. by case_decide; [subst|]. }
  clearbody s0. eapply wp_mono; [exact Hw| |done]. intros [] s1 Ha1. wp_step.
  apply (wp_lookup_socket hs); [apply Ha1|done|].
  destruct (map_find fd (socket_map s1)) as [tcp|] eqn:Hfd; [|by wp_step].
  apply (ok_sockets _ _ (proj1 Ha1)) in Hfd.
  eapply wp_mono; [eapply (wp_cancel_ignored hs); [apply Ha1|done]| |done].
  intros _ s2 [H2 _]. by eapply after_trans.
Qed.

Lemma wp_socket_cb hs easy fd what s :
  mem_ok hs s -> unlocked hs ->
  wp (socket_cb easy fd what (private (the_world s) fd)) (fun _ s' => after hs s s') never s.
Proof.
  intros Hs Hu. unfold socket_cb. wp_step.
  enough (wp (if what =? CURL_POLL_REMOVE then remove_socket (private (the_world s) fd) fd easy
     else match private (the_world s) fd with
          | None => add_socket fd easy what
          | Some p => oldAction ← read_action p; set_socket p fd easy what oldAction
          end) (fun _ s' => after hs s s') never s) as Hw
    by (eapply wp_mono; [exact Hw|intros []; intros; by wp_step|done]).
  destruct (what =? CURL_POLL_REMOVE); [by apply wp_remove_socket|].
  destruct (private (the_world s) fd) as [p|] eqn:Hp; [|by apply wp_add_socket].
  assert (is_Some (socket_infos s !! p)) by (by eapply ok_infos).
  wp_step. apply wp_read_action; [done|]. intros a. by apply wp_set_socket.
Qed.

(** A new socket object. *)
Lemma mem_ok_alloc hs s fd :
  mem_ok hs s -> mem_ok hs (set_tcp_sockets (<[next_ptr s := fd]> (tcp_sockets s)) (set_next_ptr (S (next_ptr s)) s)).
Proof.
  intros []. split; cbn; try done.
  - intros fd' p Hp. apply ok_sockets0 in Hp. rewrite lookup_insert_ne; [done|]. intros <-.
    destruct (ok_next0 (next_ptr s) ltac:(lia)). congruence.
  - intros p Hp. rewrite lookup_insert_ne by lia. apply ok_next0. lia.
Qed.

Lemma wp_open_socket hs purpose family s :
  mem_ok hs s -> unlocked hs ->
  wp (open_socket purpose family) (fun _ s' => after hs s s') never s.
Proof.
  intros Hs [Hu _]. unfold open_socket. destruct purpose; [|by wp_step].
  unfold alloc. repeat wp_step.
  assert (Hopen : wp (w ← reads the_world;
      _ ← modify (set_the_world (tcp_open family w).2);
      match (tcp_open family w).1 with
      | None => mret CURL_SOCKET_BAD
      | Some sockfd =>
          _ ← modify (fun st => set_tcp_sockets (<[next_ptr s := Some sockfd]> (tcp_sockets st)) st);
          _ ← locked MapMutex
                (modify (fun st => set_socket_map (map_emplace sockfd (next_ptr s) (socket_map st)) st));
          mret sockfd
      end) (fun _ s' => after hs s s') never
    (set_tcp_sockets (<[next_ptr s := None]> (tcp_sockets s)) (set_next_ptr (S (next_ptr s)) s))).
  { repeat wp_step. cbn. destruct (tcp_open family (the_world s)).1 as [fd|] eqn:Hfd.
    - repeat wp_step. apply wp_locked; [apply bool_decide_eq_true; cbn; by rewrite (ok_held _ _ Hs)|].
      repeat wp_step. split_and!; [|by eapply touched_open, touched_refl|done].
      apply (mem_ok_alloc hs s (Some fd)) in Hs as Hs'. destruct Hs'. split; cbn in *; try done.
      + by apply map_emplace_wf.
      + intros fd' p Hp. rewrite map_find_spec in Hp by by apply map_emplace_wf.
        rewrite map_emplace_spec in Hp by done. rewrite insert_insert_eq.
        case_match; [apply ok_sockets0; by rewrite map_find_spec|].
        apply lookup_insert_Some in Hp as [[<- <-]|[Hne Hp]]; [by rewrite lookup_insert_eq|].
        apply ok_sockets0. by rewrite map_find_spec.
      + intros fd' p. rewrite open_private. eauto.
      + intros fd1 fd2 p. rewrite !open_private. eauto.
      + intros p Hp. destruct (ok_leak0 _ Hp) as [fd' ?]. exists fd'. by rewrite open_private.
      + intros p Hp. rewrite insert_insert_eq. by apply ok_next0.
    - wp_step. split_and!; [|by eapply touched_open, touched_refl|done].
      apply mem_ok_world; [intros; apply open_private|]. by apply mem_ok_alloc. }
  destruct family; [exact Hopen..|]. wp_step. split_and!; [exact (mem_ok_alloc hs s None Hs)|exact (touched_refl (the_world s))|done].
Qed.

Lemma wp_close_socket hs fd s :
  mem_ok hs s -> unlocked hs -> wp (close_socket fd) (fun _ s' => after hs s s') never s.
Proof.
  intros Hs [Hu _]. unfold close_socket. wp_step.
  apply wp_locked; [apply bool_decide_eq_true; cbn; by rewrite (ok_held _ _ Hs)|]. repeat wp_step. cbn.
  assert (Hs1 : mem_ok (MapMutex :: hs) (set_held (MapMutex :: held s) s)).
  { rewrite (ok_held _ _ Hs). by eapply mem_ok_held. }
  destruct (map_find fd (socket_map s)) as [p|] eqn:Hfd.
  - apply (ok_sockets _ _ Hs) in Hfd as Hp. wp_step.
    eapply wp_mono; [eapply (wp_cancel_ignored (MapMutex :: hs)); [done|exact Hp]| |done].
    intros [] s1 ((Hs2 & Ht & Hpost) & Htcp & Hmap). repeat wp_step.
    split_and!; [|exact Ht|exact Hpost].
    eapply mem_ok_held with (hs' := hs) in Hs2. rewrite (ok_held _ _ Hs).
    destruct Hs2. split; cbn in *; rewrite ?Hmap in *; rewrite ?Htcp in *; try done.
    + by apply map_erase_wf.
    + intros fd' q Hq. rewrite map_find_spec in Hq by by apply map_erase_wf.
      rewrite map_erase_spec in Hq by done. apply lookup_delete_Some in Hq as [Hne Hq].
      rewrite <- map_find_spec in Hq by done. apply ok_sockets0 in Hq. rewrite lookup_delete_ne; [done|].
      intros <-. congruence.
    + intros q Hq. destruct (ok_next0 q Hq). split; [done|]. by rewrite lookup_delete_None; right.
  - repeat wp_step. cbn. by destruct s.
Qed.

Lemma wp_multi_timer_cb hs timeout_ms s :
  mem_ok hs s -> unlocked hs -> wp (multi_timer_cb timeout_ms) (fun _ s' => after hs s s') never s.
Proof.
  intros Hs [_ Hu]. unfold multi_timer_cb. wp_step.
  apply wp_locked; [apply bool_decide_eq_true; cbn; by rewrite (ok_held _ _ Hs)|]. repeat wp_step.
  assert (Hsh : is_shared s = true) by by eapply ok_shared.
  assert (Hfin : forall t l, posted_of l = [] ->
    after hs s (set_held (held s) (set_cm_pending (cm_pending s ++ l) (set_timer t (set_held (TimerMutex :: held s) s))))).
  { intros t l Hl. split_and!; [destruct Hs; by split|exact (touched_refl (the_world s))|].
    unfold seen, posted, posted_of in *. cbn. by rewrite omap_app, Hl, app_nil_r. }
  unfold shared_from_this, async.
  repeat case_match; repeat wp_step; cbn; rewrite ?Hsh; repeat wp_step; try (by apply Hfin).
  specialize (Hfin None [] eq_refl). by rewrite app_nil_r in Hfin.
Qed.

Lemma wp_dispatch hs c s :
  mem_ok hs s -> unlocked hs -> good_callback (the_world s) c ->
  wp (dispatch c) (fun _ s' => after hs s s') never s.
Proof.
  intros Hs Hu Hc.
  assert (wp match c with
    | CbSocket easy fd what socketp => socket_cb easy fd what socketp
    | CbTimer timeout_ms => multi_timer_cb timeout_ms
    | CbOpenSocket purpose family => open_socket purpose family
    | CbCloseSocket item => close_socket item
    end (fun _ s' => after hs s s') never s) as Hw.
  { destruct c; cbn in Hc; [subst; by apply wp_socket_cb|by apply wp_multi_timer_cb
      |by apply wp_open_socket|by apply wp_close_socket]. }
  unfold wp, dispatch in *. destruct c; by repeat case_match; simplify_eq.
Qed.

(** A call of libcurl: the callbacks it makes keep the memory safe, and the
    result and the world are as libcurl promises. *)
Lemma wp_call {A} hs (f : world -> curl_run world A) (Q : A -> world -> Prop) s :
  mem_ok hs s -> unlocked hs -> obeys Q (private (the_world s)) (f (the_world s)) ->
  wp (call f) (fun a s' => mem_ok hs s' /\ Q a (the_world s') /\ seen s' = seen s) never s.
Proof.
  intros Hs Hu Ho. unfold call. wp_step. wp_step. generalize dependent (f (the_world s)). intros t Ho. revert s Hs Ho.
  induction t as [a w|w c k IH]; intros s Hs Ho; cbn [run]; cbn [obeys] in Ho.
  - repeat wp_step. cbn. destruct Ho. split_and!; [by apply mem_ok_world|done|done].
  - destruct Ho as (Hp & Hg & Hk). repeat wp_step.
    eapply wp_mono; [by eapply (wp_dispatch hs); [apply mem_ok_world| |]| |done].
    intros r s1 (Hs1 & Ht & Hpost). repeat wp_step.
    eapply wp_mono; [eapply IH; [done|]| |done]; [by apply Hk|].
    intros a s2 (? & ? & Hpost2). by rewrite Hpost2, Hpost.
Qed.

(** ** Completions *)

Lemma wp_assertCurlOK code s (Q : unit -> CurlMultiAsio -> Prop) :
  (code = CURLM_OK \/ code = CURLM_BAD_SOCKET -> Q () s) -> wp (lift (assertCurlOK code)) Q program_exits s.
Proof.
  intros HQ. unfold wp, lift, assertCurlOK. destruct code; try (apply HQ; auto); by eexists.
Qed.

Definition done_results (ms : list CURLMsg) : list (Z * CURLcode) :=
  (fun m => (easy_handle m, msg_result m)) <$> filter (fun m => msg_is_DONE m = true) ms.

Lemma completed_cons m ms :
  completed (m :: ms) = if msg_is_DONE m then easy_handle m :: completed ms else completed ms.
Proof. unfold completed. rewrite filter_cons. by destruct (msg_is_DONE m). Qed.

Lemma done_results_cons m ms :
  done_results (m :: ms)
  = if msg_is_DONE m then (easy_handle m, msg_result m) :: done_results ms else done_results ms.
Proof. unfold done_results. rewrite filter_cons. by destruct (msg_is_DONE m). Qed.

Lemma done_results_completed ms : (done_results ms).*1 = completed ms.
Proof. unfold done_results, completed. by rewrite <- list_fmap_compose. Qed.

Lemma done_results_filter h ms :
  h ∉ completed ms -> done_results (filter (fun m => easy_handle m <> h) ms) = done_results ms.
Proof.
  induction ms as [|m ms IH]; intros Hh; [done|]. unfold done_results, completed in *.
  rewrite !filter_cons in *. destruct (decide (msg_is_DONE m = true)) as [Hd|Hd].
  - rewrite fmap_cons in Hh. apply not_elem_of_cons in Hh as [Hne Hh].
    rewrite decide_True by congruence. rewrite filter_cons_True by done.
    rewrite !fmap_cons. by rewrite IH.
  - destruct (decide _); [rewrite filter_cons_False by done|]; by apply IH.
Qed.

(** Under the mutex of the multi handle. *)
Lemma wp_locked_call {A B} (f : world -> curl_run world A) (k : A -> M B) Q (Q' : B -> CurlMultiAsio -> Prop) s :
  mem_ok [] s -> obeys Q (private (the_world s)) (f (the_world s)) ->
  (forall a s', mem_ok [] s' -> Q a (the_world s') -> seen s' = seen s ->
     wp (k a) (fun b s2 => Q' b (set_held [] s2)) program_exits (set_held [MultiMutex] s')) ->
  wp (locked MultiMutex (a ← call f; k a)) Q' program_exits s.
Proof.
  intros Hs Ho Hk. apply wp_locked; [done|]. rewrite (ok_held _ _ Hs). wp_step.
  eapply wp_mono; [eapply (wp_call [MultiMutex]); [by eapply mem_ok_held| |exact Ho]| |done].
  { split; intros [=]%list_elem_of_singleton. }
  intros a s' (Hs' & HQ & Hpost).
  specialize (Hk a (set_held [] s')). cbn in Hk.
  replace (set_held [MultiMutex] (set_held [] s')) with s' in Hk
    by (pose proof (ok_held _ _ Hs'); destruct s'; cbn in *; by subst).
  eapply wp_mono; [apply Hk; [by eapply mem_ok_held|done|done]|done|done].
Qed.

Lemma wp_addRequest h s :
  mem_ok [] s -> world_ok (the_world s) -> h ∉ transfers (the_world s) ->
  wp (addRequest h)
    (fun _ s' => mem_ok [] s' /\ world_ok (the_world s') /\ seen s' = seen s
       /\ transfers (the_world s') ≡ₚ h :: transfers (the_world s)
       /\ messages (the_world s') = messages (the_world s)) program_exits s.
Proof.
  intros Hs Hw Hh. unfold addRequest. eapply wp_locked_call; [done|by apply add_law|].
  intros rc s' Hs' [Hne HQ] Hpost. apply wp_assertCurlOK. intros [Hrc|Hrc]; subst rc; [|done].
  destruct (HQ eq_refl) as [Ht Hm]. cbn.
  assert (set_held [] (set_held [MultiMutex] s') = s') as ->
    by (pose proof (ok_held _ _ Hs'); destruct s'; cbn in *; by subst).
  split_and!; [done| |done..]. destruct Hw as (H1 & H2 & H3). unfold world_ok. rewrite Ht, Hm.
  split_and!; [by apply NoDup_cons|done|]. intros x Hx. rewrite Ht. right. by apply H3.
Qed.

Lemma world_ok_info_read w m ms :
  messages w = m :: ms -> world_ok w ->
  NoDup (completed ms) /\ (msg_is_DONE m = true -> (easy_handle m ∉ completed ms) /\ (easy_handle m ∈ transfers w))
  /\ forall h, h ∈ completed ms -> h ∈ transfers w.
Proof.
  intros Hm (H1 & H2 & H3). rewrite Hm in H2, H3. unfold completed in *.
  destruct (decide (msg_is_DONE m = true)) as [Hd|Hd].
  - rewrite filter_cons_True, fmap_cons in H2, H3 by done. apply NoDup_cons in H2 as [? ?].
    split_and!; [done| |intros; apply H3; by right]. intros _. split; [done|]. apply H3. left.
  - rewrite filter_cons_False in H2, H3 by done. split_and!; done.
Qed.


Lemma posted_async_done s easy result :
  posted (set_cm_pending (cm_pending s ++ [CmDone easy result]) s) = posted s ++ [(easy, result)].
Proof. unfold posted, posted_of. cbn. by rewrite omap_app. Qed.

(** No message is left. *)
Lemma wp_messages_end s w' :
  mem_ok [] (set_the_world w' s) -> world_ok (the_world s) ->
  messages w' = [] -> transfers w' = transfers (the_world s) ->
  wp skip (fun _ s' => mem_ok [] s' /\ world_ok (the_world s') /\ messages (the_world s') = []
       /\ seen s' = (requests_left s, posted s ++ done_results [])
       /\ completed [] ++ transfers (the_world s') ≡ₚ transfers (the_world s)) program_exits (set_the_world w' s).
Proof.
  intros Hs (H1 & H2 & H3) Hm Ht. wp_step. unfold world_ok, done_results. cbn. rewrite Hm, Ht, app_nil_r.
  split_and!; [done..| | |done|done|done]; [apply NoDup_nil_2|]. intros h Hh. by apply not_elem_of_nil in Hh.
Qed.

(** The loop posts every completion once, in the order of the messages, and
    takes the transfer out of the multi handle. *)
Lemma wp_messages_loop fuel s :
  mem_ok [] s -> world_ok (the_world s) -> (length (messages (the_world s)) <= fuel)%nat ->
  wp (messages_loop fuel)
    (fun _ s' => mem_ok [] s' /\ world_ok (the_world s') /\ messages (the_world s') = []
       /\ seen s' = (requests_left s, posted s ++ done_results (messages (the_world s)))
       /\ completed (messages (the_world s)) ++ transfers (the_world s') ≡ₚ transfers (the_world s)) program_exits s.
Proof.
  revert s. induction fuel as [|fuel IH]; intros s Hs Hw Hf; cbn [messages_loop];
    (wp_step; apply wp_locked; [done|]; repeat wp_step;
     pose proof (info_read_law (the_world s)) as (Hi & Ht & Hp);
     assert (Hs1 : mem_ok [] (set_the_world (curl_multi_info_read (the_world s)).2 s))
       by (by apply mem_ok_world);
     change (set_held (held s) ?x) with (set_the_world (curl_multi_info_read (the_world s)).2 s);
     change (the_world (set_held _ s)) with (the_world s)).
  - destruct (messages (the_world s)) as [|m ms]; [|cbn in Hf; lia]. destruct Hi as [-> Hm1].
    by apply wp_messages_end.
  - destruct (messages (the_world s)) as [|m ms] eqn:Hm; destruct Hi as [-> Hm1];
      [by apply wp_messages_end|].
    destruct (world_ok_info_read _ _ _ Hm Hw) as (Hnd & Hd & Hsub).
    set (s1 := set_the_world _ s) in *. wp_step.
    destruct (msg_is_DONE m) eqn:Em.
    + destruct (Hd eq_refl) as [Hd1 Hd2]. wp_step. eapply wp_locked_call; [done|apply remove_law|].
      * cbn. rewrite Ht. apply Hw.
      * cbn. by rewrite Ht.
      * intros rc s' Hs' [Hne HQ] Hseen. apply wp_assertCurlOK. intros [Hrc|Hrc]; subst rc; [|done].
        destruct (HQ eq_refl) as [Ht' Hm']. cbn in Ht', Hm'. rewrite Hm1, Ht in *.
        change (set_held [] (set_held [MultiMutex] s')) with (set_held [] s').
        assert (set_held [] s' = s') as ->
          by (pose proof (ok_held _ _ Hs'); destruct s'; cbn in *; by subst).
        wp_step. eapply wp_shared; [done|]. unfold async. wp_step.
        eapply wp_mono; [apply IH|..]; cbn [the_world set_cm_pending].
        -- by apply mem_ok_async.
        -- assert (NoDup (easy_handle m :: transfers (the_world s'))) as Hnd'
             by (rewrite Ht'; apply Hw). apply NoDup_cons in Hnd' as [Hn1 Hn2].
           unfold world_ok. rewrite Hm', <- !done_results_completed, !done_results_filter by done.
           rewrite !done_results_completed. split_and!; [done..|]. intros h Hh.
           pose proof (Hsub h Hh) as Hin. rewrite <- Ht' in Hin. apply elem_of_cons in Hin as [->|?]; done.
        -- rewrite Hm'. etrans; [apply length_filter|]. cbn in Hf. lia.
        -- intros [] s2 (Hs2 & Hw2 & Hm2 & Hseen2 & Ht2).
           rewrite Hm' in Hseen2, Ht2. rewrite done_results_filter in Hseen2 by done.
           rewrite <- done_results_completed, done_results_filter, done_results_completed in Ht2 by done.
           split_and!; [done..| |].
           ++ rewrite Hseen2, posted_async_done. injection Hseen as Hl Hpost. rewrite done_results_cons, Em.
              cbn [requests_left set_cm_pending]. rewrite Hl, Hpost. by rewrite <- (assoc_L (++)).
           ++ rewrite completed_cons, Em, <- Ht'. cbn. by apply Permutation_skip.
        -- done.
    + wp_step. eapply wp_mono; [apply IH|..].
      * done.
      * unfold world_ok. cbn. rewrite Hm1, Ht. by split_and!; [apply Hw|..].
      * cbn in Hf |- *. rewrite Hm1. lia.
      * intros [] s2 (Hs2 & Hw2 & Hm2 & Hseen2 & Ht2). cbn in Hseen2, Ht2. rewrite Hm1 in Hseen2, Ht2.
        split_and!; [done..| |by rewrite completed_cons, Em, <- Ht].
        by rewrite Hseen2, done_results_cons, Em.
      * done.
Qed.

(** ** Handlers *)

(** What a handler leaves: the memory is in order, every message has been read,
    and the completed transfers, and no others, have been posted. *)
Definition settled (s s' : CurlMultiAsio) : Prop :=
  mem_ok [] s' /\ world_ok (the_world s') /\ messages (the_world s') = []
  /\ exists finished, posted s' = posted s ++ finished
       /\ finished.*1 ++ transfers (the_world s') ≡ₚ transfers (the_world s).

Lemma wp_socket_action fd action s :
  mem_ok [] s -> world_ok (the_world s) ->
  wp (socket_action fd action)
    (fun _ s' => mem_ok [] s' /\ world_ok (the_world s') /\ seen s' = seen s
       /\ transfers (the_world s') = transfers (the_world s)) program_exits s.
Proof.
  intros Hs Hw. unfold socket_action. eapply wp_locked_call; [done|by apply action_law|].
  intros [rc n] s' Hs' [Hw' Ht] Hseen. wp_step. apply wp_assertCurlOK. intros _. wp_step.
  change (set_held [] (set_held [MultiMutex] s')) with (set_held [] s').
  assert (set_held [] s' = s') as -> by (pose proof (ok_held _ _ Hs'); destruct s'; cbn in *; by subst).
  done.
Qed.

Lemma wp_check_multi_info n s :
  mem_ok [] s -> world_ok (the_world s) ->
  wp (check_multi_info n)
    (fun _ s' => mem_ok [] s' /\ world_ok (the_world s') /\ messages (the_world s') = []
       /\ seen s' = (n, posted s ++ done_results (messages (the_world s)))
       /\ completed (messages (the_world s)) ++ transfers (the_world s') ≡ₚ transfers (the_world s))
    program_exits s.
Proof.
  intros Hs Hw. unfold check_multi_info. repeat wp_step.
  eapply wp_mono; [apply wp_messages_loop; [destruct Hs; by split|done|done]|done|done].
Qed.

(** The two calls every handler makes. *)
Lemma wp_action_and_check fd action s :
  mem_ok [] s -> world_ok (the_world s) ->
  wp (socket_action fd action)
    (fun n s1 => wp (check_multi_info n) (fun _ s2 => settled s s2 /\ requests_left s2 = n) program_exits s1)
    program_exits s.
Proof.
  intros Hs Hw. eapply wp_mono; [by apply wp_socket_action| |done].
  intros n s1 (Hs1 & Hw1 & Hseen & Ht). eapply wp_mono; [by apply wp_check_multi_info| |done].
  intros [] s2 (Hs2 & Hw2 & Hm2 & Hseen2 & Ht2). injection Hseen2 as Hl Hpost. injection Hseen as _ Hpost1.
  split; [|done]. split_and!; [done..|]. rewrite Hpost, Hpost1. eexists. split; [done|].
  by rewrite done_results_completed, Ht2, Ht.
Qed.

Lemma settled_timer s s' t : settled s s' -> settled s (set_timer t s').
Proof. intros ([] & H2). split; [by split|exact H2]. Qed.

Lemma wp_timer_cb error s :
  mem_ok [] s -> world_ok (the_world s) ->
  wp (timer_cb error) (fun _ s' => if error then s' = s else settled s s') program_exits s.
Proof.
  intros Hs Hw. destruct error; [done|]. unfold timer_cb. wp_step.
  eapply wp_mono; [by apply wp_action_and_check| |done]. intros n s1 Hc.
  eapply wp_mono; [exact Hc|by intros ?? []|done].
Qed.

Lemma wp_event_cb fd action error p s :
  mem_ok [] s -> world_ok (the_world s) ->
  wp (event_cb fd action error p) (fun _ s' => settled s s') program_exits s.
Proof.
  intros Hs Hw. unfold event_cb. wp_step.
  eapply wp_mono; [by apply wp_action_and_check| |done]. intros n s1 Hc. wp_step.
  eapply wp_mono; [exact Hc| |done]. intros [] s2 [Hset _].
  destruct (n <=? 0); [|by wp_step]. apply wp_locked.
  - rewrite (ok_held _ _ (proj1 Hset)). by apply bool_decide_eq_true, not_elem_of_nil.
  - wp_step. apply (settled_timer _ _ None) in Hset. cbn.
    change (set_held (held s2) _) with (set_timer None s2) in *. exact Hset.
Qed.

Lemma wp_run_handler h error s :
  mem_ok [] s -> world_ok (the_world s) ->
  wp (run_handler h error) (fun _ s' => s' = s \/ settled s s') program_exits s.
Proof.
  intros Hs Hw. destruct h; cbn [run_handler].
  - eapply wp_mono; [by apply wp_timer_cb|destruct error; auto|done].
  - eapply wp_mono; [by apply wp_timer_cb|auto|done].
  - eapply wp_mono; [by apply wp_event_cb|auto|done].
  - wp_step. by left.
Qed.

(** ** Runs *)

(** What can happen to the object while its owner lives: a fresh handle is
    added, or the io service runs one of the pending handlers. *)
Inductive action : Type := Add (h : Z) | Handle (i : nat) (error : bool).
Definition fresh (h : Z) (s : CurlMultiAsio) : Prop :=
  (h ∉ transfers (the_world s)) /\ (h ∉ (posted s).*1).
Definition enabled (a : action) (s : CurlMultiAsio) : Prop :=
  match a with Add h => fresh h s | Handle i _ => is_Some (cm_pending s !! i) end.
Definition execute (a : action) : M unit :=
  match a with
  | Add h => addRequest h
  | Handle i error =>
      l ← reads cm_pending;
      match l !! i with
      | None => lift (Undef "no such handler")
      | Some h => _ ← modify (set_cm_pending (delete i l)); run_handler h error
      end
  end.

#[export] Instance enabled_dec a s : Decision (enabled a s).
Proof. destruct a; apply _. Defined.
(** Running a script of actions. *)
Fixpoint play (l : list action) (s : CurlMultiAsio) : option CurlMultiAsio :=
  match l with
  | [] => Some s
  | a :: l =>
      if decide (enabled a s) then
        match execute a s with (Ok _, s') => play l s' | _ => None end
      else None
  end.

Inductive reachable : CurlMultiAsio -> Prop :=
| reachable_new w s :
    transfers w = [] -> messages w = [] -> (forall fd, private w fd = None) ->
    new_CurlMultiAsio (Some w) = Ok s -> reachable s
| reachable_step a s s' : reachable s -> enabled a s -> execute a s = (Ok (), s') -> reachable s'.

Definition driver_ok (s : CurlMultiAsio) : Prop :=
  mem_ok [] s /\ world_ok (the_world s) /\ messages (the_world s) = []
  /\ NoDup ((posted s).*1 ++ transfers (the_world s)).

Lemma mem_ok_new w :
  (forall fd, private w fd = None) -> mem_ok [] (MkCurlMulti 0 None [] ∅ ∅ 0 [] [] true w).
Proof.
  intros Hp. split; cbn; try done; intros; rewrite ?Hp, ?lookup_empty in *; naive_solver.
Qed.

Lemma driver_ok_new w :
  transfers w = [] -> messages w = [] -> (forall fd, private w fd = None) ->
  driver_ok (MkCurlMulti 0 None [] ∅ ∅ 0 [] [] true w).
Proof.
  intros Ht Hm Hp. unfold driver_ok, world_ok. cbn. rewrite Ht, Hm.
  split_and!; try apply NoDup_nil_2; [by apply mem_ok_new|intros ? Hin; by apply not_elem_of_nil in Hin|done].
Qed.

Lemma posted_delete i h l :
  l !! i = Some h -> posted_of l ≡ₚ posted_of [h] ++ posted_of (delete i l).
Proof.
  revert i. induction l as [|h' l IH]; intros i Hi; [done|]. destruct i as [|i]; cbn in Hi.
  - injection Hi as ->. unfold posted_of. rewrite <- omap_app. done.
  - specialize (IH i Hi). unfold posted_of in *. change (delete (S i) (h' :: l)) with (h' :: delete i l).
    change (h' :: l) with ([h'] ++ l). change (h' :: delete i l) with ([h'] ++ delete i l).
    rewrite !omap_app, IH. rewrite !(assoc_L (++)). f_equiv. apply Permutation_app_comm.
Qed.

(** The handles a run knows: [active] and completed ones. *)
Lemma wp_execute a s :
  driver_ok s -> enabled a s ->
  wp (execute a) (fun _ s' => driver_ok s') program_exits s.
Proof.
  intros (Hs & Hw & Hm & Hnd) Ha. destruct a as [h|i error]; cbn [execute enabled] in *.
  - destruct Ha as [Hh1 Hh2]. eapply wp_mono; [by apply wp_addRequest| |done].
    intros _ s' (Hs' & Hw' & Hseen & Ht & Hm'). injection Hseen as _ Hpost.
    split_and!; [done|done|congruence|]. rewrite Hpost, Ht, <- Permutation_middle.
    apply NoDup_cons. split; [|done]. by rewrite elem_of_app; intros [].
  - destruct Ha as [h Hi]. repeat wp_step. rewrite Hi. wp_step. wp_step.
    set (s0 := set_cm_pending (delete i (cm_pending s)) s).
    assert (Hs0 : mem_ok [] s0) by (destruct Hs; by split).
    apply posted_delete in Hi. fold (posted s) in Hi. change (posted_of (delete i (cm_pending s))) with (posted s0) in Hi.
    rewrite Hi, fmap_app, <- (assoc_L (++)) in Hnd. apply NoDup_app in Hnd as (_ & _ & Hnd).
    eapply wp_mono; [by apply wp_run_handler| |done].
    intros _ s' [->|(Hs' & Hw' & Hm' & fin & Hpost & Hf)]; [done|].
    split_and!; [done..|]. rewrite Hpost, fmap_app, <- (assoc_L (++)), Hf. done.
Qed.

Lemma play_reachable l s s' : reachable s -> play l s = Some s' -> reachable s'.
Proof.
  revert s. induction l as [|a l IH]; intros s Hr; cbn [play]; [by intros [= <-]|].
  destruct (decide _); [|done]. destruct (execute a s) as [[[]| |] s1] eqn:E; [|done..].
  apply IH. by eapply reachable_step.
Qed.

Lemma reachable_ok s : reachable s -> driver_ok s.
Proof.
  induction 1 as [w s Ht Hm Hp [= <-]|a s s' _ IH Ha He]; [by apply driver_ok_new|].
  pose proof (wp_execute a s IH Ha) as Hw. unfold wp in Hw. by rewrite He in Hw.
Qed.

(** The contract of TransferEngine.v. *)
#[export] Instance CurlMultiAsio_engine : TransferEngine CurlMultiAsio := {|
  eng_addRequest := addRequest;
  eng_requestsLeft := requests_left;
  eng_step s s' := exists i h error,
    cm_pending s !! i = Some h /\ posted_of [h] = [] /\ execute (Handle i error) s = (Ok (), s');
  eng_deliver e r s s' := exists i,
    cm_pending s !! i = Some (CmDone e r) /\ s' = set_cm_pending (delete i (cm_pending s)) s;
  eng_active s := transfers (the_world s);
  eng_completed := posted;
  eng_ok s := mem_ok [] s /\ world_ok (the_world s);
|}.

#[export] Instance CurlMultiAsio_engine_laws : TransferEngineLaws CurlMultiAsio.
Proof.
  split; cbn [eng_addRequest eng_step eng_deliver eng_active eng_completed eng_ok CurlMultiAsio_engine].
  - intros h s [Hs Hw] Hh. eapply wp_mono; [by apply wp_addRequest| |done].
    intros _ s' (? & ? & Hseen & ? & ?). injection Hseen as _ ?. done.
  - intros s s' [Hs Hw] (i & h & error & Hi & Hh & He). cbn [execute] in He.
    change ((fun l => match l !! i with
      | None => lift (Undef "no such handler")
      | Some h => _ ← modify (set_cm_pending (delete i l)); run_handler h error end) (cm_pending s) s
      = (Ok (), s')) in He. cbv beta in He. rewrite Hi in He.
    set (s0 := set_cm_pending (delete i (cm_pending s)) s) in *.
    change (run_handler h error s0 = (Ok (), s')) in He.
    assert (Hs0 : mem_ok [] s0) by (destruct Hs; by split).
    apply posted_delete in Hi. fold (posted s) in Hi. change (posted_of (delete i (cm_pending s))) with (posted s0) in Hi.
    rewrite Hh in Hi. cbn [app] in Hi.
    pose proof (wp_run_handler h error s0 Hs0 Hw) as Hr. unfold wp in Hr. rewrite He in Hr.
    destruct Hr as [->|(Hs' & Hw' & Hm' & fin & Hpost & Hf)].
    + split; [done|]. exists []. by rewrite app_nil_r, Hi.
    + split; [done|]. exists fin. by rewrite Hpost, Hi.
  - intros h r s s' [Hs Hw] (i & Hi & ->). split; [split; [destruct Hs; by split|done]|]. split; [done|].
    apply posted_delete in Hi. exact Hi.
Qed.

(** ** Properties *)

(** C12: the driver is memory safe and does not deadlock with itself.  Whatever
    libcurl, the network and the users do, no handler and no [addRequest] uses a
    deleted socket or [SocketInfo], deletes one twice, locks a mutex it holds,
    lets an exception pass through libcurl or loops for ever: it returns, or
    the program ends because libcurl reports an error.  The sockets in the map
    are alive, and the [SocketInfo]s alive are exactly those libcurl knows. *)
Theorem multi_never_crashes (a : action) (s : CurlMultiAsio) :
  reachable s -> enabled a s ->
  ((exists s', execute a s = (Ok (), s') /\ reachable s')
   \/ exists status s', execute a s = (Throw (process_exit status), s'))
  /\ (forall fd p, map_find fd (socket_map s) = Some p -> tcp_sockets s !! p = Some (Some fd))
  /\ (forall p, is_Some (socket_infos s !! p) <-> exists fd, private (the_world s) fd = Some p).
Proof.
  intros Hr Ha. pose proof (reachable_ok s Hr) as Hok. split_and!.
  - destruct (wp_outcome _ _ _ _ (wp_execute a s Hok Ha)) as [([] & s' & He & _)|(e & s' & He & st & ->)].
    + left. exists s'. split; [done|]. by eapply reachable_step.
    + right. by exists st, s'.
  - apply Hok.
  - intros p. split; [apply Hok|]. intros [fd Hp]. by eapply ok_infos; [apply Hok|].
Qed.

(** C28: [check_multi_info] posts the call back of every completed transfer, each
    once, with its result and in the order of completion; it takes exactly
    these transfers out of the multi handle, reads all messages and terminates. *)
Theorem check_multi_info_correct (n : Z) (s : CurlMultiAsio) :
  mem_ok [] s -> world_ok (the_world s) ->
  (exists s', check_multi_info n s = (Ok (), s')
     /\ posted s' = posted s ++ done_results (messages (the_world s))
     /\ completed (messages (the_world s)) ++ transfers (the_world s') ≡ₚ transfers (the_world s)
     /\ messages (the_world s') = [] /\ requests_left s' = n)
  \/ exists status s', check_multi_info n s = (Throw (process_exit status), s').
Proof.
  intros Hs Hw.
  destruct (wp_outcome _ _ _ _ (wp_check_multi_info n s Hs Hw)) as
    [([] & s' & He & _ & _ & Hm & Hseen & Ht)|(e & s' & He & st & ->)].
  - left. exists s'. injection Hseen as Hl Hp. done.
  - right. by exists st, s'.
Qed.

(** A socket is not watched any longer after one event.  When libcurl has
    nothing to change (it calls no callback and no transfer completes),
    [event_cb] starts no new wait and leaves the timer as it is; later data on
    the socket are noticed only if some other event happens. *)
Theorem event_not_rearmed (fd action n : Z) (rc : CURLMcode) (error : bool) (p : nat) (s : CurlMultiAsio) (w : world) :
  held s = [] ->
  curl_multi_socket_action fd action (the_world s) = Return (rc, n) w ->
  rc = CURLM_OK \/ rc = CURLM_BAD_SOCKET -> messages w = [] -> 0 < n ->
  exists s', event_cb fd action error p s = (Ok (), s')
    /\ cm_pending s' = cm_pending s /\ timer s' = timer s.
Proof.
  intros Hh Hc Hrc Hm Hn.
  pose proof (info_read_law w) as (Hi & _). rewrite Hm in Hi. destruct Hi as [Hi _].
  enough (wp (event_cb fd action error p) (fun _ s' => cm_pending s' = cm_pending s /\ timer s' = timer s)
    (fun _ _ => False) s) as Hw.
  { apply wp_outcome in Hw as [([] & s' & ? & ?)|(? & ? & _ & [])]. eauto. }
  unfold event_cb, socket_action. wp_step. apply wp_locked; [done|]. unfold call. repeat wp_step.
  cbn [the_world set_held]. rewrite Hc. cbn [run]. repeat wp_step.
  assert (assertCurlOK rc = Ok ()) as -> by (by destruct Hrc as [->| ->]).
  eapply wp_lift_Ok; [done|]. repeat wp_step. unfold check_multi_info. repeat wp_step. cbn. rewrite Hm. cbn.
  repeat wp_step. apply wp_locked; [done|]. repeat wp_step. cbn. rewrite Hi. repeat wp_step.
  replace (n <=? 0) with false by lia. by wp_step.
Qed.

(** A socket that cannot be opened, or whose address family is neither IPv4
    nor IPv6, is never deleted: [open_socket] reports the failure, and the
    object stays allocated without any pointer to it. *)
Theorem failed_open_leaks (family : address_family) (s : CurlMultiAsio) :
  reachable s ->
  (exists n, family = AF_other n) \/ (tcp_open family (the_world s)).1 = None ->
  exists s', open_socket CURLSOCKTYPE_IPCXN family s = (Ok CURL_SOCKET_BAD, s')
    /\ tcp_sockets s !! next_ptr s = None /\ is_Some (tcp_sockets s' !! next_ptr s)
    /\ socket_map s' = socket_map s
    /\ forall fd, map_find fd (socket_map s') <> Some (next_ptr s).
Proof.
  intros Hr Hf. pose proof (reachable_ok s Hr) as [Hs _].
  assert (Hno : tcp_sockets s !! next_ptr s = None) by (by apply (ok_next _ _ Hs)).
  assert (Hmap : forall fd, map_find fd (socket_map s) <> Some (next_ptr s)).
  { intros fd Hfd. apply (ok_sockets _ _ Hs) in Hfd. congruence. }
  enough (exists s', open_socket CURLSOCKTYPE_IPCXN family s = (Ok CURL_SOCKET_BAD, s')
    /\ tcp_sockets s' = <[next_ptr s := None]> (tcp_sockets s) /\ socket_map s' = socket_map s)
    as (s' & He & Ht & Hm).
  { exists s'. rewrite Ht, Hm, lookup_insert_eq. eauto. }
  destruct Hf as [[n ->]|Hf]; [by eexists|].
  unfold open_socket, alloc. destruct family; [| |by eexists];
    unfold reads, modify, mbind, mret, stm_bind, stm_ret; cbn; rewrite Hf; by eexists.
Qed.

(** [requestsLeft] lags behind: a request that has been added is not counted
    before the next event of libcurl. *)
Theorem requestsLeft_lags (h : Z) (s s' : CurlMultiAsio) :
  reachable s -> fresh h s -> addRequest h s = (Ok (), s') ->
  requests_left s' = requests_left s
  /\ length (transfers (the_world s')) = S (length (transfers (the_world s))).
Proof.
  intros Hr [Hh _] He. pose proof (reachable_ok s Hr) as (Hs & Hw & _).
  pose proof (wp_addRequest h s Hs Hw Hh) as Ha. unfold wp in Ha. rewrite He in Ha.
  destruct Ha as (_ & _ & Hseen & Ht & _). injection Hseen as Hl _. split; [done|]. by rewrite Ht.
Qed.
End CurlMultiAsio.

(** ** Witnesses, with the small libcurl of ToyCurl.v *)
Definition toy_start : CurlMultiAsio := MkCurlMulti 0 None [] ∅ ∅ 0 [] [] true toy_initial.
Definition toy_state (l : list action) : CurlMultiAsio := default toy_start (play l toy_start).
Lemma toy_reachable l : reachable (toy_state l).
Proof.
  assert (reachable toy_start) as Hs by (by eapply (reachable_new (CU := ToyCurl) toy_initial)).
  unfold toy_state. destruct (play l toy_start) eqn:E; [|done]. by eapply play_reachable.
Qed.

(** One transfer, from [addRequest] to the delivery of its result. *)
Example toy_transfer :
  cm_pending (toy_state [Add 1]) = [CmPostedTimer]
  /\ cm_pending (toy_state [Add 1; Handle 0 false]) = [CmEvent 7 CURL_POLL_IN 1]
  /\ cm_pending (toy_state [Add 1; Handle 0 false; Handle 0 false]) = [CmDone 1 CURLE_OK]
  /\ cm_pending (toy_state [Add 1; Handle 0 false; Handle 0 false; Handle 0 false]) = [].
Proof. vm_compute. done. Qed.

Lemma multi_never_crashes_witness :
  let s := toy_state [Add 1; Handle 0 false] in
  ((exists s', execute (Handle 0 false) s = (Ok (), s') /\ reachable s')
   \/ exists status s', execute (Handle 0 false) s = (Throw (process_exit status), s'))
  /\ (forall fd p, map_find fd (socket_map s) = Some p -> tcp_sockets s !! p = Some (Some fd))
  /\ (forall p, is_Some (socket_infos s !! p) <-> exists fd, private (the_world s) fd = Some p).
Proof.
  apply (multi_never_crashes (Handle 0 false)); [apply toy_reachable|]. vm_compute. by eexists.
Defined.

Definition toy_two_completed : CurlMultiAsio :=
  MkCurlMulti 0 None [] ∅ ∅ 0 [] [] true
    (MkToy [1; 2; 3] [MkMsg true 3 CURLE_OK; MkMsg false 2 CURLE_OK; MkMsg true 1 CURLE_RECV_ERROR] ∅ 7 [] []).
Lemma check_multi_info_correct_witness :
  let s := toy_two_completed in
  (exists s', check_multi_info 1 s = (Ok (), s')
     /\ posted s' = posted s ++ done_results (messages (the_world s))
     /\ completed (messages (the_world s)) ++ transfers (the_world s') ≡ₚ transfers (the_world s)
     /\ messages (the_world s') = [] /\ requests_left s' = 1)
  \/ exists status s', check_multi_info 1 s = (Throw (process_exit status), s').
Proof.
  apply (check_multi_info_correct 1).
  - by apply mem_ok_new.
  - split; [|split]; [apply (bool_decide_unpack _); by vm_compute..|].
    intros h Hh. change (h ∈ [3; 1]) in Hh. rewrite !elem_of_cons, elem_of_nil in Hh.
    destruct Hh as [->|[->|[]]]; apply (bool_decide_unpack _); by vm_compute.
Defined.

Lemma event_not_rearmed_witness :
  let s := toy_state [Add 1; Handle 0 false; Add 2; Handle 1 false] in
  exists s', event_cb 8 CURL_POLL_IN false 3 s = (Ok (), s')
    /\ cm_pending s' = cm_pending s /\ timer s' = timer s.
Proof.
  eapply (event_not_rearmed 8 CURL_POLL_IN 2 CURLM_OK false 3).
  - vm_compute. reflexivity.
  - vm_compute. reflexivity.
  - by left.
  - vm_compute. reflexivity.
  - lia.
Defined.

Lemma failed_open_leaks_witness :
  let s := toy_state [Add 1; Handle 0 false] in
  exists s', open_socket CURLSOCKTYPE_IPCXN AF_INET6 s = (Ok CURL_SOCKET_BAD, s')
    /\ tcp_sockets s !! next_ptr s = None /\ is_Some (tcp_sockets s' !! next_ptr s)
    /\ socket_map s' = socket_map s
    /\ forall fd, map_find fd (socket_map s') <> Some (next_ptr s).
Proof. apply (failed_open_leaks AF_INET6); [apply toy_reachable|]. right. vm_compute. reflexivity. Defined.

Lemma requestsLeft_lags_witness :
  let s := toy_state [Add 1; Handle 0 false] in
  let s' := (addRequest 2 s).2 in
  requests_left s' = requests_left s
  /\ length (transfers (the_world s')) = S (length (transfers (the_world s))).
Proof.
  apply (requestsLeft_lags 2); [apply toy_reachable| |vm_compute; reflexivity].
  split; apply (bool_decide_unpack _); vm_compute; reflexivity.
Defined.
