(* ===== verification/DriverThreads.v ===== *)
(** * The threads of the libcurl driver

    CurlMultiAsio.v runs whole handlers, with the heaps they work on.  Here the
    handlers of the driver (src/CurlMultiAsio.cpp) and the calls of [addRequest] run
    in parallel, and a step is the lock or unlock of a mutex, one call of libcurl, or
    one use of the timer or of the event loop.  Of the state, only what threads share
    at this grain is kept: the three mutexes, the transfers of libcurl, the timer.

    What libcurl does in a call is chosen by the step: which transfers complete, and
    which callbacks it makes, with any arguments.  A timeout that it asks for is
    numbered; it is no longer wanted when libcurl is called because it, or a later
    one, has passed, or when libcurl asks for another one.  Calls of libcurl succeed:
    otherwise assertCurlOK ends the process (CurlMultiAsio.v).  A handle that
    is added is not under way already.

    [driver_serialised]: libcurl is used by one thread at a time, mutexes are released,
    and there is no deadlock.  DriverTransfers.v follows the transfers, DriverTimers.v
    the timeouts. *)
From S2P Require Import Prelude Curl Pool.

(** ** Programs *)

(** What libcurl wants to know of a socket (CURL_POLL_...). *)
Inductive poll : Type := PollNone | PollIn | PollOut | PollInOut.
(** What it asks for while it is called. *)
Inductive callback : Type :=
| TimerCallback (timeout_ms : Z)
| AddSocket (s : nat) (what : poll) (known : bool)  (* [known]: is [s] in _socket_map? *)
| SetSocket (s : nat) (what : poll) (known : bool)
| RemoveSocket (s : nat)
| OpenSocket
| CloseSocket (s : nat).
(** The transfers that complete, with their results, and the callbacks made. *)
Record answer : Type := MkAnswer { an_done : list (Z * CURLcode); an_callbacks : list callback }.

Inductive driver_mutex : Type := MultiMutex | TimerMutex | MapMutex.
#[export] Instance is_nil_dec {A} (l : list A) : Decision ([] = l).
Proof. destruct l; [by left|by right]. Defined.
#[export] Instance driver_mutex_eq_dec : EqDecision driver_mutex.
Proof. solve_decision. Defined.

(** Why curl_multi_socket_action is called. *)
Inductive action : Type := OnTimeout (n : nat) | OnEvent (s : nat).

Inductive instr : Type :=
| Lock (m : driver_mutex)
| Unlock (m : driver_mutex)
| CurlAdd (e : Z)                  (* curl_multi_add_handle *)
| CurlAction (a : action)          (* curl_multi_socket_action *)
| CurlInfoRead                     (* curl_multi_info_read *)
| CurlRemove (e : Z)               (* curl_multi_remove_handle *)
| CurlAssign (s : nat)             (* curl_multi_assign *)
| OnTimer (timeout_ms : Z)         (* libcurl calls multi_timer_cb *)
| CancelTimer (last : bool)        (* _timer.cancel(); [last]: in event_cb *)
| StartTimer (n : nat)             (* _timer.expires_from_now, async_wait *)
| PostTimer (n : nat)              (* _io_service.post, timer_cb *)
| Watch (s : nat)                  (* async_read_some or async_write_some *)
| CancelSocket (s : nat)           (* tcp_socket->cancel() *)
| SetRequestsLeft (n : nat)
| PostDone (e : Z) (r : CURLcode). (* _io_service.post, _request_done_cb *)

(** ** The methods *)
Definition guarded (m : driver_mutex) (body : list instr) : list instr := Lock m :: body ++ [Unlock m].

Definition driver_addRequest (e : Z) : list instr := guarded MultiMutex [CurlAdd e].
Definition driver_multi_timer_cb (n : nat) (timeout_ms : Z) : list instr :=
  guarded TimerMutex
    (CancelTimer false
     :: (if (timeout_ms >? 0)%Z then [StartTimer n] else if (timeout_ms =? 0)%Z then [PostTimer n] else [])).
(** [set_socket]: a socket that is not in [_socket_map] is ignored. *)
Definition driver_set_socket (s : nat) (what : poll) (known : bool) : list instr :=
  guarded MapMutex [] ++ (if known then match what with PollNone => [] | PollIn | PollOut => [Watch s] | PollInOut => [Watch s; Watch s] end else []).
Definition driver_add_socket (s : nat) (what : poll) (known : bool) : list instr :=
  guarded MultiMutex [CurlAssign s] ++ driver_set_socket s what known.
Definition driver_remove_socket (s : nat) : list instr :=
  guarded MultiMutex [CurlAssign s] ++ guarded MapMutex [] ++ [CancelSocket s].
Definition driver_open_socket : list instr := guarded MapMutex [].
Definition driver_close_socket (s : nat) : list instr := guarded MapMutex [CancelSocket s].
Definition called_back (c : callback) : list instr :=
  match c with
  | TimerCallback ms => [OnTimer ms]
  | AddSocket s what known => driver_add_socket s what known
  | SetSocket s what known => driver_set_socket s what known
  | RemoveSocket s => driver_remove_socket s
  | OpenSocket => driver_open_socket
  | CloseSocket s => driver_close_socket s
  end.

(** [check_multi_info], from the head of its loop, and a round of it. *)
Definition check_loop : list instr := [Lock MultiMutex; CurlInfoRead].
Definition check_round (e : Z) (result : CURLcode) : list instr :=
  guarded MultiMutex [CurlRemove e] ++ [PostDone e result] ++ check_loop.
(** [timer_cb] and [event_cb], up to the call of libcurl, and from there. *)
Definition driver_timer_cb (n : nat) : list instr := [Lock MultiMutex; CurlAction (OnTimeout n)].
Definition driver_event_cb (s : nat) : list instr := [Lock MultiMutex; CurlAction (OnEvent s)].
Definition after_action (a : action) (still_running : nat) : list instr :=
  [Unlock MultiMutex; SetRequestsLeft still_running] ++ check_loop
  ++ match a with
     | OnTimeout _ => []
     | OnEvent _ => if (still_running <=? 0)%nat then guarded TimerMutex [CancelTimer true] else []
     end.

(** ** The state *)
Record driver : Type := MkDriver {
  d_multi : option (nat * nat);     (* _multi_mutex: its thread, and how often it is locked *)
  d_timerMutex : option nat;
  d_mapMutex : option nat;
  d_running : list Z;               (* transfers of libcurl *)
  d_done : list (Z * CURLcode);     (* messages of libcurl *)
  d_added : list Z;                 (* by addRequest *)
  d_wanted : option nat;            (* the timeout libcurl wants *)
  d_timeouts : nat;                 (* how many it has asked for *)
  d_wait : option nat;              (* the timeout of the pending wait of _timer *)
  d_ready : list nat;               (* posted calls of timer_cb *)
  d_cancelled : list nat;           (* timeouts that event_cb has cancelled *)
  d_watched : list nat;
  d_requestsLeft : nat;
  d_posted : list (Z * CURLcode);   (* posted calls of _request_done_cb *)
  d_handled : list Z;
  d_threads : list (list instr);
}.
Definition ud_multi x d := MkDriver
  x (d_timerMutex d) (d_mapMutex d) (d_running d) (d_done d) (d_added d) (d_wanted d) (d_timeouts d) (d_wait d)
  (d_ready d) (d_cancelled d) (d_watched d) (d_requestsLeft d) (d_posted d) (d_handled d) (d_threads d).
Definition ud_timerMutex x d := MkDriver
  (d_multi d) x (d_mapMutex d) (d_running d) (d_done d) (d_added d) (d_wanted d) (d_timeouts d) (d_wait d)
  (d_ready d) (d_cancelled d) (d_watched d) (d_requestsLeft d) (d_posted d) (d_handled d) (d_threads d).
Definition ud_mapMutex x d := MkDriver
  (d_multi d) (d_timerMutex d) x (d_running d) (d_done d) (d_added d) (d_wanted d) (d_timeouts d) (d_wait d)
  (d_ready d) (d_cancelled d) (d_watched d) (d_requestsLeft d) (d_posted d) (d_handled d) (d_threads d).
Definition ud_running x d := MkDriver
  (d_multi d) (d_timerMutex d) (d_mapMutex d) x (d_done d) (d_added d) (d_wanted d) (d_timeouts d) (d_wait d)
  (d_ready d) (d_cancelled d) (d_watched d) (d_requestsLeft d) (d_posted d) (d_handled d) (d_threads d).
Definition ud_done x d := MkDriver
  (d_multi d) (d_timerMutex d) (d_mapMutex d) (d_running d) x (d_added d) (d_wanted d) (d_timeouts d) (d_wait d)
  (d_ready d) (d_cancelled d) (d_watched d) (d_requestsLeft d) (d_posted d) (d_handled d) (d_threads d).
Definition ud_added x d := MkDriver
  (d_multi d) (d_timerMutex d) (d_mapMutex d) (d_running d) (d_done d) x (d_wanted d) (d_timeouts d) (d_wait d)
  (d_ready d) (d_cancelled d) (d_watched d) (d_requestsLeft d) (d_posted d) (d_handled d) (d_threads d).
Definition ud_wanted x d := MkDriver
  (d_multi d) (d_timerMutex d) (d_mapMutex d) (d_running d) (d_done d) (d_added d) x (d_timeouts d) (d_wait d)
  (d_ready d) (d_cancelled d) (d_watched d) (d_requestsLeft d) (d_posted d) (d_handled d) (d_threads d).
Definition ud_timeouts x d := MkDriver
  (d_multi d) (d_timerMutex d) (d_mapMutex d) (d_running d) (d_done d) (d_added d) (d_wanted d) x (d_wait d)
  (d_ready d) (d_cancelled d) (d_watched d) (d_requestsLeft d) (d_posted d) (d_handled d) (d_threads d).
Definition ud_wait x d := MkDriver
  (d_multi d) (d_timerMutex d) (d_mapMutex d) (d_running d) (d_done d) (d_added d) (d_wanted d) (d_timeouts d) x
  (d_ready d) (d_cancelled d) (d_watched d) (d_requestsLeft d) (d_posted d) (d_handled d) (d_threads d).
Definition ud_ready x d := MkDriver
  (d_multi d) (d_timerMutex d) (d_mapMutex d) (d_running d) (d_done d) (d_added d) (d_wanted d) (d_timeouts d)
  (d_wait d) x (d_cancelled d) (d_watched d) (d_requestsLeft d) (d_posted d) (d_handled d) (d_threads d).
Definition ud_cancelled x d := MkDriver
  (d_multi d) (d_timerMutex d) (d_mapMutex d) (d_running d) (d_done d) (d_added d) (d_wanted d) (d_timeouts d)
  (d_wait d) (d_ready d) x (d_watched d) (d_requestsLeft d) (d_posted d) (d_handled d) (d_threads d).
Definition ud_watched x d := MkDriver
  (d_multi d) (d_timerMutex d) (d_mapMutex d) (d_running d) (d_done d) (d_added d) (d_wanted d) (d_timeouts d)
  (d_wait d) (d_ready d) (d_cancelled d) x (d_requestsLeft d) (d_posted d) (d_handled d) (d_threads d).
Definition ud_requestsLeft x d := MkDriver
  (d_multi d) (d_timerMutex d) (d_mapMutex d) (d_running d) (d_done d) (d_added d) (d_wanted d) (d_timeouts d)
  (d_wait d) (d_ready d) (d_cancelled d) (d_watched d) x (d_posted d) (d_handled d) (d_threads d).
Definition ud_posted x d := MkDriver
  (d_multi d) (d_timerMutex d) (d_mapMutex d) (d_running d) (d_done d) (d_added d) (d_wanted d) (d_timeouts d)
  (d_wait d) (d_ready d) (d_cancelled d) (d_watched d) (d_requestsLeft d) x (d_handled d) (d_threads d).
Definition ud_handled x d := MkDriver
  (d_multi d) (d_timerMutex d) (d_mapMutex d) (d_running d) (d_done d) (d_added d) (d_wanted d) (d_timeouts d)
  (d_wait d) (d_ready d) (d_cancelled d) (d_watched d) (d_requestsLeft d) (d_posted d) x (d_threads d).
Definition ud_threads x d := MkDriver
  (d_multi d) (d_timerMutex d) (d_mapMutex d) (d_running d) (d_done d) (d_added d) (d_wanted d) (d_timeouts d)
  (d_wait d) (d_ready d) (d_cancelled d) (d_watched d) (d_requestsLeft d) (d_posted d) (d_handled d) x.

Implicit Types (d : driver) (t n s : nat) (e : Z) (r : CURLcode) (th todo k : list instr).

Inductive effect : Type := Blocked | Goes (d : driver) (next : list instr).

(** [_multi_mutex] is recursive, the others are not. *)
Definition lock t (m : driver_mutex) d : effect :=
  match m with
  | MultiMutex =>
      match d_multi d with
      | None => Goes (ud_multi (Some (t, 1)) d) []
      | Some (t', n) => if Nat.eqb t t' then Goes (ud_multi (Some (t, S n)) d) [] else Blocked
      end
  | TimerMutex => match d_timerMutex d with None => Goes (ud_timerMutex (Some t) d) [] | Some _ => Blocked end
  | MapMutex => match d_mapMutex d with None => Goes (ud_mapMutex (Some t) d) [] | Some _ => Blocked end
  end%nat.
Definition unlock (m : driver_mutex) d : driver :=
  match m with
  | MultiMutex => ud_multi (match d_multi d with Some (t, S (S n)) => Some (t, S n) | _ => None end) d
  | TimerMutex => ud_timerMutex None d
  | MapMutex => ud_mapMutex None d
  end.

(** Some of the transfers complete. *)
Fixpoint result_of e (es : list (Z * CURLcode)) : option CURLcode :=
  match es with [] => None | (e', r) :: es => if (e =? e')%Z then Some r else result_of e es end.
Definition complete (es : list (Z * CURLcode)) d : driver :=
  ud_done (d_done d ++ omap (fun e => pair e <$> result_of e es) (d_running d))
    (ud_running (filter (fun e => result_of e es = None) (d_running d)) d).
(** libcurl has been told that timeout [n] has passed. *)
Definition passed n d : driver :=
  match d_wanted d with Some n' => if (n' <=? n)%nat then ud_wanted None d else d | None => d end.

Definition curl_action (a : action) (an : answer) d : effect :=
  let d := complete (an_done an) (match a with OnTimeout n => passed n d | OnEvent _ => d end) in
  Goes d (concat (map called_back (an_callbacks an)) ++ after_action a (length (d_running d))).
Definition curl_info_read d : effect :=
  match d_done d with
  | [] => Goes d [Unlock MultiMutex]
  | (e, r) :: es => Goes (ud_done es d) (Unlock MultiMutex :: check_round e r)
  end.
(** A timeout below 0 asks for no timer. *)
Definition on_timer (timeout_ms : Z) d : effect :=
  let n := S (d_timeouts d) in
  Goes (ud_wanted (if (timeout_ms <? 0)%Z then None else Some n) (ud_timeouts n d)) (driver_multi_timer_cb n timeout_ms).
Definition cancel_timer (last : bool) d : driver :=
  let d' := match d_wait d with Some n => if last then ud_cancelled (d_cancelled d ++ [n]) d else d | None => d end in
  ud_wait None d'.

Definition exec t (an : answer) (i : instr) d : effect :=
  match i with
  | Lock m => lock t m d
  | Unlock m => Goes (unlock m d) []
  | CurlAdd e =>
      Goes (ud_running (d_running d ++ [e]) d) (concat (map called_back (an_callbacks an)))
  | CurlAction a => curl_action a an d
  | CurlInfoRead => curl_info_read d
  | CurlRemove e => Goes d (concat (map called_back (an_callbacks an)))
  | CurlAssign s => Goes d []
  | OnTimer ms => on_timer ms d
  | CancelTimer last => Goes (cancel_timer last d) []
  | StartTimer n => Goes (ud_wait (Some n) d) []
  | PostTimer n => Goes (ud_ready (d_ready d ++ [n]) d) []
  | Watch s => Goes (ud_watched (d_watched d ++ [s]) d) []
  | CancelSocket s => Goes d []
  | SetRequestsLeft n => Goes (ud_requestsLeft n d) []
  | PostDone e r => Goes (ud_posted (d_posted d ++ [(e, r)]) d) []
  end.

(** ** Runs *)
Definition spawn th d : driver := ud_threads (d_threads d ++ [th]) d.
Definition goes_on t th d : driver := ud_threads (<[t := th]> (d_threads d)) d.

Inductive thread_step : driver -> driver -> Prop :=
| step_goes d t i k an d' todo :
    d_threads d !! t = Some (i :: k) -> exec t an i d = Goes d' todo ->
    thread_step d (goes_on t (todo ++ k) d').
(** A socket that is closed or cancelled has its handlers called too, with an error that
    [event_cb] ignores. *)
Inductive driver_step : driver -> driver -> Prop :=
| step_thread d d' : thread_step d d' -> driver_step d d'
| step_add d e :
    e ∉ d_running d -> CurlAdd e ∉ concat (d_threads d) ->
    driver_step d (spawn (driver_addRequest e) (ud_added (d_added d ++ [e]) d))
| step_expire d n : d_wait d = Some n -> driver_step d (spawn (driver_timer_cb n) (ud_wait None d))
| step_ready d ns1 n ns2 :
    d_ready d = ns1 ++ n :: ns2 -> driver_step d (spawn (driver_timer_cb n) (ud_ready (ns1 ++ ns2) d))
| step_event d ss1 s ss2 :
    d_watched d = ss1 ++ s :: ss2 -> driver_step d (spawn (driver_event_cb s) (ud_watched (ss1 ++ ss2) d))
| step_handle d es1 e r es2 :
    d_posted d = es1 ++ (e, r) :: es2 ->
    driver_step d (ud_handled (d_handled d ++ [e]) (ud_posted (es1 ++ es2) d)).

Definition new_driver : driver := MkDriver None None None [] [] [] None 0 None [] [] [] 0 [] [] [].
Inductive driver_runs (d0 : driver) : driver -> Prop :=
| driver_start : driver_runs d0 d0
| driver_next d d' : driver_runs d0 d -> driver_step d d' -> driver_runs d0 d'.

Definition adding (i : instr) : option Z := match i with CurlAdd e => Some e | _ => None end.
(** A scheduler, for concrete runs: a thread executes its next instructions, or a thread starts. *)
Inductive choice : Type := Run (t : nat) (ans : list answer) | Add (e : Z) | Expire | Ready | Event | Handle.
Definition silent : answer := MkAnswer [] [].
Fixpoint run_thread t (ans : list answer) d : option driver :=
  match ans with
  | [] => Some d
  | an :: ans =>
      match d_threads d !! t with
      | Some (i :: k) => match exec t an i d with Goes d' todo => run_thread t ans (goes_on t (todo ++ k) d') | Blocked => None end
      | _ => None
      end
  end.
Definition choose (c : choice) d : option driver :=
  match c with
  | Run t ans => run_thread t ans d
  | Add e =>
      if decide (e ∈ d_running d \/ e ∈ omap adding (concat (d_threads d))) then None
      else Some (spawn (driver_addRequest e) (ud_added (d_added d ++ [e]) d))
  | Expire => match d_wait d with Some n => Some (spawn (driver_timer_cb n) (ud_wait None d)) | None => None end
  | Ready => match d_ready d with n :: ns => Some (spawn (driver_timer_cb n) (ud_ready ns d)) | [] => None end
  | Event => match d_watched d with s :: ss => Some (spawn (driver_event_cb s) (ud_watched ss d)) | [] => None end
  | Handle => match d_posted d with (e, r) :: es => Some (ud_handled (d_handled d ++ [e]) (ud_posted es d)) | [] => None end
  end.
Fixpoint schedule (cs : list choice) d : option driver :=
  match cs with [] => Some d | c :: cs => match choose c d with Some d' => schedule cs d' | None => None end end.
Lemma run_thread_runs d0 t ans d d' : driver_runs d0 d -> run_thread t ans d = Some d' -> driver_runs d0 d'.
Proof.
  revert d. induction ans as [|an ans IH]; intros d Hd; [by intros [= <-]|]. cbn.
  destruct (d_threads d !! t) as [[|i k]|] eqn:Ht; [done| |done]. destruct (exec t an i d) as [|d1 todo] eqn:He; [done|].
  apply IH. eapply driver_next; [exact Hd|]. apply step_thread. by eapply step_goes.
Qed.
Lemma schedule_runs d0 cs d d' : driver_runs d0 d -> schedule cs d = Some d' -> driver_runs d0 d'.
Proof.
  revert d. induction cs as [|c cs IH]; intros d Hd; [by intros [= <-]|]. cbn.
  destruct (choose c d) as [d1|] eqn:Hc; [|done]. apply IH. destruct c as [t ans|e| | | |]; cbn in Hc.
  - by eapply run_thread_runs.
  - destruct (decide _) as [|Hno]; simplify_eq. eapply driver_next; [exact Hd|]. apply step_add.
    + intros ?. apply Hno. by left.
    + intros Hin. apply Hno. right. apply list_elem_of_omap. by exists (CurlAdd e).
  - destruct (d_wait d) as [n|] eqn:Hw; simplify_eq. eapply driver_next; [exact Hd|]. by apply step_expire.
  - destruct (d_ready d) as [|n ns] eqn:Hr; simplify_eq. eapply driver_next; [exact Hd|]. by apply (step_ready d [] n ns).
  - destruct (d_watched d) as [|n ss] eqn:Hr; simplify_eq. eapply driver_next; [exact Hd|]. by apply (step_event d [] n ss).
  - destruct (d_posted d) as [|[e r] es] eqn:Hr; simplify_eq. eapply driver_next; [exact Hd|]. by apply (step_handle d [] e r es).
Qed.

Ltac unfold_driver := cbn [exec] in *; unfold lock, unlock, curl_action, curl_info_read, on_timer, cancel_timer in *.
Lemma driver_exec_threads t an i d d' todo : exec t an i d = Goes d' todo -> d_threads d' = d_threads d.
Proof.
  destruct i; unfold_driver; intros; repeat case_match; simplify_eq; try done; unfold passed; by repeat case_match.
Qed.

(** ** Mutexes *)

(** What a thread has locked. *)
Definition depth d t : nat := match d_multi d with Some (t', n) => if Nat.eqb t t' then n else 0 | None => 0 end%nat.
Definition locks_timer d t : bool := bool_decide (d_timerMutex d = Some t).
Definition locks_map d t : bool := bool_decide (d_mapMutex d = Some t).

(** Does a thread with these locks respect their order, use libcurl and the timer with
    the mutex they need, and release everything?  [_multi_mutex] comes first;
    [CurlAction] and [CurlInfoRead] release it. *)
Fixpoint scan (m : nat) (tm mp : bool) (th : list instr) : bool :=
  match th with
  | [] => Nat.eqb m 0 && negb tm && negb mp
  | i :: k =>
      match i with
      | Lock MultiMutex => negb tm && negb mp && scan (S m) tm mp k
      | Unlock MultiMutex => negb tm && negb mp && match m with S m => scan m tm mp k | O => false end
      | Lock TimerMutex => negb tm && negb mp && scan m true mp k
      | Unlock TimerMutex => tm && scan m false mp k
      | Lock MapMutex => negb tm && negb mp && scan m tm true k
      | Unlock MapMutex => mp && scan m tm false k
      | CurlAdd _ | CurlRemove _ | CurlAssign _ | OnTimer _ => Nat.leb 1 m && negb tm && negb mp && scan m tm mp k
      | CurlAction _ | CurlInfoRead => Nat.eqb m 1 && negb tm && negb mp && scan 0 tm mp k
      | CancelTimer last => (last || Nat.leb 1 m) && tm && scan m tm mp k
      | StartTimer _ | PostTimer _ => Nat.leb 1 m && tm && scan m tm mp k
      | CancelSocket _ => negb tm && scan m tm mp k
      | Watch _ | SetRequestsLeft _ | PostDone _ _ => negb tm && negb mp && scan m tm mp k
      end
  end.

(** Callbacks are called with _multi_mutex, and leave it as it was. *)
Lemma scan_called_back m cs k :
  scan (S m) false false (concat (map called_back cs) ++ k) = scan (S m) false false k.
Proof.
  induction cs as [|c cs IH]; [done|]. cbn [map concat]. rewrite <- (assoc_L (++)).
  destruct c as [ms|s [] []|s [] []|s| |s]; cbn; exact IH.
Qed.
Lemma scan_after_action a n k : scan 1 false false (after_action a n ++ k) = scan 0 false false k.
Proof. unfold after_action, check_loop. destruct a; cbn; [done|]. by destruct (n <=? 0)%nat. Qed.

Lemma same_locks d d' :
  d_multi d' = d_multi d -> d_timerMutex d' = d_timerMutex d -> d_mapMutex d' = d_mapMutex d -> forall t,
  depth d' t = depth d t /\ locks_timer d' t = locks_timer d t /\ locks_map d' t = locks_map d t.
Proof. unfold depth, locks_timer, locks_map. by intros -> -> -> t. Qed.

(** Only [Lock] and [Unlock] change what is locked. *)
Definition is_lock (i : instr) : bool := match i with Lock _ | Unlock _ => true | _ => false end.
Lemma exec_keeps_locks t an i d d' todo :
  is_lock i = false -> exec t an i d = Goes d' todo ->
  d_multi d' = d_multi d /\ d_timerMutex d' = d_timerMutex d /\ d_mapMutex d' = d_mapMutex d.
Proof.
  intros Hi He. destruct i; try done; unfold_driver; repeat case_match; simplify_eq; try done; unfold passed; by repeat case_match.
Qed.
Lemma exec_scan t an i k m tm mp d d' todo :
  is_lock i = false -> exec t an i d = Goes d' todo ->
  scan m tm mp (i :: k) = true -> scan m tm mp (todo ++ k) = true.
Proof.
  intros Hi He Hs. destruct i; try done; cbn in Hs; rewrite ?andb_true_iff, ?negb_true_iff in Hs; destruct_and?; subst.
  all: unfold_driver; try (by simplify_eq).
  - destruct m as [|m]; [done|]. simplify_eq. by rewrite scan_called_back.
  - destruct m as [|[|m]]; [done| |done]. simplify_eq. rewrite <- (assoc_L (++)), scan_called_back. by rewrite scan_after_action.
  - destruct m as [|[|m]]; [done| |done]. by destruct (d_done d) as [|[]]; simplify_eq.
  - destruct m as [|m]; [done|]. simplify_eq. by rewrite scan_called_back.
  - destruct m as [|m]; [done|]. simplify_eq. unfold driver_multi_timer_cb. cbn. by destruct (timeout_ms >? 0)%Z, (timeout_ms =? 0)%Z.
Qed.

(** A step keeps to its locks, and leaves those of other threads alone. *)
Lemma exec_locks t an i k d d' todo :
  scan (depth d t) (locks_timer d t) (locks_map d t) (i :: k) = true -> exec t an i d = Goes d' todo ->
  scan (depth d' t) (locks_timer d' t) (locks_map d' t) (todo ++ k) = true
  /\ (forall u, u <> t -> depth d' u = depth d u /\ locks_timer d' u = locks_timer d u /\ locks_map d' u = locks_map d u).
Proof.
  intros Hs He. destruct (is_lock i) eqn:Hi.
  2: { destruct (exec_keeps_locks _ _ _ _ _ _ Hi He) as (Hm & Ht & Hp).
       split; [|intros u _; by apply same_locks]. destruct (same_locks d d' Hm Ht Hp t) as (-> & -> & ->). by eapply exec_scan. }
  destruct i as [[]|[]| | | | | | | | | | | | |]; try done; cbn [exec] in He; unfold lock, unlock in He; cbn [scan] in Hs;
    rewrite ?andb_true_iff in Hs; destruct_and?.
  all: unfold depth, locks_timer, locks_map in *.
  - destruct (d_multi d) as [[t' n]|] eqn:Hm; [destruct (Nat.eqb_spec t t') as [<-|]|]; simplify_eq; cbn.
    + rewrite Nat.eqb_refl in *. split; [done|]. intros u Hu. by destruct (Nat.eqb_spec u t).
    + rewrite Nat.eqb_refl. split; [done|]. intros u Hu. by destruct (Nat.eqb_spec u t).
  - destruct (d_timerMutex d); simplify_eq. cbn. split; [by rewrite (bool_decide_true (Some t = Some t))|].
    intros u Hu. split_and!; [done| |done]. rewrite !bool_decide_false by congruence. done.
  - destruct (d_mapMutex d); simplify_eq. cbn. split; [by rewrite (bool_decide_true (Some t = Some t))|].
    intros u Hu. split_and!; [done|done|]. rewrite !bool_decide_false by congruence. done.
  - simplify_eq. cbn. destruct (d_multi d) as [[t' n]|] eqn:Hm; [destruct (Nat.eqb_spec t t') as [<-|]|]; [|done..].
    destruct n as [|[|n]]; [done|split; [done|]|split; [by rewrite Nat.eqb_refl|]].
    all: intros u Hu; by destruct (Nat.eqb_spec u t).
  - simplify_eq. cbn. match goal with H : bool_decide _ = true |- _ => apply bool_decide_eq_true in H as -> end.
    split; [done|]. intros u Hu. split_and!; [done| |done]. rewrite !bool_decide_false by congruence. done.
  - simplify_eq. cbn. match goal with H : bool_decide _ = true |- _ => apply bool_decide_eq_true in H as -> end.
    split; [done|]. intros u Hu. split_and!; [done|done|]. rewrite !bool_decide_false by congruence. done.
Qed.
(** A mutex that is locked has been locked by a thread that is there. *)
Definition owners_ok d : Prop :=
  (forall t n, d_multi d = Some (t, n) -> 1 <= n /\ t < length (d_threads d))%nat
  /\ (forall t, d_timerMutex d = Some t -> t < length (d_threads d))%nat
  /\ (forall t, d_mapMutex d = Some t -> t < length (d_threads d))%nat.
Lemma exec_owners t an i d d' todo :
  (t < length (d_threads d))%nat -> owners_ok d -> exec t an i d = Goes d' todo -> owners_ok d'.
Proof.
  intros Ht Ho He. pose proof (driver_exec_threads _ _ _ _ _ _ He) as Hth. unfold owners_ok. rewrite Hth. destruct (is_lock i) eqn:Hi.
  2: { destruct (exec_keeps_locks _ _ _ _ _ _ Hi He) as (-> & -> & ->). exact Ho. }
  destruct Ho as (Hm & Htm & Hmp).
  destruct i as [[]|[]| | | | | | | | | | | | |]; try done; cbn [exec] in He; unfold lock, unlock in He;
    repeat case_match; simplify_eq; cbn; split_and!; intros; simplify_eq; eauto.
  all: try (destruct (Hm _ _ eq_refl)); lia.
Qed.

(** ** All runs *)
Definition mutex_inv d : Prop :=
  (forall t th, d_threads d !! t = Some th -> scan (depth d t) (locks_timer d t) (locks_map d t) th = true) /\ owners_ok d.

Lemma mutex_inv_thread d d' : mutex_inv d -> thread_step d d' -> mutex_inv d'.
Proof.
  intros [Hs Ho] Hstep. destruct Hstep as [d t i k an d' todo Ht He].
  pose proof (driver_exec_threads _ _ _ _ _ _ He) as Hth. pose proof (lookup_lt_Some _ _ _ Ht) as Hlt.
  destruct (exec_locks t an i k d d' todo (Hs _ _ Ht) He) as [Hnew Hoth].
  pose proof (exec_owners _ _ _ _ _ _ Hlt Ho He) as Ho'. split.
  - intros u th. change (d_threads (goes_on t (todo ++ k) d')) with (<[t := todo ++ k]> (d_threads d')). rewrite Hth.
    intros [(<- & <- & _)|[Hu Hlook]]%list_lookup_insert_Some; [exact Hnew|].
    destruct (Hoth u (not_eq_sym Hu)) as (Hd & Hti & Hma). change (scan (depth d' u) (locks_timer d' u) (locks_map d' u) th = true).
    rewrite Hd, Hti, Hma. by apply Hs.
  - unfold owners_ok, goes_on in *. cbn. by rewrite length_insert.
Qed.
Lemma mutex_inv_spawn d d' th :
  mutex_inv d -> scan 0 false false th = true ->
  d_multi d' = d_multi d -> d_timerMutex d' = d_timerMutex d -> d_mapMutex d' = d_mapMutex d -> d_threads d' = d_threads d ->
  mutex_inv (spawn th d').
Proof.
  intros [Hs (Ho1 & Ho2 & Ho3)] Hth Hm Ht Hp Hths. split.
  - intros u th' Hu. cbn in Hu. rewrite Hths in Hu. unfold depth, locks_timer, locks_map. cbn. rewrite Hm, Ht, Hp.
    apply lookup_app_Some in Hu as [Hu|[Hge Hu]]; [by apply Hs|].
    apply list_lookup_singleton_Some in Hu as [Heq <-].
    assert (u = length (d_threads d)) as -> by lia. rewrite !bool_decide_false.
    2-3: intros Heq'; first [apply Ho2 in Heq'|apply Ho3 in Heq']; lia.
    destruct (d_multi d) as [[t' n]|]; [|done]. destruct (Nat.eqb_spec (length (d_threads d)) t') as [<-|]; [|done].
    destruct (Ho1 _ _ eq_refl). lia.
  - unfold owners_ok. cbn. rewrite Hm, Ht, Hp, Hths, length_app. cbn. split_and!; intros.
    + destruct (Ho1 _ _ H). lia. + apply Ho2 in H. lia. + apply Ho3 in H. lia.
Qed.
Lemma mutex_inv_step d d' : mutex_inv d -> driver_step d d' -> mutex_inv d'.
Proof.
  intros HI Hd. destruct Hd as [d d' Hs|d e|d n Hw|d ns1 n ns2 Hr|d ss1 s ss2 Hw|d es1 e r es2 Hp];
    [by eapply mutex_inv_thread|by eapply mutex_inv_spawn..|exact HI].
Qed.
Lemma runs_mutex_inv d : driver_runs new_driver d -> mutex_inv d.
Proof. induction 1 as [|d d' _ IH Hs]; [by repeat split; try apply _|by eapply mutex_inv_step]. Qed.

(** ** No deadlock *)
Lemma driver_exec_blocked t an i d :
  exec t an i d = Blocked ->
  (i = Lock MultiMutex /\ exists t' n, d_multi d = Some (t', n) /\ t' <> t)
  \/ (i = Lock TimerMutex /\ d_timerMutex d <> None) \/ (i = Lock MapMutex /\ d_mapMutex d <> None).
Proof.
  destruct i as [[]|[]| | | | | | | | | | | | |]; unfold_driver; intros; repeat case_match; simplify_eq.
  - left. split; [done|]. eexists _, _. split; [done|]. apply not_eq_sym. by apply Nat.eqb_neq.
  - right. left. by split; [|congruence].
  - right. right. by split; [|congruence].
Qed.
(** What a thread that has locked something does next. *)
Lemma owner_goes d t :
  mutex_inv d -> (locks_timer d t || locks_map d t) = true -> exists d', thread_step d d'.
Proof.
  intros [Hs (_ & Ho2 & Ho3)] Hl.
  assert (t < length (d_threads d))%nat as [th Ht]%lookup_lt_is_Some_2.
  { unfold locks_timer, locks_map in Hl. apply orb_true_iff in Hl as [Hl|Hl]; apply bool_decide_eq_true in Hl; eauto. }
  specialize (Hs _ _ Ht). destruct th as [|i k]; [cbn in Hs; destruct (depth d t), (locks_timer d t), (locks_map d t); done|].
  destruct (exec t (MkAnswer [] []) i d) as [|d' todo] eqn:He; [|eexists; by eapply step_goes].
  exfalso. cbn in Hs. apply driver_exec_blocked in He as [[-> _]|[[-> _]|[-> _]]]; by destruct (locks_timer d t), (locks_map d t).
Qed.
Lemma timer_or_map_goes d : mutex_inv d -> d_timerMutex d <> None \/ d_mapMutex d <> None -> exists d', thread_step d d'.
Proof.
  intros HI [Hl|Hl].
  - destruct (d_timerMutex d) as [t|] eqn:Ht; [|done]. apply (owner_goes d t HI). unfold locks_timer. by rewrite bool_decide_true.
  - destruct (d_mapMutex d) as [t|] eqn:Ht; [|done]. apply (owner_goes d t HI). unfold locks_map.
    rewrite (bool_decide_true (d_mapMutex d = _)) by done. apply orb_true_r.
Qed.
Lemma driver_progress d t i k : mutex_inv d -> d_threads d !! t = Some (i :: k) -> exists d', thread_step d d'.
Proof.
  intros HI Ht. destruct (exec t (MkAnswer [] []) i d) as [|d' todo] eqn:He; [|eexists; by eapply step_goes].
  apply driver_exec_blocked in He as [[-> (t' & n & Hm & Hne)]|[[_ Hl]|[_ Hl]]]; [|by apply timer_or_map_goes; auto..].
  destruct HI as [Hs Ho]. destruct (proj1 Ho _ _ Hm) as [Hn [th Ht']%lookup_lt_is_Some_2].
  pose proof (Hs _ _ Ht') as Hs'. unfold depth in Hs'. rewrite Hm, Nat.eqb_refl in Hs'.
  destruct th as [|j k']; [destruct n; [lia|done]|].
  destruct (exec t' (MkAnswer [] []) j d) as [|d' todo] eqn:He'; [|eexists; by eapply step_goes].
  apply driver_exec_blocked in He' as [[_ (t2 & n2 & Hm2 & Hne2)]|[[_ Hl]|[_ Hl]]]; [congruence|by apply timer_or_map_goes; auto..].
Qed.

Lemma threads_go_on d : mutex_inv d -> ~ Forall (eq []) (d_threads d) -> exists d', thread_step d d'.
Proof.
  intros HI Hn. apply (neg_Forall_Exists_neg (fun th => decide ([] = th))) in Hn.
  apply Exists_exists in Hn as ([|i k] & [t Ht]%list_elem_of_lookup & Hne); [done|]. by eapply driver_progress.
Qed.

(** ** The pool of instructions *)
Definition pool d : list instr := concat (d_threads d).
(** What a step does to the pool, for the bags that are kept of it. *)
Lemma pool_step d d' :
  thread_step d d' ->
  exists t i k an d1 todo rest, d_threads d !! t = Some (i :: k) /\ exec t an i d = Goes d1 todo /\ d' = goes_on t (todo ++ k) d1
    /\ (forall j, j ∈ k -> j ∈ rest) /\ pool d ≡ₚ i :: rest /\ pool d' ≡ₚ todo ++ rest.
Proof.
  intros [d0 t i k an d1 todo Ht He]. destruct (concat_step _ _ _ _ Ht) as (rest & Hrest & Hnew).
  exists t, i, k, an, d1, todo, rest. split_and!; try done.
  - intros j Hj. rewrite <- (app_nil_l rest), <- (Hnew []). apply elem_of_pool. exists t, k. split; [|done].
    cbn. apply list_lookup_insert_eq, (lookup_lt_Some _ _ _ Ht).
  - unfold pool, goes_on. cbn. by rewrite (driver_exec_threads _ _ _ _ _ _ He), Hnew.
Qed.

(** Callbacks and what follows a call of libcurl hold few of the instructions. *)
Lemma omap_callbacks {A} (f : instr -> option A) cs :
  (forall m, f (Lock m) = None) -> (forall m, f (Unlock m) = None) -> (forall s, f (CurlAssign s) = None) ->
  (forall ms, f (OnTimer ms) = None) -> (forall s, f (Watch s) = None) -> (forall s, f (CancelSocket s) = None) ->
  omap f (concat (map called_back cs)) = [].
Proof.
  intros H1 H2 H3 H4 H5 H6. induction cs as [|c cs IH]; [done|]. cbn [map concat]. rewrite omap_app, IH, app_nil_r.
  destruct c as [ms|s [] []|s [] []|s| |s]; cbn; rewrite ?H1, ?H2, ?H3, ?H4, ?H5, ?H6; cbn; rewrite ?H2, ?H5; done.
Qed.

(** ** libcurl is used by one thread at a time *)
Definition uses_libcurl (i : instr) : bool :=
  match i with CurlAdd _ | CurlAction _ | CurlInfoRead | CurlRemove _ | CurlAssign _ | OnTimer _ => true | _ => false end.
Definition uses_timer (i : instr) : bool :=
  match i with CancelTimer _ | StartTimer _ | PostTimer _ => true | _ => false end.
(** C18: The threads of the driver use libcurl one at a time.  A thread that is about to
    call libcurl, or to be called back by it, has [_multi_mutex] (so no other has), and
    neither of the other mutexes; one that is about to use the timer has [_timer_mutex];
    and a thread that has the mutex of the timer or of the sockets locks nothing.  As
    long as some thread has something to do, one of them can go on (there is no
    deadlock), and when all are done every mutex is released. *)
Theorem driver_serialised d :
  driver_runs new_driver d ->
  (forall t i k, d_threads d !! t = Some (i :: k) -> uses_libcurl i = true ->
     exists n, d_multi d = Some (t, S n) /\ locks_timer d t = false /\ locks_map d t = false)
  /\ (forall t i k, d_threads d !! t = Some (i :: k) -> uses_timer i = true -> d_timerMutex d = Some t)
  /\ (forall t m k, d_threads d !! t = Some (Lock m :: k) -> locks_timer d t = false /\ locks_map d t = false)
  /\ (~ Forall (eq []) (d_threads d) -> exists d', thread_step d d')
  /\ (Forall (eq []) (d_threads d) -> d_multi d = None /\ d_timerMutex d = None /\ d_mapMutex d = None).
Proof.
  intros HI%runs_mutex_inv. split_and!.
  - intros t i k Ht Hi. apply (proj1 HI) in Ht. unfold depth in Ht.
    destruct i; try done; cbn [scan] in Ht; rewrite ?andb_true_iff, ?negb_true_iff in Ht; destruct_and?;
      (destruct (d_multi d) as [[t' n]|]; [destruct (Nat.eqb_spec t t') as [<-|]|]; [|done..]);
      destruct n as [|n]; try done; by exists n.
  - intros t i k Ht Hi. apply (proj1 HI) in Ht. unfold locks_timer in Ht.
    destruct i; try done; cbn [scan] in Ht; rewrite ?andb_true_iff in Ht; destruct_and?; by eapply bool_decide_eq_true_1.
  - intros t m k Ht. apply (proj1 HI) in Ht. destruct m; cbn [scan] in Ht; rewrite ?andb_true_iff, ?negb_true_iff in Ht; by destruct_and?.
  - by apply threads_go_on.
  - intros Hdone. rewrite Forall_lookup in Hdone. destruct HI as [Hs (Ho1 & Ho2 & Ho3)].
    assert (forall t, (t < length (d_threads d))%nat -> depth d t = 0%nat /\ locks_timer d t = false /\ locks_map d t = false) as Hfree.
    { intros t [th Ht]%lookup_lt_is_Some_2. pose proof (Hs _ _ Ht) as Hscan. rewrite <- (Hdone _ _ Ht) in Hscan. cbn in Hscan.
      destruct (depth d t), (locks_timer d t), (locks_map d t); done. }
    split_and!.
    + destruct (d_multi d) as [[t n]|] eqn:Hm; [|done]. destruct (Ho1 _ _ eq_refl) as [Hn Ht]. destruct (Hfree _ Ht) as [Hd _].
      unfold depth in Hd. rewrite Hm, Nat.eqb_refl in Hd. lia.
    + destruct (d_timerMutex d) as [t|] eqn:Hm; [|done]. destruct (Hfree _ (Ho2 _ eq_refl)) as (_ & Hd & _).
      unfold locks_timer in Hd. rewrite Hm in Hd. by apply bool_decide_eq_false in Hd.
    + destruct (d_mapMutex d) as [t|] eqn:Hm; [|done]. destruct (Hfree _ (Ho3 _ eq_refl)) as (_ & _ & Hd).
      unfold locks_map in Hd. rewrite Hm in Hd. by apply bool_decide_eq_false in Hd.
Qed.

(** ** Concrete runs *)

Definition driver_after (cs : list choice) : driver := default new_driver (schedule cs new_driver).
Lemma runs_after cs : driver_runs new_driver (driver_after cs).
Proof.
  unfold driver_after. destruct (schedule cs new_driver) as [d|] eqn:Hs; [|constructor]. eapply schedule_runs; [constructor|exact Hs].
Qed.

(** While libcurl is called, the thread that calls it has both mutexes, and can go on. *)
Definition in_timer_cb : list choice :=
  [Add 1; Add 2; Run 1 [silent]; Run 1 [MkAnswer [] [TimerCallback 100]]; Run 1 [silent; silent]]%nat.
Lemma driver_serialised_witness :
  let d := driver_after in_timer_cb in
  d_threads d !! 1%nat = Some [CancelTimer false; StartTimer 1; Unlock TimerMutex; Unlock MultiMutex]
  /\ d_timerMutex d = Some 1%nat /\ d_multi d = Some (1, 1)%nat /\ exists d', thread_step d d'.
Proof.
  cbv zeta. assert (d_threads (driver_after in_timer_cb) !! 1%nat
    = Some [CancelTimer false; StartTimer 1; Unlock TimerMutex; Unlock MultiMutex]) as Ht by (vm_compute; reflexivity).
  pose proof (driver_serialised _ (runs_after in_timer_cb)) as (_ & Htimer & _ & Hgo & _).
  split_and!; [exact Ht|exact (Htimer _ _ _ Ht eq_refl)|vm_compute; reflexivity|apply Hgo].
  intros Hdone. rewrite Forall_lookup in Hdone. discriminate (Hdone _ _ Ht).
Defined.
