(* ===== verification/DriverTransfers.v ===== *)
(** * Transfers of the libcurl driver, with threads

    Runs of the driver of DriverThreads.v: [transfers_handled], every transfer is handled
    once and one that has completed is noticed.  The driver with its threads keeps
    the contract of TransferEngine.v ([driver_engine_laws]), so that what is proved of
    an HTTP connection holds over it too. *)
From S2P Require Import Prelude Curl TransferEngine Pool DriverThreads.

Implicit Types (d : driver) (t n s : nat) (e : Z) (r : CURLcode) (th todo k : list instr).

(** Transfers under way, and those that have completed but are not handled: [P] holds the
    instructions of all threads. *)
Definition in_hand (i : instr) : option (Z * CURLcode) := match i with PostDone e r => Some (e, r) | _ => None end.
Definition noticing (i : instr) : option unit := match i with CurlInfoRead => Some () | _ => None end.
Definition active P d : list Z := omap adding P ++ d_running d.
Definition results P d : list (Z * CURLcode) := d_done d ++ omap in_hand P ++ d_posted d.
#[export] Instance active_proper : Proper ((≡ₚ) ==> eq ==> (≡ₚ)) active.
Proof. intros P P' HP d ? <-. unfold active. by rewrite HP. Qed.
#[export] Instance results_proper : Proper ((≡ₚ) ==> eq ==> (≡ₚ)) results.
Proof. intros P P' HP d ? <-. unfold results. by rewrite HP. Qed.

(** ** Every step *)
Definition finished (es : list (Z * CURLcode)) (l : list Z) : list (Z * CURLcode) :=
  omap (fun e => pair e <$> result_of e es) l.
Lemma finished_bag es l : (finished es l).*1 ++ filter (fun e => result_of e es = None) l ≡ₚ l.
Proof.
  unfold finished. induction l as [|e l IH]; [done|]. rewrite filter_cons. cbn [omap list_omap].
  destruct (result_of e es) as [r|] eqn:Hr; cbn.
  - by rewrite decide_False, IH.
  - by rewrite decide_True, <- Permutation_middle, IH.
Qed.
Lemma in_hand_after_action a n : omap in_hand (after_action a n) = [].
Proof. unfold after_action, check_loop. destruct a; cbn; [done|]. by destruct (n <=? 0)%nat. Qed.
Lemma adding_after_action a n : omap adding (after_action a n) = [].
Proof. unfold after_action, check_loop. destruct a; cbn; [done|]. by destruct (n <=? 0)%nat. Qed.

(** What a step does to the transfers: some may complete. *)
Record moves P d P' d' : Prop := {
  mv_added : d_added d' = d_added d;
  mv_handled : d_handled d' = d_handled d;
  mv_results : exists fin, results P' d' ≡ₚ results P d ++ fin /\ fin.*1 ++ active P' d' ≡ₚ active P d;
  mv_noticed : (d_done d <> [] -> omap noticing P <> []) -> d_done d' <> [] -> omap noticing P' <> [];
}.
Lemma moves_nothing P d P' d' :
  d_added d' = d_added d -> d_handled d' = d_handled d -> d_running d' = d_running d -> d_done d' = d_done d ->
  d_posted d' = d_posted d -> omap adding P' = omap adding P -> omap in_hand P' = omap in_hand P ->
  omap noticing P' = omap noticing P -> moves P d P' d'.
Proof.
  intros Ha Hh Hr Hd Hp H1 H2 H3. split; [done|done| |by rewrite Hd, H3]. exists [].
  unfold results, active. by rewrite Hr, Hd, Hp, H1, H2, app_nil_r.
Qed.
Lemma exec_moves t an i rest d d' todo : exec t an i d = Goes d' todo -> moves (i :: rest) d (todo ++ rest) d'.
Proof.
  intros He. destruct i; cbn [exec] in He;
    try (simplify_eq; apply moves_nothing; by rewrite ?omap_app, ?omap_callbacks).
  - unfold lock in He. repeat case_match; simplify_eq; by apply moves_nothing.
  - simplify_eq. unfold unlock. destruct m; by apply moves_nothing.
  - simplify_eq. split; [done..| |by rewrite omap_app, omap_callbacks]. exists []. unfold results, active.
    rewrite !omap_app, !omap_callbacks by done. cbn. split; bags.
  - unfold curl_action in He. set (d1 := match a with OnTimeout n => passed n d | OnEvent _ => d end) in *.
    assert (d_added d1 = d_added d /\ d_handled d1 = d_handled d /\ d_running d1 = d_running d /\ d_done d1 = d_done d
      /\ d_posted d1 = d_posted d) as (Ha & Hh & Hr & Hd & Hp) by (unfold d1, passed; destruct a; [repeat case_match|]; done).
    simplify_eq.
    split; [done|done| |by rewrite !omap_app, omap_callbacks]. exists (finished (an_done an) (d_running d)).
    pose proof (finished_bag (an_done an) (d_running d)) as Hbag. unfold results, active.
    rewrite !omap_app, !omap_callbacks, in_hand_after_action, adding_after_action by done. cbn. rewrite Hr, Hd, Hp.
    fold (finished (an_done an) (d_running d)).
    split; bags.
  - unfold curl_info_read in He. destruct (d_done d) as [|[e r] es] eqn:Hd; simplify_eq.
    + split; [done|done| |by rewrite Hd]. exists []. unfold results, active. by rewrite Hd, app_nil_r.
    + split; [done|done| |done]. exists []. unfold results, active. rewrite Hd. cbn. split; [bags|done].
  - unfold on_timer, driver_multi_timer_cb in He. simplify_eq.
    destruct (timeout_ms >? 0)%Z, (timeout_ms =? 0)%Z; by apply moves_nothing.
  - simplify_eq. unfold cancel_timer. repeat case_match; by apply moves_nothing.
  - simplify_eq. split; [done|done| |done]. exists []. unfold results, active. cbn. split; [bags|done].
Qed.

Lemma moves_perm P d P' d' Q Q' : P ≡ₚ Q -> P' ≡ₚ Q' -> moves Q d Q' d' -> moves P d P' d'.
Proof.
  intros HP HP' [H1 H2 (fin & H3 & H4) H5]. split; [done|done| |].
  - exists fin. by rewrite HP, HP'.
  - intros Hn Hd Hnil. apply H5; [|done|apply Permutation_nil; by rewrite <- HP', Hnil].
    intros Hd' Hnil'. apply Hn; [done|]. apply Permutation_nil. by rewrite HP, Hnil'.
Qed.
Lemma driver_pool_spawn th d d' : d_threads d' = d_threads d -> pool (spawn th d') ≡ₚ th ++ pool d.
Proof. intros Hth. unfold pool, spawn. cbn. by rewrite Hth, concat_spawn. Qed.
(** Handlers that call nobody back. *)
Definition handler_step d d' : Prop := driver_step d d' /\ d_added d' = d_added d /\ d_handled d' = d_handled d.
Lemma handler_moves d d' : handler_step d d' -> moves (pool d) d (pool d') d'.
Proof.
  intros (Hd & Hadd & Hhan). destruct Hd as [d d' Hs|d e He Hc|d n Hw|d ns1 n ns2 Hr|d ss1 s ss2 Hw|d es1 e r es2 Hp].
  - destruct (pool_step _ _ Hs) as (t & i & k & an & d1 & todo & rest & _ & He & -> & _ & Hpool & Hpool').
    apply (moves_perm _ _ _ _ _ _ Hpool Hpool'). destruct (exec_moves _ _ _ rest _ _ _ He) as [H1 H2 H3 H4]. by split.
  - cbn in Hadd. apply (f_equal length) in Hadd. rewrite length_app in Hadd. cbn in Hadd. lia.
  - apply (moves_perm _ _ _ _ (pool d) (driver_timer_cb n ++ pool d)); [done|by apply driver_pool_spawn|by apply moves_nothing].
  - apply (moves_perm _ _ _ _ (pool d) (driver_timer_cb n ++ pool d)); [done|by apply driver_pool_spawn|by apply moves_nothing].
  - apply (moves_perm _ _ _ _ (pool d) (driver_event_cb s ++ pool d)); [done|by apply driver_pool_spawn|by apply moves_nothing].
  - cbn in Hhan. apply (f_equal length) in Hhan. rewrite length_app in Hhan. cbn in Hhan. lia.
Qed.
Lemma delivered es1 e r es2 d :
  d_posted d = es1 ++ (e, r) :: es2 -> results (pool d) d ≡ₚ (e, r) :: results (pool d) (ud_posted (es1 ++ es2) d).
Proof. intros Hp. unfold results. cbn. rewrite Hp. bags. Qed.

(** ** All runs *)
Record transfers_ok d : Prop := {
  tr_once : NoDup (active (pool d) d);
  tr_places : d_added d ≡ₚ active (pool d) d ++ (results (pool d) d).*1 ++ d_handled d;
  tr_noticed : d_done d <> [] -> omap noticing (pool d) <> [];
}.
Lemma not_active d e : e ∉ active (pool d) d <-> (e ∉ d_running d) /\ CurlAdd e ∉ pool d.
Proof.
  unfold active. rewrite not_elem_of_app. split; intros [H1 H2]; split; try done; intros Hin; [apply H1|apply H2].
  - apply list_elem_of_omap. by exists (CurlAdd e).
  - apply list_elem_of_omap in Hin as (i & Hi & Hf). destruct i; try done. cbn in Hf. by simplify_eq.
Qed.
Lemma transfers_step d d' : transfers_ok d -> driver_step d d' -> transfers_ok d'.
Proof.
  intros [Ho Hp Hn] Hd.
  assert (handler_step d d' -> transfers_ok d') as Hhandler.
  { intros [H1 H2 (fin & Hres & Hact) H3]%handler_moves. split; [| |by apply H3].
    - rewrite <- Hact in Ho. by apply NoDup_app in Ho as (_ & _ & ?).
    - assert ((results (pool d') d').*1 ≡ₚ (results (pool d) d).*1 ++ fin.*1) as Hres1 by (rewrite Hres; by rewrite fmap_app).
      rewrite H1, H2. clear - Hp Hact Hres1. bags. }
  destruct Hd as [d d' Hs|d e He Hc|d n Hw|d ns1 n ns2 Hr|d ss1 s ss2 Hw|d es1 e r es2 Hpo].
  - apply Hhandler. split; [by apply step_thread|]. destruct (pool_step _ _ Hs) as (t & i & k & an & d1 & todo & rest & _ & He & -> & _).
    by destruct (exec_moves _ _ _ rest _ _ _ He).
  - pose proof (driver_pool_spawn (driver_addRequest e) d (ud_added (d_added d ++ [e]) d) eq_refl) as Hpool.
    split.
    + rewrite Hpool. cbn. constructor; [|exact Ho]. by apply (not_active d).
    + rewrite Hpool. cbn. rewrite Hp. by rewrite <- Permutation_cons_append.
    + intros Hd Hnil. apply (Hn Hd), Permutation_nil. rewrite <- Hnil. by rewrite Hpool.
  - apply Hhandler. split; [by eapply step_expire|done].
  - apply Hhandler. split; [by eapply step_ready|done].
  - apply Hhandler. split; [by eapply step_event|done].
  - split; [exact Ho| |exact Hn]. pose proof (delivered _ _ _ _ _ Hpo) as Hres. revert Hres.
    change (results (pool (ud_handled _ _)) _) with (results (pool d) (ud_posted (es1 ++ es2) d)).
    generalize (results (pool d) (ud_posted (es1 ++ es2) d)). intros l Hres.
    assert ((results (pool d) d).*1 ≡ₚ e :: l.*1) as Hres1 by by rewrite Hres.
    change (d_added d ≡ₚ active (pool d) d ++ l.*1 ++ d_handled d ++ [e]). clear - Hp Hres1. bags.
Qed.
Lemma runs_transfers d : driver_runs new_driver d -> transfers_ok d.
Proof. induction 1 as [|d d' _ IH Hs]; [split; [constructor|done|done]|by eapply transfers_step]. Qed.

(** ** The contract of TransferEngine.v *)
#[export] Instance driver_engine : TransferEngine driver := {|
  eng_addRequest e := modify (fun d => spawn (driver_addRequest e) (ud_added (d_added d ++ [e]) d));
  eng_requestsLeft d := Z.of_nat (d_requestsLeft d);
  eng_step := handler_step;
  eng_deliver e r d d' := exists es1 es2,
    d_posted d = es1 ++ (e, r) :: es2 /\ d' = ud_handled (d_handled d ++ [e]) (ud_posted (es1 ++ es2) d);
  eng_active d := active (pool d) d;
  eng_completed d := results (pool d) d;
  eng_ok := driver_runs new_driver;
|}.
#[export] Instance driver_engine_laws : TransferEngineLaws driver.
Proof.
  split; cbn [eng_addRequest eng_step eng_deliver eng_active eng_completed eng_ok driver_engine].
  - intros e d Hd [Hr Hc]%not_active. unfold wp, modify.
    pose proof (driver_pool_spawn (driver_addRequest e) d (ud_added (d_added d ++ [e]) d) eq_refl) as Hpool. split_and!.
    + eapply driver_next; [exact Hd|by apply step_add].
    + by rewrite Hpool.
    + unfold results, pool, spawn. cbn. by rewrite concat_app, omap_app, app_nil_r.
  - intros d d' Hd Hs. split; [eapply driver_next; [exact Hd|apply Hs]|]. apply handler_moves in Hs as [_ _ Hm _]. exact Hm.
  - intros e r d d' Hd (es1 & es2 & Hp & ->). split; [eapply driver_next; [exact Hd|by eapply step_handle]|].
    split; [done|]. exact (delivered _ _ _ _ _ Hp).
Qed.

(** C19: Every transfer handed to the driver is in exactly one place at any moment --
    about to be given to libcurl or with it, completed but not handled yet (a message of
    libcurl, in the hands of a thread that is going to report it, or reported to the
    event loop), or handled -- so that none is lost or handled twice, and no transfer is
    under way twice.  A message that waits is noticed: a thread is going to read it, so
    that once all threads are done none is left. *)
Theorem transfers_handled d :
  driver_runs new_driver d ->
  d_added d ≡ₚ active (pool d) d ++ (results (pool d) d).*1 ++ d_handled d
  /\ NoDup (active (pool d) d)
  /\ (d_done d <> [] -> CurlInfoRead ∈ pool d)
  /\ (Forall (eq []) (d_threads d) -> d_added d ≡ₚ d_running d ++ (d_posted d).*1 ++ d_handled d).
Proof.
  intros [Ho Hpl Hno]%runs_transfers. split_and!; [done..| |].
  - intros Hd. specialize (Hno Hd). destruct (omap noticing (pool d)) as [|[] l] eqn:Hl; [done|].
    assert (() ∈ omap noticing (pool d)) as (i & Hi & Hf)%list_elem_of_omap by (rewrite Hl; constructor).
    by destruct i.
  - intros Hdone. unfold active, results, pool in *. rewrite (pool_done _ Hdone) in *. cbn in *.
    destruct (d_done d) as [|e es] eqn:Hd; [exact Hpl|by destruct Hno].
Qed.

(** ** Concrete runs *)

(** A transfer completes: [event_cb] reports it and is going to cancel the timer. *)
Definition one_transfer : list choice :=
  [Add 1; Run 0 (silent :: MkAnswer [] [OpenSocket; AddSocket 5 PollIn true; TimerCallback 100] :: repeat silent 14);
   Event; Run 1 (silent :: MkAnswer [(1%Z, CURLE_OK)] [] :: repeat silent 12)]%nat.
(** Meanwhile another is added, which asks for a timeout. *)
Definition late_request : list choice :=
  one_transfer ++ [Add 2; Run 2 (silent :: MkAnswer [] [TimerCallback 100] :: repeat silent 6); Run 1 [silent]]%nat.
(** The events that follow are handled too. *)
Definition all_handled : list choice :=
  late_request ++ [Run 1 [silent; silent]; Handle]%nat.

(** One transfer is handled, the other still runs. *)
Lemma transfers_handled_witness :
  let d := driver_after all_handled in
  d_added d = [1; 2]%Z /\ d_running d = [2]%Z /\ d_handled d = [1]%Z
  /\ d_added d ≡ₚ d_running d ++ (d_posted d).*1 ++ d_handled d.
Proof.
  cbv zeta. split_and!; [vm_compute; reflexivity..|].
  destruct (transfers_handled _ (runs_after all_handled)) as (_ & _ & _ & Hdone). apply Hdone. vm_compute. repeat constructor.
Defined.
