(* ===== verification/DriverTimers.v ===== *)
(** * Timeouts of the libcurl driver, with threads

    Runs of the driver of DriverThreads.v:

    - [timeout_provided]: the timeout that libcurl wants is on its way, unless
      [event_cb] has cancelled it;
    - [late_cancel_loses_timeout]: it can cancel the timeout of a new request. *)
From S2P Require Import Prelude Curl Pool DriverThreads DriverTransfers.

Implicit Types (d : driver) (t n s : nat) (e : Z) (th todo k : list instr).

(** ** Timeouts *)
Definition calm (i : instr) : Prop := match i with CancelTimer false | StartTimer _ | PostTimer _ => False | _ => True end.
(** A thread in [multi_timer_cb], before it has started the timer. *)
Definition thread_times (w : option nat) th : Prop :=
  Forall calm th
  \/ exists j n ms k, th = drop j (driver_multi_timer_cb n ms) ++ k /\ (j <= 2)%nat /\ Forall calm k
                     /\ w = if (ms <? 0)%Z then None else Some n.
Definition times_ok d : Prop := forall t th, d_threads d !! t = Some th -> thread_times (d_wanted d) th.

Lemma calm_callbacks cs : Forall calm (concat (map called_back cs)).
Proof.
  induction cs as [|c cs IH]; cbn; [constructor|]. apply Forall_app. split; [|exact IH].
  destruct c as [ms|s [] []|s [] []|s| |s]; repeat constructor.
Qed.
Lemma calm_after_action a n : Forall calm (after_action a n).
Proof. unfold after_action, check_loop. destruct a; cbn; [|destruct (n <=? 0)%nat]; repeat constructor. Qed.

(** What [multi_timer_cb] starts. *)
Lemma timer_section n ms :
  (ms < 0)%Z /\ driver_multi_timer_cb n ms = [Lock TimerMutex; CancelTimer false; Unlock TimerMutex]
  \/ exists i, (i = StartTimer n \/ i = PostTimer n) /\ (ms <? 0)%Z = false
              /\ driver_multi_timer_cb n ms = [Lock TimerMutex; CancelTimer false; i; Unlock TimerMutex].
Proof.
  unfold driver_multi_timer_cb. destruct (Z.gtb_spec ms 0); [right; exists (StartTimer n)|].
  - split_and!; [by left|lia|done].
  - destruct (Z.eqb_spec ms 0); [right; exists (PostTimer n)|left; split; [lia|done]]. split_and!; [by right|lia|done].
Qed.

(** Only with [_multi_mutex] is a timer started, or what libcurl wants changed. *)
Lemma times_depth d t th :
  scan (depth d t) (locks_timer d t) (locks_map d t) th = true -> thread_times (d_wanted d) th -> depth d t = 0%nat ->
  Forall calm th.
Proof.
  intros Hs Ht Hd. rewrite Hd in Hs. destruct Ht as [Hq|(j & n & ms & k & -> & Hj & Hk & Hw)]; [done|].
  destruct (timer_section n ms) as [[_ Heq]|(i & [-> | ->] & _ & Heq)]; rewrite Heq in *.
  all: destruct j as [|[|[|j]]]; [..|lia]; cbn in *; rewrite ?andb_false_r in Hs; try done; by repeat constructor.
Qed.
Lemma exec_wanted t an i k d d' todo :
  scan (depth d t) (locks_timer d t) (locks_map d t) (i :: k) = true -> exec t an i d = Goes d' todo ->
  d_wanted d' = d_wanted d \/ (1 <= depth d t)%nat.
Proof.
  intros Hs He. destruct i; cbn [exec] in He; try (left; by simplify_eq).
  - unfold lock in He. left. repeat case_match; by simplify_eq.
  - left. simplify_eq. unfold unlock. by destruct m.
  - right. cbn in Hs. destruct (depth d t); [done|lia].
  - unfold curl_info_read in He. left. repeat case_match; by simplify_eq.
  - right. cbn in Hs. destruct (depth d t); [done|lia].
  - left. simplify_eq. unfold cancel_timer. by repeat case_match.
Qed.
Lemma exec_times t an i k d d' todo :
  thread_times (d_wanted d) (i :: k) -> exec t an i d = Goes d' todo -> thread_times (d_wanted d') (todo ++ k).
Proof.
  intros [Hq|(j & n & ms & k' & Heq & Hj & Hk & Hw)] He.
  - inversion Hq as [|? ? Hi Hk]; subst. destruct i; cbn [exec] in He; try done.
    1: unfold lock in He; repeat case_match; simplify_eq; by left.
    all: try (simplify_eq; left; apply Forall_app; split; [|exact Hk]; solve [constructor|apply calm_callbacks]).
    + unfold curl_action in He. simplify_eq. left. apply Forall_app. split; [|exact Hk].
      apply Forall_app. split; [apply calm_callbacks|apply calm_after_action].
    + unfold curl_info_read in He. left. repeat case_match; simplify_eq; repeat constructor; exact Hk.
    + unfold on_timer in He. simplify_eq. right. exists 0%nat. eexists _, timeout_ms, k. split_and!; [done|lia|done|done].
  - destruct (timer_section n ms) as [[_ Heq']|(i' & Hi & _ & Heq')].
    + rewrite Heq' in Heq. destruct j as [|[|[|j]]]; [..|lia]; cbn in Heq; simplify_eq; cbn [exec] in He.
      * unfold lock in He. destruct (d_timerMutex d); simplify_eq. right. exists 1%nat, n, ms, k'. rewrite Heq'. split_and!; try done. lia.
      * left. simplify_eq. by repeat constructor.
      * left. by simplify_eq.
    + rewrite Heq' in Heq. destruct j as [|[|[|j]]]; [..|lia]; cbn in Heq; simplify_eq; cbn [exec] in He.
      * unfold lock in He. destruct (d_timerMutex d); simplify_eq. right. exists 1%nat, n, ms, k'. rewrite Heq'. split_and!; try done. lia.
      * simplify_eq. right. exists 2%nat, n, ms, k'. rewrite Heq'. split_and!; try done. unfold cancel_timer. by repeat case_match.
      * left. destruct Hi as [-> | ->]; cbn in He; simplify_eq; by repeat constructor.
Qed.
Lemma times_step d d' : mutex_inv d -> times_ok d -> driver_step d d' -> times_ok d'.
Proof.
  intros [Hs Ho] HT Hd.
  assert (forall th d1, d_threads d1 = d_threads d -> d_wanted d1 = d_wanted d -> Forall calm th -> times_ok (spawn th d1)) as Hspawn.
  { intros th d1 Hths Hw Hq u th' Hu. cbn in Hu. rewrite Hths in Hu. cbn. rewrite Hw.
    apply lookup_app_Some in Hu as [Hu|[_ Hu]]; [by eapply HT|]. apply list_lookup_singleton_Some in Hu as [_ <-]. by left. }
  destruct Hd as [d d' Hd|d e He Hc|d n Hw|d ns1 n ns2 Hr|d ss1 s ss2 Hw|d es1 e r es2 Hp];
    [|by apply Hspawn; [..|repeat constructor]..|exact HT].
  destruct Hd as [d t i k an d' todo Ht He].
  intros u th. cbn. rewrite (driver_exec_threads _ _ _ _ _ _ He).
  intros [(<- & <- & _)|[Hu Hlook]]%list_lookup_insert_Some; [by apply (exec_times t an i k d); [exact (HT _ _ Ht)|]|].
  destruct (exec_wanted _ _ _ _ _ _ _ (Hs _ _ Ht) He) as [->|Hd]; [exact (HT _ _ Hlook)|].
  left. apply (times_depth d u); [exact (Hs _ _ Hlook)|exact (HT _ _ Hlook)|]. unfold depth in *. destruct (d_multi d) as [[t' m]|]; [|done].
  destruct (Nat.eqb_spec t t') as [<-|]; [|lia]. by destruct (Nat.eqb_spec u t).
Qed.
Lemma runs_times d : driver_runs new_driver d -> times_ok d.
Proof.
  induction 1 as [|d d' Hd IH Hs]; [intros t th Ht; by destruct t|]. eapply times_step; [by apply runs_mutex_inv|done|done].
Qed.

(** libcurl will be told of a timeout by a call that is due, a timer that is about to be
    started, the timer, or a posted call of [timer_cb]. *)
Definition providing (i : instr) : option nat :=
  match i with CurlAction (OnTimeout n) | StartTimer n | PostTimer n => Some n | _ => None end.
Definition providers (P : list instr) d : list nat := omap providing P ++ option_list (d_wait d) ++ d_ready d.
Record timeouts_ok P d : Prop := {
  to_unique : NoDup (providers P d);
  to_asked : forall n, n ∈ providers P d \/ d_wanted d = Some n -> (n <= d_timeouts d)%nat;
  to_wanted : forall n, d_wanted d = Some n -> n ∈ d_cancelled d \/ n ∈ providers P d;
}.

(** A step loses the timeout that passes or is cancelled, and adds the one that is asked for. *)
Definition lost (i : instr) d : list nat :=
  match i with
  | CurlAction (OnTimeout n) => [n]
  | CancelTimer _ | StartTimer _ => option_list (d_wait d)
  | _ => []
  end.
Definition asked (i : instr) d : list nat :=
  match i with OnTimer ms => if (ms <? 0)%Z then [] else [S (d_timeouts d)] | _ => [] end.
Lemma providing_after_action a n : omap providing (after_action a n) = [].
Proof. unfold after_action, check_loop. destruct a; cbn; [done|]. by destruct (n <=? 0)%nat. Qed.
Lemma exec_providers t an i rest d d' todo :
  exec t an i d = Goes d' todo ->
  lost i d ++ providers (todo ++ rest) d' ≡ₚ asked i d ++ providers (i :: rest) d.
Proof.
  intros He. unfold providers. destruct i; cbn [exec] in He.
  1: unfold lock in He; repeat case_match; by simplify_eq.
  1: simplify_eq; unfold unlock; by destruct m.
  - simplify_eq. by rewrite omap_app, omap_callbacks.
  - unfold curl_action in He. simplify_eq. rewrite !omap_app, omap_callbacks, providing_after_action by done.
    unfold passed. destruct a; cbn; by repeat case_match.
  - unfold curl_info_read in He. repeat case_match; by simplify_eq.
  - simplify_eq. by rewrite omap_app, omap_callbacks.
  - by simplify_eq.
  - unfold on_timer in He. simplify_eq. cbn [asked lost app].
    destruct (timer_section (S (d_timeouts d)) timeout_ms) as [[Hms ->]|(i & [-> | ->] & -> & ->)]; [|done..].
    by rewrite (proj2 (Z.ltb_lt _ _) Hms).
  - simplify_eq. unfold cancel_timer. cbn [lost asked]. destruct (d_wait d) as [n|] eqn:Hw; [case_match|]; cbn; rewrite ?Hw; cbn; bags.
  - simplify_eq. cbn. bags.
  - simplify_eq. cbn. bags.
  - by simplify_eq.
  - by simplify_eq.
  - by simplify_eq.
  - by simplify_eq.
Qed.
Lemma exec_timeouts t an i d d' todo :
  exec t an i d = Goes d' todo ->
  d_timeouts d' = d_timeouts d /\ asked i d = [] \/ d_timeouts d' = S (d_timeouts d) /\ exists ms, i = OnTimer ms.
Proof.
  intros He. destruct i; cbn [exec] in He; try (left; by simplify_eq).
  - unfold lock in He. left. repeat case_match; by simplify_eq.
  - left. simplify_eq. unfold unlock. by destruct m.
  - left. unfold curl_action, passed in He. simplify_eq. by repeat case_match.
  - unfold curl_info_read in He. left. repeat case_match; by simplify_eq.
  - unfold on_timer in He. simplify_eq. right. split; [done|by eexists].
  - left. simplify_eq. unfold cancel_timer. by repeat case_match.
Qed.
Lemma exec_cancelled t an i d d' todo n : exec t an i d = Goes d' todo -> n ∈ d_cancelled d -> n ∈ d_cancelled d'.
Proof.
  intros He. destruct i; cbn [exec] in He; try by simplify_eq.
  - unfold lock in He. repeat case_match; by simplify_eq.
  - simplify_eq. unfold unlock. by destruct m.
  - unfold curl_action, passed in He. simplify_eq. by repeat case_match.
  - unfold curl_info_read in He. repeat case_match; by simplify_eq.
  - unfold on_timer in He. by simplify_eq.
  - simplify_eq. unfold cancel_timer. repeat case_match; try done. cbn. intros ?. apply elem_of_app. by left.
Qed.
(** What libcurl wants after a step: what it wanted, or what it has just asked for. *)
Lemma exec_wants t an i d d' todo n :
  exec t an i d = Goes d' todo -> d_wanted d' = Some n ->
  n ∈ asked i d \/ d_wanted d = Some n /\ (forall ms, i <> OnTimer ms) /\ i <> CurlAction (OnTimeout n).
Proof.
  intros He Hn. destruct i; cbn [exec] in He; try (right; by simplify_eq).
  - unfold lock in He. right. repeat case_match; by simplify_eq.
  - right. simplify_eq. unfold unlock in Hn. by destruct m.
  - right. unfold curl_action in He. simplify_eq. cbn in Hn. destruct a as [n'|]; [|done]. unfold passed in Hn.
    destruct (d_wanted d) as [m|] eqn:Hm; [|congruence]. destruct (Nat.leb_spec m n'); cbn in Hn; [done|].
    split_and!; try congruence. intros [= ->]. simplify_eq. lia.
  - unfold curl_info_read in He. right. repeat case_match; by simplify_eq.
  - unfold on_timer in He. simplify_eq. cbn in Hn |- *. left. destruct (timeout_ms <? 0)%Z; simplify_eq. by constructor.
  - right. simplify_eq. unfold cancel_timer in Hn. split; [by repeat case_match|done].
Qed.

(** A timer that is replaced was not wanted any more, or the one that replaces it is. *)
Lemma timer_replaced t i k rest d n :
  times_ok d -> timeouts_ok (i :: rest) d -> d_threads d !! t = Some (i :: k) -> (forall j, j ∈ k -> j ∈ rest) ->
  (i = CancelTimer false \/ exists m, i = StartTimer m) -> d_wait d = Some n -> d_wanted d <> Some n.
Proof.
  intros HT [Hu _ _] Ht Hk Hi Hwait Hw.
  assert (forall j, j ∈ i :: rest -> providing j <> Some n) as Hno.
  { intros j Hj Hp. unfold providers in Hu. rewrite Hwait in Hu. apply NoDup_app in Hu as (_ & Hd & _).
    apply (Hd n); [|by constructor]. apply list_elem_of_omap. by exists j. }
  destruct (HT _ _ Ht) as [Hq|(j & n' & ms & k' & Heq & Hj & Hc & Hw')].
  - inversion Hq as [|? ? Hcalm _]; subst. destruct Hi as [-> |[m ->]]; done.
  - destruct (timer_section n' ms) as [[Hms Heq']|(i' & Hi' & Hms & Heq')].
    + rewrite Hw in Hw'. destruct (Z.ltb_spec ms 0); [done|lia].
    + rewrite Hw, Hms in Hw'. simplify_eq. rewrite Heq' in Heq.
      assert (i' ∈ i :: rest) as Hin.
      { destruct j as [|[|[|j]]]; [..|lia]; cbn in Heq; simplify_eq; [|constructor; apply Hk; by constructor|constructor].
        destruct Hi as [?|[? ?]]; done. }
      apply Hno in Hin. by destruct Hi' as [-> | ->].
Qed.
Lemma timeouts_exec t an i k rest d d' todo :
  times_ok d -> d_threads d !! t = Some (i :: k) -> (forall j, j ∈ k -> j ∈ rest) ->
  exec t an i d = Goes d' todo -> timeouts_ok (i :: rest) d -> timeouts_ok (todo ++ rest) d'.
Proof.
  intros HT Ht Hk He HI. pose proof (exec_providers _ _ _ rest _ _ _ He) as Hp. pose proof HI as [Hu Hle Hw].
  assert (forall n, n ∈ providers (todo ++ rest) d' -> n ∈ asked i d \/ n ∈ providers (i :: rest) d) as Hfrom.
  { intros n Hn. apply elem_of_app. rewrite <- Hp. apply elem_of_app. by right. }
  assert (forall n, n ∈ asked i d -> n = S (d_timeouts d) /\ d_timeouts d' = S (d_timeouts d)) as Hask.
  { intros n Hn. destruct (exec_timeouts _ _ _ _ _ _ He) as [[_ Hnil]|[Heq [ms ->]]]; [rewrite Hnil in Hn; by inversion Hn|].
    cbn in Hn. destruct (ms <? 0)%Z; [by inversion Hn|]. apply list_elem_of_singleton in Hn. by subst. }
  assert (d_timeouts d <= d_timeouts d')%nat as Hmono by (destruct (exec_timeouts _ _ _ _ _ _ He) as [[-> _]|[-> _]]; lia).
  split.
  - assert (NoDup (lost i d ++ providers (todo ++ rest) d')) as (_ & _ & ?)%NoDup_app; [|done].
    rewrite Hp. apply NoDup_app. split_and!; [|intros n [-> _]%Hask Hn|done].
    + destruct i; try constructor. cbn. destruct (_ <? 0)%Z; repeat constructor. apply not_elem_of_nil.
    + specialize (Hle _ (or_introl Hn)). lia.
  - intros n [Hn|Hn].
    + destruct (Hfrom _ Hn) as [[-> ->]%Hask|Hin]; [done|]. specialize (Hle _ (or_introl Hin)). lia.
    + destruct (exec_wants _ _ _ _ _ _ _ He Hn) as [[-> ->]%Hask|[Hn' _]]; [done|]. specialize (Hle _ (or_intror Hn')). lia.
  - intros n Hn. destruct (exec_wants _ _ _ _ _ _ _ He Hn) as [Ha|(Hn' & Hnt & Hna)].
    + right. assert (n ∈ lost i d ++ providers (todo ++ rest) d') as [Hl|?]%elem_of_app; [|exfalso|done].
      { rewrite Hp. apply elem_of_app. by left. }
      destruct i; cbn in Ha, Hl; first [by inversion Ha|by inversion Hl].
    + destruct (Hw _ Hn') as [Hc|Hin].
      { left. by eapply exec_cancelled. }
      assert (n ∈ lost i d ++ providers (todo ++ rest) d') as [Hl|?]%elem_of_app; [|idtac|by right].
      { rewrite Hp. apply elem_of_app. by right. }
      destruct i as [| | |a| | | | |last|m| | | | |]; cbn in Hl; try by inversion Hl.
      * destruct a; [|by inversion Hl]. apply list_elem_of_singleton in Hl. by subst.
      * destruct (d_wait d) as [m|] eqn:Hwait; [|by inversion Hl]. apply list_elem_of_singleton in Hl. subst m. destruct last.
        -- left. cbn in He. simplify_eq. unfold cancel_timer. rewrite Hwait. cbn. set_solver.
        -- exfalso. eapply timer_replaced; [exact HT|exact HI|exact Ht|exact Hk|by left|exact Hwait|exact Hn'].
      * destruct (d_wait d) as [m'|] eqn:Hwait; [|by inversion Hl]. apply list_elem_of_singleton in Hl. subst m'.
        exfalso. eapply timer_replaced; [exact HT|exact HI|exact Ht|exact Hk|right; by exists m|exact Hwait|exact Hn'].
Qed.

Lemma timeouts_perm P P' d : P ≡ₚ P' -> timeouts_ok P d -> timeouts_ok P' d.
Proof.
  intros HP [Hu Hle Hw]. assert (providers P d ≡ₚ providers P' d) as Hp by (unfold providers; by rewrite HP).
  split; [by rewrite <- Hp|intros n; rewrite <- Hp; apply Hle|intros n; rewrite <- Hp; apply Hw].
Qed.
(** A thread that starts takes over what provides a timeout. *)
Lemma timeouts_moved P d P' d' :
  providers P' d' ≡ₚ providers P d -> d_wanted d' = d_wanted d -> d_cancelled d' = d_cancelled d -> d_timeouts d' = d_timeouts d ->
  timeouts_ok P d -> timeouts_ok P' d'.
Proof.
  intros Hp Hw Hc Ht [H1 H2 H3]. split; [by rewrite Hp|intros n; rewrite Hp, Hw, Ht; apply H2|intros n; rewrite Hp, Hw, Hc; apply H3].
Qed.
Lemma timeouts_step d d' : times_ok d -> timeouts_ok (pool d) d -> driver_step d d' -> timeouts_ok (pool d') d'.
Proof.
  intros HT HI Hd. destruct Hd as [d d' Hs|d e He Hc|d n Hw|d ns1 n ns2 Hr|d ss1 s ss2 Hw|d es1 e r es2 Hp].
  { destruct (pool_step _ _ Hs) as (t & i & k & an & d1 & todo & rest & Ht & He & -> & Hk & Hpool & Hpool').
    apply (timeouts_perm _ _ _ (symmetry Hpool')).
    apply (timeouts_perm _ _ _ Hpool), (timeouts_exec _ _ _ _ _ _ _ _ HT Ht Hk He) in HI as [H1 H2 H3]. by split. }
  all: refine (timeouts_moved _ _ _ _ _ _ _ _ HI); try done.
  all: unfold providers, pool, spawn; cbn [d_threads d_wait d_ready ud_threads ud_wait ud_ready ud_watched ud_posted]; rewrite concat_spawn; cbn.
  - done.
  - rewrite Hw. cbn. bags.
  - rewrite Hr. bags.
  - done.
Qed.
Lemma runs_timeouts d : driver_runs new_driver d -> timeouts_ok (pool d) d.
Proof.
  induction 1 as [|d d' Hd IH Hs].
  - split; [constructor|intros n [Hn|Hn]; [by inversion Hn|done]|done].
  - eapply timeouts_step; [by apply runs_times|done|done].
Qed.

(** C21: What libcurl is promised about timeouts: the one it wants (the last it asked for,
    until it has been told that it has passed) is on its way -- the timer is about to be
    started, is running, or has expired and the call of libcurl is due -- unless
    [event_cb] has cancelled it; and libcurl is never told twice of a timeout.  Once all
    threads are done, the timer is running or a call of [timer_cb] is posted. *)
Theorem timeout_provided d :
  driver_runs new_driver d ->
  (forall n, d_wanted d = Some n -> n ∈ d_cancelled d \/ n ∈ providers (pool d) d)
  /\ NoDup (providers (pool d) d)
  /\ (forall n, d_wanted d = Some n -> Forall (eq []) (d_threads d) -> n ∈ d_cancelled d \/ d_wait d = Some n \/ n ∈ d_ready d).
Proof.
  intros [Hu _ Hw]%runs_timeouts. split_and!; [done..|]. intros n Hn Hdone. destruct (Hw _ Hn) as [Hc|Hin]; [by left|right].
  unfold providers, pool in Hin. rewrite (pool_done _ Hdone) in Hin. cbn in Hin. apply elem_of_app in Hin as [Hin|Hin]; [left|by right].
  destruct (d_wait d) as [m|]; [apply list_elem_of_singleton in Hin as ->; done|by inversion Hin].
Qed.

(** A timeout that is on its way no longer never is again. *)
Definition gone n d : Prop := (n <= d_timeouts d)%nat /\ n ∉ providers (pool d) d.
Lemma gone_step n d d' : gone n d -> driver_step d d' -> gone n d'.
Proof.
  intros [Hn Hno] Hd. destruct Hd as [d d' Hs|d e He Hc|d m Hw|d ns1 m ns2 Hr|d ss1 s ss2 Hw|d es1 e r es2 Hp].
  { destruct (pool_step _ _ Hs) as (t & i & k & an & d1 & todo & rest & Ht & He & -> & Hk & Hpool & Hpool').
    pose proof (exec_timeouts _ _ _ _ _ _ He) as Hto. pose proof (exec_providers _ _ _ rest _ _ _ He) as Hp.
    split; [change (n <= d_timeouts d1)%nat; destruct Hto as [[-> _]|[-> _]]; lia|]. intros Hin.
    assert (n ∈ asked i d ++ providers (i :: rest) d) as [Ha|Hin']%elem_of_app.
    - rewrite <- Hp. apply elem_of_app. right. unfold providers in *. by rewrite Hpool' in Hin.
    - destruct Hto as [[_ Hnil]|[_ [ms ->]]]; [rewrite Hnil in Ha; by inversion Ha|]. cbn in Ha.
      destruct (ms <? 0)%Z; [by inversion Ha|]. apply list_elem_of_singleton in Ha. lia.
    - apply Hno. unfold providers in *. by rewrite Hpool. }
  all: split; [exact Hn|]; intros Hin; apply Hno.
  5: exact Hin.
  all: unfold providers, pool, spawn in *; cbn [d_threads d_wait d_ready ud_threads ud_wait ud_ready ud_watched ud_posted] in *.
  all: rewrite concat_spawn in Hin; cbn in Hin; try exact Hin.
  - rewrite Hw. set_solver.
  - rewrite Hr. set_solver.
Qed.

(** C36: A race of [event_cb]: it cancels the timer because the call of libcurl before has
    left no transfer running, but does so after it has released [_multi_mutex].  When in
    between another thread has added a request, the timer that is cancelled is the one
    that libcurl has just asked for: libcurl still wants the timeout, transfers are
    running, and libcurl is never told, whatever happens later, that it has passed. *)
Theorem late_cancel_loses_timeout d t k n :
  driver_runs new_driver d ->
  d_threads d !! t = Some (CancelTimer true :: k) -> d_wanted d = Some n -> d_wait d = Some n ->
  exists d', thread_step d d' /\ d_wanted d' = Some n /\ d_running d' = d_running d
    /\ forall d2, driver_runs d' d2 -> n ∉ providers (pool d2) d2.
Proof.
  intros Hruns Ht Hw Hwait. exists (goes_on t ([] ++ k) (cancel_timer true d)).
  split_and!; [by apply (step_goes d t (CancelTimer true) k (MkAnswer [] []))|unfold cancel_timer; by rewrite Hwait..|].
  intros d2 Hd2. assert (gone n d2) as [_ ?]; [|done]. induction Hd2 as [|d1 d2 _ IH Hd]; [|by eapply gone_step].
  destruct (runs_timeouts _ Hruns) as [Hu Hle _], (concat_step _ _ _ _ Ht) as (rest & Hrest & Hnew).
  unfold cancel_timer, gone, providers, pool, goes_on in *. rewrite Hwait in *.
  cbn [d_threads d_wait d_ready d_timeouts ud_wait ud_cancelled ud_threads option_list] in *. rewrite Hnew. rewrite Hrest in Hu.
  split; [apply Hle; by right|]. apply NoDup_app in Hu as (_ & Hd & Hu). apply NoDup_app in Hu as (_ & Hd' & _).
  intros [Hin|Hin]%elem_of_app; [by apply (Hd n); [|constructor]|by apply (Hd' n); [constructor|]].
Qed.

(** ** Concrete runs *)

(** The timeout of the first transfer. *)
Lemma timeout_provided_witness :
  let d := driver_after one_transfer in
  d_wanted d = Some 1%nat /\ (1%nat ∈ d_cancelled d \/ 1%nat ∈ providers (pool d) d).
Proof.
  cbv zeta. assert (d_wanted (driver_after one_transfer) = Some 1%nat) as Hw by (vm_compute; reflexivity).
  split; [exact Hw|]. exact (proj1 (timeout_provided _ (runs_after one_transfer)) _ Hw).
Defined.
(** The request that is added late is never told of its timeout. *)
Lemma late_cancel_loses_timeout_witness :
  exists d', thread_step (driver_after late_request) d' /\ d_wanted d' = Some 2%nat /\ d_running d' = [2]%Z
    /\ forall d2, driver_runs d' d2 -> 2%nat ∉ providers (pool d2) d2.
Proof.
  assert (d_threads (driver_after late_request) !! 1%nat = Some [CancelTimer true; Unlock TimerMutex]) as Ht by (vm_compute; reflexivity).
  assert (d_wanted (driver_after late_request) = Some 2%nat) as Hw by (vm_compute; reflexivity).
  assert (d_wait (driver_after late_request) = Some 2%nat) as Hwait by (vm_compute; reflexivity).
  assert (d_running (driver_after late_request) = [2%Z]) as <- by (vm_compute; reflexivity).
  exact (late_cancel_loses_timeout _ _ _ _ (runs_after late_request) Ht Hw Hwait).
Defined.
