(* ===== verification/HttpUrl.v ===== *)
(** * URLs and header lines of the HTTP connection

    The string functions of src/HttpConnection.cpp: the URL of a request
    ([sendRequest]), the protection of dots in it ([createSafeDottedCurlUrl]) and
    the header lines of a response ([readHeaders]).

    - [destination_query]: the parameters of a request can be read back from its
      URL, whatever characters they hold;
    - [safe_dotted_url]: the protection of dots removes every path segment that
      is a single dot and leaves the meaning of the URL as it is;
    - [header_lines_read]: what is stored for a header line, and for the lines
      the function misreads. *)
From S2P Require Import Prelude StdMap StdString Types VPack Message Url.
Local Open Scope Z_scope.
#[local] Arguments String.append !s1 s2 / : simpl nomatch.

(** ** The URL of a request *)
Definition base_url (conf : ConnectionConfiguration) (dbString path : string) : string :=
  (if _ssl conf then "https://" else "http://") +:+ _host conf +:+ ":" +:+ _port conf
    +:+ dbString +:+ path.

Fixpoint add_parameters (parameters : StringMap) (sep destination : string) : res string :=
  match parameters with
  | [] => Ok destination
  | (k, v) :: parameters =>
      k ← urlEncode k;
      v ← urlEncode v;
      add_parameters parameters "&" (destination +:+ (sep +:+ k +:+ "=" +:+ v))
  end.

Definition destination (conf : ConnectionConfiguration) (h : MessageHeader) : res string :=
  let dbString := match database h with Some d => "/_db/" +:+ d | None => "" end in
  p ← get (path h);
  let d := base_url conf dbString p in
  match parameters h with
  | Some ((_ :: _) as ps) => add_parameters ps "?" d
  | _ => Ok d
  end.

(** ** createSafeDottedCurlUrl *)
Definition urlDotSeparators : list ascii := ["/"; "#"; "?"]%char.

(** [originalUrl.at(pos)]. *)
Definition at_ (s : string) (pos : Z) : res ascii :=
  match String.get (Z.to_nat pos) s with
  | Some c => Ok c
  | None => Throw (out_of_range "basic_string::at")
  end.

Fixpoint safe_loop (fuel : nat) (originalUrl : string) (currentFind : Z) (url : string) : res string :=
  match str_find "/." currentFind originalUrl with
  | None =>
      rest ← substr originalUrl currentFind npos;
      Ok (url +:+ rest)
  | Some found =>
      match fuel with
      | O => Undef "the loop does not terminate"
      | S fuel =>
          s ← (if found + 2 =? Z.of_nat (String.length originalUrl) then
                 p ← substr originalUrl currentFind (found - currentFind); Ok (p +:+ "/%2E")
               else
                 c ← at_ originalUrl (found + 2);
                 p ← substr originalUrl currentFind (found - currentFind);
                 if bool_decide (c ∈ urlDotSeparators) then Ok (p +:+ "/%2E") else Ok (p +:+ "/."));
          safe_loop fuel originalUrl (found + 2) (url +:+ s)
      end
  end.

(** Every round moves on by two characters at least. *)
Definition createSafeDottedCurlUrl (originalUrl : string) : res string :=
  safe_loop (String.length originalUrl) originalUrl 0 "".

(** ** readHeaders *)

(** The entry a header line adds to the response headers, if any. *)
Definition header_entry (header : string) : res (option (string * string)) :=
  match find_char ":" header with
  | None => Ok None
  | Some pivot =>
      let key := string_map tolower (string_take pivot header) in
      value ← substr header (Z.of_nat pivot + 2)
                (u64 (Z.of_nat (String.length header) - Z.of_nat pivot - 4));
      Ok (Some (key, value))
  end.

Definition add_header (header : string) (m : StringMap) : res StringMap :=
  e ← header_entry header;
  Ok (match e with Some (k, v) => map_emplace k v m | None => m end).

(** ** References *)

(** Dots that are a path segment of their own, escaped. *)
Definition ends_segment (s : string) : bool :=
  match s with "" => true | String c _ => bool_decide (c ∈ urlDotSeparators) end.
Fixpoint protected (s : string) : string :=
  match s with
  | "" => ""
  | String c r =>
      match r with
      | String c' r' =>
          if bool_decide (c = "/"%char /\ c' = "."%char)
          then (if ends_segment r' then "/%2E" else "/.") +:+ protected r'
          else String c (protected r)
      | "" => String c ""
      end
  end.

(** Parsing a query: [&] separates the parameters, [=] a key from its value. *)
Fixpoint split_on (c : ascii) (s : string) : list string :=
  match s with
  | "" => [""]
  | String c' s =>
      if decide (c' = c) then "" :: split_on c s
      else match split_on c s with x :: l => String c' x :: l | [] => [String c' ""] end
  end.
Definition parse_parameter (s : string) : res (string * string) :=
  match find_char "=" s with
  | None => k ← urlDecode s; Ok (k, "")
  | Some i => k ← urlDecode (string_take i s); v ← urlDecode (string_drop (S i) s); Ok (k, v)
  end.
Definition parse_query (query : string) : res StringMap :=
  match query with
  | String "?" q => res_map parse_parameter (split_on "&" q)
  | _ => Ok []
  end.

(** ** Dots *)
Lemma string_get_drop n s :
  String.get n s = match string_drop n s with "" => None | String c _ => Some c end.
Proof. revert s. induction n as [|n IH]; intros [|c s]; cbn; [done..|]. apply IH. Qed.

Lemma string_dot_dec c r :
  {r' | String c r = "/." +:+ r'} + {forall r', String c r <> "/." +:+ r'}.
Proof.
  destruct r as [|c' r]; [right; by intros []|].
  destruct (decide (c = "/"%char /\ c' = "."%char)) as [[-> ->]|H]; [left; by exists r|].
  right. intros r' [= -> ->]. by destruct H.
Qed.

Lemma protected_cons c r :
  (forall r', String c r <> "/." +:+ r') -> protected (String c r) = String c (protected r).
Proof.
  intros H. destruct r as [|c' r']; cbn; [done|].
  case_bool_decide as Hd; [|done]. destruct Hd as [-> ->]. by destruct (H r').
Qed.

(** The first occurrence of the pattern cuts the string for [protected], too. *)
Lemma index_dot t :
  match String.index 0 "/." t with
  | None => protected t = t
  | Some i => exists a b, t = a +:+ "/." +:+ b /\ String.length a = i
      /\ protected t = a +:+ (if ends_segment b then "/%2E" else "/.") +:+ protected b
  end.
Proof.
  induction t as [|c r IH]; [done|]. cbn [String.index].
  destruct (String.prefix "/." (String c r)) eqn:Hp.
  - apply String.prefix_correct in Hp. destruct r as [|c' r]; [by injection Hp|].
    cbn in Hp. injection Hp as -> -> _. exists "", r. split_and!; [done..|].
    cbn [protected]. by rewrite bool_decide_true.
  - assert (forall r', String c r <> "/." +:+ r') as Hne
      by (intros r' [= -> ->]; by destruct r').
    rewrite (protected_cons c r Hne).
    destruct (String.index 0 "/." r) as [i|]; [|by rewrite IH].
    destruct IH as (a & b & -> & <- & ->). by exists (String c a), b.
Qed.

Lemma safe_loop_spec fuel s cur url :
  0 <= cur <= Z.of_nat (String.length s) -> Z.of_nat (String.length s) < npos ->
  (String.length s - Z.to_nat cur <= fuel)%nat ->
  safe_loop fuel s cur url = Ok (url +:+ protected (string_drop (Z.to_nat cur) s)).
Proof.
  revert cur url. induction fuel as [|fuel IH]; intros cur url Hc Hn Hf;
    pose proof (index_dot (string_drop (Z.to_nat cur) s)) as Hi; unfold npos in *;
    pose proof (string_length_drop (Z.to_nat cur) s) as Hl; cbn [safe_loop]; unfold str_find.
  - destruct (String.index 0 "/." _) as [i|].
    + destruct Hi as (a & b & Heq & _). rewrite Heq, !string_length_app in Hl. cbn in Hl. lia.
    + rewrite substr_rest by (unfold npos; lia). by rewrite bind_ret_l, Hi.
  - destruct (String.index 0 "/." _) as [i|].
    + destruct Hi as (a & b & Heq & Ha & ->).
      assert (Hd : string_drop (Z.to_nat (cur + Z.of_nat i + 2)) s = b).
      { replace (Z.to_nat (cur + Z.of_nat i + 2)) with (Z.to_nat cur + (i + 2))%nat by lia.
        rewrite <- string_drop_drop, Heq, <- string_drop_drop, <- Ha, string_drop_app. done. }
      rewrite Heq, !string_length_app in Hl. cbn in Hl.
      rewrite substr_Ok by lia. replace (cur + Z.of_nat i - cur) with (Z.of_nat i) by lia.
      rewrite Nat2Z.id, Heq, <- Ha, string_take_app, Ha, !bind_ret_l. unfold at_.
      rewrite string_get_drop, Hd.
      assert (forall x, safe_loop fuel s (cur + Z.of_nat i + 2) x = Ok (x +:+ protected b)) as Hrec
        by (intros x; rewrite IH by lia; by rewrite Hd).
      destruct b as [|c b]; cbn [ends_segment].
      * rewrite (proj2 (Z.eqb_eq _ _)) by (cbn in Hl; lia). rewrite !bind_ret_l, Hrec.
        by rewrite !(assoc_L String.app).
      * rewrite (proj2 (Z.eqb_neq _ _)) by (cbn in Hl; lia). rewrite !bind_ret_l.
        case_bool_decide; rewrite bind_ret_l, Hrec; by rewrite !(assoc_L String.app).
    + rewrite substr_rest by (unfold npos; lia). by rewrite bind_ret_l, Hi.
Qed.

(** What is left unescaped does not end a segment. *)
Lemma ends_segment_protected s : ends_segment (protected s) = ends_segment s.
Proof.
  destruct s as [|c [|c' s]]; [done..|]. cbn [protected]. case_bool_decide as H; [|done].
  destruct H as [-> ->]. by destruct (ends_segment s).
Qed.

Lemma protected_no_dot s a b : protected s = a +:+ "/." +:+ b -> ends_segment b = false.
Proof.
  remember (String.length s) as n eqn:Hn. revert s a Hn.
  induction (lt_wf n) as [n _ IH]. intros s a -> Heq.
  destruct s as [|c [|c' r]]; [by destruct a|by destruct a as [|? []]|].
  cbn [protected] in Heq. case_bool_decide as Hd.
  - destruct Hd as [-> ->]. destruct (ends_segment r) eqn:Er; cbn in Heq.
    + do 4 (destruct a as [|? a]; [by simplify_eq/=|]; cbn in Heq; injection Heq as _ Heq).
      eapply (IH (String.length r)); [cbn; lia|done|done].
    + destruct a as [|? a]; cbn in Heq; [injection Heq as <-; by rewrite ends_segment_protected|].
      injection Heq as _ Heq. destruct a as [|? a]; cbn in Heq; [done|]. injection Heq as _ Heq.
      eapply (IH (String.length r)); [cbn; lia|done|done].
  - destruct a as [|? a]; cbn in Heq.
    + injection Heq as -> Heq. destruct r as [|c2 r]; cbn [protected] in Heq.
      * cbn in Heq. injection Heq as -> <-. by destruct Hd.
      * exfalso. apply Hd. split; [done|]. revert Heq. case_bool_decide as H2.
        -- destruct H2 as [-> ->]. by destruct (ends_segment r).
        -- by intros [= -> _].
    + injection Heq as _ Heq. eapply (IH (String.length (String c' r))); [cbn; lia|done|done].
Qed.

(** ** Decoding *)

(** The steps of [decode_from], by the first character. *)
Lemma decode_from_plain fuel c s r :
  c <> "%"%char ->
  decode_from fuel (String c s) r = decode_from fuel s (push_back r (if decide (c = "+"%char) then " " else c)%char).
Proof.
  intros Hc. unfold decode_from. cbn [copy_plain]. rewrite bool_decide_false by done.
  rewrite bool_decide_decide. by destruct (decide (c = "+"%char)).
Qed.
Lemma decode_from_escape fuel s r :
  decode_from (S fuel) (String "%" s) r
  = let '(s', r') := decode_escape (String "%" s) r in decode_from fuel s' r'.
Proof.
  unfold decode_from. cbn [copy_plain]. rewrite bool_decide_true by done. cbn [decode_loop].
  by destruct (decode_escape (String "%" s) r).
Qed.

Lemma hex2int_separator : hex2int "/" (-1) = -1.
Proof. reflexivity. Qed.

Lemma protected_head b s :
  exists t, protected (String b s) = String b t /\ (b <> "/"%char -> t = protected s).
Proof.
  destruct s as [|c s]; [by exists ""|]. cbn [protected]. case_bool_decide as H; [|by eexists].
  destruct H as [-> ->]. destruct (ends_segment s); eexists; (split; [done|by intros []]).
Qed.

(** An escape never reaches into a dot segment. *)
Lemma decode_escape_protected s r :
  decode_escape (String "%" (protected s)) r
  = (protected (decode_escape (String "%" s) r).1, (decode_escape (String "%" s) r).2).
Proof.
  destruct s as [|a s]; [done|]. destruct (protected_head a s) as (t & Ht & Hta).
  destruct (hex2int a (-1) =? -1) eqn:Ea.
  { assert (forall x, decode_escape (String "%" (String a x)) r = (String a x, r)) as Hd
      by (intros [|b x]; cbn; by rewrite Ea).
    by rewrite Ht, !Hd, <- Ht. }
  assert (a <> "/"%char) as Ha by (intros ->; by rewrite hex2int_separator in Ea).
  rewrite Ht, Hta by done. clear Ht Hta t. destruct s as [|b s]; [cbn; by rewrite Ea|].
  destruct (protected_head b s) as (t & Ht & Htb). rewrite Ht. cbn [decode_escape]. rewrite Ea.
  destruct (hex2int b (-1) =? -1) eqn:Eb; [by rewrite <- Ht|].
  rewrite Htb; [done|]. intros ->. by rewrite hex2int_separator in Eb.
Qed.

Lemma decode_from_protected s r f f' :
  (String.length s <= f)%nat -> (String.length (protected s) <= f')%nat ->
  decode_from f' (protected s) r = decode_from f s r.
Proof.
  remember (String.length s) as n eqn:Hn. revert s r f f' Hn.
  induction (lt_wf n) as [n _ IH]. intros s r f f' -> Hf Hf'.
  destruct s as [|c s]; [by destruct f, f'|].
  destruct (decide (c = "%"%char)) as [->|Hc].
  - rewrite protected_cons in Hf' |- * by done. cbn in Hf, Hf'. destruct f as [|f], f' as [|f']; try lia.
    rewrite !decode_from_escape, decode_escape_protected.
    pose proof (decode_escape_spec (String "%" s) r ltac:(done)) as (m & Hm & Hl). cbn [String.length] in Hl.
    assert (String.length (protected (decode_escape (String "%" s) r).1) <= f')%nat as Hl'.
    { pose proof (decode_escape_spec (String "%" (protected s)) r ltac:(done)) as (m' & _ & Hp).
      rewrite decode_escape_protected in Hp. cbn [fst String.length] in Hp. lia. }
    destruct (decode_escape (String "%" s) r) as [s' r']. cbn [fst snd] in *. eapply IH; [|done|lia|lia]. cbn. lia.
  - destruct (string_dot_dec c s) as [[s' [= -> ->]]|Hne].
    + cbn in Hf. cbn [protected] in Hf' |- *. rewrite bool_decide_true in Hf' |- * by done.
      rewrite !decode_from_plain by done. cbn [decide].
      assert (forall f' x, (String.length (protected s') <= f')%nat ->
        decode_from f' (protected s') x = decode_from f s' x) as Hrec
        by (intros; eapply IH; [|done|lia|done]; cbn; lia).
      destruct (ends_segment s').
      * cbn [String.append] in Hf' |- *. rewrite decode_from_plain by done. cbn in Hf'.
        destruct f' as [|f']; [lia|]. rewrite decode_from_escape.
        assert (forall x r0, decode_escape (String "%" (String "2" (String "E" x))) r0
          = (x, push_back r0 "."%char)) as -> by reflexivity.
        by rewrite Hrec by lia.
      * cbn [String.append] in Hf' |- *. rewrite !decode_from_plain by done. cbn in Hf'. by rewrite Hrec by lia.
    + rewrite protected_cons in Hf' |- * by done. rewrite !decode_from_plain by done. cbn in Hf, Hf'.
      eapply IH; [|done|lia|lia]. cbn. lia.
Qed.

Lemma urlDecode_from s f : (String.length s <= f)%nat -> urlDecode s = decode_from f s "".
Proof.
  intros Hf. unfold urlDecode, decode_from. destruct (copy_plain_spec s "") as (m & Hm & Hl).
  destruct (copy_plain s "") as [src r]. cbn [fst] in *. apply decode_loop_fuel; lia.
Qed.

(** ** Queries *)
Lemma split_on_app c a b :
  all_of (fun c' => c' <> c) a -> split_on c (a +:+ String c b) = a :: split_on c b.
Proof.
  induction a as [|c' a IH]; cbn; [by rewrite decide_True|]. intros [Hc Ha].
  rewrite decide_False by done. by rewrite IH.
Qed.
Lemma split_on_last c a : all_of (fun c' => c' <> c) a -> split_on c a = [a].
Proof.
  induction a as [|c' a IH]; cbn; [done|]. intros [Hc Ha]. rewrite decide_False by done. by rewrite IH.
Qed.

(** The characters of an encoded string separate nothing. *)
Lemma encoded_safe c s :
  unreserved c = false -> c <> "%"%char -> all_of (fun c' => c' <> c) (encoded s).
Proof.
  intros Hc Hp. induction s as [|x s IH]; cbn [encoded]; [done|].
  apply all_of_app; [|done]. eapply all_of_impl; [|apply encode_char_safe].
  intros y [Hy|Hy] Hyc; congruence.
Qed.

Lemma urlEncode_encoded s :
  Z.of_nat (String.length s) < (SIZE_MAX - 1) / 3 -> urlEncode s = Ok (encoded s).
Proof. intros Hs. unfold urlEncode. zbool. by rewrite encode_loop_spec. Qed.

Lemma urlDecode_encoded s : urlDecode (encoded s) = Ok s.
Proof. rewrite (urlDecode_from _ (String.length (encoded s))) by done. by rewrite decode_encoded. Qed.

Definition parameter_text (kv : string * string) : string := encoded kv.1 +:+ "=" +:+ encoded kv.2.

Lemma parse_parameter_text kv : parse_parameter (parameter_text kv) = Ok kv.
Proof.
  destruct kv as [k v]. unfold parse_parameter, parameter_text. cbn [fst snd].
  change ("=" +:+ encoded v) with (String "=" (encoded v)).
  rewrite find_char_app by by apply encoded_safe.
  rewrite string_take_app, urlDecode_encoded, bind_ret_l.
  change (S (String.length (encoded k))) with (1 + String.length (encoded k))%nat.
  rewrite Nat.add_comm, <- string_drop_drop, string_drop_app. cbn [string_drop].
  by rewrite urlDecode_encoded.
Qed.

Definition encodable (ps : StringMap) : Prop :=
  forall k v, (k, v) ∈ ps -> Z.of_nat (String.length k) < (SIZE_MAX - 1) / 3
    /\ Z.of_nat (String.length v) < (SIZE_MAX - 1) / 3.

(** The query behind the first separator. *)
Lemma add_parameters_spec ps sep d p :
  encodable (p :: ps) ->
  exists q, add_parameters (p :: ps) sep d = Ok (d +:+ sep +:+ q)
    /\ res_map parse_parameter (split_on "&" q) = Ok (p :: ps).
Proof.
  revert sep d p. induction ps as [|p' ps IH]; intros sep d [k v] He.
  - destruct (He k v ltac:(left)) as [Hk Hv]. exists (parameter_text (k, v)).
    cbn [add_parameters]. rewrite !urlEncode_encoded by done. rewrite !bind_ret_l. split; [done|].
    rewrite split_on_last.
    + cbn [res_map]. by rewrite parse_parameter_text.
    + unfold parameter_text. apply all_of_app; [by apply encoded_safe|]. split; [done|by apply encoded_safe].
  - destruct (He k v ltac:(left)) as [Hk Hv]. change (add_parameters ((k, v) :: p' :: ps) sep d)
      with (k' ← urlEncode k; v' ← urlEncode v;
            add_parameters (p' :: ps) "&" (d +:+ (sep +:+ k' +:+ "=" +:+ v'))).
    rewrite !urlEncode_encoded by done. rewrite !bind_ret_l.
    destruct (IH "&" (d +:+ (sep +:+ parameter_text (k, v))) p') as (q & Hq & Hs).
    { intros k' v' Hin. apply He. by right. }
    exists (parameter_text (k, v) +:+ "&" +:+ q). split.
    + unfold parameter_text in *. cbn [fst snd] in Hq. rewrite Hq. by rewrite !(assoc_L String.app).
    + change ("&" +:+ q) with (String "&" q). rewrite split_on_app.
      * cbn [res_map]. rewrite parse_parameter_text, bind_ret_l. by rewrite Hs.
      * unfold parameter_text. apply all_of_app; [by apply encoded_safe|]. split; [done|by apply encoded_safe].
Qed.

(** ** Properties *)

(** C29: the parameters of a request survive in its URL.  [sendRequest] builds
    the scheme, host, port, database and path, followed by a query from which
    splitting at [&] and [=] and decoding give back exactly the parameters, in
    order, whatever characters keys and values hold. *)
Theorem destination_query (conf : ConnectionConfiguration) (h : MessageHeader) (p : string) :
  path h = Some p -> encodable (default [] (parameters h)) ->
  exists q, destination conf h
      = Ok (base_url conf (match database h with Some d => "/_db/" +:+ d | None => "" end) p +:+ q)
    /\ parse_query q = Ok (default [] (parameters h)).
Proof.
  intros Hp He. unfold destination. rewrite Hp. cbn [get]. rewrite bind_ret_l.
  destruct (parameters h) as [[|kv ps]|]; cbn [default] in *.
  - exists "". by rewrite string_app_nil_r.
  - destruct (add_parameters_spec ps "?" (base_url conf
      (match database h with Some d => "/_db/" +:+ d | None => "" end) p) kv He) as (q & Hq & Hs).
    exists ("?" +:+ q). by split.
  - exists "". by rewrite string_app_nil_r.
Qed.

(** C30: [createSafeDottedCurlUrl] escapes exactly the path segments that are a
    single dot, which libcurl would remove: none is left, and the URL decodes to
    what it did before.  It terminates and throws no exception. *)
Theorem safe_dotted_url (url : string) :
  Z.of_nat (String.length url) < npos ->
  exists safe, createSafeDottedCurlUrl url = Ok safe /\ safe = protected url
    /\ (forall a b, safe = a +:+ "/." +:+ b -> ends_segment b = false)
    /\ urlDecode safe = urlDecode url.
Proof.
  intros Hn. exists (protected url). unfold createSafeDottedCurlUrl.
  rewrite safe_loop_spec by lia. split_and!; [done|done|by apply protected_no_dot|].
  rewrite !(urlDecode_from _ _ ltac:(done)). by apply decode_from_protected.
Qed.

Definition CRLF : string := String "013" (String "010" "").

(** What [readHeaders] stores.  Of a line with a colon it takes the key in
    lower case and, as the value, what follows the character behind the colon,
    up to the end of the line; the first line with a key wins.  That character
    is dropped even when it is not a space, as HTTP allows; of a header with an
    empty value the line feed is stored; and a line that ends with the colon
    throws, through libcurl. *)
Theorem header_lines_read (key value : string) (c : ascii) :
  all_of (fun c' => c' <> ":"%char) key -> Z.of_nat (String.length (key +:+ value)) < 2 ^ 63 ->
  header_entry (key +:+ ":" +:+ String c value +:+ CRLF) = Ok (Some (string_map tolower key, value))
  /\ header_entry (key +:+ ":" +:+ CRLF) = Ok (Some (string_map tolower key, String "010" ""))
  /\ header_entry (key +:+ ":") = Throw (out_of_range "basic_string::substr")
  /\ header_entry key = Ok None
  /\ (forall m, map_wf m ->
        exists m', add_header (key +:+ ":" +:+ String c value +:+ CRLF) m = Ok m'
          /\ map_find (string_map tolower key) m' = Some (default value (map_find (string_map tolower key) m))).
Proof.
  intros Hk Hl. rewrite string_length_app in Hl.
  assert (Hpre : forall rest, header_entry (key +:+ ":" +:+ rest)
    = v ← substr (key +:+ ":" +:+ rest) (Z.of_nat (String.length key) + 2)
            (u64 (Z.of_nat (String.length rest) - 3));
      Ok (Some (string_map tolower key, v))).
  { intros rest. unfold header_entry. change (":" +:+ rest) with (String ":" rest).
    rewrite find_char_app by done. rewrite string_take_app, string_length_app. cbn [String.length].
    do 3 f_equal. lia. }
  assert (Hdrop : forall n rest, string_drop (Z.to_nat (Z.of_nat (String.length key) + Z.of_nat (S n)))
      (key +:+ ":" +:+ rest) = string_drop n rest).
  { intros n rest. replace (Z.to_nat _) with (String.length key + S n)%nat by lia.
    by rewrite <- string_drop_drop, string_drop_app. }
  assert (Hmain : header_entry (key +:+ ":" +:+ String c value +:+ CRLF) = Ok (Some (string_map tolower key, value))).
  { rewrite Hpre. rewrite substr_Ok; rewrite ?string_length_app; cbn [String.length CRLF]; rewrite ?u64_id by lia; try lia.
    change 2 with (Z.of_nat 2). rewrite (Hdrop 1%nat).
    change (string_drop 1 (String c value +:+ CRLF)) with (value +:+ CRLF).
    match goal with |- context [string_take ?n _] => replace n with (String.length value) end.
    - by rewrite bind_ret_l, string_take_app.
    - rewrite ?string_length_app. cbn. rewrite ?u64_id by lia. lia. }
  split_and!.
  - done.
  - rewrite Hpre. change (u64 (Z.of_nat (String.length CRLF) - 3)) with npos.
    rewrite substr_rest by (rewrite ?string_length_app; unfold npos; cbn; lia).
    change 2 with (Z.of_nat 2). by rewrite (Hdrop 1%nat).
  - change (key +:+ ":") with (key +:+ ":" +:+ ""). rewrite Hpre. unfold substr.
    rewrite string_length_app. change (String.length (":" +:+ "")) with 1%nat.
    by rewrite (proj2 (Z.ltb_lt _ _)) by lia.
  - unfold header_entry. by rewrite find_char_None.
  - intros m Hm. unfold add_header. rewrite Hmain, bind_ret_l. eexists. split; [done|].
    rewrite !map_find_spec by (done || by apply map_emplace_wf).
    rewrite map_emplace_spec by done. destruct (to_gmap m !! _) eqn:E; [done|]. by rewrite lookup_insert_eq.
Qed.

(** ** Witnesses *)
Lemma destination_query_witness :
  let h := set_parameters (Some [("a&b", "1 = 1"); ("q", "/?#%")]) (set_database (Some "db") (set_path (Some "/x") emptyHeader)) in
  let conf := default_configuration in
  exists q, destination conf h = Ok (base_url conf "/_db/db" "/x" +:+ q)
    /\ parse_query q = Ok [("a&b", "1 = 1"); ("q", "/?#%")].
Proof.
  apply (destination_query default_configuration
    (set_parameters (Some [("a&b", "1 = 1"); ("q", "/?#%")]) (set_database (Some "db") (set_path (Some "/x") emptyHeader)))
    "/x"); [reflexivity|].
  intros k v Hin. cbn in Hin. rewrite !elem_of_cons, elem_of_nil in Hin.
  destruct Hin as [[= -> ->]|[[= -> ->]|[]]]; split; vm_compute; reflexivity.
Defined.

Lemma safe_dotted_url_witness :
  let url := "http://h/a/./b/../c/.?d=%2" in
  exists safe, createSafeDottedCurlUrl url = Ok safe /\ safe = protected url
    /\ (forall a b, safe = a +:+ "/." +:+ b -> ends_segment b = false)
    /\ urlDecode safe = urlDecode url.
Proof. apply (safe_dotted_url "http://h/a/./b/../c/.?d=%2"). vm_compute. reflexivity. Defined.

Lemma header_lines_read_witness :
  header_entry ("Server:" +:+ "ArangoDB" +:+ CRLF) = Ok (Some ("server", "rangoDB")).
Proof.
  apply (header_lines_read "Server" "rangoDB" "A"); [|vm_compute; reflexivity].
  cbn. repeat split; discriminate.
Defined.
