(* ===== verification/HttpConnection.v ===== *)
(** * The HTTP connection

    [HttpConnection] of src/HttpConnection.h and src/HttpConnection.cpp: how a
    request becomes an easy handle of libcurl, how its response is collected,
    and how its callback is called.  The driver of the transfers is used through
    the contract of TransferEngine.v.

    A [RequestItem] is owned by the message store; libcurl holds raw pointers to
    it (CURLOPT_PRIVATE, CURLOPT_WRITEDATA, CURLOPT_HEADERDATA).  Items therefore
    live in a heap from which they disappear with their last owner, and with them
    their easy handles ([curl_easy_cleanup] in the destructor); using either
    afterwards is undefined. *)
From S2P Require Import Prelude StdMap StdString Types VPack Message RequestItem MessageStore Url HttpUrl Curl TransferEngine.
Local Open Scope Z_scope.

(** The options set on an easy handle, in order; pointers to items are indices. *)
Inductive curl_option : Type :=
| OPT_PRIVATE (item : nat) | OPT_HTTPHEADER (headers : list string) | OPT_HEADER (n : Z)
| OPT_URL (url : string) | OPT_WRITEFUNCTION_readBody | OPT_WRITEDATA (item : nat)
| OPT_HEADERFUNCTION_readHeaders | OPT_HEADERDATA (item : nat) | OPT_ERRORBUFFER (item : nat)
| OPT_SSL_VERIFYPEER (n : Z) | OPT_SSL_VERIFYHOST (n : Z) | OPT_TIMEOUT_MS (ms : Z)
| OPT_CONNECTTIMEOUT (s : Z) | OPT_POST (n : Z) | OPT_CUSTOMREQUEST (verb : string)
| OPT_HTTPAUTH_BASIC | OPT_USERNAME (user : string) | OPT_PASSWORD (password : string)
| OPT_POSTFIELDSIZE (n : Z) | OPT_COPYPOSTFIELDS (data : list byte).

Section HttpConnection.
Context {VP : VPack} {E : Type} `{TransferEngine E}.
Context (conf : ConnectionConfiguration).
(** A user's callback, given by a number, and what running it does. *)
Context (user_code : cb_event nat -> res unit).

(** ** State *)
Record HttpItem : Type := MkHttpItem {
  hi_destination : string;
  hi_request : option Request;             (* unique_ptr *)
  hi_callback : CallOnceRequestCallback nat;
  hi_requestHeaders : list string;
  hi_responseHeaders : StringMap;
  hi_responseBody : list byte;
  hi_handle : Z;
  hi_options : list curl_option;
}.
Definition set_hi_request x i := MkHttpItem (hi_destination i) x (hi_callback i)
  (hi_requestHeaders i) (hi_responseHeaders i) (hi_responseBody i) (hi_handle i) (hi_options i).
Definition set_hi_callback x i := MkHttpItem (hi_destination i) (hi_request i) x
  (hi_requestHeaders i) (hi_responseHeaders i) (hi_responseBody i) (hi_handle i) (hi_options i).
Definition set_hi_responseHeaders x i := MkHttpItem (hi_destination i) (hi_request i) (hi_callback i)
  (hi_requestHeaders i) x (hi_responseBody i) (hi_handle i) (hi_options i).
Definition set_hi_responseBody x i := MkHttpItem (hi_destination i) (hi_request i) (hi_callback i)
  (hi_requestHeaders i) (hi_responseHeaders i) x (hi_handle i) (hi_options i).

Inductive http_event : Type :=
| EvHttpCallback (item : nat) (call : cb_event nat)
| EvHttpFailure (code : Z) (message : string).

Record HttpConnection : Type := MkHttp {
  hc_items : gmap nat HttpItem;            (* the heap of items *)
  hc_next : nat;
  hc_easy : gmap Z nat;                    (* easy handles that are not cleaned up: CURLOPT_PRIVATE *)
  hc_store : MessageStore nat;
  hc_engine : E;
  ticketId : Z;                            (* static *)
  hc_alive : bool;
  hc_trace : list http_event;
}.
Definition set_hc_items x s := MkHttp x (hc_next s) (hc_easy s) (hc_store s) (hc_engine s) (ticketId s) (hc_alive s) (hc_trace s).
Definition set_hc_next x s := MkHttp (hc_items s) x (hc_easy s) (hc_store s) (hc_engine s) (ticketId s) (hc_alive s) (hc_trace s).
Definition set_hc_easy x s := MkHttp (hc_items s) (hc_next s) x (hc_store s) (hc_engine s) (ticketId s) (hc_alive s) (hc_trace s).
Definition set_hc_store x s := MkHttp (hc_items s) (hc_next s) (hc_easy s) x (hc_engine s) (ticketId s) (hc_alive s) (hc_trace s).
Definition set_hc_engine x s := MkHttp (hc_items s) (hc_next s) (hc_easy s) (hc_store s) x (ticketId s) (hc_alive s) (hc_trace s).
Definition set_ticketId x s := MkHttp (hc_items s) (hc_next s) (hc_easy s) (hc_store s) (hc_engine s) x (hc_alive s) (hc_trace s).
Definition set_hc_alive x s := MkHttp (hc_items s) (hc_next s) (hc_easy s) (hc_store s) (hc_engine s) (ticketId s) x (hc_trace s).
Definition set_hc_trace x s := MkHttp (hc_items s) (hc_next s) (hc_easy s) (hc_store s) (hc_engine s) (ticketId s) (hc_alive s) x.

Local Abbreviation M := (stm HttpConnection).

Definition http_log (e : http_event) : M unit := modify (fun s => set_hc_trace (hc_trace s ++ [e]) s).
Definition http_onFailure (code : Z) (message : string) : M unit := http_log (EvHttpFailure code message).
Definition get_http_item (p : nat) : M HttpItem :=
  l ← reads hc_items;
  lift (match l !! p with Some i => Ok i | None => Undef "use of a deleted request item" end).
Definition put_http_item (p : nat) (i : HttpItem) : M unit :=
  modify (fun s => set_hc_items (<[p := i]> (hc_items s)) s).

(** The destructor of an item cleans up its easy handle. *)
Definition delete_item (p : nat) : M unit :=
  i ← get_http_item p;
  _ ← modify (fun s => set_hc_easy (delete (hi_handle i) (hc_easy s)) s);
  modify (fun s => set_hc_items (delete p (hc_items s)) s).

(** [_callback.invoke(e, std::move(_request), std::move(response))]. *)
Definition http_invoke (e : Z) (response : option Response) (p : nat) : M unit :=
  i ← get_http_item p;
  '(c, calls) ← lift (invoke e (hi_request i) response (hi_callback i));
  _ ← put_http_item p (set_hi_request None (set_hi_callback c i));
  for_each (fun call =>
    _ ← http_log (EvHttpCallback p call);
    lift (user_code call)) calls.

#[export] Instance HttpStored : StoredItem HttpConnection nat := {|
  item_messageID p s :=
    match hc_items s !! p with
    | Some i => r ← get (hi_request i); Ok (rq_messageID r)
    | None => Undef "use of a deleted request item"
    end;
  item_timeout p s :=
    match hc_items s !! p with
    | Some i => r ← get (hi_request i); Ok (_timeout r)
    | None => Undef "use of a deleted request item"
    end;
  item_invokeOnError e p := http_invoke e None p;
|}.

(** ** Sending *)

(** [static_cast<long>(Options::connectionTimeout)], in seconds. *)
Definition connectionTimeout : Z := 2.

Definition verb_options (verb : RestVerb) : res (list curl_option) :=
  match verb with
  | Post => Ok [OPT_POST 1]
  | Put => Ok [OPT_CUSTOMREQUEST "PUT"]
  | Delete => Ok [OPT_CUSTOMREQUEST "DELETE"]
  | Head => Ok [OPT_CUSTOMREQUEST "HEAD"]
  | Patch => Ok [OPT_CUSTOMREQUEST "PATCH"]
  | Options => Ok [OPT_CUSTOMREQUEST "OPTIONS"]
  | Get => Ok []
  | Illegal => Throw (runtime_error ("Invalid request type " +:+ RestVerb_to_string verb))
  | UnnamedVerb _ => Ok []
  end.

Definition authentication_options : res (list curl_option) :=
  match _authenticationType conf with
  | AT_None => Ok []
  | AT_Basic => Ok [OPT_HTTPAUTH_BASIC; OPT_USERNAME (c_str (_user conf)); OPT_PASSWORD (c_str (_password conf))]
  | AT_Jwt => Throw (invalid_argument "Jwt authentication is not yet support")
  end.

Definition payload_options (payload : list byte) : list curl_option :=
  if 0 <? Z.of_nat (length payload)
  then [OPT_POSTFIELDSIZE (Z.of_nat (length payload)); OPT_COPYPOSTFIELDS payload] else [].

(** [curl_slist_append] copies C strings. *)
Definition request_headers (h : MessageHeader) : list string :=
  match meta h with
  | Some m => (fun kv => c_str (kv.1 +:+ ": " +:+ kv.2)) <$> m
  | None => []
  end.

(** The options in the order they are set; [item] is the pointer to the item. *)
Definition item_options (item : nat) (dest : string) (r : Request) : res (list curl_option) :=
  url ← createSafeDottedCurlUrl dest;
  verb ← get (restVerb (rq_header r));
  vo ← verb_options verb;
  ao ← authentication_options;
  payload ← request_payload r;
  let connectTimeout := if connectionTimeout <=? 0 then 1 else connectionTimeout in
  Ok ([OPT_PRIVATE item; OPT_HTTPHEADER (request_headers (rq_header r)); OPT_HEADER 0; OPT_URL (c_str url);
       OPT_WRITEFUNCTION_readBody; OPT_WRITEDATA item; OPT_HEADERFUNCTION_readHeaders; OPT_HEADERDATA item;
       OPT_ERRORBUFFER item; OPT_SSL_VERIFYPEER 0; OPT_SSL_VERIFYHOST 0;
       OPT_TIMEOUT_MS (_timeout r); OPT_CONNECTTIMEOUT connectTimeout]
      ++ vo ++ ao ++ payload_options payload).

Definition new_HttpItem (dest : string) (r : Request) (cb : nat) (handle : Z) (options : list curl_option) : HttpItem :=
  MkHttpItem dest (Some r) (assign_CallOnce cb new_CallOnce) (request_headers (rq_header r)) [] [] handle options.

(** [_curlm->addRequest(handle)]. *)
Definition engine_add (handle : Z) : M unit := fun s =>
  match eng_addRequest handle (hc_engine s) with (r, e) => (r, set_hc_engine e s) end.

(** [easy] is the result of [curl_easy_init].  An item whose creation throws is
    destroyed before anything else has seen it, so it does not enter the heap. *)
Definition http_createRequestItem (dest : string) (request : Request) (cb : nat) (easy : option Z) : M unit :=
  p ← reads hc_next;
  handle ← lift (match easy with Some h => Ok h | None => Throw bad_alloc end);
  options ← lift (item_options p dest request);
  _ ← modify (set_hc_next (S p));
  _ ← put_http_item p (new_HttpItem dest request cb handle options);
  _ ← modify (fun s => set_hc_easy (<[handle := p]> (hc_easy s)) s);
  s ← reads id;
  m ← store_add p (hc_store s);
  _ ← modify (set_hc_store m);
  engine_add handle.

Definition queueRequest (dest : string) (request : Request) (cb : nat) (easy : option Z) : M Z :=
  t ← reads ticketId;
  let id := u64 (t + 1) in
  _ ← modify (set_ticketId id);
  _ ← http_createRequestItem dest (set_rq_messageID id request) cb easy;
  mret id.

Definition http_sendRequest (request : Request) (cb : nat) (easy : option Z) : M Z :=
  dest ← lift (destination conf (rq_header request));
  queueRequest dest request cb easy.

Definition http_requestsLeft (s : HttpConnection) : Z := eng_requestsLeft (hc_engine s).

(** ** Receiving: the callbacks of an easy handle *)

(** An exception passes through libcurl. *)
Definition readHeaders (header : string) (p : nat) : M Z :=
  i ← get_http_item p;
  hs ← lift (match add_header header (hi_responseHeaders i) with
             | Throw _ => Undef "an exception passes through libcurl"
             | r => r
             end);
  _ ← put_http_item p (set_hi_responseHeaders hs i);
  mret (Z.of_nat (String.length header)).

Definition readBody (data : list byte) (p : nat) : M Z :=
  i ← get_http_item p;
  _ ← put_http_item p (set_hi_responseBody (hi_responseBody i ++ data) i);
  mret (Z.of_nat (length data)).

(** [responseHeaders[key]] inserts an empty value when there is none. *)
Definition transformResult (responseHeaders : StringMap) (responseBody : list byte) (response : Response) : Response :=
  let responseHeaders := map_emplace fu_content_type_key "" responseHeaders in
  let ctype := match map_find fu_content_type_key responseHeaders with Some v => v | None => "" end in
  let set_header h r := MkResponse h (rs_messageID r) (rs_payload_buf r) (_payloadOffset r) (rs_slices r) in
  let response := set_header (set_contentTypeString ctype (rs_header response)) response in
  let response := match responseBody with [] => response | _ => setPayload responseBody 0 response end in
  set_header (set_meta (Some responseHeaders) (rs_header response)) response.

(** [static_cast<Error>(ErrorCondition)] for the result of a transfer, with the
    message for the failure callback, if it is told. *)
Definition failure_of (rc : CURLcode) : Z * option string :=
  match rc with
  | CURLE_OK => (0, None)
  | CURLE_COULDNT_CONNECT => (errorToInt CouldNotConnect, Some "connect failed")
  | CURLE_SSL_CONNECT_ERROR => (errorToInt CouldNotConnect, Some "ssl connect failed")
  | CURLE_COULDNT_RESOLVE_HOST => (errorToInt CouldNotConnect, Some "resolve host failed")
  | CURLE_URL_MALFORMAT => (errorToInt MalformedURL, None)
  | CURLE_SEND_ERROR => (errorToInt CouldNotConnect, None)
  | CURLE_OPERATION_TIMEDOUT | CURLE_RECV_ERROR | CURLE_GOT_NOTHING => (errorToInt Timeout, None)
  | CURLE_other _ => (errorToInt CurlError, Some "unknown curl error")
  end.

Definition http_response (id status : Z) (i : HttpItem) : Response :=
  let r := new_Response emptyHeader [] in
  let r := MkResponse (set_responseCode (Some (u32 status)) (rs_header r)) id
             (rs_payload_buf r) (_payloadOffset r) (rs_slices r) in
  transformResult (hi_responseHeaders i) (hi_responseBody i) r.

(** The [switch] of [handleResult]; [status] is CURLINFO_RESPONSE_CODE. *)
Definition finish (p : nat) (rc : CURLcode) (status : Z) : M unit :=
  match rc with
  | CURLE_OK =>
      i ← get_http_item p;
      r ← lift (get (hi_request i));
      let response := http_response (rq_messageID r) status i in
      (* the headers are moved out; the body is taken by reference *)
      _ ← put_http_item p (set_hi_responseHeaders [] i);
      _ ← http_invoke 0 (Some response) p;
      i ← get_http_item p;
      put_http_item p (set_hi_request None i)
  | _ =>
      let '(code, message) := failure_of rc in
      _ ← (match message with Some m => http_onFailure code m | None => skip end);
      http_invoke code None p
  end.

Definition try_catch {A} (m : M A) (handler : exn -> M A) : M A := fun s =>
  match m s with (Throw e, s') => handler e s' | r => r end.

(** [_messageStore.removeByID]: the store is the only owner of its items. *)
Definition remove_request (id : Z) : M unit :=
  m ← reads hc_store;
  _ ← modify (set_hc_store (store_removeByID id m));
  match store_findByID id m with Some p => delete_item p | None => skip end.

(** [handleResult], called with [this] as a raw pointer.  [throw e] in the handler
    of [std::exception] throws a copy of that base class. *)
Definition handleResult (handle : Z) (rc : CURLcode) (status : Z) : M unit :=
  alive ← reads hc_alive;
  if negb alive then lift (Undef "use of a destroyed connection")
  else
    easy ← reads hc_easy;
    match easy !! handle with
    | None => lift (Undef "use of an easy handle that was cleaned up")
    | Some p =>
        i ← get_http_item p;
        r ← lift (get (hi_request i));
        let request_id := rq_messageID r in
        _ ← try_catch (finish p rc status) (fun e =>
              match e with
              | process_exit _ => lift (Throw e)
              | _ =>
                  _ ← remove_request request_id;
                  lift (Throw (if is_std_exception e then std_exception else e))
              end);
        remove_request request_id
    end.

(** ** Life time *)
Definition new_HttpConnection (ticket : Z) (e : E) : HttpConnection :=
  MkHttp ∅ 0 ∅ [] e ticket true [].

(** The destructor.  The driver may outlive the connection: the handlers of the
    io service share it. *)
Definition destroy_HttpConnection : M unit :=
  m ← reads hc_store;
  m' ← store_cancelAll (errorToInt CanceledDuringReset) m;
  _ ← for_each (fun kv => delete_item kv.2) m;
  _ ← modify (set_hc_store m');
  modify (set_hc_alive false).

(** ** Runs *)

(** What can happen: a user sends a request; libcurl, while the io service runs
    it, calls the functions of an active handle; the driver makes a step of its
    own; the result of a transfer is delivered; another connection takes a
    ticket.  [easy] is a handle that is not in use, or none when libcurl is out of
    memory. *)
Inductive http_action : Type :=
| Send (request : Request) (cb : nat) (easy : option Z)
| Header (handle : Z) (line : string)
| Body (handle : Z) (data : list byte)
| Deliver (handle : Z) (rc : CURLcode) (status : Z) (e : E)
| Engine (e : E)
| Ticket.

Definition on_item (handle : Z) (f : nat -> M Z) : M unit :=
  easy ← reads hc_easy;
  match easy !! handle with
  | None => lift (Undef "use of an easy handle that was cleaned up")
  | Some p => _ ← f p; skip
  end.

Definition http_execute (a : http_action) : M unit :=
  match a with
  | Send request cb easy => _ ← http_sendRequest request cb easy; skip
  | Header handle line => on_item handle (readHeaders line)
  | Body handle data => on_item handle (readBody data)
  | Deliver handle rc status e => _ ← modify (set_hc_engine e); handleResult handle rc status
  | Engine e => modify (set_hc_engine e)
  | Ticket => modify (fun s => set_ticketId (u64 (ticketId s + 1)) s)
  end.

(** A request the code can handle: it reads the path and the verb without looking
    whether they are set, and the payload as long as it is said to be. *)
Definition request_ready (request : Request) : Prop :=
  is_Some (path (rq_header request)) /\ is_Some (restVerb (rq_header request))
  /\ is_Ok (request_payload request)
  /\ forall d, destination conf (rq_header request) = Ok d -> Z.of_nat (String.length d) < npos.

Definition http_enabled (a : http_action) (s : HttpConnection) : Prop :=
  match a with
  | Send request _ easy =>
      request_ready request /\ ticketId s < 2 ^ 64 - 1
      /\ match easy with Some h => hc_easy s !! h = None | None => True end
  | Header handle line =>
      (handle ∈ eng_active (hc_engine s)) /\ is_Ok (header_entry line)
  | Body handle _ => handle ∈ eng_active (hc_engine s)
  | Deliver handle rc _ e => eng_deliver handle rc (hc_engine s) e
  | Engine e => eng_step (hc_engine s) e
  | Ticket => ticketId s < 2 ^ 64 - 1
  end.
End HttpConnection.
Arguments HttpConnection E : clear implicits.
Arguments http_action E : clear implicits.
