(* ===== verification/HttpProperties.v ===== *)
(** * Properties of the HTTP connection

    - [http_no_request_lost]: every accepted request is in the store with a
      transfer that is under way, or its callback has been called, once;
    - [handleResult_outcome]: what the callback is called with, and what is left;
    - [destroyed_while_posted]: destroying a connection whose last transfer has
      completed but has not been delivered. *)
From S2P Require Import Prelude StdMap StdString Types VPack Message RequestItem MessageStore Url HttpUrl Curl TransferEngine HttpConnection.
Local Open Scope Z_scope.

Section Properties.
Context {VP : VPack} {E : Type} `{TransferEngineLaws E}.
Context (conf : ConnectionConfiguration).
Context (user_code : cb_event nat -> res unit).
(** The users' callbacks return or throw. *)
Context (user_ok : forall call w, user_code call <> Undef w).
Local Abbreviation M := (stm (HttpConnection E)).
Implicit Types (s : HttpConnection E).

(** ** Invariant *)

(** An item that waits for its response. *)
Definition waiting s (id : Z) (p : nat) (it : HttpItem) (r : Request) (cb : nat) : Prop :=
  hc_items s !! p = Some it /\ hi_request it = Some r /\ rq_messageID r = id
  /\ hi_callback it = MkCallOnce false (Some cb) /\ hc_easy s !! hi_handle it = Some p.

(** [hs] are the handles the driver knows: those of the items in the store. *)
Record http_inv (hs : list Z) s : Prop := {
  inv_engine : eng_ok (hc_engine s);
  inv_alive : hc_alive s = true;
  inv_store : map_wf (hc_store s);
  inv_items : forall id p, (id, p) ∈ hc_store s -> exists it r cb, waiting s id p it r cb;
  inv_easy : forall h p, hc_easy s !! h = Some p ->
    exists id it, (id, p) ∈ hc_store s /\ hc_items s !! p = Some it /\ hi_handle it = h;
  inv_handles : forall h, h ∈ hs <-> is_Some (hc_easy s !! h);
  inv_nodup : NoDup hs;
  inv_ids : forall id p, (id, p) ∈ hc_store s -> id <= ticketId s;
  inv_heap : forall p it, hc_items s !! p = Some it -> (p < hc_next s)%nat /\ exists id, (id, p) ∈ hc_store s;
  inv_ticket : 0 <= ticketId s < 2 ^ 64;
}.

(** How often the callback of an item has been called. *)
Definition is_call (p : nat) (e : http_event) : bool :=
  match e with EvHttpCallback q _ => bool_decide (q = p) | _ => false end.
Definition call_count (p : nat) (l : list http_event) : nat := length (filter (fun e => is_call p e = true) l).

Lemma call_count_app p l1 l2 : call_count p (l1 ++ l2) = (call_count p l1 + call_count p l2)%nat.
Proof. unfold call_count. by rewrite filter_app, length_app. Qed.

Lemma call_count_callback q p call :
  call_count q [EvHttpCallback p call] = if decide (q = p) then 1%nat else 0%nat.
Proof.
  unfold call_count. rewrite filter_cons. cbn. destruct (decide (q = p)) as [->|].
  - by rewrite bool_decide_true.
  - by rewrite bool_decide_false.
Qed.

(** Two items of the store are the same when their pointers are. *)
Lemma stored_unique hs s id id' p : http_inv hs s -> (id, p) ∈ hc_store s -> (id', p) ∈ hc_store s -> id = id'.
Proof.
  intros Hi H1 H2. apply (inv_items _ _ Hi) in H1 as (? & ? & ? & ? & ? & ? & ?).
  apply (inv_items _ _ Hi) in H2 as (? & ? & ? & ? & ? & ? & ?). congruence.
Qed.

(** ** Delivering a result *)
Definition finish_response (rc : CURLcode) (status : Z) (it : HttpItem) (r : Request) : option Response :=
  match rc with CURLE_OK => Some (http_response (rq_messageID r) status it) | _ => None end.
Definition finish_events (p : nat) (rc : CURLcode) (status : Z) (it : HttpItem) (r : Request) (cb : nat) : list http_event :=
  match (failure_of rc).2 with Some m => [EvHttpFailure (failure_of rc).1 m] | None => [] end
  ++ [EvHttpCallback p (MkEvent cb (failure_of rc).1 (Some r) (finish_response rc status it r))].

Lemma finish_events_count p rc status it r cb q :
  call_count q (finish_events p rc status it r cb) = if decide (q = p) then 1%nat else 0%nat.
Proof.
  unfold finish_events. rewrite call_count_app.
  assert (call_count q (match (failure_of rc).2 with
    | Some m => [EvHttpFailure (failure_of rc).1 m] | None => [] end) = 0%nat) as -> by by destruct (failure_of rc) as [? []].
  apply call_count_callback.
Qed.

(** While a result is delivered only the item and the trace change. *)
Definition finishing (p : nat) (it : HttpItem) (evs : list http_event) s s' : Prop :=
  hc_next s' = hc_next s /\ hc_easy s' = hc_easy s /\ hc_store s' = hc_store s
  /\ hc_engine s' = hc_engine s /\ ticketId s' = ticketId s /\ hc_alive s' = hc_alive s
  /\ hc_trace s' = hc_trace s ++ evs
  /\ exists it', hc_items s' = <[p := it']> (hc_items s) /\ hi_handle it' = hi_handle it.

Lemma wp_get_http_item p it s (Q : HttpItem -> HttpConnection E -> Prop) Ex :
  hc_items s !! p = Some it -> Q it s -> wp (get_http_item p) Q Ex s.
Proof. intros Hp HQ. unfold get_http_item. repeat wp_step. by rewrite Hp. Qed.

Lemma wp_user_code call s (Q : unit -> HttpConnection E -> Prop) (Ex : exn -> HttpConnection E -> Prop) :
  Q () s -> (forall e, Ex e s) -> wp (lift (user_code call)) Q Ex s.
Proof.
  intros HQ HE. unfold wp, lift. pose proof (user_ok call) as Hu.
  destruct (user_code call) as [[]| |w]; [done|done|]. by destruct (Hu w).
Qed.

Lemma wp_http_invoke e resp p it r cb s :
  hc_items s !! p = Some it -> hi_request it = Some r -> hi_callback it = MkCallOnce false (Some cb) ->
  let F := finishing p it [EvHttpCallback p (MkEvent cb e (Some r) resp)] s in
  wp (http_invoke user_code e resp p) (fun _ => F) (fun _ => F) s.
Proof.
  intros Hp Hr Hc F. unfold http_invoke. wp_step. eapply wp_get_http_item; [done|].
  rewrite Hr, Hc. unfold invoke. cbn [_invoked _cb]. wp_step.
  eapply wp_lift_Ok; [done|]. unfold put_http_item, http_log. repeat wp_step. cbn [for_each]. repeat wp_step.
  assert (HF : F (set_hc_trace (hc_trace s ++ [EvHttpCallback p (MkEvent cb e (Some r) resp)])
    (set_hc_items (<[p := set_hi_request None (set_hi_callback (MkCallOnce true None) it)]> (hc_items s)) s))).
  { repeat split. eexists. split; [reflexivity|done]. }
  apply wp_user_code; [by wp_step|done].
Qed.

(** Changes of the item before and after. *)
Lemma finishing_before p it it1 evs s s' :
  hi_handle it1 = hi_handle it -> finishing p it1 evs (set_hc_items (<[p := it1]> (hc_items s)) s) s' ->
  finishing p it evs s s'.
Proof.
  intros Hh (? & ? & ? & ? & ? & ? & ? & it' & Hi & Hh'). repeat split; [done..|].
  exists it'. split; [|congruence]. rewrite Hi. cbn. by rewrite insert_insert_eq.
Qed.
Lemma finishing_after p it evs s s' it2 :
  finishing p it evs s s' -> hi_handle it2 = hi_handle it ->
  finishing p it evs s (set_hc_items (<[p := it2]> (hc_items s')) s').
Proof.
  intros (? & ? & ? & ? & ? & ? & ? & it' & Hi & Hh') Hh. repeat split; [done..|].
  exists it2. split; [|done]. cbn. rewrite Hi. by rewrite insert_insert_eq.
Qed.
Lemma finishing_log p it ev evs s s' :
  finishing p it evs (set_hc_trace (hc_trace s ++ [ev]) s) s' -> finishing p it (ev :: evs) s s'.
Proof.
  intros (? & ? & ? & ? & ? & ? & Ht & Hi). repeat split; [done..| |done].
  cbn in Ht. by rewrite Ht, <- (assoc_L (++)).
Qed.

Lemma wp_finish p rc status it r cb s :
  hc_items s !! p = Some it -> hi_request it = Some r -> hi_callback it = MkCallOnce false (Some cb) ->
  let F := finishing p it (finish_events p rc status it r cb) s in
  wp (finish user_code p rc status) (fun _ => F) (fun _ => F) s.
Proof.
  intros Hp Hr Hc F. unfold finish.
  assert (Hfail : forall code msg, failure_of rc = (code, msg) -> finish_response rc status it r = None ->
    wp (_ ← (match msg with Some m => http_onFailure code m | None => skip end); http_invoke user_code code None p)
      (fun _ => F) (fun _ => F) s).
  { intros code msg Hf Hresp. subst F. unfold finish_events. rewrite Hf, Hresp. cbn [fst snd].
    destruct msg as [m|]; repeat wp_step; [unfold http_onFailure, http_log; wp_step|].
    - eapply wp_mono; [by apply (wp_http_invoke code None p it r cb)|..];
        intros ? s' Hfin; by apply finishing_log.
    - by apply (wp_http_invoke code None p it r cb). }
  destruct rc; try (by apply Hfail). clear Hfail.
  wp_step. eapply wp_get_http_item; [done|]. wp_step. eapply wp_lift_Ok; [by rewrite Hr|].
  unfold put_http_item. repeat wp_step.
  set (it1 := set_hi_responseHeaders [] it).
  assert (hc_items (set_hc_items (<[p:=it1]> (hc_items s)) s) !! p = Some it1) as Hp1
    by (cbn; by rewrite lookup_insert_eq).
  eapply wp_mono; [eapply (wp_http_invoke _ _ p it1 r cb); [done|done|done]|..].
  - intros [] s' Hf. apply (finishing_before p it it1) in Hf; [|done].
    pose proof Hf as (_ & _ & _ & _ & _ & _ & _ & it' & Hi & Hh).
    wp_step. eapply (wp_get_http_item p it'); [by rewrite Hi, lookup_insert_eq|].
    wp_step. by apply finishing_after.
  - intros e s' Hf. by apply (finishing_before p it it1) in Hf.
Qed.

(** Taking a delivered request out of the store. *)
Lemma wp_remove_request hs h id p it evs s s' :
  http_inv hs s -> h ∈ hs -> (id, p) ∈ hc_store s -> hc_items s !! p = Some it -> hi_handle it = h ->
  finishing p it evs s s' ->
  wp (remove_request id) (fun _ s2 =>
    http_inv (filter (fun h' => h' <> h) hs) s2
    /\ hc_store s2 = map_erase id (hc_store s) /\ hc_items s2 = delete p (hc_items s)
    /\ hc_trace s2 = hc_trace s ++ evs /\ hc_next s2 = hc_next s
    /\ hc_engine s2 = hc_engine s /\ ticketId s2 = ticketId s) (fun _ _ => False) s'.
Proof.
  intros Hinv Hh Hst Hit Hhit (Hn & He & Hs & Heng & Ht & Hal & Htr & it' & Hi & Hh').
  unfold remove_request. repeat wp_step. unfold store_findByID, store_removeByID. rewrite Hs.
  assert (map_find id (hc_store s) = Some p) as ->
    by (apply map_find_Some_elem; [by eapply inv_store|done]).
  unfold delete_item. wp_step. eapply (wp_get_http_item p it'); [cbn; by rewrite Hi, lookup_insert_eq|].
  repeat wp_step. cbn. rewrite Hi, delete_insert_eq. split_and!; [|done..].
  assert (Her : forall id' p', (id', p') ∈ map_erase id (hc_store s) <-> id' <> id /\ (id', p') ∈ hc_store s)
    by (intros; apply map_erase_elem_iff; by eapply inv_store).
  assert (Hne : forall id' p', id' <> id -> (id', p') ∈ hc_store s -> p' <> p).
  { intros id' p' Hne Hin ->. apply Hne. by eapply stored_unique. }
  pose proof Hinv as [].
  split; cbn; rewrite ?Heng, ?Hal, ?Ht, ?Hn, ?He, ?Hh', ?Hhit; try done.
  - by apply map_erase_wf.
  - intros id' p' [Hd Hin]%Her. destruct (inv_items0 _ _ Hin) as (i & r & cb & H1 & H2 & H3 & H4 & H5).
    exists i, r, cb. pose proof (Hne _ _ Hd Hin). unfold waiting. cbn.
    rewrite ?He, ?Hi, ?delete_insert_eq, ?Hh', ?Hhit.
    split_and!; [by rewrite lookup_delete_ne|done..|]. rewrite lookup_delete_ne; [done|]. intros Heq.
    destruct (inv_items0 _ _ Hst) as (i2 & r2 & cb2 & H1' & _ & _ & _ & H5'). congruence.
  - intros h' p' [Hne' Hp']%lookup_delete_Some. destruct (inv_easy0 _ _ Hp') as (id' & i & Hin & H1 & H2).
    assert (p' <> p) as Hpne by congruence.
    exists id', i. rewrite Her, lookup_delete_ne by done. split_and!; [|done|done|done].
    intros ->. destruct (inv_items0 _ _ Hin) as (? & ? & ? & ? & ? & ? & _).
    apply Hpne. apply (map_find_Some_elem _ _ _ inv_store0) in Hin, Hst. congruence.
  - intros h'. rewrite list_elem_of_filter, inv_handles0, lookup_delete_is_Some. naive_solver.
  - by apply NoDup_filter.
  - intros id' p' [_ Hin]%Her. by eapply inv_ids0.
  - intros q i [Hq Hqi]%lookup_delete_Some. destruct (inv_heap0 _ _ Hqi) as (? & id' & Hin).
    split; [done|]. exists id'. rewrite Her. split; [|done]. intros ->.
    apply (map_find_Some_elem _ _ _ inv_store0) in Hin, Hst. congruence.
Qed.

(** What is left when a result has been delivered. *)
Definition delivered (hs : list Z) (id : Z) (p : nat) (evs : list http_event) s s' : Prop :=
  http_inv hs s' /\ hc_store s' = map_erase id (hc_store s) /\ hc_items s' = delete p (hc_items s)
  /\ hc_trace s' = hc_trace s ++ evs /\ hc_next s' = hc_next s
  /\ hc_engine s' = hc_engine s /\ ticketId s' = ticketId s.

Lemma wp_handleResult hs h id p it r cb rc status s :
  http_inv (h :: hs) s -> hc_easy s !! h = Some p -> (id, p) ∈ hc_store s -> waiting s id p it r cb ->
  let D := delivered hs id p (finish_events p rc status it r cb) s in
  wp (handleResult user_code h rc status) (fun _ => D)
    (fun e s' => (exists st, e = process_exit st) \/ D s') s.
Proof.
  intros Hinv Hp Hst (Hit & Hr & Hid & Hcb & He) D. unfold handleResult. repeat wp_step.
  rewrite (inv_alive _ _ Hinv). cbn [negb]. repeat wp_step. rewrite Hp.
  assert (Hh : hi_handle it = h).
  { destruct (inv_easy _ _ Hinv _ _ Hp) as (id' & it' & _ & Hit' & <-). congruence. }
  wp_step. eapply wp_get_http_item; [done|]. wp_step. eapply wp_lift_Ok; [by rewrite Hr|]. rewrite Hid.
  assert (Hhs : filter (fun h' => h' <> h) (h :: hs) = hs).
  { pose proof (inv_nodup _ _ Hinv) as [Hn _]%NoDup_cons. rewrite filter_cons_False by naive_solver.
    by apply filter_ne_id. }
  assert (Hrem : forall s', finishing p it (finish_events p rc status it r cb) s s' ->
    wp (remove_request id) (fun _ => D) (fun _ _ => False) s').
  { intros s' Hf. eapply wp_mono; [eapply (wp_remove_request (h :: hs) h); [done|left|done..]| |done].
    intros [] s2. by rewrite Hhs. }
  wp_step. pose proof (wp_finish p rc status it r cb s Hit Hr Hcb) as Hfin. cbv zeta in Hfin.
  unfold wp in Hfin |- * at 1. unfold try_catch.
  destruct (finish user_code p rc status s) as [[[]|e|w] s1]; [| |done].
  - eapply wp_mono; [by apply Hrem|done|done].
  - destruct e; try (by left; eexists);
      (pose proof (Hrem s1 Hfin) as Hr1; unfold wp in Hr1; unfold mbind, stm_bind;
       destruct (remove_request id s1) as [[[]| |] s2]; [by right|done..]).
Qed.

(** ** Sending *)
Lemma add_parameters_no_Undef ps sep d w : add_parameters ps sep d <> Undef w.
Proof.
  revert sep d. induction ps as [|[k v] ps IH]; intros sep d; cbn [add_parameters]; [done|].
  unfold urlEncode. repeat case_match; cbn; done || apply IH.
Qed.

Lemma destination_no_Undef (h : MessageHeader) w : is_Some (path h) -> destination conf h <> Undef w.
Proof.
  intros [p Hp]. unfold destination. rewrite Hp. cbn. repeat case_match; first [done|apply add_parameters_no_Undef].
Qed.

Lemma item_options_no_Undef p d r w :
  is_Some (restVerb (rq_header r)) -> is_Ok (request_payload r) -> Z.of_nat (String.length d) < npos ->
  item_options conf p d r <> Undef w.
Proof.
  intros [v Hv] [l Hl] Hd. unfold item_options. rewrite Hv, Hl.
  unfold createSafeDottedCurlUrl. rewrite safe_loop_spec by lia. cbn.
  unfold verb_options, authentication_options. by repeat case_match.
Qed.

Lemma wp_engine_add h s (Q : unit -> HttpConnection E -> Prop) (Ex : exn -> HttpConnection E -> Prop) :
  wp (eng_addRequest h) (fun a e => Q a (set_hc_engine e s)) (fun ex e => Ex ex (set_hc_engine e s)) (hc_engine s) ->
  wp (engine_add h) Q Ex s.
Proof. unfold wp, engine_add. by destruct (eng_addRequest h (hc_engine s)) as [[] ?]. Qed.

(** A new item, its transfer added to the driver. *)
Lemma wp_http_createRequestItem s d r cb easy :
  http_inv (eng_handles (hc_engine s)) s ->
  0 < rq_messageID r <= ticketId s -> (forall p, (rq_messageID r, p) ∉ hc_store s) ->
  is_Some (restVerb (rq_header r)) -> is_Ok (request_payload r) -> Z.of_nat (String.length d) < npos ->
  match easy with Some h => hc_easy s !! h = None | None => True end ->
  wp (http_createRequestItem conf user_code d r cb easy)
    (fun _ s' => http_inv (eng_handles (hc_engine s')) s'
       /\ hc_store s' = map_emplace (rq_messageID r) (hc_next s) (hc_store s)
       /\ hc_next s' = S (hc_next s) /\ hc_trace s' = hc_trace s /\ ticketId s' = ticketId s)
    (fun e s' => (exists st, e = process_exit st) \/ s' = s) s.
Proof.
  intros Hinv Hid Hnew Hv Hp Hd He. unfold http_createRequestItem. repeat wp_step.
  destruct easy as [h|]; [|by right]. eapply wp_lift_Ok; [done|]. wp_step.
  pose proof (item_options_no_Undef (hc_next s) d r) as Hu.
  unfold wp, lift at 1. destruct (item_options conf (hc_next s) d r) as [opts|e|w];
    [|by right|by destruct (Hu w)].
  match goal with |- match ?m ?s0 with _ => _ end => change (wp m
    (fun _ s' => http_inv (eng_handles (hc_engine s')) s'
       /\ hc_store s' = map_emplace (rq_messageID r) (hc_next s) (hc_store s)
       /\ hc_next s' = S (hc_next s) /\ hc_trace s' = hc_trace s /\ ticketId s' = ticketId s)
    (fun e s' => (exists st, e = process_exit st) \/ s' = s) s0) end.
  unfold put_http_item, store_add. repeat wp_step.
  eapply wp_lift_Ok; [cbn; by rewrite lookup_insert_eq|]. repeat wp_step. cbn.
  assert (Hfree : hc_items s !! hc_next s = None).
  { destruct (hc_items s !! hc_next s) eqn:E0; [|done]. apply (inv_heap _ _ Hinv) in E0 as [? _]. lia. }
  assert (Hnh : h ∉ eng_handles (hc_engine s)).
  { rewrite (inv_handles _ _ Hinv), He. by intros []. }
  apply wp_engine_add. cbn.
  eapply wp_mono; [apply eng_add_law; [apply Hinv|]|..].
  { intros Hin. apply Hnh. unfold eng_handles. apply elem_of_app. by right. }
  2: { intros e e' [st ->]. left. by eexists. }
  intros [] e' (Hok & Hact & Hcomp). cbn. split_and!; [|done..].
  assert (Hhs : eng_handles e' ≡ₚ h :: eng_handles (hc_engine s)).
  { unfold eng_handles. rewrite Hcomp, Hact. by rewrite <- Permutation_middle. }
  assert (Hel : forall id p, (id, p) ∈ map_emplace (rq_messageID r) (hc_next s) (hc_store s)
    <-> (id, p) = (rq_messageID r, hc_next s) \/ (id, p) ∈ hc_store s)
    by (intros; apply map_emplace_elem_iff; [by eapply inv_store|done]).
  pose proof Hinv as []. split; cbn; try done.
  - by apply map_emplace_wf.
  - intros id p [[= -> ->]|Hin]%Hel; unfold waiting; cbn.
    + eexists _, r, cb. split_and!; [by rewrite lookup_insert_eq|done..|]. cbn. by rewrite lookup_insert_eq.
    + destruct (inv_items0 _ _ Hin) as (i & r' & cb' & H1 & H2 & H3 & H4 & H5). exists i, r', cb'.
      rewrite !lookup_insert_ne; [done| |]; congruence.
  - intros h' p [[<- <-]|[Hne Hp']]%lookup_insert_Some.
    + eexists _, _. rewrite Hel, lookup_insert_eq. split_and!; [by left|done|done].
    + destruct (inv_easy0 _ _ Hp') as (id & i & Hin & H1 & H2). exists id, i. rewrite Hel.
      split_and!; [by right| |done]. rewrite lookup_insert_ne; [done|]. congruence.
  - intros h'. rewrite Hhs, elem_of_cons, inv_handles0, lookup_insert_is_Some. destruct (decide (h = h')); naive_solver.
  - rewrite Hhs. by apply NoDup_cons.
  - intros id p [[= -> ->]|Hin]%Hel; [lia|by eapply inv_ids0].
  - intros p i [[<- <-]|[Hne Hi]]%lookup_insert_Some.
    + split; [lia|]. eexists. apply Hel. by left.
    + destruct (inv_heap0 _ _ Hi) as (? & id & ?). split; [lia|]. exists id. apply Hel. by right.
Qed.

(** ** Runs *)

(** The program goes on after a return and after an exception, but not after
    [exit]. *)
Definition goes_on {A} (r : res A) : Prop :=
  match r with Ok _ => True | Throw (process_exit _) => False | Throw _ => True | Undef _ => False end.
Definition is_send (a : http_action E) : bool := match a with Send _ _ _ => true | _ => false end.

(** [acc] lists the requests accepted so far: their ids and items. *)
Inductive http_reaches : list (Z * nat) -> HttpConnection E -> Prop :=
| reaches_new ticket e :
    0 <= ticket < 2 ^ 64 -> eng_ok e -> eng_handles e = [] -> http_reaches [] (new_HttpConnection ticket e)
| reaches_send acc s request cb easy r s' :
    http_reaches acc s -> http_enabled conf (Send request cb easy) s ->
    http_sendRequest conf user_code request cb easy s = (r, s') -> goes_on r ->
    http_reaches (match r with Ok id => (id, hc_next s) :: acc | _ => acc end) s'
| reaches_step acc s a r s' :
    http_reaches acc s -> http_enabled conf a s -> is_send a = false ->
    http_execute conf user_code a s = (r, s') -> goes_on r -> http_reaches acc s'.

(** Accepted requests are stored and not called back, or called back once. *)
Record history (acc : list (Z * nat)) s : Prop := {
  hist_stored : forall id p, (id, p) ∈ hc_store s -> (id, p) ∈ acc;
  hist_calls : forall id p, (id, p) ∈ acc ->
    (((id, p) ∈ hc_store s) /\ call_count p (hc_trace s) = 0%nat)
    \/ (((id, p) ∉ hc_store s) /\ call_count p (hc_trace s) = 1%nat);
  hist_ids : NoDup acc.*1;
  hist_items : NoDup acc.*2;
  hist_bound : forall id p, (id, p) ∈ acc -> 0 < id <= ticketId s /\ (p < hc_next s)%nat;
  hist_fresh : forall p, (hc_next s <= p)%nat -> call_count p (hc_trace s) = 0%nat;
}.
Definition http_good acc s : Prop := http_inv (eng_handles (hc_engine s)) s /\ history acc s.
Definition exit_or (P : HttpConnection E -> Prop) (e : exn) s : Prop := (exists st, e = process_exit st) \/ P s.

Lemma http_inv_ticket hs s t :
  ticketId s <= t < 2 ^ 64 -> http_inv hs s -> http_inv hs (set_ticketId t s).
Proof.
  intros Ht Hi. pose proof Hi as []. split; cbn; try done.
  - intros id p Hin. apply inv_ids0 in Hin. lia.
  - lia.
Qed.
Lemma history_ticket acc s t : ticketId s <= t -> history acc s -> history acc (set_ticketId t s).
Proof.
  intros Ht []. split; cbn; try done. intros id p Hin. apply hist_bound0 in Hin as [? ?]. split; [lia|done].
Qed.

Lemma http_inv_engine hs hs' s e :
  eng_ok e -> hs' ≡ₚ hs -> http_inv hs s -> http_inv hs' (set_hc_engine e s).
Proof.
  intros He Hp []. split; cbn; try done; [|by rewrite Hp].
  intros h. by rewrite Hp.
Qed.
Lemma history_engine acc s e : history acc s -> history acc (set_hc_engine e s).
Proof. intros []. by split. Qed.

(** An item changes, but not its request, callback and handle. *)
Lemma http_good_item acc s p it it' :
  http_good acc s -> hc_items s !! p = Some it -> hi_request it' = hi_request it ->
  hi_callback it' = hi_callback it -> hi_handle it' = hi_handle it ->
  http_good acc (set_hc_items (<[p := it']> (hc_items s)) s).
Proof.
  intros [Hi []] Hp Hr Hc Hh. split; [|by split]. pose proof Hi as []. split; cbn; try done.
  - intros id q Hin. destruct (inv_items0 _ _ Hin) as (i & r & cb & H1 & H2 & H3 & H4 & H5).
    destruct (decide (q = p)) as [->|Hne].
    + assert (i = it) as -> by congruence. exists it', r, cb. unfold waiting. cbn.
      rewrite lookup_insert_eq. by rewrite Hr, Hc, Hh.
    + exists i, r, cb. unfold waiting. cbn. by rewrite lookup_insert_ne.
  - intros h q Hq. destruct (inv_easy0 _ _ Hq) as (id & i & Hin & H1 & H2). exists id.
    destruct (decide (q = p)) as [->|Hne].
    + exists it'. rewrite lookup_insert_eq. split_and!; [done..|]. congruence.
    + exists i. by rewrite lookup_insert_ne.
  - intros q i [[<- <-]|[Hne Hq]]%lookup_insert_Some; by eapply inv_heap0.
Qed.

Lemma wp_on_item acc s h (f : nat -> M Z) :
  http_good acc s -> h ∈ eng_active (hc_engine s) ->
  (forall p it, hc_items s !! p = Some it -> wp (f p) (fun _ => http_good acc) (fun _ _ => False) s) ->
  wp (on_item h f) (fun _ => http_good acc) (exit_or (http_good acc)) s.
Proof.
  intros [Hi Hh] Hact Hf. unfold on_item. repeat wp_step.
  assert (is_Some (hc_easy s !! h)) as [p Hp].
  { apply (inv_handles _ _ Hi). unfold eng_handles. apply elem_of_app. by right. }
  rewrite Hp. destruct (inv_easy _ _ Hi _ _ Hp) as (id & it & _ & Hit & _).
  wp_step. eapply wp_mono; [by eapply Hf|intros ???; by wp_step|done].
Qed.

Lemma wp_http_sendRequest acc s request cb easy :
  http_good acc s -> http_enabled conf (Send request cb easy) s ->
  wp (http_sendRequest conf user_code request cb easy)
    (fun id => http_good ((id, hc_next s) :: acc)) (exit_or (http_good acc)) s.
Proof.
  intros [Hi Hh] ((Hpath & Hverb & Hpay & Hlen) & Ht & He). unfold http_sendRequest. wp_step.
  pose proof (destination_no_Undef (rq_header request)) as Hu. unfold wp at 1, lift.
  destruct (destination conf (rq_header request)) as [d|e|w]; [|by right|by destruct (Hu w)].
  unfold queueRequest. repeat wp_step. cbn.
  pose proof (inv_ticket _ _ Hi). rewrite u64_id by lia. remember (ticketId s + 1) as id eqn:Hid.
  set (s1 := set_ticketId id s).
  assert (Hi1 : http_inv (eng_handles (hc_engine s1)) s1) by (apply http_inv_ticket; [lia|done]).
  eapply wp_mono; [apply (wp_http_createRequestItem s1); try done|..].
  - cbn. lia.
  - intros p Hin. apply (inv_ids _ _ Hi) in Hin. cbn in Hin. lia.
  - by apply Hlen.
  - intros [] s' (Hi' & Hs' & Hn' & Htr & Htk). wp_step. split; [done|].
    assert (Hel : forall id' p, (id', p) ∈ hc_store s' <-> (id', p) = (id, hc_next s) \/ (id', p) ∈ hc_store s).
    { intros. rewrite Hs'. apply map_emplace_elem_iff; [by eapply (inv_store _ _ Hi)|].
      intros p' Hin. apply (inv_ids _ _ Hi) in Hin. cbn in Hin. lia. }
    pose proof Hh as []. split; rewrite ?Htr, ?Htk, ?Hn'; cbn.
    + intros id' p [[= -> ->]|Hin]%Hel; [left|right; by apply hist_stored0].
    + intros id' p [[= -> ->]|Hin]%elem_of_cons.
      * left. rewrite Hel. split; [by left|]. by apply hist_fresh0.
      * destruct (hist_bound0 _ _ Hin). rewrite Hel.
        destruct (hist_calls0 _ _ Hin) as [[? ?]|[? ?]]; [left|right]; (split; [|done]); [by right|].
        intros [[= -> ->]|?]; [lia|done].
    + apply NoDup_cons. split; [|done]. intros ([id' p] & Heq & Hin)%list_elem_of_fmap.
      cbn in Heq. apply hist_bound0 in Hin. lia.
    + apply NoDup_cons. split; [|done]. intros ([id' p] & Heq & Hin)%list_elem_of_fmap.
      cbn in Heq. apply hist_bound0 in Hin. lia.
    + intros id' p [[= -> ->]|Hin]%elem_of_cons; [lia|]. apply hist_bound0 in Hin. lia.
    + intros p Hp. apply hist_fresh0. lia.
  - intros e s' [?| ->]; [by left|right]. split; [done|]. apply history_ticket; [lia|done].
Qed.

Lemma http_good_delivered acc hs id p rc status it r cb s s' :
  history acc s -> http_inv hs s' -> map_wf (hc_store s) -> (id, p) ∈ hc_store s ->
  (forall id' p', (id', p') ∈ hc_store s -> p' = p -> id' = id) ->
  hc_store s' = map_erase id (hc_store s) ->
  hc_trace s' = hc_trace s ++ finish_events p rc status it r cb -> hc_next s' = hc_next s ->
  ticketId s' = ticketId s -> history acc s'.
Proof.
  intros [] Hi Hwf Hst Huniq Hs' Htr Hn Htk.
  assert (Hel : forall id' p', (id', p') ∈ hc_store s' <-> id' <> id /\ (id', p') ∈ hc_store s)
    by (intros; rewrite Hs'; by apply map_erase_elem_iff).
  assert (Hp : forall id' q, (id', q) ∈ acc -> q = p -> id' = id).
  { intros id' q Hin ->. pose proof (hist_stored0 _ _ Hst) as Hin2.
    apply list_elem_of_lookup in Hin as [i Hin], Hin2 as [j Hin2].
    assert (i = j) as ->.
    { eapply NoDup_lookup; [exact hist_items0|rewrite list_lookup_fmap, Hin; done|].
      by rewrite list_lookup_fmap, Hin2. }
    congruence. }
  split; rewrite ?Htr, ?Hn, ?Htk; try done.
  - intros id' p' [_ Hin]%Hel. by apply hist_stored0.
  - intros id' q Hin. rewrite Hel, call_count_app, finish_events_count.
    destruct (hist_calls0 _ _ Hin) as [[Hq Hc]|[Hq Hc]]; destruct (decide (q = p)) as [->|Hne]; rewrite Hc.
    + right. pose proof (Hp _ _ Hin eq_refl) as ->. split; [naive_solver|done].
    + left. split; [|done]. split; [|done]. intros ->.
      apply Hne. apply (map_find_Some_elem _ _ _ Hwf) in Hst, Hq. congruence.
    + exfalso. pose proof (Hp _ _ Hin eq_refl) as ->. done.
    + right. split; [naive_solver|done].
  - intros q Hq. rewrite call_count_app, finish_events_count, hist_fresh0 by done.
    apply hist_stored0, hist_bound0 in Hst. by rewrite decide_False by lia.
Qed.

Lemma wp_http_execute acc s a :
  http_good acc s -> http_enabled conf a s -> is_send a = false ->
  wp (http_execute conf user_code a) (fun _ => http_good acc) (exit_or (http_good acc)) s.
Proof.
  intros Hgood Ha Hns. pose proof Hgood as [Hi Hh]. destruct a as [| | |h rc status e|e|]; cbn [http_execute http_enabled] in *; [done|..].
  - destruct Ha as [Ha [ent Hent]]. apply wp_on_item; [done..|]. intros p it Hp. unfold readHeaders.
    wp_step. eapply wp_get_http_item; [done|]. wp_step. unfold add_header. rewrite Hent, bind_ret_l.
    eapply wp_lift_Ok; [done|]. unfold put_http_item. repeat wp_step. by eapply http_good_item.
  - apply wp_on_item; [done..|]. intros p it Hp. unfold readBody. wp_step.
    eapply wp_get_http_item; [done|]. unfold put_http_item. repeat wp_step. by eapply http_good_item.
  - destruct (eng_deliver_handles h rc _ _ (inv_engine _ _ Hi) Ha) as [He Hhs].
    assert (Hi' : http_inv (h :: eng_handles e) (set_hc_engine e s))
      by (apply (http_inv_engine (eng_handles (hc_engine s))); [done|by rewrite Hhs|done]).
    assert (is_Some (hc_easy s !! h)) as [p Hp] by (apply (inv_handles _ _ Hi); rewrite Hhs; left).
    destruct (inv_easy _ _ Hi _ _ Hp) as (id & it & Hst & _).
    destruct (inv_items _ _ Hi' _ _ Hst) as (it' & r & cb & Hw).
    assert (Hfin : forall s', delivered (eng_handles e) id p (finish_events p rc status it' r cb) (set_hc_engine e s) s' ->
      http_good acc s').
    { intros s' (Hi2 & Hs2 & _ & Htr & Hn & Heng & Htk). split; [by rewrite Heng|].
      apply (http_good_delivered acc (eng_handles e) id p rc status it' r cb (set_hc_engine e s));
        [by apply history_engine|done|exact (inv_store _ _ Hi)|done| |done..].
      intros id' p' Hin ->. by eapply (stored_unique _ s). }
    repeat wp_step. eapply wp_mono; [by eapply wp_handleResult|..].
    + intros [] s'. apply Hfin.
    + intros x s' [?|?]; [by left|right; by apply Hfin].
  - destruct (eng_step_handles _ _ (inv_engine _ _ Hi) Ha) as [He Hhs]. wp_step.
    split; [by eapply http_inv_engine|by apply history_engine].
  - wp_step. pose proof (inv_ticket _ _ Hi). rewrite u64_id by lia.
    split; [apply http_inv_ticket; [lia|done]|apply history_ticket; [lia|done]].
Qed.

Lemma http_reaches_good acc s : http_reaches acc s -> http_good acc s.
Proof.
  induction 1 as [ticket e Ht He Hhs|acc s request cb easy r s' _ IH Ha Hex Hgo|acc s a r s' _ IH Ha Hns Hex Hgo].
  - split.
    + cbn. rewrite Hhs. split; cbn; try done; try (by intros ?? ?%not_elem_of_nil); try apply NoDup_nil_2.
      * intros h. rewrite lookup_empty. split; [by intros ?%not_elem_of_nil|by intros []].
    + split; cbn; try done; try (by intros ?? ?%not_elem_of_nil); apply NoDup_nil_2.
  - pose proof (wp_http_sendRequest acc s request cb easy IH Ha) as Hw. unfold wp in Hw. rewrite Hex in Hw.
    destruct r as [|e|]; [done| |done]. destruct Hw as [[st ->]|?]; [by destruct Hgo|done].
  - pose proof (wp_http_execute acc s a IH Ha Hns) as Hw. unfold wp in Hw. rewrite Hex in Hw.
    destruct r as [|e|]; [done| |done]. destruct Hw as [[st ->]|?]; [by destruct Hgo|done].
Qed.

(** ** Destroying the connection *)
Section Destroy.
(** A callback that throws in a destructor ends the program. *)
Context (user_returns : forall call, user_code call = Ok ()).

Lemma wp_http_invoke_returns e p it r cb s :
  hc_items s !! p = Some it -> hi_request it = Some r -> hi_callback it = MkCallOnce false (Some cb) ->
  wp (http_invoke user_code e None p) (fun _ => finishing p it [EvHttpCallback p (MkEvent cb e (Some r) None)] s)
    (fun _ _ => False) s.
Proof.
  intros Hp Hr Hc. unfold http_invoke. wp_step. eapply wp_get_http_item; [done|].
  rewrite Hr, Hc. unfold invoke. cbn [_invoked _cb]. wp_step.
  eapply wp_lift_Ok; [done|]. unfold put_http_item, http_log. repeat wp_step. cbn [for_each]. repeat wp_step.
  eapply wp_lift_Ok; [apply user_returns|]. wp_step. repeat split. by eexists.
Qed.

Definition cancellable s (p : nat) : Prop :=
  exists it r cb, hc_items s !! p = Some it /\ hi_request it = Some r /\ hi_callback it = MkCallOnce false (Some cb).

Lemma wp_cancel_loop code (l : list (Z * nat)) s :
  NoDup l.*2 -> (forall p, p ∈ l.*2 -> cancellable s p) ->
  wp (for_each (fun kv => http_invoke user_code code None kv.2) l)
    (fun _ s' =>
       (forall p, call_count p (hc_trace s') = (call_count p (hc_trace s) + if decide (p ∈ l.*2) then 1 else 0)%nat)
       /\ (forall p, is_Some (hc_items s !! p) -> is_Some (hc_items s' !! p))
       /\ hc_engine s' = hc_engine s)
    (fun _ _ => False) s.
Proof.
  revert s. induction l as [|[id p] l IH]; intros s Hnd Hc; cbn [for_each].
  { wp_step. split_and!; [intros; rewrite decide_False; [lia|apply not_elem_of_nil]|done|done]. }
  apply NoDup_cons in Hnd as [Hp Hnd]. cbn [snd].
  destruct (Hc p ltac:(left)) as (it & r & cb & Hit & Hr & Hcb).
  wp_step. eapply wp_mono; [by apply (wp_http_invoke_returns code p it r cb)| |done].
  intros [] s1 (_ & _ & _ & Heng & _ & _ & Htr & it' & Hi & _).
  eapply wp_mono; [apply (IH s1 Hnd)| |done].
  - intros q Hq. destruct (Hc q ltac:(by right)) as (i & r' & cb' & H1 & H2 & H3). exists i, r', cb'.
    rewrite Hi, lookup_insert_ne; [done|]. intros <-. done.
  - intros [] s2 (Hn & Hi2 & Heng2). split_and!; [|intros q [i Hq]|congruence].
    + intros q. rewrite Hn, Htr, call_count_app, call_count_callback. cbn [snd fmap list_fmap].
      destruct (decide (q = p)) as [->|Hne].
      * rewrite (decide_False (P := p ∈ l.*2)) by done. rewrite decide_True by left. lia.
      * destruct (decide (q ∈ l.*2)) as [Hq|Hq].
        -- rewrite decide_True by (by right). lia.
        -- rewrite decide_False; [lia|]. intros [->|?]%elem_of_cons; done.
    + apply Hi2. rewrite Hi. destruct (decide (q = p)) as [->|]; [by rewrite lookup_insert_eq|].
      rewrite lookup_insert_ne by done. by eexists.
Qed.

Lemma wp_delete_item p it s (Q : unit -> HttpConnection E -> Prop) Ex :
  hc_items s !! p = Some it ->
  Q () (set_hc_items (delete p (hc_items s)) (set_hc_easy (delete (hi_handle it) (hc_easy s)) s)) ->
  wp (delete_item p) Q Ex s.
Proof. intros Hp HQ. unfold delete_item. wp_step. eapply wp_get_http_item; [done|]. by repeat wp_step. Qed.

Lemma wp_delete_loop (l : list (Z * nat)) s :
  NoDup l.*2 -> (forall p, p ∈ l.*2 -> is_Some (hc_items s !! p)) ->
  wp (for_each (fun kv => delete_item kv.2) l)
    (fun _ s' => hc_trace s' = hc_trace s /\ hc_engine s' = hc_engine s) (fun _ _ => False) s.
Proof.
  revert s. induction l as [|[id p] l IH]; intros s Hnd Hc; cbn [for_each]; [by wp_step|].
  apply NoDup_cons in Hnd as [Hp Hnd]. destruct (Hc p ltac:(left)) as [it Hit]. cbn [snd].
  wp_step. eapply wp_delete_item; [done|].
  eapply wp_mono; [apply (IH _ Hnd)|done|done].
  intros q Hq. cbn. rewrite lookup_delete_ne; [apply Hc; by right|]. intros <-. done.
Qed.

Lemma stored_pointers hs s : http_inv hs s -> NoDup (hc_store s).*2.
Proof.
  intros Hi. assert (NoDup (hc_store s)) as Hnd.
  { eapply (NoDup_fmap_1 fst). by apply map_wf_NoDup, (inv_store _ _ Hi). }
  apply NoDup_fmap_2_strong; [|done]. intros [id p] [id' p'] H1 H2 Heq. cbn in Heq. subst p'.
  f_equal. by eapply stored_unique.
Qed.
End Destroy.

(** ** Properties *)

(** C7: no HTTP request is lost and none is answered twice.  At any time every
    accepted request either is in the store, not called back, and its transfer
    is under way or completed but not delivered; or its callback has been called
    exactly once.  Ids are unique, and nothing that can happen next (with header
    lines the code can read) runs into undefined behaviour. *)
Theorem http_no_request_lost (acc : list (Z * nat)) (s : HttpConnection E) :
  http_reaches acc s ->
  NoDup acc.*1
  /\ (forall id p, (id, p) ∈ acc ->
        (call_count p (hc_trace s) = 1%nat /\ (id, p) ∉ hc_store s)
        \/ (call_count p (hc_trace s) = 0%nat /\ (id, p) ∈ hc_store s
            /\ exists it, hc_items s !! p = Some it
                 /\ (hi_handle it ∈ eng_active (hc_engine s) \/ hi_handle it ∈ (eng_completed (hc_engine s)).*1)))
  /\ (forall a w, http_enabled conf a s -> (http_execute conf user_code a s).1 <> Undef w).
Proof.
  intros [Hi Hh]%http_reaches_good. split_and!.
  - apply Hh.
  - intros id p Hin. destruct (hist_calls _ _ Hh _ _ Hin) as [[Hst Hc]|[Hst Hc]]; [right|by left].
    split_and!; [done..|]. destruct (inv_items _ _ Hi _ _ Hst) as (it & r & cb & Hit & _ & _ & _ & He).
    exists it. split; [done|]. assert (hi_handle it ∈ eng_handles (hc_engine s)) as Hel
      by (apply (inv_handles _ _ Hi); by eexists).
    apply elem_of_app in Hel. tauto.
  - intros a w Ha. destruct (is_send a) eqn:Ea.
    + destruct a as [request cb easy| | | | |]; try done. cbn [http_execute].
      pose proof (wp_http_sendRequest acc s request cb easy (conj Hi Hh) Ha) as Hw.
      unfold wp in Hw. unfold mbind, stm_bind.
      destruct (http_sendRequest conf user_code request cb easy s) as [[]]; done.
    + pose proof (wp_http_execute acc s a (conj Hi Hh) Ha Ea) as Hw. unfold wp in Hw.
      by destruct (http_execute conf user_code a s) as [[]].
Qed.

(** C13: [handleResult] answers the request of the transfer: the connection's
    failure callback is told of connection failures, the callback gets the error
    of libcurl's result, or no error and the response, together with its request;
    then the request leaves the store and its item is deleted, also when the
    callback throws, unless the program ends. *)
Theorem handleResult_outcome (acc : list (Z * nat)) (s : HttpConnection E) (h : Z) (rc : CURLcode) (status : Z) (e : E) :
  http_reaches acc s -> eng_deliver h rc (hc_engine s) e ->
  exists id p it r cb o s', ((id, p) ∈ hc_store s) /\ waiting s id p it r cb
    /\ handleResult user_code h rc status (set_hc_engine e s) = (o, s')
    /\ ((exists st, o = Throw (process_exit st))
        \/ (hc_trace s' = hc_trace s ++ finish_events p rc status it r cb
            /\ hc_store s' = map_erase id (hc_store s) /\ hc_items s' = delete p (hc_items s))).
Proof.
  intros [Hi Hh]%http_reaches_good Hd.
  destruct (eng_deliver_handles h rc _ _ (inv_engine _ _ Hi) Hd) as [He Hhs].
  assert (Hi' : http_inv (h :: eng_handles e) (set_hc_engine e s))
    by (apply (http_inv_engine (eng_handles (hc_engine s))); [done|by rewrite Hhs|done]).
  assert (is_Some (hc_easy s !! h)) as [p Hp] by (apply (inv_handles _ _ Hi); rewrite Hhs; left).
  destruct (inv_easy _ _ Hi _ _ Hp) as (id & it & Hst & _).
  destruct (inv_items _ _ Hi' _ _ Hst) as (it' & r & cb & Hw).
  pose proof (wp_handleResult _ h id p it' r cb rc status _ Hi' Hp Hst Hw) as Hr.
  destruct (handleResult user_code h rc status (set_hc_engine e s)) as [o s'] eqn:Ho.
  exists id, p, it', r, cb, o, s'. split_and!; [done..|]. cbv zeta in Hr. unfold wp in Hr. rewrite Ho in Hr.
  destruct o as [[]|x|w]; [right| |done].
  - by destruct Hr as (_ & ? & ? & ? & _).
  - destruct Hr as [[st ->]|(_ & ? & ? & ? & _)]; [left; by eexists|by right].
Qed.

(** C40: destroying a connection answers every request in flight exactly once,
    when the callbacks return.  But a transfer whose completion has been posted
    to the io service and not been delivered is then delivered to the destroyed
    connection. *)
Theorem destroyed_while_posted (acc : list (Z * nat)) (s : HttpConnection E) (h : Z) (rc : CURLcode) (status : Z) (e : E) :
  (forall call, user_code call = Ok ()) ->
  http_reaches acc s -> eng_deliver h rc (hc_engine s) e ->
  exists s', destroy_HttpConnection user_code s = (Ok (), s') /\ hc_store s' = []
    /\ (forall id p, (id, p) ∈ acc -> call_count p (hc_trace s') = 1%nat)
    /\ eng_deliver h rc (hc_engine s') e
    /\ (handleResult user_code h rc status (set_hc_engine e s')).1 = Undef "use of a destroyed connection".
Proof.
  intros Hret [Hi Hh]%http_reaches_good Hd.
  pose proof (stored_pointers _ _ Hi) as Hnd.
  enough (wp (destroy_HttpConnection user_code) (fun _ s' => hc_store s' = []
    /\ (forall id p, (id, p) ∈ acc -> call_count p (hc_trace s') = 1%nat)
    /\ hc_engine s' = hc_engine s /\ hc_alive s' = false) (fun _ _ => False) s) as Hw.
  { apply wp_outcome in Hw as [([] & s' & He & Hst & Hc & Heng & Hal)|(? & ? & _ & [])].
    exists s'. rewrite Heng. split_and!; [done..|]. unfold handleResult, mbind, stm_bind, reads. cbn. by rewrite Hal. }
  unfold destroy_HttpConnection, store_cancelAll. repeat wp_step.
  assert (Hcan : forall p, p ∈ (hc_store s).*2 -> cancellable s p /\ is_Some (hc_items s !! p)).
  { intros p ([id q] & -> & Hin)%list_elem_of_fmap.
    destruct (inv_items _ _ Hi _ _ Hin) as (it & r & cb & H1 & H2 & _ & H3 & _).
    split; [by exists it, r, cb|by eexists]. }
  eapply wp_mono; [apply (wp_cancel_loop Hret (errorToInt CanceledDuringReset) (hc_store s) s Hnd); by intros ? [? _]%Hcan| |done].
  intros [] s1 (Hn & Hi1 & Heng1). repeat wp_step.
  eapply wp_mono; [apply (wp_delete_loop (hc_store s) s1 Hnd); intros p [_ Hp]%Hcan; by apply Hi1| |done].
  intros [] s2 [Htr Heng2]. repeat wp_step.
  cbn [hc_store hc_trace hc_engine hc_alive set_hc_alive set_hc_store]. split_and!; [done| |congruence|done].
  intros id p Hin. rewrite Htr, Hn. destruct (hist_calls _ _ Hh _ _ Hin) as [[Hst Hc]|[Hst Hc]].
  - rewrite decide_True; [lia|]. apply list_elem_of_fmap. by exists (id, p).
  - rewrite decide_False; [lia|]. intros ([id' q] & Heq & Hq)%list_elem_of_fmap. cbn in Heq. subst q.
    pose proof (hist_stored _ _ Hh _ _ Hq) as Hin'.
    apply list_elem_of_lookup in Hin as [i Hin2], Hin' as [j Hin'].
    assert (i = j) as ->.
    { apply (NoDup_lookup acc.*2 _ _ p); [apply Hh|by rewrite list_lookup_fmap, Hin2|by rewrite list_lookup_fmap, Hin']. }
    rewrite Hin2 in Hin'. by injection Hin' as ->.
Qed.
End Properties.
