(* ===== verification/HttpRequest.v ===== *)
(** * What HTTP requests and responses become

    - [http_method]: which method and body libcurl sends for a request, given
      how it reads the options set by [createRequestItem];
    - [response_of_http]: the [Response] made of the collected headers and body;
    - witnesses of the properties of the HTTP connection, run with the driver
      CurlMultiAsio.v over the small libcurl of ToyCurl.v. *)
From S2P Require Import Prelude StdMap StdString Types VPack ToyVPack Message RequestItem MessageStore Url HttpUrl Curl ToyCurl TransferEngine CurlMultiAsio HttpConnection HttpProperties.
Local Open Scope Z_scope.

(** ** The method of a request *)

(** libcurl's reading of the options: CURLOPT_CUSTOMREQUEST replaces the method;
    otherwise CURLOPT_POST and CURLOPT_COPYPOSTFIELDS make it a POST, and GET is
    the default. *)
Class CurlMethod : Type := curl_method : list curl_option -> string.
Class CurlMethodLaws `{CurlMethod} : Prop := {
  method_custom : forall l v, OPT_CUSTOMREQUEST v ∈ l ->
    (forall v', OPT_CUSTOMREQUEST v' ∈ l -> v' = v) -> curl_method l = v;
  method_post : forall l, (forall v, OPT_CUSTOMREQUEST v ∉ l) ->
    OPT_POST 1 ∈ l \/ (exists data, OPT_COPYPOSTFIELDS data ∈ l) -> curl_method l = "POST";
  method_get : forall l, (forall v, OPT_CUSTOMREQUEST v ∉ l) ->
    (forall n, OPT_POST n ∉ l) -> (forall data, OPT_COPYPOSTFIELDS data ∉ l) -> curl_method l = "GET";
}.

(** A concrete reading. *)
Definition simple_custom (o : curl_option) : option string :=
  match o with OPT_CUSTOMREQUEST v => Some v | _ => None end.
Definition simple_post (o : curl_option) : bool :=
  match o with OPT_POST n => n =? 1 | OPT_COPYPOSTFIELDS _ => true | _ => false end.
#[export] Instance simple_method : CurlMethod := fun l =>
  match last (omap simple_custom l) with
  | Some v => v
  | None => if existsb simple_post l then "POST" else "GET"
  end.
#[export] Instance simple_method_laws : CurlMethodLaws.
Proof.
  assert (Hno : forall l, (forall v, OPT_CUSTOMREQUEST v ∉ l) -> last (omap simple_custom l) = None).
  { intros l Hl. destruct (last _) as [v|] eqn:E; [|done]. exfalso. apply last_Some_elem_of in E.
    apply list_elem_of_omap in E as (o & Ho & Hv). destruct o; try done. by eapply Hl. }
  split; intros l.
  - intros v Hin Hu. unfold curl_method, simple_method.
    destruct (last _) as [v'|] eqn:E.
    + apply last_Some_elem_of in E. apply list_elem_of_omap in E as (o & Ho & Hv). destruct o; try done.
      injection Hv as ->. by apply Hu.
    + apply last_None in E. exfalso. eapply not_elem_of_nil. erewrite <- E.
      apply list_elem_of_omap. by exists (OPT_CUSTOMREQUEST v).
  - intros Hl Hp. unfold curl_method, simple_method. rewrite Hno by done.
    rewrite (proj2 (existsb_exists simple_post l)); [done|].
    destruct Hp as [Hp|[d Hp]]; eexists; (split; [by apply list_elem_of_In|done]).
  - intros Hl Hp Hd. unfold curl_method, simple_method. rewrite Hno by done.
    destruct (existsb simple_post l) eqn:E; [|done]. apply existsb_exists in E as (o & Ho & Hs).
    apply list_elem_of_In in Ho. destruct o; try done; exfalso; [by eapply Hp|by eapply Hd].
Qed.

Definition method_name (v : RestVerb) : string :=
  match v with
  | Delete => "DELETE" | Get => "GET" | Post => "POST" | Put => "PUT" | Head => "HEAD"
  | Patch => "PATCH" | Options => "OPTIONS" | Illegal | UnnamedVerb _ => ""
  end.

Section Request.
Context {VP : VPack} `{CurlMethodLaws}.
Context (conf : ConnectionConfiguration).

(** The parts of the options that matter for method and body. *)
Lemma item_options_parts p d r opts :
  item_options conf p d r = Ok opts ->
  exists url v payload vo ao, restVerb (rq_header r) = Some v /\ verb_options v = Ok vo
    /\ authentication_options conf = Ok ao /\ request_payload r = Ok payload
    /\ opts = [OPT_PRIVATE p; OPT_HTTPHEADER (request_headers (rq_header r)); OPT_HEADER 0; OPT_URL (c_str url);
       OPT_WRITEFUNCTION_readBody; OPT_WRITEDATA p; OPT_HEADERFUNCTION_readHeaders; OPT_HEADERDATA p;
       OPT_ERRORBUFFER p; OPT_SSL_VERIFYPEER 0; OPT_SSL_VERIFYHOST 0;
       OPT_TIMEOUT_MS (_timeout r); OPT_CONNECTTIMEOUT connectionTimeout] ++ vo ++ ao ++ payload_options payload.
Proof.
  unfold item_options. intros Ho. inv_ok. destruct (restVerb (rq_header r)) as [v|] eqn:Ev; [|done].
  cbn in *. simplify_eq. eexists x, _, _, _, _. split_and!; [done..|]. reflexivity.
Qed.

(** Options that choose no method. *)
Lemma verb_options_custom v vo w :
  verb_options v = Ok vo ->
  (OPT_CUSTOMREQUEST w ∈ vo <-> w = method_name v /\ v <> Get /\ v <> Post /\ http_verb v)
  /\ (forall n, OPT_POST n ∈ vo <-> v = Post /\ n = 1) /\ (forall d, OPT_COPYPOSTFIELDS d ∉ vo).
Proof.
  destruct v; cbn; intros [= <-]; split_and!; intros; rewrite ?elem_of_cons, ?elem_of_nil; naive_solver.
Qed.

Lemma authentication_options_plain ao :
  authentication_options conf = Ok ao ->
  (forall w, OPT_CUSTOMREQUEST w ∉ ao) /\ (forall n, OPT_POST n ∉ ao) /\ (forall d, OPT_COPYPOSTFIELDS d ∉ ao).
Proof.
  unfold authentication_options. destruct (_authenticationType conf); intros [= <-];
    split_and!; intros; rewrite ?elem_of_cons, ?elem_of_nil; naive_solver.
Qed.

Lemma payload_options_data payload :
  (forall w, OPT_CUSTOMREQUEST w ∉ payload_options payload)
  /\ (forall n, OPT_POST n ∉ payload_options payload)
  /\ (forall d, OPT_COPYPOSTFIELDS d ∈ payload_options payload <-> d = payload /\ payload <> []).
Proof.
  unfold payload_options. destruct payload as [|b l].
  - cbn. split_and!; intros; rewrite elem_of_nil; naive_solver.
  - rewrite (proj2 (Z.ltb_lt _ _)) by (cbn [length]; lia).
    split_and!; intros; rewrite !elem_of_cons, elem_of_nil; intuition congruence.
Qed.

(** The options of an item that matter for the method. *)
Lemma item_options_method p d r opts :
  item_options conf p d r = Ok opts ->
  exists v payload, restVerb (rq_header r) = Some v /\ request_payload r = Ok payload
    /\ (forall w, OPT_CUSTOMREQUEST w ∈ opts <-> w = method_name v /\ v <> Get /\ v <> Post /\ http_verb v)
    /\ (forall n, OPT_POST n ∈ opts <-> v = Post /\ n = 1)
    /\ (forall data, OPT_COPYPOSTFIELDS data ∈ opts <-> data = payload /\ payload <> [])
    /\ (OPT_SSL_VERIFYPEER 0 ∈ opts) /\ (OPT_SSL_VERIFYHOST 0 ∈ opts).
Proof.
  intros (url & v & payload & vo & ao & Hv & Hvo & Hao & Hp & ->)%item_options_parts.
  exists v, payload. split_and!; [done|done|..].
  - intros w. destruct (verb_options_custom v vo w Hvo) as (H1 & _). rewrite <- H1.
    destruct (authentication_options_plain ao Hao) as (H2 & _). destruct (payload_options_data payload) as (H3 & _).
    rewrite !elem_of_app, !elem_of_cons, elem_of_nil. naive_solver.
  - intros n. destruct (verb_options_custom v vo "" Hvo) as (_ & H1 & _). rewrite <- H1.
    destruct (authentication_options_plain ao Hao) as (_ & H2 & _). destruct (payload_options_data payload) as (_ & H3 & _).
    rewrite !elem_of_app, !elem_of_cons, elem_of_nil. naive_solver.
  - intros data. destruct (verb_options_custom v vo "" Hvo) as (_ & _ & H1).
    destruct (authentication_options_plain ao Hao) as (_ & _ & H2). destruct (payload_options_data payload) as (_ & _ & H3).
    rewrite <- H3. rewrite !elem_of_app, !elem_of_cons, elem_of_nil. naive_solver.
  - apply elem_of_app. left. rewrite !elem_of_cons. tauto.
  - apply elem_of_app. left. rewrite !elem_of_cons. tauto.
Qed.

(** The method of a request reaches the server.  For every HTTP method
    libcurl sends that method and the payload as the body; except that a GET
    request with a payload is sent as a POST.  A POST request without a payload
    is given neither a body nor its size, so that libcurl takes the body from
    the standard input; and certificates are never verified. *)
Theorem http_method (p : nat) (d : string) (r : Request) (opts : list curl_option) (v : RestVerb) (payload : list byte) :
  item_options conf p d r = Ok opts -> restVerb (rq_header r) = Some v -> http_verb v ->
  request_payload r = Ok payload ->
  (v <> Get \/ payload = [] -> curl_method opts = method_name v)
  /\ (v = Get -> payload <> [] -> curl_method opts = "POST")
  /\ (forall data, OPT_COPYPOSTFIELDS data ∈ opts <-> data = payload /\ payload <> [])
  /\ (OPT_SSL_VERIFYPEER 0 ∈ opts) /\ (OPT_SSL_VERIFYHOST 0 ∈ opts).
Proof.
  intros Ho Hv Hhttp Hp. destruct (item_options_method p d r opts Ho) as (v' & pay & Hv' & Hp' & Hc & Hpost & Hd & H1 & H2).
  assert (v' = v) as -> by congruence. assert (pay = payload) as -> by congruence.
  split_and!; [| |done..].
  - intros Hcase. destruct (decide (v = Get)) as [->|Hg]; [|destruct (decide (v = Post)) as [->|Hnp]].
    + destruct Hcase as [?| ->]; [done|]. apply method_get; [intros w|intros n|intros data];
        rewrite ?Hc, ?Hpost, ?Hd; naive_solver.
    + apply method_post; [intros w; rewrite Hc; naive_solver|left; by rewrite Hpost].
    + apply method_custom; [by rewrite Hc|intros w Hw; apply Hc in Hw; naive_solver].
  - intros -> Hne. apply method_post; [intros w; rewrite Hc; naive_solver|right; exists payload; by rewrite Hd].
Qed.

(** The response of a successful transfer carries the status, the id of its
    request, the received headers (with an empty content type when there was
    none) and the received body; without a body, [payload] reads a payload
    offset that was never set. *)
Theorem response_of_http (id status : Z) (it : HttpItem) :
  map_wf (hi_responseHeaders it) ->
  let resp := http_response id status it in
  rs_messageID resp = id /\ responseCode (rs_header resp) = Some (u32 status)
  /\ meta (rs_header resp) = Some (map_emplace fu_content_type_key "" (hi_responseHeaders it))
  /\ contentType (rs_header resp)
     = to_ContentType (default "" (map_find fu_content_type_key (hi_responseHeaders it)))
  /\ (hi_responseBody it <> [] -> response_payload resp = Ok (hi_responseBody it))
  /\ (hi_responseBody it = [] -> exists w, response_payload resp = Undef w).
Proof.
  intros Hwf resp. subst resp. unfold http_response, transformResult.
  destruct (hi_responseBody it) as [|b body] eqn:Eb; cbn; split_and!; try done.
  - unfold contentType, contentTypeString, metaByKey. cbn.
    rewrite !map_find_spec by (done || by apply map_emplace_wf). rewrite map_emplace_spec by done.
    destruct (to_gmap (hi_responseHeaders it) !! _) eqn:E0; [by rewrite E0|by rewrite lookup_insert_eq].
  - intros _. by eexists.
  - unfold contentType, contentTypeString, metaByKey. cbn.
    rewrite !map_find_spec by (done || by apply map_emplace_wf). rewrite map_emplace_spec by done.
    destruct (to_gmap (hi_responseHeaders it) !! _) eqn:E0; [by rewrite E0|by rewrite lookup_insert_eq].
  - intros _. unfold response_payload. cbn. rewrite drop_0, Z.leb_refl. f_equal. cbn. by rewrite firstn_all.
Qed.
End Request.

(** ** Witnesses *)
Definition ex_http_conf : ConnectionConfiguration := default_configuration.
Definition ex_user (_ : cb_event nat) : res unit := Ok ().
Lemma ex_user_ok : forall call w, ex_user call <> Undef w.
Proof. done. Qed.
Definition ex_http_request : Request :=
  new_Request (set_restVerb (Some Get) (set_path (Some "/_api/version") emptyHeader)) [].

(** A request is sent and started, its header and body arrive, and it completes. *)
Definition ex_http0 : HttpConnection CurlMultiAsio := new_HttpConnection 0 toy_start.
Definition ex_http1 := (http_sendRequest ex_http_conf ex_user ex_http_request 5 (Some 1) ex_http0).2.
Definition ex_engine2 := (execute (Handle 0 false) (hc_engine ex_http1)).2.
Definition ex_http2 := set_hc_engine ex_engine2 ex_http1.
Definition ex_line : string := "Content-Type: application/json" +:+ CRLF.
Definition ex_http3 := (http_execute ex_http_conf ex_user (Header 1 ex_line) ex_http2).2.
Definition ex_http4 := (http_execute ex_http_conf ex_user (Body 1 [Byte.x7b; Byte.x7d]) ex_http3).2.
Definition ex_engine5 := (execute (Handle 0 false) ex_engine2).2.
Definition ex_http5 := set_hc_engine ex_engine5 ex_http4.
Definition ex_engine6 := set_cm_pending (delete 0%nat (cm_pending ex_engine5)) ex_engine5.

Lemma ex_http1_reached : http_reaches ex_http_conf ex_user [(1, 0%nat)] ex_http1.
Proof.
  apply (reaches_send ex_http_conf ex_user [] ex_http0 ex_http_request 5 (Some 1) (Ok 1)).
  - apply reaches_new; [lia| |reflexivity]. split; [by apply mem_ok_new|].
    split_and!; try apply NoDup_nil_2. intros h Hh. by apply not_elem_of_nil in Hh.
  - split_and!; [|vm_compute; reflexivity..]. split_and!; [by eexists|by eexists|by eexists|].
    intros d [= <-]. vm_compute. reflexivity.
  - vm_compute. reflexivity.
  - done.
Qed.
Lemma ex_http5_reached : http_reaches ex_http_conf ex_user [(1, 0%nat)] ex_http5.
Proof.
  apply (reaches_step ex_http_conf ex_user _ ex_http4 (Engine ex_engine5) (Ok ())); [|..|done|reflexivity|done].
  2: { exists 0%nat. eexists _, false. split_and!; vm_compute; reflexivity. }
  apply (reaches_step ex_http_conf ex_user _ ex_http3 (Body 1 [Byte.x7b; Byte.x7d]) (Ok ())); [|..|done|vm_compute; reflexivity|done].
  2: { vm_compute. constructor. }
  apply (reaches_step ex_http_conf ex_user _ ex_http2 (Header 1 ex_line) (Ok ())); [|..|done|vm_compute; reflexivity|done].
  2: { split; [vm_compute; constructor|]. eexists. vm_compute. reflexivity. }
  apply (reaches_step ex_http_conf ex_user _ ex_http1 (Engine ex_engine2) (Ok ())); [|..|done|reflexivity|done].
  2: { exists 0%nat. eexists _, false. split_and!; vm_compute; reflexivity. }
  apply ex_http1_reached.
Qed.
Lemma ex_delivered : eng_deliver 1 CURLE_OK (hc_engine ex_http5) ex_engine6.
Proof. exists 0%nat. by split. Qed.

Lemma http_no_request_lost_witness :
  call_count 0 (hc_trace ex_http5) = 0%nat /\ ((1, 0%nat) ∈ hc_store ex_http5).
Proof.
  destruct (http_no_request_lost ex_http_conf ex_user ex_user_ok _ _ ex_http5_reached) as (_ & Ha & _).
  destruct (Ha 1 0%nat ltac:(left)) as [[Hc _]|(Hc & Hs & _)]; [|by split].
  exfalso. vm_compute in Hc. discriminate Hc.
Defined.

Lemma handleResult_outcome_witness :
  exists id p it r cb o s', ((id, p) ∈ hc_store ex_http5) /\ waiting ex_http5 id p it r cb
    /\ handleResult ex_user 1 CURLE_OK 200 (set_hc_engine ex_engine6 ex_http5) = (o, s')
    /\ ((exists st, o = Throw (process_exit st))
        \/ (hc_trace s' = hc_trace ex_http5 ++ finish_events p CURLE_OK 200 it r cb
            /\ hc_store s' = map_erase id (hc_store ex_http5) /\ hc_items s' = delete p (hc_items ex_http5))).
Proof.
  apply (handleResult_outcome ex_http_conf ex_user ex_user_ok [(1, 0%nat)]);
    [apply ex_http5_reached|apply ex_delivered].
Defined.

(** The response the callback gets. *)
Example ex_response :
  exists resp, hc_trace (handleResult ex_user 1 CURLE_OK 200 (set_hc_engine ex_engine6 ex_http5)).2
      = [EvHttpCallback 0 (MkEvent 5%nat 0 (Some (set_rq_messageID 1 ex_http_request)) (Some resp))]
    /\ statusCode resp = 200 /\ isContentTypeJSON resp = true
    /\ response_payload resp = Ok [Byte.x7b; Byte.x7d].
Proof. eexists. split; [vm_compute; reflexivity|]. vm_compute. done. Qed.

Lemma destroyed_while_posted_witness :
  exists s', destroy_HttpConnection ex_user ex_http5 = (Ok (), s') /\ hc_store s' = []
    /\ (forall id p, (id, p) ∈ [(1, 0%nat)] -> call_count p (hc_trace s') = 1%nat)
    /\ eng_deliver 1 CURLE_OK (hc_engine s') ex_engine6
    /\ (handleResult ex_user 1 CURLE_OK 200 (set_hc_engine ex_engine6 s')).1 = Undef "use of a destroyed connection".
Proof.
  apply (destroyed_while_posted ex_http_conf ex_user ex_user_ok);
    [done|apply ex_http5_reached|apply ex_delivered].
Defined.

Lemma http_method_witness :
  let opts := match item_options ex_http_conf 0 "http://h:1/" ex_http_request with Ok l => l | _ => [] end in
  curl_method opts = "GET" /\ (OPT_SSL_VERIFYPEER 0 ∈ opts).
Proof.
  destruct (http_method ex_http_conf 0 "http://h:1/" ex_http_request _ Get []
    eq_refl eq_refl I eq_refl) as (H1 & _ & _ & H2 & _).
  split; [apply H1; by right|exact H2].
Defined.

Definition ex_item : HttpItem := MkHttpItem "" None new_CallOnce [] [("content-type", "text/html")] [] 1 [].
Lemma response_of_http_witness :
  contentType (rs_header (http_response 7 404 ex_item)) = CT_Html
  /\ exists w, response_payload (http_response 7 404 ex_item) = Undef w.
Proof.
  destruct (response_of_http 7 404 ex_item) as (_ & _ & _ & H1 & _ & H2).
  - split; [|done]. intros k v Hin. by apply not_elem_of_nil in Hin.
  - split; [exact H1|by apply H2].
Defined.
