(* ===== verification/HttpThreads.v ===== *)
(** * HTTP requests over a driver with threads

    The driver of DriverThreads.v, whose handlers run in parallel, keeps the contract
    of TransferEngine.v, so an HTTP connection runs over it.  [http_over_threads]: until
    every request has been answered something can go on, or libcurl is busy. *)
From S2P Require Import Prelude StdMap StdString Types VPack ToyVPack Message RequestItem MessageStore Url HttpUrl Curl TransferEngine Pool DriverThreads DriverTransfers HttpConnection HttpProperties HttpRequest.
Local Open Scope Z_scope.

Lemma thread_step_handler d d' : thread_step d d' -> handler_step d d'.
Proof.
  intros Hs. split; [by apply step_thread|].
  destruct (pool_step _ _ Hs) as (t & i & k & an & d1 & todo & rest & _ & He & -> & _).
  by destruct (exec_moves _ _ _ rest _ _ _ He).
Qed.

Section HttpThreads.
Context {VP : VPack} (conf : ConnectionConfiguration) (user_code : cb_event nat -> res unit).
Context (user_ok : forall call w, user_code call <> Undef w).

(** C20: an HTTP connection over the driver with its threads does not get stuck.  In every
    state that requests, steps of threads, timers, socket events and completions lead
    to, every accepted request has been answered exactly once; or a thread of the
    driver can go on; or a completion is posted, and its handler can run; or libcurl
    still has transfers running.  No interleaving strands a request inside the program. *)
Theorem http_over_threads (acc : list (Z * nat)) (s : HttpConnection driver) :
  http_reaches conf user_code acc s ->
  (forall id p, (id, p) ∈ acc -> call_count p (hc_trace s) = 1%nat /\ (id, p) ∉ hc_store s)
  \/ (exists d', thread_step (hc_engine s) d' /\ http_enabled conf (Engine d') s)
  \/ (exists h r d', forall status, http_enabled conf (Deliver h r status d') s)
  \/ d_running (hc_engine s) <> [].
Proof.
  intros [Hi Hh]%(http_reaches_good conf user_code user_ok). set (d := hc_engine s) in *.
  pose proof (inv_engine _ _ Hi : driver_runs new_driver d) as Hd.
  destruct (decide (Forall (eq []) (d_threads d))) as [Hdone|Hbusy].
  2: { right; left. destruct (threads_go_on d (runs_mutex_inv d Hd) Hbusy) as [d' Hs].
       exists d'. split; [exact Hs|]. by apply thread_step_handler. }
  destruct (d_posted d) as [|[h r] es] eqn:Hp.
  2: { right; right; left. exists h, r. eexists. intros status. exists [], es. split; [exact Hp|reflexivity]. }
  destruct (d_running d) as [|h hs] eqn:Hr; [left|by right; right; right].
  destruct (runs_transfers d Hd) as [_ _ Hno].
  assert (eng_handles d = []) as Hnil.
  { unfold eng_handles. cbn. unfold active, results, pool in *. rewrite (pool_done _ Hdone) in *. cbn in *.
    rewrite Hr, Hp. destruct (d_done d); [done|by destruct Hno]. }
  intros id p Hin. destruct (hist_calls _ _ Hh _ _ Hin) as [[Hst _]|[Hst Hc]]; [|by split].
  exfalso. destruct (inv_items _ _ Hi _ _ Hst) as (it & r & cb & Hit & _ & _ & _ & He).
  assert (hi_handle it ∈ eng_handles d) as Hel by (apply (inv_handles _ _ Hi); by eexists).
  rewrite Hnil in Hel. by inversion Hel.
Qed.
End HttpThreads.

(** ** A concrete run *)
Definition handler_choice (c : choice) : bool := match c with Add _ | Handle => false | _ => true end.
Lemma run_thread_handlers (I : driver -> Prop) t ans d d' :
  (forall d d', I d -> handler_step d d' -> I d') -> I d -> run_thread t ans d = Some d' -> I d'.
Proof.
  intros HI. revert d. induction ans as [|an ans IH]; intros d Hd; [by intros [= <-]|]. cbn.
  destruct (d_threads d !! t) as [[|i k]|] eqn:Ht; [done| |done]. destruct (exec t an i d) as [|d1 todo] eqn:He; [done|].
  apply IH. eapply HI; [exact Hd|]. apply thread_step_handler. by eapply step_goes.
Qed.
Lemma schedule_handlers (I : driver -> Prop) cs d d' :
  (forall d d', I d -> handler_step d d' -> I d') -> I d -> forallb handler_choice cs = true ->
  schedule cs d = Some d' -> I d'.
Proof.
  intros HI. revert d. induction cs as [|c cs IH]; intros d Hd; [by intros _ [= <-]|]. cbn. intros [Hc Hcs]%andb_prop.
  destruct (choose c d) as [d1|] eqn:Hch; [|done]. apply IH; [|done].
  destruct c as [t ans|e| | | |]; try done; cbn in Hch.
  - by eapply run_thread_handlers.
  - destruct (d_wait d) as [n|] eqn:Hw; simplify_eq. eapply HI; [exact Hd|]. split; [by apply step_expire|done].
  - destruct (d_ready d) as [|n ns] eqn:Hr; simplify_eq. eapply HI; [exact Hd|]. split; [by apply (step_ready d [] n ns)|done].
  - destruct (d_watched d) as [|n ss] eqn:Hr; simplify_eq. eapply HI; [exact Hd|]. split; [by apply (step_event d [] n ss)|done].
Qed.

(** A request is sent, libcurl opens a socket, the response arrives, and is delivered. *)
Definition ex_threads0 : HttpConnection driver := new_HttpConnection 0 new_driver.
Definition ex_threads1 := (http_sendRequest ex_http_conf ex_user ex_http_request 5 (Some 1) ex_threads0).2.
Definition ex_transfer : list choice :=
  [Run 0 (silent :: MkAnswer [] [OpenSocket; AddSocket 5 PollIn true] :: repeat silent 9);
   Event; Run 1 (silent :: MkAnswer [(1, CURLE_OK)] [] :: repeat silent 15)].
Definition ex_driver2 : driver := default new_driver (schedule ex_transfer (hc_engine ex_threads1)).
Definition ex_threads2 := set_hc_engine ex_driver2 ex_threads1.
Definition ex_driver3 : driver := ud_handled [1] (ud_posted [] ex_driver2).
Definition ex_threads3 := (http_execute ex_http_conf ex_user (Deliver 1 CURLE_OK 200 ex_driver3) ex_threads2).2.

Lemma ex_threads3_reached : http_reaches ex_http_conf ex_user [(1, 0%nat)] ex_threads3.
Proof.
  apply (reaches_step ex_http_conf ex_user _ ex_threads2 (Deliver 1 CURLE_OK 200 ex_driver3) (Ok ()));
    [|..|done|vm_compute; reflexivity|done].
  2: { exists [], []. split; vm_compute; reflexivity. }
  apply (schedule_handlers (fun d => http_reaches ex_http_conf ex_user [(1, 0%nat)] (set_hc_engine d ex_threads1)) ex_transfer
    (hc_engine ex_threads1)); [| |reflexivity|vm_compute; reflexivity].
  - intros d d' Hd Hs. by apply (reaches_step ex_http_conf ex_user _ _ (Engine d') (Ok ()) _ Hd).
  - apply (reaches_send ex_http_conf ex_user [] ex_threads0 ex_http_request 5 (Some 1) (Ok 1)).
    + apply reaches_new; [lia|constructor|reflexivity].
    + split_and!; [|vm_compute; reflexivity..]. split_and!; [by eexists|by eexists|by eexists|].
      intros d [= <-]. vm_compute. reflexivity.
    + vm_compute. reflexivity.
    + done.
Qed.
Lemma http_over_threads_witness :
  call_count 0 (hc_trace ex_threads3) = 1%nat /\ (1, 0%nat) ∉ hc_store ex_threads3.
Proof.
  destruct (http_over_threads ex_http_conf ex_user ex_user_ok _ _ ex_threads3_reached) as [H|[(d' & Hs & _)|[(h & r & d' & Hd)|Hr]]].
  - apply H. constructor.
  - exfalso. inversion Hs as [d t i k an d1 todo Ht _ Heq].
    assert (d_threads (hc_engine ex_threads3) = [[]; []]) as Hths by (vm_compute; reflexivity).
    rewrite Hths in Ht. by destruct t as [|[|t]].
  - exfalso. destruct (Hd 0) as (es1 & es2 & Hp & _).
    assert (d_posted (hc_engine ex_threads3) = []) as Hnil by (vm_compute; reflexivity). rewrite Hnil in Hp. by destruct es1.
  - exfalso. apply Hr. vm_compute. reflexivity.
Defined.
