(* ===== verification/HttpLog.v ===== *)
(** * Tracing HTTP traffic

    [curlDebug], [logHttpBody] and [logHttpHeaders] of src/HttpConnection.cpp:
    what libcurl reports of a transfer becomes lines of the trace.  The lines are
    the result of the functions; the stream they go to is left out.

    - [traced_body]: a body is traced completely, in pieces of at most 80
      characters;
    - [traced_headers]: header lines are traced up to the last line end. *)
From S2P Require Import Prelude StdMap StdString Types VPack Message RequestItem MessageStore Url HttpUrl Curl TransferEngine HttpConnection.
From stdpp Require Import pretty.
Local Open Scope Z_scope.

(** One statement [FUERTE_LOG_HTTPTRACE << prefix << " " << text << "\n"]. *)
Definition trace_line (prefix text : string) : string := prefix +:+ " " +:+ text +:+ newline.

(** The loop of [logHttpBody]; [size_type] has 64 bits.  Every turn moves on by at
    least one character, so the length of the data is enough fuel. *)
Fixpoint body_loop (fuel : nat) (prefix data : string) (n : Z) : res (list string) :=
  if n <? Z.of_nat (String.length data) then
    match fuel with
    | O => Undef "the loop does not terminate"
    | S fuel =>
        piece ← substr data n 80;
        lines ← body_loop fuel prefix data (u64 (n + 80));
        Ok (trace_line prefix piece :: lines)
    end
  else Ok [].
Definition logHttpBody (prefix data : string) : res (list string) :=
  body_loop (String.length data) prefix data 0.

(** The loop of [logHttpHeaders]. *)
Fixpoint headers_loop (fuel : nat) (prefix headerData : string) (last : Z) : res (list string) :=
  match str_find CRLF last headerData with
  | None => Ok []
  | Some n =>
      match fuel with
      | O => Undef "the loop does not terminate"
      | S fuel =>
          line ← substr headerData last (u64 (n - last));
          lines ← headers_loop fuel prefix headerData (u64 (n + 2));
          Ok (trace_line prefix line :: lines)
      end
  end.
Definition logHttpHeaders (prefix headerData : string) : res (list string) :=
  headers_loop (String.length headerData) prefix headerData 0.

Inductive curl_infotype : Type :=
| CURLINFO_TEXT | CURLINFO_HEADER_IN | CURLINFO_HEADER_OUT | CURLINFO_DATA_IN | CURLINFO_DATA_OUT
| CURLINFO_SSL_DATA_IN | CURLINFO_SSL_DATA_OUT | CURLINFO_END.

Section Debug.
Context {E : Type}.

(** [curlDebug]: the item is the private pointer of the handle. *)
Definition curlDebug (handle : Z) (type : curl_infotype) (data : string) : stm (HttpConnection E) (Z * list string) :=
  easy ← reads hc_easy;
  p ← lift (match easy !! handle with Some p => Ok p | None => Undef "use of an easy handle that was cleaned up" end);
  inprogress ← get_http_item p;
  request ← lift (get (hi_request inprogress));
  let prefix := "Communicator(" +:+ pretty (rq_messageID request) +:+ "): " in
  lines ← lift (
    match type with
    | CURLINFO_TEXT => Ok [prefix +:+ "Text: " +:+ data]
    | CURLINFO_HEADER_OUT => logHttpHeaders (prefix +:+ "Header >>") data
    | CURLINFO_HEADER_IN => logHttpHeaders (prefix +:+ "Header <<") data
    | CURLINFO_DATA_OUT | CURLINFO_SSL_DATA_OUT => logHttpBody (prefix +:+ "Body >>") data
    | CURLINFO_DATA_IN | CURLINFO_SSL_DATA_IN => logHttpBody (prefix +:+ "Body <<") data
    | CURLINFO_END => Ok []
    end);
  mret (0, lines).
End Debug.

(** ** Properties *)

(** The pieces of a body. *)
Definition body_pieces (data : string) (ps : list string) : Prop :=
  String.concat "" ps = data
  /\ forall i p, ps !! i = Some p ->
       0 < Z.of_nat (String.length p) <= 80
       /\ ((S i < length ps)%nat -> String.length p = 80%nat).

Lemma string_concat_cons s l : String.concat "" (s :: l) = s +:+ String.concat "" l.
Proof. destruct l; [by rewrite string_app_nil_r|done]. Qed.

Lemma string_take_length n s : String.length (string_take n s) = Nat.min n (String.length s).
Proof. revert s. induction n as [|n IH]; intros [|c s]; cbn; [done..|]. by rewrite IH. Qed.

Lemma body_loop_pieces fuel prefix data n :
  (n + 80 * fuel >= String.length data)%nat -> Z.of_nat (String.length data) < 2 ^ 64 - 80 ->
  exists ps, body_loop fuel prefix data (Z.of_nat n) = Ok (trace_line prefix <$> ps)
    /\ body_pieces (string_drop n data) ps.
Proof.
  revert n. induction fuel as [|fuel IH]; intros n Hf Hlen.
  - exists []. cbn. rewrite (proj2 (Z.ltb_ge _ _)) by lia. split; [done|].
    split; [by rewrite string_drop_ge by lia|]. by intros [].
  - cbn [body_loop]. destruct (Z.ltb_spec (Z.of_nat n) (Z.of_nat (String.length data))) as [Hn|Hn].
    + destruct (IH (n + 80)%nat) as (ps & Hps & Hcat & Hall); [lia|lia|].
      assert (Hsub : substr data (Z.of_nat n) 80 = Ok (string_take 80 (string_drop n data))).
      { unfold substr. rewrite (proj2 (Z.ltb_ge _ _)) by lia. f_equal. rewrite Nat2Z.id.
        destruct (Z.ltb_spec 80 (Z.of_nat (String.length data) - Z.of_nat n)) as [H1|H1]; [done|].
        rewrite !string_take_ge by (rewrite string_length_drop; lia). done. }
      rewrite Hsub, bind_ret_l, u64_id by lia. replace (Z.of_nat n + 80) with (Z.of_nat (n + 80)) by lia.
      pose proof (string_take_drop 80 (string_drop n data)) as Htd.
      pose proof (string_take_length 80 (string_drop n data)) as Hl. rewrite string_length_drop in Hl.
      remember (string_take 80 (string_drop n data)) as piece eqn:Hpiece. clear Hpiece.
      rewrite Hps, bind_ret_l. exists (piece :: ps). split; [done|]. split.
      * rewrite string_concat_cons, Hcat, <- string_drop_drop. exact Htd.
      * intros [|i] p Hp; [injection Hp as <-|destruct (Hall i p Hp) as [? ?]; split; [done|cbn; auto with lia]].
        rewrite Hl. split; [lia|]. intros Hi. destruct ps as [|q ps]; [cbn in Hi; lia|].
        destruct (Hall 0%nat q eq_refl) as [Hq _]. rewrite string_concat_cons in Hcat.
        apply (f_equal String.length) in Hcat. rewrite string_length_app, string_length_drop in Hcat. lia.
    + exists []. split; [done|]. split; [by rewrite string_drop_ge by lia|]. by intros [].
Qed.

(** The lines of the headers: no line feed in them. *)
Definition header_text (s : string) : Prop := all_of (fun c => c <> "010"%char) s.
Fixpoint header_block (ls : list string) (rest : string) : string :=
  match ls with [] => rest | l :: ls => l +:+ CRLF +:+ header_block ls rest end.

Definition head_of (s : string) : option ascii := match s with "" => None | String c _ => Some c end.
Lemma prefix_CRLF c s : head_of s <> Some "010"%char -> String.prefix CRLF (String c s) = false.
Proof.
  unfold CRLF. cbn [String.prefix]. destruct (Ascii.ascii_dec _ _); [|done]. destruct s as [|c2 s]; [done|].
  cbn [head_of String.prefix]. destruct (Ascii.ascii_dec _ c2) as [<-|]; [done|done].
Qed.
Lemma index_CRLF l rest : header_text l -> String.index 0 CRLF (l +:+ CRLF +:+ rest) = Some (String.length l).
Proof.
  induction l as [|c l IH]; intros Hl; [by destruct rest|]. destruct Hl as [Hc Hl]. specialize (IH Hl).
  change (String c l +:+ CRLF +:+ rest) with (String c (l +:+ CRLF +:+ rest)).
  cbn [String.index]. rewrite IH.
  assert (String.prefix CRLF (String c (l +:+ CRLF +:+ rest)) = false) as ->; [|done].
  apply prefix_CRLF. destruct l as [|c2 l]; [done|]. destruct Hl as [Hc2 _]. by intros [= ->].
Qed.
Lemma index_no_CRLF s : header_text s -> String.index 0 CRLF s = None.
Proof.
  induction s as [|c s IH]; intros Hs; [done|]. destruct Hs as [Hc Hs]. cbn [String.index]. rewrite IH by done.
  assert (String.prefix CRLF (String c s) = false) as ->; [|done].
  apply prefix_CRLF. destruct s as [|c2 s]; [done|]. destruct Hs as [Hc2 _]. by intros [= ->].
Qed.

Lemma headers_loop_lines fuel prefix pre ls rest :
  Forall header_text ls -> header_text rest -> (length ls <= fuel)%nat ->
  Z.of_nat (String.length (pre +:+ header_block ls rest)) < 2 ^ 64 ->
  headers_loop fuel prefix (pre +:+ header_block ls rest) (Z.of_nat (String.length pre))
  = Ok (trace_line prefix <$> ls).
Proof.
  intros Hls Hrest. revert fuel pre. induction Hls as [|l ls Hl Hls IH]; intros fuel pre Hf Hlen; cbn [header_block].
  - assert (str_find CRLF (Z.of_nat (String.length pre)) (pre +:+ rest) = None) as Hn.
    { unfold str_find. rewrite Nat2Z.id, string_drop_app, index_no_CRLF by done. done. }
    destruct fuel; cbn [headers_loop]; by rewrite Hn.
  - assert (str_find CRLF (Z.of_nat (String.length pre)) (pre +:+ l +:+ CRLF +:+ header_block ls rest)
      = Some (Z.of_nat (String.length pre) + Z.of_nat (String.length l))) as Hn.
    { unfold str_find. rewrite Nat2Z.id, string_drop_app, index_CRLF by done. done. }
    destruct fuel as [|fuel]; [cbn in Hf; lia|]. cbn [headers_loop]. rewrite Hn.
    cbn [header_block] in Hlen. rewrite !string_length_app in Hlen. change (String.length CRLF) with 2%nat in Hlen.
    replace (Z.of_nat (String.length pre) + Z.of_nat (String.length l) - Z.of_nat (String.length pre))
      with (Z.of_nat (String.length l)) by lia.
    rewrite !u64_id by lia. rewrite substr_Ok by (rewrite ?string_length_app; lia).
    rewrite !Nat2Z.id, string_drop_app, string_take_app, bind_ret_l.
    replace (pre +:+ l +:+ CRLF +:+ header_block ls rest) with ((pre +:+ l +:+ CRLF) +:+ header_block ls rest)
      by by rewrite <- !(assoc_L String.app).
    replace (Z.of_nat (String.length pre) + Z.of_nat (String.length l) + 2)
      with (Z.of_nat (String.length (pre +:+ l +:+ CRLF)))
      by (rewrite !string_length_app; change (String.length CRLF) with 2%nat; lia).
    rewrite IH; [done|cbn in Hf; lia|]. rewrite !string_length_app. change (String.length CRLF) with 2%nat. lia.
Qed.

Lemma header_block_length ls rest : (length ls <= String.length (header_block ls rest))%nat.
Proof.
  induction ls as [|l ls IH]; cbn [header_block length]; [lia|].
  rewrite !string_length_app. change (String.length CRLF) with 2%nat. lia.
Qed.

(** Tracing a body.  For every body the loop ends, no position is outside the
    string, and what is traced, with the prefix on every line, is the whole body in
    pieces: each of 80 characters but the last, which has between 1 and 80. *)
Theorem traced_body (prefix data : string) :
  Z.of_nat (String.length data) < 2 ^ 64 - 80 ->
  exists ps, logHttpBody prefix data = Ok (trace_line prefix <$> ps) /\ body_pieces data ps.
Proof. intros Hlen. apply (body_loop_pieces _ prefix data 0); [lia|done]. Qed.

(** Tracing headers.  Lines that end with CR LF are traced without it, one by
    one; what follows the last line end is not traced. *)
Theorem traced_headers (prefix : string) (ls : list string) (rest : string) :
  Forall header_text ls -> header_text rest ->
  Z.of_nat (String.length (header_block ls rest)) < 2 ^ 64 ->
  logHttpHeaders prefix (header_block ls rest) = Ok (trace_line prefix <$> ls).
Proof.
  intros Hls Hrest Hlen. apply (headers_loop_lines _ prefix "" ls rest); [done..| |done].
  apply header_block_length.
Qed.

(** ** Witnesses *)

Lemma traced_body_witness :
  exists ps, logHttpBody "Body <<" (String.concat "" (repeat "0123456789" 9)) = Ok (trace_line "Body <<" <$> ps)
    /\ body_pieces (String.concat "" (repeat "0123456789" 9)) ps.
Proof. apply traced_body. vm_compute. reflexivity. Defined.

Lemma traced_headers_witness :
  logHttpHeaders "Header <<" (header_block ["HTTP/1.1 200 OK"; "Server: x"; ""] "rest")
  = Ok (trace_line "Header <<" <$> ["HTTP/1.1 200 OK"; "Server: x"; ""]).
Proof.
  apply traced_headers; [repeat constructor; try discriminate|repeat split; try discriminate|vm_compute; reflexivity].
  all: cbn; repeat split; discriminate.
Defined.
