(* ===== verification/HeaderInvariant.v ===== *)
(** * The metadata of every header

    A header keeps its metadata and parameters in sorted maps.  Whatever bytes or
    header lines the network sends, decoding makes sorted maps; every operation of
    [MessageHeader] keeps them sorted, and does to the maps what its name says
    (theorem [headers_well_formed]). *)
From S2P Require Import Prelude StdMap StdString Types VPack ToyVPack Message HeaderCodec RequestItem Url HttpUrl Curl TransferEngine HttpConnection.
Local Open Scope Z_scope.

(** A property of the value, if there is one. *)
Definition of_value {A} (P : A -> Prop) (r : res A) : Prop :=
  match r with Ok a => P a | _ => True end.

Lemma of_value_bind {A B} (P : A -> Prop) (Q : B -> Prop) (r : res A) (f : A -> res B) :
  of_value P r -> (forall a, P a -> of_value Q (f a)) -> of_value Q (r ≫= f).
Proof. destruct r; cbn; auto. Qed.
Lemma of_value_any {A} (r : res A) : of_value (fun _ => True) r.
Proof. by destruct r. Qed.

(** ** Operations *)

(** The public operations of a [MessageHeader] on its maps. *)
Inductive header_op : Type :=
| OpAddParameter (key value : string)
| OpAddMeta (key value : string)
| OpContentType (ct : ContentType)
| OpContentTypeString (ct : string)
| OpAcceptType (ct : ContentType)
| OpAcceptTypeString (ct : string).

Definition apply_header_op (h : MessageHeader) (op : header_op) : res MessageHeader :=
  match op with
  | OpAddParameter k v => Ok (addParameter k v h)
  | OpAddMeta k v => Ok (addMeta k v h)
  | OpContentType ct => set_contentType ct h
  | OpContentTypeString s => Ok (set_contentTypeString s h)
  | OpAcceptType ct => set_acceptType ct h
  | OpAcceptTypeString s => Ok (set_acceptTypeString s h)
  end.
Fixpoint apply_header_ops (h : MessageHeader) (ops : list header_op) : res MessageHeader :=
  match ops with
  | [] => Ok h
  | op :: ops => h ← apply_header_op h op; apply_header_ops h ops
  end.

(** ** What a header says, as finite maps *)

Definition entries (m : option StringMap) : gmap string string := to_gmap (default [] m).
Record header_maps : Type := MkMaps { params_of : gmap string string; meta_of : gmap string string }.
Definition maps_of (h : MessageHeader) : header_maps := MkMaps (entries (parameters h)) (entries (meta h)).

Definition says_meta (k v : string) (m : header_maps) : header_maps :=
  MkMaps (params_of m) (<[k := v]> (meta_of m)).
Definition says_type (k : string) (ct : ContentType) (m : header_maps) : header_maps :=
  match ContentType_to_string ct with Ok s => says_meta k s m | _ => m end.
Definition spec_header_op (m : header_maps) (op : header_op) : header_maps :=
  match op with
  | OpAddParameter k v => MkMaps (<[k := v]> (params_of m)) (meta_of m)
  | OpAddMeta k v => says_meta k v m
  | OpContentType ct => says_type "content-type" ct m
  | OpContentTypeString s => says_meta "content-type" s m
  | OpAcceptType ct => says_type "accept" ct m
  | OpAcceptTypeString s => says_meta "accept" s m
  end.

Lemma entries_assign k v m : entries (Some (map_assign k v (default [] m))) = <[k := v]> (entries m).
Proof. apply map_assign_spec. Qed.

Lemma maps_of_addMeta k v h : maps_of (addMeta k v h) = says_meta k v (maps_of h).
Proof. unfold maps_of, says_meta. cbn. f_equal. apply (entries_assign k v (meta h)). Qed.

Lemma apply_header_op_spec h op h' :
  header_wf h -> apply_header_op h op = Ok h' -> header_wf h' /\ maps_of h' = spec_header_op (maps_of h) op.
Proof.
  intros Hwf. destruct op as [k v|k v|ct|s|ct|s]; cbn -[ContentType_to_string maps_of].
  1: { intros [= <-]. split; [|unfold maps_of; cbn; f_equal; apply (entries_assign k v (parameters h))].
       destruct Hwf as [Hm Hp]. split; [done|]. intros m [= <-]. apply map_assign_wf.
       destruct (parameters h); [by apply Hp|done]. }
  2, 4: unfold set_contentType, set_acceptType, says_type;
    destruct (ContentType_to_string ct) as [s|e|w]; [|done..]; cbn -[maps_of].
  all: intros [= <-]; split; [by apply addMeta_wf|apply maps_of_addMeta].
Qed.

Lemma apply_header_ops_spec ops : forall h h',
  header_wf h -> apply_header_ops h ops = Ok h' ->
  header_wf h' /\ maps_of h' = foldl spec_header_op (maps_of h) ops.
Proof.
  induction ops as [|op ops IH]; intros h h' Hwf; cbn -[maps_of]; [by intros [= <-]|].
  destruct (apply_header_op h op) as [h1|e|w] eqn:Hop; [|done..]. cbn -[maps_of]. intros Hops.
  destruct (apply_header_op_spec h op h1 Hwf Hop) as [Hwf1 <-]. by apply IH.
Qed.

Lemma metaByKey_maps h k : header_wf h -> metaByKey k h = default "" (meta_of (maps_of h) !! k).
Proof.
  intros [Hm _]. unfold metaByKey, maps_of, entries. cbn. destruct (meta h) as [m|]; [|done].
  cbn. rewrite map_find_spec by by apply Hm. reflexivity.
Qed.

(** ** Headers of received messages *)

Section Received.
Context {VP : VPack}.

Lemma insert_entries_wf es rv : map_wf rv -> of_value map_wf (insert_entries es rv).
Proof.
  revert rv. induction es as [|[k v] es IH]; intros rv Hrv; [done|]. cbn [insert_entries].
  eapply of_value_bind; [apply of_value_any|intros key _].
  eapply of_value_bind; [apply of_value_any|intros value _]. by apply IH, map_emplace_wf.
Qed.

Lemma sliceToStringMap_wf s : of_value map_wf (sliceToStringMap s).
Proof.
  unfold sliceToStringMap. eapply of_value_bind; [apply of_value_any|intros ? _].
  eapply of_value_bind; [apply of_value_any|intros es _]. by apply insert_entries_wf.
Qed.

Lemma set_contentType_wf ct h : header_wf h -> of_value header_wf (set_contentType ct h).
Proof.
  intros Hwf. unfold set_contentType. eapply of_value_bind; [apply of_value_any|intros s _].
  by apply addMeta_wf.
Qed.

Lemma emptyHeader_wf : header_wf emptyHeader.
Proof. by split. Qed.
Lemma header_wf_set_meta m h : map_wf m -> header_wf h -> header_wf (set_meta (Some m) h).
Proof. intros Hm [_ Hp]. split; [by intros ? [= <-]|done]. Qed.
Lemma header_wf_set_parameters m h : map_wf m -> header_wf h -> header_wf (set_parameters (Some m) h).
Proof. intros Hm [Hh _]. split; [done|by intros ? [= <-]]. Qed.

(** One bind of a decoder: the maps it reads are sorted, and of other values
    nothing is needed. *)
Ltac of_value_step :=
  match goal with
  | |- of_value _ (set_contentType _ _ ≫= _) =>
      eapply of_value_bind; [apply set_contentType_wf|intros ? ?]
  | |- of_value _ (mbind sliceToStringMap _ ≫= _) =>
      eapply of_value_bind;
        [eapply (of_value_bind (fun _ => True) map_wf); [apply of_value_any|intros ? _; apply sliceToStringMap_wf]|intros ? ?]
  | |- of_value _ (_ ≫= _) => eapply of_value_bind; [apply of_value_any|intros ? _]
  | |- of_value _ (if ?b then _ else _) => destruct b
  | |- of_value _ (match ?t with MT_Undefined => _ | _ => _ end) => destruct t
  | |- of_value _ (Ok _) => cbv [of_value]
  | |- header_wf (set_meta (Some _) _) => apply header_wf_set_meta; [done|]
  | |- header_wf (set_parameters (Some _) _) => apply header_wf_set_parameters; [done|]
  end.

Lemma messageHeaderFromSlice_wf v s : of_value header_wf (messageHeaderFromSlice v s).
Proof.
  unfold messageHeaderFromSlice. cbv zeta. repeat of_value_step.
  all: first [done|exact emptyHeader_wf].
Qed.

(** A header that is new, that of a response received by VST, and that of a
    response received by HTTP, with the lines [lines] and the body [body]. *)
Fixpoint add_headers (lines : list string) (m : StringMap) : res StringMap :=
  match lines with
  | [] => Ok m
  | line :: lines => m ← add_header line m; add_headers lines m
  end.

Inductive header_source : MessageHeader -> Prop :=
| source_new : header_source emptyHeader
| source_vst vst vp h n :
    validateAndExtractMessageHeader vst vp = Ok (h, n) -> header_source (rs_header (new_Response h []))
| source_http lines m id status item :
    add_headers lines [] = Ok m -> hi_responseHeaders item = m ->
    header_source (rs_header (http_response id status item)).

Lemma add_headers_wf lines m : map_wf m -> of_value map_wf (add_headers lines m).
Proof.
  revert m. induction lines as [|l lines IH]; intros m Hm; [done|]. cbn [add_headers].
  eapply of_value_bind; [|exact IH]. unfold add_header.
  eapply of_value_bind; [apply of_value_any|intros [[k v]|] _]; cbn; [by apply map_emplace_wf|done].
Qed.

Lemma header_source_wf h : header_source h -> header_wf h.
Proof.
  intros [|vst vp h0 n He|lines m id status item Hm Hi]; [exact emptyHeader_wf|..].
  - pose proof (messageHeaderFromSlice_wf vst vp) as Hwf. revert He.
    unfold validateAndExtractMessageHeader. destruct (validate vp); [|done]. rewrite bind_ret_l.
    destruct (byteSize vp); [|done..]. cbn.
    destruct (messageHeaderFromSlice vst vp) as [h1|e|w]; [|done..]. intros [= <- _]. exact Hwf.
  - pose proof (add_headers_wf lines [] I) as Hwf. rewrite Hm in Hwf. cbn in Hwf. rewrite <- Hi in Hwf.
    unfold http_response, transformResult.
    destruct (hi_responseBody item); cbn; (split; [intros ? [= <-]; by apply map_emplace_wf|done]).
Qed.
End Received.

(** C25: the type of headers.  A header that is new, was decoded from arbitrary bytes,
    or collects arbitrary header lines has sorted maps without duplicates; every
    operation on it keeps that, and acts on the maps as insertion into a finite map,
    the last value for a key winning; what [metaByKey] finds is the value in this
    map, or the empty string. *)
Theorem headers_well_formed {VP : VPack} (h h' : MessageHeader) (ops : list header_op) :
  header_source h -> apply_header_ops h ops = Ok h' ->
  header_wf h'
  /\ maps_of h' = foldl spec_header_op (maps_of h) ops
  /\ (forall k, metaByKey k h' = default "" (meta_of (foldl spec_header_op (maps_of h) ops) !! k)).
Proof.
  intros Hh Hops. destruct (apply_header_ops_spec ops h h' (header_source_wf h Hh) Hops) as [Hwf Hm].
  split_and!; [done|done|]. intros k. rewrite <- Hm. by apply metaByKey_maps.
Qed.

(** Headers of a response, then the content type the library sets, and one more. *)
Definition ex_lines : list string :=
  ["Server: ArangoDB" +:+ CRLF; "content-type: text/html" +:+ CRLF; "SERVER: other" +:+ CRLF].
Definition ex_map : StringMap := [("content-type", "text/html"); ("server", "ArangoDB")].
Definition ex_item : HttpItem := MkHttpItem "" None new_CallOnce [] ex_map [] 0 [].
Lemma headers_well_formed_witness :
  exists h', apply_header_ops (rs_header (http_response 1 200 ex_item)) [OpContentType CT_VPack; OpAddMeta "x" "1"] = Ok h'
  /\ header_wf h' /\ metaByKey "content-type" h' = fu_content_type_vpack.
Proof.
  eexists. split; [reflexivity|].
  destruct (headers_well_formed (rs_header (http_response 1 200 ex_item)) _
    [OpContentType CT_VPack; OpAddMeta "x" "1"]
    (source_http ex_lines ex_map 1 200 ex_item ltac:(vm_compute; reflexivity) eq_refl) eq_refl) as (Hwf & _ & Hk).
  split; [exact Hwf|]. rewrite Hk. vm_compute. reflexivity.
Defined.
