(* ===== verification/Sync.v ===== *)
(** * Waiting for a response

    [WaitGroup] and [WaitGroupDone] of include/fuerte/waitgroup.h, and the
    synchronous [Connection::sendRequest] of src/connection.cpp, which starts an
    asynchronous request with a callback that writes into the frame of the
    waiting thread.

    Two threads run: the caller, and the thread of the io service that runs the
    callback.  Every access to the shared frame is a step of its own, so that all
    interleavings are covered; locking the mutex of the group makes its
    operations single steps.

    - [sync_result]: the caller wakes up after the callback has stored
      everything, with exactly the outcome the callback was given, and nothing
      touches the frame afterwards;
    - [sync_waits_for_callback]: the caller cannot get past the wait without the
      callback, and always can after it. *)
From S2P Require Import Prelude StdMap Types VPack Message.
Local Open Scope Z_scope.

(** ** WaitGroup *)

(** [_counter] is an [int]; the group's mutex makes each operation one step. *)
Definition new_WaitGroup : Z := 0.
Definition wg_add (increment counter : Z) : res Z :=
  _ ← cassert (0 <? increment) "increment > 0"; Ok (i32 (counter + increment)).
(** The second component: are the waiting threads notified? *)
Definition wg_done (counter : Z) : Z * bool :=
  let counter := i32 (counter - 1) in (counter, counter =? 0).
(** [wait] returns when the counter is zero, at once or after a notification. *)
Definition wg_wait (counter : Z) : bool := counter =? 0.
(** [wait_for]: whether the counter is zero, now or when the time is over. *)
Definition wg_wait_for (counter counter_at_timeout : Z) : bool :=
  if counter =? 0 then true else counter_at_timeout =? 0.

(** As many calls of [done] as were added bring the counter back to zero, and
    the last one notifies. *)
Fixpoint wg_dones (n : nat) (counter : Z) : Z * bool :=
  match n with
  | O => (counter, false)
  | S n => let '(c, notified) := wg_done counter in
           match n with O => (c, notified) | _ => wg_dones n c end
  end.

Section Sync.
Context {VP : VPack}.
(** [FUERTE_DEVBUILD]. *)
Context (devbuild : bool).

(** ** The synchronous sendRequest *)
Inductive caller : Type :=
| CallerSends                 (* in the asynchronous sendRequest *)
| CallerAccepted              (* the request has been accepted *)
| CallerWaits                 (* in wg.wait() *)
| CallerDone (r : res (option Response)).
(** The callback: what it has been called with, and where it stands. *)
Inductive callback_state : Type :=
| CallbackIdle
| CallbackStarts (e : Z) (response : option Response)
| CallbackStored (e : Z)      (* rv = std::move(response) *)
| CallbackReturns             (* error = e *)
| CallbackDone.               (* the destructor of WaitGroupDone has run *)

Record frame : Type := MkFrame {
  fr_counter : Z;
  fr_rv : option Response;
  fr_error : Z;
  fr_caller : caller;
  fr_callback : callback_state;
  fr_given : option (Z * option Response);   (* what the callback was called with *)
}.

(** [wg.add()] and the initialisation of the local variables. *)
Definition new_frame : res frame :=
  c ← wg_add 1 new_WaitGroup; Ok (MkFrame c None 0 CallerSends CallbackIdle None).

(** The end of the function: what it returns or throws. *)
Definition sync_return (f : frame) : res (option Response) :=
  if negb (fr_error f =? 0)
  then c ← intToError devbuild (fr_error f); Throw (error_condition (errorToInt c))
  else Ok (fr_rv f).

(** The steps of the caller. *)
Inductive caller_step : frame -> frame -> Prop :=
| step_throw f e :
    fr_caller f = CallerSends ->
    caller_step f (MkFrame (fr_counter f) (fr_rv f) (fr_error f) (CallerDone (Throw e)) (fr_callback f) (fr_given f))
| step_accept f :
    fr_caller f = CallerSends ->
    caller_step f (MkFrame (fr_counter f) (fr_rv f) (fr_error f) CallerAccepted (fr_callback f) (fr_given f))
| step_return f :
    fr_caller f = CallerAccepted ->
    caller_step f (MkFrame (fr_counter f) (fr_rv f) (fr_error f) CallerWaits (fr_callback f) (fr_given f))
| step_wake f :
    fr_caller f = CallerWaits -> wg_wait (fr_counter f) = true ->
    caller_step f (MkFrame (fr_counter f) (fr_rv f) (fr_error f) (CallerDone (sync_return f)) (fr_callback f) (fr_given f)).

(** The connection calls the callback of an accepted request at most once
    ([callback_at_most_once] of VstProperties.v, [http_no_request_lost] of
    HttpProperties.v). *)
Definition accepted (f : frame) : Prop :=
  match fr_caller f with CallerAccepted | CallerWaits => True | _ => False end.
Inductive callback_step : frame -> frame -> Prop :=
| step_call f e response :
    accepted f -> fr_callback f = CallbackIdle ->
    callback_step f (MkFrame (fr_counter f) (fr_rv f) (fr_error f) (fr_caller f)
      (CallbackStarts e response) (Some (e, response)))
| step_rv f e response :
    fr_callback f = CallbackStarts e response ->
    callback_step f (MkFrame (fr_counter f) response (fr_error f) (fr_caller f) (CallbackStored e) (fr_given f))
| step_error f e :
    fr_callback f = CallbackStored e ->
    callback_step f (MkFrame (fr_counter f) (fr_rv f) e (fr_caller f) CallbackReturns (fr_given f))
| step_done f :
    fr_callback f = CallbackReturns ->
    callback_step f (MkFrame (wg_done (fr_counter f)).1 (fr_rv f) (fr_error f) (fr_caller f) CallbackDone (fr_given f)).

Inductive sync_reachable : frame -> Prop :=
| sync_start f : new_frame = Ok f -> sync_reachable f
| sync_caller f f' : sync_reachable f -> caller_step f f' -> sync_reachable f'
| sync_callback f f' : sync_reachable f -> callback_step f f' -> sync_reachable f'.

(** The frame lives until the function is left. *)
Definition frame_alive (f : frame) : Prop := match fr_caller f with CallerDone _ => False | _ => True end.

Record sync_inv (f : frame) : Prop := {
  si_counter : fr_counter f = match fr_callback f with CallbackDone => 0 | _ => 1 end;
  si_idle : fr_callback f = CallbackIdle <-> fr_given f = None;
  si_sends : fr_caller f = CallerSends -> fr_callback f = CallbackIdle;
  si_starts : forall e r, fr_callback f = CallbackStarts e r -> fr_given f = Some (e, r);
  si_stored : forall e, fr_callback f = CallbackStored e -> fr_given f = Some (e, fr_rv f);
  si_returns : fr_callback f = CallbackReturns \/ fr_callback f = CallbackDone ->
    fr_given f = Some (fr_error f, fr_rv f);
  si_done : forall r, fr_caller f = CallerDone r ->
    (fr_callback f = CallbackIdle /\ exists e, r = Throw e) \/ (fr_callback f = CallbackDone /\ r = sync_return f);
}.

Lemma sync_reachable_inv f : sync_reachable f -> sync_inv f.
Proof.
  induction 1 as [f [= <-]|f f' _ IH Hs|f f' _ IH Hs].
  - split; cbn; try done; naive_solver.
  - destruct IH as [H1 H2 H3 H4 H5 H6 H7]. destruct Hs as [f e Hc|f Hc|f Hc|f Hc Hw].
    + split; cbn; try done. intros r [= <-]. left. split; [by apply H3|by eexists].
    + by split.
    + by split.
    + split; cbn; try done. intros r [= <-]. right. split; [|done].
      unfold wg_wait in Hw. rewrite H1 in Hw. by destruct (fr_callback f).
  - destruct IH as [H1 H2 H3 H4 H5 H6 H7]. destruct Hs as [f e r Ha Hc|f e r Hc|f e Hc|f Hc];
      (assert (forall r, fr_caller f = CallerDone r -> fr_callback f = CallbackIdle \/ fr_callback f = CallbackDone) as Hd
         by (intros r' Hr'; destruct (H7 r' Hr') as [[? _]|[? _]]; auto));
      rewrite Hc in H1; split; cbn; try done.
    + intros Hs. unfold accepted in Ha. by rewrite Hs in Ha.
    + by intros ?? [= <- <-].
    + by intros [].
    + intros r' Hr'. unfold accepted in Ha. by rewrite Hr' in Ha.
    + split; [done|]. intros Hg. apply H4 in Hc. congruence.
    + intros Hs. apply H3 in Hs. congruence.
    + intros e' [= <-]. by apply H4.
    + by intros [].
    + intros r' Hr'. destruct (Hd r' Hr'); congruence.
    + split; [done|]. intros Hg. apply H5 in Hc. congruence.
    + intros Hs. apply H3 in Hs. congruence.
    + intros _. by apply H5.
    + intros r' Hr'. destruct (Hd r' Hr'); congruence.
    + rewrite H1. reflexivity.
    + split; [done|]. intros Hg. rewrite H6 in Hg by auto. done.
    + intros Hs. apply H3 in Hs. congruence.
    + intros _. apply H6. auto.
    + intros r' Hr'. destruct (Hd r' Hr'); congruence.
Qed.

(** A condition with a value of its own survives [intToError]. *)
Lemma intToError_condition c :
  c <> ErrorCastError -> intToError devbuild (errorToInt c) = Ok c.
Proof. by destruct c. Qed.

Lemma sync_return_condition f c :
  c <> ErrorCastError -> fr_error f = errorToInt c ->
  sync_return f = if decide (c = NoError) then Ok (fr_rv f) else Throw (error_condition (errorToInt c)).
Proof.
  intros Hc He. unfold sync_return. rewrite He. destruct (decide (c = NoError)) as [->|Hn]; [done|].
  assert ((errorToInt c =? 0) = false) as -> by (by destruct c). cbn [negb].
  by rewrite intToError_condition.
Qed.

(** Counting down: the group is done after the last call, and not before. *)
Lemma wg_dones_count (n k : nat) :
  (k <= n)%nat -> Z.of_nat n < 2 ^ 31 ->
  wg_dones k (Z.of_nat n) = (Z.of_nat n - Z.of_nat k, bool_decide (k = n /\ k <> O)).
Proof.
  revert n. induction k as [|k IH]; intros n Hk Hn; cbn [wg_dones].
  { rewrite bool_decide_false by naive_solver. f_equal. lia. }
  unfold wg_done. destruct n as [|n]; [lia|].
  rewrite i32_id by lia. replace (Z.of_nat (S n) - 1) with (Z.of_nat n) by lia.
  destruct k as [|k].
  - f_equal; [lia|]. destruct n as [|n].
    + by rewrite bool_decide_true.
    + rewrite bool_decide_false by lia. done.
  - rewrite IH by lia. f_equal; [lia|]. apply bool_decide_ext. lia.
Qed.

(** ** Properties *)

(** The synchronous [sendRequest] returns what the callback was given.  It
    ends either with the exception of an asynchronous [sendRequest] that did not
    accept the request, or after the callback has run to its end; then it
    returns the callback's response when there was no error, and throws the
    callback's error condition otherwise.  Nothing touches its frame afterwards,
    in any interleaving of the two threads. *)
Theorem sync_result (f : frame) (r : res (option Response)) :
  sync_reachable f -> fr_caller f = CallerDone r ->
  ((fr_callback f = CallbackIdle /\ exists e, r = Throw e)
   \/ (fr_callback f = CallbackDone
       /\ exists e resp, fr_given f = Some (e, resp)
         /\ (e = 0 -> r = Ok resp)
         /\ (forall c, c <> ErrorCastError -> c <> NoError -> e = errorToInt c -> r = Throw (error_condition e))))
  /\ forall f', ~ callback_step f f'.
Proof.
  intros Hf Hr. pose proof (sync_reachable_inv f Hf) as Hi. split.
  - destruct (si_done f Hi r Hr) as [?|[Hc ->]]; [by left|right]. split; [done|].
    pose proof (si_returns f Hi (or_intror Hc)) as Hg. exists (fr_error f), (fr_rv f).
    split_and!; [done| |].
    + intros He. rewrite (sync_return_condition f NoError) by done. by rewrite decide_True.
    + intros c H1 H2 He. rewrite (sync_return_condition f c) by done. by rewrite decide_False, He.
  - intros f' Hs. destruct (si_done f Hi r Hr) as [[Hc _]|[Hc _]]; inversion Hs; subst; try congruence.
    match goal with Ha : accepted f |- _ => unfold accepted in Ha; by rewrite Hr in Ha end.
Qed.

(** The caller waits for the callback, and for nothing else.  Once it waits,
    it can go on exactly when the callback has run to its end; a callback that
    has been called can always run to its end; so the caller hangs for ever
    exactly when the connection never calls the callback. *)
Theorem sync_waits_for_callback (f : frame) :
  sync_reachable f -> fr_caller f = CallerWaits ->
  ((exists f', caller_step f f') <-> fr_callback f = CallbackDone)
  /\ (fr_callback f <> CallbackIdle -> fr_callback f <> CallbackDone -> exists f', callback_step f f').
Proof.
  intros Hf Hr. pose proof (sync_reachable_inv f Hf) as Hi. split; [split|].
  - intros [f' Hs]. inversion Hs as [| | |? Hc Hw]; subst; try congruence.
    unfold wg_wait in Hw. rewrite (si_counter f Hi) in Hw. by destruct (fr_callback f).
  - intros Hc. eexists. apply step_wake; [done|]. by rewrite (si_counter f Hi), Hc.
  - intros H1 H2. destruct (fr_callback f) eqn:E; try done; eexists.
    + by eapply step_rv.
    + by eapply step_error.
    + by eapply step_done.
Qed.
End Sync.

(** ** Witnesses *)

(** A refused connection: the callback runs before the asynchronous
    [sendRequest] has returned. *)
Definition ex_frame (c : caller) (cb : callback_state) (n e : Z) : frame :=
  MkFrame n None e c cb (match cb with CallbackIdle => None | _ => Some (1001, None) end).
Lemma ex_waiting : sync_reachable false (ex_frame CallerWaits CallbackReturns 1 1001).
Proof.
  eapply sync_caller; [|by apply (step_return _ (ex_frame CallerAccepted CallbackReturns 1 1001))].
  eapply sync_callback; [|by apply (step_error (ex_frame CallerAccepted (CallbackStored 1001) 1 0) 1001)].
  eapply sync_callback; [|by apply (step_rv (ex_frame CallerAccepted (CallbackStarts 1001 None) 1 0) 1001 None)].
  eapply sync_callback; [|by apply (step_call (ex_frame CallerAccepted CallbackIdle 1 0) 1001 None)].
  eapply sync_caller; [|by apply (step_accept _ (ex_frame CallerSends CallbackIdle 1 0))].
  by apply sync_start.
Qed.

Lemma sync_result_witness :
  exists f, sync_reachable false f /\ fr_caller f = CallerDone (Throw (error_condition 1001))
    /\ fr_callback f = CallbackDone.
Proof.
  exists (ex_frame (CallerDone (Throw (error_condition 1001))) CallbackDone 0 1001).
  assert (Hr : sync_reachable false (ex_frame (CallerDone (Throw (error_condition 1001))) CallbackDone 0 1001)).
  { eapply sync_caller; [|by apply (step_wake false (ex_frame CallerWaits CallbackDone 0 1001))].
    eapply sync_callback; [apply ex_waiting|by apply step_done]. }
  split; [exact Hr|]. split; [reflexivity|].
  destruct (sync_result false _ _ Hr eq_refl) as [[[H _]|[H _]] _]; [discriminate H|exact H].
Defined.

Lemma sync_waits_for_callback_witness :
  exists f', callback_step (ex_frame CallerWaits CallbackReturns 1 1001) f'.
Proof.
  destruct (sync_waits_for_callback false _ ex_waiting eq_refl) as [_ H]. by apply H.
Defined.
