(* ===== verification/ConnectionBuilder.v ===== *)
(** * Building connections

    [ConnectionBuilder] of include/fuerte/connection.h and
    src/ConnectionBuilder.cpp: the options of a connection, the parsing of its
    URL, and the choice of the protocol.  [boost::split] is not part of the
    repository; its documented behaviour are the laws of [BoostSplitLaws]. *)
From S2P Require Import Prelude StdMap StdString Types VPack Message RequestItem Url HttpUrl TransferEngine VstConnection HttpConnection.
Local Open Scope Z_scope.

(** [boost::split(strings, str, boost::is_any_of(":"))]: the parts between the
    separators, which may be empty. *)
Class BoostSplit : Type := boost_split : string -> list string.
Class BoostSplitLaws `{BoostSplit} : Prop := {
  split_none : forall s, all_of (fun c => c <> ":"%char) s -> boost_split s = [s];
  split_first : forall s rest, all_of (fun c => c <> ":"%char) s ->
    boost_split (s +:+ String ":" rest) = s :: boost_split rest;
}.
#[export] Instance simple_split : BoostSplit := split_on ":".
#[export] Instance simple_split_laws : BoostSplitLaws.
Proof. split; intros; [by apply split_on_last|by apply split_on_app]. Qed.

Section Builder.
Context `{BoostSplitLaws}.

(** The state of a builder is its configuration. *)
Local Abbreviation M := (stm ConnectionConfiguration).

Definition set_connType x c := {| _connType := x; _ssl := _ssl c; _host := _host c; _port := _port c;
  _authenticationType := _authenticationType c; _user := _user c; _password := _password c;
  _maxChunkSize := _maxChunkSize c; _vstVersion := _vstVersion c; _onFailure := _onFailure c |}.
Definition set_ssl x c := {| _connType := _connType c; _ssl := x; _host := _host c; _port := _port c;
  _authenticationType := _authenticationType c; _user := _user c; _password := _password c;
  _maxChunkSize := _maxChunkSize c; _vstVersion := _vstVersion c; _onFailure := _onFailure c |}.
Definition set_host x c := {| _connType := _connType c; _ssl := _ssl c; _host := x; _port := _port c;
  _authenticationType := _authenticationType c; _user := _user c; _password := _password c;
  _maxChunkSize := _maxChunkSize c; _vstVersion := _vstVersion c; _onFailure := _onFailure c |}.
Definition set_port x c := {| _connType := _connType c; _ssl := _ssl c; _host := _host c; _port := x;
  _authenticationType := _authenticationType c; _user := _user c; _password := _password c;
  _maxChunkSize := _maxChunkSize c; _vstVersion := _vstVersion c; _onFailure := _onFailure c |}.
Definition builder_authenticationType x : M unit := modify (fun c =>
  {| _connType := _connType c; _ssl := _ssl c; _host := _host c; _port := _port c;
  _authenticationType := x; _user := _user c; _password := _password c;
  _maxChunkSize := _maxChunkSize c; _vstVersion := _vstVersion c; _onFailure := _onFailure c |}).
Definition builder_user x : M unit := modify (fun c =>
  {| _connType := _connType c; _ssl := _ssl c; _host := _host c; _port := _port c;
  _authenticationType := _authenticationType c; _user := x; _password := _password c;
  _maxChunkSize := _maxChunkSize c; _vstVersion := _vstVersion c; _onFailure := _onFailure c |}).
Definition builder_password x : M unit := modify (fun c =>
  {| _connType := _connType c; _ssl := _ssl c; _host := _host c; _port := _port c;
  _authenticationType := _authenticationType c; _user := _user c; _password := x;
  _maxChunkSize := _maxChunkSize c; _vstVersion := _vstVersion c; _onFailure := _onFailure c |}).
Definition builder_maxChunkSize x : M unit := modify (fun c =>
  {| _connType := _connType c; _ssl := _ssl c; _host := _host c; _port := _port c;
  _authenticationType := _authenticationType c; _user := _user c; _password := _password c;
  _maxChunkSize := x; _vstVersion := _vstVersion c; _onFailure := _onFailure c |}).
Definition builder_vstVersion x : M unit := modify (fun c =>
  {| _connType := _connType c; _ssl := _ssl c; _host := _host c; _port := _port c;
  _authenticationType := _authenticationType c; _user := _user c; _password := _password c;
  _maxChunkSize := _maxChunkSize c; _vstVersion := x; _onFailure := _onFailure c |}).
Definition builder_onFailure x : M unit := modify (fun c =>
  {| _connType := _connType c; _ssl := _ssl c; _host := _host c; _port := _port c;
  _authenticationType := _authenticationType c; _user := _user c; _password := _password c;
  _maxChunkSize := _maxChunkSize c; _vstVersion := _vstVersion c; _onFailure := Some x |}).

(** [strings[i]]. *)
Definition subscript (i : nat) (strings : list string) : res string :=
  match strings !! i with Some s => Ok s | None => Undef "operator[] outside a vector" end.

Definition protocol (proto : string) : option (TransportType * bool) :=
  if bool_decide (proto = "vst") then Some (TT_Vst, false)
  else if bool_decide (proto = "vsts") then Some (TT_Vst, true)
  else if bool_decide (proto = "http") then Some (TT_Http, false)
  else if bool_decide (proto = "https") then Some (TT_Http, true)
  else None.

Definition builder_host (str : string) : M unit :=
  let strings := boost_split str in
  proto ← lift (subscript 0 strings);
  _ ← match protocol proto with
      | Some (t, ssl) => _ ← modify (set_connType t); modify (set_ssl ssl)
      | None => lift (Throw (runtime_error ("invalid protocol: " +:+ proto)))
      end;
  h ← lift (subscript 1 strings);
  _ ← modify (set_host (erase_front 2 h));
  p ← lift (subscript 2 strings);
  modify (set_port p).

(** ** The base class

    [Connection::onFailure] calls the configured callback, if there is one; the
    runs of the connections record the calls of [onFailure]. *)
Definition Connection_onFailure (conf : ConnectionConfiguration) (errorCode : Z) (errorMessage : string)
    : list (nat * Z * string) :=
  match _onFailure conf with Some f => [(f, errorCode, errorMessage)] | None => [] end.

(** ** connect *)
Inductive connection (E : Type) : Type :=
| VstConn (s : VstConnection) | HttpConn (s : HttpConnection E).
Arguments VstConn {E}.
Arguments HttpConn {E}.

(** [engine] is the driver the constructor of [HttpConnection] makes; [start] of
    an HTTP connection does nothing. *)
Definition connect {E} (conf : ConnectionConfiguration) (ticket : Z) (engine : res E) : res (connection E) :=
  if bool_decide (_connType conf = TT_Vst) then
    match start new_VstConnection with
    | (Ok _, s) => Ok (VstConn s)
    | (Throw e, _) => Throw e
    | (Undef w, _) => Undef w
    end
  else e ← engine; Ok (HttpConn (new_HttpConnection ticket e)).

(** ** Properties *)
Lemma protocol_Some proto t ssl :
  protocol proto = Some (t, ssl) <->
  (proto = "vst" /\ t = TT_Vst /\ ssl = false) \/ (proto = "vsts" /\ t = TT_Vst /\ ssl = true)
  \/ (proto = "http" /\ t = TT_Http /\ ssl = false) \/ (proto = "https" /\ t = TT_Http /\ ssl = true).
Proof.
  unfold protocol. repeat case_bool_decide; subst; naive_solver.
Qed.

Definition no_colon (s : string) : Prop := all_of (fun c => c <> ":"%char) s.

(** C32: the URL of a connection.  [host] of "scheme://host:port" sets protocol,
    encryption, host and port and nothing else; of an HTTP connection the URLs
    of its requests then start with exactly the URL that was given.  An unknown
    scheme throws and changes nothing.  A URL without a port, which the function
    does not check for, makes it read outside a vector. *)
Theorem builder_host_correct (scheme h p : string) (conf : ConnectionConfiguration) :
  no_colon scheme -> no_colon h -> no_colon p ->
  match protocol scheme with
  | Some (t, ssl) =>
      (exists conf', builder_host (scheme +:+ "://" +:+ h +:+ ":" +:+ p) conf = (Ok (), conf')
        /\ conf' = set_port p (set_host h (set_ssl ssl (set_connType t conf)))
        /\ (t = TT_Http -> base_url conf' "" "" = scheme +:+ "://" +:+ h +:+ ":" +:+ p)
        /\ forall E ticket (engine : E),
             (t = TT_Vst -> exists s, connect conf' ticket (Ok engine) = Ok (VstConn s) /\ pending s = [HResolve])
             /\ (t = TT_Http -> connect conf' ticket (Ok engine) = Ok (HttpConn (new_HttpConnection ticket engine))))
      /\ (exists w conf', builder_host (scheme +:+ "://" +:+ h) conf = (Undef w, conf'))
  | None => builder_host (scheme +:+ "://" +:+ h +:+ ":" +:+ p) conf
              = (Throw (runtime_error ("invalid protocol: " +:+ scheme)), conf)
  end.
Proof.
  intros Hs Hh Hp.
  assert (Hhh : no_colon ("//" +:+ h)) by (by cbn).
  assert (Hsplit : boost_split (scheme +:+ "://" +:+ h +:+ ":" +:+ p) = [scheme; "//" +:+ h; p]).
  { change ("://" +:+ h +:+ ":" +:+ p) with (String ":" (("//" +:+ h) +:+ String ":" p)).
    by rewrite split_first, split_first, split_none by done. }
  assert (Hsplit2 : boost_split (scheme +:+ "://" +:+ h) = [scheme; "//" +:+ h]).
  { change ("://" +:+ h) with (String ":" ("//" +:+ h)). by rewrite split_first, split_none by done. }
  destruct (protocol scheme) as [[t ssl]|] eqn:Ep.
  - split.
    + eexists. split; [unfold builder_host; rewrite Hsplit; unfold mbind, stm_bind, lift, modify; cbn; by rewrite Ep|].
      split; [done|]. split.
      * intros ->. apply protocol_Some in Ep. unfold base_url. cbn.
        rewrite !string_app_nil_r. destruct Ep as [(_ & ? & _)|[(_ & ? & _)|[(-> & _ & ->)|(-> & _ & ->)]]]; done.
      * intros E ticket engine. unfold connect. cbn. split; intros ->; [by eexists|done].
    + eexists _, _. unfold builder_host. rewrite Hsplit2. unfold mbind, stm_bind, lift, modify. cbn. by rewrite Ep.
  - unfold builder_host. rewrite Hsplit. unfold mbind, stm_bind, lift. cbn. by rewrite Ep.
Qed.
End Builder.

Lemma builder_host_correct_witness :
  exists conf', builder_host ("vsts" +:+ "://" +:+ "localhost" +:+ ":" +:+ "8529") default_configuration = (Ok (), conf')
    /\ _connType conf' = TT_Vst /\ _ssl conf' = true /\ _host conf' = "localhost" /\ _port conf' = "8529".
Proof.
  destruct (builder_host_correct "vsts" "localhost" "8529" default_configuration) as [(conf' & H1 & H2 & _) _];
    [cbn; repeat split; discriminate..|].
  exists conf'. split; [exact H1|]. by rewrite H2.
Defined.
