(* ===== verification/Contract.v ===== *)
(** * The contract of a connection

    What include/fuerte/connection.h promises to its users, whatever the protocol:
    a request that has been accepted is answered at most once, through its own
    callback, which gets the request back together with either the response to
    that request or an error.

    [spec_step] is the abstract machine of the contract: a map from requests to
    their status.  The class [Connection] describes an implementation by its
    steps and the callbacks it has called, and [ConnectionLaws] is a forward
    simulation by the abstract machine.  VstContract.v and HttpContract.v
    implement it; the synchronous [sendRequest] is verified against it in
    SyncContract.v.

    - [run_answers_once], [run_answer_accepted]: the traces of the abstract machine;
    - [conn_reaches_run]: every run of an implementation is one of the contract. *)
From S2P Require Import Prelude Types Message RequestItem.
Local Open Scope Z_scope.

Section Contract.
Context {CB : Type}.

(** ** The abstract machine *)
Inductive status : Type := Waiting (request : Request) (cb : CB) | Answered.
Abbreviation spec := (gmap nat status).

Inductive label : Type :=
| Accepts (p : nat) (request : Request) (cb : CB)
| Answers (p : nat) (call : cb_event CB).

(** The outcome of a request: the response to it, or an error with a value of
    its own and no response. *)
Definition outcome_ok (request : Request) (call : cb_event CB) : Prop :=
  match ev_response call with
  | Some response => ev_error call = 0 /\ rs_messageID response = rq_messageID request
  | None => exists c, c <> NoError /\ c <> ErrorCastError /\ ev_error call = errorToInt c
  end.

Inductive spec_step : spec -> label -> spec -> Prop :=
| spec_accept σ p request cb :
    σ !! p = None -> spec_step σ (Accepts p request cb) (<[p := Waiting request cb]> σ)
| spec_answer σ p request call :
    σ !! p = Some (Waiting request (ev_cb call)) -> ev_request call = Some request ->
    outcome_ok request call -> spec_step σ (Answers p call) (<[p := Answered]> σ).

Inductive spec_run (σ0 : spec) : list label -> spec -> Prop :=
| run_nil : spec_run σ0 [] σ0
| run_snoc L σ l σ' : spec_run σ0 L σ -> spec_step σ l σ' -> spec_run σ0 (L ++ [l]) σ'.
#[local] Hint Constructors spec_run spec_step : fuerte.

Lemma spec_run_app σ0 L1 σ1 L2 σ2 :
  spec_run σ0 L1 σ1 -> spec_run σ1 L2 σ2 -> spec_run σ0 (L1 ++ L2) σ2.
Proof.
  intros H1. induction 1 as [|L σ l σ' _ IH Hs]; [by rewrite app_nil_r|].
  rewrite (assoc_L (++)). by econstructor.
Qed.

(** What the users see of a run: the requests accepted, the callbacks called. *)
Definition label_accept (l : label) : option (nat * Request * CB) :=
  match l with Accepts p r cb => Some (p, r, cb) | Answers _ _ => None end.
Definition label_answer (l : label) : option (nat * cb_event CB) :=
  match l with Answers p call => Some (p, call) | Accepts _ _ _ => None end.
Definition accepts (L : list label) : list (nat * Request * CB) := omap label_accept L.
Definition answers (L : list label) : list (nat * cb_event CB) := omap label_answer L.

Lemma accepts_app L1 L2 : accepts (L1 ++ L2) = accepts L1 ++ accepts L2.
Proof. apply omap_app. Qed.
Lemma answers_app L1 L2 : answers (L1 ++ L2) = answers L1 ++ answers L2.
Proof. apply omap_app. Qed.

(** The callbacks of one request, and the calls of one callback. *)
Definition answers_of (p : nat) (l : list (nat * cb_event CB)) : list (nat * cb_event CB) :=
  filter (fun a => a.1 = p) l.

(** The status of a request is what the trace says of it. *)
Lemma run_status L σ p :
  spec_run ∅ L σ ->
  match σ !! p with
  | None => (forall r cb, (p, r, cb) ∉ accepts L) /\ answers_of p (answers L) = []
  | Some (Waiting r cb) => ((p, r, cb) ∈ accepts L) /\ answers_of p (answers L) = []
  | Some Answered => exists r call, ((p, r, ev_cb call) ∈ accepts L)
      /\ answers_of p (answers L) = [(p, call)] /\ ev_request call = Some r /\ outcome_ok r call
  end.
Proof.
  induction 1 as [|L σ l σ' _ IH Hs].
  { rewrite lookup_empty. split; [intros ?? []%elem_of_nil|done]. }
  rewrite accepts_app, answers_app. unfold answers_of in *. rewrite filter_app.
  destruct Hs as [σ q r cb Hq|σ q r call Hq Hr Ho]; cbn [accepts answers omap list_omap label_accept label_answer].
  - rewrite filter_nil, app_nil_r. destruct (decide (p = q)) as [->|Hne].
    + rewrite lookup_insert_eq. rewrite Hq in IH. split; [apply elem_of_app; right; left|apply IH].
    + rewrite lookup_insert_ne by done. destruct (σ !! p) as [[r' cb'|]|].
      * split; [apply elem_of_app; left|]; apply IH.
      * destruct IH as (r' & call & ? & ?). exists r', call. split; [|done].
        apply elem_of_app. by left.
      * split; [|apply IH]. intros r' cb' [Hin|[= -> _ _]%list_elem_of_singleton]%elem_of_app; [by eapply IH|done].
  - rewrite app_nil_r. destruct (decide (p = q)) as [->|Hne].
    + rewrite lookup_insert_eq. rewrite Hq in IH. destruct IH as [Hin Hf]. exists r, call.
      rewrite Hf, filter_cons_True by done. done.
    + rewrite lookup_insert_ne by done. rewrite filter_cons_False by (cbn; congruence).
      rewrite filter_nil, app_nil_r. done.
Qed.

(** An answer is the answer to a request accepted before, and the only one. *)
Lemma run_answer_accepted L σ p call :
  spec_run ∅ L σ -> (p, call) ∈ answers L ->
  exists r, ((p, r, ev_cb call) ∈ accepts L) /\ ev_request call = Some r /\ outcome_ok r call
    /\ answers_of p (answers L) = [(p, call)].
Proof.
  intros Hr Hin. pose proof (run_status L σ p Hr) as Hp.
  assert ((p, call) ∈ answers_of p (answers L)) as Hin' by by apply list_elem_of_filter.
  destruct (σ !! p) as [[r cb|]|].
  - rewrite (proj2 Hp) in Hin'. by apply elem_of_nil in Hin'.
  - destruct Hp as (r & call' & ? & Hf & ? & ?). rewrite Hf in Hin'.
    apply list_elem_of_singleton in Hin'. simplify_eq.
    exists r. by split_and!.
  - rewrite (proj2 Hp) in Hin'. by apply elem_of_nil in Hin'.
Qed.

(** A request is accepted once. *)
Lemma run_accepts_NoDup L σ : spec_run ∅ L σ -> NoDup (accepts L).*1.*1.
Proof.
  induction 1 as [|L σ l σ' Hr IH Hs]; [constructor|].
  rewrite accepts_app. destruct Hs as [σ q r cb Hq|σ q r call Hq Hreq Ho]; cbn; [|by rewrite app_nil_r].
  rewrite !fmap_app. cbn. apply NoDup_app. split_and!; [done| |apply NoDup_singleton].
  intros p Hin ->%list_elem_of_singleton.
  apply list_elem_of_fmap in Hin as ([p cb'] & -> & ([[p' r'] cb''] & [= -> ->] & Hin)%list_elem_of_fmap).
  cbn in Hq. pose proof (run_status L σ p' Hr) as Hp. rewrite Hq in Hp. by eapply Hp.
Qed.

(** ** Implementations *)

(** [A] are the actions: calls of [sendRequest] by users, given by [conn_request],
    and everything else that can happen.  [conn_step s a returned s']: the action
    returned, or threw an exception.  Some callbacks belong to the connection
    itself. *)
Class Connection (S A : Type) : Type := {
  conn_initial : S -> Prop;
  conn_step : S -> A -> bool -> S -> Prop;
  conn_request : A -> option (Request * CB);
  conn_internal : CB -> bool;
  conn_calls : S -> list (nat * cb_event CB);
}.

(** What is the user's in a request: a connection may complete the rest of it, the
    id, the version and the database. *)
Definition same_content (r r' : Request) : Prop :=
  restVerb (rq_header r') = restVerb (rq_header r) /\ path (rq_header r') = path (rq_header r)
  /\ parameters (rq_header r') = parameters (rq_header r) /\ meta (rq_header r') = meta (rq_header r)
  /\ _payload r' = _payload r /\ _payloadLength r' = _payloadLength r
  /\ _isVpack r' = _isVpack r /\ _timeout r' = _timeout r.

(** The requests an action may accept: a call of [sendRequest] accepts its request
    when it returns, and nothing when it throws. *)
Definition accepts_ok {S A : Type} {HC : Connection S A} (a : A) (returned : bool)
    (acc : list (nat * Request * CB)) : Prop :=
  match conn_request a with
  | Some (request, cb) =>
      if returned then exists p r, acc = [(p, r, cb)] /\ same_content request r else acc = []
  | None => forall p r cb, (p, r, cb) ∈ acc -> conn_internal cb = true
  end.

Class ConnectionLaws (S A : Type) `{HC : Connection S A} : Type := {
  conn_rel : S -> spec -> Prop;
  conn_initial_law : forall s, conn_initial s -> conn_rel s ∅ /\ conn_calls s = [];
  conn_step_law : forall s σ a returned s', conn_rel s σ -> conn_step s a returned s' ->
    exists L σ', spec_run σ L σ' /\ conn_rel s' σ'
      /\ conn_calls s' = conn_calls s ++ answers L /\ accepts_ok a returned (accepts L);
  conn_user_law : forall a r cb, conn_request a = Some (r, cb) -> conn_internal cb = false;
}.

Section Runs.
Context {S A : Type} `{ConnectionLaws S A}.

(** The actions of a run, and whether they returned. *)
Inductive conn_reaches : list (A * bool) -> S -> Prop :=
| conn_reaches_initial s : conn_initial s -> conn_reaches [] s
| conn_reaches_step acts s a b s' :
    conn_reaches acts s -> conn_step s a b s' -> conn_reaches (acts ++ [(a, b)]) s'.

(** The requests that calls of [sendRequest] have accepted. *)
Definition user_request (ab : A * bool) : option (Request * CB) :=
  if ab.2 then conn_request ab.1 else None.
Definition user_requests (acts : list (A * bool)) : list (Request * CB) := omap user_request acts.

Definition user_accepts (L : list label) : list (nat * Request * CB) :=
  filter (fun a => conn_internal a.2 = false) (accepts L).
Definition accepted_as (request : Request * CB) (a : nat * Request * CB) : Prop :=
  a.2 = request.2 /\ same_content request.1 a.1.2.

Lemma user_accepts_step a returned L :
  accepts_ok a returned (accepts L) -> Forall2 accepted_as (user_requests [(a, returned)]) (user_accepts L).
Proof.
  unfold accepts_ok, user_requests, user_accepts, user_request. cbn.
  destruct (conn_request a) as [[request cb]|] eqn:Hreq; [destruct returned|].
  - intros (p & r & -> & Hsame). rewrite filter_cons_True by by eapply conn_user_law. constructor; [by split|constructor].
  - intros ->. constructor.
  - intros Hint. replace (if returned then None else None) with (@None (Request * CB)) by by destruct returned.
    assert (filter (fun a => conn_internal a.2 = false) (accepts L) = []) as ->; [|constructor].
    induction (accepts L) as [|[[p r] cb] l IH]; [done|]. rewrite filter_cons_False.
    + apply IH. intros p' r' cb' Hin. apply (Hint p' r' cb'). by right.
    + cbn. rewrite (Hint p r cb); [done|left].
Qed.

(** Every run of the implementation is a run of the contract, which accepts the
    requests of the users' calls that returned, in order. *)
Lemma conn_reaches_run acts s :
  conn_reaches acts s ->
  exists L σ, spec_run ∅ L σ /\ conn_rel s σ /\ conn_calls s = answers L
    /\ Forall2 accepted_as (user_requests acts) (user_accepts L).
Proof.
  induction 1 as [s Hs|acts s a b s' _ (L & σ & Hr & Hrel & Hc & Hu) Hstep].
  - destruct (conn_initial_law s Hs) as [Hrel Hc]. exists [], ∅. by split_and!; [constructor|..|constructor].
  - destruct (conn_step_law s σ a b s' Hrel Hstep) as (L' & σ' & Hr' & Hrel' & Hc' & Hacc).
    exists (L ++ L'), σ'. split_and!; [by eapply spec_run_app|done|by rewrite Hc', Hc, answers_app|].
    unfold user_requests, user_accepts. rewrite omap_app, accepts_app, filter_app.
    apply Forall2_app; [done|by apply user_accepts_step].
Qed.
End Runs.
End Contract.
Arguments status CB : clear implicits.
Arguments label CB : clear implicits.
Arguments Connection CB S A : clear implicits.
Arguments ConnectionLaws CB S A {HC}.
