(* ===== verification/VstContract.v ===== *)
(** * The VST connection implements the contract

    A forward simulation of [VstConnection] (VstConnection.v) by the abstract
    machine of Contract.v.  The status of a request is read off its item
    ([item_status]); [tracks] says that what has happened since some state is a
    run of the abstract machine, and every operation of the connection keeps it.

    - [vst_refines_contract]: what a VST connection does is what the contract
      allows, also when handlers throw. *)
From S2P Require Import Prelude StdMap Types Endian Chunk VPack ToyVPack Message HeaderCodec RequestItem MessageStore VstConnection VstInvariant VstReceive VstProperties Contract.
Local Open Scope Z_scope.

Section VstContract.
Context {VP : VPack} {VB : VBuffer} `{StdSort ChunkHeader}.
Context (host : byte_order) (hdr0 : list byte) (chunk0 : ChunkHeader).
Context (conf : ConnectionConfiguration).

(** ** The abstraction *)
Definition item_status (i : RequestItem callback) : status callback :=
  match _invoked (_callback i), _request i, _cb (_callback i) with
  | false, Some r, Some cb => Waiting r cb
  | _, _, _ => Answered
  end.

(** The items are well-formed: a request not answered is there, with the id of
    its item and a callback. *)
Definition item_wf (i : RequestItem callback) : Prop :=
  done i \/ exists r cb, _callback i = MkCallOnce false (Some cb) /\ _request i = Some r
                      /\ rq_messageID r = ri_messageID i.

Definition vst_call (e : event) : option (nat * cb_event callback) :=
  match e with EvCallback p call => Some (p, call) | _ => None end.
Definition vst_calls (s : VstConnection) : list (nat * cb_event callback) := omap vst_call (trace s).

Record vst_rel (s : VstConnection) (σ : gmap nat (status callback)) : Prop := {
  vr_status : forall p, σ !! p = item_status <$> items s !! p;
  vr_items : forall p i, items s !! p = Some i -> item_wf i;
}.

(** What has happened since [σ0] and [c0], with the requests accepted. *)
Definition tracks (σ0 : gmap nat (status callback)) (c0 : list (nat * cb_event callback))
    (acc : list (nat * Request * callback)) (s : VstConnection) : Prop :=
  exists L σ, spec_run σ0 L σ /\ vst_rel s σ /\ vst_calls s = c0 ++ answers L /\ accepts L = acc.

Lemma vst_rel_items s s' σ : items s' = items s -> vst_rel s σ -> vst_rel s' σ.
Proof. intros Hi []. by split; rewrite Hi. Qed.

(** Steps that the abstract machine does not see. *)
Lemma tracks_same σ0 c0 acc s s' :
  items s' = items s -> vst_calls s' = vst_calls s -> tracks σ0 c0 acc s -> tracks σ0 c0 acc s'.
Proof.
  intros Hi Hc (L & σ & Hr & Hrel & Hcalls & Ha). exists L, σ.
  split_and!; [done|by eapply vst_rel_items|by rewrite Hc|done].
Qed.

(** Replacing an item by one of the same status. *)
Lemma tracks_put σ0 c0 acc s p i i' :
  items s !! p = Some i -> item_status i' = item_status i -> (item_wf i -> item_wf i') ->
  tracks σ0 c0 acc s -> tracks σ0 c0 acc (set_items (<[p := i']> (items s)) s).
Proof.
  intros Hi Hst Hwf (L & σ & Hr & [Hs Hw] & Hc & Ha). exists L, σ. split_and!; [done| |done..].
  split; cbn; intros q.
  - rewrite Hs. destruct (decide (q = p)) as [->|Hne].
    + rewrite list_lookup_insert_eq, Hi by by eapply lookup_lt_Some. cbn. by rewrite Hst.
    + by rewrite list_lookup_insert_ne.
  - intros j [(-> & <- & _)|[_ Hj]]%list_lookup_insert_Some; [apply Hwf|]; by eapply Hw.
Qed.

(** A new item is a request accepted. *)
Lemma tracks_accept σ0 c0 acc s i r cb :
  _callback i = MkCallOnce false (Some cb) -> _request i = Some r -> rq_messageID r = ri_messageID i ->
  tracks σ0 c0 acc s ->
  tracks σ0 c0 (acc ++ [(length (items s), r, cb)]) (set_items (items s ++ [i]) s).
Proof.
  intros Hcb Hr Hid (L & σ & Hrun & [Hs Hw] & Hc & Ha). set (n := length (items s)).
  assert (items s !! n = None) as Hn by by apply lookup_ge_None_2.
  exists (L ++ [Accepts n r cb]), (<[n := Waiting r cb]> σ). split_and!.
  - econstructor; [done|]. constructor. by rewrite Hs, Hn.
  - split; cbn; intros q.
    + destruct (decide (q = n)) as [->|Hne].
      * rewrite lookup_insert_eq. rewrite list_lookup_middle by done. cbn. unfold item_status. by rewrite Hcb, Hr.
      * rewrite lookup_insert_ne, Hs by done. f_equal. destruct (decide (q < n)%nat).
        -- by rewrite lookup_app_l.
        -- by rewrite !lookup_ge_None_2 by (rewrite ?length_app; cbn; lia).
    + intros j [Hj|[_ Hj]]%lookup_app_Some; [by eapply Hw|].
      apply list_lookup_singleton_Some in Hj as [_ <-]. right. by exists r, cb.
  - by rewrite answers_app, app_nil_r.
  - by rewrite accepts_app, Ha.
Qed.

(** Calling the callback of an item is an answer. *)
Lemma tracks_answer σ0 c0 acc s p i i' cb r call :
  items s !! p = Some i -> _callback i = MkCallOnce false (Some cb) -> _request i = Some r ->
  done i' -> ev_cb call = cb -> ev_request call = Some r -> outcome_ok r call ->
  tracks σ0 c0 acc s ->
  tracks σ0 c0 acc (set_trace (trace s ++ [EvCallback p call]) (set_items (<[p := i']> (items s)) s)).
Proof.
  intros Hi Hcb Hr Hd Hev Hreq Ho (L & σ & Hrun & [Hs Hw] & Hc & Ha).
  exists (L ++ [Answers p call]), (<[p := Answered]> σ). split_and!.
  - econstructor; [done|]. apply (spec_answer σ p r call); [|done..].
    rewrite Hs, Hi. cbn. unfold item_status. by rewrite Hcb, Hr, Hev.
  - split; cbn; intros q.
    + destruct (decide (q = p)) as [->|Hne].
      * rewrite lookup_insert_eq, list_lookup_insert_eq by by eapply lookup_lt_Some. cbn.
        unfold item_status. unfold done in Hd. by rewrite Hd.
      * rewrite lookup_insert_ne, list_lookup_insert_ne by done. apply Hs.
    + intros j [(-> & <- & _)|[_ Hj]]%list_lookup_insert_Some; [by left|by eapply Hw].
  - unfold vst_calls in *. cbn. by rewrite omap_app, Hc, answers_app, <- (assoc_L (++)).
  - by rewrite accepts_app, Ha, app_nil_r.
Qed.

(** ** The operations *)
Definition error_code (e : Z) : Prop := exists c, c <> NoError /\ c <> ErrorCastError /\ e = errorToInt c.

Section Tracks.
Context (σ0 : gmap nat (status callback)) (c0 : list (nat * cb_event callback)).
Context (acc : list (nat * Request * callback)).
Local Abbreviation T := (tracks σ0 c0 acc).

Lemma keeps_same f :
  (forall s, items (f s) = items s /\ vst_calls (f s) = vst_calls s) -> keeps T (modify f).
Proof. intros Hf. apply keeps_modify. intros s. by apply tracks_same; apply Hf. Qed.

Lemma keeps_tracks_log e : vst_call e = None -> keeps T (log e).
Proof.
  intros He. apply keeps_same. intros s. split; [done|]. unfold vst_calls. cbn.
  rewrite omap_app. cbn. by rewrite He, app_nil_r.
Qed.

Lemma keeps_tracks_get_item p : keeps T (get_item p).
Proof. apply keeps_bind; [apply keeps_reads|intros; apply keeps_lift]. Qed.

Lemma keeps_tracks_body call : keeps T (callback_body call).
Proof.
  unfold callback_body, onFailure.
  repeat (first [keeps_step | by apply keeps_same | by apply keeps_tracks_log]).
Qed.

(** The callback of an item is called with an outcome of its request. *)
Lemma triple_tracks_invoke e resp p :
  triple (fun s => T s /\ forall i r cb, items s !! p = Some i -> rq_messageID r = ri_messageID i ->
                       outcome_ok r (MkEvent (CB:=callback) cb e (Some r) resp))
    (invoke_item e resp p) (fun _ => T) T.
Proof.
  intros s [HT Ho]. unfold invoke_item, get_item, deref.
  destruct (items s !! p) as [i|] eqn:Hi; unfold mbind, stm_bind, reads, lift; cbn; rewrite Hi; [|done].
  pose proof HT as (L & σ & _ & [_ Hw] & _). unfold invokeOnError, invoke.
  destruct (Hw p i Hi) as [Hd|(r & cb & Hcb & Hr & Hid)].
  - unfold done in Hd. rewrite Hd. cbn. eapply tracks_put; [exact Hi| |by left|exact HT].
    unfold item_status. cbn. by rewrite Hd.
  - rewrite Hcb, Hr. cbn -[callback_body].
    pose proof (tracks_answer σ0 c0 acc s p i (set_callback (MkCallOnce true None) (set_request None i)) cb r
      (MkEvent cb e (Some r) resp) Hi Hcb Hr eq_refl eq_refl eq_refl (Ho i r cb eq_refl Hid) HT) as HT'.
    exact (keeps_bind T _ _ (keeps_tracks_body _) (fun _ => keeps_skip T) _ HT').
Qed.

Lemma keeps_tracks_invoke e p : error_code e -> keeps T (invoke_item e None p).
Proof.
  intros He. eapply triple_conseq; [apply triple_tracks_invoke| |done|done].
  intros s HT. split; [exact HT|]. intros i r cb _ _. exact He.
Qed.

#[local] Hint Resolve keeps_tracks_get_item keeps_tracks_invoke : keeps.
#[local] Hint Extern 1 (keeps _ (log _)) => apply keeps_tracks_log; reflexivity : keeps.
#[local] Hint Extern 2 (keeps _ (modify _)) => apply keeps_same; intros; split; reflexivity : keeps.
#[local] Hint Extern 1 (error_code _) => eexists; split_and!; [..|reflexivity]; done : keeps.

Lemma keeps_tracks_shutdown error :
  error <> NoError -> error <> ErrorCastError -> keeps T (shutdownConnection error).
Proof.
  intros H1 H2. unfold shutdownConnection, stopWriting, stopReading, shutdownSocket.
  repeat (first [apply keeps_store_cancelAll; intros; cbn; apply keeps_tracks_invoke; by exists error
                |keeps_step]).
Qed.

#[local] Hint Extern 1 (keeps _ (shutdownConnection _)) => by apply keeps_tracks_shutdown : keeps.

Lemma keeps_tracks_restarts l error :
  error <> NoError -> error <> ErrorCastError ->
  keeps T (restart_from_ReadLoop l error) /\ keeps T (restart_from_WriteLoop l error).
Proof.
  intros H1 H2. unfold restart_from_ReadLoop, restart_from_WriteLoop, restartConnection, startResolveHost, async.
  split; repeat keeps_step.
Qed.
#[local] Hint Extern 1 (keeps _ (restart_from_ReadLoop _ _)) => by apply keeps_tracks_restarts : keeps.
#[local] Hint Extern 1 (keeps _ (restart_from_WriteLoop _ _)) => by apply keeps_tracks_restarts : keeps.

Lemma keeps_tracks_readNextBytes l : keeps T (readNextBytes l).
Proof. unfold readNextBytes, shouldStopReading, async, count_async. repeat keeps_step. Qed.
#[local] Hint Resolve keeps_tracks_readNextBytes : keeps.

Lemma keeps_tracks_startReading : keeps T startReading.
Proof. unfold startReading, ReadLoop_start. repeat keeps_step. Qed.
#[local] Hint Resolve keeps_tracks_startReading : keeps.

Lemma keeps_tracks_sendNextRequest l : keeps T (sendNextRequest l).
Proof.
  unfold sendNextRequest, getNextRequestToSend, queue_removeFirst, async, count_async. repeat keeps_step.
Qed.
#[local] Hint Resolve keeps_tracks_sendNextRequest : keeps.

Lemma keeps_tracks_startWriting : keeps T startWriting.
Proof. unfold startWriting, WriteLoop_start. repeat keeps_step. Qed.
#[local] Hint Resolve keeps_tracks_startWriting : keeps.

(** A response carries the id of the item it is made for. *)
Lemma createResponse_messageID (i : RequestItem callback) l r :
  createResponse i l = Ok r -> rs_messageID r = ri_messageID i.
Proof. unfold createResponse. intros ([h n] & _ & [= <-])%bind_Ok. done. Qed.

Lemma item_same i i' :
  _callback i' = _callback i -> ri_messageID i' = ri_messageID i -> _request i' = _request i ->
  item_status i' = item_status i /\ (item_wf i -> item_wf i').
Proof. intros Hc Hid Hr. unfold item_status, item_wf, done. by rewrite Hc, Hid, Hr. Qed.

Lemma keeps_tracks_processChunk c : keeps T (processChunk c).
Proof.
  apply triple_get. intros s0. case_match eqn:Hf; [|apply triple_skip; naive_solver]. rename n into p.
  intros s [-> HT]. unfold get_item, deref, mbind, stm_bind, reads, lift. cbn.
  destruct (items s0 !! p) as [i|] eqn:Hi; [|done].
  destruct (addChunk c i) as [i1|e|w] eqn:H1; [|done..].
  destruct (assemble i1) as [[i2 o]|e|w] eqn:H2; [|done..].
  destruct (addChunk_frame _ _ _ H1) as (Hc1 & Hid1 & Hr1 & _).
  destruct (assemble_frame _ _ _ H2) as (Hc2 & Hid2 & Hr2 & _).
  destruct (item_same i i2) as [Hst Hwf]; [congruence..|].
  pose proof (tracks_put σ0 c0 acc s0 p i i2 Hi Hst Hwf HT) as HT2. cbn.
  destruct o as [buffer|]; [|exact HT2]. cbn.
  destruct (createResponse i2 buffer) as [resp|e|w] eqn:Hresp; [| |done].
  2: { eapply tracks_same; [..|exact HT2]; done. }
  refine (triple_tracks_invoke 0 (Some resp) p _ (conj _ _)).
  { eapply tracks_same; [..|exact HT2]; done. }
  cbn. rewrite list_lookup_insert_eq by by eapply lookup_lt_Some.
  intros j r cb [= <-] Hid. unfold outcome_ok. cbn. split; [done|].
  rewrite (createResponse_messageID _ _ _ Hresp). done.
Qed.
#[local] Hint Resolve keeps_tracks_processChunk : keeps.

Lemma keeps_tracks_chunks_loop fuel l cursor : keeps T (chunks_loop host chunk0 conf fuel l cursor).
Proof.
  revert cursor. induction fuel as [|fuel IH]; intros cursor; cbn [chunks_loop]; unfold consume;
    repeat (first [apply IH | keeps_step]).
Qed.
#[local] Hint Resolve keeps_tracks_chunks_loop : keeps.

Lemma keeps_tracks_write l p e : keeps T (asyncWriteCallback l p e).
Proof.
  unfold asyncWriteCallback, count_async. apply keeps_bind; [by eauto 2 with keeps|intros _].
  destruct e as [msg|]; [repeat keeps_step|].
  intros s HT. unfold get_item, deref, mbind, stm_bind, reads, lift. cbn.
  destruct (items s !! p) as [i|] eqn:Hi; [|done]. cbn.
  apply keeps_tracks_sendNextRequest. by eapply tracks_put; [exact Hi|..].
Qed.
End Tracks.
#[local] Hint Resolve keeps_tracks_startWriting keeps_tracks_startReading keeps_tracks_get_item
  keeps_tracks_invoke keeps_tracks_readNextBytes keeps_tracks_sendNextRequest
  keeps_tracks_chunks_loop keeps_tracks_write : keeps.
#[local] Hint Extern 1 (keeps _ (log _)) => apply keeps_tracks_log; reflexivity : keeps.
#[local] Hint Extern 2 (keeps _ (modify _)) => apply keeps_same; intros; split; reflexivity : keeps.
#[local] Hint Extern 1 (keeps _ (shutdownConnection _)) => by apply keeps_tracks_shutdown : keeps.
#[local] Hint Extern 1 (keeps _ (restart_from_ReadLoop _ _)) => by apply keeps_tracks_restarts : keeps.
#[local] Hint Extern 1 (keeps _ (restart_from_WriteLoop _ _)) => by apply keeps_tracks_restarts : keeps.

(** ** Accepting requests *)

(** [prepareForNetwork] completes the request of an item. *)
Lemma prepareForNetwork_request v (i i' : RequestItem callback) r :
  _request i = Some r -> prepareForNetwork host hdr0 chunk0 v i = Ok i' ->
  exists r', _request i' = Some r' /\ rq_messageID r' = rq_messageID r /\ same_content r r'.
Proof.
  unfold prepareForNetwork. intros -> (r0 & [= <-] & (h & _ & ([r1 ss] & Hs & (hs & _ & (chunks & _ & Hi)%bind_Ok)%bind_Ok)%bind_Ok)%bind_Ok)%bind_Ok.
  destruct (prepare_loop _ _ _ _ _ _) as [b bufs]. injection Hi as <-. exists r1. split; [done|].
  assert (same_content r (set_rq_header (default_header (rq_header r)) r)) as Hd.
  { unfold same_content, default_header. cbn. by destruct (database _). }
  unfold request_slices in Hs. case_match; [|by injection Hs as <- <-].
  apply bind_Ok in Hs as (ss' & _ & [= <- <-]). done.
Qed.

(** A request of the right content, with a given callback, has been accepted. *)
Definition accepted_one (request : Request) (cb : callback) (l : list (nat * Request * callback)) : Prop :=
  exists p r, l = [(p, r, cb)] /\ same_content request r.

Lemma triple_tracks_create σ0 c0 request cb :
  triple (tracks σ0 c0 []) (createRequestItem host hdr0 chunk0 conf request cb)
    (fun _ s => exists acc, tracks σ0 c0 acc s /\ accepted_one request cb acc) (tracks σ0 c0 []).
Proof.
  intros s HT. unfold createRequestItem, mbind, stm_bind, reads, lift, modify. cbn -[prepareForNetwork].
  destruct (prepareForNetwork _ _ _ _ _) as [item|e|w] eqn:Hp; [| |done].
  2: { by eapply tracks_same; [..|exact HT]. }
  pose proof Hp as (_ & Hc & Hid & _)%prepareForNetwork_inv.
  apply (prepareForNetwork_request _ _ _ (set_rq_messageID (u64 (messageID_counter s + 1)) request)) in Hp
    as (r' & Hr' & Hrid & Hsame); [|done].
  cbn in Hc, Hid, Hrid. eexists. split.
  - refine (tracks_accept σ0 c0 [] (set_messageID_counter (u64 (messageID_counter s + 1)) s)
      item r' cb Hc Hr' _ _); [congruence|].
    by eapply tracks_same; [..|exact HT].
  - by eexists _, r'.
Qed.

(** Writing and reading are started without exceptions. *)
Lemma no_throw_deref {A} (l : list A) p : no_throw (deref l p).
Proof. unfold deref. by destruct (l !! p). Qed.
#[local] Hint Resolve no_throw_deref : never_throws.

Lemma no_throw_minimumTimeout (m : MessageStore nat) (s : VstConnection) :
  no_throw (store_minimumTimeout m s).
Proof.
  unfold store_minimumTimeout. generalize (2 * 60 * 1000). induction m as [|[id p] m IH]; intros mn; [done|].
  cbn [min_loop]. apply no_throw_bind; [|done]. cbn.
  apply no_throw_bind; [apply no_throw_deref|intros i]. apply no_throw_bind; [apply no_throw_get|done].
Qed.
Lemma no_throw_item_messageID p (s : VstConnection) : no_throw (item_messageID p s).
Proof. apply no_throw_bind; [apply no_throw_deref|done]. Qed.
Lemma no_throw_send_bytes (i : RequestItem callback) : no_throw (send_bytes i).
Proof.
  unfold send_bytes, gather. apply no_throw_bind; [|done]. apply no_throw_res_map. intros b.
  unfold out_bytes, buffer_bytes. by repeat case_match.
Qed.
#[local] Hint Resolve no_throw_minimumTimeout no_throw_item_messageID no_throw_send_bytes : never_throws.

Lemma never_throws_startReading : never_throws startReading.
Proof.
  unfold startReading, ReadLoop_start, readNextBytes, shouldStopReading, async, count_async.
  repeat never_throws_step.
Qed.
#[local] Hint Resolve never_throws_startReading : never_throws.

Lemma never_throws_startWriting : never_throws startWriting.
Proof.
  unfold startWriting, WriteLoop_start, sendNextRequest, getNextRequestToSend, store_add, queue_removeFirst,
    get_item, async, count_async, log.
  repeat never_throws_step.
Qed.

Lemma triple_tracks_sendRequest σ0 c0 request cb :
  triple (tracks σ0 c0 []) (sendRequest host hdr0 chunk0 conf request cb)
    (fun _ s => exists acc, tracks σ0 c0 acc s /\ accepted_one request cb acc) (tracks σ0 c0 []).
Proof.
  eapply triple_bind; [apply triple_tracks_create|]. intros p s (acc & HT & Hacc).
  enough (triple (tracks σ0 c0 acc)
    (_ ← queue_add p; s ← reads id; _ ← (if connected s then startWriting else skip);
     item ← get_item p; mret (ri_messageID item)) (fun _ => tracks σ0 c0 acc) (fun _ => False)) as Hrest.
  { eapply triple_conseq; [exact Hrest| | | |exact HT]; [done|by exists acc|done]. }
  apply keeps_never_throws; [unfold queue_add; repeat keeps_step|].
  unfold queue_add, get_item.
  repeat (first [apply never_throws_startWriting | never_throws_step]).
Qed.

(** The requests the connection sends on its own account. *)
Definition auth_only (l : list (nat * Request * callback)) : Prop :=
  forall p r cb, (p, r, cb) ∈ l -> cb = AuthCallback.
Definition tracks_auth σ0 c0 (s : VstConnection) : Prop := exists acc, tracks σ0 c0 acc s /\ auth_only acc.

Lemma auth_only_nil : auth_only [].
Proof. by intros ??? ?%not_elem_of_nil. Qed.

Lemma triple_auth {A} σ0 c0 (m : stm VstConnection A) :
  (forall acc, keeps (tracks σ0 c0 acc) m) -> keeps (tracks_auth σ0 c0) m.
Proof.
  intros Hm s (acc & HT & Ha). specialize (Hm acc s HT).
  destruct (m s) as [[a|e|w] s']; [by exists acc|by exists acc|done].
Qed.

Lemma keeps_tracks_init_failed σ0 c0 acc msg :
  keeps (tracks σ0 c0 acc) (init_handler host hdr0 chunk0 conf (Some msg)).
Proof. cbn [init_handler]. unfold onFailure. repeat keeps_step. Qed.

Lemma keeps_auth_init σ0 c0 e :
  triple (tracks σ0 c0 []) (init_handler host hdr0 chunk0 conf e) (fun _ => tracks_auth σ0 c0) (tracks_auth σ0 c0).
Proof.
  assert (forall s, tracks σ0 c0 [] s -> tracks_auth σ0 c0 s) as Hnil.
  { intros s HT. exists []. split; [exact HT|apply auth_only_nil]. }
  destruct e as [msg|].
  { eapply triple_conseq; [apply (keeps_tracks_init_failed σ0 c0 [] msg)|done|intros ?; exact Hnil|exact Hnil]. }
  cbn [init_handler].
  apply triple_bind with (R := fun _ => tracks_auth σ0 c0).
  - unfold insertAuthenticationRequests. destruct (_authenticationType conf).
    + apply triple_skip. exact Hnil.
    + eapply triple_bind; [eapply triple_conseq; [apply triple_tracks_create|done|done|exact Hnil]|].
      intros p. apply triple_modify. intros s (acc & HT & q & r & -> & _). eexists. split.
      * by eapply tracks_same; [..|exact HT].
      * by intros ??? [= -> -> ->]%list_elem_of_singleton.
    + apply triple_lift; [done|exact Hnil].
  - intros []. apply triple_auth. intros acc.
    change (keeps (tracks σ0 c0 acc) (_ ← modify (set_connected true); _ ← startWriting; startReading)).
    repeat keeps_step.
Qed.

Lemma keeps_tracks_connect σ0 c0 acc e ends :
  keeps (tracks σ0 c0 acc) (resolve_handler e ends) /\ keeps (tracks σ0 c0 acc) (asyncConnectCallback conf e)
  /\ keeps (tracks σ0 c0 acc) (handshake_handler conf e).
Proof.
  unfold resolve_handler, initSocket, startConnect, asyncConnectCallback, handshake_handler,
    startSSLHandshake, finishInitialization, shutdownSocket, onFailure, async.
  split_and!; repeat keeps_step.
Qed.

Lemma keeps_tracks_read σ0 c0 acc l e data :
  keeps (tracks σ0 c0 acc) (asyncReadCallback host chunk0 conf l e data).
Proof. unfold asyncReadCallback, count_async. repeat keeps_step. Qed.

Lemma tracks_handler σ0 c0 h o :
  triple (tracks σ0 c0 []) (run_handler host hdr0 chunk0 conf h o)
    (fun _ => tracks_auth σ0 c0) (tracks_auth σ0 c0).
Proof.
  assert (forall A (m : stm VstConnection A), (forall acc, keeps (tracks σ0 c0 acc) m) ->
    triple (tracks σ0 c0 []) m (fun _ => tracks_auth σ0 c0) (tracks_auth σ0 c0)) as Hk.
  { intros A m Hm. eapply triple_conseq; [exact (triple_auth σ0 c0 m Hm)| |done|done].
    intros s HT. exists []. split; [exact HT|apply auth_only_nil]. }
  destruct h; cbn [run_handler].
  - apply Hk. intros acc. by apply (keeps_tracks_connect σ0 c0 acc (out_error o) (out_endpoints o)).
  - apply Hk. intros acc. by apply (keeps_tracks_connect σ0 c0 acc (out_error o) (out_endpoints o)).
  - apply Hk. intros acc. by apply (keeps_tracks_connect σ0 c0 acc (out_error o) (out_endpoints o)).
  - apply keeps_auth_init.
  - apply Hk. intros acc. apply keeps_tracks_read.
  - apply Hk. intros acc. unfold ReadLoop_deadlineHandler. repeat keeps_step.
  - apply Hk. intros acc. apply keeps_tracks_write.
  - apply Hk. intros acc. unfold WriteLoop_deadlineHandler. repeat keeps_step.
Qed.

(** ** The implementation of the contract *)
Definition vst_perform (s : VstConnection) (a : action) (returned : bool) (s' : VstConnection) : Prop :=
  if returned then perform host hdr0 chunk0 conf a s = (Ok (), s')
  else exists e, perform host hdr0 chunk0 conf a s = (Throw e, s').
Definition is_auth (cb : callback) : bool := match cb with AuthCallback => true | UserCallback _ => false end.

#[export] Instance vst_Connection : Connection callback VstConnection action := {
  conn_initial := initial;
  conn_step := vst_perform;
  conn_request a := match a with ASend request cb => Some (request, UserCallback cb) | AHandler _ _ => None end;
  conn_internal := is_auth;
  conn_calls := vst_calls;
}.

Lemma tracks_start s σ : vst_rel s σ -> tracks σ (vst_calls s) [] s.
Proof. intros Hrel. exists [], σ. split_and!; [constructor|done|by rewrite app_nil_r|done]. Qed.

Lemma vst_step_law s σ a returned s' :
  vst_rel s σ -> vst_perform s a returned s' ->
  exists acc, tracks σ (vst_calls s) acc s' /\ accepts_ok a returned acc.
Proof.
  intros HT%tracks_start Hp. destruct a as [request cb|n o]; unfold accepts_ok; cbn -[same_content].
  - pose proof (triple_tracks_sendRequest σ (vst_calls s) request (UserCallback cb) s HT) as Ht.
    unfold vst_perform in Hp. cbn [perform] in Hp. unfold mbind, stm_bind in Hp.
    destruct (sendRequest _ _ _ _ _ _ s) as [[id|e|w] s1]; destruct returned; cbn in Hp; try by simplify_eq.
    + injection Hp as <-. destruct Ht as (acc & ? & ?). by exists acc.
    + destruct Hp as [? ?]. simplify_eq.
    + destruct Hp as [? Hp]. injection Hp as _ <-. by exists [].
    + destruct Hp as [? ?]. simplify_eq.
  - assert (tracks_auth σ (vst_calls s) s') as (acc & HT' & Ha).
    2: { exists acc. split; [exact HT'|]. intros p r cb Hin. by rewrite (Ha p r cb Hin). }
    unfold vst_perform in Hp. cbn [perform] in Hp. unfold mbind, stm_bind, reads in Hp. cbn in Hp.
    destruct (pending s !! n) as [h|].
    + set (s1 := set_pending (delete n (pending s)) s) in Hp.
      assert (tracks σ (vst_calls s) [] s1) as HT1 by by eapply tracks_same; [..|exact HT].
      pose proof (tracks_handler σ (vst_calls s) h o s1 HT1) as Ht.
      destruct returned; [by rewrite Hp in Ht|]. destruct Hp as [e Hp]. by rewrite Hp in Ht.
    + destruct returned; [|by destruct Hp as [? [=]]]. injection Hp as <-.
      exists []. split; [exact HT|apply auth_only_nil].
Qed.

Lemma vst_initial_law s : initial s -> vst_rel s ∅ /\ vst_calls s = [].
Proof.
  intros [= <-]. split; [|done]. split; cbn; [done|]. intros p i. by rewrite lookup_nil.
Qed.

#[export] Program Instance vst_ConnectionLaws : ConnectionLaws callback VstConnection action := {
  conn_rel := vst_rel;
  conn_initial_law := vst_initial_law;
}.
Next Obligation.
  intros s σ a returned s' Hrel Hp.
  destruct (vst_step_law s σ a returned s' Hrel Hp) as (acc & (L & σ' & ? & ? & ? & ?) & ?).
  exists L, σ'. split_and!; [done..|by subst].
Qed.
Next Obligation. by intros [request n|n o] r c [= <- <-]. Qed.

(** C1: a VST connection implements the contract.  Whatever users send and however
    operations complete, fail, time out or throw, what the connection has done is a
    run of the abstract machine: it has accepted exactly the requests of the calls
    of [sendRequest] that returned, in order, and called exactly the callbacks the
    machine has called, each with an outcome of its own request; and the machine
    knows the status of every item. *)
Theorem vst_refines_contract (acts : list (action * bool)) (s : VstConnection) :
  conn_reaches acts s ->
  exists L σ, spec_run ∅ L σ
    /\ vst_calls s = answers L
    /\ Forall2 accepted_as (user_requests acts) (user_accepts L)
    /\ forall p, σ !! p = item_status <$> items s !! p.
Proof.
  intros (L & σ & Hr & [Hs _] & Hc & Hu)%conn_reaches_run. by exists L, σ.
Qed.

(** The states of [reaches] are those of [conn_reaches]. *)
Lemma reaches_conn_reaches b n s :
  reaches host hdr0 chunk0 conf b n s -> exists acts, conn_reaches acts s /\ length acts = n.
Proof.
  induction 1 as [s Hs|b n s a s' _ (acts & IH & Hl) Ha|b n s a e s' _ (acts & IH & Hl) Ha].
  - exists []. split; [by constructor|done].
  - exists (acts ++ [(a, true)]). split; [by eapply conn_reaches_step|]. rewrite length_app, Hl. cbn. lia.
  - exists (acts ++ [(a, false)]). split; [eapply conn_reaches_step; [done|by exists e]|].
    rewrite length_app, Hl. cbn. lia.
Qed.
End VstContract.

(** ** Witnesses *)
Lemma ex_run_conn_reaches acts0 acts s0 s :
  let C := vst_Connection LittleEndianHost (le_bytes 24 0) ex_chunk ex_conf in
  conn_reaches (HC := C) acts0 s0 -> ex_run acts s0 = Some s ->
  conn_reaches (HC := C) (acts0 ++ ((fun a => (a, true)) <$> acts)) s.
Proof.
  cbn zeta. revert acts0 s0. induction acts as [|a acts IH]; intros acts0 s0 H0; cbn [ex_run].
  - intros [= <-]. cbn. by rewrite app_nil_r.
  - unfold ex_perform. destruct (perform _ _ _ _ a s0) as [[[]|e|w] s1] eqn:Ha; [|done|done]. intros Hs.
    cbn [fmap list_fmap]. rewrite cons_middle, (assoc_L (++)). apply (IH _ s1); [|done].
    by eapply conn_reaches_step.
Qed.

Lemma vst_refines_contract_witness :
  exists L σ, spec_run ∅ L σ /\ vst_calls ex_sent = answers L /\ is_Some (σ !! 0%nat).
Proof.
  destruct (vst_refines_contract LittleEndianHost (le_bytes 24 0) ex_chunk ex_conf
    ((fun a => (a, true)) <$> (ex_connect ++ [ASend ex_request 5])) ex_sent) as (L & σ & H1 & H2 & _ & H3).
  - apply (ex_run_conn_reaches [] _ ex_start); [by constructor|]. vm_compute. reflexivity.
  - exists L, σ. split; [exact H1|]. split; [exact H2|]. rewrite H3. eexists. reflexivity.
Defined.
