(* ===== verification/VstStage.v ===== *)
(** * What a VST connection writes: stages

    The data written to the first socket of a connection, the messages they are made of,
    and what each operation does about them: a [Stage] is a property of the state that
    reading and calls of callbacks leave alone, and [Over] holds when the first socket is
    gone, so that nothing is written to it any more.  VstWriting.v follows the connection up
    to there. *)
From S2P Require Import Prelude StdMap Types Endian Chunk VPack ToyVPack Message HeaderCodec RequestItem MessageStore VstConnection VstInvariant VstProperties VstContract.
Local Open Scope Z_scope.

Section Writing.
Context {VP : VPack} {VB : VBuffer} `{StdSort ChunkHeader}.
Context (host : byte_order) (hdr0 : list byte) (chunk0 : ChunkHeader).
Context (conf : ConnectionConfiguration).
Local Abbreviation v := (_vstVersion conf).

(** The data written to a socket, write by write. *)
Definition written_to (sock : nat) (e : event) : option (list byte) :=
  match e with EvWrite (TcpStream k) data => if Nat.eqb k sock then Some data else None | _ => None end.
Definition writes (sock : nat) (s : VstConnection) : list (list byte) := omap (written_to sock) (trace s).

(** A message: the id of a request and the bytes prepared for it. *)
Definition message : Type := Z * res (list byte).
Definition created (id : Z) (request : Request) (cb : callback) : RequestItem callback :=
  set_request (Some (set_rq_messageID id request))
    (set_callback (assign_CallOnce cb new_CallOnce) (set_ri_messageID id new_RequestItem)).
Definition message_of (request : Request) (cb : callback) (m : message) : Prop :=
  exists i, prepareForNetwork host hdr0 chunk0 v (created m.1 request cb) = Ok i /\ m = (ri_messageID i, send_bytes i).
Definition user_message (m : message) : Prop := exists request cb, message_of request (UserCallback cb) m.

(** The request of [insertAuthenticationRequests]. *)
Definition authentication_request : Request :=
  let req := new_Request emptyHeader [] in
  let h := set_type (Some MT_Authentication) (rq_header req) in
  let h := set_encryption (Some "plain") h in
  let h := set_user (Some (_user conf)) h in
  let h := set_password (Some (_password conf)) h in
  set_rq_header h req.
Definition authentication (ms : list message) : Prop :=
  match _authenticationType conf with
  | AT_Basic => exists m, ms = [m] /\ message_of authentication_request AuthCallback m
  | _ => ms = []
  end.

(** The messages of requests in the order of their ids, behind the authentication. *)
Definition by_id (ms : list message) : Prop := StronglySorted (fun m m' => m.1 < m'.1) ms.
Definition in_order (ms : list message) : Prop :=
  exists auth users, ms = auth ++ users /\ authentication auth /\ Forall user_message users /\ by_id users.
(** There are ids left. *)
Definition room (s : VstConnection) : Prop := 0 <= messageID_counter s < 2 ^ 64 - 1.

Lemma createRequestItem_spec request cb s :
  room s ->
  let s1 := set_messageID_counter (messageID_counter s + 1) s in
  match createRequestItem host hdr0 chunk0 conf request cb s with
  | (Ok p, s') => exists i, p = length (items s) /\ s' = set_items (items s ++ [i]) s1
      /\ ri_messageID i = messageID_counter s + 1 /\ message_of request cb (ri_messageID i, send_bytes i)
  | (Throw _, s') => s' = s1
  | (Undef _, _) => True
  end.
Proof.
  intros Hc s1. unfold createRequestItem, mbind, stm_bind, reads, lift, modify. cbn -[prepareForNetwork].
  unfold room in Hc. rewrite u64_id by lia. fold (created (messageID_counter s + 1) request cb). fold s1.
  destruct (prepareForNetwork _ _ _ _ _) as [i|e|w] eqn:Hp; [|done..].
  pose proof (prepareForNetwork_inv _ _ _ _ _ _ Hp) as (_ & _ & Hid & _). cbn in Hid.
  exists i. split_and!; [done..|]. exists i. cbn. by rewrite Hid.
Qed.


(** ** What the operations see of an item *)
Definition sent_as (i : RequestItem callback) : message := (ri_messageID i, send_bytes i).
Definition item_message (s : VstConnection) (p : nat) : option message := sent_as <$> items s !! p.
Definition queued (s : VstConnection) : list (option message) := item_message s <$> sendQueue s.

(** The operations that set a connection up, by their handlers. *)
Definition sets_up (h : handler) : Prop :=
  match h with HResolve | HConnect | HHandshake | HInit => True | _ => False end.
(** The other operations, writes apart. *)
Definition routine (h : handler) : Prop :=
  match h with HRead _ | HReadDeadline _ _ | HWriteDeadline _ _ => True | _ => False end.
Definition is_write (e : event) : Prop := match e with EvWrite _ _ => True | _ => False end.

(** A property of the state that reading, the calls of callbacks and the bookkeeping of both
    do not touch. *)
Class Stage (I : VstConnection -> Prop) : Prop := {
  stage_log e s : ~ is_write e -> I s -> I (set_trace (trace s ++ [e]) s);
  stage_async h s : routine h -> I s -> I (set_pending (pending s ++ [h]) s);
  stage_item p i i' s : items s !! p = Some i -> sent_as i' = sent_as i -> I s ->
    I (set_items (<[p := i']> (items s)) s);
  stage_calls z s : I s -> I (set_async_calls z s);
  stage_failure b s : I s -> I (set_permanent_failure b s);
  stage_store m s : I s -> I (set_messageStore m s);
  stage_readLoops ls s : I s -> I (set_readLoops ls s);
  stage_readLoop l s : I s -> I (set_readLoop_current l s);
}.

Lemma stage_and I J : Stage I -> Stage J -> Stage (fun s => I s /\ J s).
Proof. intros HI HJ. split; intros; destruct_and?; split; solve [by eapply HI | by eapply HJ]. Qed.

Section Reading.
Context (I : VstConnection -> Prop) `{!Stage I}.

Lemma stage_keeps_log e : ~ is_write e -> keeps I (log e).
Proof. intros He. apply keeps_modify. intros s. by apply stage_log. Qed.
Lemma stage_keeps_async h : routine h -> keeps I (async h).
Proof. intros Hh. apply keeps_modify. intros s. by apply stage_async. Qed.
Lemma stage_put p i i' :
  sent_as i' = sent_as i -> triple (fun s => I s /\ items s !! p = Some i) (put_item p i') (fun _ => I) I.
Proof. intros Hs. apply triple_modify. intros s [HI Hi]. by eapply stage_item. Qed.
Lemma stage_get_item p :
  triple I (get_item p) (fun i s => I s /\ items s !! p = Some i) I.
Proof.
  apply triple_get. intros s0 s [-> HI]. unfold lift, deref. by destruct (items s0 !! p) eqn:E.
Qed.
#[local] Hint Extern 1 (keeps I (log _)) => apply stage_keeps_log; exact (fun H => H) : keeps.
#[local] Hint Extern 1 (keeps I (async _)) => apply stage_keeps_async; exact Logic.I : keeps.
#[local] Hint Extern 1 (keeps I (count_async _)) => apply keeps_modify; intros ?; apply stage_calls : keeps.
#[local] Hint Extern 1 (keeps I (modify (set_permanent_failure _))) =>
  apply keeps_modify; intros ?; apply stage_failure : keeps.
#[local] Hint Extern 1 (keeps I (modify (set_readLoop_current _))) =>
  apply keeps_modify; intros ?; apply stage_readLoop : keeps.
#[local] Hint Extern 1 (keeps I (modify (set_readLoops _))) =>
  apply keeps_modify; intros ?; apply stage_readLoops : keeps.

Lemma stage_run_callback p c : keeps I (run_callback p c).
Proof. unfold run_callback, callback_body, onFailure. repeat keeps_step. Qed.
#[local] Hint Resolve stage_run_callback : keeps.

Lemma stage_invoke_item e r p : keeps I (invoke_item e r p).
Proof.
  eapply triple_bind; [apply stage_get_item|]. intros i.
  eapply triple_bind with (R := fun x s => (I s /\ items s !! p = Some i) /\ sent_as x.1 = sent_as i).
  { apply triple_lift; [|by intros s []]. intros [i' evs] s Hi ?. split; [done|].
    unfold invokeOnError in Hi. inv_ok. by repeat case_match; simplify_eq. }
  intros [i' evs]. eapply triple_bind with (R := fun _ => I);
    [|intros _; apply keeps_for_each, stage_run_callback].
  intros s [? Hs]. by apply (stage_put p i i' Hs).
Qed.
#[local] Hint Resolve stage_invoke_item : keeps.

Lemma stage_processChunk c : keeps I (processChunk c).
Proof.
  apply triple_get. intros s0. case_match; [|by apply triple_skip; intros s []]. rename n into p.
  eapply triple_bind with (R := fun i s => I s /\ items s !! p = Some i).
  { intros s [_ HI]. by apply stage_get_item. }
  intros i. eapply triple_bind with (R := fun i' s => (I s /\ items s !! p = Some i) /\ sent_as i' = sent_as i).
  { apply triple_lift; [|by intros s []]. intros i' s Hi ?. split; [done|].
    unfold addChunk in Hi. by inv_ok. }
  intros i1. eapply triple_bind with (R := fun x s => (I s /\ items s !! p = Some i) /\ sent_as x.1 = sent_as i).
  { apply triple_lift; [|by intros s [[] _]]. intros [i2 o] s Hi [? <-]. split; [done|].
    unfold assemble in Hi. repeat case_match; inv_ok; by simplify_eq. }
  intros [i2 o]. eapply triple_bind with (R := fun _ => I).
  { intros s [? Hs]. by apply (stage_put p i i2 Hs). }
  intros _. change (keeps I (match o with None => skip | Some buffer =>
    _ ← modify (fun s => set_messageStore (store_removeByID (ri_messageID i2) (messageStore s)) s);
    response ← lift (createResponse i2 buffer); invoke_item 0 (Some response) p end)).
  repeat (first [apply keeps_modify; intros s; apply stage_store | keeps_step]).
Qed.
#[local] Hint Resolve stage_processChunk : keeps.

Lemma stage_chunks_loop fuel l cur : keeps I (chunks_loop host chunk0 conf fuel l cur).
Proof.
  revert cur. induction fuel as [|fuel IH]; intros cur; cbn [chunks_loop]; unfold consume;
    repeat (first [apply IH | keeps_step]).
Qed.
Lemma stage_readNextBytes l : keeps I (readNextBytes l).
Proof. unfold readNextBytes, shouldStopReading. repeat keeps_step. Qed.
#[local] Hint Resolve stage_readNextBytes : keeps.
Lemma stage_startReading : keeps I startReading.
Proof. unfold startReading, ReadLoop_start. repeat keeps_step. Qed.

(** The messages in flight are cancelled. *)
Lemma stage_cancelAll e :
  keeps I (s ← reads id; m ← store_cancelAll e (messageStore s); modify (set_messageStore m)).
Proof.
  repeat (first [apply keeps_store_cancelAll; intros; apply stage_invoke_item
    | apply keeps_modify; intros s; apply stage_store | keeps_step]).
Qed.

(** What follows a step that neither throws nor leaves the stage. *)
Lemma stage_then {A B} (m : stm VstConnection A) (f : A -> stm VstConnection B) Q E :
  keeps I m -> never_throws m -> (forall a, triple I (f a) Q E) -> triple I (m ≫= f) Q E.
Proof.
  intros Hk Hn Hf. eapply triple_bind; [|exact Hf].
  eapply triple_conseq; [by apply keeps_never_throws|done..].
Qed.
End Reading.

Lemma writes_log sock s e :
  writes sock (set_trace (trace s ++ [e]) s) = writes sock s ++ match written_to sock e with Some d => [d] | None => [] end.
Proof. unfold writes. cbn. rewrite omap_app. cbn. by destruct (written_to sock e). Qed.
Lemma writes_log_other sock s e :
  written_to sock e = None -> writes sock (set_trace (trace s ++ [e]) s) = writes sock s.
Proof. intros He. rewrite writes_log, He. apply app_nil_r. Qed.
Lemma no_write_to e sock : ~ is_write e -> written_to sock e = None.
Proof. by destruct e. Qed.

(** The requests accepted up to the id [c] are among the messages [L]. *)
Record accounts (c : Z) (L : list message) (s : VstConnection) : Prop := {
  ac_counter : c <= messageID_counter s;
  ac_bound : Forall (fun m => m.1 <= c) L;
  ac_items : forall p i, items s !! p = Some i -> ri_messageID i <= c -> ri_messageID i ∈ L.*1;
}.

Lemma accounts_put c L p i i' s :
  items s !! p = Some i -> ri_messageID i' = ri_messageID i -> accounts c L s ->
  accounts c L (set_items (<[p := i']> (items s)) s).
Proof.
  intros Hi Hid []. split; cbn; try done.
  intros q j [(-> & <- & _)|[_ Hj]]%list_lookup_insert_Some; [|by eapply ac_items0].
  rewrite Hid. by eapply ac_items0.
Qed.

(** ** After the first connection *)
Section Over.
Context (c : Z) (L : list message) (ws : list (list byte)).

(** The loop [l] does not write to the first socket. *)
Definition elsewhere (l : nat) (s : VstConnection) : Prop :=
  forall wl, writeLoops s !! l = Some wl -> wl_socket wl <> Some 0%nat.

(** The first socket is gone: nothing more is written to it. *)
Record Over (s : VstConnection) : Prop := {
  ov_sockets : (1 <= sockets s)%nat;
  ov_socket : socket s <> Some 0%nat;
  ov_loop : forall l, writeLoop_current s = Some l -> elsewhere l s;
  ov_writes : writes 0 s = ws;
  ov_accounts : accounts c L s;
}.

Lemma Over_log s e : written_to 0 e = None -> Over s -> Over (set_trace (trace s ++ [e]) s).
Proof.
  intros He []. split; try done; [by rewrite writes_log_other|]. by destruct ov_accounts0.
Qed.
Lemma Over_put p i i' s :
  items s !! p = Some i -> ri_messageID i' = ri_messageID i -> Over s ->
  Over (set_items (<[p := i']> (items s)) s).
Proof. intros Hi Hid []. split; try done. by eapply accounts_put. Qed.

#[export] Instance Over_stage : Stage Over.
Proof.
  split.
  - intros e s He. apply Over_log. by apply no_write_to.
  - intros h s _ []. by split; try done; destruct ov_accounts0.
  - intros p i i' s Hi [= Hid _]. by eapply Over_put.
  - intros z s []. by split; try done; destruct ov_accounts0.
  - intros b s []. by split; try done; destruct ov_accounts0.
  - intros m s []. by split; try done; destruct ov_accounts0.
  - intros m s []. by split; try done; destruct ov_accounts0.
  - intros m s []. by split; try done; destruct ov_accounts0.
Qed.

Ltac over_field := apply keeps_modify; let s := fresh in let H := fresh in intros s H; destruct H as [? ? ? ? Hacc]; split; try done; by destruct Hacc.
#[local] Hint Extern 3 (keeps Over (modify _)) => over_field : keeps.
#[local] Hint Extern 1 (keeps Over (async _)) => over_field : keeps.
#[local] Hint Extern 1 (keeps Over (count_async _)) => over_field : keeps.
#[local] Hint Extern 1 (keeps Over (queue_add _)) => over_field : keeps.
#[local] Hint Extern 1 (keeps Over (queue_insert _)) => over_field : keeps.
#[local] Hint Extern 1 (keeps Over (onFailure _ _)) => apply (stage_keeps_log Over); exact (fun H => H) : keeps.
#[local] Hint Extern 1 (keeps Over (invoke_item _ _ _)) => apply (stage_invoke_item Over) : keeps.
#[local] Hint Extern 1 (keeps Over (chunks_loop _ _ _ _ _ _)) => apply (stage_chunks_loop Over) : keeps.
#[local] Hint Extern 1 (keeps Over (readNextBytes _)) => apply (stage_readNextBytes Over) : keeps.
#[local] Hint Extern 1 (keeps Over startReading) => apply (stage_startReading Over) : keeps.

Lemma over_shutdownConnection e : keeps Over (shutdownConnection e).
Proof.
  unfold shutdownConnection, stopWriting, stopReading, shutdownSocket.
  repeat (first [apply (stage_cancelAll Over) | keeps_step]).
Qed.
#[local] Hint Resolve over_shutdownConnection : keeps.
Lemma over_restart l e : keeps Over (restart_from_ReadLoop l e) /\ keeps Over (restart_from_WriteLoop l e).
Proof.
  unfold restart_from_ReadLoop, restart_from_WriteLoop, restartConnection, startResolveHost.
  split; repeat keeps_step.
Qed.

Definition OverAt (l : nat) (s : VstConnection) : Prop := Over s /\ elsewhere l s.
#[local] Instance elsewhere_stage l : Stage (elsewhere l).
Proof. by split. Qed.
#[local] Instance OverAt_stage l : Stage (OverAt l).
Proof. apply stage_and; apply _. Qed.

Lemma over_getNextRequestToSend l :
  triple Over (getNextRequestToSend l) (fun next s => match next with Some _ => OverAt l s | None => Over s end) Over.
Proof.
  apply triple_get. intros s0. case_match eqn:Hl; [by apply triple_ret; intros s []|].
  apply negb_false_iff, bool_decide_eq_true in Hl.
  case_match; [by apply triple_ret; intros s []|]. destruct (queue_front s0) as [p|].
  2: { intros s [_ HI]. assert (keeps Over (modify (set_writeLoop_current None))) as Hm by over_field.
       exact (Hm s HI). }
  intros s [-> HI]. assert (OverAt l s0) as [[] Hs] by (split; [done|by apply ov_loop]).
  unfold store_add, queue_removeFirst, mbind, stm_bind, reads, lift, modify. cbn [id].
  destruct (item_messageID p s0) as [id|e|w]; [|done|done]. cbn.
  destruct (sendQueue s0) as [|p' q]; [done|]. cbn.
  split; [|done]. split; try done. by destruct ov_accounts0.
Qed.

(** A write loop of a later connection. *)
Lemma over_sendNextRequest l : keeps Over (sendNextRequest l).
Proof.
  eapply triple_bind; [apply over_getNextRequestToSend|].
  intros [p|]; [|by apply triple_skip].
  eapply triple_conseq with (Q' := fun _ => OverAt l) (E' := OverAt l); [|done|by intros ?? []|by intros ? []].
  change (keeps (OverAt l) (_ ← startReading; item ← get_item p;
    _ ← lift (cassert (negb (bool_decide (_requestBuffers item = []))) "_requestBuffers.size()");
    request ← lift (get (_request item));
    _ ← async (HWriteDeadline l (_timeout request));
    _ ← count_async 1;
    s ← reads id;
    wl ← lift (deref (writeLoops s) l);
    sock ← lift (get (wl_socket wl));
    data ← lift (send_bytes item);
    _ ← log (EvWrite (TcpStream sock) data);
    async (HWrite l p))).
  apply keeps_bind; [apply (stage_startReading (OverAt l))|intros _].
  apply keeps_bind; [unfold get_item; repeat keeps_step|intros i].
  do 2 (apply keeps_bind; [apply keeps_lift|intros ?]).
  apply keeps_bind; [apply (stage_keeps_async (OverAt l)); exact Logic.I|intros _].
  apply keeps_bind; [by apply keeps_modify; intros s; apply stage_calls|intros _].
  apply triple_get. intros s0. unfold deref.
  destruct (writeLoops s0 !! l) as [wl|] eqn:Hwl; [|intros ??; exact I].
  destruct (wl_socket wl) as [sock|] eqn:Hsock; [|by intros ??; unfold mbind, stm_bind, lift; rewrite Hsock].
  intros s [-> HA]. pose proof HA as [_ Hl]. specialize (Hl wl Hwl). rewrite Hsock in Hl.
  unfold mbind at 1 2, stm_bind at 1 2, lift at 1 2. rewrite Hsock. revert s0 HA Hwl. intros s0 HA _.
  enough (keeps (OverAt l) (data ← lift (send_bytes i); _ ← log (EvWrite (TcpStream sock) data);
    async (HWrite l p))) as Hk by exact (Hk s0 HA).
  apply keeps_bind; [apply keeps_lift|intros data].
  apply keeps_bind; [|intros _; apply keeps_modify; intros s [[] ?]; (split; [|done]); split; try done;
    by destruct ov_accounts0].
  apply keeps_modify. intros s [Ho ?]. split; [|done]. apply Over_log; [|done]. cbn.
  case_match eqn:E; [|done]. apply Nat.eqb_eq in E as ->. done.
Qed.
#[local] Hint Resolve over_sendNextRequest : keeps.

Lemma over_WriteLoop_start l : keeps Over (WriteLoop_start l).
Proof.
  apply triple_get. intros s0. unfold deref.
  destruct (writeLoops s0 !! l) as [wl|] eqn:Hwl; [|intros ??; exact I].
  intros s [-> HI]. unfold mbind at 1 2, stm_bind at 1 2, lift at 1, modify at 1.
  set (s1 := set_writeLoops _ _). assert (Over s1) as H1.
  { destruct HI. split; try done; [|by destruct ov_accounts0].
    intros l' Hl' wl' [(-> & <- & _)|[_ ?]]%list_lookup_insert_Some; [|by eapply ov_loop0]. cbn.
    by eapply (ov_loop0 _ Hl'). }
  apply (fun Hk : keeps Over (if wl_started wl then skip else sendNextRequest l) => Hk s1 H1).
  repeat keeps_step.
Qed.
Lemma over_startWriting : keeps Over startWriting.
Proof.
  apply triple_get. intros s0. destruct (writeLoop_current s0) eqn:Hc; [by apply triple_skip; intros s []|].
  intros s [-> HI]. unfold mbind at 1 2, stm_bind at 1 2, modify at 1 2.
  set (s1 := set_writeLoop_current _ _). assert (Over s1) as H1.
  { destruct HI. split; try done; [|by destruct ov_accounts0].
    intros l' [= <-] wl. cbn. rewrite list_lookup_middle by done. intros [= <-]. done. }
  exact (over_WriteLoop_start _ s1 H1).
Qed.
#[local] Hint Resolve over_startWriting : keeps.

Lemma over_createRequestItem request cb :
  triple (fun s => Over s /\ room s)
    (createRequestItem host hdr0 chunk0 conf request cb) (fun _ => Over) Over.
Proof.
  intros s [[] Hroom]. pose proof (createRequestItem_spec request cb s Hroom) as Hs. cbv zeta in Hs.
  assert (Over (set_messageID_counter (messageID_counter s + 1) s)) as HI.
  { split; try done. destruct ov_accounts0. split; cbn; [lia|done..]. }
  destruct (createRequestItem _ _ _ _ _ _ s) as [[p|e|w] s']; [|by subst|done].
  destruct Hs as (i & _ & -> & Hid & _). destruct HI as [? ? ? ? []]. split; try done.
  split; cbn in *; try done. intros p' j [Hj|[_ Hj]]%lookup_app_Some; [exact (ac_items0 _ _ Hj)|].
  apply list_lookup_singleton_Some in Hj as [_ <-]. destruct ov_accounts0. lia.
Qed.

Lemma over_sendRequest request cb :
  triple (fun s => Over s /\ room s) (sendRequest host hdr0 chunk0 conf request cb) (fun _ => Over) Over.
Proof.
  eapply triple_bind; [apply over_createRequestItem|intros p].
  change (keeps Over (_ ← queue_add p; s ← reads id; _ ← (if connected s then startWriting else skip);
    item ← get_item p; mret (ri_messageID item))).
  unfold get_item. repeat keeps_step.
Qed.

Lemma over_finishInitialization : keeps Over (finishInitialization conf).
Proof.
  apply triple_get. intros s0. intros s [-> HI]. unfold mbind at 1, stm_bind at 1, lift.
  destruct (socket s0) as [sock|] eqn:Hs; [|done]. cbn [get].
  unfold mbind, stm_bind, log, async, modify. cbn.
  assert (Over (set_trace (trace s0 ++ [EvWrite (TcpStream sock) (String.list_byte_of_string (vstHeader conf))]) s0))
    as [].
  { apply Over_log; [|done]. cbn. case_match eqn:E; [|done]. apply Nat.eqb_eq in E as ->.
    by destruct (ov_socket _ HI). }
  split; try done. by destruct ov_accounts0.
Qed.
#[local] Hint Resolve over_finishInitialization : keeps.

Lemma over_initSocket : keeps Over initSocket.
Proof.
  apply triple_get. intros s0.
  do 2 (eapply triple_bind; [apply triple_lift; [intros ???; exact (fun H => H)|by intros ? []]|intros ?]).
  intros s [-> HI]. unfold mbind at 1 2 3, stm_bind at 1 2 3, modify at 1 2 3.
  set (s1 := set_sslSocket _ _). assert (Over s1) as H1.
  { destruct HI. split; cbn; try done; [lia|intros [= Hz]; lia|by destruct ov_accounts0]. }
  enough (keeps Over startConnect) as Hk by exact (Hk s1 H1).
  unfold startConnect. repeat keeps_step.
Qed.
#[local] Hint Resolve over_initSocket : keeps.

Lemma over_init_handler e :
  triple (fun s => Over s /\ room s) (init_handler host hdr0 chunk0 conf e) (fun _ => Over) Over.
Proof.
  destruct e as [msg|]; cbn [init_handler].
  { intros s [HI _]. revert s HI. change (keeps Over (_ ← modify (set_connected false);
      _ ← shutdownConnection CanceledDuringReset;
      onFailure (errorToInt CouldNotConnect) ("unable to initialize connection: error=" +:+ msg))).
    repeat keeps_step. }
  eapply triple_bind with (R := fun _ => Over).
  - unfold insertAuthenticationRequests. destruct (_authenticationType conf).
    + by apply triple_skip; intros s [].
    + eapply triple_bind; [apply over_createRequestItem|intros p].
      change (keeps Over (queue_insert p)). eauto with keeps.
    + by apply triple_lift; [|intros s []].
  - intros []. change (keeps Over (_ ← modify (set_connected true); _ ← startWriting; startReading)).
    repeat keeps_step.
Qed.

Lemma over_asyncWriteCallback l p e : keeps Over (asyncWriteCallback l p e).
Proof.
  apply keeps_bind; [by eauto with keeps|intros _]. destruct e as [msg|].
  - unfold get_item. repeat (first [apply over_restart | keeps_step]).
  - eapply triple_bind; [apply (stage_get_item Over)|intros i].
    eapply triple_bind with (R := fun _ => Over); [|intros _; apply over_sendNextRequest].
    apply triple_modify. intros s [HI Hi]. by eapply Over_put.
Qed.

Lemma over_perform a :
  triple (fun s => Over s /\ room s) (perform host hdr0 chunk0 conf a) (fun _ => Over) Over.
Proof.
  destruct a as [r cb|n o]; cbn [perform].
  { eapply triple_bind; [apply over_sendRequest|intros ?]. by apply triple_skip. }
  apply triple_get. intros s0. destruct (pending s0 !! n) as [h|]; [|by apply triple_skip; intros s (_ & [])].
  eapply triple_bind with (R := fun _ s => Over s /\ room s).
  { apply triple_modify. intros s (-> & [] & Hr). split; [|done]. split; try done. by destruct ov_accounts0. }
  intros _. destruct h; cbn [run_handler]; try apply over_init_handler;
    match goal with |- triple _ ?m _ _ => enough (keeps Over m) as Hk by (intros s []; by apply Hk) end.
  all: unfold resolve_handler, asyncConnectCallback, handshake_handler, startSSLHandshake, shutdownSocket,
    asyncReadCallback, ReadLoop_deadlineHandler, WriteLoop_deadlineHandler.
  all: repeat (first [apply over_asyncWriteCallback | apply over_restart | keeps_step]).
Qed.
End Over.
End Writing.
