(* ===== verification/VstWriting.v ===== *)
(** * What a VST connection writes

    The bytes that go to the first socket of a connection, in all its runs: nothing, or
    the protocol header and the messages of the requests, in the order in which they were
    accepted, behind the authentication when one is configured ([first_stream]).  A
    connection is being set up ([early]), open ([up]), or has lost its first socket
    ([over]). *)
From S2P Require Import Prelude StdMap Types Endian Chunk VPack ToyVPack Message HeaderCodec RequestItem MessageStore VstConnection VstInvariant VstProperties VstAuthentication VstContract VstStage.
Local Open Scope Z_scope.

Section Writing.
Context {VP : VPack} {VB : VBuffer} `{StdSort ChunkHeader}.
Context (host : byte_order) (hdr0 : list byte) (chunk0 : ChunkHeader).
Context (conf : ConnectionConfiguration).
Local Abbreviation message_of := (VstStage.message_of host hdr0 chunk0 conf).
Local Abbreviation user_message := (VstStage.user_message host hdr0 chunk0 conf).
Local Abbreviation authentication_request := (VstStage.authentication_request conf).
Local Abbreviation authentication := (VstStage.authentication host hdr0 chunk0 conf).
Local Abbreviation in_order := (VstStage.in_order host hdr0 chunk0 conf).

(** ** The queue and the requests accepted so far *)

(** The queue holds the messages [Q], and the messages of all requests are in [L]. *)
Record lined (L Q : list message) (s : VstConnection) : Prop := {
  li_queue : queued s = Some <$> Q;
  li_items : forall p i, items s !! p = Some i -> ri_messageID i ∈ L.*1;
  li_bound : Forall (fun m => m.1 <= messageID_counter s) L;
}.

Lemma item_message_put p i i' s :
  items s !! p = Some i -> sent_as i' = sent_as i ->
  forall q, item_message (set_items (<[p := i']> (items s)) s) q = item_message s q.
Proof.
  intros Hi Hs q. unfold item_message. cbn. destruct (decide (p = q)) as [<-|Hne].
  - rewrite list_lookup_insert_eq by by eapply lookup_lt_Some. rewrite Hi. cbn. by rewrite Hs.
  - by rewrite list_lookup_insert_ne.
Qed.

Lemma lined_put L Q p i i' s :
  items s !! p = Some i -> sent_as i' = sent_as i -> lined L Q s ->
  lined L Q (set_items (<[p := i']> (items s)) s).
Proof.
  intros Hi Hs []. split; [| |done].
  - rewrite <- li_queue0. unfold queued. cbn. apply list_fmap_ext. intros _ q _. by eapply item_message_put.
  - cbn. intros q j [(-> & <- & _)|[_ Hj]]%list_lookup_insert_Some; [|by eapply li_items0].
    injection Hs as -> _. by eapply li_items0.
Qed.

Lemma lined_accounts L Q s : lined L Q s -> accounts (messageID_counter s) L s.
Proof. intros []. split; [done..|eauto]. Qed.

(** A request is accepted: its message goes to one of the ends of the queue. *)
Lemma lined_create request cb L Q s :
  room s -> lined L Q s ->
  match createRequestItem host hdr0 chunk0 conf request cb s with
  | (Ok p, s') => exists i, let m := sent_as i in
      s' = set_items (items s ++ [i]) (set_messageID_counter (messageID_counter s + 1) s)
      /\ message_of request cb m /\ Forall (fun m' => m'.1 < m.1) L
      /\ lined (L ++ [m]) (Q ++ [m]) (set_sendQueue (sendQueue s' ++ [p]) s')
      /\ lined (m :: L) (m :: Q) (set_sendQueue (p :: sendQueue s') s')
  | (Throw _, s') => s' = set_messageID_counter (messageID_counter s + 1) s /\ lined L Q s'
  | (Undef _, _) => True
  end.
Proof.
  intros Hroom HL. pose proof (createRequestItem_spec host hdr0 chunk0 conf request cb s Hroom) as Hs. cbv zeta in Hs.
  pose proof HL as [Hq Hi Hb].
  assert (Forall (fun m => m.1 <= messageID_counter s + 1) L) as Hb'
    by (eapply Forall_impl; [exact Hb|cbn; lia]).
  destruct (createRequestItem _ _ _ _ _ _ s) as [[p|e|w] s']; [|by subst|done].
  destruct Hs as (i & -> & -> & Hid & Hm). exists i. cbv zeta.
  set (s' := set_items _ _).
  assert (item_message s' <$> sendQueue s = Some <$> Q) as Hq'.
  { rewrite <- Hq. unfold queued. apply list_fmap_ext. intros k q Hk.
    assert (is_Some (item_message s q)) as [m Hm'].
    { assert ((item_message s <$> sendQueue s) !! k = Some (item_message s q)) as Hk'
        by by rewrite list_lookup_fmap, Hk.
      unfold queued in Hq. rewrite Hq, list_lookup_fmap in Hk'. destruct (Q !! k); [|done].
      injection Hk' as <-. eauto. }
    unfold item_message in *. cbn. destruct (items s !! q) as [j|] eqn:Hj; [|done].
    by rewrite (lookup_app_l_Some _ _ _ _ Hj). }
  assert (item_message s' (length (items s)) = Some (sent_as i)) as Hnew.
  { unfold item_message. cbn. by rewrite list_lookup_middle. }
  assert (forall q j, items s' !! q = Some j -> ri_messageID j ∈ L.*1 \/ j = i) as Hitems.
  { intros q j [Hj|[_ Hj]]%lookup_app_Some; [left; by eapply Hi|right].
    by apply list_lookup_singleton_Some in Hj as [_ <-]. }
  split_and!; [done|exact Hm| |split|split].
  - eapply Forall_impl; [exact Hb|]. cbn. lia.
  - unfold queued. cbn [sendQueue set_sendQueue]. rewrite !fmap_app.
    change (item_message (set_sendQueue (sendQueue s' ++ [length (items s)]) s')) with (item_message s').
    change (sendQueue s') with (sendQueue s). rewrite Hq'. cbn. by rewrite Hnew.
  - intros q j [Hj| ->]%Hitems; rewrite fmap_app, elem_of_app; [by left|right; left].
  - apply Forall_app. split; [exact Hb'|]. constructor; [cbn; lia|done].
  - unfold queued. cbn [sendQueue set_sendQueue]. rewrite !fmap_cons.
    change (item_message (set_sendQueue (length (items s) :: sendQueue s') s')) with (item_message s').
    change (sendQueue s') with (sendQueue s). by rewrite Hq', Hnew.
  - intros q j [Hj| ->]%Hitems; cbn; rewrite elem_of_cons; [by right|by left].
  - constructor; [cbn; lia|exact Hb'].
Qed.

(** ** While the first connection is up *)
Definition header_bytes : list byte := String.list_byte_of_string (vstHeader conf).
Definition sent (m : message) (d : list byte) : Prop := m.2 = Ok d.

(** The messages [ms] have been written, [mid] is on its way, [Q] is in the queue. *)
Record Up (mid ms Q : list message) (ds : list (list byte)) (s : VstConnection) : Prop := {
  up_sockets : (1 <= sockets s)%nat;
  up_socket : socket s = Some 0%nat;
  up_loops : Forall (fun wl => wl_socket wl = Some 0%nat) (writeLoops s);
  up_handlers : Forall (fun h => ~ sets_up h) (pending s);
  up_writes : writes 0 s = header_bytes :: ds;
  up_sent : Forall2 sent ms ds;
  up_order : in_order (ms ++ mid ++ Q);
  up_lined : lined (ms ++ mid ++ Q) Q s;
}.

#[local] Instance Up_stage mid ms Q ds : Stage (Up mid ms Q ds).
Proof.
  split.
  - intros e s He []. split; try done; [|by destruct up_lined0].
    by rewrite writes_log_other by by apply no_write_to.
  - intros h s Hh []. split; try done; [|by destruct up_lined0].
    cbn. apply Forall_app. split; [done|]. constructor; [by destruct h; intros []|done].
  - intros p i i' s Hi Hs []. split; try done. by eapply lined_put.
  - intros z s []. by split; try done; destruct up_lined0.
  - intros b s []. by split; try done; destruct up_lined0.
  - intros m s []. by split; try done; destruct up_lined0.
  - intros m s []. by split; try done; destruct up_lined0.
  - intros m s []. by split; try done; destruct up_lined0.
Qed.
#[local] Instance item_message_stage p m : Stage (fun s => item_message s p = Some m).
Proof. split; try done. intros q i i' s Hi Hs. by rewrite (item_message_put q i i' s Hi Hs p). Qed.

(** The connection is open; at most one write is under way, that of the current loop. *)
Definition opened (s : VstConnection) : Prop := exists ms Q ds, Up [] ms Q ds s.
Definition is_HWrite (h : handler) : bool := match h with HWrite _ _ => true | _ => false end.
Definition writing (s : VstConnection) : list handler := filter (fun h => is_HWrite h = true) (pending s).
Definition idle (s : VstConnection) : Prop := writing s = [].
Definition orderly (s : VstConnection) : Prop :=
  idle s \/ exists l p, writing s = [HWrite l p] /\ writeLoop_current s = Some l.
Definition up (s : VstConnection) : Prop := opened s /\ orderly s.

#[local] Instance opened_stage : Stage opened.
Proof.
  split; intros; match goal with H : opened _ |- _ => destruct H as (ms & Q & ds & ?) end; exists ms, Q, ds;
    by eapply Up_stage.
Qed.
Lemma writing_async h s : writing (set_pending (pending s ++ [h]) s) = writing s ++ writing (set_pending [h] s).
Proof. unfold writing. cbn [pending set_pending]. by rewrite filter_app. Qed.
Lemma writing_routine h s : routine h -> writing (set_pending (pending s ++ [h]) s) = writing s.
Proof. intros Hh. rewrite writing_async. destruct h; try done; apply app_nil_r. Qed.
#[local] Instance idle_stage : Stage idle.
Proof. split; try done. intros h s Hh. unfold idle. by rewrite writing_routine. Qed.
#[local] Instance orderly_stage : Stage orderly.
Proof. split; try done. intros h s Hh. unfold orderly, idle. by rewrite writing_routine. Qed.
#[local] Instance current_stage l : Stage (fun s => writeLoop_current s = Some l).
Proof. by split. Qed.
#[local] Instance up_stage : Stage up.
Proof. apply stage_and; apply _. Qed.

(** The head of the queue [m] of the loop [l], between its removal and its write. *)
Definition taken (l p : nat) (m : message) (ms Q : list message) (ds : list (list byte))
    (s : VstConnection) : Prop :=
  Up [m] ms Q ds s /\ item_message s p = Some m /\ idle s /\ writeLoop_current s = Some l.
#[local] Instance taken_stage l p m ms Q ds : Stage (taken l p m ms Q ds).
Proof. repeat (apply stage_and; [apply _|]). apply _. Qed.

Lemma up_getNextRequestToSend l :
  triple (fun s => opened s /\ idle s) (getNextRequestToSend l) (fun next s =>
    match next with Some p => exists m ms Q ds, taken l p m ms Q ds s | None => up s end) up.
Proof.
  assert (forall s, opened s /\ idle s -> up s) as Hup by (intros s []; split; [done|by left]).
  apply triple_get. intros s0. case_match eqn:Hl; [apply triple_ret; intros s []; auto|].
  apply negb_false_iff, bool_decide_eq_true in Hl.
  case_match; [apply triple_ret; intros s []; auto|]. unfold queue_front.
  intros s [-> [(ms & Q & ds & HU) Hidle]]. destruct (sendQueue s0) as [|p q] eqn:Hq; cbn [head].
  { split; [|by left]. exists ms, Q, ds. destruct HU. by split; try done; destruct up_lined0. }
  unfold store_add, queue_removeFirst, mbind, stm_bind, reads, lift, modify. cbn [id].
  pose proof (no_throw_item_messageID p s0). destruct (item_messageID p s0) as [id|e|w]; [|done|done].
  cbn. rewrite Hq. pose proof HU as [? ? ? ? ? ? ? []]. unfold queued in li_queue0. rewrite Hq in li_queue0.
  destruct Q as [|m Q]; [done|]. injection li_queue0 as Hm HQ.
  exists m, ms, Q, ds. split; [|done]. by split.
Qed.

Lemma taken_get_item l p m ms Q ds :
  triple (taken l p m ms Q ds) (get_item p) (fun i s => taken l p m ms Q ds s /\ sent_as i = m) (fun _ => False).
Proof.
  apply triple_get. intros s0 s [-> HT]. unfold lift, deref. pose proof HT as (_ & Hm' & _).
  unfold item_message in Hm'. destruct (items s0 !! p); [|done]. by injection Hm' as Hm'.
Qed.
Lemma triple_fact {S A} (φ : Prop) (I : S -> Prop) (m : stm S A) Q E :
  (φ -> triple I m Q E) -> triple (fun s => I s /\ φ) m Q E.
Proof. intros Hm s [HI Hφ]. by apply Hm. Qed.

(** The head of the queue is written behind the messages before it. *)
Lemma Up_write m ms Q ds data s p l :
  Up [m] ms Q ds s -> sent m data ->
  Up [] (ms ++ [m]) Q (ds ++ [data])
    (set_pending (pending s ++ [HWrite l p]) (set_trace (trace s ++ [EvWrite (TcpStream 0) data]) s)).
Proof.
  intros [] Hd. split; try done; cbn.
  - apply Forall_app. split; [done|]. constructor; [by intros []|done].
  - unfold writes in *. cbn. by rewrite omap_app, up_writes0.
  - apply Forall2_app; [done|by constructor].
  - by rewrite <- (assoc_L (++)).
  - rewrite <- (assoc_L (++)). by destruct up_lined0.
Qed.

Lemma up_sendNextRequest l :
  triple (fun s => opened s /\ idle s) (sendNextRequest l) (fun _ => up) up.
Proof.
  eapply triple_bind; [apply up_getNextRequestToSend|]. intros [p|]; [|by apply triple_skip].
  intros s (m & ms & Q & ds & HT). revert s HT.
  match goal with |- forall s, _ -> match ?f s with _ => _ end => change (triple (taken l p m ms Q ds) f (fun _ => up) up) end.
  apply stage_then; [by apply (stage_startReading (taken l p m ms Q ds))|apply never_throws_startReading|intros _].
  eapply triple_bind; [eapply triple_conseq; [apply taken_get_item|done..]|intros i].
  apply triple_fact. intros Hm.
  do 2 (apply stage_then; [apply keeps_lift|apply never_throws_lift; auto with never_throws|intros ?]).
  apply stage_then; [by apply (stage_keeps_async (taken l p m ms Q ds)); exact Logic.I|done|intros _].
  apply stage_then; [by apply keeps_modify; intros s; apply stage_calls|done|intros _].
  apply triple_get. intros s0. unfold deref.
  destruct (writeLoops s0 !! l) as [wl|] eqn:Hwl; [|intros ??; exact I].
  intros s (-> & HU & _ & Hidle & Hcur).
  pose proof (up_loops _ _ _ _ _ HU) as Hl. rewrite Forall_forall in Hl.
  specialize (Hl wl ltac:(by eapply list_elem_of_lookup_2)).
  unfold mbind, stm_bind, lift. rewrite Hl. cbn [get].
  pose proof (no_throw_send_bytes i). destruct (send_bytes i) as [data|e|w] eqn:Hdata; [|done|done].
  split.
  2: { right. exists l, p. split; [|done]. change (writing (set_pending (pending s0 ++ [HWrite l p]) s0) = [HWrite l p]).
       unfold idle in Hidle. by rewrite writing_async, Hidle. }
  exists (ms ++ [m]), Q, (ds ++ [data]). apply (Up_write m ms Q ds data s0 p l HU).
  by rewrite <- Hm.
Qed.

Lemma up_startWriting : keeps up startWriting.
Proof.
  apply triple_get. intros s0. destruct (writeLoop_current s0) eqn:Hc; [by apply triple_skip; intros s []|].
  intros s [-> [(ms & Q & ds & HU) Ho]]. unfold mbind at 1 2, stm_bind at 1 2, modify at 1 2.
  assert (idle s0) as Hidle by (destruct Ho as [|(? & ? & _ & ?)]; [done|congruence]).
  set (s1 := set_writeLoop_current _ _).
  assert (opened s1 /\ idle s1 /\
      exists wl, writeLoops s1 !! length (writeLoops s0) = Some wl /\ wl_socket wl = Some 0%nat)
    as (H1 & Hidle1 & wl & Hwl & Hs).
  { destruct HU. split_and!; [|done|exists (MkWriteLoop (socket s0) false); split; [by apply list_lookup_middle|done]].
    exists ms, Q, ds. split; try done; [|by destruct up_lined0].
    cbn. apply Forall_app. split; [done|by constructor]. }
  clearbody s1. destruct H1 as (ms1 & Q1 & ds1 & HU1).
  unfold WriteLoop_start, mbind, stm_bind, reads, lift, deref, modify. cbn [id]. rewrite Hwl.
  match goal with |- match ?f ?s with _ => _ end => enough (opened s /\ idle s) as Hup by
    (destruct (wl_started wl); [split; [apply Hup|left; apply Hup]|by apply up_sendNextRequest]) end.
  split; [|done]. exists ms1, Q1, ds1. destruct HU1. split; try done; [|by destruct up_lined0].
  cbn. by apply Forall_insert.
Qed.

(** A message with the highest id so far goes behind the others. *)
Lemma users_snoc Q request cb m :
  Forall user_message Q -> by_id Q -> message_of request (UserCallback cb) m -> Forall (fun m' => m'.1 < m.1) Q ->
  Forall user_message (Q ++ [m]) /\ by_id (Q ++ [m]).
Proof.
  intros Hu Hs Hm Hlt. split.
  - apply Forall_app. split; [done|]. constructor; [by eexists _, _|done].
  - unfold by_id in *. clear -Hs Hlt.
    induction Hs as [|x l Hs IH Hx]; [by repeat constructor|].
    apply Forall_cons in Hlt as [Hxm Hlt]. cbn. constructor; [by apply IH|].
    apply Forall_app. split; [done|by constructor].
Qed.

(** A request of the user is accepted behind all others. *)
Lemma in_order_snoc L request cb m :
  in_order L -> message_of request (UserCallback cb) m -> Forall (fun m' => m'.1 < m.1) L ->
  in_order (L ++ [m]).
Proof.
  intros (auth & users & -> & Ha & Hu & Hs) Hm [_ Hlt]%Forall_app.
  destruct (users_snoc users request cb m) as [Hu' Hs']; [done..|].
  exists auth, (users ++ [m]). by rewrite <- (assoc_L (++)).
Qed.

Lemma up_sendRequest request cb :
  triple (fun s => up s /\ room s) (sendRequest host hdr0 chunk0 conf request (UserCallback cb))
    (fun _ => up) up.
Proof.
  intros s [[(ms & Q & ds & HU) Ho] Hroom]. unfold sendRequest. unfold mbind at 1, stm_bind at 1.
  pose proof (lined_create request (UserCallback cb) _ _ s Hroom (up_lined _ _ _ _ _ HU)) as Hc.
  destruct (createRequestItem _ _ _ _ _ _ s) as [[p|e|w] s']; [| |done].
  2: { destruct Hc as [-> HL]. split; [|done]. exists ms, Q, ds. by destruct HU. }
  destruct Hc as (i & Hs' & Hm & Hlt & HL & _). rewrite <- (assoc_L (++)) in HL.
  assert (up (set_sendQueue (sendQueue s' ++ [p]) s')) as Hup.
  { split; [|by subst s']. exists ms, (Q ++ [sent_as i]), ds. destruct HU. subst s'. split; [done..| |exact HL].
    cbn. rewrite (assoc_L (++)). by eapply in_order_snoc. }
  enough (keeps up (s ← reads id; _ ← (if connected s then startWriting else skip);
    item ← get_item p; mret (ri_messageID item))) as Hk by exact (Hk _ Hup).
  unfold get_item. repeat (first [apply up_startWriting | keeps_step]).
Qed.

(** ** The end of the first connection *)

(** What has been written is the header and the first of the messages [L]. *)
Definition shape (ws : list (list byte)) (L : list message) : Prop :=
  ws = [] \/ exists ms Q ds, L = ms ++ Q /\ ws = header_bytes :: ds /\ Forall2 sent ms ds /\ (ms = [] \/ in_order L).
Definition over (s : VstConnection) : Prop := exists c L ws, shape ws L /\ Over c L ws s.
Definition after_setup (s : VstConnection) : Prop := up s \/ over s.

Lemma over_keeps {A} (m : stm VstConnection A) :
  (forall c L ws, keeps (Over c L ws) m) -> keeps over m.
Proof.
  intros Hm s (c & L & ws & Hw & HO). specialize (Hm c L ws s HO).
  destruct (m s) as [[a|e|w] s']; [by exists c, L, ws..|done].
Qed.

(** Both loops have stopped, and the socket is dropped: nothing can throw before it is. *)
Lemma opened_shutdownConnection e :
  triple opened (shutdownConnection e) (fun _ => over) over.
Proof.
  intros s (ms & Q & ds & []).
  set (s1 := set_socket None (set_sslSocket None (set_readLoop_current None (set_writeLoop_current None s)))).
  assert (over s1) as H1.
  { exists (messageID_counter s), (ms ++ Q), (header_bytes :: ds). split.
    - right. exists ms, Q, ds. split_and!; try done. by right.
    - split; try done. change (accounts (messageID_counter s1) (ms ++ Q) s1).
      apply (lined_accounts _ Q). by destruct up_lined0. }
  enough (keeps over (s ← reads id; m ← store_cancelAll (errorToInt e) (messageStore s);
    modify (set_messageStore m))) as Hk by exact (Hk _ H1).
  apply over_keeps. intros c L ws. apply (stage_cancelAll (Over c L ws)).
Qed.

Lemma after_setup_restart l e :
  keeps after_setup (restart_from_ReadLoop l e) /\ keeps after_setup (restart_from_WriteLoop l e).
Proof.
  assert (keeps over (s ← reads id; if permanent_failure s then skip else startResolveHost)) as Hrest.
  { apply over_keeps. intros c L ws. apply keeps_bind; [apply keeps_reads|intros s0].
    destruct (permanent_failure s0); [apply keeps_skip|].
    apply keeps_modify. intros s []. split; try done. by destruct ov_accounts. }
  assert (triple opened (_ ← modify (set_readLoop_current None);
    _ ← modify (set_writeLoop_current None); restartConnection e) (fun _ => over) after_setup) as Hup.
  { intros s Hs. set (s1 := set_writeLoop_current None (set_readLoop_current None s)).
    assert (opened s1) as H1.
    { destruct Hs as (ms & Q & ds & []). exists ms, Q, ds. split; try done; by destruct up_lined0. }
    enough (triple (fun s => opened s /\ writeLoop_current s = None /\ readLoop_current s = None)
      (restartConnection e) (fun _ => over) after_setup) as Hk by by apply (Hk s1).
    unfold restartConnection. apply triple_get. intros s0.
    intros s2 (-> & Ho & Hw & Hr). rewrite Hw, Hr. rewrite !bool_decide_true by done.
    enough (triple opened (_ ← shutdownConnection e; s ← reads id;
      if permanent_failure s then skip else startResolveHost) (fun _ => over) after_setup) as Hk by exact (Hk s0 Ho).
    eapply triple_bind with (R := fun _ => over); [|intros _; eapply triple_conseq; [exact Hrest|done|done|by right]].
    eapply triple_conseq; [apply opened_shutdownConnection|done|done|by right]. }
  assert (forall (c : bool) s, up s -> match (if c then skip else _ ← modify (set_readLoop_current None);
    _ ← modify (set_writeLoop_current None); restartConnection e) s with
    | (Ok _, s') | (Throw _, s') => after_setup s' | (Undef _, _) => True end) as Hall.
  { intros [] s Hs; [by left|]. specialize (Hup s (proj1 Hs)).
    match type of Hup with match ?r with _ => _ end => destruct r as [[] s'] end; [by right|done..]. }
  assert (keeps over (restart_from_ReadLoop l e) /\ keeps over (restart_from_WriteLoop l e)) as [Hr Hw]
    by (split; apply over_keeps; intros; apply over_restart).
  split; intros s [Hs|Hs].
  - exact (Hall _ s Hs).
  - specialize (Hr s Hs). destruct (restart_from_ReadLoop l e s) as [[]]; [by right..|done].
  - exact (Hall _ s Hs).
  - specialize (Hw s Hs). destruct (restart_from_WriteLoop l e s) as [[]]; [by right..|done].
Qed.

(** Operations that do not leave the stage [up], and what follows them. *)
Local Abbreviation leaves_up m := (triple up m (fun _ => after_setup) after_setup).
Lemma up_then {A B} (m : stm VstConnection A) (f : A -> stm VstConnection B) :
  keeps up m -> (forall a, leaves_up (f a)) -> leaves_up (m ≫= f).
Proof.
  intros Hm Hf. eapply triple_bind with (R := fun _ => up); [|exact Hf].
  eapply triple_conseq; [exact Hm|done|done|by left].
Qed.
Lemma up_stays {A} (m : stm VstConnection A) : keeps up m -> leaves_up m.
Proof. intros Hm. eapply triple_conseq; [exact Hm|done|by left|by left]. Qed.
Lemma up_restarts l e : leaves_up (restart_from_ReadLoop l e) /\ leaves_up (restart_from_WriteLoop l e).
Proof. destruct (after_setup_restart l e) as [Hr Hw]. split; intros s Hs; [apply Hr|apply Hw]; by left. Qed.
Lemma up_count_async d : keeps up (count_async d).
Proof. apply keeps_modify. intros s. apply stage_calls. Qed.

Lemma up_asyncReadCallback l e data : leaves_up (asyncReadCallback host chunk0 conf l e data).
Proof.
  apply up_then; [apply up_count_async|intros _]. destruct e as [msg|]; [apply up_restarts|].
  apply up_stays. cbv zeta.
  repeat (first [apply (stage_chunks_loop host chunk0 conf up) | apply (stage_readNextBytes up)
    | apply keeps_modify; intros ?; apply stage_readLoops | keeps_step]).
Qed.

(** The data of a written request are dropped; nobody else refers to them. *)
Lemma Up_reset p i ms Q ds s :
  p ∉ sendQueue s -> items s !! p = Some i -> Up [] ms Q ds s ->
  Up [] ms Q ds (set_items (<[p := resetSendData i]> (items s)) s).
Proof.
  intros Hp Hi []. split; try done. destruct up_lined0. split; [| |done].
  - rewrite <- li_queue0. unfold queued. cbn. apply list_fmap_ext. intros k q Hq.
    unfold item_message. cbn. rewrite list_lookup_insert_ne; [done|].
    intros ->. by apply Hp, (list_elem_of_lookup_2 _ k).
  - cbn. intros q j [(-> & <- & _)|[_ Hj]]%list_lookup_insert_Some; [|by eapply li_items0].
    exact (li_items0 _ _ Hi).
Qed.

Lemma up_asyncWriteCallback l p e :
  triple (fun s => (opened s /\ idle s) /\ p ∉ sendQueue s) (asyncWriteCallback l p e)
    (fun _ => after_setup) after_setup.
Proof.
  destruct e as [msg|].
  - enough (leaves_up (asyncWriteCallback l p (Some msg))) as Hk
      by (intros s [[? ?] _]; apply (Hk s); split; [done|by left]).
    apply up_then; [apply up_count_async|intros _].
    apply up_then; [unfold get_item; repeat keeps_step|intros i].
    apply up_then; [by apply keeps_modify; intros s; apply stage_store|intros _].
    apply up_then; [apply (stage_invoke_item up)|intros _]. apply up_restarts.
  - intros s [[Ho Hidle] Hp]. apply (stage_calls (u64 (async_calls s + -1))) in Ho.
    set (s1 := set_async_calls _ s) in Ho.
    unfold asyncWriteCallback, count_async, get_item, deref, put_item, mbind, stm_bind, reads, modify, lift.
    cbn [id]. fold s1. change (items s1) with (items s). destruct (items s !! p) as [i|] eqn:Hi; [|done].
    eapply triple_conseq; [apply (up_sendNextRequest l)|done|by left|by left|].
    split; [|done]. destruct Ho as (ms & Q & ds & HU). exists ms, Q, ds.
    by apply (Up_reset p i ms Q ds s1).
Qed.

(** A handler that runs is no longer under way. *)
Lemma orderly_delete n h s :
  pending s !! n = Some h -> orderly s ->
  let s' := set_pending (delete n (pending s)) s in
  orderly s' /\ ((exists l p, h = HWrite l p) -> idle s').
Proof.
  intros Hh Ho s'. pose proof (delete_Permutation _ _ _ Hh) as Hp.
  assert (writing s ≡ₚ (if is_HWrite h then [h] else []) ++ writing s') as Hw.
  { unfold writing at 1. rewrite Hp, filter_cons. by destruct h. }
  destruct Ho as [Hi|(l & p & Hs & Hc)]; unfold orderly, idle in *.
  - rewrite Hi in Hw. apply Permutation_nil_l, symmetry, app_nil in Hw as [_ Hw]. auto.
  - rewrite Hs in Hw. apply Permutation_singleton_l, symmetry in Hw. destruct h; cbn in Hw; try (split; [by right; exists l, p|by intros (? & ? & [=])]).
    injection Hw as _ _ Hw. auto.
Qed.

(** A step of a connection that is up. *)
Lemma up_perform a :
  triple (fun s => up s /\ room s /\ forall l p, HWrite l p ∈ pending s -> p ∉ sendQueue s)
    (perform host hdr0 chunk0 conf a) (fun _ => after_setup) after_setup.
Proof.
  destruct a as [r cb|n o]; cbn [perform].
  { eapply triple_conseq with (P' := fun s => up s /\ room s) (Q' := fun _ => up) (E' := up);
      [|naive_solver|by left|by left].
    eapply triple_bind; [apply up_sendRequest|intros ?]. by apply triple_skip. }
  apply triple_get. intros s0. destruct (pending s0 !! n) as [h|] eqn:Hh.
  2: { apply triple_skip. intros s (_ & ? & _). by left. }
  pose proof (list_elem_of_lookup_2 _ _ _ Hh) as Hin.
  eapply triple_bind with (R := fun _ s => (up s /\ forall l p, h = HWrite l p ->
    (opened s /\ idle s) /\ p ∉ sendQueue s) /\ ~ sets_up h).
  { apply triple_modify. intros s (-> & [(ms & Q & ds & []) Ho] & _ & Hw).
    destruct (orderly_delete n h s0 Hh Ho) as [Ho' Hidle].
    rewrite Forall_forall in up_handlers0. split; [|by apply up_handlers0].
    assert (opened (set_pending (delete n (pending s0)) s0)).
    { exists ms, Q, ds. split; try done; [|by destruct up_lined0]. apply Forall_delete, Forall_forall, up_handlers0. }
    split; [done|]. intros l p ->. split; [|by eapply Hw]. eauto. }
  intros _. apply triple_fact. intros Hset.
  destruct h; cbn [run_handler]; try (by destruct Hset);
    try match goal with |- triple _ (asyncWriteCallback _ _ _) _ _ => fail 1 | |- triple _ ?m _ _ =>
      enough (leaves_up m) as Hk by (intros s [Hs _]; exact (Hk s Hs)) end.
  - apply up_asyncReadCallback.
  - destruct (out_error o); [by apply up_stays, keeps_skip|exact (proj1 (up_restarts loop Timeout))].
  - eapply triple_conseq; [apply up_asyncWriteCallback|intros s [? Hw]; by eapply Hw|done..].
  - destruct (out_error o); [by apply up_stays, keeps_skip|exact (proj2 (up_restarts loop Timeout))].
Qed.

(** ** Until the first connection is up *)

(** How far the set-up has got: the sockets made, the data written, the handler under way. *)
Inductive step_of_setup : nat -> list (list byte) -> list handler -> Prop :=
| setup_resolving : step_of_setup 0 [] [HResolve]
| setup_failed : step_of_setup 0 [] []
| setup_connecting : step_of_setup 1 [] [HConnect]
| setup_handshake : step_of_setup 1 [] [HHandshake]
| setup_initializing : step_of_setup 1 [header_bytes] [HInit]
| setup_interrupted : step_of_setup 1 [header_bytes] [].
#[local] Hint Constructors step_of_setup : fuerte.

(** Requests are queued in the order of their ids. *)
Record Early (n : nat) (ws : list (list byte)) (pend : list handler) (Q : list message) (s : VstConnection)
    : Prop := {
  ea_sockets : sockets s = n;
  ea_socket : socket s = match n with O => None | S _ => Some 0%nat end;
  ea_writes : writes 0 s = ws;
  ea_pending : pending s = pend;
  ea_loops : writeLoops s = [];
  ea_connected : connected s = false;
  ea_users : Forall user_message Q;
  ea_order : by_id Q;
  ea_lined : lined Q Q s;
}.
Definition early (s : VstConnection) : Prop :=
  exists n ws pend Q, step_of_setup n ws pend /\ Early n ws pend Q s.
Definition good (s : VstConnection) : Prop := early s \/ after_setup s.

Lemma Early_log n ws pend Q e s :
  ~ is_write e -> Early n ws pend Q s -> Early n ws pend Q (set_trace (trace s ++ [e]) s).
Proof.
  intros He []. split; try done; [|by destruct ea_lined0].
  by rewrite writes_log_other by by apply no_write_to.
Qed.

Lemma early_sendRequest request cb :
  triple (fun s => early s /\ room s) (sendRequest host hdr0 chunk0 conf request (UserCallback cb))
    (fun _ => early) early.
Proof.
  intros s [(n & ws & pend & Q & Hst & HE) Hroom]. unfold sendRequest. unfold mbind at 1, stm_bind at 1.
  pose proof (lined_create request (UserCallback cb) _ _ s Hroom (ea_lined _ _ _ _ _ HE)) as Hc.
  destruct (createRequestItem _ _ _ _ _ _ s) as [[p|e|w] s']; [| |done].
  2: { destruct Hc as [-> HL]. exists n, ws, pend, Q. by destruct HE. }
  destruct Hc as (i & Hs' & Hm & Hlt & HL & _). destruct HE.
  destruct (users_snoc Q request cb (sent_as i)) as [Hu Hs]; [done..|].
  assert (connected s' = false) as Hcon by by subst s'.
  unfold queue_add, get_item, mbind, stm_bind, modify, reads, lift, deref. cbn -[sent_as]. rewrite Hcon. cbn -[sent_as].
  destruct (items s' !! p); [|done]. cbn -[sent_as].
  exists n, ws, pend, (Q ++ [sent_as i]). split; [done|]. subst s'. by split.
Qed.

(** The connection is given up: the requests in the queue stay there. *)
Lemma early_over n ws pend pend' Q s :
  step_of_setup (S n) ws pend' -> Early (S n) ws pend Q s ->
  over (set_socket None (set_sslSocket None s)).
Proof.
  intros Hst []. exists (messageID_counter s), Q, ws. split.
  - inversion Hst; subst; [by left..| |]; right; exists [], Q, []; (split_and!; [done|done|constructor|by left]).
  - split; cbn; try done; [lia| |].
    + intros l _ wl. cbn. by rewrite ea_loops0.
    + apply (lined_accounts Q Q (set_socket None (set_sslSocket None s))). by destruct ea_lined0.
Qed.

Lemma over_stays {A} (m : stm VstConnection A) s :
  (forall c L ws, keeps (Over c L ws) m) -> over s ->
  match m s with (Ok _, s') | (Throw _, s') => good s' | (Undef _, _) => True end.
Proof.
  intros Hm Hs. pose proof (over_keeps m Hm s Hs) as Hk. destruct (m s) as [[]]; [by right; right..|done].
Qed.

(** The handlers of the set-up, taken from [pending]. *)
Lemma early_resolve Q s e ends :
  Early 0 [] [] Q s ->
  match resolve_handler e ends s with (Ok _, s') | (Throw _, s') => good s' | (Undef _, _) => True end.
Proof.
  intros HE. destruct e as [msg|]; cbn [resolve_handler].
  { left. exists 0%nat, [], [], Q. split; [auto with fuerte|]. apply Early_log; [by intros []|done]. }
  unfold mbind at 1, stm_bind at 1, modify at 1. set (s1 := set_endpoints ends s).
  assert (Early 0 [] [] Q s1) as H1 by (by destruct HE as [? ? ? ? ? ? ? ? []]).
  destruct ends as [|end1 ends].
  { left. exists 0%nat, [], [], Q. split; [auto with fuerte|]. apply Early_log; [by intros []|done]. }
  assert (endpoints s1 = end1 :: ends) as Hends by done. clearbody s1. destruct H1.
  unfold initSocket, startConnect, async, mbind, stm_bind, reads, lift, modify, cassert. cbn [id].
  rewrite ea_socket0. rewrite bool_decide_true by done.
  destruct (bool_decide (sslSocket s1 = None)); [|done]. cbn. rewrite Hends. cbn.
  left. exists 1%nat, [], [HConnect], Q. split; [auto with fuerte|]. rewrite ea_sockets0, ea_pending0.
  split; try done; by destruct ea_lined0.
Qed.

Lemma early_finishInitialization Q s :
  Early 1 [] [] Q s ->
  match finishInitialization conf s with (Ok _, s') | (Throw _, s') => good s' | (Undef _, _) => True end.
Proof.
  intros []. unfold finishInitialization, log, async, mbind, stm_bind, reads, lift, modify. cbn [id].
  rewrite ea_socket0. cbn. left. exists 1%nat, [header_bytes], [HInit], Q. split; [auto with fuerte|].
  rewrite ea_pending0. split; try done; [|by destruct ea_lined0].
  unfold writes in *. cbn. by rewrite omap_app, ea_writes0.
Qed.

Lemma early_shutdown n ws pend pend' Q s (f : unit -> stm VstConnection unit) e :
  step_of_setup (S n) ws pend' -> Early (S n) ws pend Q s ->
  (forall c L ws, keeps (Over c L ws) (f ())) ->
  match (_ ← shutdownConnection e; f ()) s with
  | (Ok _, s') | (Throw _, s') => good s' | (Undef _, _) => True end.
Proof.
  intros Hst HE Hf.
  set (s0 := set_readLoop_current None (set_writeLoop_current None s)).
  assert (Early (S n) ws pend Q s0) as H0 by (destruct HE; split; try done; by destruct ea_lined0).
  pose proof (early_over n ws pend pend' Q s0 Hst H0) as Ho.
  assert (shutdownConnection e s = (s ← reads id; m ← store_cancelAll (errorToInt e) (messageStore s);
    modify (set_messageStore m)) (set_socket None (set_sslSocket None s0))) as Heq by reflexivity.
  assert (keeps over (s ← reads id; m ← store_cancelAll (errorToInt e) (messageStore s);
    modify (set_messageStore m))) as Hk.
  { apply over_keeps. intros c L ws'. apply (stage_cancelAll (Over c L ws')). }
  specialize (Hk _ Ho). rewrite <- Heq in Hk. unfold mbind, stm_bind.
  destruct (shutdownConnection e s) as [[[]|ex|w] s']; [by apply over_stays|by right; right|done].
Qed.

Lemma over_onFailure c L ws z m : keeps (Over c L ws) (onFailure z m).
Proof. apply (stage_keeps_log (Over c L ws)). by intros []. Qed.

Lemma early_connect Q s e :
  Early 1 [] [] Q s ->
  match asyncConnectCallback conf e s with (Ok _, s') | (Throw _, s') => good s' | (Undef _, _) => True end.
Proof.
  intros HE. destruct e as [msg|]; cbn [asyncConnectCallback].
  { eapply (early_shutdown 0 [] [] [HConnect] Q s (fun _ => onFailure _ _)); [auto with fuerte|done|].
    intros. apply over_onFailure. }
  destruct (_ssl conf) eqn:Hssl; [|by eapply early_finishInitialization].
  destruct HE. unfold startSSLHandshake, async, mbind, stm_bind, reads, lift, modify. rewrite Hssl. cbn.
  destruct (sslSocket s); [|done]. cbn.
  left. exists 1%nat, [], [HHandshake], Q. split; [auto with fuerte|]. rewrite ea_pending0.
  split; try done; by destruct ea_lined0.
Qed.

Lemma early_handshake Q s e :
  Early 1 [] [] Q s ->
  match handshake_handler conf e s with (Ok _, s') | (Throw _, s') => good s' | (Undef _, _) => True end.
Proof.
  intros HE. destruct e as [msg|]; cbn [handshake_handler]; [|by eapply early_finishInitialization].
  pose proof (early_over 0 [] [] [HHandshake] Q s ltac:(auto with fuerte) HE) as Ho.
  apply (fun Hk => over_stays (onFailure (errorToInt CouldNotConnect) _) _ Hk Ho).
  intros. apply over_onFailure.
Qed.

(** The connection is up, with the authentication in front of the queue. *)
Lemma early_up Q L s :
  Early 1 [header_bytes] [] Q s -> in_order L -> lined L L s -> up s.
Proof.
  intros [] Ho HL. split; [|left; unfold idle, writing; by rewrite ea_pending0].
  exists [], L, []. by split; rewrite ?ea_sockets0, ?ea_loops0, ?ea_pending0.
Qed.

Lemma early_insertAuthenticationRequests Q s :
  Early 1 [header_bytes] [] Q s -> room s ->
  match insertAuthenticationRequests host hdr0 chunk0 conf s with
  | (Ok _, s') => up s' | (Throw _, s') => good s' | (Undef _, _) => True end.
Proof.
  intros HE Hroom. unfold insertAuthenticationRequests.
  assert (forall s', Early 1 [header_bytes] [] Q s' -> good s') as Hstop.
  { intros s' HE'. left. exists 1%nat, [header_bytes], [], Q. by split; [auto with fuerte|]. }
  destruct (_authenticationType conf) eqn:Hauth; [| |by apply Hstop].
  - destruct HE. apply (early_up Q Q); [by split| |done]. exists [], Q. unfold authentication. by rewrite Hauth.
  - fold authentication_request. unfold mbind, stm_bind.
    pose proof (lined_create authentication_request AuthCallback Q Q s Hroom (ea_lined _ _ _ _ _ HE)) as Hc.
    destruct (createRequestItem _ _ _ _ _ _ s) as [[p|e|w] s']; [| |done].
    2: { destruct Hc as [-> HL]. apply Hstop. by destruct HE. }
    destruct Hc as (i & Hs' & Hm & _ & _ & HL). unfold queue_insert, modify.
    destruct HE. subst s'. split; [|left; unfold idle, writing; cbn; by rewrite ea_pending0].
    exists [], (sent_as i :: Q), [].
    split; cbn -[sent_as]; rewrite ?ea_sockets0, ?ea_loops0, ?ea_pending0; try done.
    exists [sent_as i], Q. split_and!; try done. unfold authentication. rewrite Hauth. by exists (sent_as i).
Qed.

Lemma early_init Q s e :
  Early 1 [header_bytes] [] Q s -> room s ->
  match init_handler host hdr0 chunk0 conf e s with
  | (Ok _, s') | (Throw _, s') => good s' | (Undef _, _) => True end.
Proof.
  intros HE Hroom. destruct e as [msg|]; cbn [init_handler].
  { apply (early_shutdown 0 [header_bytes] [] [HInit] Q (set_connected false s) (fun _ => onFailure _ _));
      [auto with fuerte|destruct HE; split; try done; by destruct ea_lined0|]. intros. apply over_onFailure. }
  unfold mbind at 1, stm_bind at 1. pose proof (early_insertAuthenticationRequests Q s HE Hroom) as Ha.
  destruct (insertAuthenticationRequests _ _ _ _ s) as [[[]|ex|w] s']; [|done|done].
  enough (keeps up (_ ← modify (set_connected true); _ ← startWriting; startReading)) as Hk.
  { specialize (Hk s' Ha). destruct ((_ ← modify (set_connected true); _ ← startWriting; startReading) s') as [[]];
      [by right; left..|done]. }
  apply keeps_bind; [|intros _; apply keeps_bind; [apply up_startWriting|intros _; apply (stage_startReading up)]].
  apply keeps_modify. intros s1 [(ms & Q1 & ds & []) Ho]. split; [|done]. exists ms, Q1, ds. split; try done; by destruct up_lined0.
Qed.

Lemma early_perform a :
  triple (fun s => early s /\ room s) (perform host hdr0 chunk0 conf a) (fun _ => good) good.
Proof.
  destruct a as [r cb|n o]; cbn [perform].
  { eapply triple_conseq with (P' := fun s => early s /\ room s) (Q' := fun _ => early) (E' := early);
      [|done|by left|by left].
    eapply triple_bind; [apply early_sendRequest|intros ?]. by apply triple_skip. }
  intros s [(k & ws & pend & Q & Hst & HE) Hroom]. unfold mbind, stm_bind, reads, modify. cbn [id].
  rewrite (ea_pending _ _ _ _ _ HE).
  destruct (pend !! n) as [h|] eqn:Hh; [|by left; exists k, ws, pend, Q].
  assert (Early k ws [] Q (set_pending (delete n pend) s) /\ room (set_pending (delete n pend) s)) as [H0 Hr].
  { split; [|done]. destruct HE. split; try done; [|by destruct ea_lined0].
    cbn. clear -Hst Hh. inversion Hst; subst; destruct n; cbn in *; by rewrite ?lookup_nil in Hh. }
  generalize dependent (set_pending (delete n pend) s). clear s HE Hroom. intros s HE Hroom.
  inversion Hst; subst; destruct n; cbn in Hh; simplify_eq; cbn [run_handler].
  - by apply (early_resolve Q).
  - by apply (early_connect Q).
  - by apply (early_handshake Q).
  - by apply (early_init Q).
Qed.

(** ** All runs *)
Lemma good_perform a :
  triple (fun s => good s /\ room s /\ forall l p, HWrite l p ∈ pending s -> p ∉ sendQueue s)
    (perform host hdr0 chunk0 conf a) (fun _ => good) good.
Proof.
  intros s ([He|[Hu|(c & L & ws & Hsh & Ho)]] & Hroom & Hw).
  - exact (early_perform a s (conj He Hroom)).
  - pose proof (up_perform a s (conj Hu (conj Hroom Hw))) as Hp.
    destruct (perform _ _ _ _ a s) as [[]]; [by right..|done].
  - pose proof (over_perform host hdr0 chunk0 conf c L ws a s (conj Ho Hroom)) as Hp.
    destruct (perform _ _ _ _ a s) as [[]]; [right; right; by exists c, L, ws..|done].
Qed.

Lemma reaches_good b n s :
  reaches host hdr0 chunk0 conf b n s -> Z.of_nat n < 2 ^ 64 -> good s.
Proof.
  assert (forall b n s, reaches host hdr0 chunk0 conf b n s -> Z.of_nat (S n) < 2 ^ 64 -> good s ->
    good s /\ room s /\ forall l p, HWrite l p ∈ pending s -> p ∉ sendQueue s) as Hpre.
  { intros b' n' s' Hr Hn Hg. pose proof (reaches_Inv _ _ _ _ _ _ _ Hr ltac:(lia)) as [].
    split_and!; [done|unfold room; lia|]. intros l p Hin. by apply (wi_writes l p). }
  intros Hr. induction Hr as [s Hs|b n s a s' Hr IH Ha|b n s a e s' Hr IH Ha]; intros Hn.
  - injection Hs as <-. left. exists 0%nat, [], [HResolve], []. split; [auto with fuerte|].
    split; try done; by constructor.
  - pose proof (good_perform a s (Hpre _ _ _ Hr Hn (IH ltac:(lia)))) as Hp. by rewrite Ha in Hp.
  - pose proof (good_perform a s (Hpre _ _ _ Hr Hn (IH ltac:(lia)))) as Hp. by rewrite Ha in Hp.
Qed.

(** What has been written, and the requests accepted up to some id. *)
Lemma good_shape s : good s -> exists c L, shape (writes 0 s) L /\ accounts c L s.
Proof.
  intros [(n & ws & pend & Q & Hst & [])|[[(ms & Q & ds & []) _]|(c & L & ws & Hsh & [])]].
  - exists (messageID_counter s), Q. split; [|by eapply lined_accounts]. rewrite ea_writes0.
    destruct Hst; try (by left); right; exists [], Q, []; (split_and!; [done|done|constructor|by left]).
  - exists (messageID_counter s), (ms ++ Q). split; [|by eapply lined_accounts].
    right. exists ms, Q, ds. split_and!; try done. by right.
  - exists c, L. split; [by rewrite ov_writes|done].
Qed.

Lemma good_orderly s : good s -> socket s = Some 0%nat -> (length (writing s) <= 1)%nat.
Proof.
  intros [(n & ws & pend & Q & Hst & [])|[[_ [Hi|(l & p & -> & _)]]|(c & L & ws & Hsh & [])]] Hs.
  - unfold writing. rewrite ea_pending0. destruct Hst; vm_compute; lia.
  - rewrite Hi. cbn. lia.
  - done.
  - done.
Qed.

(** The messages are those of the requests in the order in which they were accepted,
    behind the authentication, and no request was passed over. *)
Definition stream_order (ms : list message) (s : VstConnection) : Prop :=
  exists auth users, ms = auth ++ users /\ authentication auth /\ Forall user_message users /\ by_id users
    /\ forall p i m, items s !! p = Some i -> m ∈ users -> ri_messageID i < m.1 -> ri_messageID i ∈ ms.*1.

Lemma in_order_prefix c ms Q s :
  in_order (ms ++ Q) -> accounts c (ms ++ Q) s -> ms = [] \/ stream_order ms s.
Proof.
  intros (auth & users & Heq & Ha & Hu & Hs) [_ Hb Hi].
  destruct ms as [|m0 ms]; [by left|right].
  assert (exists users0, m0 :: ms = auth ++ users0 /\ users = users0 ++ Q) as (us & Hms & ->).
  { unfold authentication in Ha. destruct (_authenticationType conf); [by subst; exists (m0 :: ms)| |by subst; exists (m0 :: ms)].
    destruct Ha as (m & -> & _). injection Heq as -> <-. by exists ms. }
  exists auth, us. apply Forall_app in Hu as [Hu _]. split_and!; try done.
  - unfold by_id in *. by apply StronglySorted_app_1_l in Hs.
  - intros p i m Hp Hm Hlt. rewrite Hms. rewrite Hms in Hb, Hi. rewrite Forall_forall in Hb.
    assert (m.1 <= c) by (apply Hb; set_solver).
    pose proof (Hi p i Hp ltac:(lia)) as Hin. rewrite fmap_app, elem_of_app in Hin. destruct Hin as [|Hin]; [done|].
    apply list_elem_of_fmap in Hin as (m' & Hid & Hm').
    pose proof (StronglySorted_app_1_elem_of _ _ _ m m' Hs Hm Hm') as Hmm. cbn in Hmm. lia.
Qed.
End Writing.

(** C9: what is written to the first socket, in every run of a connection, whatever fails and
    times out: nothing, or the protocol header and then the messages of the requests, each
    in one piece, in the order in which the requests were accepted and without passing one
    over, behind the authentication request when one is configured.  A message is written
    only when the write of the one before it has completed. *)
Theorem first_stream {VP : VPack} {VB : VBuffer} `{StdSort ChunkHeader} (host : byte_order)
    (hdr0 : list byte) (chunk0 : ChunkHeader) (conf : ConnectionConfiguration) (b : bool) (n : nat)
    (s : VstConnection) :
  reaches host hdr0 chunk0 conf b n s -> Z.of_nat n < 2 ^ 64 ->
  (writes 0 s = []
   \/ exists ms ds, writes 0 s = header_bytes conf :: ds /\ Forall2 sent ms ds
      /\ (ms = [] \/ stream_order host hdr0 chunk0 conf ms s))
  /\ (socket s = Some 0%nat -> (length (writing s) <= 1)%nat).
Proof.
  intros Hr Hn. pose proof (reaches_good _ _ _ _ _ _ _ Hr Hn) as Hg. split.
  - destruct (good_shape _ _ _ _ _ Hg) as (c & L & [Hws|(ms & Q & ds & -> & Hws & Hs & Ho)] & Hacc); [by left|right].
    exists ms, ds. split_and!; [done..|]. destruct Ho as [->|Ho]; [by left|by eapply in_order_prefix].
  - by eapply good_orderly.
Qed.

(** A request is sent before the connection is up; the authentication is written before it. *)
Definition ex_authenticated : list action := ASend ex_request 5 :: ex_connect ++ [AHandler 3 ex_ok].
Definition ex_written : VstConnection := Eval vm_compute in default ex_start (ex_basic_run ex_authenticated ex_start).
Lemma first_stream_witness :
  exists ms ds, writes 0 ex_written = header_bytes ex_basic :: ds /\ length ds = 2%nat
    /\ stream_order LittleEndianHost (le_bytes 24 0) ex_chunk ex_basic ms ex_written
    /\ (length (writing ex_written) <= 1)%nat.
Proof.
  destruct (reaches_continues LittleEndianHost (le_bytes 24 0) ex_chunk ex_basic true 0 5 ex_start ex_written) as [b Hb].
  - by apply reaches_initial.
  - apply (ex_basic_continues ex_authenticated 0 ex_start ex_start); [constructor|vm_compute; reflexivity].
  - destruct (first_stream LittleEndianHost (le_bytes 24 0) ex_chunk ex_basic b 5 ex_written Hb eq_refl)
      as [[Hw|(ms & ds & Hw & Hs & Ho)] H1].
    + vm_compute in Hw. discriminate Hw.
    + assert (length (writes 0 ex_written) = 3%nat) as H3 by (vm_compute; reflexivity).
      assert (length ds = 2%nat) as Hl by (rewrite Hw in H3; cbn in H3; lia).
      exists ms, ds. split_and!; [exact Hw|exact Hl| |apply H1; reflexivity].
      destruct Ho as [->|Ho]; [by apply Forall2_length in Hs; rewrite Hl in Hs|exact Ho].
Defined.

(** Later connections lack this order.  A restart leaves the flag [_connected] set, so a request
    sent while the connection is being made again is written to the new socket at once: before
    the protocol header, and before the socket is connected. *)
Theorem restart_writes_before_header :
  exists n s m ds, ex_reaches true n s /\ connected s = true /\ HConnect ∈ pending s
    /\ writes 1 s = m :: ds /\ m <> header_bytes ex_conf.
Proof.
  destruct (ex_run (ex_connect ++ [ASend ex_request 5; AHandler 1 (MkOutcome (Some "reset") [] []);
    AHandler 3 ex_ok; ASend ex_request 6]) ex_start) as [s|] eqn:Hs; [|vm_compute in Hs; discriminate Hs].
  exists 7%nat, s. pose proof (ex_run_reaches _ _ Hs) as Hr.
  destruct (writes 1 s) as [|m ds] eqn:Hw; vm_compute in Hs; injection Hs as <-; [discriminate Hw|].
  exists m, ds. split; [exact Hr|]. split; [reflexivity|]. split; [by apply list_elem_of_In; cbn; tauto|].
  split; [done|]. vm_compute in Hw. injection Hw as <- _. intros H. apply (f_equal length) in H. vm_compute in H. discriminate H.
Qed.
