(* ===== verification/VstDelivery.v ===== *)
(** * Every request is written once

    All the data a VST connection writes, on whatever socket, in all runs, with restarts,
    errors and exceptions: [written_once].  A run keeps a log of the requests it has
    accepted ([runs]), one for each item; a ghost of the state says which item each write
    belongs to ([tags]). *)
From S2P Require Import Prelude StdMap Types Endian Chunk VPack ToyVPack Message HeaderCodec RequestItem MessageStore VstConnection VstInvariant VstProperties VstAuthentication VstContract VstStage VstWriting.
Local Open Scope Z_scope.

Section Delivery.
Context {VP : VPack} {VB : VBuffer} `{StdSort ChunkHeader}.
Context (host : byte_order) (hdr0 : list byte) (chunk0 : ChunkHeader).
Context (conf : ConnectionConfiguration).

(** The data written, and where to. *)
Definition any_write (e : event) : option (stream * list byte) :=
  match e with EvWrite to data => Some (to, data) | _ => None end.
Definition all_writes (s : VstConnection) : list (stream * list byte) := omap any_write (trace s).

(** The message of a request of the user, and [None] for an authentication. *)
Definition request_message (o : option Request) (m : message) : Prop :=
  match o with
  | Some r => exists cb, message_of host hdr0 chunk0 conf r (UserCallback cb) m
  | None => message_of host hdr0 chunk0 conf (authentication_request conf) AuthCallback m
  end.

Section Ghost.
Context (log : list (option Request)).

(** The item [p] was accepted with the message [m], that of its request. *)
Definition accepted_as (s : VstConnection) (p : nat) (m : message) : Prop :=
  exists i o, items s !! p = Some i /\ m.1 = ri_messageID i /\ 0 < m.1 /\ log !! p = Some o /\ request_message o m.
(** Data are the protocol header, or the message of an item. *)
Definition tagged (s : VstConnection) (tag : option nat) (w : stream * list byte) : Prop :=
  match tag with
  | None => w.2 = header_bytes conf
  | Some p => (exists sock, w.1 = TcpStream sock) /\ exists m, accepted_as s p m /\ sent m w.2
  end.
Definition ready (s : VstConnection) (p : nat) : Prop :=
  exists m, item_message s p = Some m /\ accepted_as s p m.
(** In ascending order, authentications apart. *)
Definition ascending (ps : list nat) : Prop :=
  forall i j p q, ps !! i = Some p -> ps !! j = Some q -> (i < j)%nat ->
    log !! p <> Some None -> log !! q <> Some None -> (p < q)%nat.

(** [mid] are the items that have left the queue and are about to be written. *)
Record Delivers (tags : list (option nat)) (mid : list nat) (s : VstConnection) : Prop := {
  de_writes : Forall2 (tagged s) tags (all_writes s);
  de_once : omap id tags ++ mid ++ sendQueue s ≡ₚ seq 0 (length (items s));
  de_order : ascending (omap id tags ++ mid ++ sendQueue s);
  de_ready : Forall (ready s) (mid ++ sendQueue s);
  de_log : length log = length (items s);
}.

(** A change of the state that keeps the ids of the items. *)
Lemma accepted_same s s' p m :
  (forall i, items s !! p = Some i -> exists i', items s' !! p = Some i' /\ ri_messageID i' = ri_messageID i) ->
  accepted_as s p m -> accepted_as s' p m.
Proof.
  intros Hi (i & o & Hp & Hid & Hm). destruct (Hi i Hp) as (i' & Hp' & Hid'). exists i', o. split; [done|]. by rewrite Hid'.
Qed.
Lemma tagged_same s s' tags ds :
  (forall p i, items s !! p = Some i -> exists i', items s' !! p = Some i' /\ ri_messageID i' = ri_messageID i) ->
  Forall2 (tagged s) tags ds -> Forall2 (tagged s') tags ds.
Proof.
  intros Hi Ht. eapply Forall2_impl; [exact Ht|]. intros [p|] d; cbn; [|done].
  intros (Hto & m & Hm & Hd). split; [done|]. exists m. split; [|done]. eapply accepted_same; [apply Hi|done].
Qed.
Lemma put_same (s : VstConnection) p0 i0 i0' :
  items s !! p0 = Some i0 -> ri_messageID i0' = ri_messageID i0 ->
  forall p i, items s !! p = Some i ->
    exists i', items (set_items (<[p0 := i0']> (items s)) s) !! p = Some i' /\ ri_messageID i' = ri_messageID i.
Proof.
  intros H0 Hid p i Hp. cbn. destruct (decide (p0 = p)) as [<-|Hne].
  - rewrite list_lookup_insert_eq by by eapply lookup_lt_Some. exists i0'. split; [done|congruence].
  - rewrite list_lookup_insert_ne by done. eauto.
Qed.

(** Updating an item whose message is not needed any more, or stays the same. *)
Lemma Delivers_put tags mid p i i' s :
  items s !! p = Some i -> ri_messageID i' = ri_messageID i ->
  (sent_as i' = sent_as i \/ p ∉ mid ++ sendQueue s) ->
  Delivers tags mid s -> Delivers tags mid (set_items (<[p := i']> (items s)) s).
Proof.
  intros Hi Hid Hs []. pose proof (put_same s p i i' Hi Hid) as Hsame. split; cbn; try done.
  - by eapply tagged_same.
  - by rewrite length_insert.
  - rewrite Forall_forall in de_ready0 |- *. intros q Hq. destruct (de_ready0 q Hq) as (m & Hm & Ha).
    exists m. split; [|by eapply accepted_same; [apply Hsame|]]. rewrite <- Hm.
    destruct Hs as [Hs|Hs]; [by eapply item_message_put|].
    unfold item_message. cbn. rewrite list_lookup_insert_ne; [done|]. by intros ->.
  - by rewrite length_insert.
Qed.

#[export] Instance Delivers_stage tags mid : Stage (Delivers tags mid).
Proof.
  split; try (by intros ?? []; split).
  - intros e s He []. split; try done. unfold all_writes in *. cbn. rewrite omap_app. cbn.
    destruct e; try done; by rewrite app_nil_r.
  - intros h s _ []. by split.
  - intros p i i' s Hi Hs HD. eapply Delivers_put; [done| |by left|done]. by injection Hs.
Qed.

(** The head of the queue leaves it, and is written. *)
Lemma Delivers_take tags p q s :
  Delivers tags [] s -> sendQueue s = p :: q -> Delivers tags [p] (set_sendQueue q s).
Proof. intros [] Hq. rewrite Hq in *. by split. Qed.
Lemma Delivers_write tags p m sock d s :
  Delivers tags [p] s -> item_message s p = Some m -> sent m d ->
  Delivers (tags ++ [Some p]) [] (set_trace (trace s ++ [EvWrite (TcpStream sock) d]) s).
Proof.
  intros [] Hp Hd.
  assert (omap id (tags ++ [Some p]) ++ [] ++ sendQueue s = omap id tags ++ [p] ++ sendQueue s) as Heq
    by by rewrite omap_app, <- (assoc_L (++)).
  apply Forall_cons in de_ready0 as [Hr de_ready0].
  split; [|by rewrite <- Heq in de_once0|by rewrite <- Heq in de_order0|done..].
  unfold all_writes. cbn. rewrite omap_app. apply Forall2_app; [done|]. constructor; [|done].
  destruct Hr as (m' & Hm' & Ha). split; [by eexists|]. exists m. split; [|done]. by simplify_eq.
Qed.
Lemma Delivers_header tags to s :
  Delivers tags [] s -> Delivers (tags ++ [None]) [] (set_trace (trace s ++ [EvWrite to (header_bytes conf)]) s).
Proof.
  intros []. assert (omap id (tags ++ [None]) = omap id tags) as Heq by by rewrite omap_app, app_nil_r.
  split; rewrite ?Heq; [|done..].
  unfold all_writes. cbn. rewrite omap_app. apply Forall2_app; [done|]. by constructor.
Qed.
End Ghost.

(** ** Accepting a request *)

(** Everything in the list is an item, so that the next item is not. *)
Lemma seq_below ps n p : ps ≡ₚ seq 0 n -> p ∈ ps -> (p < n)%nat.
Proof. intros ->. rewrite elem_of_seq. lia. Qed.

Lemma ascending_snoc log x ps :
  ps ≡ₚ seq 0 (length log) -> ascending log ps -> ascending (log ++ [x]) (ps ++ [length log]).
Proof.
  intros Hp Ha i j p q Hi Hj Hij Hlp Hlq.
  assert (forall i q, ps !! i = Some q -> (q < length log)%nat) as Hlt.
  { intros k q' Hk. eapply seq_below; [exact Hp|by eapply list_elem_of_lookup_2]. }
  apply lookup_app_Some in Hi as [Hi|[Hi1 Hi2]]; apply lookup_app_Some in Hj as [Hj|[Hj1 Hj2]].
  - rewrite lookup_app_l in Hlp, Hlq by eauto. by eapply Ha.
  - apply list_lookup_singleton_Some in Hj2 as [_ <-]. eauto.
  - apply lookup_lt_Some in Hj. lia.
  - apply list_lookup_singleton_Some in Hi2 as [? _]. apply list_lookup_singleton_Some in Hj2 as [? _]. lia.
Qed.
(** An authentication may go anywhere. *)
Lemma ascending_insert log ps1 ps2 :
  ps1 ++ ps2 ≡ₚ seq 0 (length log) -> ascending log (ps1 ++ ps2) ->
  ascending (log ++ [None]) (ps1 ++ length log :: ps2).
Proof.
  intros Hps Ha.
  assert (forall i p, (ps1 ++ length log :: ps2) !! i = Some p -> (log ++ [None]) !! p <> Some None ->
    exists i', (ps1 ++ ps2) !! i' = Some p /\ i = (if decide (i' < length ps1)%nat then i' else S i')) as Hl.
  { intros i p Hi Hne. apply lookup_app_Some in Hi as [Hi|[Hge Hi]].
    - exists i. pose proof (lookup_lt_Some _ _ _ Hi). rewrite decide_True by done. split; [by apply lookup_app_l_Some|done].
    - destruct (i - length ps1)%nat as [|k] eqn:Hk; cbn in Hi.
      { injection Hi as <-. by rewrite list_lookup_middle in Hne. }
      exists (length ps1 + k)%nat. rewrite decide_False by lia. split; [|lia].
      rewrite lookup_app_r by lia. by replace (length ps1 + k - length ps1)%nat with k by lia. }
  intros i j p q Hi Hj Hij Hp Hq.
  destruct (Hl i p Hi Hp) as (i' & Hi' & ->). destruct (Hl j q Hj Hq) as (j' & Hj' & ->).
  assert (forall k q', (ps1 ++ ps2) !! k = Some q' -> (q' < length log)%nat) as Hlt.
  { intros k q' Hk. eapply seq_below; [exact Hps|by eapply list_elem_of_lookup_2]. }
  rewrite lookup_app_l in Hp, Hq by eauto.
  eapply (Ha i' j'); [done|done| |done..]. repeat case_decide; lia.
Qed.

Section Accept.
Context (log : list (option Request)) (x : option Request) (tags : list (option nat)).
Context (s s' : VstConnection) (i : RequestItem callback).
Context (HD : Delivers log tags [] s).
Context (Hitems : items s' = items s ++ [i]) (Htrace : trace s' = trace s).
Context (Hnew : request_message x (sent_as i)) (Hid : 0 < ri_messageID i).

Lemma accepted_old p m : accepted_as log s p m -> accepted_as (log ++ [x]) s' p m.
Proof.
  intros (j & o & Hp & Hj & H0 & Ho & Hm). exists j, o. rewrite Hitems.
  split_and!; [by apply lookup_app_l_Some|done|done|by apply lookup_app_l_Some|done].
Qed.
Lemma ready_new : ready (log ++ [x]) s' (length (items s)).
Proof.
  exists (sent_as i). unfold item_message. split; [by rewrite Hitems, list_lookup_middle|].
  exists i, x. rewrite Hitems. split_and!; [by apply list_lookup_middle|done|done| |done].
  apply list_lookup_middle. by rewrite (de_log _ _ _ _ HD).
Qed.
Lemma ready_old p : ready log s p -> ready (log ++ [x]) s' p.
Proof.
  intros (m & Hm & Ha). exists m. split; [|by apply accepted_old]. unfold item_message in *. rewrite Hitems.
  destruct (items s !! p) as [j|] eqn:Hj; [|done]. by rewrite (lookup_app_l_Some _ _ _ _ Hj).
Qed.

(** The new item goes into the queue. *)
Lemma Delivers_accept q :
  q ≡ₚ length (items s) :: sendQueue s -> ascending (log ++ [x]) (omap id tags ++ q) ->
  Delivers (log ++ [x]) tags [] (set_sendQueue q s').
Proof.
  intros Hq Ho. pose proof ready_new as Hrn. pose proof ready_old as Hro. destruct HD. split; cbn.
  - unfold all_writes. cbn. rewrite Htrace. eapply Forall2_impl; [exact de_writes0|].
    intros [p|] d; cbn; [|done]. intros (Hto & m & Hm & Hd). split; [done|]. exists m. split; [|done].
    destruct (accepted_old p m Hm) as (j & ?). by exists j.
  - rewrite Hitems, length_app, Hq. cbn. rewrite Nat.add_1_r, seq_S. cbn in *.
    rewrite <- de_once0. by rewrite <- Permutation_cons_append, Permutation_middle.
  - done.
  - rewrite Forall_forall in de_ready0 |- *. intros p Hp.
    assert (ready (log ++ [x]) s' p) as (m & ? & j & ?).
    { rewrite Hq in Hp. apply elem_of_cons in Hp as [->|Hp]; [done|by apply Hro, de_ready0]. }
    exists m. split; [done|by exists j].
  - by rewrite Hitems, !length_app, de_log0.
Qed.
End Accept.

(** ** The operations *)
Definition delivered (log : list (option Request)) (s : VstConnection) : Prop := exists tags, Delivers log tags [] s.

#[local] Instance delivered_stage log : Stage (delivered log).
Proof.
  split; intros; match goal with H : delivered _ _ |- _ => destruct H as (tags & ?) end; exists tags;
    by eapply Delivers_stage.
Qed.

(** An item is created for a request; it is the last one of the log. *)
Lemma delivered_create log x request cb (push : nat -> list nat -> list nat) :
  (forall m, message_of host hdr0 chunk0 conf request cb m -> request_message x m) ->
  (forall p q, push p q ≡ₚ p :: q) ->
  (forall tags s, Delivers log tags [] s ->
    ascending (log ++ [x]) (omap id tags ++ push (length (items s)) (sendQueue s))) ->
  triple (fun s => delivered log s /\ room s) (createRequestItem host hdr0 chunk0 conf request cb)
    (fun p s => delivered (log ++ [x]) (set_sendQueue (push p (sendQueue s)) s)) (delivered log).
Proof.
  intros Hx Hpush Hasc s [(tags & HD) Hroom].
  pose proof (createRequestItem_spec host hdr0 chunk0 conf request cb s Hroom) as Hs. cbv zeta in Hs.
  destruct (createRequestItem _ _ _ _ _ _ s) as [[p|e|w] s']; [| |done].
  2: { subst s'. exists tags. by destruct HD. }
  destruct Hs as (i & -> & -> & Hid & Hm). exists tags.
  apply (Delivers_accept log x tags s _ i HD); [done|done|by apply Hx| |apply Hpush|by apply (Hasc tags s)].
  rewrite Hid. unfold room in Hroom. lia.
Qed.

Lemma delivered_create_user log request cb :
  triple (fun s => delivered log s /\ room s) (createRequestItem host hdr0 chunk0 conf request (UserCallback cb))
    (fun p s => delivered (log ++ [Some request]) (set_sendQueue (sendQueue s ++ [p]) s)) (delivered log).
Proof.
  apply delivered_create with (push := fun p q => q ++ [p]); [by eexists| |].
  - intros p q. by rewrite Permutation_app_comm.
  - intros tags s []. cbn in *. rewrite (assoc_L (++)). rewrite <- de_log0 in *. by apply ascending_snoc.
Qed.
Lemma delivered_create_auth log :
  triple (fun s => delivered log s /\ room s)
    (createRequestItem host hdr0 chunk0 conf (authentication_request conf) AuthCallback)
    (fun p s => delivered (log ++ [None]) (set_sendQueue (p :: sendQueue s) s)) (delivered log).
Proof.
  apply delivered_create with (push := cons); [done..|].
  intros tags s []. cbn in *. rewrite <- de_log0 in *. by apply ascending_insert.
Qed.

(** The item [p] is on its way to the socket. *)
Definition passing (p : nat) (m : message) (log : list (option Request)) (tags : list (option nat)) (s : VstConnection) : Prop :=
  Delivers log tags [p] s /\ item_message s p = Some m.
#[local] Instance item_message_stage p m : Stage (fun s => item_message s p = Some m).
Proof. split; try done. intros q i i' s Hi Hs. by rewrite (item_message_put q i i' s Hi Hs p). Qed.
#[local] Instance passing_stage p m log tags : Stage (passing p m log tags).
Proof. apply stage_and; apply _. Qed.

Lemma delivered_getNextRequestToSend log l :
  triple (delivered log) (getNextRequestToSend l) (fun next s =>
    match next with Some p => exists m tags, passing p m log tags s | None => delivered log s end) (delivered log).
Proof.
  apply triple_get. intros s0. case_match; [by apply triple_ret; intros s []|].
  case_match; [by apply triple_ret; intros s []|]. unfold queue_front.
  intros s [-> (tags & HD)]. destruct (sendQueue s0) as [|p q] eqn:Hq; cbn [head].
  { exists tags. by destruct HD. }
  unfold store_add, queue_removeFirst, mbind, stm_bind, reads, lift, modify. cbn [id].
  pose proof (no_throw_item_messageID p s0). destruct (item_messageID p s0) as [id|e|w]; [|done|done].
  cbn. rewrite Hq. pose proof (Delivers_take log tags p q s0 HD Hq) as HD'.
  pose proof (de_ready _ _ _ _ HD') as Hr. cbn [app] in Hr. apply Forall_cons in Hr as [(m & Hm & _) _].
  exists m, tags. split; [by destruct HD'|done].
Qed.

Lemma passing_get_item p m log tags :
  triple (passing p m log tags) (get_item p) (fun i s => passing p m log tags s /\ sent_as i = m) (fun _ => False).
Proof.
  apply triple_get. intros s0 s [-> HT]. unfold lift, deref. pose proof HT as [_ Hm'].
  unfold item_message in Hm'. destruct (items s0 !! p); [|done]. by injection Hm' as Hm'.
Qed.

Lemma delivered_sendNextRequest log l : keeps (delivered log) (sendNextRequest l).
Proof.
  eapply triple_bind; [apply delivered_getNextRequestToSend|]. intros [p|]; [|by apply triple_skip].
  intros s (m & tags & HT). revert s HT.
  match goal with |- forall s, _ -> match ?f s with _ => _ end =>
    change (triple (passing p m log tags) f (fun _ => delivered log) (delivered log)) end.
  apply stage_then; [by apply (stage_startReading (passing p m log tags))|apply never_throws_startReading|intros _].
  eapply triple_bind; [eapply triple_conseq; [apply passing_get_item|done..]|intros i].
  apply triple_fact. intros Hm.
  do 2 (apply stage_then; [apply keeps_lift|apply never_throws_lift; auto with never_throws|intros ?]).
  apply stage_then; [by apply (stage_keeps_async (passing p m log tags)); exact Logic.I|done|intros _].
  apply stage_then; [by apply keeps_modify; intros s; apply stage_calls|done|intros _].
  apply triple_get. intros s0. unfold deref.
  destruct (writeLoops s0 !! l) as [wl|] eqn:Hwl; [|intros ??; exact I].
  destruct (wl_socket wl) as [sock|] eqn:Hsock; [|by intros ??; unfold mbind, stm_bind, lift; rewrite Hsock].
  intros s (-> & HD & Hpm). unfold mbind, stm_bind, lift. rewrite Hsock. cbn [get].
  pose proof (no_throw_send_bytes i). destruct (send_bytes i) as [data|e|w] eqn:Hdata; [|done|done].
  exists (tags ++ [Some p]).
  pose proof (Delivers_write log tags p m sock data s0 HD Hpm) as HW.
  destruct HW; [by rewrite <- Hm|]. by split.
Qed.

Ltac delivered_field := apply keeps_modify; let s := fresh in let H := fresh in intros s H;
  destruct H as (tags & H); exists tags; by destruct H.
#[local] Hint Resolve delivered_sendNextRequest : keeps.
#[local] Hint Extern 3 (keeps (delivered _) (modify _)) => delivered_field : keeps.
#[local] Hint Extern 1 (keeps (delivered _) (async _)) => delivered_field : keeps.
#[local] Hint Extern 1 (keeps (delivered _) (count_async _)) => delivered_field : keeps.
#[local] Hint Extern 1 (keeps (delivered _) (onFailure _ _)) => apply (stage_keeps_log (delivered _)); exact (fun H => H) : keeps.
#[local] Hint Extern 1 (keeps (delivered _) (invoke_item _ _ _)) => apply (stage_invoke_item (delivered _)) : keeps.
#[local] Hint Extern 1 (keeps (delivered _) (chunks_loop _ _ _ _ _ _)) => apply (stage_chunks_loop host chunk0 conf (delivered _)) : keeps.
#[local] Hint Extern 1 (keeps (delivered _) (readNextBytes _)) => apply (stage_readNextBytes (delivered _)) : keeps.
#[local] Hint Extern 1 (keeps (delivered _) startReading) => apply (stage_startReading (delivered _)) : keeps.

Lemma delivered_startWriting log : keeps (delivered log) startWriting.
Proof. unfold startWriting, WriteLoop_start. repeat keeps_step. Qed.
#[local] Hint Resolve delivered_startWriting : keeps.

Lemma delivered_shutdownConnection log e : keeps (delivered log) (shutdownConnection e).
Proof.
  unfold shutdownConnection, stopWriting, stopReading, shutdownSocket.
  repeat (first [apply (stage_cancelAll (delivered _)) | keeps_step]).
Qed.
#[local] Hint Resolve delivered_shutdownConnection : keeps.
Lemma delivered_restart log l e :
  keeps (delivered log) (restart_from_ReadLoop l e) /\ keeps (delivered log) (restart_from_WriteLoop l e).
Proof.
  unfold restart_from_ReadLoop, restart_from_WriteLoop, restartConnection, startResolveHost.
  split; repeat keeps_step.
Qed.

Lemma delivered_finishInitialization log : keeps (delivered log) (finishInitialization conf).
Proof.
  unfold finishInitialization. repeat keeps_step.
  apply keeps_modify. intros s (tags & HD). exists (tags ++ [None]). by apply Delivers_header.
Qed.
#[local] Hint Resolve delivered_finishInitialization : keeps.

(** At most one request is accepted. *)
Definition grown (log : list (option Request)) (x : option Request) (s : VstConnection) : Prop :=
  delivered log s \/ delivered (log ++ [x]) s.
Lemma grown_kept {X} log x P (m : stm VstConnection X) :
  triple P m (fun _ => delivered log) (delivered log) -> triple P m (fun _ => grown log x) (grown log x).
Proof. intros Hm. eapply triple_conseq; [exact Hm|done|intros ? s ?; by left|intros s ?; by left]. Qed.
Lemma grown_after {X} log x (m : stm VstConnection X) :
  keeps (delivered (log ++ [x])) m -> triple (delivered (log ++ [x])) m (fun _ => grown log x) (grown log x).
Proof. intros Hm. eapply triple_conseq; [exact Hm|done|intros ? s ?; by right|intros s ?; by right]. Qed.

Lemma delivered_sendRequest log request cb :
  triple (fun s => delivered log s /\ room s) (sendRequest host hdr0 chunk0 conf request (UserCallback cb))
    (fun _ => grown log (Some request)) (grown log (Some request)).
Proof.
  eapply triple_bind with (R := fun p s => delivered (log ++ [Some request]) (set_sendQueue (sendQueue s ++ [p]) s)).
  { eapply triple_conseq; [apply (delivered_create_user log)|done|done|intros s ?; by left]. }
  intros p.
  eapply triple_bind with (R := fun _ => delivered (log ++ [Some request])); [by apply triple_modify|intros _].
  apply grown_after. change (keeps (delivered (log ++ [Some request])) (s ← reads id; _ ← (if connected s then startWriting else skip);
    item ← get_item p; mret (ri_messageID item))).
  unfold get_item. repeat keeps_step.
Qed.

Lemma delivered_init_handler log e :
  triple (fun s => delivered log s /\ room s) (init_handler host hdr0 chunk0 conf e)
    (fun _ => grown log None) (grown log None).
Proof.
  destruct e as [msg|]; cbn [init_handler].
  { apply grown_kept. intros s [HI _]. revert s HI. change (keeps (delivered log) (_ ← modify (set_connected false);
      _ ← shutdownConnection CanceledDuringReset;
      onFailure (errorToInt CouldNotConnect) ("unable to initialize connection: error=" +:+ msg))).
    repeat keeps_step. }
  eapply triple_bind with (R := fun _ => grown log None).
  - unfold insertAuthenticationRequests. destruct (_authenticationType conf).
    + apply triple_skip. intros s [? _]. by left.
    + eapply triple_bind with (R := fun p s => delivered (log ++ [None]) (set_sendQueue (p :: sendQueue s) s)).
      { eapply triple_conseq; [apply (delivered_create_auth log)|done|done|intros s ?; by left]. }
      intros p. apply triple_modify. intros s ?. by right.
    + apply grown_kept. by apply triple_lift; [|intros s []].
  - intros []. assert (forall log', keeps (delivered log') (_ ← modify (set_connected true); _ ← startWriting; startReading))
      as Hk by (intros; repeat keeps_step).
    intros s [Hs|Hs]; [by apply (grown_kept log None _ _ (Hk log))|by apply grown_after].
Qed.

(** The data of a written item are dropped; it is not in the queue. *)
Lemma delivered_asyncWriteCallback log l p e :
  triple (fun s => delivered log s /\ p ∉ sendQueue s) (asyncWriteCallback l p e)
    (fun _ => delivered log) (delivered log).
Proof.
  destruct e as [msg|].
  - enough (keeps (delivered log) (asyncWriteCallback l p (Some msg))) as Hk by (intros s [? _]; by apply Hk).
    unfold asyncWriteCallback, get_item. repeat (first [apply delivered_restart | keeps_step]).
  - intros s [(tags & HD) Hp].
    unfold asyncWriteCallback, count_async, get_item, deref, put_item, mbind, stm_bind, reads, modify, lift.
    cbn -[sendNextRequest resetSendData]. destruct (items s !! p) as [i|] eqn:Hi; [|done].
    apply delivered_sendNextRequest. exists tags.
    pose proof (Delivers_put log tags [] p i (resetSendData i) s Hi eq_refl (or_intror Hp) HD) as HD'.
    by destruct HD'.
Qed.


(** The request an action can add. *)
Definition request_of (a : action) : option Request := match a with ASend r _ => Some r | AHandler _ _ => None end.

Lemma delivered_perform log a :
  triple (fun s => delivered log s /\ room s /\ forall l p, HWrite l p ∈ pending s -> p ∉ sendQueue s)
    (perform host hdr0 chunk0 conf a) (fun _ => grown log (request_of a)) (grown log (request_of a)).
Proof.
  destruct a as [r cb|n o]; cbn [perform request_of].
  { eapply triple_bind with (R := fun _ => grown log (Some r)); [|intros ?; by apply triple_skip].
    eapply triple_conseq; [apply (delivered_sendRequest log)|intros s (? & ? & _); by split|done..]. }
  apply triple_get. intros s0. destruct (pending s0 !! n) as [h|] eqn:Hh;
    [|by apply triple_skip; intros s (_ & ? & _); left].
  pose proof (list_elem_of_lookup_2 _ _ _ Hh) as Hin.
  eapply triple_bind with (R := fun _ s => delivered log s /\ room s /\ forall l p, h = HWrite l p -> p ∉ sendQueue s).
  { apply triple_modify. intros s (-> & (tags & HD) & Hr & Hw). split_and!; [|done|intros l p ->; by eapply Hw].
    exists tags. by destruct HD. }
  intros _.
  destruct h; cbn [run_handler];
    try (eapply triple_conseq; [apply (delivered_init_handler log)|intros s (? & ? & _); by split|done..]);
    apply grown_kept;
    try (eapply triple_conseq; [apply (delivered_asyncWriteCallback log)|intros s (? & _ & Hw); split; [done|by eapply Hw]|done..]);
    match goal with |- triple _ ?m _ _ => enough (keeps (delivered log) m) as Hk by (intros s [? _]; by apply Hk) end.
  all: unfold resolve_handler, initSocket, startConnect, asyncConnectCallback, handshake_handler, startSSLHandshake,
    shutdownSocket, asyncReadCallback, ReadLoop_deadlineHandler, WriteLoop_deadlineHandler.
  all: repeat (first [apply delivered_restart | keeps_step]).
Qed.

(** ** Runs with the log of the accepted requests

    An action that makes an item accepts a request: the one it sends, or an authentication. *)
Definition logged (log : list (option Request)) (a : action) (s' : VstConnection) : list (option Request) :=
  if (length (items s') =? length log)%nat then log else log ++ [request_of a].

Inductive runs : list (option Request) -> nat -> VstConnection -> Prop :=
| runs_initial s : initial s -> runs [] 0 s
| runs_step log n s a r s' :
    runs log n s -> perform host hdr0 chunk0 conf a s = (r, s') -> (forall w, r <> Undef w) ->
    runs (logged log a s') (S n) s'.

(** Some actions, one after the other. *)
Fixpoint run_logged (acts : list action) (log : list (option Request)) (s : VstConnection)
    : option (list (option Request) * VstConnection) :=
  match acts with
  | [] => Some (log, s)
  | a :: acts =>
      match perform host hdr0 chunk0 conf a s with
      | (Undef _, _) => None
      | (_, s') => run_logged acts (logged log a s') s'
      end
  end.
Lemma run_logged_runs acts log n s log' s' :
  runs log n s -> run_logged acts log s = Some (log', s') -> runs log' (length acts + n) s'.
Proof.
  revert log n s. induction acts as [|a acts IH]; cbn [run_logged length]; intros log n s Hr.
  { by intros [= <- <-]. }
  destruct (perform _ _ _ _ a s) as [r s1] eqn:Ha. intros Hs. change (S (length acts) + n)%nat with (S (length acts + n)).
  rewrite <- Nat.add_succ_r. apply (IH (logged log a s1) _ s1); [|by destruct r].
  eapply runs_step; [exact Hr|exact Ha|by intros w ->].
Qed.

(** Every run has such a log. *)
Lemma runs_reaches log n s : runs log n s -> exists b, reaches host hdr0 chunk0 conf b n s.
Proof.
  induction 1 as [s Hs|log n s a r s' _ [b IH] Ha Hr]; [exists true; by constructor|].
  destruct r as [[]|e|w]; [exists b; by eapply reaches_returns|exists false; by eapply reaches_throws|by destruct (Hr w)].
Qed.
Lemma reaches_runs b n s : reaches host hdr0 chunk0 conf b n s -> exists log, runs log n s.
Proof.
  induction 1 as [s Hs|b n s a s' _ [log IH] Ha|b n s a e s' _ [log IH] Ha];
    eexists; [by constructor|by eapply runs_step|by eapply runs_step].
Qed.

Lemma grown_logged log a s : grown log (request_of a) s -> delivered (logged log a s) s.
Proof.
  unfold logged. intros [[tags HD]|[tags HD]]; pose proof (de_log _ _ _ _ HD) as Hl; [rewrite <- Hl, Nat.eqb_refl; by exists tags|].
  rewrite length_app in Hl. cbn in Hl. rewrite (proj2 (Nat.eqb_neq _ _)) by lia. by exists tags.
Qed.

Lemma runs_delivered log n s : runs log n s -> Z.of_nat n < 2 ^ 64 -> delivered log s.
Proof.
  induction 1 as [s Hs|log n s a r s' Hruns IH Ha Hr]; intros Hn.
  { injection Hs as <-. exists []. split; try done; by constructor. }
  apply grown_logged. destruct (runs_reaches _ _ _ Hruns) as [b Hb].
  pose proof (reaches_Inv _ _ _ _ _ _ _ Hb ltac:(lia)) as [].
  pose proof (delivered_perform log a s) as Hp. rewrite Ha in Hp.
  assert (grown log (request_of a) s' \/ exists w, r = Undef w) as [|[w ->]]; [|done|by destruct (Hr w)].
  destruct r as [[]|e|w]; [left; apply Hp..|right; by eexists].
  all: split_and!; [by apply IH; lia|unfold room; lia|intros l p Hin; by apply (wi_writes l p)].
Qed.
End Delivery.

(** C10: no request is sent twice, none is skipped, and none is changed.  Over all the sockets
    a connection uses, through every failure and restart, each write is the protocol header
    or the message of one accepted request, with the id of its item; every request accepted so far
    has been written exactly once, or is in the send queue; the requests of the user are
    written in the order of acceptance; and the callback of a request is called only after
    the request has been written.  In particular a restart never repeats a request. *)
Theorem written_once {VP : VPack} {VB : VBuffer} `{StdSort ChunkHeader} (host : byte_order)
    (hdr0 : list byte) (chunk0 : ChunkHeader) (conf : ConnectionConfiguration) (log : list (option Request))
    (n : nat) (s : VstConnection) :
  runs host hdr0 chunk0 conf log n s -> Z.of_nat n < 2 ^ 64 ->
  exists tags : list (option nat),
    Forall2 (tagged host hdr0 chunk0 conf log s) tags (all_writes s)
    /\ omap id tags ++ sendQueue s ≡ₚ seq 0 (length log)
    /\ ascending log (omap id tags ++ sendQueue s)
    /\ forall p, calls p (trace s) = 1%nat -> Some p ∈ tags.
Proof.
  intros Hr Hn. destruct (runs_delivered _ _ _ _ _ _ _ Hr Hn) as (tags & []).
  exists tags. cbn in *. rewrite de_log0. split_and!; [done..|]. intros p Hp.
  destruct (runs_reaches _ _ _ _ _ _ _ Hr) as [b Hb]. destruct (reaches_Inv _ _ _ _ _ _ _ Hb Hn).
  rewrite wi_calls in Hp. destruct (items s !! p) as [i|] eqn:Hi; [|done].
  assert (p ∈ omap id tags ++ sendQueue s) as [Hin|Hin]%elem_of_app.
  { rewrite de_once0, elem_of_seq. apply lookup_lt_Some in Hi. lia. }
  - apply list_elem_of_omap in Hin as (tag & Hin & Heq). cbn in Heq. by rewrite <- Heq.
  - destruct (wi_queued p Hin) as (i' & Hi' & (Hlive & _) & _). by simplify_eq; rewrite Hlive in Hp.
Qed.

(** A request is sent, the connection breaks and is made again, and another request is sent. *)
Definition ex_reset : outcome := MkOutcome (Some "reset") [] [].
Definition ex_two_connections : list action :=
  ex_connect ++ [ASend ex_request 5; AHandler 1 ex_reset; AHandler 3 ex_ok; AHandler 3 ex_ok; AHandler 3 ex_ok;
                 ASend ex_request 6].
Definition ex_reconnected : list (option Request) * VstConnection :=
  Eval vm_compute in default ([], ex_start)
    (run_logged LittleEndianHost (le_bytes 24 0) ex_chunk ex_conf ex_two_connections [] ex_start).
Lemma written_once_witness :
  exists tags, let '(log, s) := ex_reconnected in
    log = [Some ex_request; Some ex_request]
    /\ Forall2 (tagged LittleEndianHost (le_bytes 24 0) ex_chunk ex_conf log s) tags (all_writes s)
    /\ length tags = 4%nat /\ omap id tags ≡ₚ [0%nat; 1%nat] /\ Some 0%nat ∈ tags.
Proof.
  destruct (written_once LittleEndianHost (le_bytes 24 0) ex_chunk ex_conf ex_reconnected.1 9 ex_reconnected.2)
    as (tags & Hw & Hp & _ & Hc).
  - apply (run_logged_runs _ _ _ _ ex_two_connections [] 0 ex_start); [by apply runs_initial|vm_compute; reflexivity].
  - reflexivity.
  - exists tags. split; [reflexivity|]. split; [exact Hw|].
    split; [apply Forall2_length in Hw; rewrite Hw; vm_compute; reflexivity|].
    split; [by rewrite app_nil_r in Hp|apply Hc; vm_compute; reflexivity].
Defined.
