(* ===== verification/VstNetwork.v ===== *)
(** * The network of the first connection

    [sendNextRequest] and [finishInitialization] hand their data to [async_write]; what
    becomes of them is up to the network ([carried]): bytes are transmitted one by one, a
    write completes without an error when all its data are, and one that fails leaves the
    rest behind.  Whatever happens, what has been transmitted over the first socket is the
    beginning of what was handed over ([carried_prefix]). *)
From S2P Require Import Prelude StdMap Types Endian Chunk VPack ToyVPack Message HeaderCodec RequestItem MessageStore VstConnection VstInvariant VstProperties VstAuthentication VstContract VstStage VstWriting VstDelivery.
Local Open Scope Z_scope.

(** ** The trace only grows *)
Section Growing.
Context {VP : VPack} {VB : VBuffer} `{StdSort ChunkHeader}.
Context (host : byte_order) (hdr0 : list byte) (chunk0 : ChunkHeader) (conf : ConnectionConfiguration).
Context (ws : list (list byte)).
Definition grows (s : VstConnection) : Prop := ws `prefix_of` writes 0 s.

Lemma grows_log e : keeps grows (log e).
Proof. apply keeps_modify. intros s Hs. unfold grows. rewrite writes_log. by apply prefix_app_r. Qed.
#[local] Hint Resolve grows_log : keeps.
#[local] Hint Extern 2 (keeps grows (modify _)) => apply keeps_modify; intros ? HI; exact HI : keeps.
Lemma grows_invoke_item e r p : keeps grows (invoke_item e r p).
Proof.
  unfold invoke_item, get_item, put_item, run_callback, callback_body, onFailure.
  repeat (first [keeps_step | apply keeps_for_each; intros ?]).
Qed.
#[local] Hint Resolve grows_invoke_item : keeps.
Lemma grows_chunks_loop fuel l cur : keeps grows (chunks_loop host chunk0 conf fuel l cur).
Proof.
  revert cur. induction fuel as [|fuel IH]; intros cur; cbn [chunks_loop];
    unfold consume, processChunk, get_item, put_item; repeat (first [apply IH | keeps_step]).
Qed.
Lemma grows_readNextBytes l : keeps grows (readNextBytes l).
Proof. unfold readNextBytes, shouldStopReading, async, count_async. repeat keeps_step. Qed.
#[local] Hint Resolve grows_chunks_loop grows_readNextBytes : keeps.
Lemma grows_startReading : keeps grows startReading.
Proof. unfold startReading, ReadLoop_start. repeat keeps_step. Qed.
#[local] Hint Resolve grows_startReading : keeps.
Lemma grows_sendNextRequest l : keeps grows (sendNextRequest l).
Proof.
  unfold sendNextRequest, getNextRequestToSend, queue_removeFirst, get_item, async, count_async.
  repeat keeps_step.
Qed.
#[local] Hint Resolve grows_sendNextRequest : keeps.
Lemma grows_startWriting : keeps grows startWriting.
Proof. unfold startWriting, WriteLoop_start. repeat keeps_step. Qed.
Lemma grows_shutdownConnection e : keeps grows (shutdownConnection e).
Proof.
  unfold shutdownConnection, stopWriting, stopReading, shutdownSocket.
  repeat (first [apply keeps_store_cancelAll; intros; apply grows_invoke_item | keeps_step]).
Qed.
#[local] Hint Resolve grows_startWriting grows_shutdownConnection : keeps.
Lemma grows_restart l e :
  keeps grows (restart_from_ReadLoop l e) /\ keeps grows (restart_from_WriteLoop l e).
Proof.
  unfold restart_from_ReadLoop, restart_from_WriteLoop, restartConnection, startResolveHost, async.
  split; repeat keeps_step.
Qed.
Lemma grows_perform a : keeps grows (perform host hdr0 chunk0 conf a).
Proof.
  destruct a as [r cb|n o]; cbn [perform].
  { unfold sendRequest, createRequestItem, queue_add, get_item. repeat keeps_step. }
  repeat keeps_step.
  unfold run_handler, resolve_handler, initSocket, startConnect, asyncConnectCallback, handshake_handler,
    startSSLHandshake, finishInitialization, shutdownSocket, init_handler, insertAuthenticationRequests, createRequestItem,
    queue_insert, asyncReadCallback, asyncWriteCallback, ReadLoop_deadlineHandler,
    WriteLoop_deadlineHandler, get_item, put_item, async, count_async, onFailure.
  repeat (first [apply grows_restart | keeps_step]).
Qed.
End Growing.

(** ** A write that fails ends the first connection *)
Section Failing.
Context {VP : VPack} {VB : VBuffer} `{StdSort ChunkHeader}.
Context (host : byte_order) (hdr0 : list byte) (chunk0 : ChunkHeader) (conf : ConnectionConfiguration).

Lemma no_throw_invokeOnError e r (i : RequestItem callback) : no_throw (invokeOnError e r i).
Proof. unfold invokeOnError, invoke. by repeat case_match. Qed.
Lemma never_throws_for_each {S A} (f : A -> stm S unit) l : (forall x, never_throws (f x)) -> never_throws (for_each f l).
Proof. intros Hf. induction l as [|x l IH]; [apply never_throws_skip|]. by apply never_throws_bind. Qed.
Lemma never_throws_get_item p : never_throws (get_item p).
Proof. apply never_throws_bind; [apply never_throws_reads|]. intros s. apply never_throws_lift, no_throw_deref. Qed.
Lemma never_throws_invoke_item e r p : never_throws (invoke_item e r p).
Proof.
  unfold invoke_item, put_item. apply never_throws_bind; [apply never_throws_get_item|].
  intros i. apply never_throws_bind; [apply never_throws_lift, no_throw_invokeOnError|]. intros [i' evs].
  apply never_throws_bind; [apply never_throws_modify|intros _]. apply never_throws_for_each. intros c.
  unfold run_callback, callback_body, onFailure, log. repeat never_throws_step.
Qed.
Lemma never_throws_shutdownConnection e : never_throws (shutdownConnection e).
Proof.
  unfold shutdownConnection, stopWriting, stopReading, shutdownSocket, store_cancelAll.
  repeat (first [apply never_throws_for_each; intros; apply never_throws_invoke_item | never_throws_step]).
Qed.
Lemma never_throws_restartConnection e : never_throws (restartConnection e).
Proof.
  unfold restartConnection, startResolveHost, async.
  repeat (first [apply never_throws_shutdownConnection | never_throws_step]).
Qed.

(** The first socket is gone, and [ws] was handed over to it. *)
Definition gone (ws : list (list byte)) (s : VstConnection) : Prop := exists c L, Over c L ws s.
Lemma gone_keeps {A} ws (m : stm VstConnection A) :
  (forall c L, keeps (Over c L ws) m) -> keeps (gone ws) m.
Proof.
  intros Hm s (c & L & HO). specialize (Hm c L s HO). destruct (m s) as [[a|e|w] s']; [by exists c, L..|done].
Qed.
Lemma gone_writes ws s : gone ws s -> writes 0 s = ws.
Proof. intros (c & L & HO). apply (ov_writes _ _ _ _ HO). Qed.

(** The step runs into undefined behaviour, or the socket is gone. *)
Definition ends (ws : list (list byte)) {A} (x : res A * VstConnection) : Prop :=
  match x with (Undef _, _) => True | (_, s') => gone ws s' end.
Lemma gone_perform ws a s : gone ws s -> room s -> ends ws (perform host hdr0 chunk0 conf a s).
Proof.
  intros (c & L & HO) Hr. pose proof (over_perform host hdr0 chunk0 conf c L ws a s (conj HO Hr)) as Hp.
  unfold ends. destruct (perform _ _ _ _ a s) as [[]]; [by exists c, L..|done].
Qed.

(** Shutting the connection down while the first socket is in use. *)
Lemma shutdown_gone ws c L (e : ErrorCondition) s :
  Over c L ws (set_socket None (set_sslSocket None (set_readLoop_current None (set_writeLoop_current None s)))) ->
  ends ws (shutdownConnection e s).
Proof.
  intros HO.
  pose proof (stage_cancelAll (Over c L ws) (errorToInt e) _ HO) as Hk.
  change (shutdownConnection e s) with ((s ← reads id; m ← store_cancelAll (errorToInt e) (messageStore s);
    modify (set_messageStore m)) (set_socket None (set_sslSocket None (set_readLoop_current None (set_writeLoop_current None s))))).
  unfold ends. match type of Hk with match ?x with _ => _ end => destruct x as [[]] end; [by exists c, L..|done].
Qed.
Lemma ends_bind {A B} ws (m : stm VstConnection A) (f : A -> stm VstConnection B) s :
  ends ws (m s) -> (forall a, keeps (gone ws) (f a)) -> ends ws ((m ≫= f) s).
Proof.
  intros Hm Hf. unfold mbind, stm_bind, ends in *. destruct (m s) as [[a|e|w] s']; [|done..].
  specialize (Hf a s' Hm). by destruct (f a s') as [[]].
Qed.

(** The write of the current loop has failed. *)
Lemma Up_restart_gone ms Q ds s l e :
  Up host hdr0 chunk0 conf [] ms Q ds s -> writeLoop_current s = Some l ->
  ends (header_bytes conf :: ds) (restart_from_WriteLoop l e s).
Proof.
  intros HU Hl. unfold restart_from_WriteLoop. unfold mbind at 1, stm_bind at 1, reads. cbn [id].
  rewrite Hl, bool_decide_true by done. cbn [negb].
  set (s1 := set_writeLoop_current None (set_readLoop_current None s)).
  change (ends (header_bytes conf :: ds) (restartConnection e s1)).
  unfold restartConnection. unfold mbind at 1, stm_bind at 1, reads. cbn [id].
  rewrite !bool_decide_true by done.
  change (ends (header_bytes conf :: ds) ((_ ← shutdownConnection e; s ← reads id;
    if permanent_failure s then skip else startResolveHost) s1)).
  apply ends_bind.
  - apply (shutdown_gone _ (messageID_counter s) (ms ++ Q)).
    assert (lined (ms ++ Q) Q (set_socket None (set_sslSocket None s1))) as HL
      by (destruct (up_lined _ _ _ _ _ _ _ _ _ HU); by split).
    apply lined_accounts in HL. destruct HU. by split.
  - intros _. apply gone_keeps. intros c L. apply keeps_bind; [apply keeps_reads|intros s0].
    destruct (permanent_failure s0); [apply keeps_skip|].
    apply keeps_modify. intros s2 []. split; try done. by destruct ov_accounts.
Qed.

(** A write of the first connection whose completion is still to come. *)
Definition first_write (h : handler) (s : VstConnection) : bool :=
  match h with
  | HInit => bool_decide (socket s = Some 0%nat)
  | HWrite l _ => bool_decide ((wl ← writeLoops s !! l; wl_socket wl) = Some 0%nat)
  | _ => false
  end.

Lemma ends_stage {A B} ws (I : VstConnection -> Prop) (m : stm VstConnection A) (f : A -> stm VstConnection B) s :
  keeps I m -> never_throws m -> (forall a s, I s -> ends ws (f a s)) -> I s -> ends ws ((m ≫= f) s).
Proof.
  intros Hk Hn Hf Hs. specialize (Hk s Hs). specialize (Hn s). unfold mbind, stm_bind.
  destruct (m s) as [[a|e|w] s']; [by apply Hf|done|done].
Qed.
(** The connection is given up while it is set up. *)
Lemma Early_gone k ws pend Q s :
  Early host hdr0 chunk0 conf (S k) ws pend Q s ->
  Over (messageID_counter s) Q ws
    (set_socket None (set_sslSocket None (set_readLoop_current None (set_writeLoop_current None s)))).
Proof.
  intros HE. set (s' := set_socket None _).
  assert (lined Q Q s') as HL by (destruct (ea_lined _ _ _ _ _ _ _ _ _ HE); by split).
  apply lined_accounts in HL. destruct HE. split; try done. cbn. lia.
Qed.

Lemma early_failed_write Q s msg :
  Early host hdr0 chunk0 conf 1 [header_bytes conf] [] Q s ->
  ends [header_bytes conf] (init_handler host hdr0 chunk0 conf (Some msg) s).
Proof.
  intros HE. cbn [init_handler]. set (s1 := set_connected false s).
  change (ends [header_bytes conf] ((_ ← shutdownConnection CanceledDuringReset;
    onFailure (errorToInt CouldNotConnect) ("unable to initialize connection: error=" +:+ msg)) s1)).
  apply ends_bind.
  - apply (shutdown_gone _ (messageID_counter s1) Q), (Early_gone 0 _ []). destruct HE. split; try done; by destruct ea_lined.
  - intros _. apply gone_keeps. intros c L. apply over_onFailure.
Qed.

Lemma up_failed_write ms Q ds s l p msg :
  Up host hdr0 chunk0 conf [] ms Q ds s -> writeLoop_current s = Some l ->
  ends (header_bytes conf :: ds) (asyncWriteCallback l p (Some msg) s).
Proof.
  intros HU Hl. pose (I := fun s => Up host hdr0 chunk0 conf [] ms Q ds s /\ writeLoop_current s = Some l).
  assert (Stage I) as HI by (apply stage_and; [apply Up_stage|by split]).
  assert (I s) as Hs by done. unfold asyncWriteCallback. revert s Hs HU Hl.
  enough (forall s, I s -> ends (header_bytes conf :: ds) ((_ ← count_async (-1); i ← get_item p;
    _ ← modify (fun s => set_messageStore (store_removeByID (ri_messageID i) (messageStore s)) s);
    _ ← invoke_item (errorToInt VstWriteError) None p; restart_from_WriteLoop l VstWriteError) s)) as He by (intros; by apply He).
  intros s. apply (ends_stage _ I); [apply keeps_modify; intros; by apply stage_calls|done|intros _ s1].
  apply (ends_stage _ I); [unfold get_item; repeat keeps_step|apply never_throws_get_item|intros i s2].
  apply (ends_stage _ I); [apply keeps_modify; intros; by apply stage_store|done|intros _ s3].
  apply (ends_stage _ I); [by apply (stage_invoke_item I)|apply never_throws_invoke_item|intros _ s4].
  intros [HU4 Hl4]. by eapply Up_restart_gone.
Qed.

(** When the write of the first connection fails, whatever it was, its socket is given up. *)
Lemma failed_write_gone n s h o msg :
  good host hdr0 chunk0 conf s -> room s ->
  pending s !! n = Some h -> first_write h s = true -> out_error o = Some msg ->
  ends (writes 0 s) (perform host hdr0 chunk0 conf (AHandler n o) s).
Proof.
  intros [(k & ws & pend & Q & Hst & HE)|[[(ms & Q & ds & HU) Ho]|(c & L & ws & _ & HO)]] Hr Hh Hf He.
  - cbn [perform]. unfold mbind, stm_bind, reads, modify. cbn [id]. rewrite Hh.
    pose proof (ea_pending _ _ _ _ _ _ _ _ _ HE) as Hpend. rewrite Hpend in Hh |- *. clear Hpend.
    inversion Hst; subst; destruct n; cbn in Hh; simplify_eq; cbn [run_handler first_write] in *; try done.
    rewrite He. rewrite (ea_writes _ _ _ _ _ _ _ _ _ HE). apply (early_failed_write Q).
    destruct HE. split; try done; by destruct ea_lined.
  - cbn [perform]. unfold mbind, stm_bind, reads, modify. cbn [id]. rewrite Hh.
    pose proof (up_handlers _ _ _ _ _ _ _ _ _ HU) as Hset. rewrite Forall_forall in Hset.
    specialize (Hset h ltac:(by eapply list_elem_of_lookup_2)).
    rewrite (up_writes _ _ _ _ _ _ _ _ _ HU).
    destruct h as [| | | | | |l p|]; cbn [first_write run_handler] in *; try done;
      try (by destruct Hset). rewrite He.
    apply (up_failed_write ms Q ds).
    + destruct HU. split; try done; [by apply Forall_delete|by destruct up_lined].
    + assert (HWrite l p ∈ writing s) as Hin.
      { unfold writing. apply list_elem_of_filter. split; [done|by eapply list_elem_of_lookup_2]. }
      destruct Ho as [Hi|(l' & p' & Hw & Hc)]; [by rewrite Hi in Hin; apply not_elem_of_nil in Hin|].
      rewrite Hw in Hin. apply list_elem_of_singleton in Hin. by injection Hin as -> _.
  - rewrite (ov_writes _ _ _ _ HO). apply gone_perform; [by exists c, L|done].
Qed.
End Failing.

(** ** Writes only go to sockets there are *)
Section Contained.
Context {VP : VPack} {VB : VBuffer} `{StdSort ChunkHeader}.
Context (host : byte_order) (hdr0 : list byte) (chunk0 : ChunkHeader) (conf : ConnectionConfiguration).

Definition exists_socket (n : nat) (o : option nat) : Prop := forall k, o = Some k -> (k < n)%nat.
Record contained (s : VstConnection) : Prop := {
  co_socket : exists_socket (sockets s) (socket s);
  co_loops : Forall (fun wl => exists_socket (sockets s) (wl_socket wl)) (writeLoops s);
  co_writes : Forall (fun w => exists k, w.1 = TcpStream k /\ (k < sockets s)%nat) (all_writes s);
}.
#[local] Instance contained_stage : Stage contained.
Proof.
  split; try (by intros ?? []); try (by intros ??? []); try (by intros ?????? []).
  intros e s He []. split; try done. unfold all_writes in *. cbn. rewrite omap_app.
  destruct e; try done; by rewrite app_nil_r.
Qed.
Lemma contained_write k d s :
  (k < sockets s)%nat -> contained s -> contained (set_trace (trace s ++ [EvWrite (TcpStream k) d]) s).
Proof.
  intros Hk []. split; try done. unfold all_writes in *. cbn. rewrite omap_app. apply Forall_app.
  split; [done|]. constructor; [by exists k|done].
Qed.

Ltac contained_field := apply keeps_modify; let s := fresh in let H := fresh in intros s H; by destruct H.
#[local] Hint Extern 3 (keeps contained (modify _)) => contained_field : keeps.
#[local] Hint Extern 1 (keeps contained (async _)) => contained_field : keeps.
#[local] Hint Extern 1 (keeps contained (count_async _)) => contained_field : keeps.
#[local] Hint Extern 1 (keeps contained (onFailure _ _)) => apply (stage_keeps_log contained); exact (fun H => H) : keeps.
#[local] Hint Extern 1 (keeps contained (invoke_item _ _ _)) => apply (stage_invoke_item contained) : keeps.
#[local] Hint Extern 1 (keeps contained (chunks_loop _ _ _ _ _ _)) => apply (stage_chunks_loop host chunk0 conf contained) : keeps.
#[local] Hint Extern 1 (keeps contained (readNextBytes _)) => apply (stage_readNextBytes contained) : keeps.
#[local] Hint Extern 1 (keeps contained startReading) => apply (stage_startReading contained) : keeps.

Lemma contained_sendNextRequest l : keeps contained (sendNextRequest l).
Proof.
  apply keeps_bind; [unfold getNextRequestToSend, queue_removeFirst; repeat keeps_step|].
  intros [p|]; [|apply keeps_skip].
  do 6 (apply keeps_bind; [solve [unfold get_item; repeat keeps_step]|intros ?]).
  apply triple_get. intros s0. unfold deref.
  destruct (writeLoops s0 !! l) as [wl|] eqn:Hwl; [|intros ??; exact I].
  destruct (wl_socket wl) as [sock|] eqn:Hsock; [|by intros ??; unfold mbind, stm_bind, lift; rewrite Hsock].
  intros s [-> HC]. pose proof (co_loops _ HC) as Hl. rewrite Forall_lookup in Hl.
  specialize (Hl l wl Hwl sock Hsock). unfold mbind, stm_bind, lift. rewrite Hsock. cbn [get].
  destruct (send_bytes a0) as [d|e|w]; [|done|done].
  by destruct (contained_write sock d s0 Hl HC).
Qed.
#[local] Hint Resolve contained_sendNextRequest : keeps.

Lemma contained_startWriting : keeps contained startWriting.
Proof.
  apply triple_get. intros s0. destruct (writeLoop_current s0); [by apply triple_skip; intros s []|].
  intros s [-> HC]. unfold mbind at 1, stm_bind at 1, modify at 1.
  set (s1 := set_writeLoops _ _). assert (contained s1) as H1.
  { destruct HC. split; try done. cbn. apply Forall_app. split; [done|]. constructor; [|done]. exact co_socket0. }
  revert H1. generalize s1. clear s1. intros s1 H1.
  enough (keeps contained (_ ← modify (set_writeLoop_current (Some (length (writeLoops s0))));
    WriteLoop_start (length (writeLoops s0)))) as Hk by exact (Hk s1 H1).
  apply keeps_bind; [repeat keeps_step|intros _]. apply triple_get. intros s2. unfold deref.
  destruct (writeLoops s2 !! length (writeLoops s0)) as [wl|] eqn:Hwl; [|intros ??; exact I].
  intros s [-> []]. unfold mbind at 1 2, stm_bind at 1 2, lift at 1, modify at 1.
  enough (keeps contained (if wl_started wl then skip else sendNextRequest (length (writeLoops s0)))) as Hk;
    [|destruct (wl_started wl); repeat keeps_step].
  apply Hk. split; try done. cbn. apply Forall_insert; [done|].
  rewrite Forall_lookup in co_loops0. by apply (co_loops0 _ wl Hwl).
Qed.
#[local] Hint Resolve contained_startWriting : keeps.

Lemma contained_shutdownConnection e : keeps contained (shutdownConnection e).
Proof.
  unfold shutdownConnection, stopWriting, stopReading, shutdownSocket.
  repeat (first [apply (stage_cancelAll contained) | keeps_step]).
Qed.
#[local] Hint Resolve contained_shutdownConnection : keeps.
Lemma contained_restart l e :
  keeps contained (restart_from_ReadLoop l e) /\ keeps contained (restart_from_WriteLoop l e).
Proof.
  unfold restart_from_ReadLoop, restart_from_WriteLoop, restartConnection, startResolveHost.
  split; repeat keeps_step.
Qed.
Lemma contained_finishInitialization : keeps contained (finishInitialization conf).
Proof.
  apply triple_get. intros s0 s [-> HC]. unfold mbind, stm_bind, lift.
  destruct (socket s0) as [k|] eqn:Hk; cbn [get]; [|done].
  by destruct (contained_write k (header_bytes conf) s0 (co_socket _ HC k Hk) HC).
Qed.
Lemma contained_initSocket : keeps contained initSocket.
Proof.
  apply triple_get. intros s0 s [-> HC]. unfold cassert, mbind at 1, stm_bind at 1, lift at 1.
  destruct (bool_decide (socket s0 = None)); [|done].
  enough (keeps contained startConnect) as Hk.
  { unfold mbind, stm_bind, lift. destruct (bool_decide (sslSocket s0 = None)); [|done]. unfold modify.
    apply Hk. destruct HC. split; cbn; [by intros k [= <-]; lia| |].
    - eapply Forall_impl; [exact co_loops0|]. intros wl Hwl k Hk'. specialize (Hwl k Hk'). lia.
    - eapply Forall_impl; [exact co_writes0|]. intros w (k & ? & ?). exists k. split; [done|lia]. }
  unfold startConnect. repeat keeps_step.
Qed.
#[local] Hint Resolve contained_finishInitialization contained_initSocket : keeps.

Lemma contained_perform a : keeps contained (perform host hdr0 chunk0 conf a).
Proof.
  destruct a as [r cb|n o]; cbn [perform].
  { unfold sendRequest, createRequestItem, queue_add, get_item. repeat keeps_step. }
  repeat keeps_step.
  unfold run_handler, resolve_handler, asyncConnectCallback, handshake_handler,
    startSSLHandshake, shutdownSocket, init_handler, insertAuthenticationRequests, createRequestItem,
    queue_insert, asyncReadCallback, asyncWriteCallback, ReadLoop_deadlineHandler,
    WriteLoop_deadlineHandler, get_item, put_item.
  repeat (first [apply contained_restart | keeps_step]).
Qed.
Lemma reaches_contained b n s : reaches host hdr0 chunk0 conf b n s -> contained s.
Proof.
  apply reaches_keeps; [|apply contained_perform]. intros s0 [= <-]. split; [done|by constructor..].
Qed.
End Contained.

(** ** What has been transmitted over the first socket *)
Section Network.
Context {VP : VPack} {VB : VBuffer} `{StdSort ChunkHeader}.
Context (host : byte_order) (hdr0 : list byte) (chunk0 : ChunkHeader) (conf : ConnectionConfiguration).

(** The completion of a write of the first connection, with its error. *)
Definition completes (a : action) (s : VstConnection) : option (option string) :=
  match a with
  | AHandler n o =>
      h ← pending s !! n;
      if first_write h s then Some (out_error o) else None
  | ASend _ _ => None
  end.
(** The data the step from [s] to [s'] hands over to the first socket. *)
Definition handed_over (s s' : VstConnection) : list byte := concat (drop (length (writes 0 s)) (writes 0 s')).

(** Runs with the network of the first socket: [wire] has been transmitted, and [rest] has been handed
    over and is to come.  There is at most one write at a time ([first_stream]), so that
    the data are one stream: a byte may be transmitted at any time; a write completes
    without an error only when all its data have been transmitted; when it completes with an error,
    what is left of them is lost. *)
Inductive carried : list (option Request) -> nat -> VstConnection -> list byte -> list byte -> Prop :=
| carried_initial s : initial s -> carried [] 0 s [] []
| carried_byte log n s wire b rest : carried log n s wire (b :: rest) -> carried log n s (wire ++ [b]) rest
| carried_step log n s wire rest a r s' :
    carried log n s wire rest -> perform host hdr0 chunk0 conf a s = (r, s') -> (forall w, r <> Undef w) ->
    (completes a s = Some None -> rest = []) ->
    carried (logged log a s') (S n) s' wire
      (match completes a s with Some (Some _) => [] | _ => rest end ++ handed_over s s').

Lemma carried_runs log n s wire rest : carried log n s wire rest -> runs host hdr0 chunk0 conf log n s.
Proof. induction 1; [by constructor|done|by eapply runs_step]. Qed.

(** The transmission of some bytes. *)
Lemma carried_bytes log n s wire bs rest :
  carried log n s wire (bs ++ rest) -> carried log n s (wire ++ bs) rest.
Proof.
  revert wire. induction bs as [|b bs IH]; intros wire Hc; [by rewrite app_nil_r|].
  rewrite cons_middle, (assoc_L (++)). apply IH. by apply carried_byte.
Qed.
(** Every run has a network. *)
Lemma runs_carried log n s : runs host hdr0 chunk0 conf log n s -> exists wire, carried log n s wire [].
Proof.
  induction 1 as [s Hs|log n s a r s' _ (wire & IH) Ha Hr]; [by exists []; constructor|].
  exists (wire ++ handed_over s s'). apply (carried_bytes _ _ _ _ _ []). rewrite app_nil_r.
  pose proof (carried_step log n s wire [] a r s' IH Ha Hr ltac:(done)) as Hc.
  by destruct (completes a s) as [[]|].
Qed.

(** All the data are on the wire or to come; when the socket is gone, some may be lost. *)
Definition sound (s : VstConnection) (wire rest : list byte) : Prop :=
  wire ++ rest = concat (writes 0 s) \/ (gone (writes 0 s) s /\ rest = [] /\ wire `prefix_of` concat (writes 0 s)).

Lemma sound_step s a r s' wire rest :
  good host hdr0 chunk0 conf s -> room s -> perform host hdr0 chunk0 conf a s = (r, s') -> (forall w, r <> Undef w) ->
  sound s wire rest ->
  sound s' wire (match completes a s with Some (Some _) => [] | _ => rest end ++ handed_over s s').
Proof.
  intros Hg Hroom Ha Hr Hs.
  assert (ends (writes 0 s) (r, s') -> gone (writes 0 s) s') as Hends
    by (destruct r as [[]|e|w]; [done..|by destruct (Hr w)]).
  assert (gone (writes 0 s) s' -> wire `prefix_of` concat (writes 0 s) -> sound s' wire []) as Hgone.
  { intros Hg' Hp. pose proof (gone_writes _ _ Hg') as Hw. right. by rewrite Hw. }
  assert (gone (writes 0 s) s' -> handed_over s s' = []) as Hnone.
  { intros Hg'. unfold handed_over. by rewrite (gone_writes _ _ Hg'), drop_ge. }
  destruct Hs as [Heq|(Hg' & -> & Hp)].
  2: { assert (gone (writes 0 s) s') as Hg2.
       { apply Hends. rewrite <- Ha. by apply gone_perform. }
       rewrite Hnone by done. destruct (completes a s) as [[]|]; by apply Hgone. }
  pose proof (grows_perform host hdr0 chunk0 conf (writes 0 s) a s ltac:(unfold grows; done)) as Hgrows. rewrite Ha in Hgrows.
  assert (writes 0 s `prefix_of` writes 0 s') as [more Hmore]
    by (destruct r as [[]|e|w]; [exact Hgrows..|by destruct (Hr w)]).
  assert (handed_over s s' = concat more) as Hover by by unfold handed_over; rewrite Hmore, drop_app_length.
  assert (sound s' wire (rest ++ handed_over s s')) as Hkept.
  { left. by rewrite Hover, (assoc_L (++)), Heq, Hmore, concat_app. }
  destruct (completes a s) as [[msg|]|] eqn:Hc; [|done..].
  destruct a as [|n o]; [done|]. cbn [completes] in Hc. destruct (pending s !! n) as [h|] eqn:Hh; [|done]. cbn in Hc.
  destruct (first_write h s) eqn:Hf; [|done]. injection Hc as Ho.
  assert (gone (writes 0 s) s') as Hg2.
  { apply Hends. rewrite <- Ha. by eapply failed_write_gone. }
  rewrite Hnone by done. apply Hgone; [done|]. rewrite <- Heq. by apply prefix_app_r.
Qed.

(** In every run, what has been transmitted is the beginning of what was handed over. *)
Lemma carried_sound log n s wire rest :
  carried log n s wire rest -> Z.of_nat n < 2 ^ 64 -> sound s wire rest.
Proof.
  induction 1 as [s Hs|log n s wire b rest _ IH|log n s wire rest a r s' Hc IH Ha Hr _]; intros Hn.
  - injection Hs as <-. by left.
  - destruct (IH Hn) as [Heq|(_ & ? & _)]; [|done]. left. by rewrite <- (assoc_L (++)).
  - destruct (runs_reaches _ _ _ _ _ _ _ (carried_runs _ _ _ _ _ Hc)) as [b Hb].
    pose proof (reaches_Inv _ _ _ _ _ _ _ Hb ltac:(lia)) as [].
    eapply sound_step; [eapply reaches_good; [exact Hb|lia]|unfold room; lia|exact Ha|exact Hr|apply IH; lia].
Qed.
Lemma carried_prefix log n s wire rest :
  carried log n s wire rest -> Z.of_nat n < 2 ^ 64 -> wire `prefix_of` concat (writes 0 s).
Proof. intros Hc Hn. destruct (carried_sound _ _ _ _ _ Hc Hn) as [<-|(_ & _ & ?)]; [by apply prefix_app_r|done]. Qed.

(** Some steps, one after the other, and the transmission of some bytes in between. *)
Inductive network_step : Type := Transmit (bytes : nat) | Act (a : action).
Fixpoint run_network (steps : list network_step) (log : list (option Request)) (s : VstConnection)
    (wire rest : list byte) : option (list (option Request) * VstConnection * list byte * list byte) :=
  match steps with
  | [] => Some (log, s, wire, rest)
  | Transmit k :: steps => run_network steps log s (wire ++ take k rest) (drop k rest)
  | Act a :: steps =>
      if bool_decide (completes a s = Some None /\ rest <> []) then None
      else
        match perform host hdr0 chunk0 conf a s with
        | (Undef _, _) => None
        | (_, s') => run_network steps (logged log a s') s' wire
                       (match completes a s with Some (Some _) => [] | _ => rest end ++ handed_over s s')
        end
  end.
Lemma run_network_carried steps log n s wire rest log' s' wire' rest' :
  carried log n s wire rest -> run_network steps log s wire rest = Some (log', s', wire', rest') ->
  exists m, (m <= length steps)%nat /\ carried log' (m + n) s' wire' rest'.
Proof.
  revert log n s wire rest. induction steps as [|[k|a] steps IH]; cbn [run_network]; intros log n s wire rest Hc.
  - intros [= <- <- <- <-]. by exists 0%nat.
  - intros Hs. destruct (IH log n s _ _ (carried_bytes log n s wire (take k rest) (drop k rest) ltac:(by rewrite take_drop)) Hs)
      as (m & Hm & Hc'). exists m. split; [cbn; lia|done].
  - case_bool_decide as Hok; [done|]. destruct (perform _ _ _ _ a s) as [r s1] eqn:Ha. intros Hs.
    assert (forall w, r <> Undef w) as Hr by (intros w ->; done).
    pose proof (carried_step log n s wire rest a r s1 Hc Ha Hr) as Hc1.
    destruct (IH (logged log a s1) (S n) s1 wire _ ltac:(apply Hc1; intros He; by destruct rest; [|destruct Hok])
      ltac:(by destruct r)) as (m & Hm & Hc'). exists (S m). rewrite Nat.add_succ_comm. split; [cbn; lia|done].
Qed.
End Network.
