(* ===== verification/VstPeer.v ===== *)
(** * What the server reads

    The bytes a connection writes for its requests, read back with the receiving code of
    this very library: chunk by chunk, assembled, decoded ([stream_understood]).  The
    reader stands for a server; its byte order is its own. *)
From S2P Require Import Prelude StdMap Types Endian Chunk VPack ToyVPack Message HeaderCodec RequestItem MessageStore VstConnection VstReceive VstProperties VstStage.
Local Open Scope Z_scope.

Section Reader.
Context {VP : VPack} {VB : VBuffer} `{StdSort ChunkHeader}.
Context (host : byte_order) (chunk0 : ChunkHeader) (v : VSTVersion).

(** The id of a message, its header, and what follows the header. *)
Definition read_message : Type := Z * MessageHeader * list byte.

(** The messages at the beginning of the data, one after the other, and the data left over.
    [i] collects the chunks of the current one. *)
Fixpoint read_messages (fuel : nat) (i : RequestItem unit) (cursor : list byte)
    : res (list read_message * list byte) :=
  n ← isChunkComplete host cursor (Z.of_nat (length cursor));
  if n =? 0 then Ok ([], cursor)
  else
    match fuel with
    | O => Undef "the loop does not terminate"
    | S fuel =>
        chunk ← readChunkHeader host chunk0 v cursor;
        i ← addChunk chunk i;
        '(i, complete) ← assemble i;
        let cursor := drop (Z.to_nat (_chunkLength chunk)) cursor in
        match complete with
        | None => read_messages fuel i cursor
        | Some buffer =>
            '(h, headerLength) ← validateAndExtractMessageHeader 1 buffer;
            '(ms, rest) ← read_messages fuel new_RequestItem cursor;
            Ok ((_messageID chunk, h, drop (Z.to_nat headerLength) buffer) :: ms, rest)
        end
    end.

Definition in_wire (a : ChunkHeader * list byte) : Prop :=
  chunk_in_range v a.1 /\ buffer_size (_data a.1) = Z.of_nat (length a.2).
(** A chunk as it is read. *)
Definition as_read (a : ChunkHeader * list byte) : ChunkHeader * list byte := (received v chunk0 a.1 a.2 [], a.2).
Definition wire (l : list (ChunkHeader * list byte)) : list byte := wire_message v l.*1 l.*2.

Lemma addChunk_rest c d rest (i : RequestItem unit) :
  addChunk (received v chunk0 c d rest) i = addChunk (received v chunk0 c d []) i.
Proof. unfold addChunk. cbn [received _data]. by rewrite !buffer_bytes_exact. Qed.

(** Reading the first of some chunks. *)
Lemma read_messages_chunk a l rest fuel i :
  in_wire a ->
  read_messages (S fuel) i (wire (a :: l) ++ rest) =
  (i ← addChunk (as_read a).1 i;
   '(i, complete) ← assemble i;
   match complete with
   | None => read_messages fuel i (wire l ++ rest)
   | Some buffer =>
       '(h, headerLength) ← validateAndExtractMessageHeader 1 buffer;
       '(ms, tail) ← read_messages fuel new_RequestItem (wire l ++ rest);
       Ok ((_messageID a.1, h, drop (Z.to_nat headerLength) buffer) :: ms, tail)
   end).
Proof.
  intros [Hr Hd]. destruct a as [c d]. unfold wire. cbn [fmap list_fmap fst snd] in *.
  change (wire_message v (c :: l.*1) (d :: l.*2)) with (wire_chunk v c d ++ wire l).
  rewrite <- (assoc_L (++)). cbn [read_messages].
  rewrite (isChunkComplete_wire host v c d (wire l ++ rest) Hr Hd).
  rewrite (readChunkHeader_wire host v c d (wire l ++ rest) Hr Hd chunk0).
  pose proof (length_wire_chunk v c d) as Hl. pose proof (header_length_range v c) as Hhl.
  rewrite !bind_ret_l. zbool. rewrite addChunk_rest. cbn [as_read fst snd].
  replace (_chunkLength (received v chunk0 c d (wire l ++ rest)))
    with (Z.of_nat (length (wire_chunk v c d))) by (cbn [received _chunkLength]; lia).
  rewrite Nat2Z.id, drop_app_length. done.
Qed.

Lemma wire_cons a l : wire (a :: l) = wire [a] ++ wire l.
Proof. unfold wire. cbn [fmap list_fmap]. unfold wire_message. cbn. by rewrite app_nil_r. Qed.
Lemma wire_one a : (16 <= length (wire [a]))%nat.
Proof.
  destruct a as [c d]. change (wire [(c, d)]) with (wire_chunk v c d ++ []). rewrite app_nil_r.
  pose proof (length_wire_chunk v c d). pose proof (header_length_range v c). lia.
Qed.
Lemma length_wire l : (length l <= length (wire l))%nat.
Proof.
  induction l as [|a l IH]; [done|]. rewrite wire_cons, length_app. pose proof (wire_one a). cbn. lia.
Qed.

(** All but the last chunk of a message are collected. *)
Lemma read_messages_collect `{!StdSortLaws ChunkHeader} ps l pre a post i rest fuel :
  message_arrives ps (map as_read l) -> l = pre ++ a :: post -> post <> [] -> in_wire a ->
  addChunks (map as_read pre).*1 (new_RequestItem : RequestItem unit) = Ok i ->
  exists i', addChunks (map as_read (pre ++ [a])).*1 (new_RequestItem : RequestItem unit) = Ok i'
    /\ forall l', read_messages (S fuel) i (wire (a :: l') ++ rest) = read_messages fuel i' (wire l' ++ rest).
Proof.
  intros Hm Hl Hne Ha Hi. set (i0 := new_RequestItem : RequestItem unit) in *.
  assert (addChunks (map as_read (pre ++ [a])).*1 i0 = addChunk (as_read a).1 i) as Hadd.
  { rewrite map_app, fmap_app, addChunks_app, Hi, bind_ret_l. cbn. by destruct (addChunk _ i). }
  destruct (assemble_early ps (map as_read l) (S (length pre)) i0 Hm ltac:(done)) as (i1 & H1 & H2 & _).
  { rewrite length_map, Hl, length_app. destruct post; [done|cbn; lia]. }
  assert (take (S (length pre)) (map as_read l) = map as_read (pre ++ [a])) as Htake.
  { rewrite Hl. change (a :: post) with ([a] ++ post). rewrite (assoc_L (++)), map_app, take_app_length'; [done|].
    rewrite length_map, length_app. cbn. lia. }
  rewrite Htake in H1. exists i1. split; [done|]. intros l'. rewrite read_messages_chunk by done.
  rewrite Hadd in H1. by rewrite H1, bind_ret_l, H2, bind_ret_l.
Qed.

(** A whole message. *)
Lemma read_messages_message `{!StdSortLaws ChunkHeader} ps l h n mid rest fuel :
  message_arrives ps (map as_read l) -> Forall in_wire l -> Forall (fun a => _messageID a.1 = mid) l ->
  validateAndExtractMessageHeader 1 (concat ps) = Ok (h, n) -> (length l <= fuel)%nat ->
  read_messages fuel new_RequestItem (wire l ++ rest) =
  ('(ms, tail) ← read_messages (fuel - length l) new_RequestItem rest;
   Ok ((mid, h, drop (Z.to_nat n) (concat ps)) :: ms, tail)).
Proof.
  intros Hm Hw Hid Hh. set (i0 := new_RequestItem : RequestItem unit).
  assert (fresh_response i0) as Hf by done.
  enough (forall post pre i fuel, l = pre ++ post -> post <> [] -> addChunks (map as_read pre).*1 i0 = Ok i ->
    (length post <= fuel)%nat -> read_messages fuel i (wire post ++ rest) =
    ('(ms, tail) ← read_messages (fuel - length post) i0 rest;
     Ok ((mid, h, drop (Z.to_nat n) (concat ps)) :: ms, tail))) as Hall.
  { intros Hfuel. apply (Hall l []); [done| |done|done]. intros ->. destruct Hm as (_ & Hp & Hl & _).
    apply Permutation_length in Hp. rewrite length_message_chunks in Hp. cbn in Hp. lia. }
  induction post as [|a post IH]; intros pre i fuel' Hl Hne Hi Hfuel; [done|].
  destruct fuel' as [|fuel']; [cbn in Hfuel; lia|]. cbn in Hfuel.
  assert (in_wire a /\ _messageID a.1 = mid) as [Ha Hida].
  { rewrite Hl in Hw, Hid. by apply Forall_app in Hw as [_ [? _]%Forall_cons]; apply Forall_app in Hid as [_ [? _]%Forall_cons]. }
  destruct post as [|b post].
  - rewrite read_messages_chunk by done.
    assert (addChunks (map as_read (pre ++ [a])).*1 i0 = addChunk (as_read a).1 i) as Hadd.
    { rewrite map_app, fmap_app, addChunks_app, Hi, bind_ret_l. cbn. by destruct (addChunk _ i). }
    destruct (assemble_complete ps (map as_read l) i0 Hm Hf) as (i1 & i2 & H1 & H2 & _).
    rewrite Hl, Hadd in H1. rewrite H1, bind_ret_l, H2, bind_ret_l, Hh, bind_ret_l, Hida.
    cbn [length Nat.sub]. by rewrite Nat.sub_0_r.
  - destruct (read_messages_collect ps l pre a (b :: post) i rest fuel') as (i1 & Hi1 & ->); [done..|].
    rewrite (IH (pre ++ [a]) i1 fuel'); [done|by rewrite <- (assoc_L (++))|done|done|cbn in *; lia].
Qed.

(** Data cut in two somewhere. *)
Lemma app_split (a b w suf : list byte) :
  a ++ b = w ++ suf ->
  (exists x w', a = w ++ x :: w' /\ suf = (x :: w') ++ b) \/ exists w', w = a ++ w' /\ b = w' ++ suf.
Proof.
  intros Heq. apply app_eq_app in Heq as [w' [(Hw & Hsuf)|(Hw & Hsuf)]]; [|by right; exists w'].
  destruct w' as [|x w']; [|by left; exists x, w']. right. exists []. rewrite app_nil_r in *. by subst.
Qed.

(** The beginning of a message: its complete chunks are collected, and it is not delivered. *)
Lemma read_messages_cut `{!StdSortLaws ChunkHeader} ps l w suf fuel :
  message_arrives ps (map as_read l) -> Forall in_wire l ->
  wire l = w ++ suf -> suf <> [] -> (length w <= fuel)%nat ->
  exists tail, read_messages fuel new_RequestItem w = Ok ([], tail).
Proof.
  intros Hm Hw Hl Hne. set (i0 := new_RequestItem : RequestItem unit).
  enough (forall post pre i fuel w, l = pre ++ post -> addChunks (map as_read pre).*1 i0 = Ok i ->
    wire post = w ++ suf -> (length w <= fuel)%nat -> exists tail, read_messages fuel i w = Ok ([], tail)) as Hall
    by by intros; apply (Hall l [] i0).
  clear Hl w fuel. induction post as [|a post IH]; intros pre i fuel w Hl Hi Heq Hfuel.
  { by apply symmetry, app_nil in Heq as [_ ?]. }
  assert (in_wire a) as Ha by (rewrite Hl in Hw; by apply Forall_app in Hw as [_ [? _]%Forall_cons]).
  rewrite wire_cons in Heq. pose proof (wire_one a) as H16.
  apply app_split in Heq as [(x & w' & Ha' & _)|(w' & -> & Hpost)].
  - destruct a as [c d], Ha as [Hr Hd].
    enough (isChunkComplete host w (Z.of_nat (length w)) = Ok 0) as Hz
      by by exists w; destruct fuel; cbn [read_messages]; rewrite Hz.
    eapply (isChunkComplete_prefix host v c d w (x :: w')); [done..| |done].
    rewrite <- Ha'. symmetry. apply app_nil_r.
  - destruct post as [|b post]; [by apply symmetry, app_nil in Hpost as [_ ?]|].
    rewrite length_app in Hfuel. destruct fuel as [|fuel]; [lia|].
    destruct (read_messages_collect ps l pre a (b :: post) i w' fuel) as (i1 & Hi1 & Hread); [done..|].
    rewrite (Hread []). change (wire [] ++ w') with w'. apply (IH (pre ++ [a]) i1); [by rewrite <- (assoc_L (++))|done|done|lia].
Qed.

(** What one request is on the wire, and how it is read. *)
Record sent_message (id : Z) (h : MessageHeader) (payload data : list byte) : Prop := {
  sm_message : exists ps l n,
    data = wire l /\ Forall in_wire l /\ message_arrives ps (map as_read l) /\ Forall (fun a => _messageID a.1 = id) l
    /\ validateAndExtractMessageHeader 1 (concat ps) = Ok (h, n) /\ drop (Z.to_nat n) (concat ps) = payload;
}.

(** The beginning of several messages, one after the other: those that are complete are read. *)
Lemma read_messages_prefix `{!StdSortLaws ChunkHeader} ms ds :
  Forall2 (fun m d => sent_message m.1.1 m.1.2 m.2 d) ms ds ->
  forall data suf fuel, concat ds = data ++ suf -> (length data <= fuel)%nat ->
  exists k tail, read_messages fuel new_RequestItem data = Ok (take k ms, tail)
    /\ (k <= length ms)%nat /\ concat (take k ds) `prefix_of` data
    /\ ((k < length ds)%nat -> ~ concat (take (S k) ds) `prefix_of` data)
    /\ (suf = [] -> k = length ms /\ tail = []).
Proof.
  induction 1 as [|[[id h] payload] d ms ds [(ps & l & n & -> & Hw & Ha & Hid & Hh & Hp)] _ IH]; intros data suf fuel Heq Hfuel.
  { apply symmetry, app_nil in Heq as [-> ->]. exists 0%nat, []. split_and!; [by destruct fuel|done|done|cbn; lia|done]. }
  cbn [concat] in *. apply app_split in Heq as [(x & w' & Hl & Hsuf)|(data' & -> & Heq)].
  - destruct (read_messages_cut ps l data (x :: w') fuel Ha Hw Hl) as [tail Hread]; [done..|].
    exists 0%nat, tail. rewrite Hread. split_and!; [done|lia|by apply prefix_nil| |by rewrite Hsuf].
    intros _ [k Hk]. cbn in Hk. rewrite app_nil_r in Hk. apply (f_equal length) in Hl. rewrite Hk in Hl.
    rewrite !length_app in Hl. cbn in Hl. lia.
  - rewrite length_app in Hfuel. pose proof (length_wire l).
    destruct (IH data' suf (fuel - length l)%nat Heq ltac:(lia)) as (k & tail & Hread & Hk & Hpre & Hnot & Hall).
    exists (S k), tail. rewrite (read_messages_message ps l h n id) by (done || lia). rewrite Hread, bind_ret_l.
    cbn [fst snd] in Hp. rewrite Hp. split_and!; [done|cbn; lia|by apply prefix_app| |].
    + intros Hlt Hpre'. cbn in Hlt. apply Hnot; [lia|]. by apply prefix_app_inv in Hpre'.
    + intros Hs. destruct (Hall Hs) as [-> ->]. done.
Qed.

(** Several messages, one after the other. *)
Lemma read_messages_stream `{!StdSortLaws ChunkHeader} ms ds :
  Forall2 (fun m d => sent_message m.1.1 m.1.2 m.2 d) ms ds ->
  forall fuel, (length (concat ds) <= fuel)%nat -> read_messages fuel new_RequestItem (concat ds) = Ok (ms, []).
Proof.
  intros Hms fuel Hfuel.
  destruct (read_messages_prefix ms ds Hms (concat ds) [] fuel) as (k & tail & Hread & _ & _ & _ & Hall);
    [by rewrite app_nil_r|done|]. destruct Hall as [-> ->]; [done|]. by rewrite firstn_all in Hread.
Qed.
End Reader.

Section Peer.
Context {VP : VPack} `{!VPackLaws VP} {VB : VBuffer} `{!VBufferLaws VB} `{StdSort ChunkHeader} `{!StdSortLaws ChunkHeader}.

(** The slices of the payload of a request, which are what is sent of it: those of its
    VelocyPack payload, those it was cut into before, or none. *)
Definition slices_of (r : Request) : list (list byte) := match request_slices r with Ok (_, ss) => ss | _ => [] end.

(** A request with a verb of the protocol and a path, that fits into a message. *)
Record deliverable (r : Request) : Prop := {
  dv_type : type (rq_header r) = Some MT_Request;
  dv_verb : exists verb, restVerb (rq_header r) = Some verb /\ verb_in_range verb;
  dv_path : is_Some (path (rq_header r));
  dv_header : header_wf (rq_header r);
  dv_size : forall hdr, createVstMessageHeader (default_header (rq_header r)) = Ok hdr ->
    Z.of_nat (length (hdr ++ concat (slices_of r))) < 2 ^ 31;
}.

(** The message [m] says what the request [r] with the id [id] says. *)
Record understood (q : Z * Request) (m : read_message) : Prop := {
  ud_id : m.1.1 = q.1;
  ud_payload : m.2 = concat (slices_of q.2);
  ud_version : version m.1.2 = Some 1;
  ud_type : type m.1.2 = Some MT_Request;
  ud_database : database m.1.2 = Some (default "_system" (database (rq_header q.2)));
  ud_verb : restVerb m.1.2 = restVerb (rq_header q.2);
  ud_path : path m.1.2 = path (rq_header q.2);
  ud_parameters : parameters m.1.2 = Some (default [] (parameters (rq_header q.2)));
  ud_meta : meta m.1.2 = Some (default [] (meta (rq_header q.2)));
}.

(** The payload that arrives is the VelocyPack the user has added. *)
Lemma slices_of_vpack r ss :
  _payload r = concat ss -> Forall is_slice ss -> is_Some (_isVpack r) -> _modified r = true ->
  concat (slices_of r) = _payload r.
Proof.
  intros Hp Hss Hk Hm. unfold slices_of. destruct (request_slices_concat r ss Hp Hss Hk Hm) as (r' & -> & _). done.
Qed.
(** The slices do not depend on what is filled in before a request is sent. *)
Lemma slices_of_prepared h id r r' ss :
  request_slices (set_rq_header h (set_rq_messageID id r)) = Ok (r', ss) -> slices_of r = ss.
Proof.
  unfold slices_of, request_slices. cbn. destruct (bool_decide _ && _); [|by intros [= <- <-]].
  destruct (cut_loop _ _ _ _ _ _) as [l|e|w]; cbn; by intros [= <- <-].
Qed.

Context (host : byte_order) (hdr0 : list byte) (chunk0 : ChunkHeader) (conf : ConnectionConfiguration).
Context (host' : byte_order) (chunk0' : ChunkHeader).
Local Abbreviation v := (_vstVersion conf).

(** The chunks of a message arrive in the order they were made. *)
Lemma message_chunks_arrive mid mlen ps cs :
  is_message mid mlen ps cs -> (0 < length ps)%nat -> Z.of_nat (length ps) < 2 ^ 31 ->
  message_arrives ps (map (as_read chunk0' v) (zip cs ps)).
Proof.
  intros Hm Hpos Hlen. split; [|split; [|done]].
  - apply Forall_fmap, Forall_true. intros a. cbn. split; [apply buffer_bytes_exact|lia].
  - apply Permutation_refl'. rewrite <- (list_fmap_compose (as_read chunk0' v) (fun a => (_chunkX a.1, a.2))). apply list_eq. intros i. unfold message_chunks.
    rewrite list_lookup_imap, list_lookup_fmap, lookup_zip_with. destruct (ps !! i) as [p|] eqn:Hp.
    + destruct (lookup_lt_is_Some_2 cs i) as [c Hc]. { rewrite (im_length _ _ _ _ Hm). by eapply lookup_lt_Some. }
      rewrite Hc. cbn. by rewrite (cc_chunkX _ _ _ _ _ (im_carries _ _ _ _ Hm i p c Hp Hc)).
    + by destruct (cs !! i).
Qed.

Lemma length_pieces ps : Forall (fun p : list byte => (0 < length p)%nat) ps -> (length ps <= length (concat ps))%nat.
Proof. induction 1; cbn; rewrite ?length_app; lia. Qed.

Lemma wire_pieces_size parts p : p ∈ wire_pieces parts -> (0 < length p)%nat /\ Z.of_nat (length p) + 24 < 2 ^ 32.
Proof. intros Hp%pieces_bounded; unfold maxChunkHeaderSize, defaultMaxChunkSize in *; lia. Qed.

(** The chunks of a prepared message are in the ranges of their fields. *)
Lemma message_chunks_in_wire id mlen parts cs :
  length hdr0 = 24%nat -> is_message id mlen (wire_pieces parts) cs -> 0 <= id < 2 ^ 64 -> 0 <= mlen < 2 ^ 64 ->
  Forall (in_wire v) (zip cs (wire_pieces parts)) /\ Forall (fun a => _messageID a.1 = id) (zip cs (wire_pieces parts)).
Proof.
  intros H0 Hm Hid Hlen. split; apply Forall_lookup; intros i [c p] (? & ? & [= <- <-] & Hc & Hp)%lookup_zip_with_Some;
    pose proof (im_carries _ _ _ _ Hm i p c Hp Hc) as Hcc; cbn; [|by apply Hcc].
  split; [|by apply Hcc]. eapply is_message_range; [exact H0|exact Hm|done|done|exact Hp|exact Hc|]. by eapply (wire_pieces_size parts), list_elem_of_lookup_2.
Qed.

(** A prepared message, read back. *)
Lemma message_on_wire id r cb d hdr h :
  length hdr0 = 24%nat -> 0 <= id < 2 ^ 64 ->
  createVstMessageHeader (default_header (rq_header r)) = Ok hdr -> is_slice hdr ->
  validateAndExtractMessageHeader 1 (hdr ++ concat (slices_of r)) = Ok (h, Z.of_nat (length hdr)) ->
  Z.of_nat (length (hdr ++ concat (slices_of r))) < 2 ^ 31 ->
  message_of host hdr0 chunk0 conf r cb (id, Ok d) -> sent_message chunk0' v id h (concat (slices_of r)) d.
Proof.
  intros H0 Hid Hhdr Hs Hx Hsz (i & Hi & [= _ Hd]). cbn [fst] in Hi.
  assert (exists r', request_slices (set_rq_header (default_header (rq_header r)) (set_rq_messageID id r))
    = Ok (r', slices_of r)) as [r' Hss].
  { assert (Hp := Hi). unfold prepareForNetwork in Hp. cbn [created set_request _request get] in Hp.
    rewrite bind_ret_l in Hp. cbn [set_rq_header set_rq_messageID rq_header] in Hp. rewrite Hhdr, bind_ret_l in Hp.
    destruct (request_slices _) as [[r' ss]|e|w] eqn:Hss; [|discriminate Hp..].
    exists r'. by rewrite (slices_of_prepared _ _ _ _ _ Hss). }
  set (ss := slices_of r) in *.
  destruct (prepareForNetwork_Ok host hdr0 chunk0 H0 v (created id r cb) (set_rq_messageID id r) r' hdr ss)
    as (i' & cs & Hi' & Hm & Hd' & _); [done..|].
  assert (concat (wire_pieces (hdr :: ss)) = hdr ++ concat ss) as Hconcat.
  { apply (concat_message_pieces _ (hdr :: ss)). unfold maxChunkHeaderSize, defaultMaxChunkSize. lia. }
  rewrite Hi in Hi'. injection Hi' as <-. rewrite <- Hd in Hd'. injection Hd' as ->.
  split. exists (wire_pieces (hdr :: ss)), (zip cs (wire_pieces (hdr :: ss))), (Z.of_nat (length hdr)).
  pose proof (im_length _ _ _ _ Hm) as Hlen.
  assert (length (wire_pieces (hdr :: ss)) <= length (hdr ++ concat ss))%nat as Hpieces.
  { rewrite <- Hconcat. apply length_pieces, Forall_forall. intros q Hq. by eapply wire_pieces_size. }
  destruct (message_chunks_in_wire id _ (hdr :: ss) cs H0 Hm) as [Hw Hids]; [done..|cbn [concat]; lia|].
  split_and!; [|done| |done| |].
  - unfold wire. by rewrite fst_zip, snd_zip by lia.
  - eapply message_chunks_arrive; [exact Hm| |lia]. apply (wire_pieces_nonempty hdr0 H0). cbn.
    pose proof (slice_nonempty hdr Hs). by destruct hdr.
  - by rewrite Hconcat.
  - rewrite Hconcat, Nat2Z.id, drop_app_length. done.
Qed.

Lemma message_is_sent id r cb d :
  length hdr0 = 24%nat -> 0 <= id < 2 ^ 64 -> deliverable r ->
  message_of host hdr0 chunk0 conf r cb (id, Ok d) ->
  exists m : read_message, sent_message chunk0' v m.1.1 m.1.2 m.2 d /\ understood (id, r) m.
Proof.
  intros H0 Hid [Ht (verb & Hverb & Hvr) [p Hp] Hwf Hsize] Hm.
  assert (exists db, default "_system" (database (rq_header r)) = db
    /\ default_header (rq_header r) = set_database (Some db) (set_version (Some 1) (rq_header r))) as (db & Hdb & Hdef).
  { eexists. split; [done|]. unfold default_header. cbn. destruct (rq_header r) as []; cbn. by case_match. }
  destruct (request_header_codec (default_header (rq_header r)) 1 db p verb (concat (slices_of r)))
    as (hdr & h & Hhdr & Hs & Hx & Hhv & Hht & Hhd & Hhr & Hhp & Hhps & Hhm); try (by rewrite Hdef; cbn; rewrite ?Hdb; assumption || lia || reflexivity).
  { lia. } { done. }
  rewrite Hdef in Hhps, Hhm. cbn in Hhps, Hhm.
  exists (id, h, concat (slices_of r)). split; [|split; cbn; congruence].
  eapply message_on_wire; [done|done|exact Hhdr|exact Hs|exact Hx|by apply Hsize|exact Hm].
Qed.

(** The message [m] authenticates with the id [id].  The reader of this library takes the
    user for the password (see [authentication_header_shifted]). *)
Record authenticates (id : Z) (m : read_message) : Prop := {
  au_id : m.1.1 = id;
  au_payload : m.2 = [];
  au_version : version m.1.2 = Some 1;
  au_type : type m.1.2 = Some MT_Authentication;
  au_user : user m.1.2 = Some "plain";
  au_password : password m.1.2 = Some (_user conf);
}.
(** The authentication request fits into a message. *)
Definition authentication_fits : Prop :=
  forall hdr, createVstMessageHeader (default_header (rq_header (authentication_request conf))) = Ok hdr ->
    Z.of_nat (length hdr) < 2 ^ 31.
Lemma authentication_is_sent id cb d :
  length hdr0 = 24%nat -> 0 <= id < 2 ^ 64 -> authentication_fits ->
  message_of host hdr0 chunk0 conf (authentication_request conf) cb (id, Ok d) ->
  exists m : read_message, sent_message chunk0' v m.1.1 m.1.2 m.2 d /\ authenticates id m.
Proof.
  intros H0 Hid Hfits Hm.
  destruct (authentication_header_codec (default_header (rq_header (authentication_request conf))) 1 (_user conf) (_password conf) [])
    as (hdr & h & Hhdr & Hs & _ & Hx & Hv & Ht & Hu & Hp & _); [done|lia|done..|].
  exists (id, h, []). split; [|by split].
  apply (message_on_wire id (authentication_request conf) cb d hdr h); try done.
  cbn. rewrite app_nil_r. by apply Hfits.
Qed.

(** What a connection writes for its requests, message after message, is understood by
    a server that receives the way this library does: reading the data chunk by chunk it
    finds one message per request, in order, with the id the request was given, and nothing
    is left over.  The message is a request of version 1 with the database of the request
    ("_system" by default), its verb, path, parameters and metadata, and its payload is
    that of the request, slice by slice - however it was cut into chunks, whichever of the two
    versions of the protocol the sides have agreed on, and whatever their byte orders. *)
Theorem stream_understood (qs : list (Z * Request)) (ds : list (list byte)) :
  length hdr0 = 24%nat ->
  Forall2 (fun q d => 0 <= q.1 < 2 ^ 64 /\ deliverable q.2
    /\ exists cb, message_of host hdr0 chunk0 conf q.2 cb (q.1, Ok d)) qs ds ->
  exists ms, read_messages host' chunk0' v (length (concat ds)) new_RequestItem (concat ds) = Ok (ms, [])
    /\ Forall2 understood qs ms.
Proof.
  intros H0 Hall. enough (exists ms, Forall2 (fun m d => sent_message chunk0' v m.1.1 m.1.2 m.2 d) ms ds
    /\ Forall2 understood qs ms) as (ms & Hms & Hu).
  { exists ms. split; [|done]. by eapply read_messages_stream. }
  induction Hall as [|[id r] d qs ds (Hid & Hr & cb & Hm) _ (ms & Hms & Hu)]; [by exists []|].
  destruct (message_is_sent id r cb d) as (m & Hs & Hh); [done..|].
  exists (m :: ms). split; by constructor.
Qed.
End Peer.

(** Two requests from a big-endian machine to a little-endian one. *)
Definition ex_query (verb : RestVerb) (p : string) : Request :=
  MkRequest (MkHeader None (Some MT_Request) None None (Some verb) (Some p) None None None None None None None)
    0 (enc_int 5 ++ []) false true (Some true) true [] (Z.of_nat (length (enc_int 5))) 0.

Lemma ex_query_slices verb p : slices_of (ex_query verb p) = [enc_int 5].
Proof. reflexivity. Qed.
Lemma ex_query_deliverable verb p :
  verb_in_range verb -> Z.of_nat (length (match createVstMessageHeader (default_header (rq_header (ex_query verb p)))
    with Ok hdr => hdr ++ enc_int 5 | _ => [] end)) < 2 ^ 31 -> deliverable (ex_query verb p).
Proof.
  intros Hv Hs. split; [done|by exists verb|by exists p|by split|].
  intros hdr Hh. rewrite Hh in Hs. by rewrite ex_query_slices.
Qed.

Definition ex_message (id : Z) (r : Request) : res (list byte) :=
  i ← prepareForNetwork BigEndianHost (le_bytes 24 0) ex_chunk (_vstVersion ex_conf) (created id r AuthCallback);
  send_bytes i.
Definition ex_queries : list (Z * Request) := [(1, ex_query Get "/_api/version"); (2, ex_query Post "/_api/cursor")].
Definition ex_stream : list (list byte) :=
  Eval vm_compute in omap (fun q => match ex_message q.1 q.2 with Ok d => Some d | _ => None end) ex_queries.

Lemma stream_understood_example :
  exists m1 m2, read_messages LittleEndianHost ex_chunk VST1_1 (length (concat ex_stream)) new_RequestItem (concat ex_stream)
      = Ok ([m1; m2], [])
    /\ m1.1.1 = 1 /\ path m1.1.2 = Some "/_api/version" /\ m1.2 = enc_int 5
    /\ m2.1.1 = 2 /\ path m2.1.2 = Some "/_api/cursor" /\ restVerb m2.1.2 = Some Post.
Proof.
  destruct (stream_understood BigEndianHost (le_bytes 24 0) ex_chunk ex_conf LittleEndianHost ex_chunk ex_queries ex_stream)
    as (ms & Hms & Hu); [reflexivity| |].
  - constructor; [|constructor; [|constructor]];
      (split; [cbn; lia|split; [apply ex_query_deliverable; [done|vm_compute; reflexivity]|]];
       exists AuthCallback; eexists; split; vm_compute; reflexivity).
  - apply Forall2_cons_inv_l in Hu as (m1 & ms' & [] & Hu & ->). apply Forall2_cons_inv_l in Hu as (m2 & ms'' & [] & Hu & ->).
    apply Forall2_nil_inv_l in Hu as ->.
    exists m1, m2. split; [exact Hms|]. split_and!; assumption.
Defined.
