(* ===== verification/VstServer.v ===== *)
(** * From the requests of the users to a server

    What the network has carried over the first socket of a connection, read by the
    receiving code: the requests that reach a server are the first of those that were
    handed over, complete and in order ([requests_reach_server]). *)
From S2P Require Import Prelude StdMap Types Endian Chunk VPack ToyVPack Message HeaderCodec RequestItem MessageStore VstConnection VstInvariant VstProperties VstAuthentication VstContract VstStage VstWriting VstDelivery VstNetwork VstPeer.
Local Open Scope Z_scope.

Section Server.
Context {VP : VPack} `{!VPackLaws VP} {VB : VBuffer} `{!VBufferLaws VB} `{StdSort ChunkHeader} `{!StdSortLaws ChunkHeader}.
Context (host : byte_order) (hdr0 : list byte) (chunk0 : ChunkHeader) (conf : ConnectionConfiguration).
Context (host' : byte_order) (chunk0' : ChunkHeader).
Local Abbreviation v := (_vstVersion conf).

(** ** The writes of one socket *)
Definition on_socket (k : nat) (w : stream * list byte) : option (list byte) :=
  match w.1 with TcpStream j => if Nat.eqb j k then Some w.2 else None | SslStream _ => None end.
(** The items written to a socket. *)
Definition items_on (k : nat) (tags : list (option nat)) (ws : list (stream * list byte)) : list nat :=
  omap (fun tw => _ ← on_socket k tw.2; tw.1) (zip tags ws).

Lemma writes_on k s : writes k s = omap (on_socket k) (all_writes s).
Proof.
  unfold writes, all_writes. induction (trace s) as [|e t IH]; [done|]. cbn.
  destruct e as [| |[j|j] data]; cbn; rewrite <- ?IH; try done.
Qed.

Lemma elem_of_items_on k tags ws p :
  p ∈ items_on k tags ws <-> exists i w, tags !! i = Some (Some p) /\ ws !! i = Some w /\ is_Some (on_socket k w).
Proof.
  unfold items_on. rewrite list_elem_of_omap. split.
  - intros ([t w] & (i & (? & ? & [= <- <-] & Ht & Hw)%lookup_zip_with_Some)%list_elem_of_lookup & Ho). cbn in Ho.
    destruct (on_socket k w) eqn:E; [|done]. cbn in Ho. subst t. exists i, w. by rewrite E.
  - intros (i & w & Ht & Hw & [d Hd]). exists (Some p, w). cbn. rewrite Hd. split; [|done].
    apply (list_elem_of_lookup_2 _ i). apply lookup_zip_with_Some. by exists (Some p), w.
Qed.

Lemma items_on_sublist k tags ws : items_on k tags ws `sublist_of` omap id tags.
Proof.
  revert ws. induction tags as [|t tags IH]; intros [|w ws]; cbn; try apply sublist_nil_l.
  destruct (on_socket k w), t; cbn; try apply IH; constructor; apply IH.
Qed.

Lemma ascending_sorted log ps :
  ascending log ps <->
  StronglySorted (fun p q => log !! p <> Some None -> log !! q <> Some None -> (p < q)%nat) ps.
Proof.
  split.
  - induction ps as [|p ps IH]; intros Ha; constructor.
    + apply IH. intros i j q r Hi Hj Hij. apply (Ha (S i) (S j)); [done|done|lia].
    + apply Forall_lookup. intros i q Hi. apply (Ha 0%nat (S i)); [done|done|lia].
  - induction 1 as [|x l _ IH Hx]; intros i j p q Hi Hj Hij; [done|].
    destruct i as [|i], j as [|j]; [lia| |lia|apply (IH i j); [done|done|lia]]. injection Hi as ->.
    rewrite Forall_lookup in Hx. exact (Hx j q Hj).
Qed.
Lemma ascending_sublist log l l' : l `sublist_of` l' -> ascending log l' -> ascending log l.
Proof.
  rewrite !ascending_sorted. induction 1 as [|x l l' Hs IH|x l l' Hs IH]; intros Hl; [done|..];
    apply StronglySorted_inv in Hl as [Hl Hx]; [|by apply IH].
  constructor; [by apply IH|]. rewrite Forall_forall in Hx |- *. intros y Hy. by eapply Hx, elem_of_sublist.
Qed.

(** ** What a server finds in them *)

(** The message [m] is what the item [p] says: a request of the user, or the authentication. *)
Definition arrived (log : list (option Request)) (s : VstConnection) (p : nat) (m : read_message) : Prop :=
  exists o i, log !! p = Some o /\ items s !! p = Some i
    /\ match o with
       | Some r => understood (ri_messageID i, r) m
       | None => authenticates conf (ri_messageID i) m
       end.
(** A request that has been accepted fits into a message. *)
Definition accepted_fits (o : option Request) : Prop :=
  match o with Some r => deliverable r | None => authentication_fits conf end.

(** Whatever is sent begins with the header of a chunk. *)
Lemma prepared_long (i i' : RequestItem callback) d :
  length hdr0 = 24%nat -> _requestBuffers i = [] -> prepareForNetwork host hdr0 chunk0 v i = Ok i' ->
  send_bytes i' = Ok d -> (16 <= length d)%nat.
Proof.
  intros H0 Hb (r & _ & (h & _ & ([r' ss] & _ & (hs & _ & (chunks & Hc & Hi)%bind_Ok)%bind_Ok)%bind_Ok)%bind_Ok)%bind_Ok Hd.
  destruct chunks as [|c chunks]; [unfold buildChunks in Hc; inv_ok; by repeat case_match; simplify_eq/=|].
  rewrite Hb in Hi. cbn [prepare_loop] in Hi. rewrite writeHeader_spec in Hi by done.
  match type of Hi with context [prepare_loop _ _ _ chunks ?b ?bufs] =>
    destruct (prepare_loop_buffers host hdr0 v chunks b bufs) as (more & Hm & _) end.
  destruct (prepare_loop _ _ _ _ _ _) as [b bufs]. cbn in Hm. subst bufs. injection Hi as <-.
  unfold send_bytes, gather in Hd. cbn [_requestChunkBuffer _requestBuffers app res_map] in Hd.
  apply bind_Ok in Hd as (parts & (d1 & Hd1 & (ds & _ & [= <-])%bind_Ok)%bind_Ok & [= <-]).
  pose proof (header_length_range v c) as Hr. unfold out_bytes in Hd1. case_match; [done|].
  destruct (_ <=? _)%nat eqn:Hle; [|done]. injection Hd1 as <-. apply Nat.leb_le in Hle.
  cbn [concat]. rewrite length_app. unfold sub_bytes. rewrite length_take, length_drop. lia.
Qed.
Lemma length_protocol_header : length (header_bytes conf) = 11%nat.
Proof. unfold header_bytes, vstHeader. by destruct v. Qed.
Lemma message_long r cb m d : length hdr0 = 24%nat -> message_of host hdr0 chunk0 conf r cb m -> sent m d -> d <> header_bytes conf.
Proof.
  intros H0 (i & Hi & ->) Hd ->. pose proof (prepared_long (created (ri_messageID i) r cb) i _ H0 eq_refl Hi Hd) as H16.
  rewrite length_protocol_header in H16. lia.
Qed.

Context (log : list (option Request)) (s : VstConnection).
Lemma tag_of_item tags ws p :
  Forall2 (tagged host hdr0 chunk0 conf log s) tags ws -> p ∈ omap id tags ->
  exists i w k d, tags !! i = Some (Some p) /\ ws !! i = Some w /\ on_socket k w = Some d.
Proof.
  intros Hw ([q|] & (i & Hi)%list_elem_of_lookup & [= ->])%list_elem_of_omap.
  destruct (Forall2_lookup_l _ _ _ _ _ Hw Hi) as (w & Hwi & (k & Hk) & _).
  exists i, w, k, w.2. split_and!; [done..|]. unfold on_socket. by rewrite Hk, Nat.eqb_refl.
Qed.

(** The items of the first socket. *)
Lemma first_items tags :
  Delivers host hdr0 chunk0 conf log tags [] s -> contained s ->
  let ps := items_on 0 tags (all_writes s) in
  NoDup ps /\ ascending log ps /\ (forall p, p ∈ ps -> (p < length log)%nat /\ p ∉ sendQueue s)
  /\ (sockets s = 1%nat -> forall p, (p < length log)%nat -> p ∈ ps \/ p ∈ sendQueue s).
Proof.
  intros [] [] ps. cbn in de_once, de_order. pose proof (items_on_sublist 0 tags (all_writes s)) as Hsub. fold ps in Hsub.
  assert (NoDup (omap id tags ++ sendQueue s)) as (Hnd & Hdisj & _)%NoDup_app by (rewrite de_once; apply NoDup_seq).
  split_and!.
  - by eapply sublist_NoDup.
  - eapply ascending_sublist; [|exact de_order]. etrans; [exact Hsub|by apply sublist_inserts_r].
  - intros p Hp. assert (p ∈ omap id tags) as Hin by by eapply elem_of_sublist.
    split; [|by apply Hdisj]. rewrite de_log. apply (seq_below (omap id tags ++ sendQueue s)); [done|].
    apply elem_of_app. by left.
  - intros H1 p Hp. assert (p ∈ omap id tags ++ sendQueue s) as [Hin|Hin]%elem_of_app; [|left|by right].
    { rewrite de_once, elem_of_seq, <- de_log. lia. }
    destruct (tag_of_item tags (all_writes s) p de_writes Hin) as (i & w & k & d & Hi & Hw & Hd).
    apply elem_of_items_on. exists i, w. split_and!; [done..|]. rewrite Forall_lookup in co_writes.
    destruct (co_writes i w Hw) as (k' & Hk' & Hlt). unfold on_socket. rewrite Hk'. replace k' with 0%nat by lia. done.
Qed.

(** The first stream: the protocol header, and then messages only. *)
Lemma stream_messages ws L :
  length hdr0 = 24%nat -> shape host hdr0 chunk0 conf ws L ->
  ws = [] \/ exists ds, ws = header_bytes conf :: ds /\ filter (fun d => d <> header_bytes conf) ws = ds.
Proof.
  intros H0 [->|(ms & Q & ds & -> & -> & Hs & Ho)]; [by left|right]. exists ds. split; [done|].
  rewrite filter_cons_False by auto. apply filter_all.
  assert (forall m, m ∈ ms -> exists r cb, message_of host hdr0 chunk0 conf r cb m) as Hms.
  { intros m Hm. destruct Ho as [->|(auth & users & Heq & Ha & Hu & _)]; [by apply not_elem_of_nil in Hm|].
    assert (m ∈ auth ++ users) as [Hin|Hin]%elem_of_app by (rewrite <- Heq; apply elem_of_app; by left).
    - unfold authentication in Ha. destruct (_authenticationType conf); [by subst; apply not_elem_of_nil in Hin| |by subst; apply not_elem_of_nil in Hin].
      destruct Ha as (m' & -> & Hm'). apply list_elem_of_singleton in Hin as ->. by eexists _, _.
    - rewrite Forall_forall in Hu. destruct (Hu m Hin) as (r & cb & ?). by eexists _, _. }
  intros d Hd. apply list_elem_of_lookup in Hd as [k Hk].
  destruct (Forall2_lookup_r _ _ _ _ _ Hs Hk) as (m & Hmk & Hsent).
  destruct (Hms m) as (r & cb & Hm); [by eapply list_elem_of_lookup_2|]. by eapply message_long.
Qed.

(** Reading what has been transmitted. *)
Lemma server_reads ws ms wire :
  ws = [] \/ (exists ds, ws = header_bytes conf :: ds /\ filter (fun d => d <> header_bytes conf) ws = ds) ->
  Forall2 (fun x d => sent_message chunk0' v x.1.1 x.1.2 x.2 d) ms (filter (fun d => d <> header_bytes conf) ws) ->
  wire `prefix_of` concat ws -> let ds := tail ws in
  length ms = length ds /\
  ((length wire < length (header_bytes conf))%nat /\ wire `prefix_of` header_bytes conf
   \/ exists data k left_over, wire = header_bytes conf ++ data
     /\ read_messages host' chunk0' v (length data) new_RequestItem data = Ok (take k ms, left_over)
     /\ concat (take k ds) `prefix_of` data
     /\ ((k < length ds)%nat -> ~ concat (take (S k) ds) `prefix_of` data)
     /\ (wire = concat ws -> k = length ms /\ left_over = [])).
Proof.
  intros Hws Hms [suf Hsuf] ds. destruct Hws as [->|(ds' & -> & Hf)].
  { apply Forall2_length in Hms. cbn in Hms. split; [done|]. left. apply symmetry, app_nil in Hsuf as [-> _].
    rewrite length_protocol_header. split; [cbn; lia|by apply prefix_nil]. }
  rewrite Hf in Hms. cbn in ds. subst ds. split; [by eapply Forall2_length|].
  cbn [concat] in Hsuf. apply app_split in Hsuf as [(x & w' & Hh & _)|(data & -> & Hdata)].
  { left. rewrite Hh, length_app. split; [cbn; lia|by apply prefix_app_r]. }
  right. destruct (read_messages_prefix host' chunk0' v ms ds' Hms data suf (length data) Hdata ltac:(done))
    as (k & left_over & Hread & Hk & Hpre & Hnot & Hall).
  exists data, k, left_over. split_and!; try done. cbn [concat]. intros Heq%app_inv_head. apply Hall.
  apply (app_inv_head data). rewrite app_nil_r. congruence.
Qed.

Hypothesis Hhdr0 : length hdr0 = 24%nat.
Hypothesis Hlog : Forall accepted_fits log.
Hypothesis Hids : forall p i, items s !! p = Some i -> ri_messageID i < 2 ^ 64.

Lemma accepted_is_sent p m d :
  accepted_as host hdr0 chunk0 conf log s p m -> sent m d ->
  d <> header_bytes conf /\
  exists x : read_message, sent_message chunk0' v x.1.1 x.1.2 x.2 d /\ arrived log s p x.
Proof.
  intros (i & o & Hi & Hid & Hpos & Ho & Hm) Hd. split.
  { destruct o as [r|]; [destruct Hm as [cb Hm]|]; by eapply message_long. }
  destruct m as [id data]. cbn in *. unfold sent in Hd. cbn in Hd. subst data id.
  rewrite Forall_lookup in Hlog. specialize (Hlog p o Ho). pose proof (Hids p i Hi).
  destruct o as [r|]; cbn in Hlog.
  - destruct Hm as [cb Hm].
    destruct (message_is_sent host hdr0 chunk0 conf chunk0' (ri_messageID i) r _ d Hhdr0 ltac:(lia) Hlog Hm) as (x & Hs & Hu).
    exists x. split; [exact Hs|by exists (Some r), i].
  - destruct (authentication_is_sent host hdr0 chunk0 conf chunk0' (ri_messageID i) _ d Hhdr0 ltac:(lia) Hlog Hm) as (x & Hs & Hu).
    exists x. split; [exact Hs|by exists None, i].
Qed.

(** The writes of one socket, item by item. *)
Lemma socket_messages k tags ws :
  Forall2 (tagged host hdr0 chunk0 conf log s) tags ws ->
  exists ms : list read_message,
    Forall2 (fun x d => sent_message chunk0' v x.1.1 x.1.2 x.2 d) ms
      (filter (fun d => d <> header_bytes conf) (omap (on_socket k) ws))
    /\ Forall2 (arrived log s) (items_on k tags ws) ms.
Proof.
  induction 1 as [|t w tags ws Hw _ (ms & Hms & Hps)]; [by exists []|].
  unfold items_on. cbn. destruct (on_socket k w) as [d|] eqn:Ho; cbn; [|by exists ms].
  assert (w.2 = d) as <- by by unfold on_socket in Ho; repeat case_match; simplify_eq.
  destruct t as [p|]; cbn in Hw |- *.
  - destruct Hw as (_ & m & Hm & Hd). destruct (accepted_is_sent p m _ Hm Hd) as (Hne & x & Hx & Hp).
    exists (x :: ms). rewrite decide_True by done. split; by constructor.
  - rewrite decide_False by (intros Hne; by rewrite Hw in Hne). by exists ms.
Qed.
End Server.

(** C5: from end to end over the first socket of a connection, with a network that carries the
    data handed to it byte by byte and may lose what is left of them when a write fails.
    Let all accepted requests have a type, a verb of the protocol and a path, and let them and the
    authentication fit into a message.  In every run - with failed reads and writes,
    expired deadlines, restarts, exceptions - there are items [ps], each accepted once and
    no longer in the queue, in the order of acceptance (an authentication apart), one for
    each message handed over to the first socket, and all accepted ones that are not in
    the queue as long as the connection has not been made again.  What has been transmitted
    is a part of the protocol header, or the header followed by data in which a server that
    receives the way this library does finds the first messages of the items: exactly those that
    have been transmitted completely, one each, with the id, verb, path, database,
    parameters, metadata and payload of the request.  While the socket is in use nothing is lost; and
    when all that was handed over has been transmitted, all messages are found, with
    nothing left over.  (Later sockets: see [written_once].) *)
Theorem requests_reach_server {VP : VPack} `{!VPackLaws VP} {VB : VBuffer} `{!VBufferLaws VB}
    `{StdSort ChunkHeader} `{!StdSortLaws ChunkHeader} (host host' : byte_order) (hdr0 : list byte)
    (chunk0 chunk0' : ChunkHeader) (conf : ConnectionConfiguration) (log : list (option Request)) (n : nat)
    (s : VstConnection) (wire rest : list byte) :
  carried host hdr0 chunk0 conf log n s wire rest -> Z.of_nat n < 2 ^ 64 -> length hdr0 = 24%nat ->
  Forall (accepted_fits conf) log ->
  exists ps : list nat, let ds := tail (writes 0 s) in
    (NoDup ps /\ ascending log ps /\ length ps = length ds
     /\ (forall p, p ∈ ps -> (p < length log)%nat /\ p ∉ sendQueue s)
     /\ (sockets s = 1%nat -> forall p, (p < length log)%nat -> p ∈ ps \/ p ∈ sendQueue s))
    /\ (socket s = Some 0%nat -> wire ++ rest = concat (writes 0 s))
    /\ ((length wire < length (header_bytes conf))%nat /\ wire `prefix_of` header_bytes conf
        \/ exists data k ms left_over, wire = header_bytes conf ++ data
           /\ read_messages host' chunk0' (_vstVersion conf) (length data) new_RequestItem data = Ok (ms, left_over)
           /\ Forall2 (arrived conf log s) (take k ps) ms
           /\ concat (take k ds) `prefix_of` data
           /\ ((k < length ds)%nat -> ~ concat (take (S k) ds) `prefix_of` data)
           /\ (wire = concat (writes 0 s) -> k = length ps /\ left_over = [])).
Proof.
  intros Hc Hn H0 Hlog. pose proof (carried_runs _ _ _ _ _ _ _ _ _ Hc) as Hr.
  destruct (runs_delivered _ _ _ _ _ _ _ Hr Hn) as (tags & HD).
  destruct (runs_reaches _ _ _ _ _ _ _ Hr) as [b Hb]. pose proof (reaches_Inv _ _ _ _ _ _ _ Hb Hn) as [].
  destruct (good_shape _ _ _ _ _ (reaches_good _ _ _ _ _ _ _ Hb Hn)) as (c & L & Hshape & _).
  assert (forall p i, items s !! p = Some i -> ri_messageID i < 2 ^ 64) as Hids
    by (intros p i Hi; specialize (wi_bound p i Hi); lia).
  destruct (first_items host hdr0 chunk0 conf log s tags HD (reaches_contained _ _ _ _ _ _ _ Hb)) as (Hnd & Ha & Hps & Hall).
  destruct (socket_messages host hdr0 chunk0 conf chunk0' log s H0 Hlog Hids 0 tags (all_writes s) (de_writes _ _ _ _ _ _ _ _ HD))
    as (ms & Hms & Harr). rewrite <- writes_on in Hms. pose proof (Forall2_length _ _ _ Harr) as Hlen.
  destruct (server_reads conf host' chunk0' (writes 0 s) ms wire) as (Hl & Hread);
    [by eapply stream_messages|done|by eapply carried_prefix|].
  exists (items_on 0 tags (all_writes s)). split; [split_and!; [done|done|exact (eq_trans Hlen Hl)|done|done]|split].
  - intros Hs. destruct (carried_sound _ _ _ _ _ _ _ _ _ Hc Hn) as [|((c' & L' & []) & _)]; done.
  - destruct Hread as [?|(data & k & left_over & Hw & Hread & Hpre & Hnot & Hwhole)]; [by left|right].
    exists data, k, (take k ms), left_over. split_and!; try done; [by apply Forall2_take|by rewrite Hlen].
Qed.

(** The authentication and a request, from a big-endian machine to a little-endian one: the
    write of the request fails when 20 bytes of it have been transmitted. *)
Definition ex_partial : list network_step :=
  map Act (ASend (ex_query Get "/_api/version") 5 :: firstn 2 ex_connect)
  ++ [Transmit 11; Act (AHandler 0 ex_ok); Transmit 94; Act (AHandler 3 ex_ok); Transmit 20; Act (AHandler 4 ex_reset)].
Definition ex_served : list (option Request) * VstConnection * list byte * list byte :=
  Eval vm_compute in default ([], ex_start, [], [])
    (run_network BigEndianHost (le_bytes 24 0) ex_chunk ex_basic ex_partial [] ex_start [] []).
Lemma requests_reach_server_witness :
  let '(log, s, wire, rest) := ex_served in
  log = [Some (ex_query Get "/_api/version"); None] /\ length wire = 125%nat
  /\ exists ps data k ms left_over, wire = header_bytes ex_basic ++ data /\ length ps = 2%nat
     /\ read_messages LittleEndianHost ex_chunk VST1_1 (length data) new_RequestItem data = Ok (ms, left_over)
     /\ Forall2 (arrived ex_basic log s) (take k ps) ms.
Proof.
  destruct (run_network_carried BigEndianHost (le_bytes 24 0) ex_chunk ex_basic ex_partial [] 0 ex_start [] []
    ex_served.1.1.1 ex_served.1.1.2 ex_served.1.2 ex_served.2) as (m & Hm & Hc);
    [by apply carried_initial|vm_compute; reflexivity|].
  destruct (requests_reach_server BigEndianHost LittleEndianHost (le_bytes 24 0) ex_chunk ex_chunk ex_basic
    ex_served.1.1.1 (m + 0) ex_served.1.1.2 ex_served.1.2 ex_served.2) as (ps & (_ & _ & Hl & _) & _ & Hread).
  - exact Hc.
  - cbn in Hm. lia.
  - reflexivity.
  - constructor; [|constructor; [|constructor]].
    + apply ex_query_deliverable; [done|vm_compute; reflexivity].
    + intros hdr Hh. vm_compute in Hh. injection Hh as <-. vm_compute. reflexivity.
  - split; [reflexivity|]. split; [reflexivity|].
    destruct Hread as [[Hlt _]|(data & k & ms & left_over & Hw & Hr & Ha & _)].
    + apply Nat.ltb_lt in Hlt. vm_compute in Hlt. discriminate Hlt.
    + exists ps, data, k, ms, left_over. split; [exact Hw|]. split; [exact Hl|]. split; [exact Hr|exact Ha].
Defined.
