(* ===== verification/HttpContract.v ===== *)
(** * The HTTP connection implements the contract

    A forward simulation of [HttpConnection] (HttpConnection.v), over any driver
    of transfers that keeps its contract (TransferEngine.v), by the abstract
    machine of Contract.v.

    - [http_refines_contract]: what an HTTP connection does is what the contract
      allows, also when users' callbacks throw. *)
From S2P Require Import Prelude StdMap StdString Types VPack ToyVPack Message RequestItem MessageStore Url HttpUrl Curl TransferEngine ToyCurl CurlMultiAsio HttpConnection HttpProperties HttpRequest Contract.
Local Open Scope Z_scope.

Section HttpContract.
Context {VP : VPack} {E : Type} `{TransferEngineLaws E}.
Context (conf : ConnectionConfiguration).
Context (user_code : cb_event nat -> res unit).
Context (user_ok : forall call w, user_code call <> Undef w).
Implicit Types (s : HttpConnection E).

(** ** The abstraction *)
Definition http_call (e : http_event) : option (nat * cb_event nat) :=
  match e with EvHttpCallback p call => Some (p, call) | _ => None end.
Definition http_calls s : list (nat * cb_event nat) := omap http_call (hc_trace s).

(** An item that waits, as the abstract machine sees it. *)
Definition item_waits s (p : nat) (r : Request) (cb : nat) : Prop :=
  exists it, hc_items s !! p = Some it /\ hi_request it = Some r /\ hi_callback it = MkCallOnce false (Some cb).

Record http_view s (σ : gmap nat (status nat)) : Prop := {
  hr_stored : forall id p, (id, p) ∈ hc_store s ->
    exists r cb, item_waits s p r cb /\ σ !! p = Some (Waiting r cb);
  hr_fresh : forall p, (hc_next s <= p)%nat -> σ !! p = None;
}.
Definition http_rel s σ : Prop := (exists acc, http_good acc s) /\ http_view s σ.

(** Steps the abstract machine does not see: items keep their requests and callbacks. *)
Definition quiet s s' : Prop :=
  hc_store s' = hc_store s /\ hc_next s' = hc_next s /\ hc_trace s' = hc_trace s
  /\ forall p r cb, item_waits s p r cb -> item_waits s' p r cb.

Lemma quiet_refl s : quiet s s.
Proof. by split_and!. Qed.

Lemma http_rel_quiet s s' σ acc :
  quiet s s' -> http_good acc s' -> http_rel s σ ->
  exists L σ', spec_run σ L σ' /\ http_rel s' σ' /\ http_calls s' = http_calls s ++ answers L /\ accepts L = [].
Proof.
  intros (Hst & Hn & Htr & Hi) Hg [_ [Hs Hf]]. exists [], σ. split_and!; [constructor| | |done].
  - split; [by exists acc|]. split; [|by rewrite Hn]. intros id p Hin. rewrite Hst in Hin.
    destruct (Hs id p Hin) as (r & cb & Hw & Hσ). exists r, cb. split; [by apply Hi|done].
  - unfold http_calls. by rewrite Htr, app_nil_r.
Qed.

(** An item changes otherwise. *)
Lemma quiet_item s p it it' :
  hc_items s !! p = Some it -> hi_request it' = hi_request it -> hi_callback it' = hi_callback it ->
  quiet s (set_hc_items (<[p := it']> (hc_items s)) s).
Proof.
  intros Hp Hr Hc. split_and!; [done..|]. intros q r cb (i & Hq & Hir & Hic).
  destruct (decide (q = p)) as [->|Hne].
  - exists it'. cbn. rewrite lookup_insert_eq. split; [done|]. simplify_eq. by rewrite Hr, Hc.
  - exists i. cbn. by rewrite lookup_insert_ne.
Qed.

Lemma triple_on_item h (f : nat -> stm (HttpConnection E) Z) s :
  (forall p, triple (eq s) (f p) (fun _ => quiet s) (quiet s)) ->
  triple (eq s) (on_item h f) (fun _ => quiet s) (quiet s).
Proof.
  intros Hf ? <-. unfold on_item, mbind, stm_bind, reads, lift. cbn.
  destruct (hc_easy s !! h) as [p|]; [|done]. specialize (Hf p s eq_refl).
  by destruct (f p s) as [[] ?].
Qed.

Lemma triple_readHeaders line p s : triple (eq s) (readHeaders line p) (fun _ => quiet s) (quiet s).
Proof.
  intros ? <-. unfold readHeaders, get_http_item, put_http_item, mbind, stm_bind, reads, lift. cbn.
  destruct (hc_items s !! p) as [it|] eqn:Hp; [|done].
  destruct (add_header line (hi_responseHeaders it)) as [hs| |]; [|done..]. by apply (quiet_item s p it).
Qed.
Lemma triple_readBody data p s : triple (eq s) (readBody data p) (fun _ => quiet s) (quiet s).
Proof.
  intros ? <-. unfold readBody, get_http_item, put_http_item, mbind, stm_bind, reads, lift. cbn.
  destruct (hc_items s !! p) as [it|] eqn:Hp; [|done]. by apply (quiet_item s p it).
Qed.

(** ** Accepting a request *)

(** A request has entered the store, and nothing else has changed. *)
Definition accepted_item s (r : Request) (cb : nat) s' : Prop :=
  item_waits s' (hc_next s) r cb /\ hc_next s' = S (hc_next s) /\ hc_trace s' = hc_trace s
  /\ (forall q r' cb', q <> hc_next s -> item_waits s q r' cb' -> item_waits s' q r' cb')
  /\ forall id p, (id, p) ∈ hc_store s' -> p = hc_next s \/ exists id', (id', p) ∈ hc_store s.

Lemma triple_create d r cb easy s :
  triple (eq s) (http_createRequestItem conf user_code d r cb easy) (fun _ => accepted_item s r cb) (fun _ => True).
Proof.
  intros ? <-. unfold http_createRequestItem, mbind, stm_bind, reads, lift, modify. cbn.
  destruct easy as [h|]; [|done]. destruct (item_options conf (hc_next s) d r) as [opts| |]; [|done..].
  unfold put_http_item, modify, store_add, engine_add, mbind, stm_bind, reads, lift. cbn.
  rewrite lookup_insert_eq. cbn. destruct (eng_addRequest h (hc_engine s)) as [[[]|?|?] e]; [|done..].
  split_and!; [|done|done| |]; cbn.
  - eexists. cbn. by rewrite lookup_insert_eq.
  - intros q r' cb' Hq (it & Hit & ?). exists it. cbn. by rewrite lookup_insert_ne.
  - intros id p [[= -> ->]|Hin]%map_emplace_elem; [by left|right; by exists id].
Qed.

(** Sending: the request enters the store, or at most a ticket is drawn. *)
Lemma http_send_outcome acc s request cb easy res s' :
  http_good acc s -> http_enabled conf (Send request cb easy) s ->
  http_sendRequest conf user_code request cb easy s = (res, s') -> goes_on res ->
  match res with
  | Ok id => accepted_item s (set_rq_messageID id request) cb s'
  | _ => quiet s s'
  end.
Proof.
  intros [Hi Hh] ((Hpath & Hverb & Hpay & Hlen) & Ht & He). unfold http_sendRequest.
  unfold mbind, stm_bind, lift. destruct (destination conf (rq_header request)) as [d|e|w] eqn:Hd;
    [|by intros [= <- <-]|by intros [= <- <-]].
  unfold queueRequest, mbind, stm_bind, reads, modify. cbn.
  pose proof (inv_ticket _ _ Hi). rewrite u64_id by lia. set (id := ticketId s + 1). set (s1 := set_ticketId id s).
  assert (Hi1 : http_inv (eng_handles (hc_engine s1)) s1) by (apply http_inv_ticket; [unfold id; lia|done]).
  pose proof (triple_create d (set_rq_messageID id request) cb easy s1 s1 eq_refl) as Hc.
  pose proof (wp_http_createRequestItem conf user_code s1 d (set_rq_messageID id request) cb easy Hi1) as Hw.
  unfold wp in Hw. destruct (http_createRequestItem _ _ _ _ _ _ s1) as [[[]|e|w] s2].
  - intros [= <- <-] _. exact Hc.
  - intros [= <- <-] Hgo. destruct Hw as [[st ->]| ->]; try done.
    + cbn. unfold id. lia.
    + intros p Hin. apply (inv_ids _ _ Hi) in Hin. unfold id in Hin. cbn in Hin. lia.
    + by apply Hlen.
  - intros [= <- <-] Hgo. by destruct Hgo.
Qed.

(** An item that has entered the store is a request accepted. *)
Lemma http_rel_accept s s' σ r cb acc :
  http_rel s σ -> accepted_item s r cb s' -> http_good acc s' ->
  exists σ', spec_run σ [Accepts (hc_next s) r cb] σ' /\ http_rel s' σ'.
Proof.
  intros [_ [Hs Hf]] (Hw & Hn & Htr & Ho & Hst) Hg. exists (<[hc_next s := Waiting r cb]> σ). split.
  - apply (run_snoc σ [] σ); [constructor|]. constructor. by apply Hf.
  - split; [by exists acc|split].
    + intros id p Hin. destruct (decide (p = hc_next s)) as [->|Hne].
      * exists r, cb. by rewrite lookup_insert_eq.
      * destruct (Hst id p Hin) as [->|[id' Hin']]; [done|].
        destruct (Hs id' p Hin') as (r' & cb' & Hw' & Hσ). exists r', cb'.
        rewrite lookup_insert_ne by done. split; [by apply Ho|done].
    + intros p Hp. rewrite Hn in Hp. rewrite lookup_insert_ne by lia. apply Hf. lia.
Qed.

(** ** Delivering a result *)
Lemma finish_outcome rc status it (r : Request) (cb : nat) :
  outcome_ok r (MkEvent cb (failure_of rc).1 (Some r) (finish_response rc status it r)).
Proof.
  unfold outcome_ok. destruct rc; cbn [ev_response finish_response failure_of fst ev_error].
  { split; [done|]. unfold http_response, transformResult. by destruct (hi_responseBody it). }
  all: eexists; split_and!; [..|reflexivity]; done.
Qed.

Lemma finish_calls p rc status it (r : Request) cb :
  omap http_call (finish_events p rc status it r cb)
  = [(p, MkEvent cb (failure_of rc).1 (Some r) (finish_response rc status it r))].
Proof. unfold finish_events. rewrite omap_app. by destruct ((failure_of rc).2). Qed.

Lemma http_rel_answer s s' σ acc hs hs' id p rc status it r cb :
  http_view s σ -> http_inv hs s -> (id, p) ∈ hc_store s -> waiting s id p it r cb ->
  delivered hs' id p (finish_events p rc status it r cb) s s' -> http_good acc s' ->
  exists σ' call, spec_run σ [Answers p call] σ' /\ http_rel s' σ'
    /\ http_calls s' = http_calls s ++ [(p, call)].
Proof.
  intros [Hs Hf] Hi Hst (Hit & Hr & Hid & Hcb & _) (_ & Hst' & Hit' & Htr & Hn & _) Hg.
  destruct (Hs id p Hst) as (r' & cb' & (it' & Hit2 & Hr2 & Hcb2) & Hσ).
  assert (it' = it) as -> by congruence. assert (r' = r) as -> by congruence. assert (cb' = cb) as -> by congruence.
  exists (<[p := Answered]> σ), (MkEvent cb (failure_of rc).1 (Some r) (finish_response rc status it r)).
  split_and!.
  - apply (run_snoc σ [] σ); [constructor|].
    apply (spec_answer σ p r); [exact Hσ|done|apply finish_outcome].
  - split; [by exists acc|split].
    + intros id' p' Hin. rewrite Hst' in Hin. pose proof Hin as Hin0%map_erase_elem.
      assert (p' <> p) as Hne.
      { intros ->. apply map_erase_elem_iff in Hin as [Hd _]; [|by apply (inv_store _ _ Hi)].
        apply Hd. by eapply stored_unique. }
      destruct (Hs id' p' Hin0) as (r2 & cb2 & (i & ? & ?) & ?). exists r2, cb2. split.
      * exists i. by rewrite Hit', lookup_delete_ne.
      * by rewrite lookup_insert_ne.
    + intros q Hq. rewrite Hn in Hq. rewrite lookup_insert_ne; [by apply Hf|]. intros <-.
      specialize (Hf p Hq). congruence.
  - unfold http_calls. by rewrite Htr, omap_app, finish_calls.
Qed.

(** ** The implementation of the contract *)
Definition returned_of {A} (r : res A) : bool := match r with Ok _ => true | _ => false end.
Definition http_step s (a : http_action E) (returned : bool) s' : Prop :=
  http_enabled conf a s
  /\ exists r, http_execute conf user_code a s = (r, s') /\ goes_on r /\ returned = returned_of r.
Definition http_initial s : Prop :=
  exists ticket e, 0 <= ticket < 2 ^ 64 /\ eng_ok e /\ eng_handles e = [] /\ s = new_HttpConnection ticket e.

#[export] Instance http_Connection : Connection nat (HttpConnection E) (http_action E) := {
  conn_initial := http_initial;
  conn_step := http_step;
  conn_request a := match a with Send request cb _ => Some (request, cb) | _ => None end;
  conn_internal := fun _ => false;
  conn_calls := http_calls;
}.

Lemma http_initial_law s : http_initial s -> http_rel s ∅ /\ http_calls s = [].
Proof.
  intros (ticket & e & Ht & He & Hhs & ->). split; [|done].
  split; [|by split; cbn; [by intros ?? ?%not_elem_of_nil|]]. exists []. apply (http_reaches_good conf user_code user_ok). by apply reaches_new.
Qed.

Lemma same_content_id r id : same_content r (set_rq_messageID id r).
Proof. done. Qed.

Lemma http_send_law s σ request cb easy r s' acc :
  http_rel s σ -> http_good acc s -> http_enabled conf (Send request cb easy) s ->
  http_sendRequest conf user_code request cb easy s = (r, s') -> goes_on r ->
  exists L σ', spec_run σ L σ' /\ http_rel s' σ' /\ http_calls s' = http_calls s ++ answers L
    /\ accepts L = match r with Ok id => [(hc_next s, set_rq_messageID id request, cb)] | _ => [] end.
Proof.
  intros Hrel Hgood Hen Hex Hgo.
  pose proof (http_send_outcome acc s request cb easy r s' Hgood Hen Hex Hgo) as Ho.
  pose proof (wp_http_sendRequest conf user_code acc s request cb easy Hgood Hen) as Hw.
  unfold wp in Hw. rewrite Hex in Hw. destruct r as [id|e|w]; [|destruct Hw as [[st ->]|Hg]; [done|]|done].
  - destruct (http_rel_accept s s' σ _ cb _ Hrel Ho Hw) as (σ' & Hrun & Hrel').
    eexists _, σ'. split_and!; [exact Hrun|done| |done].
    destruct Ho as (_ & _ & Htr & _). unfold http_calls. by rewrite Htr, app_nil_r.
  - by eapply http_rel_quiet.
Qed.

Lemma http_deliver_law s σ h rc status e r s' acc :
  http_rel s σ -> http_good acc s -> eng_deliver h rc (hc_engine s) e ->
  handleResult user_code h rc status (set_hc_engine e s) = (r, s') -> goes_on r -> http_good acc s' ->
  exists L σ', spec_run σ L σ' /\ http_rel s' σ' /\ http_calls s' = http_calls s ++ answers L /\ accepts L = [].
Proof.
  intros Hrel [Hi Hh] Hd Hex Hgo Hg'.
  destruct (eng_deliver_handles h rc _ _ (inv_engine _ _ Hi) Hd) as [He Hhs].
  assert (Hi' : http_inv (h :: eng_handles e) (set_hc_engine e s))
    by (apply (http_inv_engine (eng_handles (hc_engine s))); [done|by rewrite Hhs|done]).
  assert (is_Some (hc_easy s !! h)) as [p Hp] by (apply (inv_handles _ _ Hi); rewrite Hhs; left).
  destruct (inv_easy _ _ Hi _ _ Hp) as (id & it0 & Hst & _).
  destruct (inv_items _ _ Hi' _ _ Hst) as (it & rq & cb & Hw).
  pose proof (wp_handleResult user_code user_ok _ h id p it rq cb rc status _ Hi' Hp Hst Hw) as Hr.
  cbv zeta in Hr. unfold wp in Hr. rewrite Hex in Hr.
  assert (Hdel : delivered (eng_handles e) id p (finish_events p rc status it rq cb) (set_hc_engine e s) s').
  { destruct r as [[]|x|w]; [done| |done]. destruct Hr as [[st ->]|?]; done. }
  destruct (http_rel_answer (set_hc_engine e s) s' σ acc (h :: eng_handles e) (eng_handles e) id p rc status it rq cb
    (ltac:(destruct Hrel as [_ []]; by split)) Hi' Hst Hw Hdel Hg') as (σ' & call & ? & ? & ?).
  by eexists [Answers p call], σ'.
Qed.

Lemma http_step_law s σ a returned s' :
  http_rel s σ -> http_step s a returned s' ->
  exists L σ', spec_run σ L σ' /\ http_rel s' σ'
    /\ http_calls s' = http_calls s ++ answers L /\ accepts_ok a returned (accepts L).
Proof.
  intros Hrel (Hen & r & Hex & Hgo & ->). pose proof Hrel as [[acc Hgood] _].
  destruct (is_send a) eqn:Ea.
  - destruct a as [request cb easy| | | | |]; try done. cbn [http_execute] in Hex. unfold mbind, stm_bind in Hex.
    destruct (http_sendRequest conf user_code request cb easy s) as [r1 s1] eqn:Hs.
    assert (s1 = s' /\ goes_on r1 /\ returned_of r = returned_of r1) as (-> & Hgo1 & ->)
      by (destruct r1; injection Hex as <- <-; by split_and!).
    destruct (http_send_law s σ request cb easy r1 s' acc Hrel Hgood Hen Hs Hgo1) as (L & σ' & ? & ? & ? & HaccL).
    exists L, σ'. split_and!; [done..|]. rewrite HaccL. unfold accepts_ok. cbn -[same_content].
    destruct r1; cbn -[same_content]; [|done..]. eexists _, _. split; [done|apply same_content_id].
  - assert (http_good acc s') as Hg'.
    { pose proof (wp_http_execute conf user_code user_ok acc s a Hgood Hen Ea) as Hw. unfold wp in Hw. rewrite Hex in Hw.
      destruct r as [|x|]; [done| |done]. by destruct Hw as [[st ->]|?]. }
    enough (exists L σ', spec_run σ L σ' /\ http_rel s' σ' /\ http_calls s' = http_calls s ++ answers L
      /\ accepts L = []) as (L & σ' & ? & ? & ? & HL).
    { exists L, σ'. split_and!; [done..|]. rewrite HL. unfold accepts_ok. destruct a; try done; by intros ??? ?%not_elem_of_nil. }
    destruct a as [|h line|h data|h rc status e|e|]; try done; cbn [http_execute] in Hex.
    + pose proof (triple_on_item h (readHeaders line) s (fun p => triple_readHeaders line p s) s eq_refl) as Hq.
      rewrite Hex in Hq. apply (http_rel_quiet s s' σ acc); [|done..]. by destruct r.
    + pose proof (triple_on_item h (readBody data) s (fun p => triple_readBody data p s) s eq_refl) as Hq.
      rewrite Hex in Hq. apply (http_rel_quiet s s' σ acc); [|done..]. by destruct r.
    + exact (http_deliver_law s σ h rc status e r s' acc Hrel Hgood Hen Hex Hgo Hg').
    + injection Hex as <- <-. by apply (http_rel_quiet s _ σ acc).
    + injection Hex as <- <-. by apply (http_rel_quiet s _ σ acc).
Qed.

#[export] Program Instance http_ConnectionLaws : ConnectionLaws nat (HttpConnection E) (http_action E) := {
  conn_rel := http_rel;
  conn_initial_law := http_initial_law;
  conn_step_law := http_step_law;
}.
Next Obligation. done. Qed.

(** C2: an HTTP connection implements the contract, over any driver of transfers
    that keeps its own.  Whatever users send, libcurl reports and users' callbacks
    throw, what the connection has done is a run of the abstract machine: it has
    accepted exactly the requests of the calls of [sendRequest] that returned, in
    order, and called exactly the callbacks the machine has called, each with an
    outcome of its own request; and every stored item is a request that waits. *)
Theorem http_refines_contract (acts : list (http_action E * bool)) s :
  conn_reaches acts s ->
  exists L σ, spec_run ∅ L σ
    /\ http_calls s = answers L
    /\ Forall2 accepted_as (user_requests acts) (user_accepts L)
    /\ forall id p, (id, p) ∈ hc_store s ->
         exists r cb, item_waits s p r cb /\ σ !! p = Some (Waiting r cb).
Proof.
  intros (L & σ & Hr & [_ [Hs _]] & Hc & Hu)%conn_reaches_run. by exists L, σ.
Qed.
End HttpContract.

(** ** Witnesses *)

(** The run of [ex_http1]: one request sent. *)
Lemma http_refines_contract_witness :
  exists L σ, spec_run ∅ L σ /\ http_calls ex_http1 = answers L
    /\ exists r, item_waits ex_http1 0 r 5%nat /\ σ !! 0%nat = Some (Waiting r 5%nat).
Proof.
  destruct (http_refines_contract ex_http_conf ex_user ex_user_ok
    [(Send ex_http_request 5 (Some 1), true)] ex_http1) as (L & σ & H1 & H2 & _ & H3).
  - apply (conn_reaches_step [] ex_http0 (Send ex_http_request 5 (Some 1)) true).
    + constructor. exists 0, toy_start. split_and!; [lia|lia| | |reflexivity].
      * split; [by apply mem_ok_new|]. split_and!; try apply NoDup_nil_2.
        intros h Hh. by apply not_elem_of_nil in Hh.
      * reflexivity.
    + split.
      * split_and!; [|vm_compute; reflexivity..]. split_and!; [by eexists|by eexists|by eexists|].
        intros d [= <-]. vm_compute. reflexivity.
      * eexists. split; [vm_compute; reflexivity|]. split; [exact I|reflexivity].
  - exists L, σ. split; [exact H1|]. split; [exact H2|].
    destruct (H3 1 0%nat) as (r & cb & Hw & Hσ); [vm_compute; left|].
    exists r. assert (cb = 5%nat) as -> by (destruct Hw as (it & Hi & _ & Hc); vm_compute in Hi; injection Hi as <-; by injection Hc).
    by split.
Defined.
