(* ===== verification/SyncContract.v ===== *)
(** * Synchronous requests over any connection

    The synchronous [Connection::sendRequest] of src/connection.cpp (Sync.v) runs
    here together with a connection that keeps the contract of Contract.v, instead
    of with an arbitrary thread that calls the callback.  A world is the state of
    the connection and the frame of the waiting caller; a call of the callback when
    the frame is gone, or a second call, would be undefined: the world is then
    [Broken].

    - [sync_over_contract]: no world is broken; the caller returns a response to
      its own request or throws an error, and can always go on once the
      connection has called the callback. *)
From S2P Require Import Prelude StdMap Types Endian Chunk VPack ToyVPack Message HeaderCodec RequestItem MessageStore VstConnection VstInvariant VstReceive VstProperties Contract VstContract Sync.
Local Open Scope Z_scope.

(** The calls of one callback in a run of the contract. *)
Section Calls.
Context {CB : Type} `{!EqDecision CB}.
Implicit Types (cb : CB).

Definition accepts_with cb (L : list (label CB)) : list (nat * Request * CB) :=
  filter (fun a => a.2 = cb) (accepts L).
Definition calls_of cb (l : list (nat * cb_event CB)) : list (nat * cb_event CB) :=
  filter (fun c => ev_cb c.2 = cb) l.

Lemma accepts_with_app cb L1 L2 : accepts_with cb (L1 ++ L2) = accepts_with cb L1 ++ accepts_with cb L2.
Proof. unfold accepts_with. by rewrite accepts_app, filter_app. Qed.
Lemma calls_of_app cb l1 l2 : calls_of cb (l1 ++ l2) = calls_of cb l1 ++ calls_of cb l2.
Proof. apply filter_app. Qed.

Lemma calls_of_accepted cb L σ p call :
  spec_run ∅ L σ -> (p, call) ∈ calls_of cb (answers L) ->
  exists r, ((p, r, cb) ∈ accepts_with cb L) /\ ev_request call = Some r /\ outcome_ok r call
    /\ answers_of p (answers L) = [(p, call)].
Proof.
  intros Hr [Hcb Hin]%list_elem_of_filter.
  destruct (run_answer_accepted L σ p call Hr Hin) as (r & Ha & ? & ? & ?). exists r.
  split_and!; [|done..]. apply list_elem_of_filter. cbn in Hcb. by rewrite <- Hcb.
Qed.

Lemma calls_of_none cb L σ :
  spec_run ∅ L σ -> accepts_with cb L = [] -> calls_of cb (answers L) = [].
Proof.
  intros Hr Ha. destruct (calls_of cb (answers L)) as [|[p call] l] eqn:Hl; [done|].
  destruct (calls_of_accepted cb L σ p call Hr) as (r & Hin & _); [rewrite Hl; left|].
  rewrite Ha in Hin. by apply not_elem_of_nil in Hin.
Qed.

(** A callback that was accepted once is called at most once, for its request. *)
Lemma calls_of_one cb L σ p r :
  spec_run ∅ L σ -> accepts_with cb L = [(p, r, cb)] ->
  calls_of cb (answers L) = []
  \/ exists call, calls_of cb (answers L) = [(p, call)] /\ ev_request call = Some r /\ outcome_ok r call.
Proof.
  intros Hr Ha.
  assert (Hall : forall q call, (q, call) ∈ calls_of cb (answers L) -> q = p /\ ev_request call = Some r
    /\ outcome_ok r call /\ answers_of p (answers L) = [(p, call)]).
  { intros q call Hin. destruct (calls_of_accepted cb L σ q call Hr Hin) as (r' & Hin' & ? & ? & ?).
    rewrite Ha in Hin'. by apply list_elem_of_singleton in Hin' as [= -> ->]. }
  destruct (calls_of cb (answers L)) as [|[q call] l] eqn:Hl; [by left|right].
  destruct (Hall q call ltac:(left)) as (-> & ? & ? & Hof). exists call. split; [|done]. f_equal.
  assert (calls_of cb (answers L) = calls_of cb (answers_of p (answers L))) as Hsub.
  { rewrite <- (filter_all (fun a => a.1 = p) (calls_of cb (answers L))) at 1.
    - unfold calls_of, answers_of. rewrite !list_filter_filter. apply list_filter_iff. tauto.
    - intros [q c] Hin. rewrite Hl in Hin. by apply (Hall q c). }
  rewrite Hof, Hl in Hsub. unfold calls_of in Hsub. rewrite filter_cons in Hsub. case_decide; [|done].
  by injection Hsub.
Qed.
End Calls.

(** ** Worlds *)
Section World.
Context {CB S A : Type} `{!EqDecision CB} `{ConnectionLaws CB S A}.
(** [FUERTE_DEVBUILD]; the request, and the lambda that becomes its callback. *)
Context (devbuild : bool) (request0 : Request) (cb0 : CB).
Context (cb0_user : conn_internal cb0 = false).

Inductive world : Type := Running (s : S) (f : frame) | Broken.

(** The callback starts: it needs the frame, and writes to it once. *)
Definition start_callback (call : cb_event CB) (f : frame) : frame :=
  MkFrame (fr_counter f) (fr_rv f) (fr_error f) (fr_caller f)
    (CallbackStarts (ev_error call) (ev_response call)) (Some (ev_error call, ev_response call)).
Definition idle_frame (f : frame) : bool :=
  match fr_callback f, fr_caller f with CallbackIdle, CallerDone _ => false | CallbackIdle, _ => true | _, _ => false end.
Fixpoint run_calls (l : list (nat * cb_event CB)) (f : frame) : option frame :=
  match l with
  | [] => Some f
  | (_, call) :: l =>
      if decide (ev_cb call = cb0)
      then if idle_frame f then run_calls l (start_callback call f) else None
      else run_calls l f
  end.
Definition set_caller (c : caller) (f : frame) : frame :=
  MkFrame (fr_counter f) (fr_rv f) (fr_error f) c (fr_callback f) (fr_given f).
(** The connection has made a step: the callbacks it has called run. *)
Definition after (s s' : S) (f : frame) : world :=
  match run_calls (drop (length (conn_calls s)) (conn_calls s')) f with
  | Some f' => Running s' f'
  | None => Broken
  end.

Inductive world_step : world -> world -> Prop :=
| world_sends s f a s' :
    fr_caller f = CallerSends -> conn_request a = Some (request0, cb0) -> conn_step s a true s' ->
    world_step (Running s f) (after s s' (set_caller CallerAccepted f))
| world_throws s f a e s' :
    fr_caller f = CallerSends -> conn_request a = Some (request0, cb0) -> conn_step s a false s' ->
    world_step (Running s f) (after s s' (set_caller (CallerDone (Throw e)) f))
| world_connection s f a b s' :
    (forall r, conn_request a <> Some (r, cb0)) -> conn_step s a b s' ->
    world_step (Running s f) (after s s' f)
| world_caller s f f' :
    fr_caller f <> CallerSends -> caller_step devbuild f f' -> world_step (Running s f) (Running s f')
| world_callback s f f' :
    fr_callback f <> CallbackIdle -> callback_step f f' -> world_step (Running s f) (Running s f').

(** Before the synchronous call, users have sent other requests. *)
Inductive world_reaches : world -> Prop :=
| world_initial s f : conn_initial s -> new_frame = Ok f -> world_reaches (Running s f)
| world_next w w' : world_reaches w -> world_step w w' -> world_reaches w'.

(** ** The invariant *)
Lemma run_calls_of l f : run_calls l f = run_calls (calls_of cb0 l) f.
Proof.
  revert f. induction l as [|[p call] l IH]; intros f; [done|]. cbn [run_calls]. unfold calls_of.
  rewrite filter_cons. cbn [snd]. case_decide as Hd; [|apply IH].
  cbn [run_calls]. rewrite decide_True by done. case_match; [apply IH|done].
Qed.

(** The request has not been accepted, or it has, and the callback has been
    started with the outcome the connection reported, if it has reported one. *)
Definition linked (L : list (label CB)) (f : frame) : Prop :=
  (accepts_with cb0 L = [] /\ fr_callback f = CallbackIdle
   /\ (fr_caller f = CallerSends \/ exists r, fr_caller f = CallerDone r))
  \/ exists p r, accepts_with cb0 L = [(p, r, cb0)] /\ same_content request0 r /\ fr_caller f <> CallerSends
     /\ match calls_of cb0 (answers L) with
        | [] => fr_callback f = CallbackIdle /\ accepted f
        | (_, call) :: _ => fr_callback f <> CallbackIdle /\ fr_given f = Some (ev_error call, ev_response call)
        end.

Definition world_inv (w : world) : Prop :=
  match w with
  | Running s f => sync_reachable devbuild f
      /\ exists L σ, spec_run ∅ L σ /\ conn_rel s σ /\ conn_calls s = answers L /\ linked L f
  | Broken => False
  end.

Lemma idle_accepted f : fr_callback f = CallbackIdle -> accepted f -> idle_frame f = true.
Proof. unfold idle_frame, accepted. intros ->. by destruct (fr_caller f). Qed.

(** What the connection does after it has accepted the request, or without it. *)
Lemma after_inv s s' f L σ L' σ' :
  sync_reachable devbuild f -> spec_run ∅ L σ -> spec_run σ L' σ' -> conn_rel s' σ' ->
  conn_calls s = answers L -> conn_calls s' = conn_calls s ++ answers L' ->
  (accepts_with cb0 (L ++ L') = [] /\ fr_callback f = CallbackIdle
     /\ (fr_caller f = CallerSends \/ exists r, fr_caller f = CallerDone r))
  \/ (exists p r, accepts_with cb0 (L ++ L') = [(p, r, cb0)] /\ same_content request0 r
     /\ fr_caller f <> CallerSends
     /\ match calls_of cb0 (answers L) with
        | [] => fr_callback f = CallbackIdle /\ accepted f
        | (_, call) :: _ => fr_callback f <> CallbackIdle /\ fr_given f = Some (ev_error call, ev_response call)
        end) ->
  world_inv (after s s' f).
Proof.
  intros Hf Hr Hr' Hrel Hc Hc' Hlink. pose proof (spec_run_app _ _ _ _ _ Hr Hr') as Hrun.
  unfold after. rewrite Hc', drop_app_length, run_calls_of.
  assert (Hcalls : conn_calls s' = answers (L ++ L')) by by rewrite Hc', Hc, answers_app.
  destruct Hlink as [(Ha & Hcb & Hcl)|(p & r & Ha & Hsame & Hcl & Hm)].
  - pose proof (calls_of_none cb0 _ _ Hrun Ha) as Hn. rewrite answers_app, calls_of_app in Hn.
    apply app_eq_nil in Hn as [_ ->]. split; [done|]. exists (L ++ L'), σ'. split_and!; try done. by left.
  - pose proof (calls_of_one cb0 _ _ p r Hrun Ha) as Hone. rewrite answers_app, calls_of_app in Hone.
    destruct (calls_of cb0 (answers L)) as [|[q call] l] eqn:HL.
    + destruct Hm as [Hcb Hacc]. cbn [app] in Hone.
      destruct Hone as [Hn|(call & Hn & Hreq & Ho)]; rewrite Hn; cbn [run_calls].
      * split; [done|]. exists (L ++ L'), σ'. split_and!; try done. right. exists p, r.
        rewrite answers_app, calls_of_app, HL, Hn. by split_and!.
      * assert (ev_cb call = cb0) as Hev.
        { assert ((p, call) ∈ calls_of cb0 (answers L')) as [? _]%list_elem_of_filter by (rewrite Hn; left). done. }
        rewrite decide_True, idle_accepted by done. split.
        -- by eapply sync_callback; [done|apply step_call].
        -- exists (L ++ L'), σ'. split_and!; try done. right. exists p, r.
           rewrite answers_app, calls_of_app, HL, Hn. by split_and!.
    + destruct Hone as [[=]|(call' & [= -> -> Hn] & _)].
      apply app_eq_nil in Hn as [-> Hn]. rewrite Hn. cbn [run_calls].
      split; [done|]. exists (L ++ L'), σ'. split_and!; try done. right. exists p, r.
      rewrite answers_app, calls_of_app, HL. by split_and!.
Qed.

(** Other actions do not accept a request with this callback. *)
Lemma accepts_with_other a b L :
  (forall r, conn_request a <> Some (r, cb0)) -> accepts_ok a b (accepts L) -> accepts_with cb0 L = [].
Proof.
  unfold accepts_ok, accepts_with. intros Hn Ha. destruct (conn_request a) as [[request cb]|].
  - destruct b; [|by rewrite Ha]. destruct Ha as (p & r & -> & _). rewrite filter_cons_False; [done|].
    cbn. intros ->. by apply (Hn request).
  - destruct (filter _ _) as [|[[p r] cb] l] eqn:Hf; [done|]. exfalso.
    assert ((p, r, cb) ∈ filter (fun a => a.2 = cb0) (accepts L)) as [Hcb Hin]%list_elem_of_filter by (rewrite Hf; left).
    cbn in Hcb. pose proof (Ha p r cb Hin). congruence.
Qed.

(** Steps of the two threads on the frame. *)
Lemma linked_caller L f f' :
  sync_reachable devbuild f -> fr_caller f <> CallerSends -> caller_step devbuild f f' -> linked L f -> linked L f'.
Proof.
  intros Hf%sync_reachable_inv Hns Hs [(_ & _ & [?|[r Hr]])|(p & r & Ha & Hsame & _ & Hm)]; [done| |].
  { destruct Hs; congruence. }
  right. exists p, r. split_and!; [done..|by destruct Hs|].
  destruct (calls_of cb0 (answers L)) as [|[q call] l]; [|by destruct Hs].
  destruct Hm as [Hcb Hacc]. destruct Hs as [| | |f Hw Hwait]; cbn; try done.
  unfold wg_wait in Hwait. rewrite (si_counter _ _ Hf), Hcb in Hwait. done.
Qed.

Lemma linked_callback L f f' :
  fr_callback f <> CallbackIdle -> callback_step f f' -> linked L f -> linked L f'.
Proof.
  intros Hi Hs [(_ & ? & _)|(p & r & Ha & Hsame & Hc & Hm)]; [done|]. right. exists p, r.
  split_and!; [done..|by destruct Hs|]. destruct (calls_of cb0 (answers L)) as [|[q call] l]; [by destruct Hm|].
  destruct Hm as [_ Hg]. by destruct Hs.
Qed.

Lemma world_reaches_inv w : world_reaches w -> world_inv w.
Proof.
  induction 1 as [s f Hs Hf|w w' _ IH Hw].
  { split; [by constructor|]. destruct (conn_initial_law s Hs) as [Hrel Hc]. exists [], ∅.
    split_and!; [constructor|done|done|]. left. injection Hf as <-. split_and!; [done|done|by left]. }
  destruct Hw as [s f a s' Hcl Hreq Hst|s f a e s' Hcl Hreq Hst|s f a b s' Hreq Hst|s f f' Hns Hs|s f f' Hns Hs];
    destruct IH as (Hf & L & σ & Hr & Hrel & Hc & Hl).
  - destruct (conn_step_law _ _ _ _ _ Hrel Hst) as (L' & σ' & Hr' & Hrel' & Hc' & Hacc).
    unfold accepts_ok in Hacc. rewrite Hreq in Hacc. destruct Hacc as (p & r & Hacc & Hsame).
    destruct Hl as [(Ha & Hi & _)|(? & ? & ? & ? & ? & _)]; [|done].
    eapply after_inv; try done; [by eapply sync_caller; [done|apply step_accept]|].
    right. exists p, r. rewrite accepts_with_app, Ha. unfold accepts_with. rewrite Hacc, filter_cons_True by done.
    rewrite (calls_of_none cb0 L σ) by done. by split_and!.
  - destruct (conn_step_law _ _ _ _ _ Hrel Hst) as (L' & σ' & Hr' & Hrel' & Hc' & Hacc).
    unfold accepts_ok in Hacc. rewrite Hreq in Hacc.
    destruct Hl as [(Ha & Hi & _)|(? & ? & ? & ? & ? & _)]; [|done].
    eapply after_inv; try done; [by eapply sync_caller; [done|apply step_throw]|].
    left. rewrite accepts_with_app, Ha. unfold accepts_with. rewrite Hacc. split_and!; [done|done|right; by eexists].
  - destruct (conn_step_law _ _ _ _ _ Hrel Hst) as (L' & σ' & Hr' & Hrel' & Hc' & Hacc).
    eapply after_inv; try done. rewrite accepts_with_app, (accepts_with_other a b L') by done. by rewrite app_nil_r.
  - split; [by eapply sync_caller|]. exists L, σ. split_and!; try done. by eapply linked_caller.
  - split; [by eapply sync_callback|]. exists L, σ. split_and!; try done. by eapply linked_callback.
Qed.

(** ** Properties *)

(** C3: the synchronous [sendRequest] is safe over every connection that keeps the
    contract, in all interleavings of the caller, the callback and the connection:
    its callback is never called on a frame that is gone, nor twice.  When it
    returns, it returns the response to its own request; when it throws, either
    the asynchronous [sendRequest] has thrown and has accepted nothing, or the
    exception is the error the connection reported.  And once the connection has
    called the callback, the caller or the callback can make a step until the
    caller is done. *)
Theorem sync_over_contract (w : world) :
  world_reaches w ->
  exists s f, w = Running s f
    /\ (forall o, fr_caller f = CallerDone (Ok o) ->
         exists p call r response, calls_of cb0 (conn_calls s) = [(p, call)] /\ ev_request call = Some r
           /\ same_content request0 r /\ o = Some response /\ ev_response call = Some response
           /\ rs_messageID response = rq_messageID r)
    /\ (forall e, fr_caller f = CallerDone (Throw e) ->
         calls_of cb0 (conn_calls s) = []
         \/ exists p call, calls_of cb0 (conn_calls s) = [(p, call)] /\ ev_response call = None
              /\ e = error_condition (ev_error call))
    /\ (calls_of cb0 (conn_calls s) <> [] -> (forall r, fr_caller f <> CallerDone r) ->
         (exists f', caller_step devbuild f f') \/ exists f', callback_step f f').
Proof.
  intros Hw%world_reaches_inv. destruct w as [s f|]; [|done]. destruct Hw as (Hf & L & σ & Hr & Hrel & Hc & Hl).
  exists s, f. split; [done|]. rewrite Hc. pose proof (sync_reachable_inv _ f Hf) as Hi.
  destruct Hl as [(Ha & Hcb & Hcl)|(p & r & Ha & Hsame & Hns & Hm)].
  { rewrite (calls_of_none cb0 L σ) by done. split_and!; [|by left|done]. intros o Hd.
    destruct (si_done _ _ Hi _ Hd) as [[_ [e ?]]|[? _]]; congruence. }
  destruct (calls_of_one cb0 L σ p r Hr Ha) as [Hn|(call & Hn & Hreq & Ho)]; rewrite Hn in *.
  { destruct Hm as [Hcb Hacc]. unfold accepted in Hacc. split_and!; try done; intros x Hd; by rewrite Hd in Hacc. }
  destruct Hm as [Hcb Hg].
  assert (Hdone : forall x, fr_caller f = CallerDone x -> x = sync_return devbuild f
    /\ fr_rv f = ev_response call /\ fr_error f = ev_error call).
  { intros x Hd. destruct (si_done _ _ Hi _ Hd) as [[? _]|[Hcd ->]]; [done|]. split; [done|].
    pose proof (si_returns _ _ Hi (or_intror Hcd)) as Hg'. rewrite Hg in Hg'. by injection Hg'. }
  unfold outcome_ok in Ho. split_and!.
  - intros o Hd. destruct (Hdone _ Hd) as (Hx & Hrv & Herr).
    destruct (ev_response call) as [response|] eqn:Hresp.
    + destruct Ho as [He Hid]. exists p, call, r, response. rewrite Hresp. split_and!; try done.
      rewrite (sync_return_condition _ f NoError) in Hx by (done || by rewrite Herr, He).
      rewrite decide_True in Hx by done. congruence.
    + destruct Ho as (c & Hc1 & Hc2 & He). rewrite (sync_return_condition _ f c) in Hx by (done || congruence).
      by rewrite decide_False in Hx.
  - intros e Hd. destruct (Hdone _ Hd) as (Hx & Hrv & Herr). right. exists p, call.
    destruct (ev_response call) as [response|] eqn:Hresp.
    + destruct Ho as [He Hid]. rewrite (sync_return_condition _ f NoError) in Hx by (done || by rewrite Herr, He).
      by rewrite decide_True in Hx.
    + destruct Ho as (c & Hc1 & Hc2 & He). rewrite (sync_return_condition _ f c) in Hx by (done || congruence).
      rewrite decide_False in Hx by done. split_and!; [done..|]. congruence.
  - intros _ Hnd. destruct (fr_callback f) eqn:Ecb; [done|right; eexists; by eapply step_rv
      |right; eexists; by eapply step_error|right; eexists; by eapply step_done|left].
    destruct (fr_caller f) eqn:Ecl; [done|eexists; by apply step_return| |by edestruct Hnd].
    eexists. apply step_wake; [done|]. by rewrite (si_counter _ _ Hi), Ecb.
Qed.
End World.

(** ** A synchronous request over VST, for example *)
#[local] Instance callback_eq_dec : EqDecision callback.
Proof. solve_decision. Defined.
#[local] Instance ex_Connection : Connection callback VstConnection action :=
  vst_Connection LittleEndianHost (le_bytes 24 0) ex_chunk ex_conf.
#[local] Instance ex_ConnectionLaws : ConnectionLaws callback VstConnection action :=
  vst_ConnectionLaws LittleEndianHost (le_bytes 24 0) ex_chunk ex_conf.
Definition ex_cb : callback := UserCallback 5.
Definition ex_world_reaches : world -> Prop := world_reaches false ex_request ex_cb.

(** Handlers of the io service run one after the other. *)
Fixpoint ex_world_run (hs : list (nat * outcome)) (s : VstConnection) (f : frame) : option (VstConnection * frame) :=
  match hs with
  | [] => Some (s, f)
  | (n, o) :: hs =>
      match ex_perform (AHandler n o) s with
      | (Ok (), s') =>
          match run_calls ex_cb (drop (length (vst_calls s)) (vst_calls s')) f with
          | Some f' => ex_world_run hs s' f'
          | None => None
          end
      | _ => None
      end
  end.

Lemma ex_world_run_reaches hs s f s' f' :
  ex_world_reaches (Running s f) -> ex_world_run hs s f = Some (s', f') -> ex_world_reaches (Running s' f').
Proof.
  revert s f. induction hs as [|[n o] hs IH]; intros s f Hw; cbn [ex_world_run].
  { by intros [= <- <-]. }
  destruct (ex_perform (AHandler n o) s) as [[[]|e|w] s1] eqn:Hp; [|done|done].
  destruct (run_calls ex_cb _ f) as [f1|] eqn:Hc; [|done]. apply IH.
  replace (Running s1 f1) with (after (CB := callback) ex_cb s s1 f) by (unfold after; cbn; by rewrite Hc).
  eapply world_next; [exact Hw|]. by apply (world_connection false ex_request ex_cb s f (AHandler n o) true).
Qed.

(** Connecting, sending, and the response. *)
Definition ex_connecting : list (nat * outcome) := [(0%nat, ex_ok); (0%nat, ex_ok); (0%nat, ex_ok)].
Definition ex_reply_chunk : list byte :=
  wire_chunk VST1_1 (MkChunk 62 3 1 38 (MkBuffer ex_reply 38) 0 0) ex_reply.
Definition ex_reading : list (nat * outcome) := [(1%nat, MkOutcome None [] ex_reply_chunk)].
Definition ex_frame0 : frame := ex_frame CallerSends CallbackIdle 1 0.
Definition ex_nothing : VstConnection * frame := (ex_start, ex_frame0).
Definition ex_connected : VstConnection * frame :=
  Eval vm_compute in default ex_nothing (ex_world_run ex_connecting ex_start ex_frame0).
Definition ex_sending : VstConnection :=
  Eval vm_compute in (ex_perform (ASend ex_request 5) ex_connected.1).2.
Definition ex_answered : VstConnection * frame :=
  Eval vm_compute in default ex_nothing (ex_world_run ex_reading ex_sending (set_caller CallerWaits ex_connected.2)).

(** The callback runs, and the caller wakes up. *)
Definition ex_finish (f : frame) : frame :=
  match fr_callback f with
  | CallbackStarts e response =>
      MkFrame 0 response e (CallerDone (Ok response)) CallbackDone (fr_given f)
  | _ => f
  end.

Lemma ex_finish_reaches s f response :
  ex_world_reaches (Running s f) -> fr_counter f = 1 -> fr_caller f = CallerWaits ->
  fr_callback f = CallbackStarts 0 response -> ex_world_reaches (Running s (ex_finish f)).
Proof.
  intros Hw Hn Hcl Hcb. unfold ex_finish. rewrite Hcb.
  set (f3 := MkFrame 0 response 0 CallerWaits CallbackDone (fr_given f)).
  set (f2 := MkFrame 1 response 0 CallerWaits CallbackReturns (fr_given f)).
  set (f1 := MkFrame 1 response (fr_error f) CallerWaits (CallbackStored 0) (fr_given f)).
  assert (callback_step f f1) as H1 by (pose proof (step_rv f 0 response Hcb) as Hs; by rewrite Hn, Hcl in Hs).
  apply (world_next false ex_request ex_cb (Running s f3)); [|by apply world_caller, (step_wake false f3)].
  apply (world_next false ex_request ex_cb (Running s f2)); [|by apply world_callback, (step_done f2)].
  apply (world_next false ex_request ex_cb (Running s f1)); [|by apply world_callback, (step_error f1 0)].
  eapply world_next; [exact Hw|]. apply world_callback; [by rewrite Hcb|exact H1].
Qed.

Definition ex_final : VstConnection * frame := Eval vm_compute in (ex_answered.1, ex_finish ex_answered.2).

Lemma ex_connected_reached : ex_world_reaches (Running ex_connected.1 ex_connected.2).
Proof.
  apply (ex_world_run_reaches ex_connecting ex_start ex_frame0); [by constructor|].
  vm_compute. reflexivity.
Qed.

Lemma ex_sending_reached : ex_world_reaches (Running ex_sending (set_caller CallerWaits ex_connected.2)).
Proof.
  assert (after ex_cb ex_connected.1 ex_sending (set_caller CallerAccepted ex_connected.2)
    = Running ex_sending (set_caller CallerAccepted ex_connected.2)) as Ha by (vm_compute; reflexivity).
  apply (world_next false ex_request ex_cb (Running ex_sending (set_caller CallerAccepted ex_connected.2))).
  - rewrite <- Ha. eapply world_next; [exact ex_connected_reached|].
    apply (world_sends false ex_request ex_cb _ _ (ASend ex_request 5)); [reflexivity|reflexivity|].
    vm_compute. reflexivity.
  - apply world_caller; [discriminate|].
    exact (step_return false (set_caller CallerAccepted ex_connected.2) eq_refl).
Qed.

Lemma ex_final_reached : ex_world_reaches (Running ex_final.1 ex_final.2).
Proof.
  change (ex_world_reaches (Running ex_answered.1 (ex_finish ex_answered.2))).
  apply (ex_finish_reaches ex_answered.1 ex_answered.2 (fr_rv ex_final.2)); [|reflexivity..].
  apply (ex_world_run_reaches ex_reading ex_sending (set_caller CallerWaits ex_connected.2));
    [exact ex_sending_reached|vm_compute; reflexivity].
Qed.

Lemma sync_over_contract_witness :
  exists response, fr_caller ex_final.2 = CallerDone (Ok (Some response)) /\ rs_messageID response = 1.
Proof.
  assert (Hcb : @conn_internal callback VstConnection action ex_Connection ex_cb = false) by reflexivity.
  destruct (sync_over_contract false ex_request ex_cb Hcb (Running ex_final.1 ex_final.2) ex_final_reached)
    as (s & f & Heq & Hok & _).
  injection Heq as <- <-. destruct (Hok _ eq_refl) as (p & call & r & response & _ & _ & _ & Ho & _ & Hid).
  exists response. split; [by rewrite <- Ho|]. injection Ho as <-. reflexivity.
Defined.
