(* ===== verification/FuerteGet.v ===== *)
(** * The command line client

    tools/fuerte-get.cpp: the parsing of the arguments, the configuration of the
    connection, the request that is sent, and the callback that prints the
    answer.  The payload, which [main] builds with VelocyPack, is a parameter;
    what is printed to the terminal is the result of [client_callback].

    - [client_arguments]: the arguments are parsed as a grammar says, and every
      set of options can be given;
    - [client_over_http]: what is sent over HTTP;
    - [client_callback_safe]: the callback and the contract of connections. *)
From stdpp Require Import pretty.
From S2P Require Import Prelude StdMap StdString Types VPack ToyVPack Message RequestItem Url HttpUrl TransferEngine ToyCurl CurlMultiAsio VstConnection HttpConnection HttpRequest ConnectionBuilder Contract.
Local Open Scope Z_scope.

Definition EXIT_SUCCESS : Z := 0.
Definition EXIT_FAILURE : Z := 1.

(** ** The arguments *)

(** [strcmp]; the elements of [argv] hold no NUL. *)
Definition isOption (arg expected : string) : bool := bool_decide (arg = expected).

(** The variables of [main] the loop assigns. *)
Record client_options : Type := MkOptions {
  co_method : RestVerb;
  co_host : string;
  co_path : string;
  co_parameter : StringMap;
  co_meta : StringMap;
}.
Definition default_options : client_options :=
  MkOptions Get "http://127.0.0.1:8529" "/_api/version" [] [].
Definition with_method x o := MkOptions x (co_host o) (co_path o) (co_parameter o) (co_meta o).
Definition with_host x o := MkOptions (co_method o) x (co_path o) (co_parameter o) (co_meta o).
Definition with_path x o := MkOptions (co_method o) (co_host o) x (co_parameter o) (co_meta o).
Definition with_parameter k v o :=
  MkOptions (co_method o) (co_host o) (co_path o) (map_assign k v (co_parameter o)) (co_meta o).
Definition with_meta k v o :=
  MkOptions (co_method o) (co_host o) (co_path o) (co_parameter o) (map_assign k v (co_meta o)).

(** [parseString]: the next argument, and the new value of [i]; without one the
    program ends. *)
Definition parseString (argv : list string) (i : nat) : res (string * nat) :=
  let i := S i in
  match argv !! i with
  | Some arg => Ok (arg, i)
  | None => Throw (process_exit EXIT_FAILURE)
  end.
Definition parseMethod (argv : list string) (i : nat) : res (RestVerb * nat) :=
  '(arg, i) ← parseString argv i; Ok (to_RestVerb arg, i).

(** What the loop ends with: the options, or a [return] of [main]. *)
Inductive parsed : Type := Parsed (o : client_options) | MainReturns (status : Z).

(** The [while] loop.  Every turn uses up an argument, so their number is enough
    fuel. *)
Fixpoint parse_loop (fuel : nat) (argv : list string) (i : nat) (allowFlags : bool) (o : client_options)
    : res parsed :=
  match argv !! i with
  | None => Ok (Parsed o)
  | Some p =>
      match fuel with
      | O => Undef "the loop does not terminate"
      | S fuel =>
          if allowFlags && isOption p "--help" then Ok (MainReturns EXIT_SUCCESS)
          else if allowFlags && (isOption p "-X" || isOption p "--method") then
            '(m, i) ← parseMethod argv i;
            parse_loop fuel argv (S i) allowFlags (with_method m o)
          else if allowFlags && (isOption p "-H" || isOption p "--host") then
            '(h, i) ← parseString argv i;
            parse_loop fuel argv (S i) allowFlags (with_host h o)
          else if allowFlags && (isOption p "-p" || isOption p "--path") then
            '(q, i) ← parseString argv i;
            parse_loop fuel argv (S i) allowFlags (with_path q o)
          else if allowFlags && (isOption p "-P" || isOption p "--parameter") then
            '(key, i) ← parseString argv i;
            '(value, i) ← parseString argv i;
            parse_loop fuel argv (S i) allowFlags (with_parameter key value o)
          else if allowFlags && (isOption p "-M" || isOption p "--meta") then
            '(key, i) ← parseString argv i;
            '(value, i) ← parseString argv i;
            parse_loop fuel argv (S i) allowFlags (with_meta key value o)
          else if allowFlags && isOption p "--" then parse_loop fuel argv (S i) false o
          else Ok (MainReturns EXIT_FAILURE)
      end
  end.

(** [catch (std::exception const&)] with [exit(EXIT_FAILURE)]. *)
Definition exit_on_exception {A} (r : res A) : res A :=
  match r with
  | Throw e => Throw (if is_std_exception e then process_exit EXIT_FAILURE else e)
  | r => r
  end.

Definition parse_arguments (argv : list string) : res parsed :=
  exit_on_exception (parse_loop (length argv) argv 1 true default_options).

(** ** Reference: the grammar of the arguments *)
Inductive flag : Type := FHelp | FMethod | FHost | FPath | FParameter | FMeta | FEnd.
Definition flags : list (string * flag) :=
  [("--help", FHelp); ("-X", FMethod); ("--method", FMethod); ("-H", FHost); ("--host", FHost);
   ("-p", FPath); ("--path", FPath); ("-P", FParameter); ("--parameter", FParameter);
   ("-M", FMeta); ("--meta", FMeta); ("--", FEnd)].
Definition flag_of (arg : string) : option flag :=
  snd <$> find (fun f => bool_decide (arg = f.1)) flags.

Definition missing : res parsed := Throw (process_exit EXIT_FAILURE).
Definition wrong : res parsed := Ok (MainReturns EXIT_FAILURE).
Fixpoint grammar (args : list string) (o : client_options) : res parsed :=
  match args with
  | [] => Ok (Parsed o)
  | arg :: args =>
      match flag_of arg, args with
      | None, _ => wrong
      | Some FHelp, _ => Ok (MainReturns EXIT_SUCCESS)
      | Some FEnd, [] => Ok (Parsed o)
      | Some FEnd, _ :: _ => wrong
      | Some FMethod, v :: args => grammar args (with_method (to_RestVerb v) o)
      | Some FHost, v :: args => grammar args (with_host v o)
      | Some FPath, v :: args => grammar args (with_path v o)
      | Some FParameter, k :: v :: args => grammar args (with_parameter k v o)
      | Some FMeta, k :: v :: args => grammar args (with_meta k v o)
      | Some _, _ => missing
      end
  end.

Lemma parse_loop_end fuel argv i o :
  (length argv <= i)%nat -> parse_loop fuel argv i true o = Ok (Parsed o).
Proof. intros Hi. destruct fuel; cbn [parse_loop]; by rewrite lookup_ge_None_2. Qed.

Lemma drop_S_lookup {A} (l : list A) i x rest : drop i l = x :: rest -> l !! i = Some x /\ drop (S i) l = rest.
Proof.
  intros Hd. split.
  - rewrite <- (Nat.add_0_r i), <- lookup_drop, Hd. done.
  - rewrite <- (Nat.add_1_r i), <- drop_drop, Hd. done.
Qed.
Lemma drop_nil_lookup {A} (l : list A) i : drop i l = [] -> l !! i = None.
Proof. intros Hd. by rewrite <- (Nat.add_0_r i), <- lookup_drop, Hd. Qed.

Lemma parseString_next argv i rest :
  drop (S i) argv = rest ->
  match rest with
  | [] => parseString argv i = Throw (process_exit EXIT_FAILURE)
  | v :: args => parseString argv i = Ok (v, S i) /\ drop (S (S i)) argv = args
  end.
Proof.
  unfold parseString. destruct rest as [|v args]; intros Hd.
  - by rewrite (drop_nil_lookup _ _ Hd).
  - apply drop_S_lookup in Hd as [-> ?]. done.
Qed.

(** Which flag an argument is, as the chain of comparisons finds it. *)
Lemma flag_of_spec arg :
  match flag_of arg with
  | Some FHelp => arg = "--help"
  | Some FMethod => arg = "-X" \/ arg = "--method"
  | Some FHost => arg = "-H" \/ arg = "--host"
  | Some FPath => arg = "-p" \/ arg = "--path"
  | Some FParameter => arg = "-P" \/ arg = "--parameter"
  | Some FMeta => arg = "-M" \/ arg = "--meta"
  | Some FEnd => arg = "--"
  | None => forall f, f ∈ flags -> arg <> f.1
  end.
Proof.
  unfold flag_of. destruct (find _ flags) as [[name f]|] eqn:Hf; cbn.
  - apply find_some in Hf as [Hin Heq]. apply bool_decide_eq_true in Heq as ->. cbn in Hin.
    repeat (destruct Hin as [[= <- <-]|Hin]; [cbn; tauto|]). done.
  - intros f Hin%list_elem_of_In Heq. pose proof (find_none _ _ Hf f Hin) as Hn.
    by apply bool_decide_eq_false in Hn.
Qed.

(** Comparisons of literals. *)
Ltac compare_options :=
  repeat match goal with
  | |- context [isOption (String ?c ?a) ?b] =>
      let v := eval vm_compute in (isOption (String c a) b) in change (isOption (String c a) b) with v
  end; cbn [andb orb].

Lemma isOption_none arg name :
  flag_of arg = None -> name ∈ flags.*1 -> isOption arg name = false.
Proof.
  intros Hf ([name' f] & -> & Hin)%list_elem_of_fmap. pose proof (flag_of_spec arg) as Hs. rewrite Hf in Hs.
  apply bool_decide_eq_false. by apply (Hs (name', f)).
Qed.
Ltac no_option Hf :=
  repeat match goal with
  | |- context [isOption ?a ?b] =>
      rewrite (isOption_none a b Hf) by (apply list_elem_of_In; cbn; tauto)
  end; cbn [andb orb].

(** One value, and two. *)
Lemma parse_one {B} (argv : list string) i rest (k : string * nat -> res B) :
  drop (S i) argv = rest ->
  parseString argv i ≫= k
  = match rest with [] => Throw (process_exit EXIT_FAILURE) | v :: _ => k (v, S i) end.
Proof. intros Hd%parseString_next. destruct rest as [|v args]; [by rewrite Hd|]. by destruct Hd as [-> _]. Qed.

Lemma parse_loop_grammar fuel argv i o args :
  drop i argv = args -> (length args <= fuel)%nat ->
  parse_loop fuel argv i true o = grammar args o.
Proof.
  revert i o args. induction fuel as [|fuel IH]; intros i o args Hd Hf.
  { destruct args; [|cbn in Hf; lia]. cbn. by rewrite (drop_nil_lookup _ _ Hd). }
  destruct args as [|arg args]; cbn [parse_loop grammar].
  { by rewrite (drop_nil_lookup _ _ Hd). }
  apply drop_S_lookup in Hd as [-> Hd]. cbn in Hf.
  assert (H1 : forall o', match args with
    | [] => True
    | v :: args' => parse_loop fuel argv (S (S i)) true o' = grammar args' o'
        /\ drop (S (S i)) argv = args' end).
  { intros o'. destruct args as [|v args']; [done|]. apply drop_S_lookup in Hd as [_ Hd].
    split; [|done]. apply IH; [done|cbn in Hf; lia]. }
  assert (H2 : forall o', match args with
    | v :: w :: args' => parse_loop fuel argv (S (S (S i))) true o' = grammar args' o'
    | _ => True end).
  { intros o'. destruct args as [|v [|w args']]; [done..|].
    apply drop_S_lookup in Hd as [_ Hd]. apply drop_S_lookup in Hd as [_ Hd]. apply IH; [done|cbn in Hf; lia]. }
  pose proof (flag_of_spec arg) as Hfl. destruct (flag_of arg) as [[]|] eqn:Ef.
  - subst arg. by compare_options.
  - destruct Hfl as [-> | ->]; compare_options; unfold parseMethod; rewrite bind_assoc, (parse_one _ _ args) by done;
      (destruct args; [done|]); apply H1.
  - destruct Hfl as [-> | ->]; compare_options; rewrite (parse_one _ _ args) by done; (destruct args; [done|]); apply H1.
  - destruct Hfl as [-> | ->]; compare_options; rewrite (parse_one _ _ args) by done; (destruct args; [done|]); apply H1.
  - destruct Hfl as [-> | ->]; compare_options; rewrite (parse_one _ _ args) by done; (destruct args as [|v args]; [done|]);
      destruct (H1 o) as [_ Hd2]; rewrite (parse_one _ _ args) by done; (destruct args; [done|]); apply H2.
  - destruct Hfl as [-> | ->]; compare_options; rewrite (parse_one _ _ args) by done; (destruct args as [|v args]; [done|]);
      destruct (H1 o) as [_ Hd2]; rewrite (parse_one _ _ args) by done; (destruct args; [done|]); apply H2.
  - subst arg. compare_options. destruct args as [|v args].
    + destruct fuel; cbn [parse_loop]; by rewrite (drop_nil_lookup _ _ Hd).
    + apply drop_S_lookup in Hd as [Hv _]. destruct fuel as [|fuel]; [cbn in Hf; lia|]. cbn [parse_loop]. by rewrite Hv.
  - by no_option Ef.
Qed.

(** ** Giving options *)

(** The arguments for a set of options. *)
Definition method_argument (m : RestVerb) : list string := ["--method"; RestVerb_to_string m].
Definition entries_arguments (name : string) (m : StringMap) : list string :=
  concat ((fun kv => [name; kv.1; kv.2]) <$> m).
Definition arguments_of (o : client_options) : list string :=
  method_argument (co_method o) ++ ["--host"; co_host o; "--path"; co_path o]
  ++ entries_arguments "--parameter" (co_parameter o) ++ entries_arguments "--meta" (co_meta o).

Lemma map_assign_all (m acc : StringMap) :
  map_wf m -> map_wf acc -> to_gmap (foldl (fun a kv => map_assign kv.1 kv.2 a) acc m) = to_gmap m ∪ to_gmap acc
  /\ map_wf (foldl (fun a kv => map_assign kv.1 kv.2 a) acc m).
Proof.
  revert acc. induction m as [|[k v] m IH]; intros acc Hm Ha; cbn [foldl fst snd].
  { split; [|done]. change (to_gmap (K := string) (V := string) []) with (∅ : gmap string string). by rewrite (left_id_L ∅ (∪)). }
  destruct (IH (map_assign k v acc)) as [Heq Hwf]; [apply Hm|by apply map_assign_wf|]. split; [|done].
  rewrite Heq, map_assign_spec, to_gmap_cons. rewrite <- insert_union_l, <- insert_union_r; [done|].
  by eapply to_gmap_head.
Qed.

Lemma map_assign_rebuild (m : StringMap) :
  map_wf m -> foldl (fun a kv => map_assign kv.1 kv.2 a) [] m = m.
Proof.
  intros Hm. destruct (map_assign_all m [] Hm I) as [Heq Hwf]. apply map_canonical; [done..|].
  rewrite Heq. change (to_gmap (K := string) (V := string) []) with (∅ : gmap string string).
  by rewrite (right_id_L ∅ (∪)).
Qed.

Lemma grammar_parameters (m : StringMap) rest o :
  grammar (entries_arguments "--parameter" m ++ rest) o
  = grammar rest (MkOptions (co_method o) (co_host o) (co_path o)
      (foldl (fun a kv => map_assign kv.1 kv.2 a) (co_parameter o) m) (co_meta o)).
Proof.
  revert o. induction m as [|[k v] m IH]; intros o; [by destruct o|].
  change (entries_arguments "--parameter" ((k, v) :: m)) with ("--parameter" :: k :: v :: entries_arguments "--parameter" m).
  cbn [app grammar]. change (flag_of "--parameter") with (Some FParameter). cbn iota. by rewrite IH.
Qed.
Lemma grammar_metas (m : StringMap) rest o :
  grammar (entries_arguments "--meta" m ++ rest) o
  = grammar rest (MkOptions (co_method o) (co_host o) (co_path o) (co_parameter o)
      (foldl (fun a kv => map_assign kv.1 kv.2 a) (co_meta o) m)).
Proof.
  revert o. induction m as [|[k v] m IH]; intros o; [by destruct o|].
  change (entries_arguments "--meta" ((k, v) :: m)) with ("--meta" :: k :: v :: entries_arguments "--meta" m).
  cbn [app grammar]. change (flag_of "--meta") with (Some FMeta). cbn iota. by rewrite IH.
Qed.

(** C26: the arguments of the client.  Parsing them is what the grammar says: flags
    with one or two values in any order, the last one winning; "--help" ends the
    program with success, an unknown flag, a missing value or anything behind "--"
    with failure; the index never leaves the arguments and the loop ends.  Every
    set of options with sorted maps can be given and is then parsed back. *)
Theorem client_arguments (name : string) (args : list string) (o : client_options) :
  parse_arguments (name :: args) = grammar args default_options
  /\ (http_verb (co_method o) -> map_wf (co_parameter o) -> map_wf (co_meta o) ->
     parse_arguments (name :: arguments_of o) = Ok (Parsed o)).
Proof.
  assert (Hg : forall args, parse_arguments (name :: args) = grammar args default_options).
  { intros l. unfold parse_arguments. rewrite (parse_loop_grammar _ _ _ _ l) by (cbn; done || lia).
    generalize default_options. cut (forall n o, (length l <= n)%nat -> exit_on_exception (grammar l o) = grammar l o); [by eauto|].
    clear. intros n. revert l. induction n as [|n IH]; intros l o Hl; destruct l as [|a l]; [done|cbn in Hl; lia|done|].
    cbn in Hl. cbn [grammar]. destruct (flag_of a) as [[]|]; try done; destruct l as [|v [|w l]]; try done;
      apply IH; cbn in Hl |- *; lia. }
  split; [apply Hg|]. intros Hv Hp Hm. rewrite Hg. unfold arguments_of, method_argument. cbn [app grammar].
  change (flag_of "--method") with (Some FMethod). change (flag_of "--host") with (Some FHost).
  change (flag_of "--path") with (Some FPath). cbn iota.
  rewrite grammar_parameters, <- (app_nil_r (entries_arguments _ (co_meta o))), grammar_metas. cbn [grammar].
  cbn. rewrite !map_assign_rebuild by done. destruct o as [m h q ps ms]. cbn in *. by destruct m.
Qed.

(** ** The rest of main *)
Section Main.
Context {VP : VPack} `{!VPackLaws VP} `{BoostSplitLaws} `{CurlMethodLaws}.
(** [FUERTE_CHECKED_MODE], [Slice::toJson], and the slice main builds. *)
Context (checked : bool) (toJson : list byte -> res string) (slice : list byte).

Definition exit_stm {S A} (m : stm S A) : stm S A := fun s =>
  match m s with (r, s') => (exit_on_exception r, s') end.

(** The configuration of the connection. *)
Definition client_builder (o : client_options) : stm ConnectionConfiguration unit :=
  _ ← exit_stm (builder_host (co_host o));
  _ ← builder_user "";
  builder_password "".

(** The request, and the [try] block that sends it. *)
Definition client_request (o : client_options) : res Request :=
  createRequest_slice checked (co_method o) (co_path o) (co_parameter o) slice.
Definition client_send {S} (sendRequest : Request -> stm S Z) (o : client_options) : stm S Z :=
  exit_stm (
    request ← lift (client_request o);
    _ ← lift (Request_to_string toJson request);
    sendRequest request).

(** The lambda [cb], as what it prints. *)
Definition dashes : string :=
  "--------------------------------------------------------------------------" +:+ newline.
Definition response_text (response : option Response) : res string :=
  match response with Some r => Response_to_string toJson r | None => Ok "no response" end.
Definition client_callback {CB} (call : cb_event CB) : res string :=
  if negb (ev_error call =? 0) then
    request ← get (ev_request call);
    text ← response_text (ev_response call);
    Ok (dashes +:+ "received error: " +:+ pretty (ev_error call) +:+ newline
        +:+ MessageHeader_to_string (rq_header request) +:+ "request payload:" +:+ text +:+ newline)
  else
    text ← response_text (ev_response call);
    Ok (dashes +:+ "received result:" +:+ newline +:+ text +:+ newline).

(** *** Properties *)

(** The request has the options and the payload, but not the metadata. *)
Lemma client_request_Ok (o : client_options) :
  is_slice slice -> map_wf (co_parameter o) ->
  exists r, client_request o = Ok r
    /\ restVerb (rq_header r) = Some (co_method o) /\ path (rq_header r) = Some (co_path o)
    /\ parameters (rq_header r) = Some (co_parameter o)
    /\ meta (rq_header r) = Some [("accept", "application/x-velocypack"); ("content-type", "application/x-velocypack")]
    /\ request_payload r = Ok slice.
Proof.
  intros Hs Hwf. set (r0 := set_rq_header (set_parameters (Some (co_parameter o)) (set_path (Some (co_path o))
    (addMeta fu_accept_key fu_content_type_vpack (addMeta fu_content_type_key fu_content_type_vpack
      (set_restVerb (Some (co_method o)) (rq_header (new_Request emptyHeader [])))))))
    (new_Request emptyHeader [])).
  pose proof (addVPack_slice_Ok checked slice [] r0 Hs) as Ha. rewrite app_nil_r in Ha.
  unfold client_request, createRequest_slice.
  change (createRequest_path (co_method o) (co_path o) (co_parameter o)) with (Ok r0).
  assert (header_wf (rq_header r0)) as Hh.
  { assert (header_wf (addMeta fu_accept_key fu_content_type_vpack (addMeta fu_content_type_key fu_content_type_vpack
      (set_restVerb (Some (co_method o)) (rq_header (new_Request emptyHeader [])))))) as [Hm _]
      by (apply addMeta_wf, addMeta_wf; by split).
    split; [exact Hm|by intros m [= <-]]. }
  rewrite bind_ret_l, Ha; [|by split|done|done].
  eexists. split; [reflexivity|]. split_and!; try reflexivity.
  unfold request_payload. cbn. rewrite Z.leb_refl. f_equal. rewrite take_ge; [done|]. cbn. lia.
Qed.

(** What the client sends.  The request has the method, path and parameters of
    the options and the payload; the metadata given with "--meta" are not part of
    it.  As there is always a payload, over HTTP the default method GET is sent as
    POST; the other methods are sent as they are given.  An unknown method ends
    the program when it is to be sent. *)
Theorem client_over_http {E : Type} `{TransferEngine E} (conf : ConnectionConfiguration)
    (user_code : cb_event nat -> res unit) (o : client_options) (cb : nat) (easy : option Z) (s : HttpConnection E) :
  is_slice slice -> map_wf (co_parameter o) ->
  exists r, client_request o = Ok r
    /\ restVerb (rq_header r) = Some (co_method o) /\ path (rq_header r) = Some (co_path o)
    /\ parameters (rq_header r) = Some (co_parameter o) /\ request_payload r = Ok slice
    /\ (forall k v, client_request (with_meta k v o) = Ok r)
    /\ (forall p d opts, http_verb (co_method o) -> item_options conf p d r = Ok opts ->
         curl_method opts = (if bool_decide (co_method o = Get) then "POST" else method_name (co_method o))
         /\ OPT_COPYPOSTFIELDS slice ∈ opts)
    /\ (co_method o = Illegal -> is_Ok (Request_to_string toJson r) ->
         is_Ok (destination conf (rq_header r)) ->
         (forall d, destination conf (rq_header r) = Ok d -> Z.of_nat (String.length d) < npos) ->
         exists s', client_send (fun r => http_sendRequest conf user_code r cb easy) o s
           = (Throw (process_exit EXIT_FAILURE), s')).
Proof.
  intros Hs Hwf. destruct (client_request_Ok o Hs Hwf) as (r & Hr & Hv & Hp & Hps & _ & Hpay). exists r.
  split_and!; [done..| |].
  - intros p d opts Hverb Ho.
    destruct (item_options_method conf p d r opts Ho) as (v & pay & Hv' & Hpay' & Hc & Hpost & Hd & _).
    assert (v = co_method o) as -> by congruence. assert (pay = slice) as -> by congruence.
    assert (slice <> []) as Hne by by apply slice_nonempty.
    split; [|by apply Hd]. case_bool_decide as Hg.
    + apply method_post; [intros w; rewrite Hc; naive_solver|right; exists slice; by apply Hd].
    + destruct (decide (co_method o = Post)) as [Hpo|Hnp].
      * rewrite Hpo. apply method_post; [intros w; rewrite Hc; naive_solver|left; apply Hpost; done].
      * apply method_custom; [by apply Hc|intros w Hw; apply Hc in Hw; naive_solver].
  - intros Hill [text Htext] [d Hd] Hlen. unfold client_send, exit_stm, mbind, stm_bind, lift.
    rewrite Hr. cbn. rewrite Htext. unfold http_sendRequest, queueRequest, http_createRequestItem, mbind, stm_bind, lift, reads, modify.
    cbn. rewrite Hd. cbn. destruct easy as [h|]; [|by eexists]. cbn. unfold item_options. cbn. rewrite Hv, Hill. cbn.
    unfold createSafeDottedCurlUrl. rewrite safe_loop_spec by (specialize (Hlen d Hd); lia). cbn. by eexists.
Qed.

(** The callback of the client and the contract.  When the connection keeps
    the contract, the callback never reads through a null pointer: reporting an
    error it prints the code and the header of the request, which it has been
    given, and no response; otherwise it prints the response. *)
Theorem client_callback_safe {CB} (L : list (label CB)) (σ : gmap nat (status CB)) (p : nat) (call : cb_event CB) :
  spec_run ∅ L σ -> (p, call) ∈ answers L ->
  exists request, ev_request call = Some request
    /\ ((exists c, c <> NoError /\ ev_error call = errorToInt c
          /\ client_callback call = Ok (dashes +:+ "received error: " +:+ pretty (errorToInt c) +:+ newline
               +:+ MessageHeader_to_string (rq_header request) +:+ "request payload:no response" +:+ newline))
        \/ (exists response, ev_response call = Some response /\ rs_messageID response = rq_messageID request
             /\ client_callback call = (text ← Response_to_string toJson response;
                  Ok (dashes +:+ "received result:" +:+ newline +:+ text +:+ newline)))).
Proof.
  intros Hr Hin. destruct (run_answer_accepted L σ p call Hr Hin) as (r & _ & Hreq & Ho & _). exists r.
  split; [done|]. unfold outcome_ok in Ho. unfold client_callback.
  destruct (ev_response call) as [response|] eqn:Hresp; [right|left].
  - destruct Ho as [-> Hid]. exists response. done.
  - destruct Ho as (c & Hc & _ & He). exists c. rewrite He.
    assert ((errorToInt c =? 0) = false) as -> by by destruct c. rewrite Hreq. done.
Qed.
End Main.

(** ** Witnesses *)
Definition ex_options : client_options :=
  MkOptions Put "vst://127.0.0.1:8530" "/_api/document" [("force", "true")] [("x-arango-async", "store")].
Lemma client_arguments_witness :
  parse_arguments ("fuerte-get" :: arguments_of ex_options) = Ok (Parsed ex_options)
  /\ parse_arguments ["fuerte-get"; "--path"] = Throw (process_exit EXIT_FAILURE).
Proof.
  split.
  - apply (client_arguments "fuerte-get" [] ex_options); [exact I|..];
      (split; [intros ?? Hin; by apply not_elem_of_nil in Hin|exact I]).
  - rewrite (proj1 (client_arguments "fuerte-get" ["--path"] ex_options)). reflexivity.
Defined.

Definition ex_slice : list byte := enc_string "superdb".
Lemma client_over_http_witness :
  exists r opts, client_request false ex_slice default_options = Ok r
    /\ item_options ex_http_conf 0 "http://localhost:8529/_api/version" r = Ok opts /\ curl_method opts = "POST".
Proof.
  destruct (client_over_http false (fun _ => Ok "") ex_slice ex_http_conf ex_user default_options 0 (Some 1) ex_http0)
    as (r & Hr & _ & _ & _ & _ & _ & Hm & _); [apply is_slice_string|exact I|].
  exists r. destruct (item_options ex_http_conf 0 "http://localhost:8529/_api/version" r) as [opts| |] eqn:Ho.
  - exists opts. split; [exact Hr|]. split; [reflexivity|]. apply (Hm 0%nat _ opts I Ho).
  - exfalso. vm_compute in Hr. injection Hr as <-. vm_compute in Ho. discriminate Ho.
  - exfalso. vm_compute in Hr. injection Hr as <-. vm_compute in Ho. discriminate Ho.
Defined.

(** A refused connection. *)
Definition ex_refused : cb_event nat :=
  MkEvent 0%nat (errorToInt CouldNotConnect) (Some ex_http_request) None.
Lemma ex_refused_run :
  spec_run ∅ [Accepts 0 ex_http_request 0%nat; Answers 0 ex_refused]
    (<[0%nat := Answered]> (<[0%nat := Waiting ex_http_request 0%nat]> ∅)).
Proof.
  apply (run_snoc ∅ [Accepts 0 ex_http_request 0%nat] (<[0%nat := Waiting ex_http_request 0%nat]> ∅)).
  - apply (run_snoc ∅ [] ∅); [constructor|]. by apply (spec_accept ∅ 0).
  - apply (spec_answer _ 0 ex_http_request); [by rewrite lookup_insert_eq|reflexivity|].
    exists CouldNotConnect. done.
Qed.
Lemma client_callback_safe_witness :
  exists text, client_callback (fun _ => Ok "") ex_refused = Ok text.
Proof.
  destruct (client_callback_safe (fun _ => Ok "") _ _ 0 ex_refused ex_refused_run ltac:(left))
    as (r & Hr & [(c & Hc & _ & H)|(resp & Hresp & _)]); [|discriminate Hresp].
  eexists. exact H.
Defined.
