(* ===== verification/EventLoop.v ===== *)
(** * The event loop service

    [EventLoopService] and [GlobalService] of include/fuerte/loop.h and
    src/loop.cpp, and the table of src/VpackInit.h: a group of threads that run
    the handlers of an io service of Boost, from the constructor to the
    destructor, and what happens to an exception that leaves a handler.

    The io service is used as documented: [run] executes ready handlers, lets
    the exceptions of handlers out, and returns when the service has been stopped
    or when neither a [work] object nor outstanding operations are left.

    - [loop_serves_handlers]: as long as the service lives, each of its threads
      runs handlers; its destructor waits for all of them;
    - [exception_ends_program]: the first exception that leaves a handler ends the
      program; with a [handleRunException] that swallows them, every exception costs
      a thread for good. *)
From S2P Require Import Prelude StdMap Types Endian Chunk VPack ToyVPack Message HeaderCodec RequestItem MessageStore VstConnection VstInvariant VstReceive VstProperties.
Local Open Scope Z_scope.

(** ** Global state *)

(** The attribute names VelocyPack abbreviates. *)
Class Translator (T : Type) : Type := {
  translator_new : T;
  translator_add : string -> Z -> T -> T;
  translator_seal : T -> T;
}.
Definition attribute_table : list (string * Z) :=
  [("_key", 1); ("_rev", 2); ("_id", 3); ("_from", 4); ("_to", 5)].
(** The constructor of [VpackInit]: the translator that becomes the default. *)
Definition VpackInit {T} `{Translator T} : T :=
  translator_seal (foldl (fun t a => translator_add a.1 (u8 a.2) t) translator_new attribute_table).

(** [GlobalService]: a static object, and how often the libraries have been
    initialised and cleaned up. *)
Record globals (T : Type) : Type := MkGlobals {
  gl_service : bool;
  gl_translator : option T;
  gl_curl_inits : nat;
  gl_curl_cleanups : nat;
}.
Arguments MkGlobals {T}. Arguments gl_service {T}. Arguments gl_translator {T}.
Arguments gl_curl_inits {T}. Arguments gl_curl_cleanups {T}.
Definition new_globals {T} : globals T := MkGlobals false None 0 0.
Definition new_GlobalService {T} `{Translator T} (g : globals T) : globals T :=
  MkGlobals true (Some VpackInit) (S (gl_curl_inits g)) (gl_curl_cleanups g).
Definition GlobalService_get {T} `{Translator T} (g : globals T) : globals T :=
  if gl_service g then g else new_GlobalService g.
Definition destroy_GlobalService {T} (g : globals T) : globals T :=
  MkGlobals (gl_service g) (gl_translator g) (gl_curl_inits g) (S (gl_curl_cleanups g)).

(** ** The service *)
Section EventLoop.
Context {S H : Type}.
(** The handlers an io service could run next, whether operations are under way,
    and what a handler does. *)
Context (ready : S -> H -> Prop) (outstanding : S -> Prop) (exec : H -> stm S unit).
(** What users of the connections do meanwhile. *)
Context (user_step : S -> S -> Prop).
(** The virtual member. *)
Context (handleRunException : exn -> res unit).

(** Is the thread in [io_service_->run()]? *)
Inductive thread : Type := InRun | Finished.
#[export] Instance thread_eq_dec : EqDecision thread.
Proof. solve_decision. Defined.
Inductive phase : Type := Alive | Joining | Destroyed.

Record EventLoopService : Type := MkLoop {
  working_ : bool;
  threadGroup_ : list thread;
  lp_stopped : bool;         (* of the io service *)
  lp_phase : phase;
  lp_state : S;
}.
(** The program: still running, ended by [exit], or by [std::terminate]. *)
Inductive program : Type := Live (l : EventLoopService) | Exited (status : Z) | Terminated.

(** The loop of the constructor. *)
Fixpoint add_threads (threadCount : nat) (threads : list thread) : list thread :=
  match threadCount with
  | O => threads
  | Datatypes.S threadCount => add_threads threadCount (threads ++ [InRun])
  end.
Definition new_EventLoopService (threadCount : nat) (s : S) : EventLoopService :=
  MkLoop true (add_threads threadCount []) false Alive s.

(** [run], given how [io_service_->run()] ends. *)
Definition run (io_run : res unit) : res unit :=
  match io_run with
  | Throw e => if is_std_exception e then handleRunException e else Throw e
  | r => r
  end.
Definition set_thread (i : nat) (t : thread) (s : S) (l : EventLoopService) : EventLoopService :=
  MkLoop (working_ l) (<[i := t]> (threadGroup_ l)) (lp_stopped l) (lp_phase l) s.
(** The function of a thread ends. *)
Definition thread_ends (i : nat) (s : S) (r : res unit) (l : EventLoopService) : program :=
  match r with
  | Ok _ => Live (set_thread i Finished s l)
  | Throw (process_exit status) => Exited status
  | _ => Terminated
  end.
(** A handler has run on thread [i]. *)
Definition after_handler (i : nat) (r : res unit) (s : S) (l : EventLoopService) : program :=
  match r with
  | Ok _ => Live (set_thread i InRun s l)
  | r => thread_ends i s (run r) l
  end.

Inductive loop_step : EventLoopService -> program -> Prop :=
| step_handler l i h r s' :
    threadGroup_ l !! i = Some InRun -> lp_stopped l = false -> ready (lp_state l) h ->
    exec h (lp_state l) = (r, s') -> loop_step l (after_handler i r s' l)
| step_run_returns l i :
    threadGroup_ l !! i = Some InRun ->
    lp_stopped l = true \/ (working_ l = false /\ ~ outstanding (lp_state l)) ->
    loop_step l (thread_ends i (lp_state l) (run (Ok ())) l)
| step_user l s' :
    user_step (lp_state l) s' ->
    loop_step l (Live (MkLoop (working_ l) (threadGroup_ l) (lp_stopped l) (lp_phase l) s'))
| step_destructor l :      (* working_.reset() *)
    lp_phase l = Alive -> loop_step l (Live (MkLoop false (threadGroup_ l) (lp_stopped l) Joining (lp_state l)))
| step_joined l :          (* join_all has returned; stop() *)
    lp_phase l = Joining -> Forall (eq Finished) (threadGroup_ l) ->
    loop_step l (Live (MkLoop (working_ l) (threadGroup_ l) true Destroyed (lp_state l))).

Inductive loop_reaches (n : nat) (s0 : S) : program -> Prop :=
| loop_initial : loop_reaches n s0 (Live (new_EventLoopService n s0))
| loop_next l p : loop_reaches n s0 (Live l) -> loop_step l p -> loop_reaches n s0 p.
End EventLoop.
Arguments EventLoopService S : clear implicits.
Arguments program S : clear implicits.

(** [handleRunException] as it is defined in the class. *)
Definition default_handleRunException (e : exn) : res unit := Throw (process_exit 1).

Section Properties.
Context {S H : Type}.
Context (ready : S -> H -> Prop) (outstanding : S -> Prop) (exec : H -> stm S unit) (user_step : S -> S -> Prop).
Implicit Types (hre : exn -> res unit).

Lemma add_threads_spec n l : add_threads n l = l ++ replicate n InRun.
Proof.
  revert l. induction n as [|n IH]; intros l; cbn [add_threads replicate]; [by rewrite app_nil_r|].
  by rewrite IH, <- (assoc_L (++)).
Qed.

(** What holds of the service as long as the program runs. *)
Record loop_inv hre (n : nat) (l : EventLoopService S) : Prop := {
  li_length : length (threadGroup_ l) = n;
  li_working : working_ l = match lp_phase l with Alive => true | _ => false end;
  li_stopped : lp_stopped l = match lp_phase l with Destroyed => true | _ => false end;
  li_destroyed : lp_phase l = Destroyed -> Forall (eq Finished) (threadGroup_ l);
  li_alive : (forall e, hre e <> Ok ()) -> lp_phase l = Alive -> Forall (eq InRun) (threadGroup_ l);
}.

Lemma Forall_insert_eq {A} (x : A) i l : Forall (eq x) l -> Forall (eq x) (<[i := x]> l).
Proof. intros Hl. by apply Forall_insert. Qed.

Lemma loop_inv_step hre n l p :
  loop_inv hre n l -> loop_step ready outstanding exec user_step hre l p ->
  match p with Live l' => loop_inv hre n l' | _ => True end.
Proof.
  intros [Hlen Hw Hst Hd Ha] Hs.
  assert (Hrun : forall i t, threadGroup_ l !! i = Some InRun -> lp_phase l = Destroyed ->
    Forall (eq Finished) (<[i := t]> (threadGroup_ l))).
  { intros i t Hi Hp. pose proof (Forall_lookup_1 _ _ _ _ (Hd Hp) Hi) as [=]. }
  destruct Hs as [l i h r s' Hi Hns Hr He|l i Hi Hret|l s' Hu|l Hp|l Hp Hf]; cbn.
  - assert (Hfin : forall r', (exists e, r' = run hre (Throw e)) ->
      match thread_ends i s' r' l with Live l' => loop_inv hre n l' | _ => True end).
    { intros r' [e ->]. destruct (run hre (Throw e)) as [[]|[]|] eqn:E; cbn; try done.
      split; cbn; [by rewrite length_insert|done|done|by apply Hrun|].
      intros Hno. exfalso. cbn in E. destruct (is_std_exception e); [by apply (Hno e)|done]. }
    destruct r as [[]|e|w]; cbn [after_handler]; [|apply Hfin; by exists e|done].
    split; cbn; [by rewrite length_insert|done|done|by apply Hrun|].
    intros Hno Hp. apply Forall_insert_eq. by apply Ha.
  - split; cbn; [by rewrite length_insert|done|done|by apply Hrun|].
    intros _ Hp. rewrite Hp in *. destruct Hret as [?|[? _]]; congruence.
  - by split.
  - split; cbn; [done|done| |done|done]. by rewrite Hst, Hp.
  - split; cbn; [done| |done|done|done]. by rewrite Hw, Hp.
Qed.

Lemma loop_reaches_inv hre n s0 p :
  loop_reaches ready outstanding exec user_step hre n s0 p ->
  match p with Live l => loop_inv hre n l | _ => True end.
Proof.
  induction 1 as [|l p _ IH Hs]; [|by eapply loop_inv_step].
  split; cbn; try done; rewrite add_threads_spec; cbn; [by rewrite length_replicate|].
  intros _ _. by apply Forall_replicate.
Qed.

Local Abbreviation step := (loop_step ready outstanding exec user_step default_handleRunException).

(** The steps after which the program still runs. *)
Lemma live_step_inv l l' :
  step l (Live l') ->
  (exists i s', l' = set_thread i InRun s' l)
  \/ (exists i, l' = set_thread i Finished (lp_state l) l
       /\ (lp_stopped l = true \/ (working_ l = false /\ ~ outstanding (lp_state l))))
  \/ (exists s', l' = MkLoop (working_ l) (threadGroup_ l) (lp_stopped l) (lp_phase l) s')
  \/ (lp_phase l = Alive /\ l' = MkLoop false (threadGroup_ l) (lp_stopped l) Joining (lp_state l))
  \/ (lp_phase l = Joining /\ Forall (eq Finished) (threadGroup_ l)
       /\ l' = MkLoop (working_ l) (threadGroup_ l) true Destroyed (lp_state l)).
Proof.
  intros Hs. remember (Live l') as p eqn:Hp. destruct Hs as [l i h r s' Hi Hns Hr He|l i Hi Hret|l s' Hu|l Ha|l Ha Hf].
  - left. destruct r as [[]|e|w]; cbn in Hp; [|exfalso|done].
    + injection Hp as <-. by exists i, s'.
    + unfold run, default_handleRunException in Hp. destruct (is_std_exception e), e; done.
  - right; left. cbn in Hp. injection Hp as <-. by exists i.
  - right; right; left. injection Hp as <-. by exists s'.
  - right; right; right; left. by injection Hp as <-.
  - right; right; right; right. by injection Hp as <-.
Qed.

(** C24: as long as the service has not been destroyed, and with exceptions handled
    as the class does, every one of its threads is there to run any ready handler,
    and no step makes one leave [run]: the [work] object keeps them, also when
    there is nothing to do.  The destructor gets past the join exactly when every
    thread has finished, and while it waits threads finish only when no operation
    is under way any more. *)
Theorem loop_serves_handlers (n : nat) (s0 : S) (l : EventLoopService S) :
  loop_reaches ready outstanding exec user_step default_handleRunException n s0 (Live l) ->
  length (threadGroup_ l) = n
  /\ (lp_phase l = Alive ->
       (forall i h, (i < n)%nat -> ready (lp_state l) h ->
          let '(r, s') := exec h (lp_state l) in step l (after_handler default_handleRunException i r s' l))
       /\ forall l', step l (Live l') -> Forall (eq InRun) (threadGroup_ l'))
  /\ (lp_phase l = Joining ->
       ((exists l', step l (Live l') /\ lp_phase l' = Destroyed) <-> Forall (eq Finished) (threadGroup_ l))
       /\ forall l' i, step l (Live l') -> threadGroup_ l !! i = Some InRun ->
            threadGroup_ l' !! i = Some Finished -> ~ outstanding (lp_state l)).
Proof.
  intros Hi%loop_reaches_inv. pose proof Hi as [Hlen Hw Hst Hd Ha]. split_and!; [done| |].
  - intros Hp. specialize (Ha ltac:(done) Hp). rewrite Hp in Hst, Hw. split.
    2: { intros l' [(i & s' & ->)|[(i & -> & [?|[? _]])|[(s' & ->)|[[_ ->]|[? _]]]]]%live_step_inv;
           cbn; try done; [by apply Forall_insert_eq|congruence..]. }
    intros i h Hin Hr. destruct (exec h (lp_state l)) as [r s'] eqn:He.
    eapply step_handler; [|by rewrite Hst|exact Hr|exact He].
    destruct (lookup_lt_is_Some_2 (threadGroup_ l) i) as [t Ht]; [by rewrite Hlen|].
    rewrite Ht. f_equal. symmetry. by apply (Forall_lookup_1 _ _ _ _ Ha Ht).
  - intros Hp. rewrite Hp in Hst, Hw. split; [split|].
    + intros (l' & [(i & s' & ->)|[(i & -> & _)|[(s' & ->)|[[? _]|(_ & Hf & _)]]]]%live_step_inv & Hp');
        cbn in Hp'; congruence || done.
    + intros Hf. eexists. by split; [by apply step_joined|].
    + intros l' i [(j & s' & ->)|[(j & -> & [?|[_ ?]])|[(s' & ->)|[[? _]|(_ & _ & ->)]]]]%live_step_inv Hi1 Hi2;
        cbn in Hi2; try congruence; try done.
      apply list_lookup_insert_Some in Hi2 as [(_ & [=] & _)|[_ ?]]. congruence.
Qed.

(** ** Exceptions

    A step in which an exception leaves a handler, and runs with the number of such
    steps. *)
Inductive exception_step hre : EventLoopService S -> program S -> Prop :=
| step_exception l i h e s' :
    threadGroup_ l !! i = Some InRun -> lp_stopped l = false -> ready (lp_state l) h ->
    exec h (lp_state l) = (Throw e, s') -> exception_step hre l (after_handler hre i (Throw e) s' l).
Inductive runs_throwing hre (n : nat) (s0 : S) : nat -> program S -> Prop :=
| throwing_initial : runs_throwing hre n s0 0 (Live (new_EventLoopService n s0))
| throwing_exception k l p :
    runs_throwing hre n s0 k (Live l) -> exception_step hre l p -> runs_throwing hre n s0 (Datatypes.S k) p
| throwing_other k l p :
    runs_throwing hre n s0 k (Live l) -> loop_step ready outstanding exec user_step hre l p ->
    ~ exception_step hre l p -> runs_throwing hre n s0 k p.

Lemma exception_is_step hre l p : exception_step hre l p -> loop_step ready outstanding exec user_step hre l p.
Proof. intros [? i h e s' Hi Hst Hr He]. by eapply step_handler. Qed.
Lemma runs_throwing_reaches hre n s0 k p :
  runs_throwing hre n s0 k p -> loop_reaches ready outstanding exec user_step hre n s0 p.
Proof. induction 1 as [|k l p _ IH Hs%exception_is_step|k l p _ IH Hs _]; [constructor|by eapply loop_next..]. Qed.

(** The threads that still run handlers. *)
Definition running (ths : list thread) : list thread := filter (eq InRun) ths.
Lemma running_finish ths i :
  ths !! i = Some InRun -> length (running ths) = Datatypes.S (length (running (<[i := Finished]> ths))).
Proof.
  unfold running. revert i. induction ths as [|t ths IH]; intros [|i]; try done; cbn [lookup list_lookup].
  - intros [= ->]. change (<[0%nat := Finished]> (InRun :: ths)) with (Finished :: ths).
    by rewrite !filter_cons, decide_True, decide_False by done.
  - intros Hi. change (<[Datatypes.S i := Finished]> (t :: ths)) with (t :: <[i := Finished]> ths).
    rewrite !filter_cons. destruct (decide (InRun = t)); cbn [length]; by rewrite (IH i Hi).
Qed.
Lemma none_running ths : length (running ths) = 0%nat -> Forall (eq Finished) ths.
Proof.
  unfold running. induction ths as [|t ths IH]; [constructor|]. rewrite filter_cons.
  destruct (decide (InRun = t)) as [|Ht]; [done|]. intros Hl. constructor; [by destruct t|by apply IH].
Qed.
Lemma running_all n : length (running (replicate n InRun)) = n.
Proof.
  unfold running. induction n as [|n IH]; [done|]. cbn [replicate]. rewrite filter_cons, decide_True by done.
  cbn [length]. by rewrite IH.
Qed.

(** With the class's own [handleRunException], a program that still runs has seen no
    exception. *)
Lemma default_runs_throwing n s0 k p :
  runs_throwing default_handleRunException n s0 k p -> match p with Live _ => k = 0%nat | _ => (k <= 1)%nat end.
Proof.
  induction 1 as [|k l p _ IH Hs|k l p _ IH Hs _]; [done| |subst k; by destruct p; lia].
  subst k. destruct Hs as [l i h e s' _ _ _ _]. unfold after_handler, run, default_handleRunException.
  destruct (is_std_exception e) eqn:He; cbn; [lia|]. destruct e; cbn; try lia; discriminate He.
Qed.

(** Otherwise every exception has cost a thread. *)
Lemma swallowed_runs_throwing hre n s0 k l :
  (forall e, hre e = Ok ()) -> runs_throwing hre n s0 k (Live l) -> lp_phase l = Alive ->
  (length (running (threadGroup_ l)) + k = n)%nat.
Proof.
  intros Hhre Hr. remember (Live l) as p eqn:Hp. revert l Hp.
  induction Hr as [|k l p Hr IH Hs|k l p Hr IH Hs Hno]; intros l' Hp Hph; subst.
  - injection Hp as <-. cbn [threadGroup_ new_EventLoopService]. by rewrite add_threads_spec, app_nil_l, running_all, Nat.add_0_r.
  - inversion Hs as [l0 i h e s' Hi Hst _ _ Hl Hafter]; subst. revert Hafter. unfold after_handler, run.
    destruct (is_std_exception e) eqn:He; [|by destruct e; cbn]. rewrite Hhre. cbn. intros [= <-]. cbn in Hph |- *.
    by rewrite <- (IH l eq_refl Hph), (running_finish _ _ Hi), Nat.add_succ_r.
  - pose proof (loop_reaches_inv _ _ _ _ (runs_throwing_reaches _ _ _ _ _ Hr)) as [_ Hw Hstop _ _].
    inversion Hs as [l0 i h r s' Hi Hst Hrd He Hl Ha|l0 i Hi Hret Hl Ha|l0 s' Hu Hl Ha|l0 Hal Hl Ha|l0 Hal Hf Hl Ha]; subst.
    + destruct r as [[]|e|w]; cbn in Ha; [|exfalso; apply Hno; rewrite <- Ha; by eapply step_exception|done].
      injection Ha as <-. cbn in Hph |- *. rewrite list_insert_id by done. by apply IH.
    + cbn in Hph. rewrite Hph in Hw, Hstop. destruct Hret as [?|[? _]]; congruence.
    + by rewrite <- (IH l eq_refl Hph).
    + done.
    + done.
Qed.

(** A thread that has finished does not come back. *)
Definition live_step hre (l l' : EventLoopService S) : Prop :=
  loop_step ready outstanding exec user_step hre l (Live l').
Lemma live_step_threads hre l l' :
  live_step hre l l' ->
  threadGroup_ l' = threadGroup_ l
  \/ exists j t, threadGroup_ l !! j = Some InRun /\ threadGroup_ l' = <[j := t]> (threadGroup_ l).
Proof.
  intros Hs. inversion Hs as [l0 j h r s' Hj _ _ _ Hl Ha|l0 j Hj _ Hl Ha| | |]; subst; [|right|by left..].
  - right. unfold after_handler, thread_ends in Ha. repeat case_match; simplify_eq; by eexists _, _.
  - by eexists _, _.
Qed.
Lemma finished_stays hre l l' i :
  rtc (live_step hre) l l' -> threadGroup_ l !! i = Some Finished -> threadGroup_ l' !! i = Some Finished.
Proof.
  induction 1 as [|l1 l2 l3 Hs _ IH]; [done|]. intros Hi. apply IH.
  destruct (live_step_threads _ _ _ Hs) as [->|(j & t & Hj & ->)]; [done|].
  rewrite list_lookup_insert_ne; [done|]. congruence.
Qed.
Lemma all_finished_stay hre l l' :
  rtc (live_step hre) l l' -> Forall (eq Finished) (threadGroup_ l) -> Forall (eq Finished) (threadGroup_ l').
Proof.
  induction 1 as [|l1 l2 l3 Hs _ IH]; [done|]. intros Hf. apply IH.
  destruct (live_step_threads _ _ _ Hs) as [->|(j & t & Hj & ->)]; [done|].
  pose proof (Forall_lookup_1 _ _ _ _ Hf Hj) as [=].
Qed.

(** C38: exceptions that leave handlers.  With [handleRunException] as the class defines
    it, a program that still runs has seen none, and no program sees two: the first ends
    it.  When the member is overridden and swallows them, every exception costs the
    service one of its threads for good: as long as it is alive, after [k] exceptions
    exactly [n - k] of its [n] threads still run handlers, a thread that has left never
    comes back, whatever happens, and after [n] exceptions no thread runs a handler ever
    again, although the service is alive. *)
Theorem exception_ends_program hre (n : nat) (s0 : S) (k : nat) (p : program S) :
  runs_throwing hre n s0 k p ->
  (hre = default_handleRunException -> match p with Live _ => k = 0%nat | _ => (k <= 1)%nat end)
  /\ ((forall e, hre e = Ok ()) -> forall l, p = Live l -> lp_phase l = Alive ->
       (length (running (threadGroup_ l)) + k = n)%nat
       /\ forall l', rtc (live_step hre) l l' ->
            (forall i, threadGroup_ l !! i = Some Finished -> threadGroup_ l' !! i = Some Finished)
            /\ (k = n -> Forall (eq Finished) (threadGroup_ l'))).
Proof.
  intros Hr. split; [intros ->; by eapply default_runs_throwing|]. intros Hhre l -> Hph.
  pose proof (swallowed_runs_throwing hre n s0 k l Hhre Hr Hph) as Hn. split; [done|].
  intros l' Hl'. split; [intros i; by apply (finished_stays hre l)|]. intros ->.
  apply (all_finished_stay hre l _ Hl'). apply none_running. lia.
Qed.
End Properties.

(** However many services are made, the libraries are initialised once. *)
Lemma GlobalService_once {T} `{Translator T} (n : nat) :
  (0 < n)%nat -> Nat.iter n GlobalService_get (new_globals (T := T)) = new_GlobalService new_globals.
Proof.
  intros Hn. destruct n as [|n]; [lia|]. clear Hn. induction n as [|n IH]; [done|].
  change (Nat.iter (S (S n)) GlobalService_get new_globals)
    with (GlobalService_get (Nat.iter (S n) GlobalService_get (new_globals (T := T)))). by rewrite IH.
Qed.

(** ** The service and a VST connection *)
Definition vst_handler : Type := nat * outcome.
Definition vst_ready (s : VstConnection) (h : vst_handler) : Prop := (h.1 < length (pending s))%nat.
Definition vst_outstanding (s : VstConnection) : Prop := pending s <> [].
Definition ex_exec (h : vst_handler) : stm VstConnection unit := ex_perform (AHandler h.1 h.2).
Definition ex_user_step (s s' : VstConnection) : Prop :=
  exists request cb, ex_perform (ASend request cb) s = (Ok (), s').
Definition ex_loop : EventLoopService VstConnection := new_EventLoopService 1 ex_sent.
Lemma ex_loop_reached hre :
  loop_reaches vst_ready vst_outstanding ex_exec ex_user_step hre 1 ex_sent (Live ex_loop).
Proof. constructor. Qed.

(** The response is read by the only thread. *)
Lemma loop_serves_handlers_witness :
  exists p, loop_step vst_ready vst_outstanding ex_exec ex_user_step default_handleRunException ex_loop p
    /\ forall l', loop_step vst_ready vst_outstanding ex_exec ex_user_step default_handleRunException ex_loop (Live l') ->
         Forall (eq InRun) (threadGroup_ l').
Proof.
  destruct (loop_serves_handlers vst_ready vst_outstanding ex_exec ex_user_step 1 ex_sent ex_loop (ex_loop_reached _))
    as (_ & H & _).
  destruct (H eq_refl) as [H1 H2]. specialize (H1 0%nat (1%nat, ex_ok) ltac:(lia) ltac:(vm_compute; lia)).
  destruct (ex_exec (1%nat, ex_ok) (lp_state ex_loop)) as [r s'] eqn:E.
  eexists. split; [exact H1|exact H2].
Defined.

(** A server that sends one malformed byte makes a handler throw. *)
Definition ex_malformed : vst_handler :=
  (1%nat, MkOutcome None [] (wire_chunk VST1_1 (MkChunk 25 3 1 1 (MkBuffer [Byte.xff] 1) 0 0) [Byte.xff])).
Definition ex_throws : bool * VstConnection := let '(r, s') := ex_exec ex_malformed ex_sent in
  (bool_decide (r = Throw (runtime_error "error during validation of incoming VPack (HEADER)")), s').
Lemma ex_throws_once hre :
  runs_throwing vst_ready vst_outstanding ex_exec ex_user_step hre 1 ex_sent 1
    (thread_ends 0 ex_throws.2 (hre (runtime_error "error during validation of incoming VPack (HEADER)")) ex_loop).
Proof.
  assert (Hb : ex_throws.1 = true) by (vm_compute; reflexivity). unfold ex_throws in *.
  destruct (ex_exec ex_malformed ex_sent) as [r s'] eqn:He. apply bool_decide_eq_true_1 in Hb. cbn in Hb. subst r.
  eapply (throwing_exception _ _ _ _ _ _ _ 0 ex_loop); [apply throwing_initial|].
  exact (step_exception vst_ready ex_exec hre ex_loop 0%nat ex_malformed _ s' eq_refl eq_refl
    ltac:(vm_compute; lia) He).
Qed.

(** The exception ends the program; swallowed, it ends the only thread for ever. *)
Lemma exception_ends_program_witness :
  (runs_throwing vst_ready vst_outstanding ex_exec ex_user_step default_handleRunException 1 ex_sent 1 (Exited 1)
    /\ (1 <= 1)%nat)
  /\ exists l, runs_throwing vst_ready vst_outstanding ex_exec ex_user_step (fun _ => Ok ()) 1 ex_sent 1 (Live l)
      /\ lp_phase l = Alive /\ forall l', rtc (live_step vst_ready vst_outstanding ex_exec ex_user_step (fun _ => Ok ())) l l' ->
           Forall (eq Finished) (threadGroup_ l').
Proof.
  pose proof (ex_throws_once default_handleRunException) as H1. pose proof (ex_throws_once (fun _ => Ok ())) as H2.
  cbn in H1, H2. split.
  - split; [exact H1|]. exact (proj1 (exception_ends_program _ _ _ _ _ 1 ex_sent 1 _ H1) eq_refl).
  - eexists. split; [exact H2|]. split; [done|]. intros l' Hl'.
    destruct (exception_ends_program _ _ _ _ _ 1 ex_sent 1 _ H2) as [_ H].
    destruct (H (fun _ => eq_refl) _ eq_refl eq_refl) as [_ Hf]. exact (proj2 (Hf l' Hl') eq_refl).
Defined.
