(* ===== verification/Database.v ===== *)
(** * Databases and collections

    [Database] and [Collection] of include/fuerte/database.h, collection.h and their
    sources: so far two objects with a name and a pointer to the one they belong
    to.  No operation talks to the server.  The constructor of [Database] is
    private to [Connection], which does not use it. *)
From S2P Require Import Prelude.

(** The connection and the database are shared pointers. *)
Record Database : Type := new_Database { db_conn : nat; db_name : string }.
Record Collection : Type := new_Collection { col_db : Database; col_name : string }.

Definition getCollection (this : Database) (name : string) : Collection := new_Collection this name.
Definition createCollection (this : Database) (name : string) : Collection := new_Collection this name.
Definition deleteCollection (this : Database) (name : string) : bool := false.

(** A document is a string; the operations without a result do nothing. *)
Definition collection_insert (this : Collection) (document : string) : bool := false.
